(* ===== verification/_CoqProject ===== *)
-Q . S2P
Prelude.v
Base64.v
Utils.v
Cdouble.v
ParsonText.v
Utf8.v
Parson.v
ParsonParse.v
ParsonPrint.v
NumberText.v
ParsonRoundtrip.v
ParsonApi.v
ParsonSchema.v
StdMap.v
Sgx.v
HeapLogic.v
ParsonHeap.v
ParsonHeapProofs.v
ParsonFile.v
ParsonHeapApi.v
ParsonHeapApiProofs.v
EccCrypto.v
Shim.v
AuctionJson.v
Auction.v
AuctionSpec.v
Fabric.v
Ledger.v
LedgerProofs.v
LedgerThreads.v
TlccEnclave.v
EccEnclave.v
Interleaving.v
HostLib.v
Ias.v
IasHeap.v
Endorsement.v
PeerGlue.v
System.v
Evaluation.v
Vscc.v
Registry.v
Client.v
Setup.v
Wrapper.v
Logging.v
Driver.v
TlccChaincode.v
Plugins.v
