(* ===== verification/Prelude.v ===== *)
(** * Verification of the secure chaincode enclaves of Hyperledger Fabric

    The program runs a chaincode inside an SGX enclave and lets it check the
    ledger state it reads with the help of a second enclave. Its C and C++
    parts, and the files that model them:

    - Shared code. [Base64] is common/base64/base64.cpp, [Utils] common/utils.c.
      The JSON library common/json/parson.c is split: [ParsonText] (escapes,
      UTF-8, quoted strings), [Parson] (values, objects, arrays), [ParsonParse]
      (the parser), [ParsonPrint] (the serializer), [ParsonSchema]
      ([json_validate]), [NumberText] (the length of a printed number). These
      work on values;
      [ParsonHeap] (constructors, parser, destructor), [ParsonHeapApi] (the
      object and array operations, deep copy) and [ParsonFile] (files and
      comments) are the same functions on a heap of blocks, with allocations
      that may fail and every [free]. [Cdouble] models what
      parson uses of C's doubles ([strtod], the ["%1.17g"] conversion,
      conversions to and from [int]) on the Standard Library's SpecFloat.
      [Logging] is common/logging.c and logging.h.
    - The chaincode enclave (ecc_enclave/enclave). [EccCrypto] is crypto.cpp,
      [Shim] shim.cpp, [AuctionJson] and [Auction] the auction chaincode
      (auction/auction_json.cpp, auction_cc.cpp), [EccEnclave] enclave.cpp and
      the identity and reports of common/enclave/common.cpp.
    - The ledger enclave (tlcc_enclave/enclave). [Ledger] is ledger.cpp,
      ledger.h, crypto.cpp, asn1_utils.c and ecc_json.cpp; [TlccEnclave] is
      enclave.cpp; [Ias] (the checks of a quote) and [IasHeap] (the report, on
      the memory model of parson) are ias.cpp.
    - The host libraries (ecc_enclave/sgxcclib/sgxcclib.c,
      tlcc_enclave/trusted_ledger/trusted_ledger.c) are [HostLib]; [Driver] is
      the test driver tlcc_enclave/test/test.c above the second one.
    - The Go glue between the host libraries and Fabric (utils/utils.go,
      ecc/enclave/enclave_stub.go, ecc/tlcc/stub.go,
      tlcc/enclave/enclave_stub.go) is [PeerGlue]. [Vscc] is the chaincode
      wrapper's [invoke] above it (ecc/enclave_chaincode.go,
      ecc/crypto/ecdsa.go) and the peer's validation plugin
      (ecc/vscc/ecc_validation_logic.go), [Setup] the wrapper's [setup] and the
      rest of the enclave stub with its semaphore, [Client] the client's
      encryption (ecc/crypto/enc.go). [Plugins] is the validation plugins around
      these checks, from the block and envelope on
      (ecc/vscc/ecc_validation_plugin.go, ercc/vscc/ercc_validation_plugin.go and
      [Validate] of the two validation_logic.go).
    - The Go chaincodes: [Registry] is the registry of enclaves (ercc/ercc.go,
      ercc/attestation, ecc/ercc/stub.go) and its validation plugin
      (ercc/vscc/ercc_validation_logic.go), [TlccChaincode] the chaincode in
      front of the ledger enclave (tlcc/tlcc.go, tlcc/enclave/enclave_stub.go).
    - Threads: [Interleaving] cuts [ecall_invoke] and [LedgerThreads] the
      ECALLs of the ledger enclave at their accesses to shared data; [Wrapper]
      cuts the handlers of concurrent proposals in the chaincode wrapper at
      their accesses to the semaphore, the enclave id and the registry of stubs
      (a handler is the sequence of its enclave calls; what a call computes is
      in [Setup], [Vscc] and [PeerGlue]).
    - Composition: [Endorsement] (from the signed hash to its validation),
      [System] (clients, peers, ordering and the ledger enclave) and
      [Evaluation] (the end of an auction).

    How they interact: the peer delivers blocks to the ledger enclave
    ([HostLib.tlcc_send_block] → [TlccEnclave.ecall_next_block] →
    [Ledger.parse_block]), which keeps the key-value state with versions. A
    client's transaction is executed by [EccEnclave.ecall_invoke], which calls
    the chaincode ([Auction.invoke]); the chaincode reads and writes through
    [Shim]. A read is an OCALL to the peer, whose answer carries a CMAC tag the
    ledger enclave computed ([TlccEnclave.ecall_get_state_metadata]); values are
    encrypted ([EccCrypto]). The enclave signs the hash of arguments, response,
    read and write set; the transaction comes back in a block, where the ledger
    recomputes the hash ([Ledger.validate_ecc_tx]). Before that, the enclave is
    created, quoted, registered and bound to the ledger enclave
    ([Setup.setup]); the peers accept a registration when the attestation
    service signed a quote with the measurement on the channel
    ([Registry.check_ercc_all]), and an endorsement when its key is registered
    ([Vscc.checkEnclaveEndorsement]).

    ** Conventions

    A C buffer or a [std::string] is a list of bytes; a [char *] into a
    NUL-terminated buffer is the list of the bytes from the pointer on (see "C
    strings" below). Machine integers are in [Z] with their wrap-around written
    out ([u32]) where the code relies on it, and [int] arithmetic that would
    overflow is a fault. Undefined behaviour, failed assertions, deadlock and
    uncaught exceptions are values of [fault]; a computation returns [res]:
    [Ok], [UB fault], or [NoFuel] for a loop whose fuel ran out. State is
    passed explicitly: [Sgx.ST] is the state monad of the chaincode enclave,
    [Ledger.LM] that of the ledger, with the early [return] of an error code,
    [Setup.GM] that of the wrapper; a Go function returns [Vscc.go_res] (a
    result, an error or a panic). [HeapLogic] has [malloc], [free] and access to
    a heap of blocks, where a wrong pointer is a fault and a list says which
    allocations fail, and a linear separation logic on it, as a logic of Iris:
    an owned block cannot be dropped, so that a specification excludes leaks.
    Its adequacy theorem turns specifications into statements about runs, and
    the properties are stated about runs.
    What the code only writes to the log is kept as a list ([Shim.log],
    [Ledger.events]), so that theorems can speak about it. [std::map] and
    [std::set] are sorted association lists ([StdMap]) with an abstraction
    function to finite maps.

    Code that is not part of the repository is a type class: [Sgx.Crypto]
    (SHA-256, CMAC, AES-GCM, random numbers), [Sgx.Peer] (the OCALLs; the
    enclave is verified against an arbitrary peer, and [PeerGlue.peer] is the
    instance the Go glue implements), [PeerGlue.ShimStub] and
    [PeerGlue.Simulator] (Fabric's chaincode stub), [EccEnclave.Platform] (key pairs, ECDSA, reports),
    [Fabric.FabricPb] (nanopb decoders), [Fabric.OpenSSL], [Ias.IasCrypto],
    [Vscc.GoLib] (Go's ASN.1, X.509, ECDSA and JSON decoders),
    [Registry.RegLib] (PEM, X.509, RSA, TLS and HTTP of Go), [Client.GoEnc]
    (Go's AES-GCM and curve), [Setup.GoSetup] (the layout of a report),
    [Plugins.Protos] and [Plugins.DefaultVscc] (Fabric's decoders and default
    validation).
    What the theorems rely on is in classes of laws ([Sgx.CryptoLaws]: sizes,
    decryption inverts encryption; [EccEnclave.PlatformLaws];
    [TlccEnclave.SameHash]; [PeerGlue.ShimLaws]: the documented behaviour of
    the transaction simulator; [Vscc.GoLaws], [Vscc.SameWire],
    [Registry.RegLaws], [Client.EncLaws] and [Setup.SetupLaws]).
    Each class has a concrete instance, on which the [_witness] lemmas run the
    theorems.

    Fuel: [ParsonParse.json_parse_string] runs with [S (2 * length s)], two
    units per character, since every recursive call consumes a character or
    moves from a container to its elements; [json_parse_string_total] shows it
    is enough for every input. [ParsonHeap.json_parse_string] has the same
    fuel; [ParsonHeap.json_value_free] and [ParsonHeapApi.json_value_deep_copy]
    have one more than the number of allocated blocks, enough for every tree in
    memory ([value_free_exact], [deep_copy_memory_safe]).
    [Ledger.composite_loop] has the length of the key plus two. The other loops
    are structural.

    ** Theorems

    - The whole system ([System], [Evaluation]): clients invoke the auction at
      peers whose ledgers may lag behind, and the endorsed transactions are
      ordered into blocks. Every honest block is accepted and the ledger always
      holds, encrypted, what the serial reference [System.serial_run] computes
      from the submitted calls in block order: a call has no effect if its
      transaction is marked, its auction was written since the endorsement or
      its record was already written in the block, and its own effect otherwise
      ([system_serializable]); closed auctions are final
      ([closed_auction_final]); an evaluation answers from exactly the bids the
      ledger holds, if none is negative ([evaluation_correct]). An honest block
      has the next number, transactions endorsed in some state the run has been
      in by a peer in step with the ledger enclave, and a validation filter; the
      ledger enclave itself applies transactions whose signature does not
      verify, so that nothing is shown of other blocks. Names have at most [System.MAX_NAME] bytes (so that an
      encrypted record fits the buffers of the chaincode) and no character that
      the glue puts into JSON text or keys unescaped ([PeerGlue.peer_name]);
      [evaluation_correct] also assumes that the JSON text of the range fits
      the buffer of the shim.
    - Concurrency ([Interleaving], [LedgerThreads], [Wrapper]): invocations with different
      contexts do not interfere ([invocations_isolated]) and write only, clear or
      encrypted, the key their arguments name, and sign these writes
      ([signed_writes_confined]); a block processed while queries
      run is atomic for them ([block_atomic_for_queries]) and no schedule runs
      forever or deadlocks ([schedules_finish]). In the wrapper, no more threads
      are in the enclave than it has ([enclave_threads_bounded]), every schedule
      ends ([proposals_end]), and callbacks reach the stub of their own proposal
      if registrations do not overlap ([callbacks_own_stub]) and never after a
      registration that was overtaken ([registration_race]).
    - Ledger ([LedgerProofs]): blocks are atomic and free of deadlock, or fault
      ([parse_block_atomic]), a commit is a union of maps ([commit_is_union]),
      versions only grow along any sequence of blocks with numbers below
      [2 ^ 32 - 1] ([versions_never_decrease]), stale reads are rejected
      ([stale_read_rejected]).
    - Integrity across the enclaves ([TlccEnclave], [Endorsement], [EccEnclave],
      [HostLib]): honest reads and range queries verify
      ([honest_read_verified], [honest_range_verified]), a tag binds key and
      value ([state_tag_binds_value]), the ledger recomputes the signed hash
      ([auction_endorsement_validated]), encrypted invocations
      ([encrypted_args_delivered]), attestation and binding
      ([bind_accepts_reported_key], [local_attestation_binds],
      [genesis_joined], [attestation_sound]).
    - Outside the enclaves ([Vscc], [Registry], [Setup], [Plugins], [Client],
      [TlccChaincode]): from setup over registration to accepted endorsements
      and transactions the plugins accept ([setup_then_endorse],
      [setup_then_commit], [registration_accepted]); every key the plugin
      takes for registered was attested ([registry_sound]), and on a channel
      with any transactions every value of the chaincode was signed by such a
      key ([chaincode_state_attested]); the client's
      encrypted calls are delivered, or what happens when one of its keys is
      short ([client_call_delivered]); the ledger enclave follows a prefix of
      the chain or faults ([ledger_follows_prefix]); the
      peer's validation plugin accepts
      honest endorsements ([vscc_accepts_auction]), hashes what the ledger
      enclave hashes if and only if no key is read twice, with at most one
      write, and for two writes if and only if their values are equal
      ([validators_hash_iff]), and the ledger enclave parses the wrapper's
      answers that fit its buffers ([ecc_response_parsed]).
    - Auction ([AuctionSpec], [AuctionJson]): the chaincode implements the
      abstract calls ([invoke_refines_spec]), the evaluation finds the winner
      ([auction_eval_winner]), records round-trip.
    - JSON ([ParsonText], [Utf8], [ParsonParse], [ParsonPrint],
      [ParsonRoundtrip], [ParsonApi]): the parser is total, the serializer
      stays in its buffer and prints the reference text, values round-trip,
      objects are finite maps, every sequence of calls that change a container
      of a value keeps it well formed ([api_keeps_wf]), [is_valid_utf8] is UTF-8, schema validation decides its
      specification ([json_validate_iff]), every double prints in 24 characters
      ([number_text_bounded]).
    - Logging ([Logging]): on formats with the conversions the program uses,
      [printf] stays in its buffer and is defined exactly for arguments that fit
      ([printf_spec]).
    - JSON in memory ([ParsonHeapProofs], [ParsonHeapApiProofs],
      [ParsonFile]): whatever the text and whatever allocations fail, the parser
      does not fault, leaks nothing and builds the value of the functional
      parser ([parse_memory_safe], [parse_free_balanced]); the same for
      setting members, deep copies and every sequence of array calls
      ([set_value_memory_safe], [deep_copy_memory_safe],
      [array_client_balanced]), and for files ([parse_file_safe],
      [file_roundtrip]).
    - Base64, byte utilities and state encryption: round trips, bounds,
      independence of uninitialised memory.
    - Defects of the code, stated as theorems: [failed_invocation_dangles],
      [send_block_hides_refusal], [attestation_use_after_free],
      [enclave_pk_check], [bind_needs_full_coordinates],
      [short_client_key_overruns], [failed_setups_block],
      [invalid_quote_registered], [malformed_certificate_panics],
      [cyclic_insertion], [set_string_leak], [registration_race],
      [setup_between_answers], [execution_failures_lost], [log_text_is_format],
      [mismatched_formats], [driver_passes_garbage].

    ** Not modelled

    [json_set_allocation_functions] (allocation fails as a parameter says) and
    the log messages of the test driver itself. On the heap, the dotted names of parson, which compose
    the operations that are there, and the serializer's writes (modelled on
    buffers in [ParsonPrint]). Of [vsnprintf], all but the conversions the program
    uses. What a callback's copy past the end of a host buffer overwrites.
    Fabric, SGX and the cryptographic libraries are classes (above). The
    payload [unmarshal_ecc_response] parses is taken to be NUL-terminated, the
    two hashes of a block header to have 32 bytes. A thread's steps are the
    accesses to shared data: weak memory is not modelled, the shared data being
    under a mutex or a spin lock except where [LedgerThreads] and [Wrapper] say
    so. Headers, interface definitions (EDL) and build files have no behaviour
    of their own. *)
From Stdlib Require Export Strings.Byte ZArith Lia.
From Stdlib Require Import String.
From stdpp Require Export base list gmap strings countable.

(** ** Bytes and C integer widths *)

(** A C [unsigned char]/[uint8_t]/[char] cell is a [byte]; a byte buffer or a
    [std::string] is a list of them. *)
Abbreviation bytes := (list byte).

Declare Scope c_scope.
Delimit Scope c_scope with c.

(** The value of a byte read as an unsigned char. *)
Definition b2z (b : byte) : Z := Z.of_N (Byte.to_N b).

(** Conversion of an integer to [unsigned char]: reduction modulo 256. *)
Definition z2b (z : Z) : byte :=
  match Byte.of_N (Z.to_N (z mod 256)) with Some b => b | None => x00 end.

(** Conversions to the fixed-width integer types of the sources. *)
Definition u32 (z : Z) : Z := z mod 2 ^ 32.
Definition u64 (z : Z) : Z := z mod 2 ^ 64.
Definition i32 (z : Z) : Z := (z + 2 ^ 31) mod 2 ^ 32 - 2 ^ 31.

Definition INT_MAX : Z := 2 ^ 31 - 1.
Definition INT_MIN : Z := - 2 ^ 31.

(** Literals: the bytes of an ASCII string literal. *)
Definition bs (s : string) : bytes := String.list_byte_of_string s.
Arguments bs s%_string_scope.

#[global] Instance byte_eq_dec : EqDecision byte := Byte.byte_eq_dec.

#[global] Instance byte_inhabited : Inhabited byte := populate x00.

Lemma b2z_range b : (0 <= b2z b < 256)%Z.
Proof.
  unfold b2z. pose proof (Byte.to_N_bounded b). lia.
Qed.

Lemma z2b_b2z b : z2b (b2z b) = b.
Proof.
  unfold z2b. pose proof (b2z_range b) as Hr.
  rewrite Z.mod_small by lia. unfold b2z.
  by rewrite N2Z.id, Byte.of_to_N.
Qed.

Lemma b2z_z2b z : b2z (z2b z) = (z mod 256)%Z.
Proof.
  unfold z2b. pose proof (Z.mod_pos_bound z 256 ltac:(lia)) as Hr.
  destruct (Byte.of_N (Z.to_N (z mod 256))) as [b|] eqn:E.
  - apply Byte.to_of_N in E. unfold b2z. rewrite E. by rewrite Z2N.id by lia.
  - apply Byte.of_N_None_iff in E. lia.
Qed.

Lemma b2z_inj b1 b2 : b2z b1 = b2z b2 → b1 = b2.
Proof. intros E. by rewrite <-(z2b_b2z b1), <-(z2b_b2z b2), E. Qed.

Lemma z2b_eq z b : (z mod 256)%Z = b2z b → z2b z = b.
Proof. intros E. apply b2z_inj. by rewrite b2z_z2b. Qed.

#[global] Instance byte_countable : Countable byte.
Proof.
  refine (inj_countable' Byte.to_N (λ n, default x00 (Byte.of_N n)) _).
  intros b. by rewrite Byte.of_to_N.
Defined.

(** Exhaustive reasoning on bytes: a boolean property that evaluates to true
    on the 256 bytes holds of every byte. *)
Definition all_bytes : bytes := map (λ n, z2b (Z.of_nat n)) (seq 0 256).

Lemma all_bytes_elem b : b ∈ all_bytes.
Proof.
  unfold all_bytes. apply list_elem_of_fmap.
  exists (Z.to_nat (b2z b)). pose proof (b2z_range b). split.
  - rewrite Z2Nat.id by lia. by rewrite z2b_b2z.
  - apply elem_of_seq. lia.
Qed.

Lemma byte_forall (P : byte → bool) :
  forallb P all_bytes = true → ∀ b, P b = true.
Proof.
  intros H b. rewrite forallb_forall in H. apply H.
  apply list_elem_of_In, all_bytes_elem.
Qed.

(** [byte_cases b] proves a goal about the byte [b] whose decision procedure
    evaluates, by checking all 256 values. *)
Ltac byte_cases b :=
  revert b;
  match goal with
  | |- ∀ b, @?P b => 
    intros b; apply (bool_decide_unpack _);
    revert b;
    lazymatch goal with
    | |- ∀ b, Is_true (@?Q b) =>
      intros b; apply Is_true_true; revert b;
      apply (byte_forall Q); vm_compute; reflexivity
    end
  end.

(** Linear arithmetic with division and modulo by constants. *)
Ltac zdm := Z.div_mod_to_equations; lia.

(** [Forall P] of an explicit list, each element by [done]. *)
Ltac forall_list := repeat (apply List.Forall_cons; [done|]); apply List.Forall_nil.

(** ** Undefined behaviour and errors as values

    Code that may dereference NULL or a dangling pointer, index out of bounds,
    overflow a signed integer, read an uninitialised variable, take a
    lock it holds, fail an assertion, let a C++ exception escape, pass
    arguments that do not fit a format or read a member of a union that is not
    the one set returns a [res].
    [Unmodelled] is no fault of the code: the model stops there and says nothing.
    [NoFuel] is the result of a loop whose fuel ran out; the components prove
    that it never occurs with the fuel they start from. *)

Inductive fault :=
  | NullDeref
  | OutOfBounds
  | Dangling
  | IntOverflow
  | AssertFailed
  | Uninitialised
  | Deadlock
  | Uncaught
  | BadFormat
  | WrongMember
  | Unmodelled.

#[global] Instance fault_eq_dec : EqDecision fault.
Proof. solve_decision. Defined.

Inductive res (A : Type) :=
  | Ok (a : A)
  | UB (f : fault)
  | NoFuel.
Arguments Ok {A} a.
Arguments UB {A} f.
Arguments NoFuel {A}.

#[global] Instance res_eq_dec {A} `{EqDecision A} : EqDecision (res A).
Proof. solve_decision. Defined.

#[global] Instance res_ret : MRet res := λ A a, Ok a.
#[global] Instance res_bind : MBind res := λ A B f m,
  match m with Ok a => f a | UB e => UB e | NoFuel => NoFuel end.

(** Dereferencing a pointer that may be NULL. *)
Definition deref {A} (p : option A) : res A :=
  match p with Some a => Ok a | None => UB NullDeref end.

(** Reading an array cell, undefined out of range. *)
Definition read_at {A} (l : list A) (i : nat) : res A :=
  match l !! i with Some a => Ok a | None => UB OutOfBounds end.

(** Signed addition of the C type [int]: overflow is undefined. *)
Definition int_add (a b : Z) : res Z :=
  let c := (a + b)%Z in
  if bool_decide (INT_MIN <= c <= INT_MAX)%Z then Ok c else UB IntOverflow.

Lemma res_bind_ok {A B} (m : res A) (f : A → res B) b :
  m ≫= f = Ok b → ∃ a, m = Ok a ∧ f a = Ok b.
Proof. destruct m; try done. simpl. eauto. Qed.

Lemma read_at_ok {A} (l : list A) i a : read_at l i = Ok a ↔ l !! i = Some a.
Proof. unfold read_at. destruct (l !! i); split; intros; simplify_eq; done. Qed.

(** [res_inv H] splits a successful monadic computation into its steps. *)
Ltac res_inv H :=
  let a := fresh "r" in
  let H1 := fresh "Hr" in
  apply res_bind_ok in H as (a & H1 & H).

(** ** C strings

    A [char *] into a NUL-terminated buffer is the list of the bytes from the
    pointer to the end of the buffer, the terminator at the end left implicit:
    reading the empty list reads the terminator. *)

(** [*p]. *)
Definition peek (s : bytes) : byte := match s with [] => x00 | c :: _ => c end.

(** [p + 1]. The callers never step over the terminator. *)
Definition advance (s : bytes) : bytes := tail s.

(** The C string at a pointer: the bytes before the first NUL. *)
Fixpoint cstr (s : bytes) : bytes :=
  match s with
  | [] => []
  | c :: s' => if bool_decide (c = x00) then [] else c :: cstr s'
  end.

Definition strlen (s : bytes) : nat := length (cstr s).

(** [strncmp(a, b, n) == 0]. *)
Fixpoint strncmp_eq (a b : bytes) (n : nat) : bool :=
  match n with
  | O => true
  | S n' =>
      bool_decide (peek a = peek b) &&
      (bool_decide (peek a = x00) || strncmp_eq (advance a) (advance b) n')
  end.

(** [strcmp(a, b) == 0]. *)
Definition strcmp_eq (a b : bytes) : bool := bool_decide (cstr a = cstr b).

(** A byte string without NUL, that is, equal to its own C string. *)
Definition nul_free (s : bytes) : Prop := Forall (λ c, c ≠ x00) s.

#[global] Instance nul_free_dec s : Decision (nul_free s).
Proof. unfold nul_free. apply _. Defined.

Lemma cstr_nul_free s : nul_free (cstr s).
Proof.
  induction s as [|c s IH]; simpl; [constructor|].
  case_bool_decide; constructor; done.
Qed.

Lemma cstr_id s : nul_free s → cstr s = s.
Proof.
  induction 1 as [|c s Hc _ IH]; simpl; [done|].
  by rewrite bool_decide_false, IH.
Qed.

Lemma cstr_cstr s : cstr (cstr s) = cstr s.
Proof. apply cstr_id, cstr_nul_free. Qed.

Lemma cstr_app_nul a b : nul_free a → cstr (a ++ x00 :: b) = a.
Proof.
  induction 1 as [|c s Hc _ IH]; simpl; [done|].
  by rewrite bool_decide_false, IH.
Qed.

(** The C string at the start of a buffer; without a NUL the read leaves it. *)
Definition c_string (m : bytes) : res bytes :=
  if bool_decide (x00 ∈ m) then Ok (cstr m) else UB OutOfBounds.

Lemma c_string_app a b : nul_free a → c_string (a ++ x00 :: b) = Ok a.
Proof.
  intros Ha. unfold c_string. rewrite bool_decide_true, cstr_app_nul by (done || set_solver). done.
Qed.

Lemma strcmp_eq_spec a b : nul_free a → nul_free b → strcmp_eq a b = bool_decide (a = b).
Proof. intros. unfold strcmp_eq. by rewrite !cstr_id. Qed.

Lemma strncmp_eq_take a b n :
  nul_free a → nul_free b → n ≤ length a →
  strncmp_eq a b n = bool_decide (take n a = take n b).
Proof.
  intros Ha. revert b n. induction Ha as [|c a Hc _ IH]; intros b n Hb Hn.
  { destruct n; [done|simpl in Hn; lia]. }
  destruct n as [|n]; [done|]. simpl. rewrite (bool_decide_false (c = x00)) by done.
  destruct Hb as [|d b Hd Hb]; simpl.
  { by rewrite bool_decide_false. }
  simpl in Hn. rewrite IH by (done || lia).
  case_bool_decide as E1; simpl.
  - subst. repeat case_bool_decide; try done; congruence.
  - rewrite bool_decide_false; [done|]. congruence.
Qed.

(** [strncmp] does not look past the terminator. *)
Lemma strncmp_eq_cstr_r a b n : strncmp_eq a (cstr b) n = strncmp_eq a b n.
Proof.
  revert a b. induction n as [|n IH]; intros a b; [done|]. cbn [strncmp_eq].
  destruct b as [|d b]; [done|]. cbn [cstr].
  destruct (decide (d = x00)) as [->|Hd].
  - cbn [peek advance tail bool_decide decide_rel]. simpl.
    case_bool_decide as E; [|done]. done.
  - rewrite (bool_decide_false _ Hd). cbn [peek advance tail]. by rewrite IH.
Qed.

Lemma strncmp_eq_full a b :
  nul_free a → nul_free b → length a = length b →
  strncmp_eq a b (length a) = bool_decide (a = b).
Proof.
  intros Ha Hb Hl. rewrite strncmp_eq_take by done.
  by rewrite take_ge, take_ge by lia.
Qed.

(** ** Hints shared by the components *)

Create HintDb fsc.
Create Rewrite HintDb fsc.
#[export] Hint Resolve b2z_range cstr_nul_free : fsc.
#[export] Hint Rewrite b2z_z2b z2b_b2z : fsc.
