(* ===== verification/Base64.v ===== *)
(** * Base64 coding (src/common/base64/base64.cpp)

    [base64_encode] and [base64_decode] are translated loop by loop, with the
    fixed arrays [char_array_3]/[char_array_4] and the index [i] as the state
    of the loops. The decoder reads array cells it has not written in the last
    partial group: the arrays' initial contents are an argument of the model.
    The theorems give the round trip, the length and the alphabet of the
    encoding, and that the decoder's result does not depend on uninitialised
    cells. *)
From S2P Require Import Prelude.
Local Open Scope Z_scope.

Module Base64.

(** [base64_chars]. *)
Definition base64_chars : bytes :=
  bs "ABCDEFGHIJKLMNOPQRSTUVWXYZabcdefghijklmnopqrstuvwxyz0123456789+/".

(** [isalnum] in the C locale. *)
Definition isalnum (c : byte) : bool :=
  let z := b2z c in
  ((48 <=? z) && (z <=? 57)) || ((65 <=? z) && (z <=? 90)) || ((97 <=? z) && (z <=? 122)).

Definition is_base64 (c : byte) : bool :=
  isalnum c || bool_decide (c = x2b) || bool_decide (c = x2f).

(** [base64_chars[k]]. *)
Definition char_at (k : Z) : byte := nth (Z.to_nat k) base64_chars x00.

(** [base64_chars.find(c)], converted to [unsigned char]: 255 is [npos]. *)
Fixpoint find_from (l : bytes) (c : byte) (k : Z) : Z :=
  match l with
  | [] => 255
  | d :: l' => if bool_decide (c = d) then k else find_from l' c (k + 1)
  end.
Definition chars_find (c : byte) : Z := find_from base64_chars c 0.

(** Cell [i] of a local array of [unsigned char], as an integer. *)
Definition cell (a : bytes) (i : nat) : Z := b2z (nth i a x00).

(** The four sextets computed from [char_array_3]. *)
Definition sextet0 (a3 : bytes) : Z := Z.shiftr (Z.land (cell a3 0) 0xfc) 2.
Definition sextet1 (a3 : bytes) : Z :=
  Z.shiftl (Z.land (cell a3 0) 0x03) 4 + Z.shiftr (Z.land (cell a3 1) 0xf0) 4.
Definition sextet2 (a3 : bytes) : Z :=
  Z.shiftl (Z.land (cell a3 1) 0x0f) 2 + Z.shiftr (Z.land (cell a3 2) 0xc0) 6.
Definition sextet3 (a3 : bytes) : Z := Z.land (cell a3 2) 0x3f.

Definition encode_quad (a3 : bytes) : bytes :=
  map char_at [sextet0 a3; sextet1 a3; sextet2 a3; sextet3 a3].

(** The [while (in_len--)] loop of [base64_encode]. *)
Fixpoint encode_loop (input : bytes) (i : nat) (a3 : bytes) (ret : bytes)
  : nat * bytes * bytes :=
  match input with
  | [] => (i, a3, ret)
  | b :: input' =>
      let a3' := <[i := b]> a3 in
      if bool_decide (S i = 3%nat)
      then encode_loop input' 0 a3' (ret ++ encode_quad a3')
      else encode_loop input' (S i) a3' ret
  end.

(** The [if (i)] block: zero-fill, [i + 1] characters, [3 - i] equal signs. *)
Definition encode_tail (i : nat) (a3 : bytes) (ret : bytes) : bytes :=
  match i with
  | O => ret
  | _ =>
      let a3' := take i a3 ++ repeat x00 (3 - i) in
      ret ++ take (i + 1) (map char_at [sextet0 a3'; sextet1 a3'; sextet2 a3'])
          ++ repeat x3d (3 - i)
  end.

(** [base64_encode(bytes_to_encode, in_len)] on the [in_len] bytes of the
    buffer; [junk3] is what [char_array_3] holds before it is written. *)
Definition base64_encode (junk3 : bytes) (input : bytes) : bytes :=
  let '(i, a3, ret) := encode_loop input 0 junk3 [] in encode_tail i a3 ret.

Definition decode_byte0 (a4 : bytes) : byte :=
  z2b (Z.shiftl (cell a4 0) 2 + Z.shiftr (Z.land (cell a4 1) 0x30) 4).
Definition decode_byte1 (a4 : bytes) : byte :=
  z2b (Z.shiftl (Z.land (cell a4 1) 0xf) 4 + Z.shiftr (Z.land (cell a4 2) 0x3c) 2).
Definition decode_byte2 (a4 : bytes) : byte :=
  z2b (Z.shiftl (Z.land (cell a4 2) 0x3) 6 + cell a4 3).

(** [char_array_4[k] = base64_chars.find(char_array_4[k])] for [k < n]. *)
Definition lookup_cells (n : nat) (a4 : bytes) : bytes :=
  map (λ c, z2b (chars_find c)) (take n a4) ++ drop n a4.

(** The loop of [base64_decode]: stops at the end, at [=] and at any
    character outside the alphabet. *)
Fixpoint decode_loop (s : bytes) (i : nat) (a4 : bytes) (ret : bytes)
  : nat * bytes * bytes :=
  match s with
  | [] => (i, a4, ret)
  | c :: s' =>
      if negb (bool_decide (c = x3d)) && is_base64 c then
        let a4' := <[i := c]> a4 in
        if bool_decide (S i = 4%nat) then
          let q := lookup_cells 4 a4' in
          decode_loop s' 0 q (ret ++ [decode_byte0 q; decode_byte1 q; decode_byte2 q])
        else decode_loop s' (S i) a4' ret
      else (i, a4, ret)
  end.

(** The [if (i)] block of [base64_decode]. *)
Definition decode_tail (i : nat) (a4 : bytes) (ret : bytes) : bytes :=
  match i with
  | O => ret
  | _ => let q := lookup_cells i a4 in
         ret ++ take (i - 1) [decode_byte0 q; decode_byte1 q]
  end.

(** [base64_decode(encoded_string)]; [junk4] is the initial [char_array_4]. *)
Definition base64_decode (junk4 : bytes) (s : bytes) : bytes :=
  let '(i, a4, ret) := decode_loop s 0 junk4 [] in decode_tail i a4 ret.

(** The functions as the other components call them. The initial content of
    the local arrays does not matter ([base64_encode_groups], [base64_decode_deterministic]). *)
Definition b64_encode (input : bytes) : bytes := base64_encode [x00; x00; x00] input.
Definition b64_decode (s : bytes) : bytes := base64_decode [x00; x00; x00; x00] s.

(** ** Reference encoder: by groups of three bytes *)

Fixpoint encode_groups (input : bytes) : bytes :=
  match input with
  | [] => []
  | [a] => take 2 (encode_quad [a; x00; x00]) ++ [x3d; x3d]
  | [a; b] => take 3 (encode_quad [a; b; x00]) ++ [x3d]
  | a :: b :: c :: rest => encode_quad [a; b; c] ++ encode_groups rest
  end.

(** Induction by groups of three. *)
Lemma bytes_ind3 (P : bytes → Prop) :
  P [] → (∀ a, P [a]) → (∀ a b, P [a; b]) →
  (∀ a b c l, P l → P (a :: b :: c :: l)) → ∀ l, P l.
Proof.
  intros H0 H1 H2 H3. fix IH 1.
  intros [|a [|b [|c l]]]; [done..|]. apply H3, IH.
Qed.

(** An array of three cells. *)
Lemma length3 {A} (l : list A) : length l = 3%nat → ∃ a b c, l = [a; b; c].
Proof. destruct l as [|a [|b [|c [|]]]]; try done. eauto. Qed.
Lemma length4 {A} (l : list A) : length l = 4%nat → ∃ a b c d, l = [a; b; c; d].
Proof. destruct l as [|a [|b [|c [|d [|]]]]]; try done. eauto. Qed.

Lemma encode_loop_groups input : ∀ a3 ret, length a3 = 3%nat →
  (let '(i, a3', ret') := encode_loop input 0 a3 ret in encode_tail i a3' ret')
  = ret ++ encode_groups input.
Proof.
  induction input as [|a|a b|a b c l IH] using bytes_ind3; intros a3 ret H3.
  - simpl. by rewrite app_nil_r.
  - by destruct (length3 _ H3) as (x & y & z & ->).
  - by destruct (length3 _ H3) as (x & y & z & ->).
  - destruct (length3 _ H3) as (x & y & z & ->). simpl.
    rewrite IH by done. by rewrite <-app_assoc.
Qed.

(** The encoder does not depend on the initial array and is the reference. *)
Lemma base64_encode_groups junk3 input :
  length junk3 = 3%nat → base64_encode junk3 input = encode_groups input.
Proof. apply encode_loop_groups. Qed.

(** ** The bit operations as arithmetic *)

Lemma land_fc b : Z.shiftr (Z.land (b2z b) 0xfc) 2 = b2z b / 4.
Proof. byte_cases b. Qed.
Lemma land_03 b : Z.shiftl (Z.land (b2z b) 0x03) 4 = b2z b mod 4 * 16.
Proof. byte_cases b. Qed.
Lemma land_f0 b : Z.shiftr (Z.land (b2z b) 0xf0) 4 = b2z b / 16.
Proof. byte_cases b. Qed.
Lemma land_0f b : Z.shiftl (Z.land (b2z b) 0x0f) 2 = b2z b mod 16 * 4.
Proof. byte_cases b. Qed.
Lemma land_c0 b : Z.shiftr (Z.land (b2z b) 0xc0) 6 = b2z b / 64.
Proof. byte_cases b. Qed.
Lemma land_3f b : Z.land (b2z b) 0x3f = b2z b mod 64.
Proof. byte_cases b. Qed.
Lemma land_30 b : Z.shiftr (Z.land (b2z b) 0x30) 4 = b2z b / 16 mod 4.
Proof. byte_cases b. Qed.
Lemma land_0f4 b : Z.shiftl (Z.land (b2z b) 0xf) 4 = b2z b mod 16 * 16.
Proof. byte_cases b. Qed.
Lemma land_3c b : Z.shiftr (Z.land (b2z b) 0x3c) 2 = b2z b / 4 mod 16.
Proof. byte_cases b. Qed.
Lemma land_03s6 b : Z.shiftl (Z.land (b2z b) 0x3) 6 = b2z b mod 4 * 64.
Proof. byte_cases b. Qed.
Lemma shl2 b : Z.shiftl (b2z b) 2 = b2z b * 4.
Proof. byte_cases b. Qed.

Lemma char_at_ok k : 0 <= k < 64 →
  chars_find (char_at k) = k ∧ is_base64 (char_at k) = true ∧ char_at k ≠ x3d.
Proof.
  intros Hk.
  assert (forallb (λ n, bool_decide (chars_find (char_at (Z.of_nat n)) = Z.of_nat n ∧
    is_base64 (char_at (Z.of_nat n)) = true ∧ char_at (Z.of_nat n) ≠ x3d)) (seq 0 64) = true) as H
    by (vm_compute; reflexivity).
  rewrite forallb_forall in H. specialize (H (Z.to_nat k)).
  rewrite Z2Nat.id in H by lia. eapply bool_decide_eq_true_1, H.
  apply in_seq. lia.
Qed.

Ltac sextets :=
  unfold sextet0, sextet1, sextet2, sextet3, cell; simpl nth;
  rewrite ?land_fc, ?land_03, ?land_f0, ?land_0f, ?land_c0, ?land_3f.

Lemma sextet_range a b c :
  0 <= sextet0 [a; b; c] < 64 ∧ 0 <= sextet1 [a; b; c] < 64 ∧
  0 <= sextet2 [a; b; c] < 64 ∧ 0 <= sextet3 [a; b; c] < 64.
Proof.
  sextets. pose proof (b2z_range a). pose proof (b2z_range b). pose proof (b2z_range c). zdm.
Qed.

(** Decoding a complete group of four sextets. *)
Lemma decode_quad_bytes a b c :
  let q := map z2b [sextet0 [a; b; c]; sextet1 [a; b; c]; sextet2 [a; b; c]; sextet3 [a; b; c]] in
  [decode_byte0 q; decode_byte1 q; decode_byte2 q] = [a; b; c].
Proof.
  pose proof (sextet_range a b c) as Hs. revert Hs.
  unfold decode_byte0, decode_byte1, decode_byte2, cell; simpl.
  rewrite shl2, land_30, land_0f4, land_3c, land_03s6, !b2z_z2b. sextets.
  pose proof (b2z_range a). pose proof (b2z_range b). pose proof (b2z_range c).
  intros Hs. rewrite !(Z.mod_small _ 256) by zdm.
  repeat f_equal; apply z2b_eq; zdm.
Qed.

(** One step of the decoder on a character of the alphabet. *)
Lemma decode_loop_char k s i a4 ret : 0 <= k < 64 →
  decode_loop (char_at k :: s) i a4 ret =
    let a4' := <[i := char_at k]> a4 in
    if bool_decide (S i = 4%nat) then
      let q := lookup_cells 4 a4' in
      decode_loop s 0 q (ret ++ [decode_byte0 q; decode_byte1 q; decode_byte2 q])
    else decode_loop s (S i) a4' ret.
Proof.
  intros Hk. destruct (char_at_ok k Hk) as (_ & Hb & Hne).
  cbn [decode_loop]. by rewrite (bool_decide_false _ Hne), Hb.
Qed.

(** Runs the decoder over the explicit characters at the front. *)
Ltac decode_chars :=
  repeat (rewrite decode_loop_char by done; cbn [insert list_insert];
          simpl bool_decide; cbv iota zeta).

Lemma lookup_cells_chars ks rest : Forall (λ k, 0 <= k < 64) ks →
  lookup_cells (length ks) (map char_at ks ++ rest) = map z2b ks ++ rest.
Proof.
  intros H. unfold lookup_cells.
  rewrite take_app_length', drop_app_length' by (by rewrite length_map). f_equal.
  induction H as [|k ks Hk _ IH]; [done|]. cbn [map].
  rewrite IH. f_equal. by rewrite (proj1 (char_at_ok k Hk)).
Qed.

Lemma decode_loop_quad a b c s a4 ret : length a4 = 4%nat →
  ∃ a4', length a4' = 4%nat ∧
    decode_loop (encode_quad [a; b; c] ++ s) 0 a4 ret = decode_loop s 0 a4' (ret ++ [a; b; c]).
Proof.
  intros H4. destruct (length4 _ H4) as (w & x & y & z & ->).
  destruct (sextet_range a b c) as (R0 & R1 & R2 & R3).
  unfold encode_quad. cbn [map app].
  decode_chars.
  set (ks := [sextet0 [a; b; c]; sextet1 [a; b; c]; sextet2 [a; b; c]; sextet3 [a; b; c]]).
  assert (lookup_cells 4 (map char_at ks) = map z2b ks) as Hl.
  { pose proof (lookup_cells_chars ks []) as Hl. rewrite !app_nil_r in Hl. apply Hl.
    unfold ks. forall_list. }
  exists (map z2b ks). split; [done|]. cbn [ks map] in Hl |- *. rewrite Hl.
  pose proof (decode_quad_bytes a b c) as Hq. cbn [map] in Hq. cbv zeta in Hq. by rewrite Hq.
Qed.

(** The last, partial group. *)
Lemma decode_one a a4 ret : length a4 = 4%nat →
  (let '(i, q, r) := decode_loop (encode_groups [a]) 0 a4 ret in decode_tail i q r) = ret ++ [a].
Proof.
  intros H4. destruct (length4 _ H4) as (w & x & y & z & ->).
  destruct (sextet_range a x00 x00) as (R0 & R1 & _).
  cbn [encode_groups encode_quad map take app].
  decode_chars.
  cbn [decode_loop]. rewrite (bool_decide_true (x3d = x3d)) by done. cbn [negb andb decode_tail].
  pose proof (lookup_cells_chars [sextet0 [a; x00; x00]; sextet1 [a; x00; x00]] [y; z]) as Hl.
  cbn [map app length] in Hl. rewrite Hl by forall_list.
  cbn [take Nat.sub app]. f_equal. f_equal. unfold decode_byte0, cell. cbn [nth].
  rewrite shl2, land_30, !b2z_z2b. revert R0 R1. sextets. pose proof (b2z_range a).
  replace (b2z x00) with 0 by done. intros R0 R1.
  rewrite !(Z.mod_small _ 256) by zdm. apply z2b_eq. zdm.
Qed.

Lemma decode_two a b a4 ret : length a4 = 4%nat →
  (let '(i, q, r) := decode_loop (encode_groups [a; b]) 0 a4 ret in decode_tail i q r)
  = ret ++ [a; b].
Proof.
  intros H4. destruct (length4 _ H4) as (w & x & y & z & ->).
  destruct (sextet_range a b x00) as (R0 & R1 & R2 & _).
  cbn [encode_groups encode_quad map take app].
  decode_chars.
  cbn [decode_loop]. rewrite (bool_decide_true (x3d = x3d)) by done. cbn [negb andb decode_tail].
  pose proof (lookup_cells_chars
    [sextet0 [a; b; x00]; sextet1 [a; b; x00]; sextet2 [a; b; x00]] [z]) as Hl.
  cbn [map app length] in Hl. rewrite Hl by forall_list.
  cbn [take Nat.sub app]. f_equal. unfold decode_byte0, decode_byte1, cell. cbn [nth].
  rewrite shl2, land_30, land_0f4, land_3c, !b2z_z2b. revert R0 R1 R2. sextets.
  pose proof (b2z_range a). pose proof (b2z_range b).
  replace (b2z x00) with 0 by done. intros R0 R1 R2.
  rewrite !(Z.mod_small _ 256) by zdm. repeat f_equal; apply z2b_eq; zdm.
Qed.

Lemma decode_encode_groups input : ∀ a4 ret, length a4 = 4%nat →
  (let '(i, q, r) := decode_loop (encode_groups input) 0 a4 ret in decode_tail i q r)
  = ret ++ input.
Proof.
  induction input as [|a|a b|a b c l IH] using bytes_ind3; intros a4 ret H4.
  - simpl. by rewrite app_nil_r.
  - by apply decode_one.
  - by apply decode_two.
  - cbn [encode_groups].
    destruct (decode_loop_quad a b c (encode_groups l) a4 ret H4) as (a4' & H4' & ->).
    rewrite IH by done. by rewrite <-app_assoc.
Qed.

(** C32: decoding an encoding gives the input back, for every buffer and every
    initial content of the local arrays. *)
Theorem base64_roundtrip junk3 junk4 input :
  length junk3 = 3%nat → length junk4 = 4%nat →
  base64_decode junk4 (base64_encode junk3 input) = input.
Proof.
  intros H3 H4. rewrite base64_encode_groups by done.
  unfold base64_decode. by rewrite decode_encode_groups.
Qed.

Lemma base64_roundtrip_witness :
  base64_decode [x00; x00; x00; x00] (base64_encode [x00; x00; x00] (bs "hello"))
  = bs "hello".
Proof. apply base64_roundtrip; reflexivity. Defined.

Lemma char_at_encoded k : 0 <= k < 64 → is_base64 (char_at k) = true ∨ char_at k = x3d.
Proof. intros Hk. left. by destruct (char_at_ok k Hk) as (_ & ? & _). Qed.

Ltac forall_chars :=
  repeat (apply List.Forall_cons; [first [by apply char_at_encoded|by right]|]);
  apply List.Forall_nil.

Lemma encode_groups_shape input :
  Z.of_nat (length (encode_groups input)) = 4 * ((Z.of_nat (length input) + 2) / 3) ∧
  Forall (λ c, is_base64 c = true ∨ c = x3d) (encode_groups input).
Proof.
  induction input as [|a|a b|a b c l [IH1 IH2]] using bytes_ind3.
  - done.
  - split; [done|]. pose proof (sextet_range a x00 x00).
    destruct_and!. forall_chars.
  - split; [done|]. pose proof (sextet_range a b x00).
    destruct_and!. forall_chars.
  - cbn [encode_groups]. split.
    + rewrite length_app, Nat2Z.inj_add, IH1. cbn [length encode_quad map].
      rewrite !Nat2Z.inj_succ. zdm.
    + apply Forall_app; split; [|done]. pose proof (sextet_range a b c).
      destruct_and!. forall_chars.
Qed.

(** The encoding of [n] bytes has [4 * ceil (n / 3)] characters, each in
    the alphabet or the padding character. *)
Theorem base64_encode_shape junk3 input :
  length junk3 = 3%nat →
  Z.of_nat (length (base64_encode junk3 input)) = 4 * ((Z.of_nat (length input) + 2) / 3) ∧
  Forall (λ c, is_base64 c = true ∨ c = x3d) (base64_encode junk3 input).
Proof. intros H3. rewrite base64_encode_groups by done. apply encode_groups_shape. Qed.

Lemma base64_encode_shape_witness :
  Z.of_nat (length (base64_encode [x00; x00; x00] (bs "ab"))) = 4.
Proof. apply (base64_encode_shape [x00; x00; x00] (bs "ab")). reflexivity. Defined.

(** ** Reads of uninitialised cells *)

Lemma take_insert_agree (a a' : bytes) (i : nat) (c : byte) :
  length a = 4%nat → length a' = 4%nat → (i < 4)%nat → take i a = take i a' →
  take (S i) (<[i := c]> a) = take (S i) (<[i := c]> a').
Proof.
  intros Ha Ha' Hi E. rewrite !(take_S_r _ i c) by (apply list_lookup_insert_eq; lia).
  by rewrite !take_insert_ge, E by lia.
Qed.

Lemma lookup_cells_length n a : (n <= length a)%nat → length (lookup_cells n a) = length a.
Proof. intros. unfold lookup_cells. rewrite length_app, length_map, length_take, length_drop. lia. Qed.

(** What the loop leaves: an index below 4 and an array of four cells. *)
Lemma decode_loop_agree s : ∀ i a a' ret,
  length a = 4%nat → length a' = 4%nat → (i < 4)%nat → take i a = take i a' →
  ∃ i' b b' ret', decode_loop s i a ret = (i', b, ret') ∧ decode_loop s i a' ret = (i', b', ret')
    ∧ (i' < 4)%nat ∧ length b = 4%nat ∧ length b' = 4%nat ∧ take i' b = take i' b'.
Proof.
  induction s as [|c s IH]; intros i a a' ret Ha Ha' Hi E; simpl.
  { naive_solver. }
  destruct (negb _ && _); [|naive_solver].
  pose proof (take_insert_agree a a' i c Ha Ha' Hi E) as E'.
  case_bool_decide as H4.
  - assert (i = 3%nat) as -> by lia.
    assert (<[3%nat := c]> a = <[3%nat := c]> a') as ->.
    { rewrite <-(take_ge (<[3%nat:=c]> a) 4), <-(take_ge (<[3%nat:=c]> a') 4)
        by (rewrite length_insert; lia). exact E'. }
    apply IH; rewrite ?lookup_cells_length; rewrite ?length_insert; lia || done.
  - apply IH; rewrite ?length_insert; lia || done.
Qed.

Lemma decode_tail_agree i a a' ret :
  length a = 4%nat → length a' = 4%nat → (i < 4)%nat → take i a = take i a' →
  decode_tail i a ret = decode_tail i a' ret.
Proof.
  intros Ha Ha' Hi E.
  destruct (length4 _ Ha) as (w & x & y & z & ->).
  destruct (length4 _ Ha') as (w' & x' & y' & z' & ->).
  destruct i as [|[|[|[|i]]]]; [| | | |lia]; simpl in E; simplify_eq; reflexivity.
Qed.

(** The decoder's result does not depend on what the uninitialised
    [char_array_4] holds, although it reads cells it has not written. *)
Theorem base64_decode_deterministic junk junk' s :
  length junk = 4%nat → length junk' = 4%nat →
  base64_decode junk s = base64_decode junk' s.
Proof.
  intros H H'. unfold base64_decode.
  destruct (decode_loop_agree s 0 junk junk' [] H H' ltac:(lia) eq_refl)
    as (i & b & b' & ret & -> & -> & Hi & Hb & Hb' & E).
  by apply decode_tail_agree.
Qed.

Lemma base64_decode_deterministic_witness :
  base64_decode [x00; x01; x02; x03] (bs "aGVsbG8") = base64_decode [xff; xff; xff; xff] (bs "aGVsbG8").
Proof. apply base64_decode_deterministic; reflexivity. Defined.

(** ** The laws the other components use *)

Lemma b64_roundtrip input : b64_decode (b64_encode input) = input.
Proof.
  unfold b64_encode, b64_decode, base64_decode.
  rewrite base64_encode_groups by done. by rewrite decode_encode_groups.
Qed.

Lemma b64_encode_length input :
  Z.of_nat (length (b64_encode input)) = 4 * ((Z.of_nat (length input) + 2) / 3).
Proof. unfold b64_encode. rewrite base64_encode_groups by done. apply encode_groups_shape. Qed.

Lemma b64_encode_chars input : Forall (λ c, is_base64 c = true ∨ c = x3d) (b64_encode input).
Proof. unfold b64_encode. rewrite base64_encode_groups by done. apply encode_groups_shape. Qed.

Lemma b64_encode_nul_free input : nul_free (b64_encode input).
Proof.
  eapply list.Forall_impl; [apply b64_encode_chars|].
  intros c [Hc| ->]; [|done]. revert Hc. byte_cases c.
Qed.

(** ** Size of the output *)

Lemma decode_loop_length s : ∀ i a ret i' b ret',
  (i < 4)%nat → decode_loop s i a ret = (i', b, ret') →
  (i' < 4)%nat ∧ 4 * Z.of_nat (length ret') + 3 * Z.of_nat i'
    <= 4 * Z.of_nat (length ret) + 3 * Z.of_nat i + 3 * Z.of_nat (length s).
Proof.
  induction s as [|c s IH]; intros i a ret i' b ret' Hi; simpl.
  { intros; simplify_eq. lia. }
  destruct (negb _ && _); [|intros; simplify_eq; lia].
  case_bool_decide as H4; intros E.
  - apply IH in E as [? ?]; [|lia]. rewrite length_app in *. simpl length in *. lia.
  - apply IH in E as [? ?]; [|lia]. lia.
Qed.

(** Decoding never produces more than three bytes per four characters, which
    is what bounds the [memcpy]s of decoded values into fixed buffers. *)
Theorem base64_decode_length junk s :
  4 * Z.of_nat (length (base64_decode junk s)) <= 3 * Z.of_nat (length s).
Proof.
  unfold base64_decode. destruct (decode_loop s 0 junk []) as [[i b] ret] eqn:E.
  apply decode_loop_length in E as [Hi E]; [|lia]. simpl in E.
  destruct i as [|i]; [simpl; lia|]. cbn [decode_tail].
  rewrite length_app, length_take. lia.
Qed.
End Base64.
