(* ===== verification/Utils.v ===== *)
(** * Byte utilities (src/common/utils.c)

    Buffers are byte lists of fixed length; a pointer into one is an offset,
    [NULL] is [None], and an access outside the buffer is [UB OutOfBounds].
    [bytes_swap] is the in-place two-pointer loop; its theorem is that it
    reverses the addressed range and touches nothing else. *)
From S2P Require Import Prelude.
Local Open Scope Z_scope.

Module Utils.

(** ** Memory: bounds-checked stores *)

(** [memcpy(m + off, data, n)] into a buffer [m]. *)
Definition store (m : bytes) (off : nat) (data : bytes) : res bytes :=
  if bool_decide (off + length data <= length m)%nat
  then Ok (take off m ++ data ++ drop (off + length data) m)
  else UB OutOfBounds.

(** [memcpy(dst, src + off, n)] out of a buffer. *)
Definition load (m : bytes) (off n : nat) : res bytes :=
  if bool_decide (off + n <= length m)%nat then Ok (take n (drop off m))
  else UB OutOfBounds.

(** ** [append_string] *)

(** [append_string(buf, string)]: the length of [string]; when [buf] is not
    NULL the characters and the terminator are copied to it. [buf] is an
    offset into the memory [m]. *)
Definition append_string (m : bytes) (buf : option nat) (string : bytes) : res (bytes * Z) :=
  let len := Z.of_nat (strlen string) in
  match buf with
  | None => Ok (m, len)
  | Some off => m' ← store m off (cstr string ++ [x00]); Ok (m', len)
  end.

(** ** [bytes_swap] *)

(** The loop with its two pointers as indices [start] and [end]. *)
Fixpoint swap_loop (fuel : nat) (m : bytes) (start end_ : Z) : res bytes :=
  if bool_decide (start < end_) then
    match fuel with
    | O => NoFuel
    | S fuel' =>
        a ← read_at m (Z.to_nat start);
        b ← read_at m (Z.to_nat end_);
        swap_loop fuel' (<[Z.to_nat end_ := a]> (<[Z.to_nat start := b]> m))
                  (start + 1) (end_ - 1)
    end
  else Ok m.

(** [bytes_swap(m + off, len)]. *)
Definition bytes_swap (m : bytes) (off len : nat) : res bytes :=
  swap_loop len m (Z.of_nat off) (Z.of_nat off + Z.of_nat len - 1).

(** ** [bytes_to_hexstring] *)

Definition hexdigs : bytes := bs "0123456789abcdef".

Definition hex_of_byte (b : byte) : bytes :=
  [nth (Z.to_nat (Z.shiftr (b2z b) 4)) hexdigs x00;
   nth (Z.to_nat (Z.land (b2z b) 0x0f)) hexdigs x00].

(** The heap buffer returned: two digits per byte and the terminator. *)
Definition bytes_to_hexstring (l : bytes) : bytes := flat_map hex_of_byte l ++ [x00].

(** ** Properties *)

(** The list with the positions [s..e] mirrored. *)
Definition mirrored (m r : bytes) (s e : nat) : Prop :=
  length r = length m ∧
  ∀ i : nat, r !! i = if bool_decide (s <= i <= e)%nat then m !! (s + e - i)%nat else m !! i.

Lemma swap_step_mirrored m r a b (s e : nat) :
  (s < e < length m)%nat → m !! s = Some a → m !! e = Some b →
  mirrored (<[e := a]> (<[s := b]> m)) r (S s) (e - 1) → mirrored m r s e.
Proof.
  intros Hse Ha Hb [Hl H]. rewrite !length_insert in Hl. split; [done|].
  intros i. rewrite H.
  assert (i = s ∨ i = e ∨ (s < i < e)%nat ∨ (i < s ∨ e < i)%nat) as Hi by lia.
  destruct Hi as [->|[->|[Hi|Hi]]].
  - rewrite bool_decide_false, bool_decide_true by lia.
    rewrite list_lookup_insert_ne, list_lookup_insert_eq by lia.
    replace (s + e - s)%nat with e by lia. done.
  - rewrite bool_decide_false, bool_decide_true by lia.
    rewrite list_lookup_insert_eq by (rewrite length_insert; lia).
    replace (s + e - e)%nat with s by lia. done.
  - rewrite !bool_decide_true by lia. rewrite !list_lookup_insert_ne by lia.
    f_equal. lia.
  - rewrite !bool_decide_false by lia. by rewrite !list_lookup_insert_ne by lia.
Qed.

Lemma swap_loop_mirrored fuel : ∀ m (s e : nat),
  (e < length m)%nat → (e < s + 2 * fuel)%nat →
  ∃ r, swap_loop fuel m (Z.of_nat s) (Z.of_nat e) = Ok r ∧ mirrored m r s e.
Proof.
  induction fuel as [|fuel IH]; intros m s e He Hf; simpl.
  { rewrite bool_decide_false by lia. eexists; split; [done|]. split; [done|].
    intros i. case_bool_decide; [lia|done]. }
  case_bool_decide as Hlt.
  - destruct (lookup_lt_is_Some_2 m s ltac:(lia)) as [a Ha].
    destruct (lookup_lt_is_Some_2 m e ltac:(lia)) as [b Hb].
    rewrite !Nat2Z.id. unfold read_at. rewrite Ha, Hb. simpl.
    replace (Z.of_nat s + 1) with (Z.of_nat (S s)) by lia.
    replace (Z.of_nat e - 1) with (Z.of_nat (e - 1)) by lia.
    destruct (IH (<[e:=a]> (<[s:=b]> m)) (S s) (e - 1)%nat) as (r & -> & Hr).
    { rewrite !length_insert. lia. } { lia. }
    eexists; split; [done|]. eapply swap_step_mirrored; eauto; lia.
  - eexists; split; [done|]. split; [done|]. intros i.
    case_bool_decide; [|done]. f_equal. lia.
Qed.

Lemma bytes_swap_range (pre mid post : bytes) :
  bytes_swap (pre ++ mid ++ post) (length pre) (length mid) = Ok (pre ++ reverse mid ++ post).
Proof.
  unfold bytes_swap. destruct (decide (length mid = 0%nat)) as [E|Hne].
  { apply length_zero_iff_nil in E as ->. simpl.
    by rewrite bool_decide_false by lia. }
  replace (_ + _ - 1) with (Z.of_nat (length pre + length mid - 1)) by lia.
  destruct (swap_loop_mirrored (length mid) (pre ++ mid ++ post) (length pre)
    (length pre + length mid - 1)) as (r & -> & Hl & Hr); [rewrite !length_app; lia|lia|].
  f_equal. apply list_eq. intros i. rewrite Hr. case_bool_decide as Hi.
  - rewrite !(lookup_app_r pre) by lia.
    rewrite !lookup_app_l by (rewrite ?length_reverse; lia).
    rewrite reverse_lookup by lia. f_equal. lia.
  - destruct (decide (i < length pre)%nat).
    + by rewrite !lookup_app_l by done.
    + rewrite !(lookup_app_r pre) by lia.
      rewrite !lookup_app_r by (rewrite ?length_reverse; lia). by rewrite length_reverse.
Qed.

(** [bytes_swap] reverses the [len] bytes at the pointer, in place, and
    leaves the rest of the buffer unchanged; it accesses nothing outside. *)
Theorem bytes_swap_rev (pre mid post : bytes) :
  bytes_swap (pre ++ mid ++ post) (length pre) (length mid) = Ok (pre ++ reverse mid ++ post).
Proof. apply bytes_swap_range. Qed.


(** The value of a hexadecimal digit. *)
Definition unhex (c : byte) : Z :=
  let z := b2z c in if z <=? 57 then z - 48 else z - 87.

Lemma hex_of_byte_inv b :
  hex_of_byte b = [nth 0 (hex_of_byte b) x00; nth 1 (hex_of_byte b) x00] ∧
  z2b (16 * unhex (nth 0 (hex_of_byte b) x00) + unhex (nth 1 (hex_of_byte b) x00)) = b.
Proof. byte_cases b. Qed.

Lemma hex_of_byte_nul_free b : nul_free (hex_of_byte b).
Proof. byte_cases b. Qed.

Lemma hex_of_byte_inj b b' : hex_of_byte b = hex_of_byte b' → b = b'.
Proof.
  intros E. rewrite <-(proj2 (hex_of_byte_inv b)), <-(proj2 (hex_of_byte_inv b')). by rewrite E.
Qed.

Lemma hex_digits_nul_free l : nul_free (flat_map hex_of_byte l).
Proof.
  induction l as [|b l IH]; [constructor|]. simpl.
  pose proof (hex_of_byte_nul_free b) as H. inversion_clear H as [|? ? H1 H2].
  inversion_clear H2. repeat constructor; done.
Qed.

(** The hexadecimal string has two characters per byte before its
    terminator and determines the bytes. *)
Theorem bytes_to_hexstring_spec l :
  strlen (bytes_to_hexstring l) = (2 * length l)%nat ∧
  ∀ l', cstr (bytes_to_hexstring l) = cstr (bytes_to_hexstring l') → l = l'.
Proof.
  unfold strlen, bytes_to_hexstring. split.
  - rewrite cstr_app_nul by apply hex_digits_nul_free.
    induction l as [|b l IH]; [done|]. simpl in *. lia.
  - intros l'. rewrite !cstr_app_nul by apply hex_digits_nul_free. revert l'.
    induction l as [|b l IH]; intros [|b' l'] E; try done. cbn [flat_map] in E.
    apply app_inj_1 in E as [E1 E2]; [|done].
    f_equal; [by apply hex_of_byte_inj|auto].
Qed.

(** ** Stores *)

Lemma store_ok m off data m' :
  store m off data = Ok m' ↔
  (off + length data <= length m)%nat ∧ m' = take off m ++ data ++ drop (off + length data) m.
Proof. unfold store. case_bool_decide; naive_solver. Qed.

Lemma store_length m off data m' : store m off data = Ok m' → length m' = length m.
Proof.
  intros [H ->]%store_ok. rewrite !length_app, length_take, length_drop. lia.
Qed.

(** Successive stores at the end of what was written so far. *)
Lemma store_seq (pre data rest : bytes) :
  (length data <= length rest)%nat →
  store (pre ++ rest) (length pre) data = Ok ((pre ++ data) ++ drop (length data) rest).
Proof.
  intros H. unfold store. rewrite bool_decide_true by (rewrite length_app; lia).
  rewrite take_app_length. rewrite <-drop_drop, drop_app_length. by rewrite app_assoc.
Qed.
End Utils.
