(* ===== verification/Cdouble.v ===== *)
(** * C doubles as the JSON code uses them

    A C [double] is an IEEE binary64 number, represented by the Standard
    Library's [spec_float] (no primitive floats, hence no axioms). This file
    models the two library functions parson.c calls on doubles, [strtod] and
    [snprintf] with the format ["%1.17g"] (FLOAT_FORMAT), and the conversions
    between [int] and [double]. Both directions are exact integer arithmetic:
    correctly rounded (to nearest, ties to even), as the C library of the
    enclave does it.

    [strtod] follows the C standard: the longest prefix of the expected form
    (decimal, hexadecimal, infinity or NaN) is converted; [ERANGE] is reported
    on overflow and when a non-zero number underflows to zero.

    The main result is the round trip of integers: for every integer below
    2^53 in absolute value, printing the double and reading it back is the
    identity. *)
From Stdlib Require Export SpecFloat.
From S2P Require Import Prelude.
Local Open Scope Z_scope.

Module Cdouble.

Abbreviation double := spec_float.
Definition prec : Z := 53.
Definition emax : Z := 1024.

#[global] Instance spec_float_eq_dec : EqDecision spec_float.
Proof. solve_decision. Defined.

(** [(double) n] for an integer. *)
Definition of_int (n : Z) : double := binary_normalize prec emax n 0 false.

Definition is_finite (d : double) : bool :=
  match d with S754_zero _ | S754_finite _ _ _ => true | _ => false end.

(** [(int) d]: truncation toward zero, undefined when the value does not fit. *)
Definition to_int (d : double) : res Z :=
  match d with
  | S754_zero _ => Ok 0
  | S754_finite s m e =>
      let a := Z.shiftl (Z.pos m) e in
      let v := if s then - a else a in
      if bool_decide (INT_MIN <= v <= INT_MAX) then Ok v else UB IntOverflow
  | _ => UB IntOverflow
  end.

(** ** Decimal digits *)

(** Number of decimal digits of a non-negative integer. *)
Fixpoint ndigits_fuel (fuel : nat) (n : Z) : nat :=
  match fuel with
  | O => 1%nat
  | S f => if n <? 10 then 1%nat else S (ndigits_fuel f (n / 10))
  end.
Definition ndigits (n : Z) : nat := ndigits_fuel (Z.to_nat (Z.log2 n) + 1) n.

Definition digit (d : Z) : byte := z2b (48 + d).

(** Exactly [w] digits, padded with zeros on the left. *)
Fixpoint dec_pad (w : nat) (n : Z) : bytes :=
  match w with
  | O => []
  | S w' => dec_pad w' (n / 10) ++ [digit (n mod 10)]
  end.

Definition dec (n : Z) : bytes := dec_pad (ndigits n) n.

(** ** [snprintf("%1.17g", d)] *)

Definition pow10 (k : Z) : Z := 10 ^ k.

(** [num/den >= 10^x]. *)
Definition ge_pow10 (num den x : Z) : bool :=
  if 0 <=? x then den * pow10 x <=? num else den <=? num * pow10 (- x).

(** [floor (log10 (num/den))]. *)
Definition exponent10 (num den : Z) : Z :=
  let x := Z.of_nat (ndigits num) - Z.of_nat (ndigits den) in
  if ge_pow10 num den x then x else x - 1.

(** [n/d] rounded to nearest, ties to even. *)
Definition div_half_even (n d : Z) : Z :=
  let q := n / d in
  let r := n mod d in
  if 2 * r <? d then q else if d <? 2 * r then q + 1 else if Z.even q then q else q + 1.

(** The 17 significant digits and the decimal exponent of [num/den > 0]. *)
Definition sig17 (num den : Z) : Z * Z :=
  let x := exponent10 num den in
  let k := 16 - x in
  let g := if 0 <=? k then div_half_even (num * pow10 k) den
           else div_half_even num (den * pow10 (- k)) in
  if g =? pow10 17 then (pow10 16, x + 1) else (g, x).

(** Removal of the trailing zeros of a fraction ([%g] without [#]). *)
Fixpoint strip_zeros (l : bytes) : bytes :=
  match l with
  | [] => []
  | c :: l' =>
      match strip_zeros l' with
      | [] => if bool_decide (c = x30) then [] else [c]
      | l'' => c :: l''
      end
  end.

Definition with_fraction (ip frac : bytes) : bytes :=
  match strip_zeros frac with [] => ip | f => ip ++ x2e :: f end.

(** The digits of a positive number in the style [%g] selects. *)
Definition fmt_digits (num den : Z) : bytes :=
  let '(g, x) := sig17 num den in
  if (-4 <=? x) && (x <? 17) then
    if 0 <=? x then
      with_fraction (dec (g / pow10 (16 - x))) (dec_pad (Z.to_nat (16 - x)) (g mod pow10 (16 - x)))
    else with_fraction [x30] (dec_pad (Z.to_nat (16 - x)) g)
  else
    with_fraction (dec (g / pow10 16)) (dec_pad 16 (g mod pow10 16)) ++
    [x65; if x <? 0 then x2d else x2b] ++
    (if Z.abs x <? 10 then dec_pad 2 (Z.abs x) else dec (Z.abs x)).

Definition fmt17g (d : double) : bytes :=
  match d with
  | S754_zero s => (if s then [x2d] else []) ++ [x30]
  | S754_finite s m e =>
      (if s then [x2d] else []) ++
      (if 0 <=? e then fmt_digits (Z.pos m * 2 ^ e) 1 else fmt_digits (Z.pos m) (2 ^ (- e)))
  | S754_infinity s => (if s then [x2d] else []) ++ bs "inf"
  | S754_nan => bs "nan"
  end.

(** ** [strtod] *)

Definition is_digit (c : byte) : bool := (48 <=? b2z c) && (b2z c <=? 57).

(** [isspace] in the C locale. *)
Definition isspace (c : byte) : bool :=
  let z := b2z c in (z =? 32) || ((9 <=? z) && (z <=? 13)).

(** The value of a digit in base 16, or [None]. *)
Definition hex_value (c : byte) : option Z :=
  let z := b2z c in
  if (48 <=? z) && (z <=? 57) then Some (z - 48)
  else if (97 <=? z) && (z <=? 102) then Some (z - 87)
  else if (65 <=? z) && (z <=? 70) then Some (z - 55)
  else None.

(** A maximal run of digits: value accumulated, count, rest. *)
Fixpoint scan_digits (s : bytes) (acc : Z) (n : nat) : Z * nat * bytes :=
  match s with
  | c :: s' => if is_digit c then scan_digits s' (10 * acc + (b2z c - 48)) (S n) else (acc, n, s)
  | [] => (acc, n, s)
  end.

Fixpoint scan_hex (s : bytes) (acc : Z) (n : nat) : Z * nat * bytes :=
  match s with
  | c :: s' => match hex_value c with
               | Some v => scan_hex s' (16 * acc + v) (S n)
               | None => (acc, n, s)
               end
  | [] => (acc, n, s)
  end.

(** An exponent part introduced by one of two letters; absent when no digit
    follows. *)
Definition scan_exponent (lower upper : byte) (s : bytes) : Z * bytes :=
  match s with
  | c :: s1 =>
      if bool_decide (c = lower) || bool_decide (c = upper) then
        let '(neg, s2) := match s1 with
                          | x2d :: r => (true, r)
                          | x2b :: r => (false, r)
                          | _ => (false, s1)
                          end in
        let '(v, n, s3) := scan_digits s2 0 0 in
        match n with O => (0, s) | _ => (if (neg : bool) then - v else v, s3) end
      else (0, s)
  | [] => (0, s)
  end.

(** A mantissa with an optional fraction: value, digits in all, digits of the
    fraction, rest. A lone point is not part of the number. *)
Definition scan_mantissa (scan : bytes → Z → nat → Z * nat * bytes) (s : bytes)
  : Z * nat * nat * bytes :=
  let '(v1, n1, s1) := scan s 0 0%nat in
  match s1 with
  | x2e :: s2 =>
      let '(v2, n2, s3) := scan s2 v1 0%nat in
      match (n1 + n2)%nat with
      | O => (0, 0%nat, 0%nat, s)
      | n => (v2, n, n2, s3)
      end
  | _ => (v1, n1, 0%nat, s1)
  end.

(** Correctly rounded [d * 10^k], with the exponents that surely overflow or
    underflow cut off. *)
Definition round_decimal (sx : bool) (d k : Z) : double :=
  match d with
  | Z.pos p =>
      let magnitude := Z.of_nat (ndigits d) + k in
      if 310 <? magnitude then S754_infinity sx
      else if magnitude <? -330 then S754_zero sx
      else if 0 <=? k then binary_round prec emax sx (Z.to_pos (d * pow10 k)) 0
      else let '(q, e', l) := SFdiv_core_binary prec emax d 0 (pow10 (- k)) 0 in
           binary_round_aux prec emax sx q e' l
  | _ => S754_zero sx
  end.

Definition tolower (c : byte) : byte :=
  if (65 <=? b2z c) && (b2z c <=? 90) then z2b (b2z c + 32) else c.

(** A word of lower-case letters, ignoring case. *)
Fixpoint scan_word (w s : bytes) : option bytes :=
  match w, s with
  | [], _ => Some s
  | a :: w', c :: s' => if bool_decide (tolower c = a) then scan_word w' s' else None
  | _, [] => None
  end.

(** The optional parenthesised sequence after [nan]. *)
Fixpoint scan_nchars (s : bytes) : option bytes :=
  match s with
  | x29 :: s' => Some s'
  | c :: s' =>
      if is_digit c || bool_decide (c = x5f)
         || ((97 <=? b2z (tolower c)) && (b2z (tolower c) <=? 122))
      then scan_nchars s' else None
  | [] => None
  end.

(** [strtod(s, &end)]: value, [errno == ERANGE], and the string at [end]. *)
Record strtod_result := StrtodResult {
  st_value : double; st_erange : bool; st_end : bytes }.

(** [ERANGE]: overflow, or underflow to zero of a non-zero number. *)
Definition out_of_range (mant : Z) (v : double) : bool :=
  match v with
  | S754_infinity _ => true
  | S754_zero _ => negb (mant =? 0)
  | _ => false
  end.

(** The subject sequence after the sign; [orig] is the pointer returned when
    no conversion can be performed. *)
Definition strtod_body (sx : bool) (s orig : bytes) : strtod_result :=
  match scan_word (bs "inf") s with
  | Some s1 =>
      StrtodResult (S754_infinity sx) false
        (match scan_word (bs "inity") s1 with Some s2 => s2 | None => s1 end)
  | None =>
  match scan_word (bs "nan") s with
  | Some s1 =>
      StrtodResult S754_nan false
        (match s1 with
         | x28 :: s2 => match scan_nchars s2 with Some s3 => s3 | None => s1 end
         | _ => s1
         end)
  | None =>
  let hex :=
    match s with
    | x30 :: (x78 | x58) :: s1 =>
        let '(v, n, nf, s2) := scan_mantissa scan_hex s1 in
        match n with
        | O => None
        | _ => let '(e, s3) := scan_exponent x70 x50 s2 in
               let r := match v with
                        | Z.pos p => binary_round prec emax sx p (e - 4 * Z.of_nat nf)
                        | _ => S754_zero sx
                        end in
               Some (StrtodResult r (out_of_range v r) s3)
        end
    | _ => None
    end in
  match hex with
  | Some r => r
  | None =>
      let '(v, n, nf, s1) := scan_mantissa scan_digits s in
      match n with
      | O => StrtodResult (S754_zero false) false orig
      | _ => let '(e, s2) := scan_exponent x65 x45 s1 in
             let r := round_decimal sx v (e - Z.of_nat nf) in
             StrtodResult r (out_of_range v r) s2
      end
  end
  end
  end.

Fixpoint skip_spaces (s : bytes) : bytes :=
  match s with c :: s' => if isspace c then skip_spaces s' else s | [] => [] end.

Definition strtod (s : bytes) : strtod_result :=
  match skip_spaces s with
  | x2d :: s1 => strtod_body true s1 s
  | x2b :: s1 => strtod_body false s1 s
  | s1 => strtod_body false s1 s
  end.

(** ** Digits: correctness *)

Lemma ndigits_fuel_spec fuel : ∀ n, 0 <= n < 10 ^ Z.of_nat fuel →
  n < 10 ^ Z.of_nat (ndigits_fuel fuel n) ∧
  (n = 0 ∨ 10 ^ (Z.of_nat (ndigits_fuel fuel n) - 1) <= n) ∧ (1 <= ndigits_fuel fuel n)%nat.
Proof.
  induction fuel as [|f IH]; intros n Hn; simpl ndigits_fuel.
  { simpl in *. lia. }
  destruct (Z.ltb_spec n 10).
  { simpl. lia. }
  rewrite Nat2Z.inj_succ, Z.pow_succ_r in Hn by lia.
  destruct (IH (n / 10)) as (H1 & H2 & H3); [zdm|].
  rewrite Nat2Z.inj_succ, Z.pow_succ_r by lia. split_and!; [zdm| |lia].
  right. destruct H2 as [H2|H2]; [zdm|].
  replace (Z.succ _ - 1) with (Z.succ (Z.of_nat (ndigits_fuel f (n / 10)) - 1)) by lia.
  rewrite Z.pow_succ_r by lia. zdm.
Qed.

Lemma ndigits_spec n : 0 <= n →
  n < 10 ^ Z.of_nat (ndigits n) ∧ (n = 0 ∨ 10 ^ (Z.of_nat (ndigits n) - 1) <= n) ∧
  (1 <= ndigits n)%nat.
Proof.
  intros Hn. apply ndigits_fuel_spec. split; [done|].
  destruct (decide (n = 0)) as [->|]; [done|].
  pose proof (Z.log2_nonneg n). rewrite Nat2Z.inj_add, Z2Nat.id by lia.
  pose proof (proj2 (Z.log2_spec n ltac:(lia))) as H2.
  eapply Z.lt_le_trans; [exact H2|]. replace (Z.succ (Z.log2 n)) with (Z.log2 n + Z.of_nat 1) by lia.
  apply Z.pow_le_mono_l. lia.
Qed.

Lemma digit_value d : 0 <= d < 10 → is_digit (digit d) = true ∧ b2z (digit d) - 48 = d.
Proof.
  intros Hd. unfold is_digit, digit. rewrite b2z_z2b, Z.mod_small by lia. lia.
Qed.

Lemma scan_digits_dec_pad w : ∀ n rest acc k, 0 <= n →
  scan_digits (dec_pad w n ++ rest) acc k
  = scan_digits rest (acc * 10 ^ Z.of_nat w + n mod 10 ^ Z.of_nat w) (k + w).
Proof.
  induction w as [|w IH]; intros n rest acc k Hn.
  { simpl. rewrite Z.mod_1_r. by rewrite Z.mul_1_r, Z.add_0_r, Nat.add_0_r. }
  cbn [dec_pad]. rewrite <-app_assoc, IH by zdm. cbn [app scan_digits].
  destruct (digit_value (n mod 10)) as [-> ->]; [zdm|].
  f_equal; [|lia]. rewrite Nat2Z.inj_succ, Z.pow_succ_r by lia.
  rewrite Z.rem_mul_r by lia. lia.
Qed.

Lemma scan_digits_stop s acc k : is_digit (peek s) = false → scan_digits s acc k = (acc, k, s).
Proof. destruct s; simpl; [done|]. by intros ->. Qed.

Lemma scan_digits_dec n rest : 0 <= n → is_digit (peek rest) = false →
  scan_digits (dec n ++ rest) 0 0 = (n, ndigits n, rest).
Proof.
  intros Hn Hr. unfold dec. rewrite scan_digits_dec_pad, scan_digits_stop by done.
  rewrite Z.mod_small; [done|]. by destruct (ndigits_spec n Hn).
Qed.

Lemma dec_pad_head w n : (1 <= w)%nat → 0 <= n → ∃ d l, dec_pad w n = digit d :: l ∧ 0 <= d < 10.
Proof.
  revert n. induction w as [|w IH]; intros n Hw Hn; [lia|]. cbn [dec_pad].
  destruct w as [|w]; [simpl; eexists _, []; split; [done|zdm]|].
  destruct (IH (n / 10)) as (d & l & -> & Hd); [lia|zdm|]. eexists _, _. by split.
Qed.

Lemma dec_head n : 0 <= n → ∃ d l, dec n = digit d :: l ∧ 0 <= d < 10.
Proof. intros Hn. apply dec_pad_head; [|done]. by destruct (ndigits_spec n Hn) as (_ & _ & ?). Qed.

(** The second character of a decimal number is a digit. *)
Lemma dec_pad_digits w n : 0 <= n → Forall (λ c, is_digit c = true) (dec_pad w n).
Proof.
  revert n. induction w as [|w IH]; intros n Hn; [constructor|]. cbn [dec_pad].
  apply Forall_app; split; [apply IH; zdm|]. constructor; [|constructor].
  apply digit_value. zdm.
Qed.

(** ** Rounding integers that fit in the mantissa *)

Lemma digits2_pos_log2 p : Z.pos (digits2_pos p) = Z.log2 (Z.pos p) + 1.
Proof.
  induction p as [p IH|p IH|]; simpl digits2_pos; [| |done];
    rewrite Pos2Z.inj_succ, IH.
  - rewrite Pos2Z.inj_xI, Z.log2_succ_double by lia. lia.
  - rewrite Pos2Z.inj_xO, Z.log2_double by lia. lia.
Qed.

Lemma iter_xO p k : Z.pos (Pos.iter xO p k) = Z.pos p * 2 ^ Z.pos k.
Proof.
  induction k as [|k IH] using Pos.peano_ind; [simpl; lia|].
  rewrite Pos.iter_succ, Pos2Z.inj_xO, IH, Pos2Z.inj_succ, Z.pow_succ_r by lia. lia.
Qed.

(** A mantissa of exactly 53 bits needs no rounding. *)
Lemma binary_round_aux_exact sx m e : Z.log2 (Z.pos m) = 52 → -1074 <= e <= 971 →
  binary_round_aux prec emax sx (Z.pos m) e loc_Exact = S754_finite sx m e.
Proof.
  intros Hm He.
  assert (shr_fexp prec emax (Z.pos m) e loc_Exact = (Build_shr_record (Z.pos m) false false, e)) as E.
  { unfold shr_fexp. cbn [Zdigits2]. rewrite digits2_pos_log2, Hm.
    unfold fexp, emin, prec, emax. replace (Z.max _ _ - e) with 0 by lia. done. }
  unfold binary_round_aux. rewrite E. cbn [loc_of_shr_record round_nearest_even shr_m].
  rewrite E. cbn [shr_m]. rewrite (proj2 (Z.leb_le _ _)); [done|]. unfold prec, emax. lia.
Qed.

(** An integer of at most 53 bits is represented exactly. *)
Lemma binary_round_small sx p : Z.pos p < 2 ^ 53 →
  ∃ m k, binary_round prec emax sx p 0 = S754_finite sx m (- k) ∧ 0 <= k <= 52 ∧
    Z.pos m = Z.pos p * 2 ^ k.
Proof.
  intros Hp. unfold binary_round. rewrite Z.add_0_r, digits2_pos_log2.
  assert (Z.log2 (Z.pos p) < 53) as Hl by (apply Z.log2_lt_pow2; lia).
  pose proof (Z.log2_nonneg (Z.pos p)). set (l := Z.log2 (Z.pos p)) in *.
  unfold shl_align, fexp, emin. replace (Z.max (l + 1 - prec) (3 - emax - prec) - 0) with (l - 52)
    by (unfold prec, emax; lia).
  destruct (l - 52) as [|q|q] eqn:E; [|lia|].
  - exists p, 0. rewrite binary_round_aux_exact by (fold l; lia). split_and!; [done|lia..].
  - exists (Pos.iter xO p q), (Z.pos q).
    replace (Z.max (l + 1 - prec) (3 - emax - prec)) with (- Z.pos q) by (unfold prec, emax; lia).
    rewrite binary_round_aux_exact.
    + split_and!; [done|lia..|]. apply iter_xO.
    + rewrite iter_xO, Z.log2_mul_pow2 by lia. fold l. lia.
    + lia.
Qed.
(** ** Printing integers *)

Lemma exponent10_ge1 num den : 0 < den <= num →
  let x := exponent10 num den in 0 <= x ∧ den * 10 ^ x <= num < den * 10 ^ (x + 1).
Proof.
  intros H. unfold exponent10. cbv zeta.
  destruct (ndigits_spec num) as (N1 & N2 & N3); [lia|].
  destruct (ndigits_spec den) as (D1 & D2 & D3); [lia|].
  set (a := Z.of_nat (ndigits num)) in *. set (b := Z.of_nat (ndigits den)) in *.
  assert (1 <= a ∧ 1 <= b) as [Ha Hb] by lia.
  destruct N2 as [N2|N2]; [lia|]. destruct D2 as [D2|D2]; [lia|].
  assert (b <= a) as Hba.
  { destruct (Z.le_gt_cases b a); [done|].
    assert (10 ^ a <= 10 ^ (b - 1)) by (apply Z.pow_le_mono_r; lia). lia. }
  assert (num < den * 10 ^ (a - b + 1)) as Hup.
  { eapply Z.lt_le_trans; [exact N1|]. replace a with ((b - 1) + (a - b + 1)) at 1 by lia.
    rewrite Z.pow_add_r by lia. apply Z.mul_le_mono_nonneg_r; [apply Z.pow_nonneg; lia|done]. }
  unfold ge_pow10, pow10. rewrite (proj2 (Z.leb_le 0 (a - b))) by lia.
  destruct (Z.leb_spec (den * 10 ^ (a - b)) num) as [Hle|Hgt].
  { split; [lia|done]. }
  assert (a ≠ b) as Hne by (intros ->; rewrite Z.sub_diag in Hgt; lia).
  split; [lia|]. replace (a - b - 1 + 1) with (a - b) by lia. split; [|done].
  assert (den * 10 ^ (a - b - 1) < 10 ^ (a - 1)) as Hl; [|lia].
  replace (a - 1) with (b + (a - b - 1)) by lia. rewrite Z.pow_add_r by lia.
  apply Z.mul_lt_mono_pos_r; [apply Z.pow_pos_nonneg; lia|done].
Qed.

Lemma div_half_even_exact n d : 0 < d → div_half_even (n * d) d = n.
Proof.
  intros Hd. unfold div_half_even. rewrite Z.div_mul, Z.mod_mul by lia.
  by rewrite (proj2 (Z.ltb_lt _ _)) by lia.
Qed.

Lemma strip_zeros_pad w : strip_zeros (dec_pad w 0) = [].
Proof.
  assert (∀ k, strip_zeros (repeat x30 k) = []) as H.
  { induction k as [|k IH]; [done|]. cbn [repeat strip_zeros]. by rewrite IH. }
  assert (dec_pad w 0 = repeat x30 w) as ->; [|apply H].
  induction w as [|w IH]; [done|]. cbn [dec_pad]. change (0 / 10) with 0. rewrite IH.
  change (digit (0 mod 10)) with x30. symmetry. apply repeat_cons.
Qed.

(** [n * q / q] prints as the integer [n]. *)
Lemma fmt_digits_int n q : 0 < n < 10 ^ 17 → 0 < q → fmt_digits (n * q) q = dec n.
Proof.
  intros Hn Hq. unfold fmt_digits, sig17. cbv zeta.
  destruct (exponent10_ge1 (n * q) q) as (Hx & H1 & H2); [nia|].
  set (x := exponent10 (n * q) q) in *.
  assert (10 ^ x <= n < 10 ^ (x + 1)) as [G1 G2] by nia.
  assert (x <= 16) as Hx16.
  { destruct (Z.le_gt_cases x 16); [done|].
    assert (10 ^ 17 <= 10 ^ x) by (apply Z.pow_le_mono_r; lia). lia. }
  unfold pow10. rewrite (proj2 (Z.leb_le 0 (16 - x))) by lia.
  assert (0 < 10 ^ (16 - x)) as Hp by (apply Z.pow_pos_nonneg; lia).
  assert (n * 10 ^ (16 - x) < 10 ^ 17) as Hlt.
  { replace 17 with ((x + 1) + (16 - x)) by lia. rewrite Z.pow_add_r by lia.
    by apply Z.mul_lt_mono_pos_r. }
  replace (n * q * 10 ^ (16 - x)) with (n * 10 ^ (16 - x) * q) by ring.
  rewrite div_half_even_exact by done.
  rewrite (proj2 (Z.eqb_neq _ _)) by lia.
  rewrite (proj2 (Z.leb_le (-4) x)), (proj2 (Z.ltb_lt x 17)), (proj2 (Z.leb_le 0 x)) by lia.
  cbn [andb]. rewrite Z.div_mul, Z.mod_mul by lia.
  unfold with_fraction. by rewrite strip_zeros_pad.
Qed.

(** The text of an integer: an optional minus sign and its digits. *)
Definition int_text (n : Z) : bytes := (if n <? 0 then [x2d] else []) ++ dec (Z.abs n).

Lemma fmt17g_round sx p : Z.pos p < 2 ^ 53 →
  fmt17g (binary_round prec emax sx p 0) = (if sx then [x2d] else []) ++ dec (Z.pos p).
Proof.
  intros Hp. destruct (binary_round_small sx p Hp) as (m & k & -> & Hk & Hm).
  unfold fmt17g. f_equal.
  assert (Z.pos p < 10 ^ 17) by lia.
  destruct (Z.leb_spec 0 (- k)).
  - replace k with 0 in * by lia. rewrite Hm. rewrite Z.mul_1_r.
    change (2 ^ (- 0)) with 1. apply fmt_digits_int; lia.
  - rewrite Hm, Z.opp_involutive. apply fmt_digits_int; [lia|]. apply Z.pow_pos_nonneg; lia.
Qed.

Lemma fmt17g_int n : Z.abs n < 2 ^ 53 → fmt17g (of_int n) = int_text n.
Proof.
  intros Hn. unfold of_int, int_text. destruct n as [|p|p]; [done|..]; simpl binary_normalize.
  - by rewrite fmt17g_round by lia.
  - by rewrite fmt17g_round by lia.
Qed.

(** ** Reading integers back *)

(** The text after a number: not a character that would extend it. *)
Definition number_end (rest : bytes) : bool :=
  let c := peek rest in
  negb (is_digit c || bool_decide (c = x2e) || bool_decide (c = x65) || bool_decide (c = x45)
        || bool_decide (c = x78) || bool_decide (c = x58)).

Lemma number_end_inv rest : number_end rest = true →
  is_digit (peek rest) = false ∧ peek rest ≠ x2e ∧ peek rest ≠ x65 ∧ peek rest ≠ x45
  ∧ peek rest ≠ x78 ∧ peek rest ≠ x58.
Proof.
  unfold number_end. intros H. apply negb_true_iff in H.
  rewrite !orb_false_iff in H. destruct_and!.
  split_and!; try done; by eapply bool_decide_eq_false_1.
Qed.

Lemma scan_exponent_none lo up s : peek s ≠ lo → peek s ≠ up → scan_exponent lo up s = (0, s).
Proof.
  destruct s as [|c s]; [done|]. simpl. intros H1 H2.
  by rewrite (bool_decide_false _ H1), (bool_decide_false _ H2).
Qed.

Lemma scan_mantissa_dec n rest : 0 <= n → number_end rest = true →
  scan_mantissa scan_digits (dec n ++ rest) = (n, ndigits n, 0%nat, rest).
Proof.
  intros Hn (H1 & H2 & _)%number_end_inv. unfold scan_mantissa.
  rewrite scan_digits_dec by done.
  destruct rest as [|c r]; [done|]. simpl in H2. by destruct c.
Qed.
(** The decimal branch of [strtod]. *)
Lemma strtod_body_decimal sx c t orig :
  is_digit c = true → peek t ≠ x78 → peek t ≠ x58 →
  strtod_body sx (c :: t) orig =
    let '(v, n, nf, s1) := scan_mantissa scan_digits (c :: t) in
    match n with
    | O => StrtodResult (S754_zero false) false orig
    | _ => let '(e, s2) := scan_exponent x65 x45 s1 in
           let r := round_decimal sx v (e - Z.of_nat nf) in
           StrtodResult r (out_of_range v r) s2
    end.
Proof.
  intros Hc H1 H2.
  assert (tolower c ≠ x69 ∧ tolower c ≠ x6e) as [Hi Hn].
  { revert Hc. byte_cases c. }
  unfold strtod_body. change (bs "inf") with (x69 :: bs "nf").
  change (bs "nan") with (x6e :: bs "an").
  assert (∀ w, scan_word (x69 :: w) (c :: t) = None) as Ei.
  { intros w. cbn [scan_word]. by rewrite bool_decide_false. }
  assert (∀ w, scan_word (x6e :: w) (c :: t) = None) as En.
  { intros w. cbn [scan_word]. by rewrite bool_decide_false. }
  rewrite Ei, En.
  destruct (decide (c = x30)) as [->|Hc0]; [destruct t as [|d t]; [done|]; by destruct d|].
  by destruct c.
Qed.

Lemma strtod_body_dec sx n rest orig : 0 <= n → number_end rest = true →
  strtod_body sx (dec n ++ rest) orig =
    let r := round_decimal sx n 0 in StrtodResult r (out_of_range n r) rest.
Proof.
  intros Hn Hr. destruct (dec_head n Hn) as (d & l & E & Hd).
  pose proof (scan_mantissa_dec n rest Hn Hr) as Hm.
  destruct (number_end_inv rest Hr) as (H1 & H2 & H3 & H4 & H5 & H6).
  assert (Forall (λ c, is_digit c = true) l) as Hl.
  { pose proof (dec_pad_digits (ndigits n) n Hn) as H. fold (dec n) in H. rewrite E in H.
    by inversion_clear H. }
  rewrite E in *. cbn [app] in *.
  rewrite strtod_body_decimal; [|by apply digit_value|..].
  - rewrite Hm. destruct (ndigits_spec n Hn) as (_ & _ & H7).
    destruct (ndigits n) as [|w]; [lia|]. by rewrite scan_exponent_none by done.
  - destruct Hl as [|c l Hc _]; [done|]. simpl. by intros ->.
  - destruct Hl as [|c l Hc _]; [done|]. simpl. by intros ->.
Qed.

(** Reading an integer that fits in the mantissa. *)
Lemma round_decimal_small sx p : Z.pos p < 2 ^ 53 →
  round_decimal sx (Z.pos p) 0 = binary_round prec emax sx p 0.
Proof.
  intros Hp. unfold round_decimal.
  destruct (ndigits_spec (Z.pos p)) as (_ & [?|H] & _); [lia..|].
  assert (Z.of_nat (ndigits (Z.pos p)) <= 17) as Hw.
  { destruct (Z.le_gt_cases (Z.of_nat (ndigits (Z.pos p))) 17); [done|].
    assert (10 ^ 17 <= 10 ^ (Z.of_nat (ndigits (Z.pos p)) - 1)) by (apply Z.pow_le_mono_r; lia). lia. }
  rewrite (proj2 (Z.ltb_ge 310 _)), (proj2 (Z.ltb_ge _ (-330))) by lia.
  rewrite (proj2 (Z.leb_le 0 0)) by done. unfold pow10. by rewrite Z.mul_1_r.
Qed.

Lemma out_of_range_round n sx p : Z.pos p < 2 ^ 53 →
  out_of_range n (binary_round prec emax sx p 0) = false.
Proof. intros Hp. by destruct (binary_round_small sx p Hp) as (m & k & -> & _). Qed.

Lemma digit_not_special c : is_digit c = true →
  isspace c = false ∧ c ≠ x2d ∧ c ≠ x2b.
Proof. intros Hc. split_and!; revert Hc; byte_cases c. Qed.

Lemma strtod_unsigned c t : is_digit c = true → strtod (c :: t) = strtod_body false (c :: t) (c :: t).
Proof.
  intros Hc. destruct (digit_not_special c Hc) as (Hs & H1 & H2).
  unfold strtod. cbn [skip_spaces]. rewrite Hs. by destruct c.
Qed.

(** Printing an integer-valued double below 2^53 in absolute value with
    FLOAT_FORMAT and reading the text with [strtod] is the identity; nothing of
    the text that follows is consumed. *)
Lemma int_double_roundtrip n rest :
  Z.abs n < 2 ^ 53 → number_end rest = true →
  strtod (fmt17g (of_int n) ++ rest) = StrtodResult (of_int n) false rest.
Proof.
  intros Hn Hr. rewrite fmt17g_int by done. unfold int_text, of_int.
  destruct n as [|p|p]; cbn [Z.abs Z.ltb Z.compare app binary_normalize].
  - destruct (dec_head 0) as (d & l & E & Hd); [done|].
    pose proof (strtod_body_dec false 0 rest (dec 0 ++ rest) ltac:(done) Hr) as H.
    change (Z.abs 0) with 0. rewrite E in *. cbn [app] in *. rewrite strtod_unsigned by (by apply digit_value). done.
  - pose proof (strtod_body_dec false (Z.pos p) rest (dec (Z.pos p) ++ rest) ltac:(done) Hr) as H.
    destruct (dec_head (Z.pos p)) as (d & l & E & Hd); [done|].
    change (Z.abs (Z.pos p)) with (Z.pos p). rewrite E in *. cbn [app] in *. rewrite strtod_unsigned by (by apply digit_value).
    rewrite H. cbv zeta. rewrite round_decimal_small by lia. by rewrite out_of_range_round by lia.
  - change (Z.abs (Z.neg p)) with (Z.pos p).
    unfold strtod. cbn [skip_spaces]. change (isspace x2d) with false. cbv iota.
    rewrite strtod_body_dec by done. cbv zeta.
    rewrite round_decimal_small by lia. by rewrite out_of_range_round by lia.
Qed.

(** The conversions between [int] and [double] are inverse on every [int]. *)
Lemma int_of_double n : INT_MIN <= n <= INT_MAX → to_int (of_int n) = Ok n.
Proof.
  unfold INT_MIN, INT_MAX. intros Hn. unfold of_int.
  destruct n as [|p|p]; [done|..]; cbn [binary_normalize].
  all: edestruct binary_round_small as (m & k & -> & Hk & Hm); [lia|].
  all: unfold to_int; rewrite Hm, Z.shiftl_div_pow2, Z.opp_involutive by lia.
  all: rewrite Z.div_mul by (apply Z.pow_nonzero; lia).
  all: rewrite bool_decide_true; [done|unfold INT_MIN, INT_MAX; lia].
Qed.

(** ** [strtod] never moves backwards *)

Lemma scan_digits_le s : ∀ acc n v k r, scan_digits s acc n = (v, k, r) → (length r <= length s)%nat.
Proof.
  induction s as [|c s IH]; intros acc n v k r; simpl; [by intros; simplify_eq|].
  case_match; intros Hs; [apply IH in Hs; lia|simplify_eq; simpl; lia].
Qed.

Lemma scan_hex_le s : ∀ acc n v k r, scan_hex s acc n = (v, k, r) → (length r <= length s)%nat.
Proof.
  induction s as [|c s IH]; intros acc n v k r; simpl; [by intros; simplify_eq|].
  case_match; intros Hs; [apply IH in Hs; lia|simplify_eq; simpl; lia].
Qed.

Lemma scan_exponent_le lo up s e r : scan_exponent lo up s = (e, r) → (length r <= length s)%nat.
Proof.
  unfold scan_exponent. destruct s as [|c s]; [by intros; simplify_eq|].
  case_match; [|by intros; simplify_eq].
  assert (∀ (p : bool * bytes), (length p.2 <= length s)%nat →
    (let '(neg, s2) := p in
     let '(v, n, s3) := scan_digits s2 0 0 in
     match n with O => (0, c :: s) | S _ => (if neg then - v else v, s3) end) = (e, r) →
    (length r <= length (c :: s))%nat) as Haux.
  { intros [neg s2] Hl. simpl in Hl. destruct (scan_digits s2 0 0) as [[v n] s3] eqn:E.
    apply scan_digits_le in E. destruct n; intros; simplify_eq; simpl in *; lia. }
  apply Haux. destruct s as [|d s]; [done|]. destruct d; simpl; lia.
Qed.

Lemma scan_mantissa_le scan s v n nf r :
  (∀ s acc n v k r, scan s acc n = (v, k, r) → (length r <= length s)%nat) →
  scan_mantissa scan s = (v, n, nf, r) → (length r <= length s)%nat.
Proof.
  intros Hs. unfold scan_mantissa. destruct (scan s 0 0%nat) as [[v1 n1] s1] eqn:E1.
  apply Hs in E1. destruct s1 as [|c s1]; [intros; simplify_eq; simpl in *; lia|].
  destruct (decide (c = x2e)) as [->|Hc].
  - destruct (scan s1 v1 0%nat) as [[v2 n2] s3] eqn:E2. apply Hs in E2. simpl in *.
    destruct (n1 + n2)%nat; intros; simplify_eq; lia.
  - intros H. assert ((v1, n1, 0%nat, c :: s1) = (v, n, nf, r)) as E by (by destruct c).
    simplify_eq. lia.
Qed.

Lemma scan_word_le w : ∀ s r, scan_word w s = Some r → (length r <= length s)%nat.
Proof.
  induction w as [|a w IH]; intros [|c s] r; simpl; try done; try (intros; simplify_eq; simpl; lia).
  case_match; [|done]. intros Hs%IH. lia.
Qed.

Lemma scan_nchars_le s : ∀ r, scan_nchars s = Some r → (length r <= length s)%nat.
Proof.
  induction s as [|c s IH]; intros r; [done|].
  destruct (decide (c = x29)) as [->|Hc]; [simpl; intros; simplify_eq; lia|].
  assert (scan_nchars (c :: s) = if is_digit c || bool_decide (c = x5f)
         || ((97 <=? b2z (tolower c)) && (b2z (tolower c) <=? 122)) then scan_nchars s else None)
    as -> by (by destruct c).
  case_match; [|done]. intros H0%IH. simpl. lia.
Qed.

Lemma strtod_body_le sx s orig :
  (length s <= length orig)%nat → (length (st_end (strtod_body sx s orig)) <= length orig)%nat.
Proof.
  intros Ho. unfold strtod_body.
  destruct (scan_word (bs "inf") s) as [s1|] eqn:E1.
  { apply scan_word_le in E1. destruct (scan_word (bs "inity") s1) as [s2|] eqn:E2; simpl; [|lia].
    apply scan_word_le in E2. lia. }
  destruct (scan_word (bs "nan") s) as [s1|] eqn:E2.
  { apply scan_word_le in E2. simpl. destruct s1 as [|c s1]; [simpl; lia|].
    destruct (decide (c = x28)) as [->|].
    - destruct (scan_nchars s1) eqn:E3; [apply scan_nchars_le in E3|]; simpl in *; lia.
    - destruct c; simpl in *; lia || done. }
  match goal with |- context [match ?h with Some r => r | None => _ end] =>
    assert (∀ r, h = Some r → (length (st_end r) <= length orig)%nat) as Hh end.
  { intros r. destruct s as [|a [|b s1]]; [done|destruct a; done|].
    intros Hr. assert (a = x30) as -> by (by destruct a).
    assert (b = x78 ∨ b = x58) as Hb by (destruct b; auto; discriminate Hr).
    destruct (scan_mantissa scan_hex s1) as [[[v n] nf] s2] eqn:E3.
    apply scan_mantissa_le in E3; [|apply scan_hex_le].
    destruct (scan_exponent x70 x50 s2) as [e s3] eqn:E4. apply scan_exponent_le in E4.
    destruct Hb as [->| ->]; destruct n; simplify_eq; simpl in *; lia. }
  destruct (match s with [] => _ | _ => _ end) as [r|]; [by apply Hh|]. clear Hh.
  destruct (scan_mantissa scan_digits s) as [[[v n] nf] s1] eqn:E3.
  apply scan_mantissa_le in E3; [|apply scan_digits_le].
  destruct n; simpl; [lia|].
  destruct (scan_exponent x65 x45 s1) as [e s2] eqn:E4. apply scan_exponent_le in E4. simpl. lia.
Qed.

Lemma skip_spaces_le s : (length (skip_spaces s) <= length s)%nat.
Proof. induction s as [|c s IH]; simpl; [done|]. case_match; simpl; lia. Qed.

Lemma strtod_le s : (length (st_end (strtod s)) <= length s)%nat.
Proof.
  unfold strtod. pose proof (skip_spaces_le s) as H.
  destruct (skip_spaces s) as [|c s1]; [by apply strtod_body_le|].
  simpl in H. destruct c; apply strtod_body_le; simpl; lia.
Qed.

Example print_int : fmt17g (of_int 1234567) = bs "1234567". Proof. vm_compute. reflexivity. Qed.
Example print_negative : fmt17g (of_int (-100)) = bs "-100". Proof. vm_compute. reflexivity. Qed.
Example print_tenth : fmt17g (st_value (strtod (bs "0.1"))) = bs "0.10000000000000001". Proof. vm_compute. reflexivity. Qed.
Example print_large : fmt17g (st_value (strtod (bs "1e300,"))) = bs "1.0000000000000001e+300". Proof. vm_compute. reflexivity. Qed.
Example parse_exponent : fmt17g (st_value (strtod (bs "-12.5E-3x"))) = bs "-0.012500000000000001". Proof. vm_compute. reflexivity. Qed.
Example print_denormal : fmt17g (st_value (strtod (bs "4.9e-324"))) = bs "4.9406564584124654e-324". Proof. vm_compute. reflexivity. Qed.
Example parse_range : (st_erange (strtod (bs "1e309")), st_erange (strtod (bs "2e-324")),st_erange (strtod (bs "0e5"))) = (true, true, false). Proof. vm_compute. reflexivity. Qed.
End Cdouble.
