(* ===== verification/ParsonText.v ===== *)
(** * parson.c: text level (src/common/json/parson.c, lines 157-266, 542-677, 1011-1070)

    Hexadecimal escapes, UTF-8 validation, quoted strings and their escapes.
    A [const char **] cursor is the list of the bytes from the cursor on. A
    function that returns NULL or a failure status returns [None]; a loop that
    is not structural has fuel, and is shown never to run out of it.

    The theorems: a string written by the serializer is read back unchanged,
    and decoding never produces more bytes than it reads (so it stays inside the
    buffer [process_string] allocates). That escapes decode to well-formed UTF-8
    is in Utf8.v. *)
From S2P Require Import Prelude Utils Cdouble.
Import Utils.
Local Open Scope Z_scope.

Module ParsonText.

(** Byte [i] of the C string at a pointer. *)
Definition at_ (s : bytes) (i : nat) : byte := nth i s x00.

(** [IS_CONT(b)]. *)
Definition IS_CONT (b : byte) : bool := Z.land (b2z b) 0xC0 =? 0x80.

Definition hex_char_to_int (c : byte) : Z :=
  let z := b2z c in
  if (48 <=? z) && (z <=? 57) then z - 48
  else if (97 <=? z) && (z <=? 102) then z - 97 + 10
  else if (65 <=? z) && (z <=? 70) then z - 65 + 10
  else -1.

(** Four hexadecimal digits; [None] is the return value 0. *)
Definition parse_utf16_hex (s : bytes) : option Z :=
  if bool_decide (at_ s 0 = x00) || bool_decide (at_ s 1 = x00) ||
     bool_decide (at_ s 2 = x00) || bool_decide (at_ s 3 = x00) then None
  else
    let x1 := hex_char_to_int (at_ s 0) in
    let x2 := hex_char_to_int (at_ s 1) in
    let x3 := hex_char_to_int (at_ s 2) in
    let x4 := hex_char_to_int (at_ s 3) in
    if (x1 =? -1) || (x2 =? -1) || (x3 =? -1) || (x4 =? -1) then None
    else Some (Z.lor (Z.lor (Z.lor (Z.shiftl x1 12) (Z.shiftl x2 8)) (Z.shiftl x3 4)) x4).

Definition num_bytes_in_utf8_sequence (c : byte) : Z :=
  let z := b2z c in
  if (z =? 0xC0) || (z =? 0xC1) || (0xF4 <? z) || IS_CONT c then 0
  else if Z.land z 0x80 =? 0 then 1
  else if Z.land z 0xE0 =? 0xC0 then 2
  else if Z.land z 0xF0 =? 0xE0 then 3
  else if Z.land z 0xF8 =? 0xF0 then 4
  else 0.

(** [(cp << 6) | (b & 0x3F)]. *)
Definition cp_add (cp : Z) (b : byte) : Z := Z.lor (Z.shiftl cp 6) (Z.land (b2z b) 0x3F).

(** The length of a valid sequence at the pointer; [None] is the result 0. *)
Definition verify_utf8_sequence (s : bytes) : option Z :=
  let len := num_bytes_in_utf8_sequence (at_ s 0) in
  let cp :=
    if len =? 1 then Some (b2z (at_ s 0))
    else if (len =? 2) && IS_CONT (at_ s 1) then
      Some (cp_add (Z.land (b2z (at_ s 0)) 0x1F) (at_ s 1))
    else if (len =? 3) && IS_CONT (at_ s 1) && IS_CONT (at_ s 2) then
      Some (cp_add (cp_add (Z.land (b2z (at_ s 0)) 0xF) (at_ s 1)) (at_ s 2))
    else if (len =? 4) && IS_CONT (at_ s 1) && IS_CONT (at_ s 2) && IS_CONT (at_ s 3) then
      Some (cp_add (cp_add (cp_add (Z.land (b2z (at_ s 0)) 0x7) (at_ s 1)) (at_ s 2)) (at_ s 3))
    else None in
  match cp with
  | None => None
  | Some cp =>
      if ((cp <? 0x80) && (1 <? len)) || ((cp <? 0x800) && (2 <? len))
         || ((cp <? 0x10000) && (3 <? len)) then None
      else if 0x10FFFF <? cp then None
      else if (0xD800 <=? cp) && (cp <=? 0xDFFF) then None
      else Some len
  end.

(** [is_valid_utf8(string, string_len)], where [s] is the [string_len] bytes
    before [string_end] (the callers pass [strlen], so that a NUL follows). The
    cursor moves by the length of each sequence; passing the end stops it. *)
Fixpoint is_valid_utf8 (s : bytes) : bool :=
  match s with
  | [] => true
  | _ :: s1 =>
      match verify_utf8_sequence s with
      | None => false
      | Some len =>
          if len =? 1 then is_valid_utf8 s1
          else match s1 with
          | [] => true
          | _ :: s2 =>
              if len =? 2 then is_valid_utf8 s2
              else match s2 with
              | [] => true
              | _ :: s3 =>
                  if len =? 3 then is_valid_utf8 s3
                  else match s3 with [] => true | _ :: s4 => is_valid_utf8 s4 end
              end
          end
      end
  end.

(** [strchr("xX", c)] is not NULL: [x], [X] or the terminator. *)
Definition strchr_xX (c : byte) : bool :=
  bool_decide (c = x78) || bool_decide (c = x58) || bool_decide (c = x00).

Definition is_decimal (s : bytes) (length_ : nat) : bool :=
  if bool_decide (1 < length_)%nat && bool_decide (at_ s 0 = x30) && negb (bool_decide (at_ s 1 = x2e))
  then false
  else if bool_decide (2 < length_)%nat && strncmp_eq s (bs "-0") 2 && negb (bool_decide (at_ s 2 = x2e))
  then false
  else forallb (λ i, negb (strchr_xX (at_ s i))) (seq 0 length_).

(** ** Quoted strings *)

Fixpoint skip_quotes_loop (s : bytes) : option bytes :=
  match s with
  | [] => None
  | c :: s' =>
      if bool_decide (c = x22) then Some s'
      else if bool_decide (c = x00) then None
      else if bool_decide (c = x5c) then
        match s' with
        | [] => None
        | d :: s'' => if bool_decide (d = x00) then None else skip_quotes_loop s''
        end
      else skip_quotes_loop s'
  end.

(** The cursor after the closing quote. *)
Definition skip_quotes (s : bytes) : option bytes :=
  match s with
  | x22 :: s' => skip_quotes_loop s'
  | _ => None
  end.

(** [parse_utf16]: [s] is at the [u]. The bytes written, and how many
    characters the cursor moves (to the last digit of the escape). *)
Definition parse_utf16 (s : bytes) : option (bytes * nat) :=
  let p := drop 1 s in
  match parse_utf16_hex p with
  | None => None
  | Some cp =>
      if cp <? 0x80 then Some ([z2b cp], 4%nat)
      else if cp <? 0x800 then
        Some ([z2b (Z.lor (Z.land (Z.shiftr cp 6) 0x1F) 0xC0);
               z2b (Z.lor (Z.land cp 0x3F) 0x80)], 4%nat)
      else if (cp <? 0xD800) || (0xDFFF <? cp) then
        Some ([z2b (Z.lor (Z.land (Z.shiftr cp 12) 0x0F) 0xE0);
               z2b (Z.lor (Z.land (Z.shiftr cp 6) 0x3F) 0x80);
               z2b (Z.lor (Z.land cp 0x3F) 0x80)], 4%nat)
      else if (0xD800 <=? cp) && (cp <=? 0xDBFF) then
        let lead := cp in
        let p := drop 4 p in
        if negb (bool_decide (at_ p 0 = x5c)) || negb (bool_decide (at_ p 1 = x75)) then None
        else
          match parse_utf16_hex (drop 2 p) with
          | None => None
          | Some trail =>
              if (trail <? 0xDC00) || (0xDFFF <? trail) then None
              else
                let cp := Z.lor (Z.shiftl (Z.land (lead - 0xD800) 0x3FF) 10)
                                (Z.land (trail - 0xDC00) 0x3FF) + 0x010000 in
                Some ([z2b (Z.lor (Z.land (Z.shiftr cp 18) 0x07) 0xF0);
                       z2b (Z.lor (Z.land (Z.shiftr cp 12) 0x3F) 0x80);
                       z2b (Z.lor (Z.land (Z.shiftr cp 6) 0x3F) 0x80);
                       z2b (Z.lor (Z.land cp 0x3F) 0x80)], 10%nat)
          end
      else None
  end.

(** A one-character escape: the byte it stands for. *)
Definition simple_escape (c : byte) : option byte :=
  match c with
  | x22 => Some x22 | x5c => Some x5c | x2f => Some x2f
  | x62 => Some x08 | x66 => Some x0c | x6e => Some x0a | x72 => Some x0d | x74 => Some x09
  | _ => None
  end.

(** The loop of [process_string]: [remaining] is [len - (input_ptr - input)].
    [Ok None] is the [error] label. *)
Fixpoint process_string_loop (fuel : nat) (s : bytes) (remaining : nat) (out : bytes)
  : res (option bytes) :=
  match remaining with
  | O => Ok (Some out)
  | S r =>
      if bool_decide (peek s = x00) then Ok (Some out)
      else
        match fuel with
        | O => NoFuel
        | S f =>
            if bool_decide (peek s = x5c) then
              let s1 := advance s in
              match simple_escape (peek s1) with
              | Some b => process_string_loop f (advance s1) (r - 1) (out ++ [b])
              | None =>
                  if bool_decide (peek s1 = x75) then
                    match parse_utf16 s1 with
                    | None => Ok None
                    | Some (bs_, k) =>
                        process_string_loop f (drop (S k) s1) (r - S k) (out ++ bs_)
                    end
                  else Ok None
              end
            else if b2z (peek s) <? 0x20 then Ok None
            else process_string_loop f (advance s) r (out ++ [peek s])
        end
  end.

Definition process_string (input : bytes) (len : nat) : res (option bytes) :=
  process_string_loop len input len [].

(** The contents between the quotes and the cursor after them. *)
Definition get_quoted_string (s : bytes) : res (option (bytes * bytes)) :=
  match skip_quotes s with
  | None => Ok None
  | Some rest =>
      let string_len := (length s - length rest - 2)%nat in
      r ← process_string (drop 1 s) string_len;
      Ok (match r with Some out => Some (out, rest) | None => None end)
  end.

(** ** Escaping *)

(** The text [json_serialize_string] writes for one character. *)
Definition escape_char (c : byte) : bytes :=
  match c with
  | x22 => [x5c; x22]
  | x5c => [x5c; x5c]
  | x2f => [x5c; x2f]
  | x08 => [x5c; x62]
  | x0c => [x5c; x66]
  | x0a => [x5c; x6e]
  | x0d => [x5c; x72]
  | x09 => [x5c; x74]
  | _ =>
      if b2z c <? 0x20
      then bs "\u00" ++ hex_of_byte c
      else [c]
  end.

(** The text of a JSON string: what [json_serialize_string] writes. *)
Definition quote (s : bytes) : bytes := x22 :: flat_map escape_char (cstr s) ++ [x22].

(** ** Totality and buffer bounds of [process_string] *)

Lemma at_drop s k i : at_ (drop k s) i = at_ s (k + i).
Proof. unfold at_. rewrite !nth_lookup, lookup_drop. done. Qed.

Lemma parse_utf16_hex_digits s v i :
  parse_utf16_hex s = Some v → (i < 4)%nat → hex_char_to_int (at_ s i) ≠ -1.
Proof.
  unfold parse_utf16_hex. case_match; [done|]. case_match; [done|]. intros _ Hi.
  rewrite !orb_false_iff, !Z.eqb_neq in *. destruct_and!.
  destruct i as [|[|[|[|i]]]]; lia || done.
Qed.

Lemma hex_not_quote c : hex_char_to_int c ≠ -1 → c ≠ x22.
Proof. by intros H ->. Qed.

(** A successful escape never reaches over a closing quote. *)
Lemma parse_utf16_inv s out k :
  parse_utf16 s = Some (out, k) →
  (1 <= length out <= k)%nat ∧ ∀ j, (1 <= j <= k)%nat → at_ s j ≠ x22.
Proof.
  unfold parse_utf16. destruct (parse_utf16_hex (drop 1 s)) as [cp|] eqn:E1; [|done].
  assert (∀ j, (1 <= j <= 4)%nat → at_ s j ≠ x22) as H4.
  { intros j Hj. pose proof (parse_utf16_hex_digits _ _ (j - 1) E1 ltac:(lia)) as H.
    rewrite at_drop in H. replace (1 + (j - 1))%nat with j in H by lia. by apply hex_not_quote. }
  repeat case_match; intros; simplify_eq; simpl; try (split; [lia|done]).
  split; [lia|]. intros j Hj.
  rewrite orb_false_iff, !negb_false_iff, !bool_decide_eq_true, !at_drop in *. destruct_and!.
  destruct (decide (j <= 4)%nat); [apply H4; lia|].
  cbn [Nat.add] in *.
  destruct (decide (j = 5%nat)) as [->|]; [congruence|].
  destruct (decide (j = 6%nat)) as [->|]; [congruence|].
  match goal with H : parse_utf16_hex (drop 2 _) = Some _ |- _ =>
    pose proof (parse_utf16_hex_digits _ _ (j - 7) H ltac:(lia)) as Hd end.
  rewrite !at_drop in Hd. replace (1 + (4 + (2 + (j - 7))))%nat with j in Hd by lia.
  by apply hex_not_quote.
Qed.

(** With a quote at the end of the input, the loop terminates within its fuel
    and appends at most one byte per character read. *)
Lemma process_string_loop_total fuel : ∀ s n out,
  (n <= fuel)%nat → (n = 0%nat ∨ at_ s n = x22) →
  ∃ r, process_string_loop fuel s n out = Ok r ∧
    ∀ out', r = Some out' → (length out' <= length out + n)%nat.
Proof.
  induction fuel as [|f IH]; intros s [|n] out Hn Hq; simpl; try lia.
  1, 2: eexists; split; [done|]; intros; simplify_eq; lia.
  destruct Hq as [?|Hq]; [lia|].
  case_bool_decide; [eexists; split; [done|]; intros; simplify_eq; lia|].
  destruct s as [|c s]; [done|]. cbn [peek advance tail] in *.
  assert (at_ s n = x22) as Hq1 by done.
  case_bool_decide.
  - destruct (simple_escape _) as [b|].
    { destruct (IH (advance s) (n - 1)%nat (out ++ [b])) as (r & -> & Hr); [lia| |].
      { destruct n as [|n]; [by left|]. right. destruct s; [done|]. cbn. by rewrite Nat.sub_0_r. }
      eexists; split; [done|]. intros out' E. apply Hr in E.
      rewrite length_app in E. simpl in E. lia. }
    case_bool_decide; [|by eexists].
    destruct (parse_utf16 _) as [[o k]|] eqn:Eu; [|by eexists].
    apply parse_utf16_inv in Eu as [Hl Hnq].
    assert (k < n)%nat as Hk.
    { destruct (decide (k < n)%nat); [done|]. destruct n as [|n].
      - destruct s; [done|]. cbn in *. simplify_eq.
      - destruct (Hnq (S n)); [lia|done]. }
    destruct (IH (drop (S k) s) (n - S k)%nat (out ++ o)) as (r & -> & Hr); [lia| |].
    { right. rewrite at_drop. by replace (S k + (n - S k))%nat with n by lia. }
    eexists; split; [done|]. intros out' E. apply Hr in E. rewrite length_app in E. lia.
  - case_match; [by eexists|].
    destruct (IH s n (out ++ [c])) as (r & -> & Hr); [lia|by right|].
    eexists; split; [done|]. intros out' E. apply Hr in E. rewrite length_app in E. simpl in E. lia.
Qed.

Lemma skip_quotes_loop_split n : ∀ s rest, (length s <= n)%nat →
  skip_quotes_loop s = Some rest → ∃ mid, s = mid ++ x22 :: rest.
Proof.
  induction n as [|n IH]; intros [|c s] rest Hn; simpl in *; try lia; try done.
  repeat case_bool_decide; intros E; simplify_eq.
  - by exists [].
  - destruct s as [|d s]; [done|]. case_bool_decide; [done|].
    apply IH in E as [mid ->]; [|simpl in *; lia]. by exists (x5c :: d :: mid).
  - apply IH in E as [mid ->]; [|lia]. by exists (c :: mid).
Qed.

Lemma skip_quotes_split s rest :
  skip_quotes s = Some rest → ∃ mid, s = x22 :: mid ++ x22 :: rest.
Proof.
  destruct s as [|c s]; [done|]. intros H.
  assert (c = x22) as -> by (by destruct c).
  apply (skip_quotes_loop_split (length s)) in H as [mid ->]; [by exists mid|done].
Qed.

(** On success [get_quoted_string] has consumed the two quotes and what is
    between them. *)
Lemma get_quoted_string_total s :
  ∃ r, get_quoted_string s = Ok r ∧
    ∀ out rest, r = Some (out, rest) →
      ∃ mid, s = x22 :: mid ++ x22 :: rest ∧ (length out <= length mid)%nat.
Proof.
  unfold get_quoted_string. destruct (skip_quotes s) as [rest|] eqn:E; [|by eexists].
  apply skip_quotes_split in E as [mid ->].
  replace (_ - _ - 2)%nat with (length mid) by (simpl; rewrite length_app; simpl; lia).
  destruct (process_string_loop_total (length mid) (mid ++ x22 :: rest) (length mid) [])
    as (r & Hr & Hb); [done| |].
  { right. unfold at_. rewrite app_nth2, Nat.sub_diag by lia. done. }
  unfold process_string. cbn [drop]. rewrite drop_0, Hr. cbn. eexists; split; [done|].
  intros out rest' E. destruct r as [o|]; simplify_eq. exists mid. split; [done|]. by apply Hb.
Qed.

(** ** Round trip of strings *)

Lemma skip_quotes_loop_escape c t : c ≠ x00 →
  skip_quotes_loop (escape_char c ++ t) = skip_quotes_loop t.
Proof. intros Hc. destruct c; done. Qed.

Lemma process_string_loop_escape f c t n out : c ≠ x00 →
  process_string_loop (S f) (escape_char c ++ t) (length (escape_char c) + n) out
  = process_string_loop f t n (out ++ [c]).
Proof. intros Hc. destruct c; done || (simpl; rewrite Nat.sub_0_r; reflexivity). Qed.

Lemma escape_char_length c : (1 <= length (escape_char c))%nat.
Proof. byte_cases c. Qed.

Lemma skip_quotes_escaped s rest : nul_free s →
  skip_quotes_loop (flat_map escape_char s ++ x22 :: rest) = Some rest.
Proof.
  induction 1 as [|c s Hc _ IH]; [done|]. cbn [flat_map].
  rewrite <-app_assoc, skip_quotes_loop_escape by done. exact IH.
Qed.

Lemma process_string_escaped s rest : nul_free s → ∀ fuel out,
  (length (flat_map escape_char s) <= fuel)%nat →
  process_string_loop fuel (flat_map escape_char s ++ rest) (length (flat_map escape_char s)) out
  = Ok (Some (out ++ s)).
Proof.
  induction 1 as [|c s Hc _ IH]; intros fuel out Hf.
  { simpl. rewrite app_nil_r. by destruct fuel. }
  cbn [flat_map] in *. rewrite length_app in *. pose proof (escape_char_length c).
  destruct fuel as [|fuel]; [lia|].
  rewrite <-app_assoc, process_string_loop_escape by done.
  rewrite IH by lia. by rewrite <-app_assoc.
Qed.

(** A string written by the serializer is read back unchanged, whatever
    follows the closing quote. *)
Lemma quoted_string_roundtrip s rest :
  nul_free s → get_quoted_string (quote s ++ rest) = Ok (Some (s, rest)).
Proof.
  intros Hs. unfold get_quoted_string, quote. rewrite (cstr_id s Hs).
  cbn [app skip_quotes]. rewrite <-app_assoc. cbn [app]. rewrite skip_quotes_escaped by done.
  unfold process_string. cbn [drop]. rewrite drop_0.
  replace (_ - _ - 2)%nat with (length (flat_map escape_char s))
    by (simpl; rewrite length_app; simpl; lia).
  by rewrite process_string_escaped.
Qed.

(** [get_quoted_string] always returns; on success it has consumed the two
    quotes and what is between them, and its result is not longer than what is
    between them, so the writes of [process_string] stay inside the buffer of
    [len + 1] bytes it allocates. *)
Theorem get_quoted_string_safe s :
  ∃ r, get_quoted_string s = Ok r ∧
    ∀ out rest, r = Some (out, rest) →
      ∃ mid, s = x22 :: mid ++ x22 :: rest ∧ (length out <= length mid)%nat.
Proof. apply get_quoted_string_total. Qed.

End ParsonText.
