(* ===== verification/Utf8.v ===== *)
(** * parson.c: UTF-8 (src/common/json/parson.c, lines 168-251 and 563-607)

    An independent definition of UTF-8, the encoding of a sequence of Unicode
    scalar values, and the proofs that [is_valid_utf8] accepts exactly these
    encodings and that a [\u] escape (a surrogate pair included) decodes to
    the encoding of its scalar value. *)
From S2P Require Import Prelude Utils Cdouble ParsonText.
Import ParsonText.
Local Open Scope Z_scope.

Module Utf8.

(** ** Specification *)

Definition scalar (cp : Z) : Prop := 0 <= cp <= 0x10FFFF ∧ ¬ (0xD800 <= cp <= 0xDFFF).

Definition utf8_encode (cp : Z) : bytes :=
  if cp <? 0x80 then [z2b cp]
  else if cp <? 0x800 then [z2b (0xC0 + cp / 64); z2b (0x80 + cp mod 64)]
  else if cp <? 0x10000 then
    [z2b (0xE0 + cp / 4096); z2b (0x80 + cp / 64 mod 64); z2b (0x80 + cp mod 64)]
  else
    [z2b (0xF0 + cp / 262144); z2b (0x80 + cp / 4096 mod 64); z2b (0x80 + cp / 64 mod 64);
     z2b (0x80 + cp mod 64)].

(** ** Bit operations as arithmetic *)

Lemma land_low a n : 0 <= n → Z.land a (Z.ones n) = a mod 2 ^ n.
Proof. apply Z.land_ones. Qed.

Lemma lor_low a b n : 0 <= n → 0 <= b < 2 ^ n → Z.lor (a * 2 ^ n) b = a * 2 ^ n + b.
Proof.
  intros Hn Hb. assert (Z.land (a * 2 ^ n) b = 0) as Hd.
  { apply Z.bits_inj'. intros m Hm. rewrite Z.land_spec, Z.bits_0.
    destruct (Z.ltb_spec m n) as [Hl|Hl].
    - by rewrite Z.mul_pow2_bits_low by lia.
    - rewrite <-(Z.mod_small b (2 ^ n)), Z.mod_pow2_bits_high by lia. apply andb_false_r. }
  rewrite Z.add_nocarry_lxor, Z.lxor_lor by done. done.
Qed.

Lemma is_cont_range b : IS_CONT b = true ↔ 128 <= b2z b < 192.
Proof. byte_cases b. Qed.

Lemma cont_low b : IS_CONT b = true → b2z b mod 64 = b2z b - 128.
Proof. intros H%is_cont_range. zdm. Qed.

Lemma cp_add_eq cp b : IS_CONT b = true → cp_add cp b = cp * 64 + (b2z b - 128).
Proof.
  intros H. unfold cp_add. change 0x3F with (Z.ones 6). rewrite land_low, Z.shiftl_mul_pow2 by lia.
  change (2 ^ 6) with 64. rewrite cont_low by done. apply is_cont_range in H.
  apply (lor_low cp (b2z b - 128) 6); lia.
Qed.

(** The lead byte determines the length. *)
Lemma num_bytes_ranges c :
  (num_bytes_in_utf8_sequence c = 1 ∧ b2z c < 128) ∨
  (num_bytes_in_utf8_sequence c = 2 ∧ 194 <= b2z c < 224) ∨
  (num_bytes_in_utf8_sequence c = 3 ∧ 224 <= b2z c < 240) ∨
  (num_bytes_in_utf8_sequence c = 4 ∧ 240 <= b2z c < 245) ∨
  (num_bytes_in_utf8_sequence c = 0 ∧ (128 <= b2z c < 194 ∨ 245 <= b2z c)).
Proof. byte_cases c. Qed.

Lemma lead2 c : 194 <= b2z c < 224 → Z.land (b2z c) 0x1F = b2z c - 192.
Proof. intros H. change 0x1F with (Z.ones 5). rewrite land_low by lia. zdm. Qed.
Lemma lead3 c : 224 <= b2z c < 240 → Z.land (b2z c) 0xF = b2z c - 224.
Proof. intros H. change 0xF with (Z.ones 4). rewrite land_low by lia. zdm. Qed.
Lemma lead4 c : 240 <= b2z c < 245 → Z.land (b2z c) 0x7 = b2z c - 240.
Proof. intros H. change 0x7 with (Z.ones 3). rewrite land_low by lia. zdm. Qed.

(** ** One sequence *)

(** The check of a decoded code point. *)
Definition cp_check (cp len : Z) : option Z :=
  if ((cp <? 0x80) && (1 <? len)) || ((cp <? 0x800) && (2 <? len)) || ((cp <? 0x10000) && (3 <? len))
  then None
  else if 0x10FFFF <? cp then None
  else if (0xD800 <=? cp) && (cp <=? 0xDFFF) then None
  else Some len.

Lemma cp_check_ok cp len : 0 <= cp → cp_check cp len = Some len →
  scalar cp ∧ (1 < len → 0x80 <= cp) ∧ (2 < len → 0x800 <= cp) ∧ (3 < len → 0x10000 <= cp).
Proof. unfold cp_check, scalar. repeat case_match; intros; try done; lia. Qed.

Lemma cp_check_intro cp len : scalar cp → (1 < len → 0x80 <= cp) → (2 < len → 0x800 <= cp) →
  (3 < len → 0x10000 <= cp) → cp_check cp len = Some len.
Proof. unfold cp_check, scalar. repeat case_match; intros; try done; lia. Qed.

Definition value2 (c c1 : byte) : Z := (b2z c - 192) * 64 + (b2z c1 - 128).
Definition value3 (c c1 c2 : byte) : Z := ((b2z c - 224) * 64 + (b2z c1 - 128)) * 64 + (b2z c2 - 128).
Definition value4 (c c1 c2 c3 : byte) : Z :=
  (((b2z c - 240) * 64 + (b2z c1 - 128)) * 64 + (b2z c2 - 128)) * 64 + (b2z c3 - 128).

Lemma verify_utf8_eq c s : verify_utf8_sequence (c :: s) =
  let n := num_bytes_in_utf8_sequence c in
  if n =? 1 then cp_check (b2z c) 1
  else if (n =? 2) && IS_CONT (at_ s 0) then cp_check (value2 c (at_ s 0)) 2
  else if (n =? 3) && IS_CONT (at_ s 0) && IS_CONT (at_ s 1) then
    cp_check (value3 c (at_ s 0) (at_ s 1)) 3
  else if (n =? 4) && IS_CONT (at_ s 0) && IS_CONT (at_ s 1) && IS_CONT (at_ s 2) then
    cp_check (value4 c (at_ s 0) (at_ s 1) (at_ s 2)) 4
  else None.
Proof.
  unfold verify_utf8_sequence, value2, value3, value4. change (at_ (c :: s) 0) with c.
  change (at_ (c :: s) 1) with (at_ s 0). change (at_ (c :: s) 2) with (at_ s 1).
  change (at_ (c :: s) 3) with (at_ s 2).
  destruct (num_bytes_ranges c) as [[-> H]|[[-> H]|[[-> H]|[[-> H]|[-> H]]]]]; cbn [Z.eqb Pos.eqb andb].
  - done.
  - destruct (IS_CONT (at_ s 0)) eqn:E0; [|done]. by rewrite cp_add_eq, lead2.
  - destruct (IS_CONT (at_ s 0)) eqn:E0; [|done]. destruct (IS_CONT (at_ s 1)) eqn:E1; [|done].
    cbn [andb]. by rewrite !cp_add_eq, lead3.
  - destruct (IS_CONT (at_ s 0)) eqn:E0; [|done]. destruct (IS_CONT (at_ s 1)) eqn:E1; [|done].
    destruct (IS_CONT (at_ s 2)) eqn:E2; [|done]. cbn [andb]. by rewrite !cp_add_eq, lead4.
  - done.
Qed.

(** A goal [z2b e = b] for a byte [b] with a known range. *)
Ltac byte_eq := apply z2b_eq; match goal with |- _ = b2z ?b => pose proof (b2z_range b) end; zdm.

Lemma encode1 c : b2z c < 128 → utf8_encode (b2z c) = [c].
Proof. intros H. unfold utf8_encode. rewrite (proj2 (Z.ltb_lt _ _)) by lia. by rewrite z2b_b2z. Qed.

Lemma encode2 c c1 : 194 <= b2z c < 224 → 128 <= b2z c1 < 192 → utf8_encode (value2 c c1) = [c; c1].
Proof.
  intros H H1. unfold utf8_encode, value2.
  rewrite (proj2 (Z.ltb_ge _ _)), (proj2 (Z.ltb_lt _ _)) by lia. repeat f_equal; byte_eq.
Qed.

Lemma encode3 c c1 c2 : 224 <= b2z c < 240 → 128 <= b2z c1 < 192 → 128 <= b2z c2 < 192 →
  0x800 <= value3 c c1 c2 → utf8_encode (value3 c c1 c2) = [c; c1; c2].
Proof.
  intros H H1 H2 Hv. unfold utf8_encode, value3 in *.
  rewrite !(proj2 (Z.ltb_ge _ _)), (proj2 (Z.ltb_lt _ _)) by lia. repeat f_equal; byte_eq.
Qed.

Lemma encode4 c c1 c2 c3 : 240 <= b2z c < 245 → 128 <= b2z c1 < 192 → 128 <= b2z c2 < 192 →
  128 <= b2z c3 < 192 → 0x10000 <= value4 c c1 c2 c3 → utf8_encode (value4 c c1 c2 c3) = [c; c1; c2; c3].
Proof.
  intros H H1 H2 H3 Hv. unfold utf8_encode, value4 in *.
  rewrite !(proj2 (Z.ltb_ge _ _)) by lia. repeat f_equal; byte_eq.
Qed.

Lemma cp_check_len cp len r : cp_check cp len = Some r → r = len.
Proof. unfold cp_check. by repeat case_match; intros; simplify_eq. Qed.

Lemma verify_utf8_sound c s len : verify_utf8_sequence (c :: s) = Some len →
  ∃ cp rest, scalar cp ∧ c :: s = utf8_encode cp ++ rest ∧ len = Z.of_nat (length (utf8_encode cp)).
Proof.
  rewrite verify_utf8_eq. cbn zeta. pose proof (b2z_range c).
  destruct (num_bytes_ranges c) as [[-> H0]|[[-> H0]|[[-> H0]|[[-> H0]|[-> H0]]]]]; cbn [Z.eqb Pos.eqb andb];
    [..|done].
  - intros Hc. pose proof (cp_check_len _ _ _ Hc) as ->. apply cp_check_ok in Hc as [Hs _]; [|lia].
    exists (b2z c), s. rewrite encode1 by lia. done.
  - destruct (IS_CONT (at_ s 0)) eqn:E0; [|done]. destruct s as [|b s]; [done|].
    change (at_ (b :: s) 0) with b in *. apply is_cont_range in E0.
    intros Hc. pose proof (cp_check_len _ _ _ Hc) as ->.
    apply cp_check_ok in Hc as [Hs _]; [|unfold value2; lia].
    exists (value2 c b), s. rewrite encode2 by lia. done.
  - destruct (IS_CONT (at_ s 0)) eqn:E0; [|done]. destruct (IS_CONT (at_ s 1)) eqn:E1; [|done].
    destruct s as [|b [|b1 s]]; [done|by destruct b|]. change (at_ (b :: b1 :: s) 0) with b in *.
    change (at_ (b :: b1 :: s) 1) with b1 in *. apply is_cont_range in E0, E1. cbn [andb].
    intros Hc. pose proof (cp_check_len _ _ _ Hc) as ->.
    apply cp_check_ok in Hc as (Hs & _ & Hv & _); [|unfold value3; lia].
    exists (value3 c b b1), s. rewrite encode3 by lia. done.
  - destruct (IS_CONT (at_ s 0)) eqn:E0; [|done]. destruct (IS_CONT (at_ s 1)) eqn:E1; [|done].
    destruct (IS_CONT (at_ s 2)) eqn:E2; [|done].
    destruct s as [|b [|b1 [|b2 s]]]; [done|by destruct b|by destruct b1|].
    change (at_ (b :: b1 :: b2 :: s) 0) with b in *. change (at_ (b :: b1 :: b2 :: s) 1) with b1 in *.
    change (at_ (b :: b1 :: b2 :: s) 2) with b2 in *. apply is_cont_range in E0, E1, E2. cbn [andb].
    intros Hc. pose proof (cp_check_len _ _ _ Hc) as ->.
    apply cp_check_ok in Hc as (Hs & _ & _ & Hv); [|unfold value4; lia].
    exists (value4 c b b1 b2), s. rewrite encode4 by lia. done.
Qed.

Lemma verify_utf8_complete cp rest : scalar cp →
  verify_utf8_sequence (utf8_encode cp ++ rest) = Some (Z.of_nat (length (utf8_encode cp))).
Proof.
  intros Hs. pose proof Hs as [Hr _]. unfold utf8_encode.
  destruct (Z.ltb_spec cp 0x80); [|destruct (Z.ltb_spec cp 0x800); [|destruct (Z.ltb_spec cp 0x10000)]];
    cbn [app length]; rewrite verify_utf8_eq; cbn zeta.
  - set (c := z2b cp). assert (b2z c = cp) as Hc by (unfold c; rewrite b2z_z2b; zdm).
    destruct (num_bytes_ranges c) as [[-> ?]|[[-> ?]|[[-> ?]|[[-> ?]|[-> ?]]]]]; try lia.
    rewrite Hc. apply cp_check_intro; done || lia.
  - set (c := z2b _). set (c1 := z2b (0x80 + _)).
    assert (b2z c = 0xC0 + cp / 64) as Hc by (unfold c; rewrite b2z_z2b; zdm).
    assert (b2z c1 = 0x80 + cp mod 64) as Hc1 by (unfold c1; rewrite b2z_z2b; zdm).
    change (at_ (c1 :: rest) 0) with c1. rewrite (proj2 (is_cont_range c1)) by zdm.
    destruct (num_bytes_ranges c) as [[-> ?]|[[-> ?]|[[-> ?]|[[-> ?]|[-> ?]]]]]; try zdm.
    cbn [Z.eqb Pos.eqb andb]. unfold value2. replace (_ + _) with cp by zdm.
    apply cp_check_intro; done || lia.
  - set (c := z2b (0xE0 + _)). set (c1 := z2b (0x80 + cp / 64 mod 64)). set (c2 := z2b (0x80 + cp mod 64)).
    assert (b2z c = 0xE0 + cp / 4096) as Hc by (unfold c; rewrite b2z_z2b; zdm).
    assert (b2z c1 = 0x80 + cp / 64 mod 64) as Hc1 by (unfold c1; rewrite b2z_z2b; zdm).
    assert (b2z c2 = 0x80 + cp mod 64) as Hc2 by (unfold c2; rewrite b2z_z2b; zdm).
    change (at_ (c1 :: c2 :: rest) 0) with c1. change (at_ (c1 :: c2 :: rest) 1) with c2.
    rewrite (proj2 (is_cont_range c1)), (proj2 (is_cont_range c2)) by zdm.
    destruct (num_bytes_ranges c) as [[-> ?]|[[-> ?]|[[-> ?]|[[-> ?]|[-> ?]]]]]; try zdm.
    cbn [Z.eqb Pos.eqb andb]. unfold value3. replace (_ + _) with cp by zdm.
    apply cp_check_intro; done || lia.
  - set (c := z2b (0xF0 + _)). set (c1 := z2b (0x80 + cp / 4096 mod 64)).
    set (c2 := z2b (0x80 + cp / 64 mod 64)). set (c3 := z2b (0x80 + cp mod 64)).
    assert (b2z c = 0xF0 + cp / 262144) as Hc by (unfold c; rewrite b2z_z2b; zdm).
    assert (b2z c1 = 0x80 + cp / 4096 mod 64) as Hc1 by (unfold c1; rewrite b2z_z2b; zdm).
    assert (b2z c2 = 0x80 + cp / 64 mod 64) as Hc2 by (unfold c2; rewrite b2z_z2b; zdm).
    assert (b2z c3 = 0x80 + cp mod 64) as Hc3 by (unfold c3; rewrite b2z_z2b; zdm).
    change (at_ (c1 :: c2 :: c3 :: rest) 0) with c1. change (at_ (c1 :: c2 :: c3 :: rest) 1) with c2.
    change (at_ (c1 :: c2 :: c3 :: rest) 2) with c3.
    rewrite (proj2 (is_cont_range c1)), (proj2 (is_cont_range c2)), (proj2 (is_cont_range c3)) by zdm.
    destruct (num_bytes_ranges c) as [[-> ?]|[[-> ?]|[[-> ?]|[[-> ?]|[-> ?]]]]]; try zdm.
    cbn [Z.eqb Pos.eqb andb]. unfold value4. replace (_ + _) with cp by zdm.
    apply cp_check_intro; done || lia.
Qed.

(** ** Whole strings *)

Lemma utf8_encode_length cp : ∃ c rest, utf8_encode cp = c :: rest ∧ (length rest <= 3)%nat.
Proof. unfold utf8_encode. repeat case_match; eexists _, _; split; try done; simpl; lia. Qed.

(** One step of the loop. *)
Lemma is_valid_utf8_step cp rest : scalar cp →
  is_valid_utf8 (utf8_encode cp ++ rest) = is_valid_utf8 rest.
Proof.
  intros Hs. pose proof (verify_utf8_complete cp rest Hs) as Hv.
  destruct (utf8_encode_length cp) as (c & t & E & Hl). rewrite E in *. cbn [app length] in *.
  cbn [is_valid_utf8]. rewrite Hv. clear Hv.
  destruct t as [|a [|b [|d [|]]]]; try done. cbn in Hl. lia.
Qed.

(** C28: [is_valid_utf8] accepts exactly the UTF-8 encodings of sequences of
    Unicode scalar values: no overlong form, no surrogate, nothing above
    U+10FFFF, no truncated sequence. *)
Theorem is_valid_utf8_iff s :
  is_valid_utf8 s = true ↔ ∃ cps, Forall scalar cps ∧ s = concat (map utf8_encode cps).
Proof.
  split.
  - remember (length s) as n eqn:Hn. revert s Hn. induction (lt_wf n) as [n _ IH]. intros [|c s] -> Hv.
    { by exists []. }
    destruct (verify_utf8_sequence (c :: s)) as [len|] eqn:E; [|cbn [is_valid_utf8] in Hv; by rewrite E in Hv].
    apply verify_utf8_sound in E as (cp & rest & Hs & Eq & _). rewrite Eq in Hv.
    rewrite is_valid_utf8_step in Hv by done.
    destruct (IH (length rest)) with rest as (cps & Hcps & ->); [|done..|].
    { rewrite Eq, length_app. destruct (utf8_encode_length cp) as (? & ? & -> & _). cbn. lia. }
    exists (cp :: cps). split; [by constructor|done].
  - intros (cps & Hcps & ->). induction Hcps as [|cp cps Hs _ IH]; [done|]. cbn [map concat].
    by rewrite is_valid_utf8_step.
Qed.

(** ** Escapes *)

Lemma hex_char_range c : hex_char_to_int c ≠ -1 → 0 <= hex_char_to_int c < 16.
Proof. byte_cases c. Qed.

Lemma nibbles x1 x2 x3 x4 : 0 <= x1 < 16 → 0 <= x2 < 16 → 0 <= x3 < 16 → 0 <= x4 < 16 →
  Z.lor (Z.lor (Z.lor (Z.shiftl x1 12) (Z.shiftl x2 8)) (Z.shiftl x3 4)) x4 =
  ((x1 * 16 + x2) * 16 + x3) * 16 + x4.
Proof.
  intros. rewrite !Z.shiftl_mul_pow2 by lia.
  rewrite (lor_low x1 (x2 * 2 ^ 8) 12) by lia.
  replace (x1 * 2 ^ 12 + x2 * 2 ^ 8) with ((x1 * 16 + x2) * 2 ^ 8) by lia.
  rewrite (lor_low (x1 * 16 + x2) (x3 * 2 ^ 4) 8) by lia.
  replace ((x1 * 16 + x2) * 2 ^ 8 + x3 * 2 ^ 4) with (((x1 * 16 + x2) * 16 + x3) * 2 ^ 4) by lia.
  rewrite (lor_low ((x1 * 16 + x2) * 16 + x3) x4 4) by lia. lia.
Qed.

Lemma parse_utf16_hex_range s cp : parse_utf16_hex s = Some cp → 0 <= cp < 0x10000.
Proof.
  unfold parse_utf16_hex. case_match; [done|]. case_match eqn:E; [done|]. intros [= <-].
  rewrite !orb_false_iff, !Z.eqb_neq in E. destruct_and!.
  rewrite nibbles by (by apply hex_char_range).
  repeat match goal with H : hex_char_to_int _ ≠ -1 |- _ => apply hex_char_range in H end. lia.
Qed.

(** The bytes the code assembles with masks. *)
Lemma lead_byte cp k n hi : 0 <= k → 0 <= n <= 6 → 0 <= cp → cp / 2 ^ k < 2 ^ n →
  Z.lor (Z.land (Z.shiftr cp k) (Z.ones n)) (hi * 2 ^ n) = hi * 2 ^ n + cp / 2 ^ k.
Proof.
  intros Hk Hn Hc Hl. rewrite Z.shiftr_div_pow2, land_low, Z.lor_comm by lia.
  assert (0 <= cp / 2 ^ k) by (apply Z.div_pos; lia). rewrite Z.mod_small by lia. apply lor_low; lia.
Qed.

Lemma cont_byte x : Z.lor (Z.land x 0x3F) 0x80 = 0x80 + x mod 64.
Proof.
  change 0x3F with (Z.ones 6). rewrite land_low, Z.lor_comm by lia.
  apply (lor_low 2 (x mod 2 ^ 6) 6); [lia|]. apply Z.mod_pos_bound. lia.
Qed.

Lemma shiftr_div cp k n : 0 <= k → n = 2 ^ k → Z.shiftr cp k = cp / n.
Proof. intros Hk ->. by apply Z.shiftr_div_pow2. Qed.

Lemma pair_value lead trail : 0xD800 <= lead <= 0xDBFF → 0xDC00 <= trail <= 0xDFFF →
  Z.lor (Z.shiftl (Z.land (lead - 0xD800) 0x3FF) 10) (Z.land (trail - 0xDC00) 0x3FF) + 0x010000 =
  0x10000 + (lead - 0xD800) * 1024 + (trail - 0xDC00).
Proof.
  intros Hl Ht. change 0x3FF with (Z.ones 10). rewrite !land_low, Z.shiftl_mul_pow2 by lia.
  change (2 ^ 10) with 1024. rewrite !Z.mod_small by lia.
  pose proof (lor_low (lead - 0xD800) (trail - 0xDC00) 10) as E. change (2 ^ 10) with 1024 in E.
  rewrite E by lia. lia.
Qed.

Lemma escape_bytes2 cp : 0x80 <= cp < 0x800 →
  [z2b (Z.lor (Z.land (Z.shiftr cp 6) 0x1F) 0xC0); z2b (Z.lor (Z.land cp 0x3F) 0x80)] = utf8_encode cp.
Proof.
  intros H. unfold utf8_encode. rewrite (proj2 (Z.ltb_ge _ _)), (proj2 (Z.ltb_lt _ _)) by lia.
  change 0x1F with (Z.ones 5). change 0xC0 with (6 * 2 ^ 5) at 1.
  rewrite lead_byte by (done || lia || zdm). by rewrite cont_byte.
Qed.

Lemma escape_bytes3 cp : 0x800 <= cp < 0x10000 →
  [z2b (Z.lor (Z.land (Z.shiftr cp 12) 0x0F) 0xE0); z2b (Z.lor (Z.land (Z.shiftr cp 6) 0x3F) 0x80);
   z2b (Z.lor (Z.land cp 0x3F) 0x80)] = utf8_encode cp.
Proof.
  intros H. unfold utf8_encode. rewrite !(proj2 (Z.ltb_ge _ _)), (proj2 (Z.ltb_lt _ _)) by lia.
  change 0x0F with (Z.ones 4). change 0xE0 with (14 * 2 ^ 4) at 1.
  rewrite lead_byte by (done || lia || zdm). rewrite !cont_byte, (shiftr_div cp 6 64) by done. done.
Qed.

Lemma escape_bytes4 cp : 0x10000 <= cp <= 0x10FFFF →
  [z2b (Z.lor (Z.land (Z.shiftr cp 18) 0x07) 0xF0); z2b (Z.lor (Z.land (Z.shiftr cp 12) 0x3F) 0x80);
   z2b (Z.lor (Z.land (Z.shiftr cp 6) 0x3F) 0x80); z2b (Z.lor (Z.land cp 0x3F) 0x80)] = utf8_encode cp.
Proof.
  intros H. unfold utf8_encode. rewrite !(proj2 (Z.ltb_ge _ _)) by lia.
  change 0x07 with (Z.ones 3). change 0xF0 with (30 * 2 ^ 3) at 1.
  rewrite lead_byte by (done || lia || zdm).
  rewrite !cont_byte, (shiftr_div cp 6 64), (shiftr_div cp 12 4096) by done. done.
Qed.

(** A [\u] escape that [parse_utf16] accepts is written as the UTF-8
    encoding of a scalar value: the four digits themselves, or the value of a
    lead and a trail surrogate in two consecutive escapes. *)
Theorem parse_utf16_encodes s out k : parse_utf16 s = Some (out, k) →
  ∃ cp, scalar cp ∧ out = utf8_encode cp ∧
    ((k = 4%nat ∧ parse_utf16_hex (drop 1 s) = Some cp) ∨
     (k = 10%nat ∧ ∃ lead trail, parse_utf16_hex (drop 1 s) = Some lead ∧ 0xD800 <= lead <= 0xDBFF ∧
        at_ s 5 = x5c ∧ at_ s 6 = x75 ∧
        parse_utf16_hex (drop 7 s) = Some trail ∧ 0xDC00 <= trail <= 0xDFFF ∧
        cp = 0x10000 + (lead - 0xD800) * 1024 + (trail - 0xDC00))).
Proof.
  unfold parse_utf16. destruct (parse_utf16_hex (drop 1 s)) as [cp|] eqn:E1; [|done].
  pose proof (parse_utf16_hex_range _ _ E1) as Hr. rewrite !drop_drop. cbn [Nat.add].
  destruct (Z.ltb_spec cp 0x80).
  { intros [= <- <-]. exists cp. split_and!; [unfold scalar; lia| |by left].
    unfold utf8_encode. by rewrite (proj2 (Z.ltb_lt _ _)) by lia. }
  destruct (Z.ltb_spec cp 0x800).
  { intros [= <- <-]. exists cp. split_and!; [unfold scalar; lia|by apply escape_bytes2|by left]. }
  case_match eqn:Es.
  { intros [= <- <-]. exists cp. split_and!; [unfold scalar; lia|apply escape_bytes3; lia|by left]. }
  case_match eqn:El; [|done]. case_match eqn:Eb; [done|].
  rewrite orb_false_iff, !negb_false_iff, !bool_decide_eq_true, !at_drop in Eb. destruct Eb as [Eb Eu].
  destruct (parse_utf16_hex (drop 7 s)) as [trail|] eqn:E2; [|done]. case_match eqn:Et; [done|].
  rewrite pair_value by lia. intros [= <- <-]. eexists. split_and!; [|apply escape_bytes4; lia|].
  - unfold scalar. lia.
  - right. split; [done|]. exists cp, trail. split_and!; done || lia.
Qed.

Lemma parse_utf16_encodes_witness :
  parse_utf16 (bs "ud83d\ude00 ") = Some ([xf0; x9f; x98; x80], 10%nat) ∧
  ∃ cp, scalar cp ∧ [xf0; x9f; x98; x80] = utf8_encode cp.
Proof.
  split; [reflexivity|].
  destruct (parse_utf16_encodes (bs "ud83d\ude00 ") [xf0; x9f; x98; x80] 10 eq_refl) as (cp & Hs & E & _).
  exists cp. split; [exact Hs|exact E].
Defined.
End Utf8.
