(* ===== verification/Parson.v ===== *)
(** * parson.c: values, objects and arrays (src/common/json/parson.c)

    The JSON values and the operations of the object, array and value API. A
    [JSON_Value *], [JSON_Object *] or [JSON_Array *] that may be NULL is an
    [option]; a mutated object or array is returned with the status. Objects
    and arrays keep their [capacity], since every insertion writes at index
    [count] after making room for it. Here memory is available and nothing is
    freed ([ParsonHeap] and [ParsonHeapApi] have the same functions with their
    allocations); the [parent] pointer is only ever tested against NULL, by the
    operations that refuse a value which already belongs to a container: it is
    their argument [has_parent]. *)
From S2P Require Import Prelude Utils Cdouble ParsonText.
Import Cdouble ParsonText.

Module Parson.

(** ** Types *)

(** [struct json_object_t]: [names] and [values] side by side, in order. *)
Record JSON_Object_of (V : Type) := MkObject {
  obj_pairs : list (bytes * V);
  obj_capacity : nat }.

(** [struct json_array_t]. *)
Record JSON_Array_of (V : Type) := MkArray {
  arr_items : list V;
  arr_capacity : nat }.

Arguments MkObject {V} _ _.
Arguments obj_pairs {V} _.
Arguments obj_capacity {V} _.
Arguments MkArray {V} _ _.
Arguments arr_items {V} _.
Arguments arr_capacity {V} _.

Unset Elimination Schemes.
(** [struct json_value_t]: the type tag and the union. *)
Inductive JSON_Value :=
  | JSONNull
  | JSONString (s : bytes)
  | JSONNumber (d : double)
  | JSONObject (o : JSON_Object_of JSON_Value)
  | JSONArray (a : JSON_Array_of JSON_Value)
  | JSONBoolean (b : bool).
Set Elimination Schemes.

Abbreviation JSON_Object := (JSON_Object_of JSON_Value).
Abbreviation JSON_Array := (JSON_Array_of JSON_Value).

(** Induction with the hypothesis for every child. *)
Definition JSON_Value_ind (P : JSON_Value → Prop)
  (Hnull : P JSONNull) (Hstr : ∀ s, P (JSONString s)) (Hnum : ∀ d, P (JSONNumber d))
  (Hobj : ∀ ps cap, Forall (λ p, P p.2) ps → P (JSONObject (MkObject ps cap)))
  (Harr : ∀ items cap, Forall P items → P (JSONArray (MkArray items cap)))
  (Hbool : ∀ b, P (JSONBoolean b)) : ∀ v, P v :=
  fix F v := match v with
  | JSONNull => Hnull
  | JSONString s => Hstr s
  | JSONNumber d => Hnum d
  | JSONObject (MkObject ps cap) =>
      Hobj ps cap ((fix G ps := match ps return Forall (λ p, P p.2) ps with
                    | [] => List.Forall_nil _
                    | p :: ps' => List.Forall_cons _ _ _ (F p.2) (G ps') end) ps)
  | JSONArray (MkArray items cap) =>
      Harr items cap ((fix G l := match l return Forall P l with
                       | [] => List.Forall_nil _
                       | x :: l' => List.Forall_cons _ _ _ (F x) (G l') end) items)
  | JSONBoolean b => Hbool b
  end.

(** [enum json_value_type]. *)
Inductive JSON_Value_Type := TError | TNull | TString | TNumber | TObject | TArray | TBoolean.

#[global] Instance JSON_Value_Type_eq_dec : EqDecision JSON_Value_Type.
Proof. solve_decision. Defined.

(** [enum json_result_t]. *)
Inductive JSON_Status := JSONSuccess | JSONFailure.

#[global] Instance JSON_Status_eq_dec : EqDecision JSON_Status.
Proof. solve_decision. Defined.

Definition STARTING_CAPACITY : nat := 16.
Definition MAX_NESTING : nat := 2048.
#[global] Arguments STARTING_CAPACITY : simpl never.
#[global] Arguments MAX_NESTING : simpl never.

(** ** JSON Value API: accessors *)

Definition json_value_get_type (v : option JSON_Value) : JSON_Value_Type :=
  match v with
  | None => TError
  | Some JSONNull => TNull
  | Some (JSONString _) => TString
  | Some (JSONNumber _) => TNumber
  | Some (JSONObject _) => TObject
  | Some (JSONArray _) => TArray
  | Some (JSONBoolean _) => TBoolean
  end.

Definition json_value_get_object (v : option JSON_Value) : option JSON_Object :=
  match v with Some (JSONObject o) => Some o | _ => None end.
Definition json_value_get_array (v : option JSON_Value) : option JSON_Array :=
  match v with Some (JSONArray a) => Some a | _ => None end.
Definition json_value_get_string (v : option JSON_Value) : option bytes :=
  match v with Some (JSONString s) => Some s | _ => None end.
Definition json_value_get_number (v : option JSON_Value) : double :=
  match v with Some (JSONNumber d) => d | _ => S754_zero false end.
Definition json_value_get_boolean (v : option JSON_Value) : Z :=
  match v with Some (JSONBoolean b) => if b then 1%Z else 0%Z | _ => (-1)%Z end.

(** ** Objects: lookup *)

Definition json_object_get_count (o : option JSON_Object) : nat :=
  match o with Some o => length (obj_pairs o) | None => 0 end.

(** The loop of [json_object_getn_value]. *)
Fixpoint getn_loop {V} (ps : list (bytes * V)) (name : bytes) (name_len : nat) : option V :=
  match ps with
  | [] => None
  | (k, v) :: ps' =>
      if bool_decide (strlen k ≠ name_len) then getn_loop ps' name name_len
      else if strncmp_eq k name name_len then Some v
      else getn_loop ps' name name_len
  end.

Definition json_object_getn_value (o : option JSON_Object) (name : bytes) (name_len : nat)
  : option JSON_Value :=
  match o with Some o => getn_loop (obj_pairs o) name name_len | None => None end.

Definition json_object_get_value (o : option JSON_Object) (name : bytes) : option JSON_Value :=
  match o with None => None | Some _ => json_object_getn_value o name (strlen name) end.

Definition json_object_get_string (o : option JSON_Object) (name : bytes) : option bytes :=
  json_value_get_string (json_object_get_value o name).
Definition json_object_get_number (o : option JSON_Object) (name : bytes) : double :=
  json_value_get_number (json_object_get_value o name).
Definition json_object_get_object (o : option JSON_Object) (name : bytes) : option JSON_Object :=
  json_value_get_object (json_object_get_value o name).
Definition json_object_get_array (o : option JSON_Object) (name : bytes) : option JSON_Array :=
  json_value_get_array (json_object_get_value o name).
Definition json_object_get_boolean (o : option JSON_Object) (name : bytes) : Z :=
  json_value_get_boolean (json_object_get_value o name).

Definition json_object_get_name (o : option JSON_Object) (index : nat) : option bytes :=
  match o with Some o => fst <$> obj_pairs o !! index | None => None end.
Definition json_object_get_value_at (o : option JSON_Object) (index : nat) : option JSON_Value :=
  match o with Some o => snd <$> obj_pairs o !! index | None => None end.

Definition json_object_has_value (o : option JSON_Object) (name : bytes) : bool :=
  bool_decide (is_Some (json_object_get_value o name)).
Definition json_object_has_value_of_type (o : option JSON_Object) (name : bytes)
  (type : JSON_Value_Type) : bool :=
  let val := json_object_get_value o name in
  bool_decide (is_Some val) && bool_decide (json_value_get_type val = type).

(** The recursion of [json_object_dotget_value] with its [strchr]: [comp] is
    the component scanned so far. *)
Fixpoint dotget_scan (o : option JSON_Object) (comp name : bytes) : option JSON_Value :=
  match name with
  | [] => json_object_get_value o comp
  | c :: name' =>
      if bool_decide (c = x2e)
      then dotget_scan (json_value_get_object (json_object_getn_value o comp (length comp))) [] name'
      else dotget_scan o (comp ++ [c]) name'
  end.

Definition json_object_dotget_value (o : option JSON_Object) (name : bytes) : option JSON_Value :=
  dotget_scan o [] (cstr name).
Definition json_object_dotget_string (o : option JSON_Object) (name : bytes) : option bytes :=
  json_value_get_string (json_object_dotget_value o name).
Definition json_object_dotget_number (o : option JSON_Object) (name : bytes) : double :=
  json_value_get_number (json_object_dotget_value o name).
Definition json_object_dotget_object (o : option JSON_Object) (name : bytes) : option JSON_Object :=
  json_value_get_object (json_object_dotget_value o name).
Definition json_object_dotget_array (o : option JSON_Object) (name : bytes) : option JSON_Array :=
  json_value_get_array (json_object_dotget_value o name).
Definition json_object_dotget_boolean (o : option JSON_Object) (name : bytes) : Z :=
  json_value_get_boolean (json_object_dotget_value o name).
Definition json_object_dothas_value (o : option JSON_Object) (name : bytes) : bool :=
  bool_decide (is_Some (json_object_dotget_value o name)).
Definition json_object_dothas_value_of_type (o : option JSON_Object) (name : bytes)
  (type : JSON_Value_Type) : bool :=
  let val := json_object_dotget_value o name in
  bool_decide (is_Some val) && bool_decide (json_value_get_type val = type).

(** ** Arrays: lookup *)

Definition json_array_get_count (a : option JSON_Array) : nat :=
  match a with Some a => length (arr_items a) | None => 0 end.
Definition json_array_get_value (a : option JSON_Array) (index : nat) : option JSON_Value :=
  match a with Some a => arr_items a !! index | None => None end.
Definition json_array_get_string (a : option JSON_Array) (index : nat) : option bytes :=
  json_value_get_string (json_array_get_value a index).
Definition json_array_get_number (a : option JSON_Array) (index : nat) : double :=
  json_value_get_number (json_array_get_value a index).
Definition json_array_get_object (a : option JSON_Array) (index : nat) : option JSON_Object :=
  json_value_get_object (json_array_get_value a index).
Definition json_array_get_array (a : option JSON_Array) (index : nat) : option JSON_Array :=
  json_value_get_array (json_array_get_value a index).
Definition json_array_get_boolean (a : option JSON_Array) (index : nat) : Z :=
  json_value_get_boolean (json_array_get_value a index).

(** ** Values: construction *)

Definition json_object_init : JSON_Object := MkObject [] 0.
Definition json_array_init : JSON_Array := MkArray [] 0.
Definition json_value_init_object : JSON_Value := JSONObject json_object_init.
Definition json_value_init_array : JSON_Value := JSONArray json_array_init.
Definition json_value_init_null : JSON_Value := JSONNull.
Definition json_value_init_boolean (boolean : Z) : JSON_Value :=
  JSONBoolean (negb (Z.eqb boolean 0)).

(** [parson_strndup]. *)
Definition parson_strndup (string : bytes) (n : nat) : bytes := take n (cstr string).

(** NULL for a NULL pointer and for text that is not valid UTF-8. *)
Definition json_value_init_string (string : option bytes) : option JSON_Value :=
  match string with
  | None => None
  | Some s =>
      if is_valid_utf8 (cstr s) then Some (JSONString (parson_strndup s (strlen s))) else None
  end.

(** NULL for NaN and the infinities: [number * 0.0 != 0.0]. *)
Definition json_value_init_number (number : double) : option JSON_Value :=
  if negb (SFeqb (SFmul prec emax number (S754_zero false)) (S754_zero false)) then None
  else Some (JSONNumber number).

(** ** Objects: insertion *)

(** Both arrays are reallocated together; a zero capacity is refused. *)
Definition json_object_resize (o : JSON_Object) (new_capacity : nat) : JSON_Status * JSON_Object :=
  match new_capacity with
  | O => (JSONFailure, o)
  | _ => (JSONSuccess, MkObject (obj_pairs o) new_capacity)
  end.

Definition json_object_addn (o : option JSON_Object) (name : bytes) (name_len : nat)
  (value : option JSON_Value) : JSON_Status * option JSON_Object :=
  match o, value with
  | Some ob, Some v =>
      match json_object_getn_value o name name_len with
      | Some _ => (JSONFailure, o)
      | None =>
          let '(st, ob1) :=
            if bool_decide (obj_capacity ob <= length (obj_pairs ob))
            then json_object_resize ob (Nat.max (obj_capacity ob * 2) STARTING_CAPACITY)
            else (JSONSuccess, ob) in
          match st with
          | JSONFailure => (JSONFailure, Some ob1)
          | JSONSuccess =>
              (JSONSuccess, Some (MkObject (obj_pairs ob1 ++ [(parson_strndup name name_len, v)])
                                           (obj_capacity ob1)))
          end
      end
  | _, _ => (JSONFailure, o)
  end.

Definition json_object_add (o : option JSON_Object) (name : bytes) (value : option JSON_Value)
  : JSON_Status * option JSON_Object :=
  json_object_addn o name (strlen name) value.

(** Overwrites the value of the first name equal to [name]. *)
Fixpoint set_loop {V} (ps : list (bytes * V)) (name : bytes) (v : V) : option (list (bytes * V)) :=
  match ps with
  | [] => None
  | (k, w) :: ps' =>
      if strcmp_eq k name then Some ((k, v) :: ps')
      else match set_loop ps' name v with Some l => Some ((k, w) :: l) | None => None end
  end.

Definition json_object_set_value (o : option JSON_Object) (name : bytes)
  (value : option JSON_Value) (has_parent : bool) : JSON_Status * option JSON_Object :=
  match o, value with
  | Some ob, Some v =>
      if has_parent then (JSONFailure, o)
      else
        match json_object_get_value o name with
        | Some _ =>
            match set_loop (obj_pairs ob) name v with
            | Some ps => (JSONSuccess, Some (MkObject ps (obj_capacity ob)))
            | None => json_object_add o name value
            end
        | None => json_object_add o name value
        end
  | _, _ => (JSONFailure, o)
  end.

Definition json_object_set_string (o : option JSON_Object) (name : bytes) (string : option bytes) :=
  json_object_set_value o name (json_value_init_string string) false.
Definition json_object_set_number (o : option JSON_Object) (name : bytes) (number : double) :=
  json_object_set_value o name (json_value_init_number number) false.
Definition json_object_set_boolean (o : option JSON_Object) (name : bytes) (boolean : Z) :=
  json_object_set_value o name (Some (json_value_init_boolean boolean)) false.
Definition json_object_set_null (o : option JSON_Object) (name : bytes) :=
  json_object_set_value o name (Some json_value_init_null) false.

(** ** Objects: removal *)

(** The first index whose name equals [name]. *)
Fixpoint find_name {V} (ps : list (bytes * V)) (name : bytes) : option nat :=
  match ps with
  | [] => None
  | (k, _) :: ps' => if strcmp_eq k name then Some 0 else S <$> find_name ps' name
  end.

(** The pair at [i] is replaced by the last one and the count decremented. *)
Definition remove_at {A} (ps : list A) (i : nat) : list A :=
  let last := length ps - 1 in
  match ps !! last with
  | Some p => take last (if bool_decide (i = last) then ps else <[i := p]> ps)
  | None => ps
  end.

Definition json_object_remove_internal (o : option JSON_Object) (name : bytes)
  : JSON_Status * option JSON_Object :=
  match o, json_object_get_value o name with
  | Some ob, Some _ =>
      match find_name (obj_pairs ob) name with
      | Some i => (JSONSuccess, Some (MkObject (remove_at (obj_pairs ob) i) (obj_capacity ob)))
      | None => (JSONFailure, o)
      end
  | _, _ => (JSONFailure, o)
  end.

Definition json_object_remove := json_object_remove_internal.

Definition json_object_clear (o : option JSON_Object) : JSON_Status * option JSON_Object :=
  match o with
  | None => (JSONFailure, None)
  | Some ob => (JSONSuccess, Some (MkObject [] (obj_capacity ob)))
  end.

(** Writing back an object reached through the component [comp]. *)
Fixpoint update_first (ps : list (bytes * JSON_Value)) (name : bytes) (name_len : nat)
  (v : JSON_Value) : list (bytes * JSON_Value) :=
  match ps with
  | [] => []
  | (k, w) :: ps' =>
      if bool_decide (strlen k = name_len) && strncmp_eq k name name_len then (k, v) :: ps'
      else (k, w) :: update_first ps' name name_len v
  end.

(** [json_object_dotremove_internal], with its [strchr] and recursion. *)
Fixpoint dotremove_scan (o : option JSON_Object) (comp name : bytes)
  : JSON_Status * option JSON_Object :=
  match name with
  | [] => json_object_remove_internal o comp
  | c :: name' =>
      if bool_decide (c = x2e) then
        match o, json_object_getn_value o comp (length comp) with
        | Some ob, Some (JSONObject inner) =>
            let '(st, inner') := dotremove_scan (Some inner) [] name' in
            (st, Some (MkObject (update_first (obj_pairs ob) comp (length comp)
                                  (JSONObject (default inner inner'))) (obj_capacity ob)))
        | _, _ => (JSONFailure, o)
        end
      else dotremove_scan o (comp ++ [c]) name'
  end.

Definition json_object_dotremove (o : option JSON_Object) (name : bytes) :=
  dotremove_scan o [] (cstr name).

(** [json_object_dotset_value], with its [strchr] and recursion. *)
Fixpoint dotset_scan (o : option JSON_Object) (comp name : bytes) (value : option JSON_Value)
  (has_parent : bool) : JSON_Status * option JSON_Object :=
  match name with
  | [] => json_object_set_value o comp value has_parent
  | c :: name' =>
      if bool_decide (c = x2e) then
        match o, value with
        | Some ob, Some _ =>
            match json_object_getn_value o comp (length comp) with
            | Some (JSONObject inner) =>
                let '(st, inner') := dotset_scan (Some inner) [] name' value has_parent in
                (st, Some (MkObject (update_first (obj_pairs ob) comp (length comp)
                                      (JSONObject (default inner inner'))) (obj_capacity ob)))
            | Some _ => (JSONFailure, o)
            | None =>
                let '(st, new_object) :=
                  dotset_scan (Some json_object_init) [] name' value has_parent in
                match st, new_object with
                | JSONSuccess, Some no =>
                    json_object_addn o comp (length comp) (Some (JSONObject no))
                | _, _ => (JSONFailure, o)
                end
            end
        | _, _ => (JSONFailure, o)
        end
      else dotset_scan o (comp ++ [c]) name' value has_parent
  end.

Definition json_object_dotset_value (o : option JSON_Object) (name : bytes)
  (value : option JSON_Value) (has_parent : bool) :=
  dotset_scan o [] (cstr name) value has_parent.
Definition json_object_dotset_string (o : option JSON_Object) (name : bytes) (string : option bytes) :=
  json_object_dotset_value o name (json_value_init_string string) false.
Definition json_object_dotset_number (o : option JSON_Object) (name : bytes) (number : double) :=
  json_object_dotset_value o name (json_value_init_number number) false.
Definition json_object_dotset_boolean (o : option JSON_Object) (name : bytes) (boolean : Z) :=
  json_object_dotset_value o name (Some (json_value_init_boolean boolean)) false.
Definition json_object_dotset_null (o : option JSON_Object) (name : bytes) :=
  json_object_dotset_value o name (Some json_value_init_null) false.

(** ** Arrays: update *)

Definition json_array_resize (a : JSON_Array) (new_capacity : nat) : JSON_Status * JSON_Array :=
  match new_capacity with
  | O => (JSONFailure, a)
  | _ => (JSONSuccess, MkArray (arr_items a) new_capacity)
  end.

Definition json_array_add (a : JSON_Array) (value : JSON_Value) : JSON_Status * JSON_Array :=
  let '(st, a1) :=
    if bool_decide (arr_capacity a <= length (arr_items a))
    then json_array_resize a (Nat.max (arr_capacity a * 2) STARTING_CAPACITY)
    else (JSONSuccess, a) in
  match st with
  | JSONFailure => (JSONFailure, a1)
  | JSONSuccess => (JSONSuccess, MkArray (arr_items a1 ++ [value]) (arr_capacity a1))
  end.

Definition json_array_append_value (a : option JSON_Array) (value : option JSON_Value)
  (has_parent : bool) : JSON_Status * option JSON_Array :=
  match a, value with
  | Some ar, Some v =>
      if has_parent then (JSONFailure, a)
      else let '(st, ar') := json_array_add ar v in (st, Some ar')
  | _, _ => (JSONFailure, a)
  end.

Definition json_array_append_string (a : option JSON_Array) (string : option bytes) :=
  json_array_append_value a (json_value_init_string string) false.
Definition json_array_append_number (a : option JSON_Array) (number : double) :=
  json_array_append_value a (json_value_init_number number) false.
Definition json_array_append_boolean (a : option JSON_Array) (boolean : Z) :=
  json_array_append_value a (Some (json_value_init_boolean boolean)) false.
Definition json_array_append_null (a : option JSON_Array) :=
  json_array_append_value a (Some json_value_init_null) false.

Definition json_array_remove (a : option JSON_Array) (ix : nat) : JSON_Status * option JSON_Array :=
  match a with
  | Some ar =>
      if bool_decide (length (arr_items ar) <= ix) then (JSONFailure, a)
      else (JSONSuccess, Some (MkArray (take ix (arr_items ar) ++ drop (S ix) (arr_items ar))
                                       (arr_capacity ar)))
  | None => (JSONFailure, a)
  end.

Definition json_array_replace_value (a : option JSON_Array) (ix : nat) (value : option JSON_Value)
  (has_parent : bool) : JSON_Status * option JSON_Array :=
  match a, value with
  | Some ar, Some v =>
      if has_parent || bool_decide (length (arr_items ar) <= ix) then (JSONFailure, a)
      else (JSONSuccess, Some (MkArray (<[ix := v]> (arr_items ar)) (arr_capacity ar)))
  | _, _ => (JSONFailure, a)
  end.

Definition json_array_replace_string (a : option JSON_Array) (i : nat) (string : option bytes) :=
  json_array_replace_value a i (json_value_init_string string) false.
Definition json_array_replace_number (a : option JSON_Array) (i : nat) (number : double) :=
  json_array_replace_value a i (json_value_init_number number) false.
Definition json_array_replace_boolean (a : option JSON_Array) (i : nat) (boolean : Z) :=
  json_array_replace_value a i (Some (json_value_init_boolean boolean)) false.
Definition json_array_replace_null (a : option JSON_Array) (i : nat) :=
  json_array_replace_value a i (Some json_value_init_null) false.

Definition json_array_clear (a : option JSON_Array) : JSON_Status * option JSON_Array :=
  match a with
  | None => (JSONFailure, None)
  | Some ar => (JSONSuccess, Some (MkArray [] (arr_capacity ar)))
  end.

(** ** Whole-value operations

    The loops over an object's names look each value up by name again: the
    recursive results of the children are kept under their names, and the loop
    searches them with the same [getn_loop]. *)

(** The object and array branches of [json_value_deep_copy], from the copies of
    the children. *)
Fixpoint copy_pairs (copies : list (bytes * option JSON_Value)) (names : list bytes)
  (o : option JSON_Object) : option JSON_Object :=
  match names with
  | [] => o
  | key :: names' =>
      match getn_loop copies key (strlen key) with
      | Some (Some c) =>
          match json_object_add o key (Some c) with
          | (JSONSuccess, o') => copy_pairs copies names' o'
          | (JSONFailure, _) => None
          end
      | _ => None
      end
  end.

Fixpoint copy_items (copies : list (option JSON_Value)) (a : JSON_Array) : option JSON_Array :=
  match copies with
  | [] => Some a
  | Some c :: copies' =>
      match json_array_add a c with
      | (JSONSuccess, a') => copy_items copies' a'
      | (JSONFailure, _) => None
      end
  | None :: _ => None
  end.

Fixpoint json_value_deep_copy (v : JSON_Value) : option JSON_Value :=
  match v with
  | JSONArray (MkArray items _) =>
      JSONArray <$> copy_items (map json_value_deep_copy items) json_array_init
  | JSONObject (MkObject ps _) =>
      JSONObject <$> copy_pairs (map (λ p, (p.1, json_value_deep_copy p.2)) ps) (map fst ps)
                                (Some json_object_init)
  | JSONBoolean b => Some (json_value_init_boolean (if b then 1 else 0)%Z)
  | JSONNumber d => json_value_init_number d
  | JSONString s => Some (JSONString (parson_strndup s (strlen s)))
  | JSONNull => Some json_value_init_null
  end.

Definition status_of (b : bool) : JSON_Status := if b then JSONSuccess else JSONFailure.

(** [json_validate(schema, value) == JSONSuccess]. *)
Fixpoint validates (schema : JSON_Value) (value : option JSON_Value) : bool :=
  match value with
  | None => false
  | Some v =>
      match schema with
      | JSONNull => true
      | JSONArray (MkArray items _) =>
          match v with
          | JSONArray va =>
              match map validates items with
              | [] => true
              | f :: _ => forallb (λ x, f (Some x)) (arr_items va)
              end
          | _ => false
          end
      | JSONObject (MkObject ps _) =>
          match v with
          | JSONObject vo =>
              let fs := map (λ p, (p.1, validates p.2)) ps in
              match ps with
              | [] => true
              | _ =>
                  if bool_decide (length (obj_pairs vo) < length ps) then false
                  else forallb (λ p,
                         match json_object_get_value (Some vo) p.1 with
                         | None => false
                         | Some tv => match getn_loop fs p.1 (strlen p.1) with
                                      | Some f => f (Some tv)
                                      | None => false
                                      end
                         end) ps
              end
          | _ => false
          end
      | _ => bool_decide (json_value_get_type (Some schema) = json_value_get_type value)
      end
  end.

Definition json_validate (schema value : option JSON_Value) : JSON_Status :=
  match schema with
  | None => JSONFailure
  | Some sc => status_of (validates sc value)
  end.

(** The literal [0.000001]. *)
Definition EPSILON : double := round_decimal false 1 (-6).

Definition json_number_close (a b : double) : bool :=
  SFltb (SFabs (SFsub prec emax a b)) EPSILON.

(** [json_value_equals(a, b)] for [a] not NULL. *)
Fixpoint value_equals (a : JSON_Value) (b : option JSON_Value) : bool :=
  if bool_decide (json_value_get_type (Some a) ≠ json_value_get_type b) then false
  else
    match a, b with
    | JSONArray (MkArray items _), Some (JSONArray bb) =>
        bool_decide (length items = length (arr_items bb)) &&
        forallb (λ fx, fx.1 fx.2)
          (zip (map value_equals items) (map Some (arr_items bb)))
    | JSONObject (MkObject ps _), Some (JSONObject bo) =>
        bool_decide (length ps = length (obj_pairs bo)) &&
        (let fs := map (λ p, (p.1, value_equals p.2)) ps in
         forallb (λ p, match getn_loop fs p.1 (strlen p.1) with
                       | Some f => f (json_object_get_value (Some bo) p.1)
                       | None => bool_decide (json_object_get_value (Some bo) p.1 = None)
                       end) ps)
    | JSONString s, Some (JSONString t) => strcmp_eq s t
    | JSONBoolean x, Some (JSONBoolean y) => Bool.eqb x y
    | JSONNumber x, Some (JSONNumber y) => json_number_close x y
    | _, _ => true
    end.

Definition json_value_equals (a b : option JSON_Value) : bool :=
  match a with
  | None => bool_decide (json_value_get_type b = TError)
  | Some a => value_equals a b
  end.

(** ** Well-formed values

    The invariant of the library's data: the pairs fit in the capacity, names
    are NUL-free and distinct, numbers are finite. *)

Definition names {V} (ps : list (bytes * V)) : list bytes := map fst ps.

Fixpoint wf_value (v : JSON_Value) : bool :=
  match v with
  | JSONObject (MkObject ps cap) =>
      bool_decide (length ps <= cap) && bool_decide (NoDup (names ps)) &&
      bool_decide (Forall nul_free (names ps)) && forallb (λ p, wf_value p.2) ps
  | JSONArray (MkArray items cap) =>
      bool_decide (length items <= cap) && forallb wf_value items
  | JSONNumber d => is_finite d
  | _ => true
  end.

(** Number of nested objects and arrays. *)
Fixpoint depth (v : JSON_Value) : nat :=
  match v with
  | JSONObject (MkObject ps _) => S (max_list (map (λ p, depth p.2) ps))
  | JSONArray (MkArray items _) => S (max_list (map depth items))
  | _ => 0
  end.

Lemma max_list_le (l : list nat) n : max_list l <= n ↔ Forall (λ x, x <= n) l.
Proof.
  induction l as [|x l IH]; simpl; [split; [constructor|lia]|].
  rewrite Forall_cons_iff, <-IH. lia.
Qed.

Record wf_pairs (ps : list (bytes * JSON_Value)) : Prop := {
  wf_names : NoDup (names ps);
  wf_nul_free : Forall nul_free (names ps);
  wf_values : Forall (λ p, wf_value p.2 = true) ps }.

Lemma forallb_Forall {A} (f : A → bool) l : forallb f l = true ↔ Forall (λ x, f x = true) l.
Proof. rewrite forallb_forall, List.Forall_forall. done. Qed.

Lemma wf_value_object ps cap :
  wf_value (JSONObject (MkObject ps cap)) = true ↔ length ps <= cap ∧ wf_pairs ps.
Proof.
  simpl. rewrite !andb_true_iff, !bool_decide_eq_true, forallb_Forall.
  split; [intros [[[]]]|intros [? []]]; split_and!; done || by split.
Qed.

Lemma wf_value_array items cap :
  wf_value (JSONArray (MkArray items cap)) = true ↔
  length items <= cap ∧ Forall (λ v, wf_value v = true) items.
Proof. simpl. by rewrite !andb_true_iff, !bool_decide_eq_true, forallb_Forall. Qed.

Lemma depth_object ps cap n :
  depth (JSONObject (MkObject ps cap)) <= S n ↔ Forall (λ p, depth p.2 <= n) ps.
Proof. simpl. rewrite <-Nat.succ_le_mono, max_list_le. apply Forall_fmap. Qed.

Lemma depth_array items cap n :
  depth (JSONArray (MkArray items cap)) <= S n ↔ Forall (λ v, depth v <= n) items.
Proof. simpl. rewrite <-Nat.succ_le_mono, max_list_le. apply Forall_fmap. Qed.

(** ** Lookup by name *)

Lemma getn_loop_cons {V} k (v : V) ps name : nul_free k → nul_free name →
  getn_loop ((k, v) :: ps) name (length name) =
  if bool_decide (k = name) then Some v else getn_loop ps name (length name).
Proof.
  intros Hk Hn. cbn [getn_loop]. unfold strlen. rewrite (cstr_id k Hk).
  case_bool_decide as Hl.
  - rewrite bool_decide_false; [done|]. by intros ->.
  - rewrite <-Hl, strncmp_eq_full by done. done.
Qed.

Lemma getn_loop_map {V W} (f : V → W) (ps : list (bytes * V)) name n :
  getn_loop (map (λ p, (p.1, f p.2)) ps) name n = f <$> getn_loop ps name n.
Proof.
  induction ps as [|[k v] ps IH]; [done|]. cbn [getn_loop map fst snd].
  by repeat (case_match; [done|..]).
Qed.

(** Only the C string of the name matters. *)
Lemma getn_loop_cstr {V} (ps : list (bytes * V)) name :
  getn_loop ps name (strlen name) = getn_loop ps (cstr name) (length (cstr name)).
Proof.
  unfold strlen. induction ps as [|[k v] ps IH]; [done|]. cbn [getn_loop].
  by rewrite strncmp_eq_cstr_r, IH.
Qed.

#[global] Arguments getn_loop : simpl never.

Lemma getn_loop_None {V} (ps : list (bytes * V)) name :
  Forall nul_free (names ps) → nul_free name →
  getn_loop ps name (length name) = None ↔ name ∉ names ps.
Proof.
  intros Hps Hn. induction ps as [|[k v] ps IH]; simpl in *.
  { split; [intros _; apply not_elem_of_nil|done]. }
  apply Forall_cons_iff in Hps as [Hk Hps]. rewrite getn_loop_cons by done.
  rewrite not_elem_of_cons. case_bool_decide; naive_solver.
Qed.

Lemma getn_loop_Some {V} (ps : list (bytes * V)) name v :
  Forall nul_free (names ps) → NoDup (names ps) → nul_free name →
  getn_loop ps name (length name) = Some v ↔ (name, v) ∈ ps.
Proof.
  intros Hps Hnd Hn. induction ps as [|[k w] ps IH]; simpl in *.
  { split; [done|]. intros H. by apply not_elem_of_nil in H. }
  apply Forall_cons_iff in Hps as [Hk Hps]. apply list.NoDup_cons in Hnd as [Hnk Hnd].
  rewrite getn_loop_cons, elem_of_cons by done. case_bool_decide as E.
  - subst. split; [intros; simplify_eq; by left|]. intros [?|Hin]; [by simplify_eq|].
    destruct Hnk. apply list_elem_of_fmap. by exists (name, v).
  - rewrite IH by done. naive_solver.
Qed.

Lemma getn_loop_app {V} (ps qs : list (bytes * V)) name :
  Forall nul_free (names ps) → nul_free name →
  getn_loop (ps ++ qs) name (length name) =
  match getn_loop ps name (length name) with
  | Some v => Some v
  | None => getn_loop qs name (length name)
  end.
Proof.
  intros Hps Hn. induction ps as [|[k w] ps IH]; [done|].
  apply Forall_cons_iff in Hps as [Hk Hps]. cbn [app].
  rewrite !getn_loop_cons by done. case_bool_decide; [done|]. by apply IH.
Qed.

(** ** Insertion *)

Lemma json_object_add_spec o key v st o' :
  Forall nul_free (names (obj_pairs o)) →
  json_object_add (Some o) key (Some v) = (st, o') →
  (st = JSONSuccess ∧ (cstr key ∉ names (obj_pairs o)) ∧
   ∃ cap, o' = Some (MkObject (obj_pairs o ++ [(cstr key, v)]) cap) ∧
     (length (obj_pairs o) <= obj_capacity o → length (obj_pairs o) < cap)) ∨
  (st = JSONFailure ∧ (cstr key ∈ names (obj_pairs o)) ∧ o' = Some o).
Proof.
  intros Hn. unfold json_object_add, json_object_addn. cbn [json_object_getn_value].
  rewrite getn_loop_cstr.
  destruct (getn_loop _ _ _) as [w|] eqn:Eg.
  { intros; simplify_eq. right. split_and!; try done.
    destruct (decide (cstr key ∈ names (obj_pairs o))) as [?|Hni]; [done|].
    rewrite <-(getn_loop_None (obj_pairs o)) in Hni by auto using cstr_nul_free. congruence. }
  apply getn_loop_None in Eg; [|done|apply cstr_nul_free].
  unfold parson_strndup, strlen. rewrite take_ge by done.
  case_bool_decide as Hc; cbn.
  - destruct (Nat.max _ _) as [|n] eqn:Em; [unfold STARTING_CAPACITY in Em; lia|].
    cbn [json_object_resize]. intros; simplify_eq. left. split_and!; try done. eexists; split; [done|]. cbn.
    unfold STARTING_CAPACITY in Em. lia.
  - intros; simplify_eq. left. split_and!; try done. eexists; split; [done|]. lia.
Qed.
End Parson.
