(* ===== verification/ParsonParse.v ===== *)
(** * parson.c: the parser (src/common/json/parson.c, lines 303-336, 679-858, 1118-1141)

    The recursive-descent parser as mutually recursive functions on the cursor.
    [Ok None] is the result NULL; [NoFuel] never occurs with the fuel
    [json_parse_string] starts from, one more than twice the length of the text
    (an array element is parsed from the cursor of its loop iteration, so every
    byte consumed pays for at most two calls). *)
From S2P Require Import Prelude Utils Cdouble ParsonText Parson.
Import Cdouble ParsonText Parson.

Module ParsonParse.

(** What a parsing function returns: NULL, or a value and the new cursor. *)
Abbreviation parse_result := (res (option (JSON_Value * bytes))).

(** [SKIP_WHITESPACES]. *)
Abbreviation skip_whitespaces := skip_spaces.

Definition parse_string_value (s : bytes) : parse_result :=
  r ← get_quoted_string s;
  Ok (match r with Some (str, rest) => Some (JSONString str, rest) | None => None end).

Definition parse_boolean_value (s : bytes) : parse_result :=
  Ok (if strncmp_eq (bs "true") s 4 then Some (json_value_init_boolean 1, drop 4 s)
      else if strncmp_eq (bs "false") s 5 then Some (json_value_init_boolean 0, drop 5 s)
      else None).

Definition parse_number_value (s : bytes) : parse_result :=
  let r := strtod s in
  Ok (if st_erange r || negb (is_decimal s (length s - length (st_end r))) then None
      else match json_value_init_number (st_value r) with
           | Some v => Some (v, st_end r)
           | None => None
           end).

Definition parse_null_value (s : bytes) : parse_result :=
  Ok (if strncmp_eq (bs "null") s 4 then Some (json_value_init_null, drop 4 s) else None).

(** The end of [parse_object_value], after its loop. *)
Definition finish_object (o : JSON_Object) (s : bytes) : parse_result :=
  let s := skip_whitespaces s in
  Ok (if negb (bool_decide (peek s = x7d)) then None
      else match json_object_resize o (json_object_get_count (Some o)) with
           | (JSONSuccess, o') => Some (JSONObject o', advance s)
           | (JSONFailure, _) => None
           end).

Definition finish_array (a : JSON_Array) (s : bytes) : parse_result :=
  let s := skip_whitespaces s in
  Ok (if negb (bool_decide (peek s = x5d)) then None
      else match json_array_resize a (json_array_get_count (Some a)) with
           | (JSONSuccess, a') => Some (JSONArray a', advance s)
           | (JSONFailure, _) => None
           end).

(** [parse_object_value] up to its loop. *)
Definition parse_object_value (loop : JSON_Object → bytes → parse_result) (s : bytes) : parse_result :=
  if negb (bool_decide (peek s = x7b)) then Ok None
  else
    let s := skip_whitespaces (advance s) in
    if bool_decide (peek s = x7d) then Ok (Some (json_value_init_object, advance s))
    else loop json_object_init s.

Definition parse_array_value (loop : JSON_Array → bytes → parse_result) (s : bytes) : parse_result :=
  if negb (bool_decide (peek s = x5b)) then Ok None
  else
    let s := skip_whitespaces (advance s) in
    if bool_decide (peek s = x5d) then Ok (Some (json_value_init_array, advance s))
    else loop json_array_init s.

Definition starts_number (c : byte) : bool := bool_decide (c = x2d) || is_digit c.

Fixpoint parse_value (fuel : nat) (s : bytes) (nesting : nat) : parse_result :=
  match fuel with
  | O => NoFuel
  | S f =>
      if bool_decide (MAX_NESTING < nesting) then Ok None
      else
        let s := skip_whitespaces s in
        let c := peek s in
        if bool_decide (c = x7b)
        then parse_object_value (λ o s, parse_object_loop f o s (S nesting)) s
        else if bool_decide (c = x5b)
        then parse_array_value (λ a s, parse_array_loop f a s (S nesting)) s
        else if bool_decide (c = x22) then parse_string_value s
        else if bool_decide (c = x66) || bool_decide (c = x74) then parse_boolean_value s
        else if starts_number c then parse_number_value s
        else if bool_decide (c = x6e) then parse_null_value s
        else Ok None
  end
(** The [while] loop of [parse_object_value]. *)
with parse_object_loop (fuel : nat) (o : JSON_Object) (s : bytes) (nesting : nat) : parse_result :=
  match fuel with
  | O => NoFuel
  | S f =>
      if bool_decide (peek s = x00) then finish_object o s
      else
        q ← get_quoted_string s;
        match q with
        | None => Ok None
        | Some (new_key, s1) =>
            let s1 := skip_whitespaces s1 in
            if negb (bool_decide (peek s1 = x3a)) then Ok None
            else
              v ← parse_value f (advance s1) nesting;
              match v with
              | None => Ok None
              | Some (new_value, s2) =>
                  match json_object_add (Some o) new_key (Some new_value) with
                  | (JSONSuccess, Some o') =>
                      let s2 := skip_whitespaces s2 in
                      if negb (bool_decide (peek s2 = x2c)) then finish_object o' s2
                      else parse_object_loop f o' (skip_whitespaces (advance s2)) nesting
                  | _ => Ok None
                  end
              end
        end
  end
(** The [while] loop of [parse_array_value]. *)
with parse_array_loop (fuel : nat) (a : JSON_Array) (s : bytes) (nesting : nat) : parse_result :=
  match fuel with
  | O => NoFuel
  | S f =>
      if bool_decide (peek s = x00) then finish_array a s
      else
        v ← parse_value f s nesting;
        match v with
        | None => Ok None
        | Some (new_value, s1) =>
            match json_array_add a new_value with
            | (JSONSuccess, a') =>
                let s1 := skip_whitespaces s1 in
                if negb (bool_decide (peek s1 = x2c)) then finish_array a' s1
                else parse_array_loop f a' (skip_whitespaces (advance s1)) nesting
            | (JSONFailure, _) => Ok None
            end
        end
  end.

(** The text after an optional UTF-8 byte order mark. *)
Definition skip_bom (s : bytes) : bytes :=
  match s with xef :: xbb :: xbf :: s' => s' | _ => s end.

(** [parse_value(&string, 0)]: the value alone. *)
Definition parse_text (s : bytes) : res (option JSON_Value) :=
  r ← parse_value (S (2 * length s)) s 0;
  Ok (option_map fst r).

Definition json_parse_string (string : option bytes) : res (option JSON_Value) :=
  match string with
  | None => Ok None
  | Some s => parse_text (skip_bom s)
  end.

(** ** Comments *)

(** [strncmp(s, token, strlen(token)) == 0] for a token without NUL. *)
Definition has_prefix (token s : bytes) : bool := bool_decide (take (length token) s = token).

(** [strstr]: the offset of the first occurrence before the terminator. *)
Fixpoint strstr (token s : bytes) : option nat :=
  if has_prefix token s then Some 0
  else match s with
       | [] => None
       | c :: s' => if bool_decide (c = x00) then None else S <$> strstr token s'
       end.

(** The loop of [remove_comments]: the new contents from the cursor on. *)
Fixpoint remove_comments_loop (fuel : nat) (start_token end_token s : bytes)
  (in_string escaped : bool) : bytes :=
  match fuel, s with
  | O, _ | _, [] => s
  | S f, c :: s' =>
      if bool_decide (c = x00) then s
      else if bool_decide (c = x5c) && negb escaped then
        c :: remove_comments_loop f start_token end_token s' in_string true
      else if bool_decide (c = x22) && negb escaped then
        c :: remove_comments_loop f start_token end_token s' (negb in_string) false
      else if negb in_string && has_prefix start_token s then
        let n := length start_token in
        let s1 := drop n s in
        match strstr end_token s1 with
        | None => repeat x20 n ++ s1
        | Some k =>
            let m := k + length end_token in
            repeat x20 n ++ repeat x20 m ++
            remove_comments_loop f start_token end_token (drop m s1) in_string false
        end
      else c :: remove_comments_loop f start_token end_token s' in_string false
  end.

Definition remove_comments (s start_token end_token : bytes) : bytes :=
  if bool_decide (length start_token = 0) || bool_decide (length end_token = 0) then s
  else remove_comments_loop (length s) start_token end_token s false false.

Definition json_parse_string_with_comments (string : bytes) : res (option JSON_Value) :=
  let copy := cstr string in
  let copy := remove_comments copy (bs "/*") (bs "*/") in
  let copy := remove_comments copy (bs "//") [x0a] in
  parse_text copy.

(** ** Totality, well-formedness and nesting of the parser *)

(** What holds of a successful parse of [s] at a nesting level. *)
Definition parsed (nesting : nat) (s : bytes) (r : option (JSON_Value * bytes)) : Prop :=
  ∀ v rest, r = Some (v, rest) →
    length rest <= length s ∧ wf_value v = true ∧ nesting + depth v <= S MAX_NESTING.

(** The invariant of the object under construction at nesting [n]: its values
    are parsed at [S n]. *)
Record obj_inv (n : nat) (o : JSON_Object) : Prop := {
  oi_nesting : n <= MAX_NESTING;
  oi_cap : length (obj_pairs o) <= obj_capacity o;
  oi_wf : wf_pairs (obj_pairs o);
  oi_depth : Forall (λ p, depth p.2 <= MAX_NESTING - n) (obj_pairs o) }.

Record arr_inv (n : nat) (a : JSON_Array) : Prop := {
  ai_nesting : n <= MAX_NESTING;
  ai_cap : length (arr_items a) <= arr_capacity a;
  ai_wf : Forall (λ v, wf_value v = true) (arr_items a);
  ai_depth : Forall (λ v, depth v <= MAX_NESTING - n) (arr_items a) }.

Lemma advance_le s : length (advance s) <= length s.
Proof. destruct s; simpl; lia. Qed.
Lemma advance_lt s : peek s ≠ x00 → length (advance s) < length s.
Proof. destruct s; [done|]. simpl. lia. Qed.
Lemma skip_ws_le s : length (skip_whitespaces s) <= length s.
Proof. apply skip_spaces_le. Qed.

#[local] Hint Resolve advance_le skip_ws_le : core.

Lemma parsed_weaken n s s' r : length s <= length s' → parsed n s r → parsed n s' r.
Proof. intros Hl H v rest E. destruct (H v rest E) as (? & ? & ?). split_and!; [lia|done..]. Qed.

Lemma parsed_none n s : parsed n s None.
Proof. by intros ? ?. Qed.

Lemma parsed_leaf n s v rest : n <= MAX_NESTING →
  length rest <= length s → wf_value v = true → depth v <= 1 → parsed n s (Some (v, rest)).
Proof. intros Hn Hl Hw Hd ? ? E. simplify_eq. split_and!; [done|done|lia]. Qed.

Lemma json_value_init_number_finite d v :
  json_value_init_number d = Some v → v = JSONNumber d ∧ is_finite d = true.
Proof. unfold json_value_init_number. by destruct d as [|[]| |]; simpl; intros; simplify_eq. Qed.

Lemma parse_string_value_total n s : n <= MAX_NESTING →
  ∃ r, parse_string_value s = Ok r ∧ parsed n s r.
Proof.
  intros Hn. unfold parse_string_value.
  destruct (get_quoted_string_total s) as (r & -> & Hr). simpl.
  destruct r as [[str rest]|]; (eexists; split; [reflexivity|]); [|apply parsed_none].
  destruct (Hr _ _ eq_refl) as (mid & -> & _).
  apply parsed_leaf; try done; [|cbn; lia]. simpl. rewrite length_app. simpl. lia.
Qed.

Lemma parse_atom_total n s : n <= MAX_NESTING →
  (∃ r, parse_boolean_value s = Ok r ∧ parsed n s r) ∧
  (∃ r, parse_number_value s = Ok r ∧ parsed n s r) ∧
  (∃ r, parse_null_value s = Ok r ∧ parsed n s r).
Proof.
  intros Hn. split_and!; eexists; (split; [reflexivity|]).
  - repeat case_match; (apply parsed_none || (apply parsed_leaf; try done; [|cbn; lia]; rewrite length_drop; lia)).
  - case_match; [apply parsed_none|].
    destruct (json_value_init_number _) as [v|] eqn:E; [|apply parsed_none].
    apply json_value_init_number_finite in E as [-> Hf].
    apply parsed_leaf; try done; [|cbn; lia]. apply strtod_le.
  - case_match; [|apply parsed_none]. apply parsed_leaf; try done; [|cbn; lia]. rewrite length_drop. lia.
Qed.

Lemma finish_object_total n o s : obj_inv n o → ∃ r, finish_object o s = Ok r ∧ parsed n s r.
Proof.
  intros [Hn Hc Hw Hd]. eexists; split; [reflexivity|].
  case_match; [apply parsed_none|]. destruct o as [ps cap]. cbn in *.
  destruct (length ps) eqn:El; cbn; [apply parsed_none|].
  intros v rest E. simplify_eq. split_and!.
  - etrans; [apply advance_le|]. apply skip_ws_le.
  - apply wf_value_object. split; [lia|done].
  - enough (depth (JSONObject (MkObject ps (S n0))) <= S (MAX_NESTING - n)) by lia.
    by apply depth_object.
Qed.

Lemma finish_array_total n a s : arr_inv n a → ∃ r, finish_array a s = Ok r ∧ parsed n s r.
Proof.
  intros [Hn Hc Hw Hd]. eexists; split; [reflexivity|].
  case_match; [apply parsed_none|]. destruct a as [items cap]. cbn in *.
  destruct (length items) eqn:El; cbn; [apply parsed_none|].
  intros v rest E. simplify_eq. split_and!.
  - etrans; [apply advance_le|]. apply skip_ws_le.
  - apply wf_value_array. split; [lia|done].
  - enough (depth (JSONArray (MkArray items (S n0))) <= S (MAX_NESTING - n)) by lia.
    by apply depth_array.
Qed.

Lemma obj_inv_init n : n <= MAX_NESTING → obj_inv n json_object_init.
Proof. intros Hn. split; simpl; [done|lia|split; constructor|constructor]. Qed.
Lemma arr_inv_init n : n <= MAX_NESTING → arr_inv n json_array_init.
Proof. intros Hn. split; simpl; [done|lia|constructor|constructor]. Qed.

(** Adding a parsed member keeps the invariant. *)
Lemma obj_inv_add n o key v o' :
  obj_inv n o → wf_value v = true → S n + depth v <= S MAX_NESTING →
  json_object_add (Some o) key (Some v) = (JSONSuccess, Some o') → obj_inv n o'.
Proof.
  intros [Hn Hc [Hw1 Hw2 Hw3] Hd] Hv Hdv H.
  apply json_object_add_spec in H as [(_ & Hni & cap & E & Hcap)|(? & _)]; [|done|done].
  simplify_eq. split; cbn; [done| |split|].
  - rewrite length_app. simpl. specialize (Hcap Hc). lia.
  - unfold names. rewrite map_app. apply list.NoDup_app. split_and!; [done| |apply NoDup_singleton].
    intros x Hx Hx'. apply list_elem_of_singleton in Hx' as ->. done.
  - unfold names. rewrite map_app. apply Forall_app. split; [done|].
    constructor; [apply cstr_nul_free|constructor].
  - apply Forall_app. split; [done|]. by constructor.
  - apply Forall_app. split; [done|]. constructor; [cbn [snd]; lia|constructor].
Qed.

Lemma arr_inv_add n a v a' :
  arr_inv n a → wf_value v = true → S n + depth v <= S MAX_NESTING →
  json_array_add a v = (JSONSuccess, a') → arr_inv n a'.
Proof.
  intros [Hn Hc Hw Hd] Hv Hdv. unfold json_array_add.
  assert (∀ cap, length (arr_items a) < cap → arr_inv n (MkArray (arr_items a ++ [v]) cap)) as Hok.
  { intros cap Hcap. split; cbn; [done| | |].
    - rewrite length_app. simpl. lia.
    - apply Forall_app. split; [done|]. by constructor.
    - apply Forall_app. split; [done|]. constructor; [lia|constructor]. }
  case_bool_decide; cbn.
  - destruct (Nat.max _ _) as [|m] eqn:Em; [unfold STARTING_CAPACITY in Em; lia|].
    cbn. intros; simplify_eq. apply Hok. unfold STARTING_CAPACITY in Em. lia.
  - intros; simplify_eq. apply Hok. lia.
Qed.

Lemma json_array_add_success a v : ∃ a', json_array_add a v = (JSONSuccess, a').
Proof.
  unfold json_array_add. case_bool_decide; [|by eexists].
  destruct (Nat.max _ _) as [|m] eqn:Em; [unfold STARTING_CAPACITY in Em; lia|]. by eexists.
Qed.

Definition value_total (fuel : nat) : Prop := ∀ s n,
  2 * length s < fuel → ∃ r, parse_value fuel s n = Ok r ∧ parsed n s r.
Definition object_total (fuel : nat) : Prop := ∀ o s n,
  2 * length s < fuel → obj_inv n o → ∃ r, parse_object_loop fuel o s (S n) = Ok r ∧ parsed n s r.
Definition array_total (fuel : nat) : Prop := ∀ a s n,
  2 * length s + 1 < fuel → arr_inv n a → ∃ r, parse_array_loop fuel a s (S n) = Ok r ∧ parsed n s r.

(** One iteration of the loops, given totality at smaller fuel. *)
Lemma object_total_step f : value_total f → object_total f → object_total (S f).
Proof.
  intros IHv IHo o s n Hl Ho. cbn [parse_object_loop].
  case_bool_decide as Hp; [by apply finish_object_total|].
  destruct (get_quoted_string_total s) as (q & -> & Hq). cbn [mbind res_bind].
  destruct q as [[key s1]|]; [|eexists; split; [done|apply parsed_none]].
  destruct (Hq _ _ eq_refl) as (mid & -> & _). clear Hq.
  case_match eqn:Hc; [eexists; split; [done|apply parsed_none]|].
  apply negb_false_iff, bool_decide_eq_true in Hc.
  pose proof (skip_ws_le s1) as L1.
  assert (length (advance (skip_whitespaces s1)) < length (skip_whitespaces s1)) as L2
    by (apply advance_lt; by rewrite Hc).
  cbn [length app] in *. rewrite length_app in *. cbn [length] in *.
  destruct (IHv (advance (skip_whitespaces s1)) (S n)) as (r & -> & Hr); [lia|].
  cbn [mbind res_bind]. destruct r as [[v s2]|]; [|eexists; split; [done|apply parsed_none]].
  destruct (Hr _ _ eq_refl) as (L3 & Hv & Hd).
  destruct (json_object_add (Some o) key (Some v)) as [[] [o'|]] eqn:Ea;
    try (eexists; split; [done|apply parsed_none]).
  pose proof (obj_inv_add _ _ _ _ _ Ho Hv Hd Ea) as Ho'.
  pose proof (skip_ws_le s2) as L4. case_match eqn:Hcm.
  - destruct (finish_object_total n o' (skip_whitespaces s2) Ho') as (r & -> & Hr').
    eexists; split; [done|]. eapply parsed_weaken; [|exact Hr']. simpl. rewrite length_app. simpl. lia.
  - apply negb_false_iff, bool_decide_eq_true in Hcm.
    assert (length (advance (skip_whitespaces s2)) < length (skip_whitespaces s2)) as L5
      by (apply advance_lt; by rewrite Hcm).
    pose proof (skip_ws_le (advance (skip_whitespaces s2))) as L6.
    destruct (IHo o' (skip_whitespaces (advance (skip_whitespaces s2))) n) as (r & -> & Hr'); [lia|done|].
    eexists; split; [done|]. eapply parsed_weaken; [|exact Hr']. simpl. rewrite length_app. simpl. lia.
Qed.

Lemma array_total_step f : value_total f → array_total f → array_total (S f).
Proof.
  intros IHv IHa a s n Hl Ha. cbn [parse_array_loop].
  case_bool_decide as Hp; [by apply finish_array_total|].
  destruct (IHv s (S n)) as (r & -> & Hr); [lia|].
  cbn [mbind res_bind]. destruct r as [[v s1]|]; [|eexists; split; [done|apply parsed_none]].
  destruct (Hr _ _ eq_refl) as (L1 & Hv & Hd).
  destruct (json_array_add_success a v) as [a' Ea]. rewrite Ea.
  pose proof (arr_inv_add _ _ _ _ Ha Hv Hd Ea) as Ha'.
  pose proof (skip_ws_le s1) as L2. case_match eqn:Hcm.
  - destruct (finish_array_total n a' (skip_whitespaces s1) Ha') as (r & -> & Hr').
    eexists; split; [done|]. eapply parsed_weaken; [|exact Hr']. lia.
  - apply negb_false_iff, bool_decide_eq_true in Hcm.
    assert (length (advance (skip_whitespaces s1)) < length (skip_whitespaces s1)) as L5
      by (apply advance_lt; by rewrite Hcm).
    pose proof (skip_ws_le (advance (skip_whitespaces s1))) as L6.
    destruct (IHa a' (skip_whitespaces (advance (skip_whitespaces s1))) n) as (r & -> & Hr'); [lia|done|].
    eexists; split; [done|]. eapply parsed_weaken; [|exact Hr']. lia.
Qed.

Lemma value_total_step f : object_total f → array_total f → value_total (S f).
Proof.
  intros IHo IHa s n Hl. cbn [parse_value].
  case_bool_decide as Hn; [eexists; split; [done|apply parsed_none]|].
  assert (n <= MAX_NESTING) as Hn' by lia.
  pose proof (skip_ws_le s) as L1. set (t := skip_whitespaces s) in *.
  assert (∀ r, parsed n t r → parsed n s r) as Hw by (intros r; by apply parsed_weaken).
  enough (∃ r, (if bool_decide (peek t = x7b) then _ else _) = Ok r ∧ parsed n t r)
    as (r & E & Hr) by (exists r; split; [exact E|auto]).
  destruct (parse_atom_total n t Hn') as (HA & HB & HC).
  case_bool_decide as Ho; [|case_bool_decide as Ha].
  - unfold parse_object_value. rewrite Ho. cbn [negb bool_decide decide_rel].
    assert (length (advance t) < length t) as L2 by (apply advance_lt; by rewrite Ho).
    rewrite bool_decide_true by done. cbn [negb].
    pose proof (skip_ws_le (advance t)) as L3. case_bool_decide as Hc.
    + eexists; split; [done|]. apply parsed_leaf; [done| |vm_compute; reflexivity|vm_compute; lia].
      etrans; [apply advance_le|lia].
    + destruct (IHo json_object_init (skip_whitespaces (advance t)) n) as (r & E & Hr);
        [lia|by apply obj_inv_init|].
      exists r. split; [exact E|]. eapply parsed_weaken; [|exact Hr]. lia.
  - unfold parse_array_value. rewrite Ha.
    assert (length (advance t) < length t) as L2 by (apply advance_lt; by rewrite Ha).
    rewrite bool_decide_true by done. cbn [negb].
    pose proof (skip_ws_le (advance t)) as L3. case_bool_decide as Hc.
    + eexists; split; [done|]. apply parsed_leaf; [done| |vm_compute; reflexivity|vm_compute; lia].
      etrans; [apply advance_le|lia].
    + destruct (IHa json_array_init (skip_whitespaces (advance t)) n) as (r & E & Hr);
        [lia|by apply arr_inv_init|].
      exists r. split; [exact E|]. eapply parsed_weaken; [|exact Hr]. lia.
  - repeat (case_match; [by auto using parse_string_value_total|]).
    eexists; split; [done|apply parsed_none].
Qed.

Lemma parser_total fuel : value_total fuel ∧ object_total fuel ∧ array_total fuel.
Proof.
  induction fuel as [|f (IHv & IHo & IHa)].
  - split_and!; intros ?; intros; lia.
  - split_and!; auto using value_total_step, object_total_step, array_total_step.
Qed.

Lemma parse_text_total s :
  ∃ r, parse_text s = Ok r ∧ ∀ v, r = Some v → wf_value v = true ∧ depth v <= S MAX_NESTING.
Proof.
  unfold parse_text.
  destruct (parser_total (S (2 * length s))) as (Hv & _ & _).
  destruct (Hv s 0) as (r & -> & Hr); [lia|].
  eexists; split; [reflexivity|]. destruct r as [[v rest]|]; [|done].
  intros ? [= <-]. destruct (Hr _ _ eq_refl) as (_ & ? & ?). split; [done|lia].
Qed.

(** [json_parse_string] returns on every input, without undefined
    behaviour: NULL, or a value whose objects have distinct NUL-free names and
    enough capacity, whose numbers are finite, and whose nesting is at most one
    more than [MAX_NESTING]. *)
Theorem json_parse_string_total (string : option bytes) :
  ∃ r, json_parse_string string = Ok r ∧
       ∀ v, r = Some v → wf_value v = true ∧ depth v <= S MAX_NESTING.
Proof. destruct string as [s|]; [apply parse_text_total|by exists None]. Qed.

Example parse_example :
  json_parse_string (Some (bs " [1, true ,null, -25 ]x")) =
  Ok (Some (JSONArray (MkArray [JSONNumber (of_int 1); JSONBoolean true; JSONNull;
                                JSONNumber (of_int (-25))] 4))).
Proof. vm_compute. reflexivity. Qed.
End ParsonParse.
