(* ===== verification/ParsonPrint.v ===== *)
(** * parson.c: the serializer (src/common/json/parson.c, lines 860-1079, 1490-1612)

    [json_serialize_to_buffer_r] runs twice: once with [buf == NULL] to compute
    the size, once to write. A writer takes the memory and the optional
    position [buf] in it, and returns the memory and the C result (-1 is
    failure). Stores are bounds-checked and the running total is a C [int], so
    a wrong size computation shows as [UB]. The main theorem is that both runs
    agree with a reference printer, that no store leaves the buffer, and that
    the result is NUL-terminated. *)
From S2P Require Import Prelude Utils Cdouble ParsonText Parson.
Import Utils Cdouble ParsonText Parson.
Local Open Scope Z_scope.

Module ParsonPrint.

(** A function [int f(..., char *buf)] that writes at [buf]. *)
Abbreviation writer := (bytes → option nat → res (bytes * Z)).

(** The locals of a function built from [APPEND_STRING]: the memory, [buf] and
    [written_total]; or the early [return -1]. *)
Inductive outcome :=
  | Go (m : bytes) (buf : option nat) (written_total : Z)
  | Fail (m : bytes).

(** [written = w(buf); if (written < 0) return -1; if (buf != NULL) buf +=
    written; written_total += written]. *)
Definition emit (w : writer) (o : outcome) : res outcome :=
  match o with
  | Fail m => Ok (Fail m)
  | Go m buf total =>
      r ← w m buf;
      let '(m', written) := r in
      if written <? 0 then Ok (Fail m')
      else
        total' ← int_add total written;
        Ok (Go m' (option_map (λ p, p + Z.to_nat written)%nat buf) total')
  end.

Definition APPEND_STRING (str : bytes) : outcome → res outcome :=
  emit (λ m buf, append_string m buf str).

(** The function's result. *)
Definition finish (o : outcome) : res (bytes * Z) :=
  match o with Go m _ total => Ok (m, total) | Fail m => Ok (m, -1) end.

Definition run (f : outcome → res outcome) : writer :=
  λ m buf, o ← f (Go m buf 0); finish o.

(** Sequencing, a conditional step, a loop over a list of steps. *)
Definition andthen (f g : outcome → res outcome) : outcome → res outcome := λ o, o' ← f o; g o'.
Infix ";;;" := andthen (at level 59, right associativity).
Definition when (b : bool) (f : outcome → res outcome) : outcome → res outcome :=
  if b then f else Ok.
Fixpoint steps (l : list (outcome → res outcome)) : outcome → res outcome :=
  match l with [] => Ok | f :: l' => f ;;; steps l' end.

(** [append_indent]. *)
Definition append_indent (level : nat) : writer :=
  run (steps (repeat (APPEND_STRING (bs "    ")) level)).

Definition APPEND_INDENT (level : nat) : outcome → res outcome := emit (append_indent level).

(** [buf[0] = c; buf += 1; written_total += 1]. *)
Definition put_char (c : byte) (o : outcome) : res outcome :=
  match o with
  | Fail m => Ok (Fail m)
  | Go m buf total =>
      m' ← match buf with Some p => store m p [c] | None => Ok m end;
      total' ← int_add total 1;
      Ok (Go m' (option_map S buf) total')
  end.

(** The [switch] of [json_serialize_string]. *)
Definition serialize_char (c : byte) : outcome → res outcome :=
  match c with
  | x22 => APPEND_STRING [x5c; x22]
  | x5c => APPEND_STRING [x5c; x5c]
  | x2f => APPEND_STRING [x5c; x2f]
  | x08 => APPEND_STRING (bs "\b")
  | x0c => APPEND_STRING (bs "\f")
  | x0a => APPEND_STRING (bs "\n")
  | x0d => APPEND_STRING (bs "\r")
  | x09 => APPEND_STRING (bs "\t")
  | x00 => APPEND_STRING (bs "\u0000")
  | x01 => APPEND_STRING (bs "\u0001")
  | x02 => APPEND_STRING (bs "\u0002")
  | x03 => APPEND_STRING (bs "\u0003")
  | x04 => APPEND_STRING (bs "\u0004")
  | x05 => APPEND_STRING (bs "\u0005")
  | x06 => APPEND_STRING (bs "\u0006")
  | x07 => APPEND_STRING (bs "\u0007")
  | x0b => APPEND_STRING (bs "\u000b")
  | x0e => APPEND_STRING (bs "\u000e")
  | x0f => APPEND_STRING (bs "\u000f")
  | x10 => APPEND_STRING (bs "\u0010")
  | x11 => APPEND_STRING (bs "\u0011")
  | x12 => APPEND_STRING (bs "\u0012")
  | x13 => APPEND_STRING (bs "\u0013")
  | x14 => APPEND_STRING (bs "\u0014")
  | x15 => APPEND_STRING (bs "\u0015")
  | x16 => APPEND_STRING (bs "\u0016")
  | x17 => APPEND_STRING (bs "\u0017")
  | x18 => APPEND_STRING (bs "\u0018")
  | x19 => APPEND_STRING (bs "\u0019")
  | x1a => APPEND_STRING (bs "\u001a")
  | x1b => APPEND_STRING (bs "\u001b")
  | x1c => APPEND_STRING (bs "\u001c")
  | x1d => APPEND_STRING (bs "\u001d")
  | x1e => APPEND_STRING (bs "\u001e")
  | x1f => APPEND_STRING (bs "\u001f")
  | c => put_char c
  end.

Definition json_serialize_string (string : bytes) : writer :=
  run (APPEND_STRING [x22] ;;; steps (map serialize_char (cstr string)) ;;; APPEND_STRING [x22]).

Definition NUM_BUF_SIZE : nat := 64.

(** [snprintf(num_buf, NUM_BUF_SIZE, "%1.17g", num)]: at most 63 characters and
    the terminator are stored, the length of the whole text is returned. With
    [buf == NULL] the text goes to the caller's scratch array. *)
Definition snprintf_number (num : double) : writer := λ m buf,
  let text := fmt17g num in
  let len := Z.of_nat (length text) in
  match buf with
  | None => Ok (m, len)
  | Some p => m' ← store m p (take (NUM_BUF_SIZE - 1) text ++ [x00]); Ok (m', len)
  end.

(** The loop over the array elements. *)
Fixpoint array_loop (is_pretty : bool) (level i count : nat) (ws : list writer)
  : outcome → res outcome :=
  match ws with
  | [] => Ok
  | w :: ws' =>
      when is_pretty (APPEND_INDENT (level + 1)) ;;;
      emit w ;;;
      when (bool_decide (i < count - 1)%nat) (APPEND_STRING (bs ",")) ;;;
      when is_pretty (APPEND_STRING [x0a]) ;;;
      array_loop is_pretty level (i + 1) count ws'
  end.

(** The loop over the object members: the value is looked up by its name. *)
Fixpoint object_loop (is_pretty : bool) (level i count : nat)
  (lookup : bytes → writer) (keys : list bytes) : outcome → res outcome :=
  match keys with
  | [] => Ok
  | key :: keys' =>
      when is_pretty (APPEND_INDENT (level + 1)) ;;;
      emit (json_serialize_string key) ;;;
      APPEND_STRING (bs ":") ;;;
      when is_pretty (APPEND_STRING (bs " ")) ;;;
      emit (lookup key) ;;;
      when (bool_decide (i < count - 1)%nat) (APPEND_STRING (bs ",")) ;;;
      when is_pretty (APPEND_STRING [x0a]) ;;;
      object_loop is_pretty level (i + 1) count lookup keys'
  end.

(** [json_serialize_to_buffer_r] on a non-NULL value; on NULL (a name that is
    not found) it returns -1. *)
Fixpoint json_serialize_to_buffer_r (value : JSON_Value) (level : nat) (is_pretty : bool) : writer :=
  match value with
  | JSONArray (MkArray items _) =>
      let count := length items in
      run (APPEND_STRING (bs "[") ;;;
           when (bool_decide (0 < count)%nat && is_pretty) (APPEND_STRING [x0a]) ;;;
           array_loop is_pretty level 0 count
             (map (λ v, json_serialize_to_buffer_r v (level + 1) is_pretty) items) ;;;
           when (bool_decide (0 < count)%nat && is_pretty) (APPEND_INDENT level) ;;;
           APPEND_STRING (bs "]"))
  | JSONObject (MkObject ps _) =>
      let count := length ps in
      let ws := map (λ p, (p.1, json_serialize_to_buffer_r p.2 (level + 1) is_pretty)) ps in
      run (APPEND_STRING (bs "{") ;;;
           when (bool_decide (0 < count)%nat && is_pretty) (APPEND_STRING [x0a]) ;;;
           object_loop is_pretty level 0 count
             (λ key, match getn_loop ws key (strlen key) with
                     | Some w => w
                     | None => λ m buf, Ok (m, -1)
                     end) (map fst ps) ;;;
           when (bool_decide (0 < count)%nat && is_pretty) (APPEND_INDENT level) ;;;
           APPEND_STRING (bs "}"))
  | JSONString string => run (emit (json_serialize_string string))
  | JSONBoolean b => run (APPEND_STRING (if b then bs "true" else bs "false"))
  | JSONNumber num => run (emit (snprintf_number num))
  | JSONNull => run (APPEND_STRING (bs "null"))
  end.

(** [json_serialization_size] and [json_serialization_size_pretty]. *)
Definition json_serialization_size (is_pretty : bool) (value : JSON_Value) : res Z :=
  r ← json_serialize_to_buffer_r value 0 is_pretty [] None;
  if r.2 <? 0 then Ok 0 else int_add r.2 1.

(** [json_serialize_to_buffer] and [json_serialize_to_buffer_pretty]: the
    buffer [buf] of [buf_size_in_bytes] cells. *)
Definition json_serialize_to_buffer (is_pretty : bool) (value : JSON_Value) (buf : bytes)
  (buf_size_in_bytes : Z) : res (bytes * JSON_Status) :=
  needed ← json_serialization_size is_pretty value;
  if bool_decide (needed = 0) || bool_decide (buf_size_in_bytes < needed) then Ok (buf, JSONFailure)
  else
    r ← json_serialize_to_buffer_r value 0 is_pretty buf (Some 0%nat);
    Ok (r.1, if r.2 <? 0 then JSONFailure else JSONSuccess).

(** [json_serialize_to_string] and [json_serialize_to_string_pretty]; [junk] is
    the content of the freshly allocated buffer. *)
Definition serialize_to_string (is_pretty : bool) (junk : nat → byte) (value : JSON_Value)
  : res (option bytes) :=
  buf_size_bytes ← json_serialization_size is_pretty value;
  if bool_decide (buf_size_bytes = 0) then Ok None
  else
    r ← json_serialize_to_buffer is_pretty value (map junk (seq 0 (Z.to_nat buf_size_bytes))) buf_size_bytes;
    Ok (match r.2 with JSONFailure => None | JSONSuccess => Some (cstr r.1) end).

Definition json_serialize_to_string := serialize_to_string false.
Definition json_serialize_to_string_pretty := serialize_to_string true.

(** ** Reference printer *)

Fixpoint indent (level : nat) : bytes :=
  match level with O => [] | S l => bs "    " ++ indent l end.

Definition line (is_pretty : bool) (level : nat) (text : bytes) (last : bool) : bytes :=
  (if is_pretty then indent level else []) ++ text ++
  (if last then [] else bs ",") ++ (if is_pretty then [x0a] else []).

(** Elements one after the other, with commas between them. *)
Fixpoint lines (is_pretty : bool) (level : nat) (texts : list bytes) : bytes :=
  match texts with
  | [] => []
  | t :: ts =>
      line is_pretty level t (match ts with [] => true | _ => false end) ++ lines is_pretty level ts
  end.

Definition enclose (is_pretty : bool) (level : nat) (open close : bytes) (texts : list bytes) : bytes :=
  let some := is_pretty && match texts with [] => false | _ => true end in
  open ++ (if some then [x0a] else []) ++ lines is_pretty (S level) texts ++
  (if some then indent level else []) ++ close.

Definition member (is_pretty : bool) (key text : bytes) : bytes :=
  quote key ++ bs ":" ++ (if is_pretty then bs " " else []) ++ text.

Fixpoint json_text (is_pretty : bool) (level : nat) (v : JSON_Value) : bytes :=
  match v with
  | JSONNull => bs "null"
  | JSONBoolean b => if b then bs "true" else bs "false"
  | JSONNumber d => fmt17g d
  | JSONString s => quote s
  | JSONArray (MkArray items _) =>
      enclose is_pretty level (bs "[") (bs "]") (map (json_text is_pretty (S level)) items)
  | JSONObject (MkObject ps _) =>
      enclose is_pretty level (bs "{") (bs "}")
        (map (λ p, member is_pretty p.1 (json_text is_pretty (S level) p.2)) ps)
  end.

(** Every number prints in less than [NUM_BUF_SIZE] characters. *)
Fixpoint numbers_fit (v : JSON_Value) : bool :=
  match v with
  | JSONNumber d => bool_decide (length (fmt17g d) < NUM_BUF_SIZE)%nat
  | JSONObject (MkObject ps _) => forallb (λ p, numbers_fit p.2) ps
  | JSONArray (MkArray items _) => forallb numbers_fit items
  | _ => true
  end.

Example print_example :
  json_serialize_to_string (λ _, x41)
    (JSONObject (MkObject [(bs "name", JSONString (bs "a/b")); (bs "open", JSONBoolean true);
       (bs "bids", JSONArray (MkArray [JSONNumber (of_int 12); JSONNumber (of_int (-3))] 2))] 16))
  = Ok (Some ([x7b;x22] ++ bs "name" ++ [x22;x3a;x22] ++ bs "a\/b" ++ [x22;x2c;x22] ++ bs "open" ++
              [x22] ++ bs ":true," ++ [x22] ++ bs "bids" ++ [x22] ++ bs ":[12,-3]}")).
Proof. vm_compute. reflexivity. Qed.

(** ** Both runs agree with the reference printer *)

Definition len (t : bytes) : Z := Z.of_nat (length t).

(** [f] appends [t]: without a buffer it only counts; with one it stores [t] at
    [buf], leaves what is before it alone, and needs one more cell than [t] has
    bytes. [z]: a NUL follows [t] afterwards. *)
Record emits (z : bool) (f : outcome → res outcome) (t : bytes) : Prop := {
  em_dry m total : 0 <= total → total + len t <= INT_MAX →
    f (Go m None total) = Ok (Go m None (total + len t));
  em_wet pre rest total : 0 <= total → total + len t <= INT_MAX →
    (length t < length rest)%nat →
    ∃ rest', f (Go (pre ++ rest) (Some (length pre)) total) =
             Ok (Go ((pre ++ t) ++ rest') (Some (length (pre ++ t))) (total + len t)) ∧
      length rest = (length t + length rest')%nat ∧ (z = true → peek rest' = x00) }.

Lemma len_app t u : len (t ++ u) = len t + len u.
Proof. unfold len. rewrite length_app. lia. Qed.
Lemma len_nonneg t : 0 <= len t.
Proof. unfold len. lia. Qed.

Lemma emits_weaken z f t : emits z f t → emits false f t.
Proof.
  intros [Hd Hw]. split; [done|]. intros pre rest total ? ? ?. destruct (Hw pre rest total) as (r & ? & ? & _); [done..|]. by exists r.
Qed.

Lemma emits_nil : emits false Ok [].
Proof.
  split; unfold len; simpl; intros.
  - by rewrite Z.add_0_r.
  - exists rest. by rewrite Z.add_0_r, app_nil_r.
Qed.

Lemma emits_seq z1 z2 f g t u : emits z1 f t → emits z2 g u → emits z2 (f ;;; g) (t ++ u).
Proof.
  intros [Hd1 Hw1] [Hd2 Hw2]. pose proof (len_nonneg t). pose proof (len_nonneg u).
  split; unfold andthen.
  - intros m total. rewrite len_app, Z.add_assoc. intros. rewrite Hd1 by lia. cbn. by rewrite Hd2 by lia.
  - intros pre rest total. rewrite len_app, Z.add_assoc, length_app. intros.
    destruct (Hw1 pre rest total) as (r1 & -> & Hl1 & _); [lia..|]. cbn [mbind res_bind].
    destruct (Hw2 (pre ++ t) r1 (total + len t)) as (r2 & -> & Hl2 & Hz); [lia..|].
    exists r2. rewrite <-(app_assoc pre t u). split_and!; [done|lia|done].
Qed.

Lemma emits_when z b f t : emits z f t → emits false (when b f) (if b then t else []).
Proof. intros H. destruct b; [by eapply emits_weaken|apply emits_nil]. Qed.

Lemma int_add_ok a b : INT_MIN <= a + b <= INT_MAX → int_add a b = Ok (a + b).
Proof. intros H. unfold int_add. by rewrite bool_decide_true. Qed.

(** A writer that stores [t] and a terminator. *)
Lemma emits_writer (w : writer) t :
  (∀ m, w m None = Ok (m, len t)) →
  (∀ m p, w m (Some p) = (m' ← store m p (t ++ [x00]); Ok (m', len t))) →
  emits true (emit w) t.
Proof.
  intros Hd Hw. pose proof (len_nonneg t). unfold INT_MAX in *. split; unfold emit.
  - intros. rewrite Hd. cbn. rewrite (proj2 (Z.ltb_ge _ _)) by lia.
    by rewrite int_add_ok by (unfold INT_MIN, INT_MAX in *; lia).
  - intros pre rest total ? ? Hl. rewrite Hw, store_seq by (rewrite length_app; simpl; lia).
    cbn [mbind res_bind]. rewrite (proj2 (Z.ltb_ge _ _)) by lia.
    rewrite int_add_ok by (unfold INT_MIN, INT_MAX in *; lia). cbn [mbind res_bind option_map].
    exists (x00 :: drop (length t + 1) rest). split_and!.
    + rewrite length_app. cbn [length]. rewrite <-!app_assoc. cbn [app].
      do 3 f_equal. rewrite length_app. unfold len. lia.
    + cbn [length]. rewrite length_drop. lia.
    + done.
Qed.

Lemma emits_append t : nul_free t → emits true (APPEND_STRING t) t.
Proof.
  intros Ht. apply emits_writer; intros; unfold append_string, strlen, len; by rewrite cstr_id.
Qed.

Lemma emits_run z f t : emits z f t → emits z (emit (run f)) t.
Proof.
  intros [Hd Hw]. pose proof (len_nonneg t). split; unfold emit, run.
  - intros. rewrite Hd by lia. cbn [mbind res_bind finish Z.add]. rewrite (proj2 (Z.ltb_ge _ _)) by lia.
    by rewrite int_add_ok by (unfold INT_MIN, INT_MAX in *; lia).
  - intros pre rest total ? ? Hl.
    destruct (Hw pre rest 0) as (r & -> & Hl' & Hz); [lia..|].
    cbn [mbind res_bind finish Z.add]. rewrite (proj2 (Z.ltb_ge _ _)) by lia.
    rewrite int_add_ok by (unfold INT_MIN, INT_MAX in *; lia). cbn [mbind res_bind option_map].
    exists r. split_and!; [|done..]. do 3 f_equal. rewrite length_app. unfold len. lia.
Qed.

Lemma emits_put_char c : emits false (put_char c) [c].
Proof.
  split; unfold len; cbn [length put_char].
  - intros. cbn. by rewrite int_add_ok by (unfold INT_MIN, INT_MAX in *; lia).
  - intros pre rest total ? ? Hl. rewrite store_seq by (simpl; lia). cbn [mbind res_bind].
    rewrite int_add_ok by (unfold INT_MIN, INT_MAX in *; lia).
    exists (drop 1 rest). split_and!; [|rewrite length_drop; lia|done].
    cbn. do 3 f_equal. rewrite length_app. simpl. lia.
Qed.

Lemma emits_steps fs ts : Forall2 (emits false) fs ts → emits false (steps fs) (concat ts).
Proof. induction 1; [apply emits_nil|]. by eapply emits_seq. Qed.

Lemma emits_char c : emits false (serialize_char c) (escape_char c).
Proof.
  destruct c; first [apply emits_put_char
                    |eapply emits_weaken, emits_append, (bool_decide_unpack _); vm_compute; done].
Qed.

Ltac append := apply emits_append, (bool_decide_unpack _); vm_compute; done.

Lemma emits_string s : emits true (emit (json_serialize_string s)) (quote s).
Proof.
  apply emits_run. apply (emits_seq true true _ _ [x22]); [append|].
  eapply emits_seq; [|append]. rewrite flat_map_concat_map. apply emits_steps.
  apply Forall2_fmap, Forall_Forall2_diag, list.Forall_forall. auto using emits_char.
Qed.

Lemma emits_indent level : emits false (APPEND_INDENT level) (indent level).
Proof.
  apply emits_run. induction level as [|l IH]; [apply emits_nil|].
  cbn [repeat steps indent]. eapply emits_seq; [append|done].
Qed.

Lemma emits_number d : (length (fmt17g d) < NUM_BUF_SIZE)%nat →
  emits true (emit (snprintf_number d)) (fmt17g d).
Proof.
  intros H. apply emits_writer; intros; [done|]. unfold snprintf_number.
  by rewrite take_ge by (unfold NUM_BUF_SIZE in *; lia).
Qed.

(** The end of a loop iteration, the comma and the line break, and the rest. *)
Lemma emits_line_end p i count n g (ts : list bytes) u :
  (S i + n)%nat = count → n = length ts → emits false g u →
  emits false (when (bool_decide (i < count - 1)%nat) (APPEND_STRING (bs ",")) ;;;
               when p (APPEND_STRING [x0a]) ;;; g)
    ((if (match ts with [] => true | _ => false end : bool) then [] else bs ",") ++
     (if p then [x0a] else []) ++ u).
Proof.
  intros Hn Hl Hg. eapply emits_seq; [|eapply emits_seq; [|exact Hg]].
  - replace (if (match ts with [] => true | _ => false end : bool) then [] else bs ",")
      with (if bool_decide (i < count - 1)%nat then bs "," else []).
    + eapply emits_when. append.
    + destruct ts; simpl in Hl; subst; [rewrite bool_decide_false by lia|rewrite bool_decide_true by lia]; done.
  - eapply emits_when. append.
Qed.

Lemma emits_array_loop p level ws ts : Forall2 (λ w t, emits true (emit w) t) ws ts →
  ∀ i count, (i + length ws)%nat = count →
  emits false (array_loop p level i count ws) (lines p (S level) ts).
Proof.
  induction 1 as [|w t ws ts Hw Hws IH]; intros i count Hc; [apply emits_nil|].
  cbn [array_loop lines]. unfold line. rewrite <-!app_assoc, Nat.add_1_r. simpl in Hc.
  eapply emits_seq; [eapply emits_when, emits_indent|]. eapply emits_seq; [exact Hw|].
  eapply emits_line_end; [|by eapply Forall2_length|apply IH; lia]. lia.
Qed.

Lemma emits_object_loop p level lookup kts :
  Forall (λ kt, emits true (emit (lookup kt.1)) kt.2) kts →
  ∀ i count, (i + length kts)%nat = count →
  emits false (object_loop p level i count lookup (map fst kts))
    (lines p (S level) (map (λ kt, member p kt.1 kt.2) kts)).
Proof.
  induction 1 as [|[k t] kts Hw Hws IH]; intros i count Hc; [apply emits_nil|].
  cbn [object_loop lines map fst snd] in *. unfold line, member. rewrite <-!app_assoc, Nat.add_1_r.
  simpl in Hc.
  eapply emits_seq; [eapply emits_when, emits_indent|]. eapply emits_seq; [apply emits_string|].
  eapply emits_seq; [append|]. eapply emits_seq; [eapply emits_when; append|].
  eapply emits_seq; [exact Hw|].
  eapply emits_line_end; [|by rewrite length_map|apply IH; lia]. lia.
Qed.

Lemma emits_enclose p level open close count texts f :
  nul_free open → nul_free close → count = length texts →
  emits false f (lines p (S level) texts) →
  emits true (emit (run (APPEND_STRING open ;;;
    when (bool_decide (0 < count)%nat && p) (APPEND_STRING [x0a]) ;;; f ;;;
    when (bool_decide (0 < count)%nat && p) (APPEND_INDENT level) ;;; APPEND_STRING close)))
    (enclose p level open close texts).
Proof.
  intros Ho Hc -> Hf. unfold enclose.
  replace (p && match texts with [] => false | _ => true end)
    with (bool_decide (0 < length texts)%nat && p) by (by destruct texts, p).
  apply emits_run. eapply emits_seq; [by apply emits_append|].
  eapply emits_seq; [eapply emits_when; append|]. eapply emits_seq; [exact Hf|].
  eapply emits_seq; [eapply emits_when, emits_indent|]. by apply emits_append.
Qed.

(** Looking a member up by its name finds that member. *)
Lemma getn_loop_member {W} (f : JSON_Value → W) ps k v : wf_pairs ps → (k, v) ∈ ps →
  getn_loop (map (λ p, (p.1, f p.2)) ps) k (strlen k) = Some (f v).
Proof.
  intros [Hnd Hnf _] Hin.
  assert (nul_free k) as Hk.
  { rewrite list.Forall_forall in Hnf. apply Hnf, list_elem_of_fmap. by exists (k, v). }
  rewrite getn_loop_map. unfold strlen. rewrite cstr_id by done.
  by rewrite (proj2 (getn_loop_Some ps k v Hnf Hnd Hk) Hin).
Qed.

Lemma emits_value v : wf_value v = true → numbers_fit v = true → ∀ level p,
  emits true (emit (json_serialize_to_buffer_r v level p)) (json_text p level v).
Proof.
  induction v as [|s|d|ps cap IH|items cap IH|b] using JSON_Value_ind;
    intros Hwf Hfit level p; cbn [json_serialize_to_buffer_r json_text].
  - apply emits_run. append.
  - apply emits_run, emits_string.
  - apply emits_run, emits_number. by apply bool_decide_eq_true in Hfit.
  - apply wf_value_object in Hwf as [_ Hwf]. pose proof (wf_values _ Hwf) as Hv.
    cbn [numbers_fit] in Hfit. rewrite forallb_Forall in Hfit.
    apply emits_enclose; [forall_list..|by rewrite length_map|].
    set (kts := map (λ q, (q.1, json_text p (S level) q.2)) ps).
    replace (map fst ps) with (map fst kts) by (unfold kts; by rewrite map_map).
    replace (map _ ps) with (map (λ kt, member p kt.1 kt.2) kts) by (unfold kts; by rewrite map_map).
    apply emits_object_loop; [|unfold kts; by rewrite length_map].
    apply Forall_fmap, list.Forall_forall. intros [k v] Hin. cbn [fst snd compose].
    rewrite list.Forall_forall in IH, Hv, Hfit. rewrite Nat.add_1_r.
    rewrite (getn_loop_member (λ v, json_serialize_to_buffer_r v (S level) p) ps k v Hwf Hin).
    by apply (IH (k, v) Hin); [apply (Hv (k, v))|apply (Hfit (k, v))].
  - apply wf_value_array in Hwf as [_ Hv].
    cbn [numbers_fit] in Hfit. rewrite forallb_Forall in Hfit.
    apply emits_enclose; [forall_list..|by rewrite length_map|].
    apply emits_array_loop; [|by rewrite length_map].
    apply Forall2_fmap, Forall_Forall2_diag, list.Forall_forall. intros v Hin.
    rewrite list.Forall_forall in IH, Hv, Hfit. rewrite Nat.add_1_r. auto.
  - apply emits_run. destruct b; append.
Qed.

(** ** The text has no NUL *)

Lemma nul_free_app s t : nul_free (s ++ t) ↔ nul_free s ∧ nul_free t.
Proof. apply Forall_app. Qed.

Lemma digit_nz n : digit (n mod 10) ≠ x00.
Proof.
  intros H. apply (f_equal b2z) in H. unfold digit in H. rewrite b2z_z2b in H.
  change (b2z x00) with 0 in H. zdm.
Qed.

Lemma dec_pad_nul_free w n : nul_free (dec_pad w n).
Proof.
  revert n. induction w as [|w IH]; intros n; cbn [dec_pad]; [constructor|].
  apply nul_free_app. split; [apply IH|]. repeat constructor. apply digit_nz.
Qed.

Lemma strip_zeros_nul_free l : nul_free l → nul_free (strip_zeros l).
Proof.
  induction 1 as [|c l Hc _ IH]; cbn [strip_zeros]; [constructor|].
  destruct (strip_zeros l); [|by constructor]. case_bool_decide; repeat constructor; done.
Qed.

Lemma with_fraction_nul_free ip l : nul_free ip → nul_free l → nul_free (with_fraction ip l).
Proof.
  intros Hi Hl. unfold with_fraction. pose proof (strip_zeros_nul_free l Hl) as H.
  destruct (strip_zeros l); [done|]. apply nul_free_app. split; [done|by constructor].
Qed.

Ltac nulf := repeat first
  [apply dec_pad_nul_free|apply with_fraction_nul_free|apply nul_free_app; split
  |case_match|forall_list].

Lemma fmt17g_nul_free d : nul_free (fmt17g d).
Proof. destruct d; unfold fmt17g, fmt_digits, dec; nulf. Qed.

Lemma quote_nul_free s : nul_free (quote s).
Proof.
  unfold quote. constructor; [done|]. apply nul_free_app. split; [|forall_list].
  induction (cstr s) as [|c l IH]; [constructor|]. apply nul_free_app. split; [|done].
  destruct c; apply (bool_decide_unpack _); vm_compute; done.
Qed.

Lemma indent_nul_free n : nul_free (indent n).
Proof. induction n; [constructor|]. apply nul_free_app. split; [forall_list|done]. Qed.

Lemma enclose_nul_free p level open close texts : nul_free open → nul_free close →
  Forall nul_free texts → nul_free (enclose p level open close texts).
Proof.
  intros Ho Hc Ht. unfold enclose. rewrite !nul_free_app. split_and!; try done.
  - case_match; forall_list.
  - induction Ht as [|t ts Ht _ IH]; [constructor|]. unfold lines, line; fold lines.
    rewrite !nul_free_app. split_and!; try done; case_match; auto using indent_nul_free; forall_list.
  - case_match; [apply indent_nul_free|constructor].
Qed.

Lemma json_text_nul_free v : ∀ p level, nul_free (json_text p level v).
Proof.
  induction v as [|s|d|ps cap IH|items cap IH|b] using JSON_Value_ind; intros p level;
    cbn [json_text].
  - forall_list.
  - apply quote_nul_free.
  - apply fmt17g_nul_free.
  - apply enclose_nul_free; [forall_list..|]. apply Forall_fmap. eapply list.Forall_impl; [exact IH|].
    intros [k v] Hv. unfold compose, member; cbn [fst snd]. rewrite !nul_free_app. split_and!; auto using quote_nul_free.
    + forall_list.
    + case_match; forall_list.
  - apply enclose_nul_free; [forall_list..|]. apply Forall_fmap. eapply list.Forall_impl; [exact IH|].
    intros v Hv. apply Hv.
  - destruct b; forall_list.
Qed.

(** ** The serialization API *)

Lemma emits_top z (w : writer) t : emits z (emit w) t → len t < INT_MAX →
  w [] None = Ok ([], len t).
Proof.
  intros [Hd _] Hl. pose proof (len_nonneg t).
  specialize (Hd [] 0 ltac:(lia) ltac:(lia)). unfold emit in Hd.
  destruct (w [] None) as [[m r]| |]; cbn in Hd; [|done..].
  destruct (Z.ltb_spec r 0); [done|]. unfold int_add in Hd. case_bool_decide; cbn in Hd; [|done].
  simplify_eq. repeat f_equal; lia.
Qed.

Lemma emits_top_wet (w : writer) t m : emits true (emit w) t → len t < INT_MAX →
  (length t < length m)%nat →
  ∃ rest, w m (Some 0%nat) = Ok (t ++ x00 :: rest, len t) ∧ length m = (length t + S (length rest))%nat.
Proof.
  intros [_ Hw] Hl Hm. pose proof (len_nonneg t).
  destruct (Hw [] m 0) as (rest & E & Hlen & Hz); [lia..|]. cbn in E. unfold emit in E.
  destruct (w m (Some 0%nat)) as [[m' r]| |]; cbn in E; [|done..].
  destruct (Z.ltb_spec r 0); [done|]. unfold int_add in E. case_bool_decide; cbn in E; [|done].
  destruct rest as [|c rest]; [simpl in Hlen; lia|]. simpl in Hz. rewrite Hz in * by done.
  exists rest. simplify_eq. split; [|done]. repeat f_equal; lia.
Qed.

Lemma json_serialization_size_text p v : wf_value v = true → numbers_fit v = true →
  len (json_text p 0 v) < INT_MAX →
  json_serialization_size p v = Ok (len (json_text p 0 v) + 1).
Proof.
  intros Hv Hf Hl. unfold json_serialization_size. pose proof (len_nonneg (json_text p 0 v)).
  rewrite (emits_top true _ (json_text p 0 v)) by auto using emits_value. cbn.
  rewrite (proj2 (Z.ltb_ge _ _)) by lia. apply int_add_ok. unfold INT_MIN, INT_MAX in *. lia.
Qed.

(** C25: [json_serialize_to_buffer] (plain and pretty) on a well-formed value
    whose text fits in an [int]: with a buffer of the stated size it stores the
    text of the reference printer and a NUL at its start, never outside the
    buffer, and leaves the rest of the buffer alone in length; with a buffer
    that is too small it fails and stores nothing. *)
Theorem json_serialize_to_buffer_spec p v buf : wf_value v = true → numbers_fit v = true →
  len (json_text p 0 v) < INT_MAX →
  (len (json_text p 0 v) < len buf → ∃ rest,
     json_serialize_to_buffer p v buf (len buf) = Ok (json_text p 0 v ++ x00 :: rest, JSONSuccess) ∧
     len (json_text p 0 v ++ x00 :: rest) = len buf) ∧
  (len buf <= len (json_text p 0 v) →
     json_serialize_to_buffer p v buf (len buf) = Ok (buf, JSONFailure)).
Proof.
  intros Hv Hf Hl. unfold json_serialize_to_buffer.
  rewrite json_serialization_size_text by done. cbn [mbind res_bind].
  pose proof (len_nonneg (json_text p 0 v)). rewrite (bool_decide_false (_ + 1 = 0)) by lia.
  split; intros Hb.
  - rewrite bool_decide_false by lia. cbn [orb].
    destruct (emits_top_wet (json_serialize_to_buffer_r v 0 p) (json_text p 0 v) buf)
      as (rest & -> & Hlen); [by apply emits_value|done|unfold len in *; lia|].
    exists rest. cbn. rewrite (proj2 (Z.ltb_ge _ _)) by lia. split; [done|].
    rewrite len_app. unfold len in *. simpl. lia.
  - by rewrite bool_decide_true by lia.
Qed.

Lemma serialize_string_text p junk v : wf_value v = true → numbers_fit v = true →
  len (json_text p 0 v) < INT_MAX →
  serialize_to_string p junk v = Ok (Some (json_text p 0 v)).
Proof.
  intros Hv Hf Hl. unfold serialize_to_string.
  rewrite json_serialization_size_text by done. cbn [mbind res_bind].
  pose proof (len_nonneg (json_text p 0 v)). rewrite (bool_decide_false (_ = 0)) by lia.
  set (buf := map junk _).
  assert (len buf = len (json_text p 0 v) + 1) as Hb
    by (unfold len, buf; rewrite length_map, length_seq; unfold len in *; lia).
  unfold json_serialize_to_buffer. rewrite json_serialization_size_text by done. cbn [mbind res_bind].
  rewrite !bool_decide_false by lia. cbn [orb].
  destruct (emits_top_wet (json_serialize_to_buffer_r v 0 p) (json_text p 0 v) buf)
    as (rest & -> & Hlen); [by apply emits_value|done|unfold len in *; lia|].
  cbn. rewrite (proj2 (Z.ltb_ge _ _)) by lia.
  by rewrite cstr_app_nul by apply json_text_nul_free.
Qed.

(** [json_serialize_to_string] and its pretty variant return exactly the
    text of the reference printer, whatever the allocated memory contained. *)
Theorem serialize_to_string_text p junk v : wf_value v = true → numbers_fit v = true →
  len (json_text p 0 v) < INT_MAX →
  serialize_to_string p junk v = Ok (Some (json_text p 0 v)).
Proof. apply serialize_string_text. Qed.

(** ** Concrete runs *)

(** An object with a string that needs escapes, a number and a nested array. *)
Definition sample_value : JSON_Value :=
  JSONObject (MkObject
    [(bs "name", JSONString [x61; x0a; x22]); (bs "value", JSONNumber (of_int 42));
     (bs "list", JSONArray (MkArray [JSONNull; JSONBoolean true] 2))] 4).

Lemma json_serialize_to_buffer_spec_witness : len (json_text true 0 sample_value) = 88 ∧
  (∃ rest, json_serialize_to_buffer true sample_value (repeat xff 100) 100 =
     Ok (json_text true 0 sample_value ++ x00 :: rest, JSONSuccess) ∧
     len (json_text true 0 sample_value ++ x00 :: rest) = 100) ∧
  json_serialize_to_buffer true sample_value (repeat xff 70) 70 = Ok (repeat xff 70, JSONFailure).
Proof.
  split; [vm_compute; reflexivity|]. split.
  - destruct (json_serialize_to_buffer_spec true sample_value (repeat xff 100)) as [H _];
      [vm_compute; reflexivity..|]. apply H. vm_compute. reflexivity.
  - destruct (json_serialize_to_buffer_spec true sample_value (repeat xff 70)) as [_ H];
      [vm_compute; reflexivity..|]. apply H. vm_compute. discriminate.
Defined.

Lemma serialize_to_string_text_witness :
  serialize_to_string false (λ _, xff) sample_value = Ok (Some (json_text false 0 sample_value)).
Proof. apply serialize_to_string_text; vm_compute; reflexivity. Defined.
End ParsonPrint.
