(* ===== verification/NumberText.v ===== *)
(** * The length of a printed number (src/common/json/parson.c, [FLOAT_FORMAT] and
    [NUM_BUF_SIZE])

    The serializer prints numbers with "%1.17g" into a buffer of 64 bytes; a
    comment says that 25 bytes are enough. The theorem: every double prints in
    at most 24 characters, and one with that many exists, so the comment counts
    the terminator. *)
From Stdlib Require Import SpecFloat.
From S2P Require Import Prelude Cdouble Parson ParsonPrint.
Import Cdouble Parson ParsonPrint.

Module NumberText.

(** ** Lengths of digits *)

Lemma dec_pad_length w n : length (dec_pad w n) = w.
Proof. revert n. induction w as [|w IH]; intros n; [done|]. cbn [dec_pad]. rewrite length_app, IH. simpl. lia. Qed.
Lemma dec_length n : length (dec n) = ndigits n.
Proof. apply dec_pad_length. Qed.

(** A number below a power of ten has at most that many digits. *)
Lemma ndigits_le n k : (0 <= n < 10 ^ Z.of_nat k)%Z → 1 <= k → ndigits n <= k.
Proof.
  intros Hn Hk. destruct (ndigits_spec n) as (_ & [->|H] & _); [lia|done|]. apply Nat.nlt_ge. intros Hgt.
  assert (10 ^ Z.of_nat k <= 10 ^ (Z.of_nat (ndigits n) - 1))%Z by (apply Z.pow_le_mono_r; lia). lia.
Qed.
Lemma strip_zeros_length l : length (strip_zeros l) <= length l.
Proof.
  induction l as [|c l IH]; [done|]. cbn [strip_zeros]. destruct (strip_zeros l); [case_bool_decide; cbn; lia|cbn in *; lia].
Qed.
Lemma with_fraction_length ip frac : length (with_fraction ip frac) <= length ip + 1 + length frac.
Proof.
  unfold with_fraction. pose proof (strip_zeros_length frac). destruct (strip_zeros frac); [lia|].
  rewrite length_app. cbn [length] in *. lia.
Qed.

(** ** Seventeen significant digits *)

Local Open Scope Z_scope.

Lemma div_half_even_le n d b : 0 < d → 0 <= n → n < b * d → div_half_even n d <= b.
Proof.
  intros Hd Hn Hb. unfold div_half_even. assert (n / d < b) by (apply Z.div_lt_upper_bound; lia).
  repeat case_match; lia.
Qed.
Lemma div_half_even_nonneg n d : 0 < d → 0 <= n → 0 <= div_half_even n d.
Proof. intros Hd Hn. unfold div_half_even. pose proof (Z.div_pos n d Hn Hd). repeat case_match; lia. Qed.

(** [num / den < 10 ^ (exponent10 + 1)]. *)
Lemma exponent10_upper num den : 0 < num → 0 < den →
  let x := exponent10 num den in
  if 0 <=? x + 1 then num < den * 10 ^ (x + 1) else num * 10 ^ (- (x + 1)) < den.
Proof.
  intros Hn Hd x. destruct (ndigits_spec num) as (Hn1 & _ & Hn3); [lia|]. destruct (ndigits_spec den) as (_ & [?|Hd2] & Hd3); [lia..|].
  set (a := Z.of_nat (ndigits num)) in *. set (b := Z.of_nat (ndigits den)) in *.
  assert (1 <= a ∧ 1 <= b) as [Ha Hb] by lia. unfold exponent10 in x. fold a b in x.
  destruct (ge_pow10 num den (a - b)) eqn:E; subst x.
  - destruct (Z.leb_spec 0 (a - b + 1)).
    + eapply Z.lt_le_trans; [exact Hn1|]. transitivity (10 ^ (b - 1) * 10 ^ (a - b + 1)); [|nia].
      rewrite <-Z.pow_add_r by lia. apply Z.pow_le_mono_r; lia.
    + eapply Z.lt_le_trans; [|exact Hd2]. eapply Z.lt_le_trans; [apply Z.mul_lt_mono_pos_r; [apply Z.pow_pos_nonneg; lia|exact Hn1]|].
      rewrite <-Z.pow_add_r by lia. apply Z.pow_le_mono_r; lia.
  - replace (a - b - 1 + 1) with (a - b) by lia. unfold ge_pow10, pow10 in E.
    destruct (Z.leb_spec 0 (a - b)); apply Z.leb_gt in E; lia.
Qed.

Lemma sig17_bound num den : 0 < num → 0 < den →
  let '(g, x) := sig17 num den in 0 <= g < 10 ^ 17 ∧ (x = exponent10 num den ∨ x = exponent10 num den + 1).
Proof.
  intros Hn Hd. unfold sig17. pose proof (exponent10_upper num den Hn Hd) as Hx. cbn zeta in Hx.
  set (x := exponent10 num den) in *.
  set (g := if 0 <=? 16 - x then div_half_even (num * pow10 (16 - x)) den else div_half_even num (den * pow10 (- (16 - x)))).
  assert (0 <= g <= 10 ^ 17) as Hg.
  { subst g. unfold pow10. destruct (Z.leb_spec 0 (16 - x)).
    - assert (0 < 10 ^ (16 - x)) by (apply Z.pow_pos_nonneg; lia). split; [apply div_half_even_nonneg; nia|].
      apply div_half_even_le; [lia|nia|].
      destruct (Z.leb_spec 0 (x + 1)).
      + replace (10 ^ 17) with (10 ^ (x + 1) * 10 ^ (16 - x)) by (rewrite <-Z.pow_add_r by lia; f_equal; lia). nia.
      + replace (16 - x) with (17 + - (x + 1)) by lia. rewrite Z.pow_add_r by lia. nia.
    - assert (0 < 10 ^ (- (16 - x))) by (apply Z.pow_pos_nonneg; lia). split; [apply div_half_even_nonneg; nia|].
      apply div_half_even_le; [nia|lia|]. destruct (Z.leb_spec 0 (x + 1)); [|lia].
      replace (x + 1) with (17 + - (16 - x)) in Hx by lia. rewrite Z.pow_add_r in Hx by lia. nia. }
  change (pow10 17) with (10 ^ 17). change (pow10 16) with (10 ^ 16). destruct (Z.eqb_spec g (10 ^ 17)); split; lia.
Qed.

(** Numerators and denominators of doubles have less than 400 digits. *)
Definition huge : Z := 10 ^ 400.

Lemma exponent10_bound num den : 0 < num < huge → 0 < den < huge → -400 <= exponent10 num den < 400.
Proof.
  unfold huge. intros Hn Hd. assert (ndigits num <= 400)%nat by (apply ndigits_le; lia).
  assert (ndigits den <= 400)%nat by (apply ndigits_le; lia).
  destruct (ndigits_spec num) as (_ & _ & ?), (ndigits_spec den) as (_ & _ & ?); [lia..|].
  unfold exponent10. destruct (ge_pow10 _ _ _); lia.
Qed.

Lemma fmt_digits_length num den : 0 < num < huge → 0 < den < huge → (length (fmt_digits num den) <= 23)%nat.
Proof.
  intros Hn Hd. pose proof (exponent10_bound num den Hn Hd) as Hx. unfold fmt_digits.
  pose proof (sig17_bound num den ltac:(lia) ltac:(lia)) as Hg. destruct (sig17 num den) as [g x]. destruct Hg as [Hg Hxx].
  unfold pow10. destruct ((-4 <=? x) && (x <? 17)) eqn:E.
  - apply andb_true_iff in E as [E1%Z.leb_le E2%Z.ltb_lt]. destruct (Z.leb_spec 0 x).
    + eapply Nat.le_trans; [apply with_fraction_length|]. rewrite dec_length, dec_pad_length.
      assert (ndigits (g / 10 ^ (16 - x)) <= Z.to_nat (x + 1))%nat; [|lia]. apply ndigits_le; [|lia].
      assert (0 < 10 ^ (16 - x)) by (apply Z.pow_pos_nonneg; lia). split; [apply Z.div_pos; lia|].
      apply Z.div_lt_upper_bound; [lia|]. rewrite Z2Nat.id, <-Z.pow_add_r by lia. replace (16 - x + (x + 1)) with 17 by lia. lia.
    + eapply Nat.le_trans; [apply with_fraction_length|]. rewrite dec_pad_length. cbn [length]. lia.
  - rewrite !length_app. cbn [length].
    assert (length (with_fraction (dec (g / 10 ^ 16)) (dec_pad 16 (g mod 10 ^ 16))) <= 18)%nat.
    { eapply Nat.le_trans; [apply with_fraction_length|]. rewrite dec_length, dec_pad_length.
      assert (ndigits (g / 10 ^ 16) <= 1)%nat; [|lia]. apply ndigits_le; [|lia]. change (10 ^ Z.of_nat 1) with 10.
      split; [apply Z.div_pos; lia|]. apply Z.div_lt_upper_bound; lia. }
    assert (length (if (Z.abs x <? 10)%Z then dec_pad 2 (Z.abs x) else dec (Z.abs x)) <= 3)%nat; [|lia].
    destruct (Z.abs x <? 10); [rewrite dec_pad_length; lia|]. rewrite dec_length. apply ndigits_le; [|lia].
    change (10 ^ Z.of_nat 3) with 1000. lia.
Qed.

(** ** Doubles *)

Lemma digits2_pos_bound m : Z.pos m < 2 ^ Z.pos (digits2_pos m).
Proof.
  induction m as [m IH|m IH|]; cbn [digits2_pos]; [..|done]; rewrite Pos2Z.inj_succ, Z.pow_succ_r by lia; lia.
Qed.

Lemma valid_finite s m e : valid_binary prec emax (S754_finite s m e) = true →
  Z.pos m < 2 ^ 53 ∧ -1074 <= e <= 971.
Proof.
  cbn [valid_binary]. unfold bounded, canonical_mantissa, fexp, emin, prec, emax.
  intros [H1%Z.eqb_eq H2%Z.leb_le]%andb_true_iff. pose proof (digits2_pos_bound m) as Hm.
  split; [|lia]. eapply Z.lt_le_trans; [exact Hm|]. apply Z.pow_le_mono_r; lia.
Qed.

Lemma pow2_huge k : 0 <= k <= 1074 → 0 < 2 ^ k < huge.
Proof.
  intros Hk. split; [apply Z.pow_pos_nonneg; lia|]. apply Z.le_lt_trans with (2 ^ 1074); [apply Z.pow_le_mono_r; lia|].
  vm_compute. reflexivity.
Qed.

Lemma number_text_short d : valid_binary prec emax d = true → (length (fmt17g d) <= 24)%nat.
Proof.
  intros Hv.
  destruct d as [s|s| |s m e]; [by destruct s; cbn; lia..|cbn; lia|].
  apply valid_finite in Hv as [Hm He]. cbn [fmt17g]. rewrite length_app.
  assert (length (if s then [x2d] else []) <= 1)%nat by (by destruct s; cbn; lia).
  cut (length (if (0 <=? e)%Z then fmt_digits (Z.pos m * 2 ^ e)%Z 1%Z else fmt_digits (Z.pos m) (2 ^ (- e))%Z) <= 23)%nat; [lia|].
  destruct (Z.leb_spec 0 e).
  - apply fmt_digits_length; [|by vm_compute]. pose proof (pow2_huge 1024 ltac:(lia)). assert (0 < 2 ^ e) by (apply Z.pow_pos_nonneg; lia).
    split; [lia|]. apply Z.lt_le_trans with (2 ^ 53 * 2 ^ e); [nia|]. rewrite <-Z.pow_add_r by lia.
    transitivity (2 ^ 1024); [apply Z.pow_le_mono_r; lia|lia].
  - apply fmt_digits_length; [|apply pow2_huge; lia]. pose proof (pow2_huge 53 ltac:(lia)). lia.
Qed.

(** C26: every double, infinities and NaN included, prints with "%1.17g" in at most
    24 characters, so that with its terminator it needs the 25 bytes the comment
    at [NUM_BUF_SIZE] allows for, and fits the buffer. *)
Theorem number_text_bounded d : valid_binary prec emax d = true →
  (length (fmt17g d) <= 24)%nat ∧ (length (fmt17g d) < NUM_BUF_SIZE)%nat.
Proof. intros H%number_text_short. unfold NUM_BUF_SIZE. lia. Qed.

(** Values whose numbers are doubles, as all are. *)
Fixpoint valid_numbers (v : JSON_Value) : bool :=
  match v with
  | JSONNumber d => valid_binary prec emax d
  | JSONObject (MkObject ps _) => forallb (λ p, valid_numbers p.2) ps
  | JSONArray (MkArray items _) => forallb valid_numbers items
  | _ => true
  end.

(** The condition of the serializer's theorems always holds. *)
Lemma valid_numbers_fit v : valid_numbers v = true → numbers_fit v = true.
Proof.
  induction v as [|s|d|ps cap IH|items cap IH|b] using JSON_Value_ind; try done; cbn [valid_numbers numbers_fit].
  - intros H%number_text_short. apply bool_decide_eq_true. unfold NUM_BUF_SIZE. lia.
  - rewrite !forallb_Forall, !list.Forall_forall in *. auto.
  - rewrite !forallb_Forall, !list.Forall_forall in *. auto.
Qed.

(** The negative of the largest double has 24 characters. *)
Definition lowest : double := S754_finite true 9007199254740991 971.
Lemma number_text_bounded_witness :
  fmt17g lowest = bs "-1.7976931348623157e+308" ∧ length (fmt17g lowest) = 24%nat ∧ (length (fmt17g lowest) < NUM_BUF_SIZE)%nat.
Proof.
  split; [vm_compute; reflexivity|]. split; [vm_compute; reflexivity|]. by apply (number_text_bounded lowest).
Defined.
End NumberText.
