(* ===== verification/ParsonRoundtrip.v ===== *)
(** * parson.c: reading back what the serializer wrote

    The parser applied to the text of a value, plain or pretty, returns the
    value with its containers trimmed to their size, for values whose numbers
    are integers below 2^53 (all that the chaincode stores) and whose nesting
    the parser accepts. *)
From S2P Require Import Prelude Utils Cdouble ParsonText Parson ParsonParse ParsonPrint.
Import Cdouble ParsonText Parson ParsonParse ParsonPrint.

Module ParsonRoundtrip.

(** The value the parser builds: containers with no spare capacity, strings up
    to their first NUL. *)
Fixpoint trim (v : JSON_Value) : JSON_Value :=
  match v with
  | JSONString s => JSONString (cstr s)
  | JSONObject (MkObject ps _) => JSONObject (MkObject (map (λ p, (p.1, trim p.2)) ps) (length ps))
  | JSONArray (MkArray items _) => JSONArray (MkArray (map trim items) (length items))
  | v => v
  end.

Fixpoint numbers (v : JSON_Value) : list double :=
  match v with
  | JSONNumber d => [d]
  | JSONObject (MkObject ps _) => flat_map (λ p, numbers p.2) ps
  | JSONArray (MkArray items _) => flat_map numbers items
  | _ => []
  end.

(** All numbers are integers a double represents exactly. *)
Definition int_numbers (v : JSON_Value) : Prop :=
  Forall (λ d, ∃ n, (Z.abs n < 2 ^ 53)%Z ∧ d = of_int n) (numbers v).

(** ** White space and first characters *)

Lemma skip_app w s : Forall (λ c, isspace c = true) w → skip_whitespaces (w ++ s) = skip_whitespaces s.
Proof. induction 1 as [|c w Hc _ IH]; [done|]. cbn. by rewrite Hc. Qed.

Lemma skip_stop c s : isspace c = false → skip_whitespaces (c :: s) = c :: s.
Proof. intros H. cbn. by rewrite H. Qed.

Definition blank (s : bytes) : Prop := Forall (λ c, isspace c = true) s.

Lemma indent_blank n : blank (indent n).
Proof. induction n; [constructor|]. apply Forall_app. split; [forall_list|done]. Qed.

(** A character a value's text starts with. *)
Definition value_head (c : byte) : bool :=
  bool_decide (c ∈ bs "[{tfn-0123456789") || bool_decide (c = x22).

Lemma value_head_facts c : value_head c = true →
  isspace c = false ∧ c ≠ x00 ∧ c ≠ xef ∧ c ≠ x5d.
Proof. intros H. split_and!; revert H; byte_cases c. Qed.

Lemma int_text_head n : ∃ c t, int_text n = c :: t ∧ starts_number c = true.
Proof.
  unfold int_text. destruct (Z.ltb_spec n 0); [by eexists _, _|]. cbn [app].
  destruct (dec_head (Z.abs n)) as (d & l & -> & Hd); [lia|].
  eexists _, _; split; [done|]. unfold starts_number.
  by rewrite (proj1 (digit_value d Hd)), orb_true_r.
Qed.

Lemma starts_number_head c : starts_number c = true → value_head c = true.
Proof. byte_cases c. Qed.

Lemma json_text_head v p level : int_numbers v →
  ∃ c t, json_text p level v = c :: t ∧ value_head c = true.
Proof.
  destruct v as [|s|d|[ps cap]|[items cap]|b]; intros Hn; try (by eexists _, _).
  - apply Forall_cons_iff in Hn as [(n & Hn & ->) _]. cbn [json_text]. rewrite fmt17g_int by done.
    destruct (int_text_head n) as (c & t & -> & Hc). eauto using starts_number_head.
  - destruct b; by eexists _, _.
Qed.

(** ** Leaves *)

Lemma dec_pad_cons w n : (0 <= n)%Z →
  dec_pad (S w) n = digit ((n / 10 ^ Z.of_nat w) mod 10) :: dec_pad w n.
Proof.
  revert n. induction w as [|w IH]; intros n Hn; [by cbn; rewrite Z.div_1_r|].
  change (dec_pad (S (S w)) n) with (dec_pad (S w) (n / 10) ++ [digit (n mod 10)]).
  rewrite IH by zdm. cbn [app]. f_equal. do 2 f_equal.
  rewrite Z.div_div, Nat2Z.inj_succ, Z.pow_succ_r; lia.
Qed.

(** No leading zero. *)
Lemma dec_pos_head n : (0 < n)%Z → ∃ d l, dec n = digit d :: l ∧ (1 <= d < 10)%Z.
Proof.
  intros Hn. destruct (ndigits_spec n) as (H1 & [->|H2] & H3); [lia..|].
  unfold dec. destruct (ndigits n) as [|w]; [lia|]. rewrite dec_pad_cons by lia.
  eexists _, _; split; [done|].
  replace (Z.of_nat (S w) - 1)%Z with (Z.of_nat w) in H2 by lia.
  rewrite Nat2Z.inj_succ, Z.pow_succ_r in H1 by lia.
  assert (1 <= n / 10 ^ Z.of_nat w < 10)%Z.
  { split; [apply Z.div_le_lower_bound; lia|apply Z.div_lt_upper_bound; lia]. }
  rewrite Z.mod_small by lia. lia.
Qed.

Lemma digit_not_zero d : (1 <= d < 10)%Z → digit d ≠ x30.
Proof.
  intros Hd H. apply (f_equal b2z) in H. unfold digit in H. rewrite b2z_z2b, Z.mod_small in H by lia.
  change (b2z x30) with 48%Z in H. lia.
Qed.

Lemma int_text_plain n : Forall (λ c, strchr_xX c = false) (int_text n).
Proof.
  unfold int_text. apply Forall_app. split; [destruct (n <? 0)%Z; forall_list|].
  eapply list.Forall_impl; [apply (dec_pad_digits _ (Z.abs n)); lia|]. intros c. byte_cases c.
Qed.

Lemma strncmp_minus_zero a b s : strncmp_eq (a :: b :: s) (bs "-0") 2 = true → a = x2d ∧ b = x30.
Proof. cbn. repeat case_bool_decide; subst; by simplify_eq. Qed.

Lemma is_decimal_plain t rest : Forall (λ c, strchr_xX c = false) t →
  (length t <= 1 ∨ at_ t 0 ≠ x30) → (length t <= 2 ∨ at_ t 0 ≠ x2d ∨ at_ t 1 ≠ x30) →
  is_decimal (t ++ rest) (length t) = true.
Proof.
  intros Hf H0 H1. assert (∀ i, i < length t → at_ (t ++ rest) i = at_ t i) as Hat.
  { intros i Hi. unfold at_. by rewrite app_nth1. }
  unfold is_decimal. case_match eqn:E1.
  { rewrite !andb_true_iff, !bool_decide_eq_true in E1. destruct_and!.
    rewrite Hat in * by lia. naive_solver lia. }
  case_match eqn:E2.
  { rewrite !andb_true_iff, !bool_decide_eq_true in E2. destruct_and!.
    destruct t as [|a [|b t]]; [simpl in *; lia..|].
    destruct (strncmp_minus_zero a b (t ++ rest)) as [-> ->]; [done|].
    destruct H1 as [?|[?|?]]; [lia|done..]. }
  apply forallb_forall. intros i Hi%in_seq. rewrite Hat by lia. apply negb_true_iff.
  rewrite list.Forall_forall in Hf. apply Hf. unfold at_. apply list_elem_of_In, nth_In. lia.
Qed.

Lemma is_decimal_int_text n rest : is_decimal (int_text n ++ rest) (length (int_text n)) = true.
Proof.
  apply is_decimal_plain; [apply int_text_plain|..]; unfold int_text.
  - destruct (Z.ltb_spec n 0); [by right|]. destruct (decide (n = 0%Z)) as [->|]; [left; vm_compute; lia|].
    right. destruct (dec_pos_head (Z.abs n)) as (d & l & -> & Hd); [lia|]. by apply digit_not_zero.
  - destruct (dec_head (Z.abs n)) as (d & l & E & Hd); [lia|].
    destruct (Z.ltb_spec n 0); right.
    + right. destruct (dec_pos_head (Z.abs n)) as (d' & l' & -> & Hd'); [lia|]. by apply digit_not_zero.
    + left. rewrite E. intros H'. cbn in H'. apply (f_equal is_digit) in H'.
      by rewrite (proj1 (digit_value d Hd)) in H'.
Qed.

Lemma init_number_int n : (Z.abs n < 2 ^ 53)%Z →
  json_value_init_number (of_int n) = Some (JSONNumber (of_int n)).
Proof.
  intros Hn. unfold json_value_init_number, of_int.
  destruct n as [|q|q]; [done|..]; cbn [binary_normalize];
    destruct (binary_round_small false q) as (m & k & E & _); try lia;
    destruct (binary_round_small true q) as (m' & k' & E' & _); try lia; by rewrite ?E, ?E'.
Qed.

Lemma parse_number_int n rest : (Z.abs n < 2 ^ 53)%Z → number_end rest = true →
  parse_number_value (fmt17g (of_int n) ++ rest) = Ok (Some (JSONNumber (of_int n), rest)).
Proof.
  intros Hn Hr. unfold parse_number_value. rewrite int_double_roundtrip by done.
  cbn [st_erange st_end st_value orb]. rewrite length_app, Nat.add_sub, fmt17g_int by done.
  rewrite is_decimal_int_text. cbn [negb orb].
  by rewrite init_number_int.
Qed.

(** ** Containers *)

Definition newline (p : bool) : bytes := if p then [x0a] else [].
Definition comma (ts : list bytes) : bytes := match ts with [] => [] | _ => [x2c] end.

Lemma newline_blank p : blank (newline p).
Proof. destruct p; forall_list. Qed.

(** The cursor at the first of the remaining elements. *)
Lemma skip_lines p level c t ts u : isspace c = false →
  skip_whitespaces (lines p level ((c :: t) :: ts) ++ u) =
  (c :: t) ++ comma ts ++ newline p ++ lines p level ts ++ u.
Proof.
  intros Hc. cbn [lines]. unfold line. rewrite <-!app_assoc, skip_app.
  - cbn [app]. rewrite skip_stop by done. by destruct ts.
  - destruct p; [apply indent_blank|constructor].
Qed.

(** What follows an element ends a number. *)
Lemma number_end_blank w c u : blank w → number_end [c] = true → number_end (w ++ c :: u) = true.
Proof. destruct 1 as [|d w Hd _]; [done|]. intros _. revert Hd. unfold number_end. cbn. byte_cases d. Qed.

Lemma number_end_comma p ts tl c u level : blank tl → number_end [c] = true →
  number_end (comma ts ++ newline p ++ lines p level ts ++ tl ++ c :: u) = true.
Proof.
  intros Ht Hc. destruct ts as [|t ts]; [|done]. cbn [comma lines app]. rewrite app_assoc.
  apply number_end_blank; [|done]. apply Forall_app. split; [apply newline_blank|done].
Qed.

(** The white space after the last element. *)
Lemma skip_close p tl c u : blank tl → isspace c = false →
  skip_whitespaces (newline p ++ tl ++ c :: u) = c :: u.
Proof. intros Ht Hc. rewrite !skip_app by (done || apply newline_blank). by apply skip_stop. Qed.

Definition value_rt (v : JSON_Value) : Prop := ∀ p level fuel n rest,
  number_end rest = true → n + depth v <= MAX_NESTING →
  2 * length (json_text p level v ++ rest) < fuel →
  parse_value fuel (json_text p level v ++ rest) n = Ok (Some (trim v, rest)).

Lemma json_array_add_items a v : ∃ a', json_array_add a v = (JSONSuccess, a') ∧
  arr_items a' = arr_items a ++ [v].
Proof.
  unfold json_array_add. case_bool_decide; [|by eexists].
  destruct (Nat.max _ _) as [|m] eqn:Em; [unfold STARTING_CAPACITY in Em; lia|]. by eexists.
Qed.

Lemma finish_array_close a rest : arr_items a ≠ [] →
  finish_array a (x5d :: rest) =
  Ok (Some (JSONArray (MkArray (arr_items a) (length (arr_items a))), rest)).
Proof.
  intros Ha. unfold finish_array. rewrite skip_stop by done. cbn.
  destruct (arr_items a) eqn:E; [done|]. cbn. by rewrite E.
Qed.

Lemma array_loop_rt p level n tl rest items : blank tl → items ≠ [] →
  Forall value_rt items → Forall int_numbers items →
  Forall (λ v, S n + depth v <= MAX_NESTING) items → ∀ fuel a,
  let s := skip_whitespaces (lines p level (map (json_text p level) items) ++ tl ++ x5d :: rest) in
  2 * length s + 1 < fuel →
  parse_array_loop fuel a s (S n) =
  Ok (Some (JSONArray (MkArray (arr_items a ++ map trim items)
                               (length (arr_items a) + length items)), rest)).
Proof.
  intros Htl. induction items as [|v items IH]; [done|]. intros _ Hrt Hint Hd [|f] a s Hs; [lia|].
  apply Forall_cons_iff in Hrt as [Hv Hrt]. apply Forall_cons_iff in Hint as [Hi Hint].
  apply Forall_cons_iff in Hd as [Hdv Hd].
  destruct (json_text_head v p level Hi) as (c & t & Et & Hc).
  destruct (value_head_facts c Hc) as (Hsp & Hnz & _ & _).
  unfold s in *. cbn [map] in *. rewrite Et, skip_lines, <-Et in * by done.
  set (ts := map (json_text p level) items) in *. set (u := tl ++ x5d :: rest) in *.
  cbn [parse_array_loop]. rewrite bool_decide_false by (by rewrite Et).
  rewrite (Hv p level f (S n)); [|by apply number_end_comma|lia|lia]. cbn [mbind res_bind].
  destruct (json_array_add_items a (trim v)) as (a' & -> & Ha').
  destruct items as [|v' items].
  - subst ts. cbn [comma lines map app]. unfold u. rewrite skip_close by done. cbn [peek].
    rewrite bool_decide_false by done. cbn [negb].
    rewrite finish_array_close by (rewrite Ha'; by destruct (arr_items a)).
    by rewrite Ha', length_app.
  - cbn [comma ts map app]. rewrite skip_stop by done. cbn [peek advance tail].
    rewrite bool_decide_true by done. cbn [negb]. rewrite skip_app by apply newline_blank.
    rewrite IH; [|done..|].
    + by rewrite Ha', <-app_assoc, length_app, <-Nat.add_assoc.
    + pose proof (skip_ws_le (lines p level ts ++ u)) as L. subst ts. cbn [comma map] in *.
      rewrite !length_app in *. simpl in *. lia.
Qed.

Lemma json_object_add_fresh o key v : nul_free key → Forall nul_free (names (obj_pairs o)) →
  key ∉ names (obj_pairs o) → ∃ o', json_object_add (Some o) key (Some v) = (JSONSuccess, Some o') ∧
  obj_pairs o' = obj_pairs o ++ [(key, v)].
Proof.
  intros Hk Hn Hni. destruct (json_object_add (Some o) key (Some v)) as [st o'] eqn:E.
  apply json_object_add_spec in E as [(-> & _ & cap & -> & _)|(_ & Hin & _)]; [| |done].
  - eexists; split; [done|]. cbn. by rewrite cstr_id.
  - by rewrite cstr_id in Hin.
Qed.

Lemma finish_object_close o rest : obj_pairs o ≠ [] →
  finish_object o (x7d :: rest) =
  Ok (Some (JSONObject (MkObject (obj_pairs o) (length (obj_pairs o))), rest)).
Proof.
  intros Ho. unfold finish_object. rewrite skip_stop by done. cbn.
  destruct (obj_pairs o) eqn:E; [done|]. cbn. by rewrite E.
Qed.

Definition trim_pair (q : bytes * JSON_Value) : bytes * JSON_Value := (q.1, trim q.2).

Lemma skip_member p level k t ts u :
  skip_whitespaces (lines p level (member p k t :: ts) ++ u) =
  quote k ++ x3a :: (if p then bs " " else []) ++ t ++ comma ts ++ newline p ++ lines p level ts ++ u.
Proof.
  unfold member, quote. cbn [app]. rewrite skip_lines by done. cbn [app]. f_equal.
  rewrite <-!app_assoc. by destruct p.
Qed.

Lemma parse_value_skip fuel w s n : blank w → parse_value fuel (w ++ s) n = parse_value fuel s n.
Proof. intros Hw. destruct fuel; [done|]. cbn [parse_value]. by rewrite skip_app. Qed.

Lemma object_loop_rt p level n tl rest ps : blank tl → ps ≠ [] →
  Forall (λ q, value_rt q.2) ps → Forall (λ q, int_numbers q.2) ps →
  Forall (λ q, S n + depth q.2 <= MAX_NESTING) ps → ∀ fuel o,
  NoDup (names (obj_pairs o ++ ps)) → Forall nul_free (names (obj_pairs o ++ ps)) →
  let s := skip_whitespaces
    (lines p level (map (λ q, member p q.1 (json_text p level q.2)) ps) ++ tl ++ x7d :: rest) in
  2 * length s < fuel →
  parse_object_loop fuel o s (S n) =
  Ok (Some (JSONObject (MkObject (obj_pairs o ++ map trim_pair ps)
                                 (length (obj_pairs o) + length ps)), rest)).
Proof.
  intros Htl. induction ps as [|[k v] ps IH]; [done|].
  intros _ Hrt Hint Hd [|f] o Hnd Hnf s Hs; [lia|].
  apply Forall_cons_iff in Hrt as [Hv Hrt]. apply Forall_cons_iff in Hint as [Hi Hint].
  apply Forall_cons_iff in Hd as [Hdv Hd]. cbn [fst snd] in *.
  assert (nul_free k ∧ (k ∉ names (obj_pairs o)) ∧ Forall nul_free (names (obj_pairs o)))
    as (Hk & Hni & Hno).
  { unfold names in *. rewrite map_app in *. cbn [map fst] in *. apply list.NoDup_app in Hnd as (_ & Hdis & _).
    apply Forall_app in Hnf as [? Hnf]. apply Forall_cons_iff in Hnf as [? _]. split_and!; try done.
    intros Hin. apply (Hdis k Hin). apply elem_of_cons. by left. }
  unfold s in *. clear s. cbn [map fst snd] in *. rewrite skip_member in *.
  set (ts := map _ ps) in *. set (u := tl ++ x7d :: rest) in *.
  rewrite !length_app in Hs. cbn [length] in Hs. rewrite !length_app in Hs.
  cbn [parse_object_loop]. rewrite bool_decide_false by done.
  rewrite quoted_string_roundtrip by done. cbn [mbind res_bind].
  rewrite skip_stop by done. cbn [peek advance tail].
  rewrite bool_decide_true by done. cbn [negb].
  rewrite parse_value_skip by (destruct p; forall_list).
  rewrite (Hv p level f (S n)); [|by apply number_end_comma|lia|rewrite !length_app; lia].
  cbn [mbind res_bind].
  destruct (json_object_add_fresh o k (trim v) Hk Hno Hni) as (o' & -> & Ho').
  destruct ps as [|[k' v'] ps].
  - subst ts. cbn [comma lines map app]. unfold u. rewrite skip_close by done. cbn [peek].
    rewrite bool_decide_false by done. cbn [negb].
    rewrite finish_object_close by (rewrite Ho'; by destruct (obj_pairs o)).
    by rewrite Ho', length_app.
  - cbn [comma ts map app]. rewrite skip_stop by done. cbn [peek advance tail].
    rewrite bool_decide_true by done. cbn [negb]. rewrite skip_app by apply newline_blank.
    rewrite IH; [|done..| | |].
    + by rewrite Ho', <-app_assoc, length_app, <-Nat.add_assoc.
    + unfold names in *. rewrite Ho', !map_app in *. by rewrite <-app_assoc.
    + unfold names in *. rewrite Ho', !map_app in *. by rewrite <-app_assoc.
    + pose proof (skip_ws_le (lines p level ts ++ u)) as L. subst ts. cbn [comma map length] in *.
      rewrite !length_app in *. cbn [length] in *. lia.
Qed.

(** ** Whole values *)

Lemma int_numbers_items items cap : int_numbers (JSONArray (MkArray items cap)) →
  Forall int_numbers items.
Proof.
  unfold int_numbers. cbn [numbers]. induction items as [|v items IH]; [constructor|].
  cbn [flat_map]. intros [? ?]%Forall_app. constructor; auto.
Qed.

Lemma int_numbers_pairs ps cap : int_numbers (JSONObject (MkObject ps cap)) →
  Forall (λ q, int_numbers q.2) ps.
Proof.
  unfold int_numbers. cbn [numbers]. induction ps as [|v ps IH]; [constructor|].
  cbn [flat_map]. intros [? ?]%Forall_app. constructor; auto.
Qed.

Lemma quote_cstr s : quote s = quote (cstr s).
Proof. unfold quote. by rewrite (cstr_id (cstr s)) by apply cstr_nul_free. Qed.

(** The cursor of [parse_value] at the text of a value: the dispatch. *)
Lemma parse_value_at f c s n : n <= MAX_NESTING → isspace c = false →
  parse_value (S f) (c :: s) n =
    if bool_decide (c = x7b)
    then parse_object_value (λ o s, parse_object_loop f o s (S n)) (c :: s)
    else if bool_decide (c = x5b)
    then parse_array_value (λ a s, parse_array_loop f a s (S n)) (c :: s)
    else if bool_decide (c = x22) then parse_string_value (c :: s)
    else if bool_decide (c = x66) || bool_decide (c = x74) then parse_boolean_value (c :: s)
    else if starts_number c then parse_number_value (c :: s)
    else if bool_decide (c = x6e) then parse_null_value (c :: s)
    else Ok None.
Proof.
  intros Hn Hc. cbn [parse_value]. rewrite skip_stop by done. by rewrite bool_decide_false by lia.
Qed.

(** The text of a container: the bracket, the elements and the bracket. *)
Lemma enclose_split p level o c texts rest :
  ∃ w tl, blank w ∧ blank tl ∧
    enclose p level [o] [c] texts ++ rest = o :: w ++ lines p (S level) texts ++ tl ++ c :: rest.
Proof.
  unfold enclose. destruct (p && _).
  - exists [x0a], (indent level). split_and!; [forall_list|apply indent_blank|].
    by rewrite <-!app_assoc.
  - exists [], []. split_and!; [constructor..|]. cbn [app]. by rewrite <-!app_assoc.
Qed.

Lemma array_rt items cap : Forall value_rt items → Forall int_numbers items →
  value_rt (JSONArray (MkArray items cap)).
Proof.
  intros Hrt Hint p level [|f] n rest Hr Hd Hf; [lia|]. cbn [json_text trim] in *.
  change (bs "[") with [x5b] in *. change (bs "]") with [x5d] in *.
  destruct (enclose_split p level x5b x5d (map (json_text p (S level)) items) rest)
    as (w & tl & Hw & Htl & E). rewrite E in *. clear E.
  assert (n <= MAX_NESTING ∧ Forall (λ v, S n + depth v <= MAX_NESTING) items) as [Hn Hdi].
  { cbn [depth] in Hd. split; [lia|]. eapply list.Forall_impl;
      [apply (proj1 (depth_array items cap (MAX_NESTING - S n))); cbn; lia|]. intros; cbn in *; lia. }
  rewrite parse_value_at, (bool_decide_false (x5b = x7b)), (bool_decide_true (x5b = x5b)) by done.
  unfold parse_array_value. cbn [peek advance tail].
  rewrite bool_decide_true by done. cbn [negb]. rewrite skip_app by done.
  destruct items as [|v items].
  { cbn [map lines app]. rewrite skip_app, skip_stop by done. done. }
  destruct (json_text_head v p (S level)) as (c & t & Et & Hc).
  { by apply Forall_cons_iff in Hint as [? _]. }
  destruct (value_head_facts c Hc) as (Hsp & _ & _ & Hnb).
  case_bool_decide as Hb.
  { cbn [map] in Hb. rewrite Et, skip_lines in Hb by done. done. }
  rewrite array_loop_rt; [done..|].
  pose proof (skip_ws_le (lines p (S level) (map (json_text p (S level)) (v :: items)) ++ tl ++ x5d :: rest)).
  cbn [length] in Hf. rewrite length_app in Hf. lia.
Qed.

Lemma object_rt ps cap : wf_pairs ps → Forall (λ q, value_rt q.2) ps →
  Forall (λ q, int_numbers q.2) ps → value_rt (JSONObject (MkObject ps cap)).
Proof.
  intros [Hnd Hnf _] Hrt Hint p level [|f] n rest Hr Hd Hf; [lia|]. cbn [json_text trim] in *.
  change (bs "{") with [x7b] in *. change (bs "}") with [x7d] in *.
  set (texts := map _ ps) in *.
  destruct (enclose_split p level x7b x7d texts rest) as (w & tl & Hw & Htl & E).
  rewrite E in *. clear E.
  assert (n <= MAX_NESTING ∧ Forall (λ q, S n + depth q.2 <= MAX_NESTING) ps) as [Hn Hdi].
  { cbn [depth] in Hd. split; [lia|]. eapply list.Forall_impl;
      [apply (proj1 (depth_object ps cap (MAX_NESTING - S n))); cbn; lia|]. intros; cbn in *; lia. }
  rewrite parse_value_at, (bool_decide_true (x7b = x7b)) by done.
  unfold parse_object_value. cbn [peek advance tail].
  rewrite bool_decide_true by done. cbn [negb]. rewrite skip_app by done.
  destruct ps as [|[k v] ps].
  { cbn [texts map lines app]. rewrite skip_app, skip_stop by done. done. }
  case_bool_decide as Hb.
  { cbn [texts map fst snd] in Hb. by rewrite skip_member in Hb. }
  unfold texts. rewrite object_loop_rt; [done..|].
  pose proof (skip_ws_le (lines p (S level) texts ++ tl ++ x7d :: rest)).
  cbn [length] in Hf. rewrite length_app in Hf. fold texts. lia.
Qed.

Lemma value_roundtrip v : wf_value v = true → int_numbers v → value_rt v.
Proof.
  induction v as [|s|d|ps cap IH|items cap IH|b] using JSON_Value_ind; intros Hwf Hint.
  - intros p level [|f] n rest Hr Hd Hf; [lia|]. cbn in Hd.
    cbn [json_text]. change (bs "null") with [x6e; x75; x6c; x6c]. cbn [app].
    by rewrite parse_value_at by (done || lia).
  - intros p level [|f] n rest Hr Hd Hf; [lia|]. cbn in Hd. cbn [json_text trim].
    rewrite quote_cstr. change (quote (cstr s) ++ rest) with
      (x22 :: (flat_map escape_char (cstr (cstr s)) ++ [x22]) ++ rest).
    rewrite parse_value_at by (done || lia). rewrite !bool_decide_false, bool_decide_true by done.
    unfold parse_string_value. change (x22 :: _) with (quote (cstr s) ++ rest).
    by rewrite quoted_string_roundtrip by apply cstr_nul_free.
  - intros p level [|f] n rest Hr Hd Hf; [lia|]. cbn in Hd. cbn [json_text trim].
    apply Forall_cons_iff in Hint as [(z & Hz & ->) _].
    pose proof (parse_number_int z rest Hz Hr) as H. rewrite fmt17g_int in * by done.
    destruct (int_text_head z) as (c & t & Et & Hc). rewrite Et in *. cbn [app] in *.
    rewrite parse_value_at; [|lia|by apply value_head_facts, starts_number_head].
    assert (bool_decide (c = x7b) = false ∧ bool_decide (c = x5b) = false ∧
            bool_decide (c = x22) = false ∧ bool_decide (c = x66) = false ∧
            bool_decide (c = x74) = false) as (-> & -> & -> & -> & ->)
      by (clear -Hc; split_and!; revert Hc; byte_cases c).
    by rewrite Hc.
  - apply wf_value_object in Hwf as [_ Hwf]. apply int_numbers_pairs in Hint.
    apply object_rt; [done| |done]. pose proof (wf_values _ Hwf) as Hv.
    rewrite list.Forall_forall in IH, Hint, Hv |- *. auto.
  - apply wf_value_array in Hwf as [_ Hv]. apply int_numbers_items in Hint.
    apply array_rt; [|done]. rewrite list.Forall_forall in IH, Hint, Hv |- *. auto.
  - intros p level [|f] n rest Hr Hd Hf; [lia|]. cbn in Hd.
    cbn [json_text]. destruct b.
    + change (bs "true") with [x74; x72; x75; x65]. cbn [app]. by rewrite parse_value_at by (done || lia).
    + change (bs "false") with [x66; x61; x6c; x73; x65]. cbn [app].
      by rewrite parse_value_at by (done || lia).
Qed.

Lemma parse_text_roundtrip p level v : wf_value v = true → int_numbers v → depth v <= MAX_NESTING →
  json_parse_string (Some (json_text p level v)) = Ok (Some (trim v)).
Proof.
  intros Hwf Hint Hd. unfold json_parse_string.
  destruct (json_text_head v p level Hint) as (c & t & Et & Hc).
  destruct (value_head_facts c Hc) as (_ & _ & Hef & _).
  replace (skip_bom _) with (json_text p level v) by (rewrite Et; by destruct c).
  pose proof (value_roundtrip v Hwf Hint p level (S (2 * length (json_text p level v))) 0 []) as H.
  rewrite app_nil_r in H. unfold parse_text. rewrite H; [done|done|lia..].
Qed.

Lemma int_text_short n : (Z.abs n < 2 ^ 53)%Z → length (int_text n) < NUM_BUF_SIZE.
Proof.
  intros Hn. unfold int_text, dec. rewrite length_app.
  assert (∀ w m, length (dec_pad w m) = w) as Hl.
  { induction w as [|w IH]; intros m; [done|]. cbn [dec_pad]. rewrite length_app, IH. simpl. lia. }
  rewrite Hl. destruct (ndigits_spec (Z.abs n)) as (_ & H & _); [lia|].
  assert (ndigits (Z.abs n) <= 17).
  { destruct H as [->|H]; [vm_compute; lia|]. apply Nat.nlt_ge. intros Hgt.
    assert (10 ^ 17 <= 10 ^ (Z.of_nat (ndigits (Z.abs n)) - 1))%Z by (apply Z.pow_le_mono_r; lia). lia. }
  unfold NUM_BUF_SIZE. destruct (n <? 0)%Z; simpl; lia.
Qed.

Lemma int_numbers_fit v : int_numbers v → numbers_fit v = true.
Proof.
  induction v as [|s|d|ps cap IH|items cap IH|b] using JSON_Value_ind; intros Hint; try done.
  - apply Forall_cons_iff in Hint as [(n & Hn & ->) _]. cbn [numbers_fit].
    apply bool_decide_eq_true. rewrite fmt17g_int by done. by apply int_text_short.
  - apply int_numbers_pairs in Hint. cbn [numbers_fit]. apply forallb_Forall.
    rewrite list.Forall_forall in IH, Hint |- *. auto.
  - apply int_numbers_items in Hint. cbn [numbers_fit]. apply forallb_Forall.
    rewrite list.Forall_forall in IH, Hint |- *. auto.
Qed.

(** C22: a well-formed value with integer numbers is read back by
    [json_parse_string] from what [json_serialize_to_string] (or the pretty
    variant) returned for it, up to the capacity of its containers. *)
Theorem json_roundtrip p junk v : wf_value v = true → int_numbers v → depth v <= MAX_NESTING →
  (len (json_text p 0 v) < INT_MAX)%Z →
  ∃ text, serialize_to_string p junk v = Ok (Some text) ∧
          json_parse_string (Some text) = Ok (Some (trim v)).
Proof.
  intros Hwf Hint Hd Hl. exists (json_text p 0 v). split.
  - apply serialize_string_text; auto using int_numbers_fit.
  - by apply parse_text_roundtrip.
Qed.

Lemma json_roundtrip_witness : ∃ text,
  serialize_to_string true (λ _, xff) sample_value = Ok (Some text) ∧
  json_parse_string (Some text) = Ok (Some (trim sample_value)).
Proof.
  apply json_roundtrip.
  - vm_compute. reflexivity.
  - apply List.Forall_cons; [|constructor]. exists 42%Z. split; [reflexivity|reflexivity].
  - apply Nat.leb_le. reflexivity.
  - vm_compute. reflexivity.
Defined.
End ParsonRoundtrip.
