(* ===== verification/ParsonApi.v ===== *)
(** * parson.c: the object, array and value API

    Objects implement finite maps from names to values (lookup, insertion,
    removal), dotted names reach nested objects, every sequence of API calls
    keeps the library's data well formed (in particular within the allocated
    capacity), and a deep copy is equal to its original. *)
From S2P Require Import Prelude Utils Cdouble ParsonText Parson ParsonParse ParsonPrint ParsonRoundtrip.
Import Cdouble ParsonText Parson ParsonRoundtrip.

Module ParsonApi.

(** The abstraction of an object, and its invariant. *)
Definition object_map (o : JSON_Object) : gmap bytes JSON_Value := list_to_map (obj_pairs o).

Definition obj_ok (o : JSON_Object) : Prop :=
  length (obj_pairs o) <= obj_capacity o ∧ wf_pairs (obj_pairs o).

Lemma obj_ok_value o : obj_ok o ↔ wf_value (JSONObject o) = true.
Proof. destruct o as [ps cap]. by rewrite wf_value_object. Qed.

Lemma obj_ok_init : obj_ok json_object_init.
Proof. split; [done|]. split; constructor. Qed.

(** ** Lookup *)

Lemma getn_map (ps : list (bytes * JSON_Value)) name : wf_pairs ps → nul_free name →
  getn_loop ps name (length name) = (list_to_map ps : gmap bytes JSON_Value) !! name.
Proof.
  intros [Hnd Hnf _] Hn. apply option_eq. intros v. rewrite getn_loop_Some by done.
  by rewrite <-elem_of_list_to_map.
Qed.

Lemma get_value_map o name : obj_ok o → json_object_get_value (Some o) name = object_map o !! cstr name.
Proof.
  intros [_ Hwf]. cbn. rewrite getn_loop_cstr. apply getn_map; [done|apply cstr_nul_free].
Qed.

Lemma getn_value_map o name : obj_ok o → nul_free name →
  json_object_getn_value (Some o) name (length name) = object_map o !! name.
Proof. intros [_ Hwf] Hn. by apply getn_map. Qed.

Lemma object_map_wf o name v : obj_ok o → object_map o !! name = Some v → wf_value v = true.
Proof.
  intros [_ [_ _ Hv]] H. apply elem_of_list_to_map_2 in H.
  rewrite list.Forall_forall in Hv. apply (Hv _ H).
Qed.

(** ** Insertion *)

(** What overwriting the value of a present name does to the pairs. *)
Lemma set_loop_spec (ps : list (bytes * JSON_Value)) name v : wf_pairs ps → wf_value v = true →
  cstr name ∈ names ps →
  ∃ ps', set_loop ps name v = Some ps' ∧ length ps' = length ps ∧ names ps' = names ps ∧ wf_pairs ps' ∧
    (list_to_map ps' : gmap bytes JSON_Value) = <[cstr name := v]> (list_to_map ps).
Proof.
  intros [Hnd Hnf Hv] Hw. induction ps as [|[k w] ps IH]; cbn [names map fst] in *; intros Hin.
  { by apply not_elem_of_nil in Hin. }
  apply list.NoDup_cons in Hnd as [Hk Hnd]. apply Forall_cons_iff in Hnf as [Hkn Hnf], Hv as [Hwk Hv].
  cbn [set_loop]. unfold strcmp_eq. rewrite (cstr_id k Hkn). case_bool_decide as E.
  - eexists. split; [done|]. split_and!; [done|done|split; cbn [names map fst]|cbn].
    + by constructor.
    + by constructor.
    + by constructor.
    + subst k. by rewrite insert_insert_eq.
  - apply elem_of_cons in Hin as [?|Hin]; [congruence|].
    destruct IH as (ps' & -> & Hl & Hns & [Hnd' Hnf' Hv'] & Hm); [done..|].
    eexists. split; [done|]. split_and!; [cbn; congruence|cbn; f_equal; done|split; cbn [names map fst]|cbn].
    + fold (names ps'). rewrite Hns. by constructor.
    + by constructor.
    + by constructor.
    + rewrite Hm. apply insert_insert_ne. congruence.
Qed.

Lemma map_snoc (ps : list (bytes * JSON_Value)) k v : k ∉ names ps →
  (list_to_map (ps ++ [(k, v)]) : gmap bytes JSON_Value) = <[k := v]> (list_to_map ps).
Proof.
  intros Hk. rewrite list_to_map_app. cbn. apply map_eq. intros i. rewrite lookup_union.
  destruct (decide (i = k)) as [->|Hne].
  - rewrite lookup_insert_eq, lookup_insert_eq, not_elem_of_list_to_map_1 by done. done.
  - rewrite !lookup_insert_ne, lookup_empty by done. apply right_id, _.
Qed.

Lemma wf_pairs_snoc ps k v : wf_pairs ps → k ∉ names ps → nul_free k → wf_value v = true →
  wf_pairs (ps ++ [(k, v)]).
Proof.
  intros [Hnd Hnf Hv] Hk Hn Hw. split.
  - unfold names. rewrite map_app. apply list.NoDup_app. split_and!; [done| |by apply NoDup_singleton].
    intros x Hx. cbn. intros ->%list_elem_of_singleton. done.
  - unfold names. rewrite map_app. apply Forall_app. split; [done|]. by constructor.
  - apply Forall_app. split; [done|]. by constructor.
Qed.

Lemma addn_fresh o name v : obj_ok o → nul_free name → wf_value v = true → object_map o !! name = None →
  ∃ o', json_object_addn (Some o) name (length name) (Some v) = (JSONSuccess, Some o') ∧ obj_ok o' ∧
    object_map o' = <[name := v]> (object_map o).
Proof.
  intros Hok Hn Hw Hf. pose proof Hok as [Hcap Hwf].
  destruct (json_object_add (Some o) name (Some v)) as [st o'] eqn:E.
  assert (json_object_addn (Some o) name (length name) (Some v) = (st, o')) as ->.
  { rewrite <-E. unfold json_object_add, strlen. by rewrite cstr_id. }
  apply not_elem_of_list_to_map in Hf.
  apply json_object_add_spec in E as [(-> & _ & cap & -> & Hc)|(_ & Hin & _)];
    [|by rewrite cstr_id in Hin|apply Hwf].
  rewrite cstr_id in * by done. eexists. split; [done|]. split; [|by apply map_snoc].
  split; [|by apply wf_pairs_snoc]. cbn. rewrite length_app. cbn. specialize (Hc Hcap). lia.
Qed.

Lemma set_value_map o name v : obj_ok o → wf_value v = true →
  ∃ o', json_object_set_value (Some o) name (Some v) false = (JSONSuccess, Some o') ∧ obj_ok o' ∧
    object_map o' = <[cstr name := v]> (object_map o).
Proof.
  intros Hok Hw. pose proof Hok as [Hcap Hwf]. unfold json_object_set_value.
  rewrite get_value_map by done. destruct (object_map o !! cstr name) as [w|] eqn:E.
  - destruct (set_loop_spec (obj_pairs o) name v) as (ps' & -> & Hl & _ & Hwf' & Hm); [done..| |].
    { apply elem_of_list_to_map_2 in E. apply list_elem_of_fmap. by exists (cstr name, w). }
    eexists. split; [done|]. split; [|done]. split; [cbn; lia|done].
  - destruct (addn_fresh o (cstr name) v) as (o' & Ha & Hok' & Hm); [done|apply cstr_nul_free|done..|].
    exists o'. split; [|done]. rewrite <-Ha. unfold json_object_add, json_object_addn. cbn.
    rewrite getn_loop_cstr. unfold parson_strndup, strlen. by rewrite (cstr_id (cstr name)) by apply cstr_nul_free.
Qed.

(** ** Removal *)

Lemma remove_at_perm {V} (ps : list (bytes * V)) i p : ps !! i = Some p → remove_at ps i ++ [p] ≡ₚ ps.
Proof.
  intros Hi. destruct ps as [|l init _] using rev_ind; [done|].
  unfold remove_at. rewrite length_app. cbn [length]. rewrite Nat.add_sub.
  rewrite lookup_app_r, Nat.sub_diag by lia. cbn.
  case_bool_decide as E.
  - subst i. rewrite lookup_app_r, Nat.sub_diag in Hi by lia. cbn in Hi. simplify_eq.
    by rewrite take_app_length.
  - apply lookup_lt_Some in Hi as Hlt. rewrite length_app in Hlt. cbn in Hlt.
    rewrite lookup_app_l in Hi by lia. rewrite insert_app_l by lia.
    rewrite take_app_length' by (by rewrite length_insert).
    apply list_elem_of_split_length in Hi as (a & b & -> & ->).
    replace (length a) with (length a + 0) at 1 by lia. rewrite insert_app_r. cbn.
    rewrite <-!app_assoc. cbn. apply Permutation_app_head. rewrite (Permutation_app_comm b [l]). cbn.
    rewrite Permutation_swap. constructor. by rewrite Permutation_app_comm.
Qed.

Lemma find_name_spec (ps : list (bytes * JSON_Value)) name w : wf_pairs ps → (cstr name, w) ∈ ps →
  ∃ i, find_name ps name = Some i ∧ ps !! i = Some (cstr name, w).
Proof.
  intros [Hnd Hnf _]. induction ps as [|[k x] ps IH]; cbn [names map fst] in *; intros Hin.
  { by apply not_elem_of_nil in Hin. }
  apply list.NoDup_cons in Hnd as [Hk Hnd]. apply Forall_cons_iff in Hnf as [Hkn Hnf].
  cbn [find_name]. unfold strcmp_eq. rewrite (cstr_id k Hkn). apply elem_of_cons in Hin as [[= <- <-]|Hin].
  - rewrite bool_decide_true by done. by exists 0.
  - rewrite bool_decide_false.
    2:{ intros ->. apply Hk. apply list_elem_of_fmap. by exists (cstr name, w). }
    destruct IH as (i & -> & Hi); [done..|]. by exists (S i).
Qed.

Lemma wf_pairs_perm (ps qs : list (bytes * JSON_Value)) p : ps ++ [p] ≡ₚ qs → wf_pairs qs →
  wf_pairs ps ∧ p.1 ∉ names ps.
Proof.
  intros HP [Hnd Hnf Hv]. assert (names ps ++ [p.1] ≡ₚ names qs) as HN.
  { unfold names. rewrite <-HP, map_app. done. }
  rewrite <-HN in Hnd, Hnf. rewrite <-HP in Hv.
  apply list.NoDup_app in Hnd as (Hnd & Hd & _). apply Forall_app in Hnf as [Hnf _], Hv as [Hv _].
  split; [done|]. intros Hin. apply (Hd _ Hin). by apply list_elem_of_singleton.
Qed.

Lemma remove_map o name : obj_ok o →
  match object_map o !! cstr name with
  | Some _ => ∃ o', json_object_remove (Some o) name = (JSONSuccess, Some o') ∧ obj_ok o' ∧
                object_map o' = delete (cstr name) (object_map o)
  | None => json_object_remove (Some o) name = (JSONFailure, Some o)
  end.
Proof.
  intros Hok. pose proof Hok as [Hcap Hwf]. unfold json_object_remove, json_object_remove_internal.
  rewrite get_value_map by done. destruct (object_map o !! cstr name) as [w|] eqn:E; [|done].
  apply elem_of_list_to_map_2 in E. destruct (find_name_spec _ _ _ Hwf E) as (i & -> & Hi).
  eexists. split; [done|]. pose proof (remove_at_perm _ _ _ Hi) as HP.
  destruct (wf_pairs_perm _ _ _ HP Hwf) as [Hwf' Hni]. cbn [fst] in Hni. split.
  - split; [|done]. cbn. apply Permutation_length in HP. rewrite length_app in HP. cbn in HP. lia.
  - unfold object_map. cbn [obj_pairs].
    rewrite <-(list_to_map_proper (remove_at (obj_pairs o) i ++ [(cstr name, w)]) (obj_pairs o)); [|..|done].
    + rewrite map_snoc, delete_insert_id by (done || by apply not_elem_of_list_to_map_1). done.
    + fold (names (remove_at (obj_pairs o) i ++ [(cstr name, w)])). unfold names. rewrite HP. apply Hwf.
Qed.

(** C29: objects are finite maps. On a well-formed object, with [object_map] the
    map of its pairs: lookup is map lookup; setting a value succeeds and inserts
    it; removing succeeds exactly when the name is present, and deletes it;
    clearing gives the empty map. All of them keep the object well formed. *)
Theorem object_api_refines_map o name v : obj_ok o → wf_value v = true →
  json_object_get_value (Some o) name = object_map o !! cstr name ∧
  (∃ o', json_object_set_value (Some o) name (Some v) false = (JSONSuccess, Some o') ∧ obj_ok o' ∧
     object_map o' = <[cstr name := v]> (object_map o)) ∧
  match object_map o !! cstr name with
  | Some _ => ∃ o', json_object_remove (Some o) name = (JSONSuccess, Some o') ∧ obj_ok o' ∧
                object_map o' = delete (cstr name) (object_map o)
  | None => json_object_remove (Some o) name = (JSONFailure, Some o)
  end ∧
  (∃ o', json_object_clear (Some o) = (JSONSuccess, Some o') ∧ obj_ok o' ∧ object_map o' = ∅).
Proof.
  intros Hok Hw. split; [by apply get_value_map|]. split; [by apply set_value_map|].
  split; [by apply remove_map|]. eexists. split; [done|]. split; [|done]. split; [cbn; lia|].
  split; constructor.
Qed.

(** ** Dotted names *)

Lemma update_first_spec (ps : list (bytes * JSON_Value)) name w v : wf_pairs ps → nul_free name →
  wf_value v = true → (list_to_map ps : gmap bytes JSON_Value) !! name = Some w →
  let ps' := update_first ps name (length name) v in
  length ps' = length ps ∧ wf_pairs ps' ∧
  (list_to_map ps' : gmap bytes JSON_Value) = <[name := v]> (list_to_map ps).
Proof.
  intros Hwf Hn Hw Hl. apply elem_of_list_to_map_2 in Hl.
  destruct (set_loop_spec ps name v Hwf Hw) as (ps' & Hs & Hlen & _ & Hwf' & Hm).
  { rewrite cstr_id by done. apply list_elem_of_fmap. by exists (name, w). }
  rewrite cstr_id in Hm by done. cbn zeta. replace (update_first ps name (length name) v) with ps'; [done|].
  destruct Hwf as [_ Hnf _]. clear -Hs Hn Hnf. revert ps' Hs.
  induction ps as [|[k x] ps IH]; intros ps' Hs; [done|]. cbn [names map fst] in Hnf.
  apply Forall_cons_iff in Hnf as [Hk Hnf]. cbn [set_loop update_first] in *.
  unfold strcmp_eq, strlen in *. rewrite (cstr_id k Hk) in *. rewrite (cstr_id name Hn) in Hs.
  case_bool_decide as E.
  - subst k. rewrite bool_decide_true, strncmp_eq_full, bool_decide_true by done. by simplify_eq.
  - destruct (set_loop ps name v) as [l|]; [|done]. simplify_eq.
    case_bool_decide as El; cbn [andb].
    + rewrite <-El, strncmp_eq_full, (bool_decide_false _ E) by done. f_equal. rewrite El. by apply IH.
    + f_equal. by apply IH.
Qed.

Lemma update_inner o comp w v : obj_ok o → nul_free comp → wf_value v = true →
  object_map o !! comp = Some w →
  let o' := MkObject (update_first (obj_pairs o) comp (length comp) v) (obj_capacity o) in
  obj_ok o' ∧ object_map o' = <[comp := v]> (object_map o).
Proof.
  intros [Hcap Hwf] Hn Hw Hl. destruct (update_first_spec _ _ _ v Hwf Hn Hw Hl) as (Hlen & Hwf' & Hm).
  split; [|done]. split; [cbn; lia|done].
Qed.

(** Writing back the value that is there changes nothing. *)
Lemma update_first_id (ps : list (bytes * JSON_Value)) name v : Forall nul_free (names ps) → nul_free name →
  getn_loop ps name (length name) = Some v → update_first ps name (length name) v = ps.
Proof.
  intros Hnf Hn. induction ps as [|[k x] ps IH]; [done|]. cbn [names map fst] in Hnf.
  apply Forall_cons_iff in Hnf as [Hk Hnf]. rewrite getn_loop_cons by done. cbn [update_first].
  unfold strlen. rewrite (cstr_id k Hk). case_bool_decide as E.
  - subst k. intros [= ->]. by rewrite bool_decide_true, strncmp_eq_full, bool_decide_true.
  - intros Hg. case_bool_decide as El; cbn [andb].
    + rewrite <-El, strncmp_eq_full, (bool_decide_false _ E) by done. f_equal. rewrite El. by apply IH.
    + f_equal. by apply IH.
Qed.

(** The outcome of an operation on a dotted name: the object stays well formed,
    a failure leaves it as it was, a success makes the lookup of the name give
    [r]. *)
Record dot_outcome (o : JSON_Object) (comp name : bytes) (r : option JSON_Value) (st : JSON_Status)
  (o' : JSON_Object) : Prop := {
  do_ok : obj_ok o';
  do_success : st = JSONSuccess → dotget_scan (Some o') comp name = r;
  do_failure : st = JSONFailure → o' = o }.

(** Through an inner object. *)
Lemma dot_outcome_inner o comp name r st inner inner' : obj_ok o → nul_free comp →
  object_map o !! comp = Some (JSONObject inner) → dot_outcome inner [] name r st inner' →
  dot_outcome o comp (x2e :: name) r st
    (MkObject (update_first (obj_pairs o) comp (length comp) (JSONObject inner')) (obj_capacity o)).
Proof.
  intros Hok Hn Hl [Hi Hs Hf]. destruct (update_inner o comp (JSONObject inner) (JSONObject inner'))
    as [Hok' Hm]; [done..|by apply obj_ok_value|done|]. split; [done|..].
  - intros E. cbn [dotget_scan]. rewrite bool_decide_true by done.
    rewrite getn_value_map, Hm, lookup_insert_eq by done. by apply Hs.
  - intros E. rewrite (Hf E). pose proof Hok as [_ Hwf].
    rewrite update_first_id; [by destruct o|apply Hwf|done|]. rewrite <-Hl. by apply getn_map.
Qed.

Lemma obj_ok_inner o comp inner : obj_ok o → object_map o !! comp = Some (JSONObject inner) → obj_ok inner.
Proof. intros Hok Hl. apply obj_ok_value. by eapply object_map_wf. Qed.

Lemma dotset_outcome name : ∀ o comp v, obj_ok o → nul_free (comp ++ name) → wf_value v = true →
  ∃ st o', dotset_scan (Some o) comp name (Some v) false = (st, Some o') ∧
    dot_outcome o comp name (Some v) st o'.
Proof.
  induction name as [|c name IH]; intros o comp v Hok Hn Hw; cbn [dotset_scan].
  { rewrite app_nil_r in Hn. destruct (set_value_map o comp v Hok Hw) as (o' & -> & Hok' & Hm).
    exists JSONSuccess, o'. split; [done|]. split; [done| |done]. intros _. cbn [dotget_scan].
    by rewrite get_value_map, Hm, cstr_id, lookup_insert_eq. }
  case_bool_decide as Ec.
  2:{ destruct (IH o (comp ++ [c]) v) as (st & o' & -> & [H1 H2 H3]); [done|by rewrite <-app_assoc|done|].
      exists st, o'. split; [done|]. split; [done| |done]. cbn [dotget_scan]. by rewrite bool_decide_false. }
  subst c. apply Forall_app in Hn as [Hnc Hnn]. apply Forall_cons_iff in Hnn as [_ Hnn].
  rewrite getn_value_map by done. destruct (object_map o !! comp) as [w|] eqn:El.
  - destruct w as [|?|?|inner|?|?].
    4:{ destruct (IH inner [] v) as (st & inner' & -> & Ho); [by eapply obj_ok_inner|done..|].
        exists st. eexists. split; [done|]. by eapply dot_outcome_inner. }
    all: exists JSONFailure, o; split; [done|]; by split.
  - destruct (IH json_object_init [] v) as ([] & inner & -> & [Hi Hs Hf]); [apply obj_ok_init|done..| |].
    + destruct (addn_fresh o comp (JSONObject inner)) as (o' & -> & Hok' & Hm); [done..|by apply obj_ok_value|done|].
      exists JSONSuccess, o'. split; [done|]. split; [done| |done]. intros _. cbn [dotget_scan].
      rewrite bool_decide_true, getn_value_map, Hm, lookup_insert_eq by done. by apply Hs.
    + exists JSONFailure, o. split; [done|]. by split.
Qed.

Lemma dotremove_outcome name : ∀ o comp, obj_ok o → nul_free (comp ++ name) →
  ∃ st o', dotremove_scan (Some o) comp name = (st, Some o') ∧ dot_outcome o comp name None st o' ∧
    (st = JSONSuccess ↔ is_Some (dotget_scan (Some o) comp name)).
Proof.
  induction name as [|c name IH]; intros o comp Hok Hn; cbn [dotremove_scan dotget_scan].
  { rewrite app_nil_r in Hn. pose proof (remove_map o comp Hok) as Hr. rewrite get_value_map by done.
    destruct (object_map o !! cstr comp) as [w|] eqn:El; [destruct Hr as (o' & Hr & Hok' & Hm)|];
      unfold json_object_remove in Hr; rewrite Hr.
    - exists JSONSuccess, o'. split; [done|]. split; [|by split]. split; [done| |done]. intros _.
      cbn [dotget_scan]. by rewrite get_value_map, Hm, lookup_delete_eq.
    - exists JSONFailure, o. split; [done|]. split; [by split|]. by split; [|intros [? ?]]. }
  case_bool_decide as Ec.
  2:{ destruct (IH o (comp ++ [c])) as (st & o' & -> & [H1 H2 H3] & H4); [done|by rewrite <-app_assoc|].
      exists st, o'. split; [done|]. split; [|done]. split; [done| |done]. cbn [dotget_scan]. by rewrite bool_decide_false. }
  subst c. apply Forall_app in Hn as [Hnc Hnn]. apply Forall_cons_iff in Hnn as [_ Hnn].
  rewrite getn_value_map by done.
  assert (∀ name, dotget_scan None [] name = None) as Hnone.
  { intros n. generalize (@nil byte). induction n as [|d n IHn]; intros comp'; cbn; [done|]. by case_bool_decide. }
  destruct (object_map o !! comp) as [w|] eqn:El; [destruct w as [|?|?|inner|?|?]|].
  4:{ destruct (IH inner []) as (st & inner' & -> & Ho & H4); [by eapply obj_ok_inner|done|].
      exists st. eexists. split; [done|]. split; [by eapply dot_outcome_inner|done]. }
  all: exists JSONFailure, o; split; [done|]; split; [by split|]; cbn; rewrite Hnone; by split; [|intros [? ?]].
Qed.

(** Dotted names. Setting a value under a dotted name (creating the objects
    on the way) keeps the object well formed; if it succeeds, looking the same
    name up gives the value; if it fails, nothing changed. Removing a dotted
    name succeeds exactly when the lookup finds it, and afterwards the lookup
    finds nothing. *)
Theorem dotted_names o name v : obj_ok o → wf_value v = true →
  (∃ st o', json_object_dotset_value (Some o) name (Some v) false = (st, Some o') ∧ obj_ok o' ∧
     (st = JSONSuccess → json_object_dotget_value (Some o') name = Some v) ∧
     (st = JSONFailure → o' = o)) ∧
  (∃ st o', json_object_dotremove (Some o) name = (st, Some o') ∧ obj_ok o' ∧
     (st = JSONSuccess ↔ is_Some (json_object_dotget_value (Some o) name)) ∧
     (st = JSONSuccess → json_object_dotget_value (Some o') name = None) ∧
     (st = JSONFailure → o' = o)).
Proof.
  intros Hok Hw. split.
  - destruct (dotset_outcome (cstr name) o [] v Hok (cstr_nul_free name) Hw) as (st & o' & E & []).
    exists st, o'. done.
  - destruct (dotremove_outcome (cstr name) o [] Hok (cstr_nul_free name)) as (st & o' & E & [] & ?).
    exists st, o'. done.
Qed.

(** ** Deep copies *)

Lemma number_close_refl d : is_finite d = true → json_number_close d d = true.
Proof.
  destruct d as [b|b| |b m e]; intros H; try done; [by destruct b|].
  unfold json_number_close, SFsub. cbn zeta. by rewrite Z.sub_diag.
Qed.

(** The values of a deep copy, for values that have one. *)
Definition copy (v : JSON_Value) : JSON_Value := default JSONNull (json_value_deep_copy v).

Lemma copy_pairs_loop copies todo : ∀ done cap, wf_pairs (done ++ todo) → length done <= cap →
  Forall (λ q, getn_loop copies q.1 (strlen q.1) = Some (Some q.2)) todo →
  ∃ cap', copy_pairs copies (names todo) (Some (MkObject done cap)) = Some (MkObject (done ++ todo) cap') ∧
    length (done ++ todo) <= cap'.
Proof.
  induction todo as [|[k v] todo IH]; intros dn cap Hwf Hcap Hl.
  { exists cap. by rewrite app_nil_r. }
  apply Forall_cons_iff in Hl as [Hk Hl]. cbn [names map fst snd copy_pairs] in *. rewrite Hk.
  pose proof Hwf as [Hnd Hnf _]. unfold names in Hnd, Hnf. rewrite map_app in Hnd, Hnf. cbn [map fst] in Hnd, Hnf.
  apply Forall_app in Hnf as [Hnf Hkn]. apply Forall_cons_iff in Hkn as [Hkn _].
  destruct (json_object_add _ _ _) as [st o'] eqn:E.
  apply json_object_add_spec in E as [(-> & _ & cap' & -> & Hc)|(_ & Hin & _)]; [..|done].
  - cbn [obj_pairs] in *. rewrite (cstr_id k Hkn).
    destruct (IH (dn ++ [(k, v)]) cap') as (cap'' & E & Hlen); [by rewrite <-app_assoc| |done|].
    { rewrite length_app. cbn. specialize (Hc Hcap). lia. }
    rewrite <-app_assoc in E, Hlen. by exists cap''.
  - cbn [obj_pairs] in Hin. rewrite (cstr_id k Hkn) in Hin.
    apply list.NoDup_app in Hnd as (_ & Hd & _). destruct (Hd k Hin). apply list_elem_of_here.
Qed.

Lemma copy_items_loop todo : ∀ done cap, length done <= cap →
  ∃ cap', copy_items (map Some todo) (MkArray done cap) = Some (MkArray (done ++ todo) cap') ∧
    length (done ++ todo) <= cap'.
Proof.
  induction todo as [|v todo IH]; intros dn cap Hcap.
  { exists cap. by rewrite app_nil_r. }
  cbn [map copy_items]. unfold json_array_add. cbn [arr_items arr_capacity].
  assert (∃ cap', (if bool_decide (cap <= length dn)
    then json_array_resize (MkArray dn cap) (Nat.max (cap * 2) STARTING_CAPACITY)
    else (JSONSuccess, MkArray dn cap)) = (JSONSuccess, MkArray dn cap') ∧ length dn < cap') as (cap' & -> & Hc).
  { case_bool_decide; [|exists cap; split; [done|lia]].
    destruct (Nat.max (cap * 2) STARTING_CAPACITY) as [|n] eqn:Em; [unfold STARTING_CAPACITY in Em; lia|].
    exists (S n). split; [done|]. unfold STARTING_CAPACITY in Em. lia. }
  cbn [arr_items arr_capacity].
  destruct (IH (dn ++ [v]) cap') as (cap'' & E & Hlen); [rewrite length_app; cbn; lia|].
  rewrite <-app_assoc in E, Hlen. by exists cap''.
Qed.

Lemma deep_copy_ok v : wf_value v = true →
  json_value_deep_copy v = Some (copy v) ∧ wf_value (copy v) = true ∧ trim (copy v) = trim v.
Proof.
  unfold copy. induction v as [|t|d|ps cap IH|items cap IH|b] using JSON_Value_ind; intros Hwf.
  - done.
  - cbn. split_and!; [done..|]. unfold parson_strndup, strlen. rewrite take_ge by done.
    by rewrite (cstr_id (cstr t)) by apply cstr_nul_free.
  - cbn [wf_value] in Hwf. cbn [json_value_deep_copy]. unfold json_value_init_number.
    destruct d as [b|b| |b m e]; try done; by destruct b.
  - apply wf_value_object in Hwf as [_ Hwf]. set (qs := map (λ p, (p.1, copy p.2)) ps).
    assert (Forall (λ p, json_value_deep_copy p.2 = Some (copy p.2) ∧ wf_value (copy p.2) = true ∧
      trim (copy p.2) = trim p.2) ps) as Hc.
    { apply list.Forall_forall. intros p Hp. rewrite list.Forall_forall in IH. apply (IH p Hp).
      destruct Hwf as [_ _ Hv]. rewrite list.Forall_forall in Hv. by apply Hv. }
    assert (names qs = names ps) as Hn. { unfold names, qs. by rewrite map_map. }
    assert (wf_pairs qs) as Hq.
    { destruct Hwf as [Hnd Hnf _]. split; rewrite ?Hn; try done. unfold qs. apply Forall_fmap.
      eapply list.Forall_impl; [exact Hc|]. cbn. by intros p (_ & ? & _). }
    cbn [json_value_deep_copy]. fold (names ps). rewrite <-Hn.
    destruct (copy_pairs_loop (map (λ p, (p.1, json_value_deep_copy p.2)) ps) qs [] 0)
      as (cap' & E & Hlen); [done|done| |].
    { apply list.Forall_forall. intros q (p & -> & Hp)%list_elem_of_fmap. cbn [fst snd].
      rewrite getn_loop_map. rewrite list.Forall_forall in Hc. destruct (Hc p Hp) as (Hcp & _).
      destruct Hwf as [Hnd Hnf _]. assert (nul_free p.1) as Hp1.
      { rewrite list.Forall_forall in Hnf. apply Hnf. apply list_elem_of_fmap. by exists p. }
      unfold strlen. rewrite (cstr_id p.1 Hp1).
      rewrite (proj2 (getn_loop_Some ps p.1 p.2 Hnf Hnd Hp1)) by (by destruct p). cbn. by rewrite Hcp. }
    cbn [app] in E, Hlen. unfold json_object_init. rewrite E. cbn [fmap option_fmap option_map default].
    split; [done|]. split; [by apply wf_value_object|]. cbn [trim id]. unfold qs. rewrite map_map, length_map.
    do 2 f_equal. apply map_ext_in. intros p Hp. cbn [fst snd]. f_equal.
    rewrite list.Forall_forall in Hc. by apply Hc, list_elem_of_In.
  - apply wf_value_array in Hwf as [_ Hv].
    assert (Forall (λ x, json_value_deep_copy x = Some (copy x) ∧ wf_value (copy x) = true ∧
      trim (copy x) = trim x) items) as Hc.
    { apply list.Forall_forall. intros x Hx. rewrite list.Forall_forall in IH, Hv. by apply IH, Hv. }
    cbn [json_value_deep_copy].
    assert (map json_value_deep_copy items = map Some (map copy items)) as ->.
    { rewrite map_map. apply map_ext_in. intros x Hx. rewrite list.Forall_forall in Hc.
      by apply Hc, list_elem_of_In. }
    destruct (copy_items_loop (map copy items) [] 0) as (cap' & E & Hlen); [done|].
    cbn [app] in E, Hlen. unfold json_array_init. rewrite E. cbn [fmap option_fmap option_map default].
    split; [done|]. split.
    + apply wf_value_array. split; [done|]. apply Forall_fmap. eapply list.Forall_impl; [exact Hc|].
      cbn. by intros x (_ & ? & _).
    + cbn [trim id]. rewrite map_map, length_map. do 2 f_equal. apply map_ext_in. intros x Hx.
      rewrite list.Forall_forall in Hc. by apply Hc, list_elem_of_In.
  - by destruct b.
Qed.

(** Values that differ only in capacities and past a NUL are equal for the library. *)
Lemma trim_equals v : ∀ v', wf_value v = true → wf_value v' = true → trim v = trim v' →
  value_equals v (Some v') = true.
Proof.
  induction v as [|t|d|ps cap IH|items cap IH|b] using JSON_Value_ind;
    intros [|t'|d'|[ps' cap']|[items' cap']|b'] Hwf Hwf' E; try done; cbn [trim] in E; simplify_eq;
    cbn [value_equals json_value_get_type].
  - unfold strcmp_eq. by apply bool_decide_eq_true.
  - by apply number_close_refl.
  - rewrite (bool_decide_false (TObject ≠ TObject)) by (intros Hn; by apply Hn). cbn [obj_pairs].
    rewrite bool_decide_true by done. cbn [andb]. apply forallb_Forall, list.Forall_forall. intros p Hp.
    apply wf_value_object in Hwf as [_ [Hnd Hnf Hv]], Hwf' as [_ [Hnd' Hnf' Hv']].
    rewrite list.Forall_forall in IH, Hv, Hv'. assert (nul_free p.1) as Hp1.
    { rewrite list.Forall_forall in Hnf. apply Hnf. apply list_elem_of_fmap. by exists p. }
    assert ((p.1, trim p.2) ∈ map (λ p, (p.1, trim p.2)) ps') as Hin.
    { rewrite <-E. apply list_elem_of_fmap. by exists p. }
    apply list_elem_of_fmap in Hin as (q & [= Hq1 Hq2] & Hq).
    rewrite getn_loop_map. unfold strlen at 1. rewrite (cstr_id p.1 Hp1).
    rewrite (proj2 (getn_loop_Some ps p.1 p.2 Hnf Hnd Hp1)) by (by destruct p). cbn [fmap option_fmap option_map].
    cbn [json_object_get_value json_object_getn_value obj_pairs]. unfold strlen. rewrite (cstr_id p.1 Hp1).
    rewrite (proj2 (getn_loop_Some ps' p.1 q.2 Hnf' Hnd' Hp1)) by (rewrite Hq1; by destruct q).
    apply (IH p Hp); auto.
  - rewrite (bool_decide_false (TArray ≠ TArray)) by (intros Hn; by apply Hn). cbn [arr_items].
    rewrite bool_decide_true by done. cbn [andb].
    apply wf_value_array in Hwf as [_ Hv], Hwf' as [_ Hv']. clear -IH Hv Hv' E.
    revert items' Hv' E. induction items as [|x items IHi]; intros [|y items'] Hv' E; try done.
    cbn [map] in E. injection E as E1 E2. apply Forall_cons_iff in IH as [IHx IH], Hv as [Hx Hv], Hv' as [Hy Hv'].
    cbn [map zip_with forallb fst snd].
    rewrite IHx by done. cbn [andb]. by apply IHi.
  - by destruct b'.
Qed.

(** A deep copy of a well-formed value exists, is well formed, is equal to
    the original for [json_value_equals] and has the same contents up to the
    capacity of its containers. *)
Theorem deep_copy_equal v : wf_value v = true →
  ∃ v', json_value_deep_copy v = Some v' ∧ wf_value v' = true ∧ trim v' = trim v ∧
    json_value_equals (Some v) (Some v') = true.
Proof.
  intros Hwf. destruct (deep_copy_ok v Hwf) as (E & Hw & Ht). exists (copy v). split_and!; [done..|].
  by apply trim_equals.
Qed.

(** ** Sequences of API calls *)

(** What a call inserts: NULL, or a well-formed tree of its own. *)
Definition inserted (value : option JSON_Value) : Prop := ∀ v, value = Some v → wf_value v = true.

(** The calls that change an object, *)
Inductive object_call : (option JSON_Object → JSON_Status * option JSON_Object) → Prop :=
  | call_set_value name value p : inserted value → object_call (λ o, json_object_set_value o name value p)
  | call_set_string name s : object_call (λ o, json_object_set_string o name s)
  | call_set_number name d : object_call (λ o, json_object_set_number o name d)
  | call_set_boolean name b : object_call (λ o, json_object_set_boolean o name b)
  | call_set_null name : object_call (λ o, json_object_set_null o name)
  | call_dotset_value name value : inserted value → object_call (λ o, json_object_dotset_value o name value false)
  | call_dotset_string name s : object_call (λ o, json_object_dotset_string o name s)
  | call_dotset_number name d : object_call (λ o, json_object_dotset_number o name d)
  | call_dotset_boolean name b : object_call (λ o, json_object_dotset_boolean o name b)
  | call_dotset_null name : object_call (λ o, json_object_dotset_null o name)
  | call_remove name : object_call (λ o, json_object_remove o name)
  | call_dotremove name : object_call (λ o, json_object_dotremove o name)
  | call_clear : object_call json_object_clear.

(** and those that change an array. *)
Inductive array_call : (option JSON_Array → JSON_Status * option JSON_Array) → Prop :=
  | call_append_value value p : inserted value → array_call (λ a, json_array_append_value a value p)
  | call_append_string s : array_call (λ a, json_array_append_string a s)
  | call_append_number d : array_call (λ a, json_array_append_number a d)
  | call_append_boolean b : array_call (λ a, json_array_append_boolean a b)
  | call_append_null : array_call json_array_append_null
  | call_replace_value i value p : inserted value → array_call (λ a, json_array_replace_value a i value p)
  | call_replace_string i s : array_call (λ a, json_array_replace_string a i s)
  | call_replace_number i d : array_call (λ a, json_array_replace_number a i d)
  | call_replace_boolean i b : array_call (λ a, json_array_replace_boolean a i b)
  | call_replace_null i : array_call (λ a, json_array_replace_null a i)
  | call_array_remove i : array_call (λ a, json_array_remove a i)
  | call_array_clear : array_call json_array_clear.

(** One call, whatever its status, on a container or on one inside it. *)
Inductive api_step : JSON_Value → JSON_Value → Prop :=
  | on_object f o st o' : object_call f → f (Some o) = (st, Some o') → api_step (JSONObject o) (JSONObject o')
  | on_array f a st a' : array_call f → f (Some a) = (st, Some a') → api_step (JSONArray a) (JSONArray a')
  | in_object ps cap i k v v' : ps !! i = Some (k, v) → api_step v v' →
      api_step (JSONObject (MkObject ps cap)) (JSONObject (MkObject (<[i := (k, v')]> ps) cap))
  | in_array items cap i v v' : items !! i = Some v → api_step v v' →
      api_step (JSONArray (MkArray items cap)) (JSONArray (MkArray (<[i := v']> items) cap)).

Lemma inserted_string s : inserted (json_value_init_string s).
Proof. intros v E. unfold json_value_init_string in E. destruct s; [|done]. case_match; by simplify_eq. Qed.
Lemma inserted_number d : inserted (json_value_init_number d).
Proof. intros v H. unfold json_value_init_number in H. destruct d as [[]|[]| |[] m e]; cbn in H; by simplify_eq. Qed.
Lemma inserted_some v : wf_value v = true → inserted (Some v).
Proof. intros H w. by intros [= <-]. Qed.
Create HintDb parson_api.
#[export] Hint Resolve inserted_string inserted_number : parson_api.
#[export] Hint Extern 1 (inserted (Some _)) => by apply inserted_some : parson_api.

Lemma set_value_ok o name value p st o' : obj_ok o → inserted value →
  json_object_set_value (Some o) name value p = (st, Some o') → obj_ok o'.
Proof.
  intros Hok Hw H. destruct value as [v|]; [|unfold json_object_set_value in H; by simplify_eq]. destruct p.
  - unfold json_object_set_value in H. by simplify_eq.
  - destruct (set_value_map o name v Hok (Hw v eq_refl)) as (o1 & E1 & ? & _). congruence.
Qed.

Lemma dotset_none name : ∀ o comp p, dotset_scan (Some o) comp name None p = (JSONFailure, Some o).
Proof. induction name as [|c name IH]; intros o comp p; cbn [dotset_scan]; [done|]. by case_bool_decide. Qed.

Lemma dotset_value_ok o name value st o' : obj_ok o → inserted value →
  json_object_dotset_value (Some o) name value false = (st, Some o') → obj_ok o'.
Proof.
  unfold json_object_dotset_value. intros Hok Hw H. destruct value as [v|]; [|rewrite dotset_none in H; by simplify_eq].
  destruct (dotset_outcome (cstr name) o [] v Hok (cstr_nul_free name) (Hw v eq_refl)) as (st1 & o1 & E1 & []). congruence.
Qed.

Lemma object_call_ok f o st o' : object_call f → obj_ok o → f (Some o) = (st, Some o') → obj_ok o'.
Proof.
  intros Hf Hok H. destruct Hf as [name value p Hv|name s|name d|name b|name|name value Hv|name s|name d|name b|name|name|name|].
  1-5: eapply set_value_ok; [done| |exact H]; auto with parson_api.
  1-5: eapply dotset_value_ok; [done| |exact H]; auto with parson_api.
  - pose proof (remove_map o name Hok) as Hr. destruct (object_map o !! cstr name).
    + destruct Hr as (o1 & E1 & ? & _). congruence.
    + rewrite Hr in H. by simplify_eq.
  - destruct (dotremove_outcome (cstr name) o [] Hok (cstr_nul_free name)) as (st1 & o1 & E1 & [] & _).
    unfold json_object_dotremove in H. congruence.
  - cbn in H. simplify_eq. split; [cbn; lia|]. split; constructor.
Qed.

Lemma array_add_ok a v st a' : length (arr_items a) <= arr_capacity a → json_array_add a v = (st, a') →
  st = JSONSuccess ∧ arr_items a' = arr_items a ++ [v] ∧ length (arr_items a') <= arr_capacity a'.
Proof.
  intros Hcap. unfold json_array_add. case_bool_decide.
  - destruct (Nat.max _ _) as [|n] eqn:Em; [unfold STARTING_CAPACITY in Em; lia|]. cbn.
    intros [= <- <-]. cbn. split_and!; [done..|]. rewrite length_app. cbn. unfold STARTING_CAPACITY in Em. lia.
  - intros [= <- <-]. cbn. split_and!; [done..|]. rewrite length_app. cbn. lia.
Qed.

Lemma append_value_ok a value p st a' : wf_value (JSONArray a) = true → inserted value →
  json_array_append_value (Some a) value p = (st, Some a') → wf_value (JSONArray a') = true.
Proof.
  destruct a as [items cap], a' as [items' cap']. rewrite !wf_value_array. intros [Hcap Hv] Hw H.
  unfold json_array_append_value in H. destruct value as [v|]; [|by simplify_eq]. destruct p; [by simplify_eq|].
  destruct (json_array_add _ _) as [st1 a1] eqn:Ea. simplify_eq.
  apply array_add_ok in Ea as (_ & Hi & Hc); [|done]. cbn in Hi, Hc. split; [done|]. rewrite Hi.
  apply Forall_app. split; [done|]. constructor; [by apply Hw|done].
Qed.

Lemma replace_value_ok a i value p st a' : wf_value (JSONArray a) = true → inserted value →
  json_array_replace_value (Some a) i value p = (st, Some a') → wf_value (JSONArray a') = true.
Proof.
  destruct a as [items cap], a' as [items' cap']. rewrite !wf_value_array. intros [Hcap Hv] Hw H.
  unfold json_array_replace_value in H. destruct value as [v|]; [|by simplify_eq].
  case_match; simplify_eq; [done|]. cbn [arr_items arr_capacity] in *.
  split; [by rewrite length_insert|]. apply Forall_insert; [done|by apply Hw].
Qed.

Lemma array_call_ok f a st a' : array_call f → wf_value (JSONArray a) = true → f (Some a) = (st, Some a') →
  wf_value (JSONArray a') = true.
Proof.
  intros Hf Hok H. destruct Hf as [value p Hv|s|d|b| |i value p Hv|i s|i d|i b|i|i|].
  1-5: eapply append_value_ok; [done| |exact H]; auto with parson_api.
  1-5: eapply replace_value_ok; [done| |exact H]; auto with parson_api.
  all: destruct a as [items cap], a' as [items' cap']; rewrite wf_value_array in *; destruct Hok as [Hcap Hv].
  - unfold json_array_remove in H. case_bool_decide; simplify_eq; [done|]. cbn [arr_items arr_capacity] in *.
    split; [rewrite length_app, length_take, length_drop; lia|].
    apply Forall_app. split; [by apply Forall_take|by apply Forall_drop].
  - cbn in H. simplify_eq. split; [cbn; lia|constructor].
Qed.

(** A member takes another value. *)
Lemma member_ok ps cap i k v v' : wf_value (JSONObject (MkObject ps cap)) = true → ps !! i = Some (k, v) →
  (wf_value v = true → wf_value v' = true) → wf_value (JSONObject (MkObject (<[i := (k, v')]> ps) cap)) = true.
Proof.
  rewrite !wf_value_object, length_insert. intros [Hcap [Hnd Hnf Hv]] Hi Hw. split; [done|].
  assert (names (<[i := (k, v')]> ps) = names ps) as En.
  { unfold names. rewrite list_fmap_insert. cbn [fst]. apply list_insert_id. by rewrite list_lookup_fmap, Hi. }
  split; [by rewrite En..|]. apply Forall_insert; [done|]. apply Hw. by eapply (Forall_lookup_1 _ _ i (k, v)) in Hv.
Qed.

Lemma api_step_wf v v' : api_step v v' → wf_value v = true → wf_value v' = true.
Proof.
  induction 1 as [f o st o' Hf E|f a st a' Hf E|ps cap i k v v' Hi _ IH|items cap i v v' Hi _ IH]; intros Hwf.
  - apply obj_ok_value. apply obj_ok_value in Hwf. by eapply object_call_ok.
  - by eapply array_call_ok.
  - by eapply member_ok.
  - apply wf_value_array in Hwf as [Hcap Hv]. apply wf_value_array. rewrite length_insert. split; [done|].
    apply Forall_insert; [done|]. apply IH. by eapply (Forall_lookup_1 _ _ i v) in Hv.
Qed.

(** C31: every sequence of calls of the 25 functions of parson that change an
    object or an array, on a well-formed value and on the containers inside it,
    whatever calls succeed or fail, keeps the value well formed: names stay
    distinct and within the C-string range, numbers finite, and no container
    ever holds more entries than the capacity allocated for it. A value that is
    inserted is well formed and a tree of its own (inserting a value into
    itself is the defect [cyclic_insertion]), and for the dotted names it has no
    parent. *)
Theorem api_keeps_wf v v' : wf_value v = true → rtc api_step v v' → wf_value v' = true.
Proof. intros Hwf Hsteps. induction Hsteps; [done|]. eauto using api_step_wf. Qed.

(** ** Concrete runs *)

(** An object with a string, a number and a nested object. *)
Definition sample_object : JSON_Object :=
  MkObject [(bs "a", JSONString (bs "x")); (bs "n", JSONNumber (of_int 7));
            (bs "o", JSONObject (MkObject [(bs "b", JSONBoolean true)] 16))] 16.

Lemma sample_object_ok : obj_ok sample_object.
Proof. apply obj_ok_value. vm_compute. reflexivity. Qed.

Lemma object_api_refines_map_witness : ∃ o',
  json_object_remove (Some sample_object) (bs "a") = (JSONSuccess, Some o') ∧ obj_ok o' ∧
  object_map o' = delete (bs "a") (object_map sample_object).
Proof.
  destruct (object_api_refines_map sample_object (bs "a") JSONNull sample_object_ok eq_refl)
    as (_ & _ & H & _).
  exact H.
Defined.

Lemma dotted_names_witness : ∃ st o',
  json_object_dotset_value (Some sample_object) (bs "o.c.d") (Some JSONNull) false = (st, Some o') ∧
  obj_ok o' ∧ json_object_dotget_value (Some o') (bs "o.c.d") = Some JSONNull.
Proof.
  destruct (dotted_names sample_object (bs "o.c.d") JSONNull sample_object_ok eq_refl)
    as [(st & o' & E & Hok & Hs & _) _].
  exists st, o'. split; [exact E|]. split; [exact Hok|]. apply Hs.
  change st with (st, Some o').1. rewrite <-E. vm_compute. reflexivity.
Defined.

Lemma deep_copy_equal_witness : ∃ v',
  json_value_deep_copy (JSONObject sample_object) = Some v' ∧ wf_value v' = true ∧
  trim v' = trim (JSONObject sample_object) ∧
  json_value_equals (Some (JSONObject sample_object)) (Some v') = true.
Proof. apply deep_copy_equal. vm_compute. reflexivity. Defined.

(** Seventeen insertions into an empty array exceed its first capacity. *)
Definition fill (n : nat) : JSON_Array :=
  Nat.iter n (λ a, (json_array_add a JSONNull).2) json_array_init.

Lemma api_keeps_wf_witness :
  arr_capacity (fill 17) = 32 ∧ wf_value (JSONArray (fill 17)) = true.
Proof.
  split; [reflexivity|]. apply (api_keeps_wf (JSONArray (fill 0))); [reflexivity|].
  do 17 (eapply rtc_l; [eapply (on_array _ _ JSONSuccess); [apply call_append_null|reflexivity]|]).
  apply rtc_refl.
Defined.
End ParsonApi.
