(* ===== verification/ParsonSchema.v ===== *)
(** * Schema validation (src/common/json/parson.c, [json_validate])

    A specification of what it means for a value to match a schema, and the
    theorem that [Parson.json_validate] decides it on well-formed values. The
    aliases at the end of parson.c are here too. *)
From S2P Require Import Prelude Cdouble Parson ParsonApi.
Import Cdouble Parson ParsonApi.

Module ParsonSchema.

(** ** Aliases *)

Definition json_type := json_value_get_type.
Definition json_object := json_value_get_object.
Definition json_array := json_value_get_array.
Definition json_string := json_value_get_string.
Definition json_number := json_value_get_number.
Definition json_boolean := json_value_get_boolean.

(** ** The specification *)

(** [null] matches every value; an array without elements every array, one with
    elements the arrays whose elements all match its first one; an object the
    objects that have every name of it with a value that matches; any other
    value the values of its type. *)
Inductive conforms : JSON_Value → JSON_Value → Prop :=
  | conforms_null v : conforms JSONNull v
  | conforms_string s t : conforms (JSONString s) (JSONString t)
  | conforms_number d e : conforms (JSONNumber d) (JSONNumber e)
  | conforms_boolean b c : conforms (JSONBoolean b) (JSONBoolean c)
  | conforms_any_array cap a : conforms (JSONArray (MkArray [] cap)) (JSONArray a)
  | conforms_array sc rest cap items cap' : (∀ v, v ∈ items → conforms sc v) →
      conforms (JSONArray (MkArray (sc :: rest) cap)) (JSONArray (MkArray items cap'))
  | conforms_object ps cap qs cap' :
      (∀ k sc, (k, sc) ∈ ps → ∃ v, (k, v) ∈ qs) → (∀ k sc v, (k, sc) ∈ ps → (k, v) ∈ qs → conforms sc v) →
      conforms (JSONObject (MkObject ps cap)) (JSONObject (MkObject qs cap')).

(** Distinct names that all occur in a list are not more than it has. *)
Lemma names_bound {V W} (ps : list (bytes * V)) (qs : list (bytes * W)) :
  NoDup (names ps) → (∀ k v, (k, v) ∈ ps → ∃ w, (k, w) ∈ qs) → length ps <= length qs.
Proof.
  intros Hnd H. assert (names ps ⊆+ names qs) as Hs%submseteq_length.
  { apply NoDup_submseteq; [done|]. intros k ([k' v] & -> & Hin)%list_elem_of_fmap.
    destruct (H _ _ Hin) as [w Hw]. apply list_elem_of_fmap. by exists (k', w). }
  unfold names in Hs. by rewrite !length_map in Hs.
Qed.

Lemma name_nul_free {V} (ps : list (bytes * V)) k v : Forall nul_free (names ps) → (k, v) ∈ ps → nul_free k.
Proof. intros Hf Hin. rewrite list.Forall_forall in Hf. apply Hf, list_elem_of_fmap. by exists (k, v). Qed.

(** What the loop over the names of a schema finds. *)
Lemma validates_pairs ps qs cap : wf_pairs ps → wf_pairs qs →
  forallb (λ p, match json_object_get_value (Some (MkObject qs cap)) p.1 with
                | None => false
                | Some tv => match getn_loop (map (λ p, (p.1, validates p.2)) ps) p.1 (strlen p.1) with
                             | Some f => f (Some tv)
                             | None => false
                             end
                end) ps = true ↔
  (∀ k sc, (k, sc) ∈ ps → ∃ v, (k, v) ∈ qs) ∧ ∀ k sc v, (k, sc) ∈ ps → (k, v) ∈ qs → validates sc (Some v) = true.
Proof.
  intros [Hn Hf _] [Hn' Hf' _]. rewrite forallb_Forall, list.Forall_forall.
  assert (∀ k sc, (k, sc) ∈ ps → getn_loop (map (λ p, (p.1, validates p.2)) ps) k (length k) = Some (validates sc)) as Hps.
  { intros k sc Hin. rewrite getn_loop_map, (proj2 (getn_loop_Some ps k sc Hf Hn (name_nul_free _ _ _ Hf Hin)) Hin). done. }
  assert (∀ k sc v, (k, sc) ∈ ps → json_object_get_value (Some (MkObject qs cap)) k = Some v ↔ (k, v) ∈ qs) as Hqs.
  { intros k sc v Hin%name_nul_free; [|done]. rewrite <-(getn_loop_Some qs k v Hf' Hn' Hin).
    unfold json_object_get_value. cbn [json_object_getn_value obj_pairs]. unfold strlen. by rewrite (cstr_id k Hin). }
  assert (∀ k sc, (k, sc) ∈ ps → strlen k = length k) as Hl.
  { intros k sc Hin%name_nul_free; [|done]. unfold strlen. by rewrite cstr_id. }
  split.
  - intros H. split.
    + intros k sc Hin. specialize (H _ Hin). cbn [fst] in H.
      destruct (json_object_get_value _ k) as [v|] eqn:Eq; [|done]. exists v. by apply (Hqs k sc).
    + intros k sc v Hin Hv. specialize (H _ Hin). cbn [fst] in H. apply (Hqs k sc v Hin) in Hv.
      by rewrite Hv, (Hl k sc Hin), (Hps k sc Hin) in H.
  - intros [He Hc] [k sc] Hin. cbn [fst]. destruct (He k sc Hin) as [v Hv].
    rewrite (proj2 (Hqs k sc v Hin) Hv), (Hl k sc Hin), (Hps k sc Hin). by apply (Hc k sc v).
Qed.

(** C27: [json_validate] of a well-formed value against a well-formed schema
    succeeds exactly if the value conforms to the schema; without a schema or a
    value it fails. *)
Theorem json_validate_iff sc v : wf_value sc = true → wf_value v = true →
  (json_validate (Some sc) (Some v) = JSONSuccess ↔ conforms sc v) ∧
  json_validate None (Some v) = JSONFailure ∧ json_validate (Some sc) None = JSONFailure.
Proof.
  intros Hsc Hv. split; [|split; [done|by destruct sc as [| | |[]|[]|]]].
  assert (validates sc (Some v) = true ↔ conforms sc v) as H.
  2: { unfold json_validate, status_of. rewrite <-H. by destruct (validates sc (Some v)). }
  revert v Hv. induction sc as [|s|d|ps cap IH|items cap IH|b] using JSON_Value_ind; intros v Hv.
  - split; [intros _; constructor|done].
  - cbn. destruct v; (split; [|by inversion 1]); try done. constructor.
  - cbn. destruct v; (split; [|by inversion 1]); try done. constructor.
  - apply wf_value_object in Hsc as [_ Hps]. destruct v as [| | |[qs cap']|[]|]; try (split; [done|by inversion 1]).
    apply wf_value_object in Hv as [_ Hqs].
    transitivity ((∀ k sc, (k, sc) ∈ ps → ∃ v, (k, v) ∈ qs) ∧
      ∀ k sc v, (k, sc) ∈ ps → (k, v) ∈ qs → validates sc (Some v) = true).
    + rewrite <-(validates_pairs ps qs cap' Hps Hqs). cbn [validates]. destruct ps as [|p ps']; [done|].
      case_bool_decide as Hlen; [|done]. split; [done|]. cbn [obj_pairs] in Hlen.
      intros [He _]%(validates_pairs (p :: ps') qs cap' Hps Hqs).
      pose proof (names_bound (p :: ps') qs (wf_names _ Hps) He). lia.
    + assert (∀ k sc v, (k, sc) ∈ ps → (k, v) ∈ qs → validates sc (Some v) = true ↔ conforms sc v) as He.
      { intros k sc v Hin Hin'. rewrite list.Forall_forall in IH. pose proof (wf_values _ Hps) as Hw. pose proof (wf_values _ Hqs) as Hw'.
        rewrite list.Forall_forall in Hw, Hw'. apply (IH _ Hin); [by apply (Hw _ Hin)|by apply (Hw' _ Hin')]. }
      split; [intros [H1 H2]; constructor|inversion 1; subst; split]; try done; intros k sc v Hk Hv; apply (He k); eauto.
  - apply wf_value_array in Hsc as [_ Hps]. destruct v as [| | |[]|[vs cap']|]; try (split; [done|by inversion 1]).
    apply wf_value_array in Hv as [_ Hvs]. cbn [validates map]. destruct items as [|sc rest]; [split; [intros _; constructor|done]|].
    cbn [map arr_items]. apply Forall_cons_iff in IH as [IH _], Hps as [Hsc _]. rewrite forallb_Forall.
    split; [intros H; constructor|inversion 1 as [| | | | |????? H'|]; subst; apply list.Forall_forall];
      rewrite list.Forall_forall in *; intros x Hx; apply IH; auto.
  - cbn. destruct v; (split; [|by inversion 1]); try done. constructor.
Qed.

(** ** Example: a schema of bids and a value with more than it asks for *)

Definition bid_schema : JSON_Value :=
  JSONObject (MkObject [(bs "bidder", JSONString []); (bs "values", JSONArray (MkArray [JSONNumber (round_decimal false 0 0)] 1))] 2).
Definition some_bids : JSON_Value :=
  JSONObject (MkObject [(bs "values", JSONArray (MkArray [JSONNumber (round_decimal false 7 0)] 4)); (bs "open", JSONBoolean true);
                        (bs "bidder", JSONString (bs "A"))] 4).

Lemma json_validate_iff_witness : conforms bid_schema some_bids ∧ ¬ conforms some_bids bid_schema.
Proof.
  split.
  - apply (json_validate_iff bid_schema some_bids); vm_compute; reflexivity.
  - intros H. apply (json_validate_iff some_bids bid_schema) in H; [|vm_compute; reflexivity..]. vm_compute in H. discriminate H.
Defined.
End ParsonSchema.
