(* ===== verification/StdMap.v ===== *)
(** * std::map and std::set with std::string keys

    The ledger state, the updates of a block and the read and write sets are
    [std::map]/[std::set] containers. Their iteration order is observable (the
    hashes are computed over it), so a map is the list of its entries in
    iteration order, with the operations the sources use: [find], [insert]
    (which does not overwrite), [operator[] =] (which does), [lower_bound].
    The invariant is that keys increase strictly in the lexicographic order of
    unsigned bytes; under it a map is determined by its lookups, and it refines
    a finite map [gmap]. *)
From S2P Require Import Prelude.
From Stdlib Require Import Sorted.

Module StdMap.

(** ** The order of std::string *)

(** [std::string::compare], on unsigned bytes, a proper prefix first. *)
Fixpoint bytes_compare (a b : bytes) : comparison :=
  match a, b with
  | [], [] => Eq
  | [], _ :: _ => Lt
  | _ :: _, [] => Gt
  | x :: a', y :: b' =>
      match (b2z x ?= b2z y)%Z with Eq => bytes_compare a' b' | c => c end
  end.

Definition bytes_lt (a b : bytes) : Prop := bytes_compare a b = Lt.

#[global] Instance bytes_lt_dec a b : Decision (bytes_lt a b).
Proof. unfold bytes_lt. solve_decision. Defined.

Lemma bytes_compare_eq a b : bytes_compare a b = Eq ↔ a = b.
Proof.
  revert b. induction a as [|x a IH]; intros [|y b]; simpl; try done.
  destruct (Z.compare_spec (b2z x) (b2z y)) as [E|E|E].
  - apply b2z_inj in E as ->. rewrite IH. naive_solver.
  - split; [done|]. intros [= -> _]. lia.
  - split; [done|]. intros [= -> _]. lia.
Qed.

Lemma bytes_compare_antisym a b : bytes_compare b a = CompOpp (bytes_compare a b).
Proof.
  revert b. induction a as [|x a IH]; intros [|y b]; simpl; try done.
  rewrite (Z.compare_antisym (b2z x) (b2z y)).
  destruct (b2z x ?= b2z y)%Z; simpl; auto.
Qed.

Lemma bytes_lt_trans a b c : bytes_lt a b → bytes_lt b c → bytes_lt a c.
Proof.
  unfold bytes_lt. revert b c. induction a as [|x a IH]; intros [|y b] [|z c]; simpl; try done.
  destruct (Z.compare_spec (b2z x) (b2z y)), (Z.compare_spec (b2z y) (b2z z)); try done.
  - intros. rewrite (proj2 (Z.compare_eq_iff (b2z x) (b2z z))) by lia. eauto.
  - intros. by rewrite (proj2 (Z.compare_lt_iff (b2z x) (b2z z))) by lia.
  - intros. by rewrite (proj2 (Z.compare_lt_iff (b2z x) (b2z z))) by lia.
  - intros. by rewrite (proj2 (Z.compare_lt_iff (b2z x) (b2z z))) by lia.
Qed.

Lemma bytes_lt_irrefl a : ¬ bytes_lt a a.
Proof. unfold bytes_lt. by rewrite (proj2 (bytes_compare_eq a a) eq_refl). Qed.

#[global] Instance bytes_lt_strict : StrictOrder bytes_lt.
Proof. split; [intros a; apply bytes_lt_irrefl|intros a b c; apply bytes_lt_trans]. Qed.

#[global] Instance bytes_lt_trichotomy : TrichotomyT bytes_lt.
Proof.
  intros a b. destruct (bytes_compare a b) eqn:E.
  - left. right. by apply bytes_compare_eq.
  - left. by left.
  - right. unfold bytes_lt. rewrite bytes_compare_antisym. by rewrite E.
Defined.

(** ** Operations *)

Section operations.
Context {V : Type}.
Implicit Types (m : list (bytes * V)) (k : bytes) (v : V).

Fixpoint map_find k m : option V :=
  match m with
  | [] => None
  | (k', v) :: m' => if bool_decide (k = k') then Some v else map_find k m'
  end.

(** [map.insert({k, v})]: an existing entry is kept. *)
Fixpoint map_insert k v m : list (bytes * V) :=
  match m with
  | [] => [(k, v)]
  | (k', v') :: m' =>
      match bytes_compare k k' with
      | Lt => (k, v) :: m
      | Eq => m
      | Gt => (k', v') :: map_insert k v m'
      end
  end.

(** [map[k] = v]: an existing entry is replaced. *)
Fixpoint map_assign k v m : list (bytes * V) :=
  match m with
  | [] => [(k, v)]
  | (k', v') :: m' =>
      match bytes_compare k k' with
      | Lt => (k, v) :: m
      | Eq => (k, v) :: m'
      | Gt => (k', v') :: map_assign k v m'
      end
  end.

(** The entries from the first key not less than [k]. *)
Fixpoint lower_bound k m : list (bytes * V) :=
  match m with
  | [] => []
  | (k', v') :: m' => if bool_decide (bytes_lt k' k) then lower_bound k m' else m
  end.

Definition keys m : list bytes := map fst m.
End operations.

(** [std::set<std::string>::insert]. *)
Fixpoint set_insert (k : bytes) (s : list bytes) : list bytes :=
  match s with
  | [] => [k]
  | k' :: s' =>
      match bytes_compare k k' with
      | Lt => k :: s
      | Eq => s
      | Gt => k' :: set_insert k s'
      end
  end.

(** [s.compare(0, k.size(), k) == 0]. *)
Definition starts_with (k s : bytes) : bool := bool_decide (take (length k) s = k).

(** The entries up to the first whose key does not start with [k]. *)
Fixpoint scan_prefix {V} (k : bytes) (m : list (bytes * V)) : list (bytes * V) :=
  match m with
  | [] => []
  | (k', v) :: m' => if starts_with k k' then (k', v) :: scan_prefix k m' else []
  end.

(** ** The invariant *)

Definition sorted (ks : list bytes) : Prop := StronglySorted bytes_lt ks.
Definition map_ok {V} (m : list (bytes * V)) : Prop := sorted (keys m).

Lemma sorted_cons k ks : sorted (k :: ks) ↔ sorted ks ∧ Forall (bytes_lt k) ks.
Proof. split; [by inversion 1|]. intros []. by constructor. Qed.

Section laws.
Context {V : Type}.
Implicit Types (m : list (bytes * V)) (k : bytes) (v : V).

Lemma map_ok_cons k v m : map_ok ((k, v) :: m) ↔ map_ok m ∧ Forall (bytes_lt k) (keys m).
Proof. apply sorted_cons. Qed.

Lemma map_find_None k m : map_find k m = None ↔ k ∉ keys m.
Proof.
  induction m as [|[k' v] m IH]; simpl; [split; [intros _; apply not_elem_of_nil|done]|].
  rewrite not_elem_of_cons. case_bool_decide; naive_solver.
Qed.

Lemma map_find_In k v m : map_find k m = Some v → (k, v) ∈ m.
Proof.
  induction m as [|[k' v'] m IH]; simpl; [done|]. case_bool_decide; intros; simplify_eq.
  - by left.
  - right. auto.
Qed.

(** Below the smallest key nothing is found. *)
Lemma map_find_lt k m : Forall (bytes_lt k) (keys m) → map_find k m = None.
Proof.
  intros H. apply map_find_None. intros Hin. rewrite list.Forall_forall in H.
  by apply (bytes_lt_irrefl k), H.
Qed.

Lemma keys_insert k v m : keys (map_insert k v m) = set_insert k (keys m).
Proof. induction m as [|[k' v'] m IH]; simpl; [done|]. case_match; simpl; by rewrite ?IH. Qed.
Lemma keys_assign k v m : keys (map_assign k v m) = set_insert k (keys m).
Proof.
  induction m as [|[k' v'] m IH]; simpl; [done|].
  destruct (bytes_compare k k') eqn:E; simpl; rewrite ?IH; [|done..].
  apply bytes_compare_eq in E as ->. done.
Qed.

Lemma map_find_insert k k' v m : map_ok m →
  map_find k' (map_insert k v m) =
  match map_find k m with
  | Some _ => map_find k' m
  | None => if bool_decide (k' = k) then Some v else map_find k' m
  end.
Proof.
  induction m as [|[k0 v0] m IH]; [done|]. intros [Hm Hk]%map_ok_cons.
  cbn [map_insert map_find]. destruct (bytes_compare k k0) eqn:E.
  - apply bytes_compare_eq in E as ->. by rewrite (bool_decide_true (k0 = k0)).
  - assert (k ≠ k0) by (intros ->; by apply (bytes_lt_irrefl k0)).
    rewrite (bool_decide_false (k = k0)) by done.
    rewrite (map_find_lt k m); [done|]. eapply list.Forall_impl; [exact Hk|].
    intros. by eapply bytes_lt_trans.
  - assert (k ≠ k0).
    { intros ->. by rewrite (proj2 (bytes_compare_eq k0 k0) eq_refl) in E. }
    rewrite (bool_decide_false (k = k0)) by done. cbn [map_find]. rewrite IH by done.
    destruct (map_find k m); [done|]. repeat case_bool_decide; congruence.
Qed.

Lemma map_find_assign k k' v m : map_ok m →
  map_find k' (map_assign k v m) = if bool_decide (k' = k) then Some v else map_find k' m.
Proof.
  induction m as [|[k0 v0] m IH]; [done|]. intros [Hm Hk]%map_ok_cons.
  cbn [map_assign map_find]. destruct (bytes_compare k k0) eqn:E; cbn [map_find].
  - apply bytes_compare_eq in E as ->. by case_bool_decide.
  - done.
  - rewrite IH by done. repeat case_bool_decide; subst; try done.
    by rewrite (proj2 (bytes_compare_eq k0 k0) eq_refl) in E.
Qed.
End laws.

Lemma elem_of_set_insert k x s : x ∈ set_insert k s ↔ x = k ∨ x ∈ s.
Proof.
  induction s as [|y s IH]; cbn [set_insert]; [apply elem_of_cons|].
  destruct (bytes_compare k y) eqn:E; rewrite !elem_of_cons, ?IH; [|naive_solver..].
  apply bytes_compare_eq in E as ->. naive_solver.
Qed.

Lemma sorted_set_insert k s : sorted s → sorted (set_insert k s).
Proof.
  induction s as [|y s IH]; cbn [set_insert]; [intros; repeat constructor|].
  intros [Hs Hy]%sorted_cons. destruct (bytes_compare k y) eqn:E; apply sorted_cons.
  - done.
  - split; [by apply sorted_cons|]. constructor; [done|]. eapply list.Forall_impl; [exact Hy|].
    intros. by eapply bytes_lt_trans.
  - split; [auto|]. rewrite list.Forall_forall in Hy |- *. intros x [->|?]%elem_of_set_insert; [|auto].
    unfold bytes_lt. by rewrite bytes_compare_antisym, E.
Qed.

(** Two sets with the same elements are iterated in the same order. *)
Lemma sorted_ext s t : sorted s → sorted t → (∀ x, x ∈ s ↔ x ∈ t) → s = t.
Proof.
  revert t. induction s as [|x s IH]; intros [|y t] Hs Ht E.
  - done.
  - exfalso. apply (not_elem_of_nil y). apply E, elem_of_cons. by left.
  - exfalso. apply (not_elem_of_nil x). apply E, elem_of_cons. by left.
  - apply sorted_cons in Hs as [Hs Hx]. apply sorted_cons in Ht as [Ht Hy].
    rewrite list.Forall_forall in Hx, Hy.
    assert (x = y) as ->.
    { destruct (proj1 (elem_of_cons t x y)) as [?|Hin]; [apply E, elem_of_cons; by left|done|].
      destruct (proj1 (elem_of_cons s y x)) as [?|Hin']; [apply E, elem_of_cons; by left|done|].
      destruct (bytes_lt_irrefl x). by eapply bytes_lt_trans; [apply Hx|apply Hy]. }
    f_equal. apply IH; [done..|]. intros z. specialize (E z). rewrite !elem_of_cons in E.
    split; intros Hz.
    + destruct (proj1 E (or_intror Hz)) as [->|?]; [|done]. destruct (bytes_lt_irrefl y). auto.
    + destruct (proj2 E (or_intror Hz)) as [->|?]; [|done]. destruct (bytes_lt_irrefl y). auto.
Qed.

Section invariant.
Context {V : Type}.
Implicit Types (m : list (bytes * V)) (k : bytes) (v : V).

Lemma map_ok_nil : map_ok ([] : list (bytes * V)).
Proof. constructor. Qed.
Lemma map_ok_insert k v m : map_ok m → map_ok (map_insert k v m).
Proof. unfold map_ok. rewrite keys_insert. apply sorted_set_insert. Qed.
Lemma map_ok_assign k v m : map_ok m → map_ok (map_assign k v m).
Proof. unfold map_ok. rewrite keys_assign. apply sorted_set_insert. Qed.

Lemma map_In_find k v m : map_ok m → (k, v) ∈ m → map_find k m = Some v.
Proof.
  induction m as [|[k0 v0] m IH]; [intros _ H; by apply not_elem_of_nil in H|].
  intros [Hm Hk]%map_ok_cons. cbn [map_find]. intros [?|Hin]%elem_of_cons; simplify_eq.
  - by rewrite bool_decide_true.
  - rewrite bool_decide_false; [auto|]. intros ->. rewrite list.Forall_forall in Hk.
    apply (bytes_lt_irrefl k0), Hk, list_elem_of_fmap. by exists (k0, v).
Qed.

(** A map is determined by its lookups. *)
Lemma map_ext m1 m2 : map_ok m1 → map_ok m2 → (∀ k, map_find k m1 = map_find k m2) → m1 = m2.
Proof.
  intros H1 H2 E. assert (keys m1 = keys m2) as Ek.
  { apply sorted_ext; [done..|]. intros k.
    destruct (decide (k ∈ keys m1)) as [Hi|Hi], (decide (k ∈ keys m2)) as [Hj|Hj]; try done.
    - apply map_find_None in Hj. by rewrite <-E, map_find_None in Hj.
    - apply map_find_None in Hi. by rewrite E, map_find_None in Hi. }
  revert m2 H2 E Ek. induction m1 as [|[k v] m1 IH]; intros [|[k' v'] m2] H2 E Ek; try done.
  injection Ek as -> Ek. apply map_ok_cons in H1 as [H1 Hk1]. apply map_ok_cons in H2 as [H2 Hk2].
  pose proof (E k') as Ev. cbn [map_find] in Ev. rewrite !bool_decide_true in Ev by done. simplify_eq.
  f_equal. apply IH; [done..| |done]. intros k. specialize (E k). cbn [map_find] in E.
  case_bool_decide; [|done]. subst. by rewrite !map_find_lt.
Qed.

(** [std::map::insert] keeps the entry that is there. *)
Lemma map_insert_present k v m : map_ok m → is_Some (map_find k m) → map_insert k v m = m.
Proof.
  intros Hm [x Hx]. apply map_ext; [by apply map_ok_insert|done|].
  intros k'. by rewrite map_find_insert, Hx.
Qed.
End invariant.

(** ** Range scans *)

Lemma starts_with_cons x k y s :
  starts_with (x :: k) (y :: s) = bool_decide (x = y) && starts_with k s.
Proof.
  unfold starts_with. cbn [length take]. destruct (decide (x = y)) as [->|Hxy].
  - rewrite (bool_decide_true (y = y)) by done. apply bool_decide_ext. split; [by intros [= ?]|by intros ->].
  - rewrite (bool_decide_false (x = y)) by done. apply bool_decide_eq_false. congruence.
Qed.

(** Below [k] no key starts with [k]. *)
Lemma starts_with_lt k s : bytes_lt s k → starts_with k s = false.
Proof.
  unfold bytes_lt. revert s. induction k as [|x k IH]; intros [|y s]; try done.
  cbn [bytes_compare]. rewrite starts_with_cons. case_bool_decide; subst; [|done].
  rewrite Z.compare_refl. apply IH.
Qed.

(** From [k] on, the keys that start with [k] come first. *)
Lemma starts_with_between k s t : ¬ bytes_lt s k → bytes_lt s t →
  starts_with k t = true → starts_with k s = true.
Proof.
  unfold bytes_lt. revert s t. induction k as [|x k IH]; intros [|y s] [|z t]; try done.
  rewrite !starts_with_cons. cbn [bytes_compare]. intros Hs Ht [E Hk]%andb_true_iff.
  apply bool_decide_eq_true in E as <-.
  destruct (Z.compare_spec (b2z y) (b2z x)) as [E|E|E]; [|done..].
  apply b2z_inj in E as ->. rewrite bool_decide_true by done. simpl. eauto.
Qed.

Lemma scan_prefix_filter {V} k (m : list (bytes * V)) : map_ok m →
  Forall (λ s, ¬ bytes_lt s k) (keys m) →
  scan_prefix k m = List.filter (λ p, starts_with k p.1) m.
Proof.
  induction m as [|[s v] m IH]; [done|]. intros [Hm Hs]%map_ok_cons [Hk Hks]%Forall_cons_iff.
  cbn [scan_prefix List.filter fst]. destruct (starts_with k s) eqn:E; [by rewrite IH|].
  symmetry. clear IH Hm. induction m as [|[t w] m IH]; [done|].
  apply Forall_cons_iff in Hs as [Ht Hs]. apply Forall_cons_iff in Hks as [_ Hks].
  cbn [List.filter fst]. destruct (starts_with k t) eqn:Et; [|auto].
  by rewrite (starts_with_between k s t) in E.
Qed.

(** Starting at [lower_bound(k)] and stopping at the first key without the
    prefix visits exactly the entries whose key starts with [k], in order. *)
Lemma prefix_scan_filter {V} k (m : list (bytes * V)) : map_ok m →
  scan_prefix k (lower_bound k m) = List.filter (λ p, starts_with k p.1) m.
Proof.
  induction m as [|[s v] m IH]; [done|]. intros Hok. pose proof Hok as [Hm Hs]%map_ok_cons.
  cbn [lower_bound]. case_bool_decide as Hlt.
  - cbn [List.filter fst]. rewrite starts_with_lt by done. auto.
  - apply scan_prefix_filter; [done|]. constructor; [done|]. eapply list.Forall_impl; [exact Hs|].
    intros t Ht Htk. by destruct Hlt; eapply bytes_lt_trans.
Qed.

(** ** Refinement of finite maps *)

Definition abs {V} (m : list (bytes * V)) : gmap bytes V := list_to_map m.

Lemma abs_lookup {V} (m : list (bytes * V)) k : abs m !! k = map_find k m.
Proof.
  unfold abs. induction m as [|[k' v] m IH]; [done|]. cbn [list_to_map foldr map_find fst snd].
  rewrite lookup_insert. repeat case_match; simplify_eq; try done; case_bool_decide; congruence.
Qed.

Lemma abs_assign {V} k (v : V) m : map_ok m → abs (map_assign k v m) = <[k := v]> (abs m).
Proof.
  intros Hm. apply map_eq. intros k'. rewrite abs_lookup, map_find_assign, lookup_insert by done.
  rewrite abs_lookup. repeat case_match; case_bool_decide; congruence.
Qed.

Lemma abs_insert {V} k (v : V) m : map_ok m →
  abs (map_insert k v m) = match abs m !! k with Some _ => abs m | None => <[k := v]> (abs m) end.
Proof.
  intros Hm. apply map_eq. intros k'. rewrite abs_lookup, map_find_insert by done.
  rewrite (abs_lookup m k). destruct (map_find k m); [by rewrite abs_lookup|].
  rewrite lookup_insert, abs_lookup. repeat case_match; case_bool_decide; congruence.
Qed.
End StdMap.
