(* ===== verification/Sgx.v ===== *)
(** * The platform: SGX trusted libraries and the peer

    The cryptography the enclaves call (sgx_tcrypto, and OpenSSL's SHA-256 in
    the ledger enclave) and the untrusted peer behind the OCALLs are not part
    of the sources: they are type classes, with the documented behaviour the
    theorems rely on in a separate class of laws. [Toy] is an instance of both,
    used to exhibit concrete runs. The file also defines the state monad of the
    enclave code. *)
From S2P Require Import Prelude.

Module Sgx.

(** ** State and faults *)

(** Code that reads and writes the state [S] and may fault. *)
Definition ST (S A : Type) : Type := S → res (A * S).

#[global] Instance st_ret {S} : MRet (ST S) := λ A a s, Ok (a, s).
#[global] Instance st_bind {S} : MBind (ST S) := λ A B f m s,
  match m s with Ok (a, s') => f a s' | UB e => UB e | NoFuel => NoFuel end.

Definition lift {S A} (r : res A) : ST S A := λ s,
  match r with Ok a => Ok (a, s) | UB e => UB e | NoFuel => NoFuel end.
Definition get {S} : ST S S := λ s, Ok (s, s).
Definition put {S} (s' : S) : ST S unit := λ _, Ok (tt, s').
Definition modify {S} (f : S → S) : ST S unit := λ s, Ok (tt, f s).

(** Sequential iteration over a list with an accumulator. *)
Fixpoint st_fold {S A B} (f : B → A → ST S B) (b : B) (l : list A) : ST S B :=
  match l with
  | [] => mret b
  | a :: l' => b' ← f b a; st_fold f b' l'
  end.

(** A step whose result is known. *)
Lemma st_bind_ok {S A B} (m : ST S A) (f : A → ST S B) s a s' :
  m s = Ok (a, s') → (m ≫= f) s = f a s'.
Proof. intros H. unfold mbind, st_bind. by rewrite H. Qed.

Lemma lift_ok {S A} (r : res A) a (s : S) : r = Ok a → lift r s = Ok (a, s).
Proof. by intros ->. Qed.

(** ** Cryptography *)

Definition SGX_AESGCM_IV_SIZE : nat := 12.
Definition SGX_AESGCM_MAC_SIZE : nat := 16.
Definition SGX_SHA256_HASH_SIZE : nat := 32.

Definition SGX_SUCCESS : Z := 0.
Definition SGX_ERROR_UNEXPECTED : Z := 1.
Definition SGX_ERROR_INVALID_PARAMETER : Z := 2.

Class Crypto := {
  (** SHA-256 of the concatenation of the [update] chunks. *)
  sha256 : bytes → bytes;
  (** CMAC under a key of the concatenation of the [update] chunks. *)
  cmac128 : bytes → bytes → bytes;
  (** [sgx_rijndael128GCM_encrypt key iv plain]: the status and the contents of
      the output buffers, the ciphertext and the tag. *)
  gcm_encrypt : bytes → bytes → bytes → Z * (bytes * bytes);
  (** [sgx_rijndael128GCM_decrypt key iv cipher tag]: status and output. *)
  gcm_decrypt : bytes → bytes → bytes → bytes → Z * bytes;
  (** The [n]-th initialisation vector [sgx_read_rand] yields. *)
  rand_iv : nat → bytes }.

Class CryptoLaws (C : Crypto) : Prop := {
  sha256_length m : length (sha256 m) = SGX_SHA256_HASH_SIZE;
  cmac128_length k m : length (cmac128 k m) = 16;
  rand_iv_length n : length (rand_iv n) = SGX_AESGCM_IV_SIZE;
  gcm_encrypt_ok k iv p : (gcm_encrypt k iv p).1 = SGX_SUCCESS;
  gcm_encrypt_length k iv p : length (gcm_encrypt k iv p).2.1 = length p;
  gcm_tag_length k iv p : length (gcm_encrypt k iv p).2.2 = SGX_AESGCM_MAC_SIZE;
  gcm_decrypt_length k iv c t : length (gcm_decrypt k iv c t).2 = length c;
  gcm_roundtrip k iv p :
    let '(c, t) := (gcm_encrypt k iv p).2 in gcm_decrypt k iv c t = (SGX_SUCCESS, p) }.

(** ** The peer behind the OCALLs *)

(** The answers of the untrusted peer: what it writes to the out buffer, the
    length it reports and the tag. *)
Record answer := MkAnswer { ans_val : bytes; ans_len : Z; ans_cmac : bytes }.

Class Peer (W : Type) := {
  ocall_get_state : bytes → Z → W → answer * W;
  ocall_put_state : bytes → bytes → Z → W → W;
  ocall_get_state_by_partial_composite_key : bytes → Z → W → answer * W }.

(** The generated proxy copies an out buffer of exactly [size] bytes, cleared
    before the call. *)
Definition marshal_out (size : nat) (v : bytes) : bytes := take size (v ++ repeat x00 size).

Lemma marshal_out_length size v : length (marshal_out size v) = size.
Proof. unfold marshal_out. rewrite length_take, length_app, repeat_length. lia. Qed.

Lemma marshal_out_fits size v : length v <= size →
  marshal_out size v = v ++ repeat x00 (size - length v).
Proof.
  intros H. unfold marshal_out. rewrite take_app, take_ge by lia. f_equal.
  replace size with ((size - length v) + length v) at 2 by lia.
  rewrite repeat_app. by rewrite take_app_length' by (by rewrite repeat_length).
Qed.

(** ** A concrete instance *)

Module Toy.

(** Sum of the bytes, as a fixed-size block: a stand-in for a hash. *)
Definition checksum (n : nat) (m : bytes) : bytes :=
  let s := fold_left (λ acc c, (acc * 31 + b2z c) mod 65521)%Z m 7%Z in
  z2b (s / 256) :: z2b s :: repeat x00 (n - 2).

#[export] Instance toy_crypto : Crypto := {
  sha256 := checksum 32;
  cmac128 k m := checksum 16 (k ++ m);
  gcm_encrypt k iv p := (SGX_SUCCESS, (rev p, checksum 16 (k ++ iv ++ p)));
  gcm_decrypt k iv c t := (if bool_decide (t = checksum 16 (k ++ iv ++ rev c)) then SGX_SUCCESS else 3%Z, rev c);
  rand_iv n := z2b (Z.of_nat n) :: repeat x00 11 }.

#[export] Instance toy_laws : CryptoLaws toy_crypto.
Proof.
  split; intros; cbn; try done; rewrite ?length_rev; try done.
  rewrite rev_involutive. by rewrite bool_decide_true.
Qed.
End Toy.
End Sgx.
