(* ===== verification/HeapLogic.v ===== *)
(** * A separation logic for code that allocates

    Memory is a finite map from addresses to blocks. Code is in the state monad
    of the development over a memory and the outcomes of the allocations to
    come, so that running out of memory at any point is covered. Assertions are
    sets of heaps, a linear instance of Iris's [bi]: an assertion describes all
    the memory, so that a specification whose postcondition does not mention a
    block says that the block was freed, and a leak cannot be hidden. [wp] is
    total correctness: no fault, and termination. *)
From iris.algebra Require Import stepindex_finite.
From iris.bi Require Import bi.
From iris.proofmode Require Import proofmode.
From S2P Require Import Prelude Sgx.
Import Sgx.

Module HeapLogic.

Abbreviation addr := positive.

(** ** Memory *)

(** The blocks that are allocated, and for the next allocations whether they
    fail; the ones after the list succeed. *)
Record mem (V : Type) := MkMem { heap : gmap addr V; fails : list bool }.
Arguments MkMem {V}.
Arguments heap {V}.
Arguments fails {V}.

Section memory.
Context {V : Type}.
Abbreviation HM := (ST (mem V)).

(** [parson_malloc]: NULL or a new block. *)
Definition malloc (v : V) : HM (option addr) := λ m,
  let p := fresh (dom (heap m)) in
  match fails m with
  | true :: fs => Ok (None, MkMem (heap m) fs)
  | fs => Ok (Some p, MkMem (<[p := v]> (heap m)) (tail fs))
  end.

(** [parson_free]: nothing for NULL; an address that is not allocated is a
    double free. *)
Definition free (p : option addr) : HM unit := λ m,
  match p with
  | None => Ok (tt, m)
  | Some p =>
      match heap m !! p with
      | None => UB Dangling
      | Some _ => Ok (tt, MkMem (delete p (heap m)) (fails m))
      end
  end.

Definition load (p : option addr) : HM V := λ m,
  match p with
  | None => UB NullDeref
  | Some p => match heap m !! p with None => UB Dangling | Some v => Ok (v, m) end
  end.

Definition store (p : option addr) (v : V) : HM unit := λ m,
  match p with
  | None => UB NullDeref
  | Some p =>
      match heap m !! p with
      | None => UB Dangling
      | Some _ => Ok (tt, MkMem (<[p := v]> (heap m)) (fails m))
      end
  end.
End memory.

(** ** Assertions *)

Record heapProp (V : Type) := HeapProp { at_heap : gmap addr V → Prop }.
Arguments HeapProp {V}.
Arguments at_heap {V}.

Section assertions.
Context {V : Type}.
Implicit Types P Q R : heapProp V.
Implicit Types h : gmap addr V.

#[export] Instance heapProp_equiv : Equiv (heapProp V) := λ P Q, ∀ h, at_heap P h ↔ at_heap Q h.
#[export] Instance heapProp_equivalence : Equivalence (≡@{heapProp V}).
Proof.
  split; [by intros P h|by intros P Q H h; rw (H h)|].
  intros P Q R H1 H2 h. by rw (H1 h) (H2 h).
Qed.

Canonical Structure heapPropO := discreteO (heapProp V).

Record hp_entails P Q : Prop := HpEntails { entails_at : ∀ h, at_heap P h → at_heap Q h }.
Definition hp_emp : heapProp V := HeapProp (λ h, h = ∅).
Definition hp_pure (φ : Prop) : heapProp V := HeapProp (λ _, φ).
Definition hp_and P Q : heapProp V := HeapProp (λ h, at_heap P h ∧ at_heap Q h).
Definition hp_or P Q : heapProp V := HeapProp (λ h, at_heap P h ∨ at_heap Q h).
Definition hp_impl P Q : heapProp V := HeapProp (λ h, at_heap P h → at_heap Q h).
Definition hp_forall {A} (Φ : A → heapProp V) : heapProp V := HeapProp (λ h, ∀ a, at_heap (Φ a) h).
Definition hp_exist {A} (Φ : A → heapProp V) : heapProp V := HeapProp (λ h, ∃ a, at_heap (Φ a) h).
Definition hp_sep P Q : heapProp V :=
  HeapProp (λ h, ∃ h1 h2, h = h1 ∪ h2 ∧ h1 ##ₘ h2 ∧ at_heap P h1 ∧ at_heap Q h2).
Definition hp_wand P Q : heapProp V :=
  HeapProp (λ h, ∀ h', h ##ₘ h' → at_heap P h' → at_heap Q (h ∪ h')).
Definition hp_persistently P : heapProp V := HeapProp (λ _, at_heap P ∅).

Lemma hp_bi_mixin : BiMixin hp_entails hp_emp hp_pure hp_and hp_or hp_impl (@hp_forall) (@hp_exist) hp_sep hp_wand.
Proof.
  split.
  - split; [by intros P|]. intros P Q R [H1] [H2]. split. intros h H. by apply H2, H1.
  - intros P Q. split; [intros H; split; split; intros h; by rw (H h)|].
    intros [[H1] [H2]] h. split; [apply H1|apply H2].
  - by intros n φ ψ H h.
  - intros n P P' HP Q Q' HQ h. cbn. by rw (HP h) (HQ h).
  - intros n P P' HP Q Q' HQ h. cbn. by rw (HP h) (HQ h).
  - intros n P P' HP Q Q' HQ h. cbn. by rw (HP h) (HQ h).
  - intros A n Φ Ψ H h. cbn. split; intros Hx a; by apply (H a h).
  - intros A n Φ Ψ H h. cbn. split; intros [a Hx]; exists a; by apply (H a h).
  - intros n P P' HP Q Q' HQ h. cbn. split; intros (h1 & h2 & ? & ? & H1 & H2); exists h1, h2;
      split_and!; try done; by apply HP || by apply HQ.
  - intros n P P' HP Q Q' HQ h. cbn. split; intros H h' Hd Hp; apply HQ, H; try done; by apply HP.
  - intros φ P Hφ. by split.
  - intros φ P H. split. intros h Hφ. by apply (entails_at _ _ (H Hφ)).
  - intros P Q. by split; intros h [? _].
  - intros P Q. by split; intros h [_ ?].
  - intros P Q R [H1] [H2]. split. intros h H. split; [by apply H1|by apply H2].
  - intros P Q. split. intros h H. by left.
  - intros P Q. split. intros h H. by right.
  - intros P Q R [H1] [H2]. split. intros h [H|H]; [by apply H1|by apply H2].
  - intros P Q R [H]. split. intros h HP HQ. by apply H.
  - intros P Q R [H]. split. intros h [HP HQ]. by apply H.
  - intros A P Ψ H. split. intros h HP a. by apply (entails_at _ _ (H a)).
  - intros A Ψ a. split. intros h H. apply H.
  - intros A Ψ a. split. intros h H. by exists a.
  - intros A Φ Q H. split. intros h [a Ha]. by apply (entails_at _ _ (H a)).
  - intros P P' Q Q' [H1] [H2]. split. intros h (h1 & h2 & -> & Hd & HP & HQ). exists h1, h2.
    split_and!; [done..|by apply H1|by apply H2].
  - intros P. split. intros h H. exists ∅, h.
    by rw (left_id_L ∅ (∪)); split_and!; [|apply map_disjoint_empty_l|..].
  - intros P. split. intros h (h1 & h2 & -> & _ & -> & H). by rw (left_id_L ∅ (∪)).
  - intros P Q. split. intros h (h1 & h2 & -> & Hd & HP & HQ). exists h2, h1.
    by split_and!; [apply map_union_comm| | |].
  - intros P Q R. split. intros h (h12 & h3 & -> & Hd & (h1 & h2 & -> & Hd' & HP & HQ) & HR).
    apply map_disjoint_union_l in Hd as [Hd1 Hd2]. exists h1, (h2 ∪ h3).
    split_and!; [by rw (assoc_L (∪))|by apply map_disjoint_union_r|done|by exists h2, h3].
  - intros P Q R [H]. split. intros h HP h' Hd HQ. apply H. by exists h, h'.
  - intros P Q R [H]. split. intros h (h1 & h2 & -> & Hd & HP & HQ). by apply (H h1).
Qed.

Lemma hp_persistently_mixin :
  BiPersistentlyMixin hp_entails hp_emp hp_and (@hp_exist) hp_sep hp_persistently.
Proof.
  split.
  - intros n P Q H h. apply H.
  - intros P Q [H]. split. intros h. apply H.
  - by intros P; split.
  - by split.
  - by intros P Q; split; intros h [??].
  - intros A Ψ. split. intros h [a Ha]. by exists a.
  - intros P Q. by split; intros h (h1 & h2 & -> & _ & H & _).
  - intros P Q. split. intros h [HP HQ]. exists ∅, h.
    by rw (left_id_L ∅ (∪)); split_and!; [|apply map_disjoint_empty_l|..].
Qed.

Lemma hp_later_mixin :
  BiLaterMixin hp_entails hp_pure hp_or hp_impl (@hp_forall) (@hp_exist) hp_sep hp_persistently id.
Proof. eapply bi_later_mixin_id; [done|apply hp_bi_mixin]. Qed.

Canonical Structure heapPropI : bi := {|
  bi_ofe_mixin := ofe_mixin_of (heapProp V);
  bi_cofe_aux := discrete_cofe _;
  bi_bi_mixin := hp_bi_mixin;
  bi_bi_persistently_mixin := hp_persistently_mixin;
  bi_bi_later_mixin := hp_later_mixin |}.

(** The heap that is one block. *)
Definition points_to (p : addr) (v : V) : heapProp V := HeapProp (λ h, h = {[p := v]}).
End assertions.
Arguments heapPropI : clear implicits.

Notation "p ↦ v" := (points_to p v) (at level 20, format "p  ↦  v") : bi_scope.

(** ** Weakest preconditions

    With [oom] allocations may fail, without it they all succeed. *)
Section wp.
Context {V : Type} (oom : bool).
Abbreviation HM := (ST (mem V)).
Implicit Types h : gmap addr V.

Definition allowed (fs : list bool) : Prop := oom = false → fs = [].

Definition wp {A} (m : HM A) (Φ : A → heapPropI V) : heapPropI V := HeapProp (λ h,
  ∀ hf fs, h ##ₘ hf → allowed fs →
    ∃ a h' fs', m (MkMem (h ∪ hf) fs) = Ok (a, MkMem (h' ∪ hf) fs') ∧ h' ##ₘ hf ∧ allowed fs' ∧ at_heap (Φ a) h').

Lemma wp_ret {A} (a : A) Φ : Φ a ⊢ wp (mret a) Φ.
Proof. split. intros h H hf fs Hd Hfs. by exists a, h, fs. Qed.

Lemma wp_seq {A B} (m : HM A) (f : A → HM B) Φ : wp m (λ a, wp (f a) Φ) ⊢ wp (m ≫= f) Φ.
Proof.
  split. intros h H hf fs Hd Hfs. destruct (H hf fs Hd Hfs) as (a & h1 & fs1 & E1 & Hd1 & Hfs1 & H1).
  destruct (H1 hf fs1 Hd1 Hfs1) as (b & h2 & fs2 & E2 & Hd2 & Hfs2 & H2). exists b, h2, fs2.
  by rw (st_bind_ok _ _ _ _ _ E1).
Qed.

(** The frame rule: what a postcondition implies with the memory the code does
    not touch. *)
Lemma wp_wand {A} (m : HM A) Φ Ψ : wp m Φ -∗ (∀ a, Φ a -∗ Ψ a) -∗ wp m Ψ.
Proof.
  apply bi.wand_intro_r, bi.wand_intro_r. rw bi.emp_sep.
  split. intros h (h1 & h2 & -> & Hd & H & Hw) hf fs Hdf Hfs.
  apply map_disjoint_union_l in Hdf as [Hd1 Hd2].
  destruct (H (h2 ∪ hf) fs) as (a & h' & fs' & E & Hd' & Hfs' & HΦ); [by apply map_disjoint_union_r|done|].
  apply map_disjoint_union_r in Hd' as [Hd1' Hd2']. exists a, (h2 ∪ h'), fs'. split_and!.
  - rw -(assoc_L (∪)) E. by rw (assoc_L (∪)) (map_union_comm h' h2).
  - by apply map_disjoint_union_l.
  - done.
  - by apply (Hw a h').
Qed.

Lemma wp_lift {A} (r : res A) a Φ : r = Ok a → Φ a ⊢ wp (lift r) Φ.
Proof. intros ->. split. intros h H hf fs Hd Hfs. by exists a, h, fs. Qed.

Lemma wp_malloc (v : V) Φ :
  (∀ p, p ↦ v -∗ Φ (Some p)) ∧ (⌜oom = true⌝ → Φ None) ⊢ wp (malloc v) Φ.
Proof.
  split. intros h [Hs Hn] hf fs Hd Hfs. unfold malloc. cbn [heap fails].
  assert (∀ fs', allowed fs' → ∃ a h' fs'',
    Ok (Some (fresh (dom (h ∪ hf))), MkMem (<[fresh (dom (h ∪ hf)) := v]> (h ∪ hf)) fs') =
    Ok (a, MkMem (h' ∪ hf) fs'') ∧ h' ##ₘ hf ∧ allowed fs'' ∧ at_heap (Φ a) h') as Hok.
  { intros fs' Hfs'. set (p := fresh _).
    assert (p ∉ dom (h ∪ hf)) as Hp by apply is_fresh. apply not_elem_of_dom in Hp.
    apply lookup_union_None in Hp as [Hp1 Hp2].
    exists (Some p), (<[p := v]> h), fs'. split_and!; [by rw insert_union_l|by apply map_disjoint_insert_l_2|done|].
    rw insert_union_singleton_l map_union_comm; [|by apply map_disjoint_singleton_l]. 
    apply (Hs p); [by apply map_disjoint_singleton_r|done]. }
  destruct fs as [|[] fs]; cbn [tail].
  - by apply Hok.
  - assert (oom = true) as E.
    { unfold allowed in Hfs. destruct oom; [done|by specialize (Hfs eq_refl)]. }
    exists None, h, fs. split_and!; [done..| |by apply Hn]. intros E'. by rw E' in E.
  - apply Hok. intros E. by specialize (Hfs E).
Qed.

(** The memory around a block that is owned. *)
Lemma split_block p (v : V) (P : heapPropI V) h hf : h ##ₘ hf → at_heap (p ↦ v ∗ P)%I h →
  (h ∪ hf) !! p = Some v ∧ ∃ h2, at_heap P h2 ∧ h2 ##ₘ hf ∧ delete p (h ∪ hf) = h2 ∪ hf ∧
    ∀ w, ∃ h1, at_heap (p ↦ w)%I h1 ∧ h1 ∪ h2 ##ₘ hf ∧ h1 ##ₘ h2 ∧ <[p := w]> (h ∪ hf) = (h1 ∪ h2) ∪ hf.
Proof.
  intros Hd (h1 & h2 & -> & Hd12 & Hh1 & HP). change (h1 = {[p := v]}) in Hh1. subst h1.
  apply map_disjoint_union_l in Hd as [Hd1 Hd2].
  apply map_disjoint_singleton_l in Hd1 as Hp1. apply map_disjoint_singleton_l in Hd12 as Hp2.
  rw -(assoc_L (∪)). split; [apply lookup_union_Some_l, lookup_singleton_eq|].
  exists h2. split_and!; [done..| |].
  - rw -insert_union_singleton_l. apply delete_insert_id, lookup_union_None. done.
  - intros w. exists {[p := w]}. split_and!; [done| |by apply map_disjoint_singleton_l|].
    + apply map_disjoint_union_l. split; [by apply map_disjoint_singleton_l|done].
    + rw -(assoc_L (∪)) -!insert_union_singleton_l. apply insert_insert_eq.
Qed.

Lemma wp_free p (v : V) Φ : p ↦ v ∗ Φ tt ⊢ wp (free (Some p)) Φ.
Proof.
  split. intros h H hf fs Hd Hfs. destruct (split_block p v _ h hf Hd H) as (E & h2 & HΦ & Hd2 & Ed & _).
  exists tt, h2, fs. unfold free. cbn [heap fails]. by rw E Ed.
Qed.

Lemma wp_free_null Φ : Φ tt ⊢ wp (free None) Φ.
Proof. apply wp_ret. Qed.

Lemma wp_load p (v : V) Φ : p ↦ v ∗ (p ↦ v -∗ Φ v) ⊢ wp (load (Some p)) Φ.
Proof.
  split. intros h H hf fs Hd Hfs. destruct (split_block p v _ h hf Hd H) as (E & _).
  exists v, h, fs. unfold load. cbn [heap fails]. rw E. split_and!; [done..|].
  destruct H as (h1 & h2 & -> & Hd12 & H1 & H2). rw (map_union_comm h1 h2); [|done]. by apply H2.
Qed.

Lemma wp_store p (v w : V) Φ : p ↦ v ∗ (p ↦ w -∗ Φ tt) ⊢ wp (store (Some p) w) Φ.
Proof.
  split. intros h H hf fs Hd Hfs. destruct (split_block p v _ h hf Hd H) as (E & h2 & HΦ & Hd2 & _ & Hs).
  destruct (Hs w) as (h1 & Hw & Hd1 & Hd12 & Es). exists tt, (h1 ∪ h2), fs. unfold store. cbn [heap fails].
  rw E Es. split_and!; [done..|]. rw (map_union_comm h1 h2); [|done]. by apply HΦ.
Qed.

(** ** Adequacy

    A specification proved in the logic, as a statement about runs. *)
Lemma wp_adequate {A} (P : heapPropI V) (m : HM A) Φ h fs : (P ⊢ wp m Φ) → at_heap P h → allowed fs →
  ∃ a h' fs', m (MkMem h fs) = Ok (a, MkMem h' fs') ∧ at_heap (Φ a) h'.
Proof.
  intros [H] HP Hfs. destruct (H h HP ∅ fs) as (a & h' & fs' & E & _ & _ & HΦ); [apply map_disjoint_empty_r|done|].
  rw !(right_id_L ∅ (∪)) in E. by exists a, h', fs'.
Qed.
End wp.
End HeapLogic.
