(* ===== verification/ParsonHeap.v ===== *)
(** * parson.c: memory (src/common/json/parson.c)

    The parser and the destructor of parson with the memory they allocate and
    free: a [JSON_Value], [JSON_Object] or [JSON_Array] is a block, with the
    pointers, counts and capacities of the source, any allocation may return
    NULL, and freeing or reading what is not allocated is a fault. The
    definitions follow the source function by function, error paths included,
    and refine the functional model of [Parson] and [ParsonParse]: [owns]
    relates the memory at a pointer to a value. The recursive destructor has as
    fuel the number of blocks, since every level of a tree has a block of its
    own. *)
From iris.bi Require Import bi.
From iris.proofmode Require Import proofmode.
From S2P Require Import Prelude Utils Cdouble ParsonText Parson ParsonParse Sgx HeapLogic.
Import Cdouble ParsonText Parson ParsonParse Sgx HeapLogic.

Module ParsonHeap.

(** ** Blocks *)

(** The union of a [JSON_Value] with its type. *)
Inductive payload :=
  | PNull
  | PString (string : option addr)
  | PNumber (d : double)
  | PObject (object : option addr)
  | PArray (array : option addr)
  | PBoolean (b : bool).

(** A stream of the C library, open for reading or writing: the position
    [ftell] reports at the end of the file, the bytes it delivers, and whether
    it reports an error after them. *)
Record stream := MkStream { end_pos : Z; content : bytes; read_error : bool }.

(** A buffer of characters has a size and, once written, a string; an entry of
    an array of pointers may be uninitialised. An open file is a block too. *)
Inductive block :=
  | BValue (parent : option addr) (v : payload)
  | BObject (wrapping_value names values : option addr) (count capacity : nat)
  | BArray (wrapping_value items : option addr) (count capacity : nat)
  | BPtrs (cells : list (option (option addr)))
  | BChars (size : nat) (s : option bytes)
  | BFile (st : stream).

Abbreviation HM := (ST (mem block)).

(** A block of another kind is never found at a typed pointer. *)
Definition load_value (p : option addr) : HM (option addr * payload) :=
  b ← load p; match b with BValue parent v => mret (parent, v) | _ => lift (UB Dangling) end.
Definition load_object (p : option addr) : HM (option addr * option addr * option addr * nat * nat) :=
  b ← load p; match b with BObject w ns vs n c => mret (w, ns, vs, n, c) | _ => lift (UB Dangling) end.
Definition load_array (p : option addr) : HM (option addr * option addr * nat * nat) :=
  b ← load p; match b with BArray w items n c => mret (w, items, n, c) | _ => lift (UB Dangling) end.
Definition load_string (p : option addr) : HM bytes :=
  b ← load p; match b with BChars _ (Some s) => mret s | BChars _ None => lift (UB Uninitialised) | _ => lift (UB Dangling) end.

(** [p[i]] of an array of pointers. *)
Definition read_cell (p : option addr) (i : nat) : HM (option addr) :=
  b ← load p;
  match b with
  | BPtrs cells =>
      match cells !! i with
      | None => lift (UB OutOfBounds)
      | Some None => lift (UB Uninitialised)
      | Some (Some q) => mret q
      end
  | _ => lift (UB Dangling)
  end.
Definition write_cell (p : option addr) (i : nat) (q : option addr) : HM unit :=
  b ← load p;
  match b with
  | BPtrs cells =>
      if bool_decide (i < length cells) then store p (BPtrs (<[i := Some q]> cells)) else lift (UB OutOfBounds)
  | _ => lift (UB Dangling)
  end.

(** A string with its terminator written to a buffer. *)
Definition write_string (p : option addr) (s : bytes) : HM unit :=
  b ← load p;
  match b with
  | BChars size _ => if bool_decide (length s < size) then store p (BChars size (Some s)) else lift (UB OutOfBounds)
  | _ => lift (UB Dangling)
  end.

(** ** Destructors *)

(** [for (i = i0; i < i0 + n; i++) body(i)]. *)
Fixpoint for_loop (n i : nat) (body : nat → HM unit) : HM unit :=
  match n with
  | O => mret tt
  | S n' => _ ← body i; for_loop n' (S i) body
  end.

Definition json_object_free (json_value_free : option addr → HM unit) (object : option addr) : HM unit :=
  o ← load_object object;
  let '(_, _, _, count, _) := o in
  _ ← for_loop count 0 (λ i,
        o ← load_object object;
        let '(_, ns, vs, _, _) := o in
        k ← read_cell ns i;
        _ ← free k;
        v ← read_cell vs i;
        json_value_free v);
  o ← load_object object;
  let '(_, ns, vs, _, _) := o in
  _ ← free ns;
  _ ← free vs;
  free object.

Definition json_array_free (json_value_free : option addr → HM unit) (array : option addr) : HM unit :=
  a ← load_array array;
  let '(_, _, count, _) := a in
  _ ← for_loop count 0 (λ i,
        a ← load_array array;
        let '(_, items, _, _) := a in
        v ← read_cell items i;
        json_value_free v);
  a ← load_array array;
  let '(_, items, _, _) := a in
  _ ← free items;
  free array.

Fixpoint value_free (fuel : nat) (value : option addr) : HM unit :=
  match fuel with
  | O => lift NoFuel
  | S f =>
      match value with
      | None => free value
      | Some _ =>
          v ← load_value value;
          _ ← match v.2 with
              | PObject o => json_object_free (value_free f) o
              | PString s => free s
              | PArray a => json_array_free (value_free f) a
              | _ => mret tt
              end;
          free value
      end
  end.

Definition json_value_free (value : option addr) : HM unit := λ m, value_free (S (size (heap m))) value m.

(** ** Constructors *)

Definition parson_strndup (string : bytes) (n : nat) : HM (option addr) :=
  output_string ← malloc (BChars (n + 1) None);
  match output_string with
  | None => mret None
  | Some _ => _ ← write_string output_string (take n (cstr string)); mret output_string
  end.

Definition json_object_init (wrapping_value : option addr) : HM (option addr) :=
  malloc (BObject wrapping_value None None 0 0).
Definition json_array_init (wrapping_value : option addr) : HM (option addr) :=
  malloc (BArray wrapping_value None 0 0).

(** The value is allocated first, its object or array second. *)
Definition json_value_init_object : HM (option addr) :=
  new_value ← malloc (BValue None (PObject None));
  match new_value with
  | None => mret None
  | Some _ =>
      object ← json_object_init new_value;
      _ ← store new_value (BValue None (PObject object));
      match object with None => _ ← free new_value; mret None | Some _ => mret new_value end
  end.
Definition json_value_init_array : HM (option addr) :=
  new_value ← malloc (BValue None (PArray None));
  match new_value with
  | None => mret None
  | Some _ =>
      array ← json_array_init new_value;
      _ ← store new_value (BValue None (PArray array));
      match array with None => _ ← free new_value; mret None | Some _ => mret new_value end
  end.
Definition json_value_init_string_no_copy (string : option addr) : HM (option addr) :=
  malloc (BValue None (PString string)).
Definition json_value_init_number (number : double) : HM (option addr) :=
  match Parson.json_value_init_number number with
  | None => mret None
  | Some _ => malloc (BValue None (PNumber number))
  end.
Definition json_value_init_boolean (boolean : Z) : HM (option addr) :=
  malloc (BValue None (PBoolean (negb (Z.eqb boolean 0)))).
Definition json_value_init_null : HM (option addr) := malloc (BValue None PNull).

(** ** Objects *)

Definition json_object_get_count (object : option addr) : HM nat :=
  match object with
  | None => mret 0
  | Some _ => o ← load_object object; let '(_, _, _, count, _) := o in mret count
  end.

(** The loop of [json_object_getn_value], [n] entries from [i] on. *)
Fixpoint getn_from (n i : nat) (object : option addr) (name : bytes) (name_len : nat) : HM (option addr) :=
  match n with
  | O => mret None
  | S n' =>
      o ← load_object object;
      let '(_, ns, vs, _, _) := o in
      k ← read_cell ns i;
      s ← load_string k;
      if bool_decide (strlen s ≠ name_len) then getn_from n' (S i) object name name_len
      else if strncmp_eq s name name_len then read_cell vs i
      else getn_from n' (S i) object name name_len
  end.
Definition json_object_getn_value (object : option addr) (name : bytes) (name_len : nat) : HM (option addr) :=
  count ← json_object_get_count object;
  getn_from count 0 object name name_len.

(** [memcpy] of [count] pointers from one array to the front of another. *)
Definition copy_cells (dst src : option addr) (count : nat) : HM unit :=
  b ← load src;
  d ← load dst;
  match b, d with
  | BPtrs cells, BPtrs cells' =>
      if bool_decide (count <= length cells) && bool_decide (count <= length cells')
      then store dst (BPtrs (take count cells ++ drop count cells')) else lift (UB OutOfBounds)
  | _, _ => lift (UB Dangling)
  end.

Definition is_null {A} (p : option A) : bool := match p with None => true | Some _ => false end.

Definition json_object_resize (object : option addr) (new_capacity : nat) : HM JSON_Status :=
  o ← load_object object;
  let '(w, ns, vs, count, _) := o in
  if (is_null ns && negb (is_null vs)) || (negb (is_null ns) && is_null vs) || bool_decide (new_capacity = 0)
  then mret JSONFailure
  else
    temp_names ← malloc (BPtrs (replicate new_capacity None));
    match temp_names with
    | None => mret JSONFailure
    | Some _ =>
        temp_values ← malloc (BPtrs (replicate new_capacity None));
        match temp_values with
        | None => _ ← free temp_names; mret JSONFailure
        | Some _ =>
            _ ← (if negb (is_null ns) && negb (is_null vs) && bool_decide (0 < count)
                 then _ ← copy_cells temp_names ns count; copy_cells temp_values vs count
                 else mret tt);
            _ ← free ns;
            _ ← free vs;
            _ ← store object (BObject w temp_names temp_values count new_capacity);
            mret JSONSuccess
        end
    end.

(** [value->parent = parent]. *)
Definition set_parent (value parent : option addr) : HM unit :=
  v ← load_value value;
  store value (BValue parent v.2).

Definition json_object_addn (object : option addr) (name : bytes) (name_len : nat) (value : option addr)
  : HM JSON_Status :=
  if is_null object || is_null value then mret JSONFailure
  else
    old ← json_object_getn_value object name name_len;
    if negb (is_null old) then mret JSONFailure
    else
      o ← load_object object;
      let '(_, _, _, count, capacity) := o in
      st ← (if bool_decide (capacity <= count)
            then json_object_resize object (Nat.max (capacity * 2) STARTING_CAPACITY) else mret JSONSuccess);
      match st with
      | JSONFailure => mret JSONFailure
      | JSONSuccess =>
          o ← load_object object;
          let '(w, ns, vs, index, capacity) := o in
          k ← parson_strndup name name_len;
          _ ← write_cell ns index k;
          match k with
          | None => mret JSONFailure
          | Some _ =>
              _ ← set_parent value w;
              _ ← write_cell vs index value;
              _ ← store object (BObject w ns vs (S index) capacity);
              mret JSONSuccess
          end
      end.
Definition json_object_add (object : option addr) (name : bytes) (value : option addr) : HM JSON_Status :=
  json_object_addn object name (strlen name) value.

(** ** Arrays *)

Definition json_array_get_count (array : option addr) : HM nat :=
  match array with
  | None => mret 0
  | Some _ => a ← load_array array; let '(_, _, count, _) := a in mret count
  end.

Definition json_array_resize (array : option addr) (new_capacity : nat) : HM JSON_Status :=
  if bool_decide (new_capacity = 0) then mret JSONFailure
  else
    new_items ← malloc (BPtrs (replicate new_capacity None));
    match new_items with
    | None => mret JSONFailure
    | Some _ =>
        a ← load_array array;
        let '(w, items, count, _) := a in
        _ ← (if negb (is_null items) && bool_decide (0 < count) then copy_cells new_items items count else mret tt);
        _ ← free items;
        _ ← store array (BArray w new_items count new_capacity);
        mret JSONSuccess
    end.

Definition json_array_add (array value : option addr) : HM JSON_Status :=
  a ← load_array array;
  let '(_, _, count, capacity) := a in
  st ← (if bool_decide (capacity <= count)
        then json_array_resize array (Nat.max (capacity * 2) STARTING_CAPACITY) else mret JSONSuccess);
  match st with
  | JSONFailure => mret JSONFailure
  | JSONSuccess =>
      a ← load_array array;
      let '(w, items, count, capacity) := a in
      _ ← set_parent value w;
      _ ← write_cell items count value;
      _ ← store array (BArray w items (S count) capacity);
      mret JSONSuccess
  end.

(** ** The parser *)

(** The loop writes no byte it has not read, so that the buffer is filled in one
    step with what [process_string_loop] yields. *)
Definition process_string (input : bytes) (len : nat) : HM (option addr) :=
  output ← malloc (BChars (len + 1) None);
  match output with
  | None => _ ← free output; mret None
  | Some _ =>
      r ← lift (process_string_loop len input len []);
      match r with
      | None => _ ← free output; mret None
      | Some text =>
          _ ← write_string output text;
          resized_output ← malloc (BChars (length text + 1) None);
          match resized_output with
          | None => _ ← free output; mret None
          | Some _ =>
              t ← load_string output;
              _ ← write_string resized_output t;
              _ ← free output;
              mret resized_output
          end
      end
  end.

(** The string and the new cursor. *)
Definition get_quoted_string (s : bytes) : HM (option addr * bytes) :=
  match skip_quotes s with
  | None => mret (None, s)
  | Some rest =>
      let string_len := length s - length rest - 2 in
      p ← process_string (drop 1 s) string_len;
      mret (p, rest)
  end.

(** A parsing function returns the value, NULL for failure, and the cursor. *)
Abbreviation parsed := (HM (option addr * bytes)).

Definition parse_string_value (s : bytes) : parsed :=
  q ← get_quoted_string s;
  match q.1 with
  | None => mret (None, s)
  | Some _ =>
      value ← json_value_init_string_no_copy q.1;
      match value with
      | None => _ ← free q.1; mret (None, s)
      | Some _ => mret (value, q.2)
      end
  end.

Definition parse_boolean_value (s : bytes) : parsed :=
  if strncmp_eq (bs "true") s 4 then p ← json_value_init_boolean 1; mret (p, drop 4 s)
  else if strncmp_eq (bs "false") s 5 then p ← json_value_init_boolean 0; mret (p, drop 5 s)
  else mret (None, s).

Definition parse_number_value (s : bytes) : parsed :=
  let r := strtod s in
  if st_erange r || negb (is_decimal s (length s - length (st_end r))) then mret (None, s)
  else p ← json_value_init_number (st_value r); mret (p, st_end r).

Definition parse_null_value (s : bytes) : parsed :=
  if strncmp_eq (bs "null") s 4 then p ← json_value_init_null; mret (p, drop 4 s) else mret (None, s).

(** [json_value_free(output_value); return NULL;]. *)
Definition free_and_null (output_value : option addr) (s : bytes) : parsed :=
  _ ← json_value_free output_value; mret (None, s).

Definition json_value_get_object (value : option addr) : HM (option addr) :=
  match value with
  | None => mret None
  | Some _ => v ← load_value value; mret (match v.2 with PObject o => o | _ => None end)
  end.
Definition json_value_get_array (value : option addr) : HM (option addr) :=
  match value with
  | None => mret None
  | Some _ => v ← load_value value; mret (match v.2 with PArray a => a | _ => None end)
  end.

(** The ends of [parse_object_value] and [parse_array_value]. *)
Definition finish_object (output_value output_object : option addr) (s : bytes) : parsed :=
  let s := skip_whitespaces s in
  if negb (bool_decide (peek s = x7d)) then free_and_null output_value s
  else
    count ← json_object_get_count output_object;
    st ← json_object_resize output_object count;
    match st with
    | JSONFailure => free_and_null output_value s
    | JSONSuccess => mret (output_value, advance s)
    end.
Definition finish_array (output_value output_array : option addr) (s : bytes) : parsed :=
  let s := skip_whitespaces s in
  if negb (bool_decide (peek s = x5d)) then free_and_null output_value s
  else
    count ← json_array_get_count output_array;
    st ← json_array_resize output_array count;
    match st with
    | JSONFailure => free_and_null output_value s
    | JSONSuccess => mret (output_value, advance s)
    end.

(** [parse_object_value] and [parse_array_value] up to their loops. *)
Definition parse_object_value (loop : option addr → option addr → bytes → parsed) (s : bytes) : parsed :=
  output_value ← json_value_init_object;
  match output_value with
  | None => mret (None, s)
  | Some _ =>
      if negb (bool_decide (peek s = x7b)) then free_and_null output_value s
      else
        output_object ← json_value_get_object output_value;
        let s := skip_whitespaces (advance s) in
        if bool_decide (peek s = x7d) then mret (output_value, advance s)
        else loop output_value output_object s
  end.
Definition parse_array_value (loop : option addr → option addr → bytes → parsed) (s : bytes) : parsed :=
  output_value ← json_value_init_array;
  match output_value with
  | None => mret (None, s)
  | Some _ =>
      if negb (bool_decide (peek s = x5b)) then free_and_null output_value s
      else
        output_array ← json_value_get_array output_value;
        let s := skip_whitespaces (advance s) in
        if bool_decide (peek s = x5d) then mret (output_value, advance s)
        else loop output_value output_array s
  end.

Fixpoint parse_value (fuel : nat) (s : bytes) (nesting : nat) : parsed :=
  match fuel with
  | O => lift NoFuel
  | S f =>
      if bool_decide (MAX_NESTING < nesting) then mret (None, s)
      else
        let s := skip_whitespaces s in
        let c := peek s in
        if bool_decide (c = x7b)
        then parse_object_value (λ v o s, parse_object_loop f v o s (S nesting)) s
        else if bool_decide (c = x5b)
        then parse_array_value (λ v a s, parse_array_loop f v a s (S nesting)) s
        else if bool_decide (c = x22) then parse_string_value s
        else if bool_decide (c = x66) || bool_decide (c = x74) then parse_boolean_value s
        else if starts_number c then parse_number_value s
        else if bool_decide (c = x6e) then parse_null_value s
        else mret (None, s)
  end
(** The loop of [parse_object_value]. *)
with parse_object_loop (fuel : nat) (output_value output_object : option addr) (s : bytes) (nesting : nat) : parsed :=
  match fuel with
  | O => lift NoFuel
  | S f =>
      if bool_decide (peek s = x00) then finish_object output_value output_object s
      else
        q ← get_quoted_string s;
        let '(new_key, s1) := q in
        match new_key with
        | None => free_and_null output_value s1
        | Some _ =>
            let s1 := skip_whitespaces s1 in
            if negb (bool_decide (peek s1 = x3a)) then _ ← free new_key; free_and_null output_value s1
            else
              r ← parse_value f (advance s1) nesting;
              let '(new_value, s2) := r in
              match new_value with
              | None => _ ← free new_key; free_and_null output_value s2
              | Some _ =>
                  name ← load_string new_key;
                  st ← json_object_add output_object name new_value;
                  match st with
                  | JSONFailure =>
                      _ ← free new_key;
                      _ ← json_value_free new_value;
                      free_and_null output_value s2
                  | JSONSuccess =>
                      _ ← free new_key;
                      let s2 := skip_whitespaces s2 in
                      if negb (bool_decide (peek s2 = x2c)) then finish_object output_value output_object s2
                      else parse_object_loop f output_value output_object (skip_whitespaces (advance s2)) nesting
                  end
              end
        end
  end
(** The loop of [parse_array_value]. *)
with parse_array_loop (fuel : nat) (output_value output_array : option addr) (s : bytes) (nesting : nat) : parsed :=
  match fuel with
  | O => lift NoFuel
  | S f =>
      if bool_decide (peek s = x00) then finish_array output_value output_array s
      else
        r ← parse_value f s nesting;
        let '(new_array_value, s1) := r in
        match new_array_value with
        | None => free_and_null output_value s1
        | Some _ =>
            st ← json_array_add output_array new_array_value;
            match st with
            | JSONFailure =>
                _ ← json_value_free new_array_value;
                free_and_null output_value s1
            | JSONSuccess =>
                let s1 := skip_whitespaces s1 in
                if negb (bool_decide (peek s1 = x2c)) then finish_array output_value output_array s1
                else parse_array_loop f output_value output_array (skip_whitespaces (advance s1)) nesting
            end
        end
  end.

Definition json_parse_string (string : option bytes) : HM (option addr) :=
  match string with
  | None => mret None
  | Some s =>
      let s := skip_bom s in
      r ← parse_value (S (2 * length s)) s 0;
      mret r.1
  end.
End ParsonHeap.
