(* ===== verification/ParsonHeapProofs.v ===== *)
(** * Memory safety of parson's parser

    The predicate [owns] relates the blocks at a pointer to a JSON value of the
    functional model. The destructor frees exactly these blocks; the parser,
    whatever allocations fail, either returns NULL and has freed everything it
    allocated, or a pointer that owns the value the functional parser returns. *)
From iris.bi Require Import bi.
From iris.proofmode Require Import proofmode.
From S2P Require Import Prelude Utils Cdouble ParsonText Parson ParsonParse Sgx HeapLogic ParsonHeap.
Import Cdouble ParsonText Parson ParsonParse Sgx HeapLogic ParsonHeap.

Module ParsonHeapProofs.

Abbreviation hprop := (heapPropI block).
Implicit Types (p q : addr) (v : JSON_Value).

Lemma Forall_both {A} {P Q R : A → Prop} {l} : Forall P l → Forall Q l → (∀ x, P x → Q x → R x) → Forall R l.
Proof. intros HP HQ H. induction HP; inversion_clear HQ; constructor; auto. Qed.

Lemma Ok_inj {A} (a b : A) : Ok a = Ok b → a = b.
Proof. congruence. Qed.

(** ** Ownership *)

(** A buffer with a string and room for its terminator. *)
Definition strbuf p (s : bytes) : hprop := ∃ n, p ↦ BChars n (Some s) ∗ <affine> ⌜length s < n⌝.

(** An array of pointers with room for [cap] of them: the first are [l]. *)
Definition cells (l : list addr) (junk : list (option (option addr))) : list (option (option addr)) :=
  map (λ x, Some (Some x)) l ++ junk.
Definition ptr_array (o : option addr) (l : list addr) (cap : nat) : hprop :=
  match o with
  | None => <affine> ⌜cap = 0 ∧ l = []⌝
  | Some a => ∃ junk, a ↦ BPtrs (cells l junk) ∗ <affine> ⌜0 < cap ∧ length (cells l junk) = cap⌝
  end.

(** Names and values side by side, and values alone, at the pointers of an
    array. *)
Definition pairs_at (F : addr → JSON_Value → hprop) : list (bytes * JSON_Value) → list addr → list addr → hprop :=
  fix go ps ks vs :=
    match ps, ks, vs with
    | [], [], [] => emp%I
    | p :: ps, kp :: ks, vp :: vs => (strbuf kp p.1 ∗ F vp p.2 ∗ go ps ks vs)%I
    | _, _, _ => False%I
    end.
Definition items_at (F : addr → JSON_Value → hprop) : list JSON_Value → list addr → hprop :=
  fix go items vs :=
    match items, vs with
    | [], [] => emp%I
    | v :: items, vp :: vs => (F vp v ∗ go items vs)%I
    | _, _ => False%I
    end.

(** The value at [p], with its parent pointer. *)
Fixpoint owns (par : option addr) p v {struct v} : hprop :=
  match v with
  | JSONNull => p ↦ BValue par PNull
  | JSONString s => ∃ q, p ↦ BValue par (PString (Some q)) ∗ strbuf q s
  | JSONNumber d => p ↦ BValue par (PNumber d)
  | JSONBoolean b => p ↦ BValue par (PBoolean b)
  | JSONObject (MkObject ps cap) => ∃ q names values ks vs,
      p ↦ BValue par (PObject (Some q)) ∗ q ↦ BObject (Some p) names values (length ps) cap ∗
      ptr_array names ks cap ∗ ptr_array values vs cap ∗ pairs_at (owns (Some p)) ps ks vs
  | JSONArray (MkArray items cap) => ∃ q ptrs vs,
      p ↦ BValue par (PArray (Some q)) ∗ q ↦ BArray (Some p) ptrs (length items) cap ∗
      ptr_array ptrs vs cap ∗ items_at (owns (Some p)) items vs
  end.

Abbreviation own_pairs p := (pairs_at (owns (Some p))).
Abbreviation own_items p := (items_at (owns (Some p))).

(** The object [q] of the value [p], and the array. *)
Definition owns_object p q (o : JSON_Object) : hprop := ∃ names values ks vs,
  q ↦ BObject (Some p) names values (length (obj_pairs o)) (obj_capacity o) ∗
  ptr_array names ks (obj_capacity o) ∗ ptr_array values vs (obj_capacity o) ∗ own_pairs p (obj_pairs o) ks vs.
Definition owns_array p q (a : JSON_Array) : hprop := ∃ ptrs vs,
  q ↦ BArray (Some p) ptrs (length (arr_items a)) (arr_capacity a) ∗
  ptr_array ptrs vs (arr_capacity a) ∗ own_items p (arr_items a) vs.

Lemma owns_object_eq par p o : owns par p (JSONObject o) ⊣⊢ ∃ q, p ↦ BValue par (PObject (Some q)) ∗ owns_object p q o.
Proof.
  destruct o as [ps cap]. cbn [owns]. unfold owns_object. cbn [obj_pairs obj_capacity]. iSplit.
  - iIntros "(%q & %ns & %vs & %kl & %vl & H1 & H2)". iExists q. iFrame "H1". iExists ns, vs, kl, vl. iExact "H2".
  - iIntros "(%q & H1 & %ns & %vs & %kl & %vl & H2)". iExists q, ns, vs, kl, vl. iFrame "H1". iExact "H2".
Qed.

Lemma owns_array_eq par p a : owns par p (JSONArray a) ⊣⊢ ∃ q, p ↦ BValue par (PArray (Some q)) ∗ owns_array p q a.
Proof.
  destruct a as [items cap]. cbn [owns]. unfold owns_array. cbn [arr_items arr_capacity]. iSplit.
  - iIntros "(%q & %ns & %vl & H1 & H2)". iExists q. iFrame "H1". iExists ns, vl. iExact "H2".
  - iIntros "(%q & H1 & %ns & %vl & H2)". iExists q, ns, vl. iFrame "H1". iExact "H2".
Qed.

(** Every value is at a block with its parent pointer, which can be changed. *)
Lemma owns_block par p v :
  owns par p v ⊢ ∃ pl, p ↦ BValue par pl ∗ ∀ par', p ↦ BValue par' pl -∗ owns par' p v.
Proof.
  destruct v as [|s|d|o|a|b]; [cbn [owns]..| | |cbn [owns]].
  - iIntros "H". iExists PNull. iFrame. iIntros (par') "$".
  - iIntros "(%q & H & Hs)". iExists _. iFrame "H". iIntros (par') "H". iExists q. iFrame.
  - iIntros "H". iExists _. iFrame. iIntros (par') "$".
  - rw owns_object_eq. iIntros "(%q & H & Ho)". iExists _. iFrame "H". iIntros (par') "H".
    rw owns_object_eq. iExists q. iFrame.
  - rw owns_array_eq. iIntros "(%q & H & Ho)". iExists _. iFrame "H". iIntros (par') "H".
    rw owns_array_eq. iExists q. iFrame.
  - iIntros "H". iExists _. iFrame. iIntros (par') "$".
Qed.

(** ** Accesses *)

Section proofs.
Context (oom : bool).

Lemma wp_load_value p par pl (Φ : _ → hprop) :
  p ↦ BValue par pl ∗ (p ↦ BValue par pl -∗ Φ (par, pl)) ⊢ wp oom (load_value (Some p)) Φ.
Proof.
  iIntros "[H HΦ]". iApply wp_seq. iApply wp_load. iFrame. iIntros "H". iApply wp_ret. by iApply "HΦ".
Qed.
Lemma wp_load_object p w ns vs n c (Φ : _ → hprop) :
  p ↦ BObject w ns vs n c ∗ (p ↦ BObject w ns vs n c -∗ Φ (w, ns, vs, n, c)) ⊢ wp oom (load_object (Some p)) Φ.
Proof.
  iIntros "[H HΦ]". iApply wp_seq. iApply wp_load. iFrame. iIntros "H". iApply wp_ret. by iApply "HΦ".
Qed.
Lemma wp_load_array p w items n c (Φ : _ → hprop) :
  p ↦ BArray w items n c ∗ (p ↦ BArray w items n c -∗ Φ (w, items, n, c)) ⊢ wp oom (load_array (Some p)) Φ.
Proof.
  iIntros "[H HΦ]". iApply wp_seq. iApply wp_load. iFrame. iIntros "H". iApply wp_ret. by iApply "HΦ".
Qed.
Lemma wp_load_string p s (Φ : _ → hprop) : strbuf p s ∗ (strbuf p s -∗ Φ s) ⊢ wp oom (load_string (Some p)) Φ.
Proof.
  iIntros "[(%n & H & %Hn) HΦ]". iApply wp_seq. iApply wp_load. iFrame. iIntros "H". iApply wp_ret. iApply "HΦ".
  iExists n. by iFrame.
Qed.

Lemma cells_lookup l junk i x : l !! i = Some x → cells l junk !! i = Some (Some (Some x)).
Proof.
  intros H. unfold cells. rw lookup_app_l; [|rw length_map; by eapply lookup_lt_Some].
  change (map (λ x, Some (Some x)) l) with ((λ x, Some (Some x)) <$> l). by rw list_lookup_fmap H.
Qed.

Lemma wp_read_cell o l cap i x (Φ : _ → hprop) : l !! i = Some x →
  ptr_array o l cap ∗ (ptr_array o l cap -∗ Φ (Some x)) ⊢ wp oom (read_cell o i) Φ.
Proof.
  intros Hi. destruct o as [a|]; cbn [ptr_array].
  - iIntros "[(%junk & H & %Hc) HΦ]". iApply wp_seq. iApply wp_load. iFrame. iIntros "H".
    rw (cells_lookup l junk i x Hi). iApply wp_ret. iApply "HΦ". iExists junk. by iFrame.
  - iIntros "[%H HΦ]". destruct H as [_ ->]. done.
Qed.

Lemma wp_free_array o l cap (Φ : _ → hprop) : ptr_array o l cap ∗ Φ tt ⊢ wp oom (free o) Φ.
Proof.
  destruct o as [a|]; cbn [ptr_array].
  - iIntros "[(%junk & H & %Hc) HΦ]". iApply wp_free. iFrame.
  - iIntros "[_ HΦ]". by iApply wp_free_null.
Qed.

Lemma wp_free_string p s (Φ : _ → hprop) : strbuf p s ∗ Φ tt ⊢ wp oom (free (Some p)) Φ.
Proof. iIntros "[(%n & H & _) HΦ]". iApply wp_free. iFrame. Qed.

(** ** The destructor *)

(** A function that frees the values it is given. *)
Definition frees (free_value : option addr → HM unit) (v : JSON_Value) : Prop :=
  ∀ par p (Φ : _ → hprop), owns par p v ∗ Φ tt ⊢ wp oom (free_value (Some p)) Φ.

Lemma wp_free_pairs free_value p q w ns nvs n cap ks vs ps : ∀ i ks2 vs2 (Φ : _ → hprop),
  Forall (λ x, frees free_value x.2) ps → drop i ks = ks2 → drop i vs = vs2 →
  q ↦ BObject w ns nvs n cap ∗ ptr_array ns ks cap ∗ ptr_array nvs vs cap ∗ own_pairs p ps ks2 vs2 ∗
    (q ↦ BObject w ns nvs n cap ∗ ptr_array ns ks cap ∗ ptr_array nvs vs cap -∗ Φ tt)
  ⊢ wp oom (for_loop (length ps) i (λ i,
      o ← load_object (Some q);
      let '(_, ns, vs, _, _) := o in
      k ← read_cell ns i;
      _ ← free k;
      v ← read_cell vs i;
      free_value v)) Φ.
Proof.
  induction ps as [|[k v] ps IH]; intros i ks2 vs2 Φ HF Hk Hv.
  - destruct ks2, vs2; cbn [pairs_at]; iIntros "(Hq & Hn & Hv & Hp & HΦ)"; try done.
    iApply wp_ret. iApply "HΦ". iFrame.
  - apply Forall_cons_iff in HF as [HF1 HF]. cbn [for_loop length].
    destruct ks2 as [|kp ks2], vs2 as [|vp vs2]; cbn [pairs_at]; iIntros "(Hq & Hn & Hv & Hp & HΦ)"; try done.
    iDestruct "Hp" as "(Hk & Hx & Hp)". cbn [fst snd].
    assert (ks !! i = Some kp) as Ek by (by rw -(Nat.add_0_r i) -lookup_drop Hk).
    assert (vs !! i = Some vp) as Ev by (by rw -(Nat.add_0_r i) -lookup_drop Hv).
    iApply wp_seq. iApply wp_seq. iApply wp_load_object. iFrame "Hq". iIntros "Hq".
    iApply wp_seq. iApply (wp_read_cell _ _ _ _ _ _ Ek). iFrame "Hn". iIntros "Hn".
    iApply wp_seq. iApply wp_free_string. iFrame "Hk".
    iApply wp_seq. iApply (wp_read_cell _ _ _ _ _ _ Ev). iFrame "Hv". iIntros "Hv".
    iApply HF1. iFrame "Hx". iApply (IH (S i) ks2 vs2); [done| | |iFrame].
    + by rw -Nat.add_1_r -drop_drop Hk.
    + by rw -Nat.add_1_r -drop_drop Hv.
Qed.

Lemma wp_free_items free_value p q w ptrs n cap vs items : ∀ i vs2 (Φ : _ → hprop),
  Forall (frees free_value) items → drop i vs = vs2 →
  q ↦ BArray w ptrs n cap ∗ ptr_array ptrs vs cap ∗ own_items p items vs2 ∗
    (q ↦ BArray w ptrs n cap ∗ ptr_array ptrs vs cap -∗ Φ tt)
  ⊢ wp oom (for_loop (length items) i (λ i,
      a ← load_array (Some q);
      let '(_, items, _, _) := a in
      v ← read_cell items i;
      free_value v)) Φ.
Proof.
  induction items as [|v items IH]; intros i vs2 Φ HF Hv.
  - destruct vs2; cbn [items_at]; iIntros "(Hq & Hv & Hp & HΦ)"; try done.
    iApply wp_ret. iApply "HΦ". iFrame.
  - apply Forall_cons_iff in HF as [HF1 HF]. cbn [for_loop length].
    destruct vs2 as [|vp vs2]; cbn [items_at]; iIntros "(Hq & Hv & Hp & HΦ)"; try done.
    iDestruct "Hp" as "[Hx Hp]". assert (vs !! i = Some vp) as Ev by (by rw -(Nat.add_0_r i) -lookup_drop Hv).
    iApply wp_seq. iApply wp_seq. iApply wp_load_array. iFrame "Hq". iIntros "Hq".
    iApply wp_seq. iApply (wp_read_cell _ _ _ _ _ _ Ev). iFrame "Hv". iIntros "Hv".
    iApply HF1. iFrame "Hx". iApply (IH (S i) vs2); [done| |iFrame].
    by rw -Nat.add_1_r -drop_drop Hv.
Qed.

Lemma wp_object_free free_value p q o (Φ : _ → hprop) : Forall (λ x, frees free_value x.2) (obj_pairs o) →
  owns_object p q o ∗ Φ tt ⊢ wp oom (json_object_free free_value (Some q)) Φ.
Proof.
  iIntros (HF) "[(%ns & %nvs & %ks & %vs & Hq & Hn & Hv & Hp) HΦ]".
  iApply wp_seq. iApply wp_load_object. iFrame "Hq". iIntros "Hq".
  iApply wp_seq. iApply (wp_free_pairs _ _ _ _ _ _ _ _ ks vs _ 0); [done..|]. iFrame. iIntros "(Hq & Hn & Hv)".
  iApply wp_seq. iApply wp_load_object. iFrame "Hq". iIntros "Hq".
  iApply wp_seq. iApply wp_free_array. iFrame "Hn". iApply wp_seq. iApply wp_free_array. iFrame "Hv".
  iApply wp_free. iFrame.
Qed.

Lemma wp_array_free free_value p q a (Φ : _ → hprop) : Forall (frees free_value) (arr_items a) →
  owns_array p q a ∗ Φ tt ⊢ wp oom (json_array_free free_value (Some q)) Φ.
Proof.
  iIntros (HF) "[(%ptrs & %vs & Hq & Hv & Hp) HΦ]".
  iApply wp_seq. iApply wp_load_array. iFrame "Hq". iIntros "Hq".
  iApply wp_seq. iApply (wp_free_items _ _ _ _ _ _ _ vs _ 0); [done..|]. iFrame. iIntros "(Hq & Hv)".
  iApply wp_seq. iApply wp_load_array. iFrame "Hq". iIntros "Hq".
  iApply wp_seq. iApply wp_free_array. iFrame "Hv". iApply wp_free. iFrame.
Qed.

Lemma value_free_frees v : ∀ fuel, depth v < fuel → frees (value_free fuel) v.
Proof.
  induction v as [|s|d|ps cap IH|items cap IH|b] using JSON_Value_ind; intros [|fuel] Hd par p Φ; try lia;
    cbn [value_free]; rw ?owns_object_eq ?owns_array_eq.
  1, 3, 6: iIntros "[H HΦ]"; iApply wp_seq; iApply wp_load_value; iFrame "H"; iIntros "H";
    iApply wp_seq; iApply wp_ret; iApply wp_free; iFrame.
  1: iIntros "[(%q & H & Hs) HΦ]".
  2-3: iIntros "[(%q & H & Ho) HΦ]".
  all: iApply wp_seq; iApply wp_load_value; iFrame "H"; iIntros "H"; iApply wp_seq.
  - iApply wp_free_string. iFrame "Hs". iApply wp_free. iFrame.
  - iApply (wp_object_free _ p _ (MkObject ps cap)); [|iFrame "Ho"; iApply wp_free; iFrame].
    destruct fuel as [|fuel]; [cbn [depth] in Hd; lia|]. apply Nat.lt_succ_r, depth_object in Hd.
    apply (Forall_both IH Hd). intros x Hx Hdx. apply Hx. lia.
  - iApply (wp_array_free _ p _ (MkArray items cap)); [|iFrame "Ho"; iApply wp_free; iFrame].
    destruct fuel as [|fuel]; [cbn [depth] in Hd; lia|]. apply Nat.lt_succ_r, depth_array in Hd.
    apply (Forall_both IH Hd). intros x Hx Hdx. apply Hx. lia.
Qed.

(** A tree has at least as many blocks as levels. *)
Definition at_least (n : nat) : hprop := HeapProp (λ h, n <= size h).

Lemma at_least_mono n m : n <= m → at_least m ⊢ at_least n.
Proof. intros H. split. cbn. lia. Qed.
Lemma at_least_add n m : at_least n ∗ at_least m ⊢ at_least (n + m).
Proof.
  split. intros h (h1 & h2 & -> & Hd & H1 & H2). cbn in *. rw (map_size_disj_union h1 h2 Hd). lia.
Qed.
Lemma at_least_block p b : p ↦ b ⊢ at_least 1.
Proof. split. intros h H. change (h = {[p := b]}) in H. subst. cbn. by rw map_size_singleton. Qed.
Lemma at_least_any (P : hprop) : P ⊢ at_least 0.
Proof. split. cbn. lia. Qed.

(** More than one fact about disjoint memories. *)
Lemma at_least_sep (P Q : hprop) n m : (P ⊢ at_least n) → (Q ⊢ at_least m) → P ∗ Q ⊢ at_least (n + m).
Proof. intros -> ->. apply at_least_add. Qed.

Lemma pairs_at_least p ps : Forall (λ x, ∀ par q, owns par q x.2 ⊢ at_least (depth x.2)) ps → ∀ ks vs,
  own_pairs p ps ks vs ⊢ at_least (max_list (map (λ x, depth x.2) ps)).
Proof.
  induction 1 as [|x ps Hx _ IH]; intros ks vs; [apply at_least_any|].
  destruct ks as [|k ks], vs as [|v vs]; cbn [pairs_at]; try by iIntros "H".
  etrans; [apply at_least_sep; [apply at_least_any|apply at_least_sep; [apply Hx|apply IH]]|].
  apply at_least_mono. simpl. lia.
Qed.

Lemma items_at_least p items : Forall (λ x, ∀ par q, owns par q x ⊢ at_least (depth x)) items → ∀ vs,
  own_items p items vs ⊢ at_least (max_list (map depth items)).
Proof.
  induction 1 as [|x items Hx _ IH]; intros vs; [apply at_least_any|].
  destruct vs as [|v vs]; cbn [items_at]; [by iIntros "H"|].
  etrans; [apply at_least_sep; [apply Hx|apply IH]|].
  apply at_least_mono. simpl. lia.
Qed.

Lemma owns_depth v : ∀ par p, owns par p v ⊢ at_least (depth v).
Proof.
  induction v as [|s|d|ps cap IH|items cap IH|b] using JSON_Value_ind; intros par p; try apply at_least_any;
    cbn [owns depth]; iIntros "H".
  - iDestruct "H" as (q ns nvs ks vs) "H". iStopProof.
    etrans; [apply at_least_sep; [apply at_least_block|repeat (apply at_least_sep; [apply at_least_any|])]|].
    + by apply pairs_at_least.
    + by apply at_least_mono.
  - iDestruct "H" as (q ptrs vs) "H". iStopProof.
    etrans; [apply at_least_sep; [apply at_least_block|repeat (apply at_least_sep; [apply at_least_any|])]|].
    + by apply items_at_least.
    + by apply at_least_mono.
Qed.

(** [json_value_free] of a value frees exactly its blocks. *)
Lemma wp_value_free par p v (Φ : _ → hprop) : owns par p v ∗ Φ tt ⊢ wp oom (json_value_free (Some p)) Φ.
Proof.
  split. intros h H hf fs Hd Hfs.
  assert (depth v < S (size (h ∪ hf))) as Hdepth.
  { destruct H as (h1 & h2 & -> & Hd12 & H1 & _). pose proof (entails_at _ _ (owns_depth v par p) _ H1) as Hs.
    cbn in Hs. rw !map_size_disj_union; [lia|done..]. }
  exact (entails_at _ _ (value_free_frees v _ Hdepth par p Φ) h H hf fs Hd Hfs).
Qed.

(** ** Buffers and arrays of pointers *)

Lemma wp_write_string p n c s (Φ : _ → hprop) : length s < n →
  p ↦ BChars n c ∗ (strbuf p s -∗ Φ tt) ⊢ wp oom (write_string (Some p) s) Φ.
Proof.
  iIntros (Hl) "[H HΦ]". iApply wp_seq. iApply wp_load. iFrame "H". iIntros "H".
  rw bool_decide_true; [|done]. iApply wp_store. iFrame "H". iIntros "H". iApply "HΦ". iExists n. by iFrame.
Qed.

Lemma wp_strndup s n (Φ : _ → hprop) :
  (∀ k, strbuf k (Parson.parson_strndup s n) -∗ Φ (Some k)) ∧ (⌜oom = true⌝ → Φ None)
  ⊢ wp oom (parson_strndup s n) Φ.
Proof.
  iIntros "HΦ". iApply wp_seq. iApply wp_malloc. iSplit.
  - iIntros (k) "H". iApply wp_seq. iApply (wp_write_string _ (n + 1)); [rw length_take; lia|]. iFrame "H". iIntros "H".
    iApply wp_ret. iDestruct "HΦ" as "[HΦ _]". by iApply "HΦ".
  - iIntros "%E". iApply wp_ret. iDestruct "HΦ" as "[_ HΦ]". by iApply "HΦ".
Qed.

Lemma ptr_array_fresh a l c : length l <= c → 0 < c →
  a ↦ BPtrs (cells l (replicate (c - length l) None)) ⊢ ptr_array (Some a) l c.
Proof.
  iIntros (H1 H2) "H". iExists _. iFrame. iPureIntro. split; [done|].
  unfold cells. rw length_app length_map length_replicate. lia.
Qed.

(** An array of pointers has room for its pointers, and is NULL when it has no
    room at all. *)
Lemma ptr_array_cap o l cap : ptr_array o l cap ⊢ <affine> ⌜length l <= cap⌝ ∗ ptr_array o l cap.
Proof.
  destruct o as [a|]; cbn [ptr_array].
  - iIntros "(%junk & H & %H1 & %H2)". iSplit.
    + iPureIntro. unfold cells in H2. rw length_app length_map in H2. lia.
    + iExists junk. by iFrame.
  - iIntros "%H". destruct H as [-> ->]. iPureIntro. split; [done|]. by split.
Qed.
Lemma ptr_array_null o l cap : ptr_array o l cap ⊢ <affine> ⌜is_null o = bool_decide (cap = 0)⌝ ∗ ptr_array o l cap.
Proof.
  destruct o as [a|]; cbn [ptr_array is_null].
  - iIntros "(%junk & H & %H1 & %H2)". iSplit; [iPureIntro; rw bool_decide_false; [done|lia]|]. iExists junk. by iFrame.
  - iIntros "%H". destruct H as [-> ->]. iPureIntro. split; [done|]. by split.
Qed.

Lemma cells_take l junk : take (length l) (cells l junk) = cells l [].
Proof. unfold cells. rw app_nil_r take_app_le; [|by rw length_map]. apply take_ge. by rw length_map. Qed.

Lemma wp_copy_cells a d l cap c (Φ : _ → hprop) : length l <= c →
  ptr_array (Some a) l cap ∗ d ↦ BPtrs (replicate c None) ∗
    (ptr_array (Some a) l cap -∗ d ↦ BPtrs (cells l (replicate (c - length l) None)) -∗ Φ tt)
  ⊢ wp oom (copy_cells (Some d) (Some a) (length l)) Φ.
Proof.
  iIntros (Hl) "[(%junk & Ha & %Hc) [Hd HΦ]]".
  iApply wp_seq. iApply wp_load. iFrame "Ha". iIntros "Ha".
  iApply wp_seq. iApply wp_load. iFrame "Hd". iIntros "Hd".
  rw bool_decide_true; [|unfold cells; rw length_app length_map; lia].
  rw bool_decide_true; [|by rw length_replicate]. cbn [andb].
  iApply wp_store. iFrame "Hd". iIntros "Hd". rw cells_take drop_replicate.
  replace (cells l [] ++ replicate (c - length l) None) with (cells l (replicate (c - length l) None))
    by (unfold cells; by rw app_nil_r).
  iApply ("HΦ" with "[Ha]"); [|done]. iExists junk. by iFrame.
Qed.

(** The entry after the last one is written. *)
Lemma wp_write_cell o l cap n x (Φ : _ → hprop) : length l = n → n < cap →
  ptr_array o l cap ∗ (ptr_array o (match x with Some y => l ++ [y] | None => l end) cap -∗ Φ tt)
  ⊢ wp oom (write_cell o n x) Φ.
Proof.
  iIntros (<- Hl) "[Ha HΦ]". destruct o as [a|]; cbn [ptr_array].
  2: { iDestruct "Ha" as "%Ha". lia. }
  iDestruct "Ha" as "(%junk & Ha & %Hcap & %Hc)".
  assert (length (cells l junk) = length l + length junk) as Hlen by (unfold cells; by rw length_app length_map).
  destruct junk as [|j junk]; [cbn in Hlen; lia|].
  iApply wp_seq. iApply wp_load. iFrame "Ha". iIntros "Ha". rw bool_decide_true; [|lia].
  iApply wp_store. iFrame "Ha". iIntros "Ha". iApply "HΦ".
  assert (<[length l := Some x]> (cells l (j :: junk)) = map (λ y, Some (Some y)) l ++ Some x :: junk) as ->.
  { unfold cells. replace (length l) with (length (map (λ y : addr, Some (Some y)) l) + 0) at 1
      by (rw length_map; lia). by rw insert_app_r. }
  destruct x as [y|].
  - iExists junk. unfold cells in *. rw map_app -app_assoc. iFrame "Ha". iPureIntro. split; [done|].
    rw -Hc. rw !length_app /=. done.
  - iExists (Some None :: junk). unfold cells in *. iFrame "Ha". iPureIntro. split; [done|].
    rw -Hc. rw !length_app /=. done.
Qed.

(** ** Members and items *)

Lemma pairs_at_length F ps : ∀ ks vs, pairs_at F ps ks vs ⊢
  <affine> ⌜length ks = length ps ∧ length vs = length ps⌝ ∗ pairs_at F ps ks vs.
Proof.
  induction ps as [|x ps IH]; intros [|k ks] [|v vs]; cbn [pairs_at]; try by iIntros "H".
  iIntros "(H1 & H2 & H3)". iDestruct (IH with "H3") as "[%E H3]". iFrame. iPureIntro. cbn. lia.
Qed.
Lemma items_at_length F items : ∀ vs, items_at F items vs ⊢ <affine> ⌜length vs = length items⌝ ∗ items_at F items vs.
Proof.
  induction items as [|x items IH]; intros [|v vs]; cbn [items_at]; try by iIntros "H".
  iIntros "(H1 & H2)". iDestruct (IH with "H2") as "[%E H2]". iFrame. iPureIntro. cbn. lia.
Qed.

Lemma pairs_at_snoc F k v kp vp ps : ∀ ks vs,
  pairs_at F ps ks vs ∗ strbuf kp k ∗ F vp v ⊢ pairs_at F (ps ++ [(k, v)]) (ks ++ [kp]) (vs ++ [vp]).
Proof.
  induction ps as [|x ps IH]; intros [|k' ks] [|v' vs]; cbn [pairs_at app]; iIntros "(H & Hk & Hv)"; try done.
  - iFrame.
  - iDestruct "H" as "($ & $ & H)". iApply IH. iFrame.
Qed.
Lemma items_at_snoc F v vp items : ∀ vs, items_at F items vs ∗ F vp v ⊢ items_at F (items ++ [v]) (vs ++ [vp]).
Proof.
  induction items as [|x items IH]; intros [|v' vs]; cbn [items_at app]; iIntros "[H Hv]"; try done.
  - iFrame.
  - iDestruct "H" as "($ & H)". iApply IH. iFrame.
Qed.

Lemma owns_object_cap p q o : owns_object p q o ⊢ <affine> ⌜length (obj_pairs o) <= obj_capacity o⌝ ∗ owns_object p q o.
Proof.
  iIntros "(%ns & %nvs & %ks & %vs & Hq & Hn & Hv & Hp)". iDestruct (pairs_at_length with "Hp") as "[%Hk Hp]".
  iDestruct (ptr_array_cap with "Hn") as "[%Hc Hn]". iSplit; [iPureIntro; lia|]. iExists ns, nvs, ks, vs. iFrame.
Qed.
Lemma owns_array_cap p q a : owns_array p q a ⊢ <affine> ⌜length (arr_items a) <= arr_capacity a⌝ ∗ owns_array p q a.
Proof.
  iIntros "(%ptrs & %vs & Hq & Hv & Hp)". iDestruct (items_at_length with "Hp") as "[%Hk Hp]".
  iDestruct (ptr_array_cap with "Hv") as "[%Hc Hv]". iSplit; [iPureIntro; lia|]. iExists ptrs, vs. iFrame.
Qed.

(** The name of an entry, for reading. *)
Lemma pairs_at_name F i x ps : ∀ ks vs, ps !! i = Some x →
  pairs_at F ps ks vs ⊢ ∃ kp vp, <affine> ⌜ks !! i = Some kp ∧ vs !! i = Some vp⌝ ∗
    strbuf kp x.1 ∗ (strbuf kp x.1 -∗ pairs_at F ps ks vs).
Proof.
  revert i. induction ps as [|y ps IH]; intros [|i] [|k ks] [|v vs] H; cbn [pairs_at]; simplify_eq/=; try by iIntros "H".
  - iIntros "(Hk & Hv & H)". iExists k, v. iFrame. iSplit; [done|]. iIntros "$".
  - iIntros "(Hk & Hv & H)". iDestruct (IH i ks vs H with "H") as (kp vp) "(%E & Hs & H)".
    iExists kp, vp. iFrame. iSplit; [done|]. done.
Qed.

(** ** Constructors *)

Lemma wp_init_object (Φ : _ → hprop) :
  (∀ p q, p ↦ BValue None (PObject (Some q)) ∗ owns_object p q Parson.json_object_init -∗ Φ (Some p)) ∧
  (⌜oom = true⌝ → Φ None) ⊢ wp oom json_value_init_object Φ.
Proof.
  iIntros "HΦ". iApply wp_seq. iApply wp_malloc. iSplit.
  - iIntros (p) "Hp". iApply wp_seq. iApply wp_malloc. iSplit.
    + iIntros (q) "Hq". iApply wp_seq. iApply wp_store. iFrame "Hp". iIntros "Hp". iApply wp_ret.
      iDestruct "HΦ" as "[HΦ _]". iApply "HΦ". iFrame "Hp". iExists None, None, [], []. cbn. by iFrame.
    + iIntros "%E". iApply wp_seq. iApply wp_store. iFrame "Hp". iIntros "Hp".
      iApply wp_seq. iApply wp_free. iFrame "Hp". iApply wp_ret. iDestruct "HΦ" as "[_ HΦ]". by iApply "HΦ".
  - iIntros "%E". iApply wp_ret. iDestruct "HΦ" as "[_ HΦ]". by iApply "HΦ".
Qed.

Lemma wp_init_array (Φ : _ → hprop) :
  (∀ p q, p ↦ BValue None (PArray (Some q)) ∗ owns_array p q Parson.json_array_init -∗ Φ (Some p)) ∧
  (⌜oom = true⌝ → Φ None) ⊢ wp oom json_value_init_array Φ.
Proof.
  iIntros "HΦ". iApply wp_seq. iApply wp_malloc. iSplit.
  - iIntros (p) "Hp". iApply wp_seq. iApply wp_malloc. iSplit.
    + iIntros (q) "Hq". iApply wp_seq. iApply wp_store. iFrame "Hp". iIntros "Hp". iApply wp_ret.
      iDestruct "HΦ" as "[HΦ _]". iApply "HΦ". iFrame "Hp". iExists None, []. cbn. by iFrame.
    + iIntros "%E". iApply wp_seq. iApply wp_store. iFrame "Hp". iIntros "Hp".
      iApply wp_seq. iApply wp_free. iFrame "Hp". iApply wp_ret. iDestruct "HΦ" as "[_ HΦ]". by iApply "HΦ".
  - iIntros "%E". iApply wp_ret. iDestruct "HΦ" as "[_ HΦ]". by iApply "HΦ".
Qed.

(** ** Growing and shrinking *)

(** The copies of [json_object_resize]. *)
Lemma wp_copy_members ns nvs ks vs cap d e n c (Φ : _ → hprop) :
  length ks = n → length vs = n → n <= c → n <= cap →
  ptr_array ns ks cap ∗ ptr_array nvs vs cap ∗ d ↦ BPtrs (replicate c None) ∗ e ↦ BPtrs (replicate c None) ∗
    (ptr_array ns ks cap -∗ ptr_array nvs vs cap -∗ d ↦ BPtrs (cells ks (replicate (c - n) None)) -∗
     e ↦ BPtrs (cells vs (replicate (c - n) None)) -∗ Φ tt)
  ⊢ wp oom (if negb (is_null ns) && negb (is_null nvs) && bool_decide (0 < n)
            then _ ← copy_cells (Some d) ns n; copy_cells (Some e) nvs n else mret tt) Φ.
Proof.
  iIntros (Hk Hv Hc Hcap) "(Hn & Hv & Hd & He & HΦ)". destruct n as [|n].
  - apply nil_length_inv in Hk as ->, Hv as ->. rw andb_false_r. iApply wp_ret. unfold cells. cbn [map app].
    rw Nat.sub_0_r. iApply ("HΦ" with "Hn Hv Hd He").
  - destruct ns as [a|]; [|iDestruct "Hn" as "%E"; lia]. destruct nvs as [b|]; [|iDestruct "Hv" as "%E"; lia].
    cbn [is_null negb andb]. rw bool_decide_true; [|lia].
    iApply wp_seq. rw -Hk. iApply (wp_copy_cells _ _ _ cap c); [lia|]. iFrame "Hn Hd". iIntros "Hn Hd".
    rw Hk -Hv. iApply (wp_copy_cells _ _ _ cap c); [lia|]. iFrame "Hv He". iIntros "Hv He". iApply ("HΦ" with "Hn Hv Hd He").
Qed.

(** The copy of [json_array_resize]. *)
Lemma wp_copy_items ptrs vs cap d n c (Φ : _ → hprop) : length vs = n → n <= c → n <= cap →
  ptr_array ptrs vs cap ∗ d ↦ BPtrs (replicate c None) ∗
    (ptr_array ptrs vs cap -∗ d ↦ BPtrs (cells vs (replicate (c - n) None)) -∗ Φ tt)
  ⊢ wp oom (if negb (is_null ptrs) && bool_decide (0 < n) then copy_cells (Some d) ptrs n else mret tt) Φ.
Proof.
  iIntros (Hv Hc Hcap) "(Hv & Hd & HΦ)". destruct n as [|n].
  - apply nil_length_inv in Hv as ->. rw andb_false_r. iApply wp_ret. unfold cells. cbn [map app].
    rw Nat.sub_0_r. iApply ("HΦ" with "Hv Hd").
  - destruct ptrs as [a|]; [|iDestruct "Hv" as "%E"; lia]. cbn [is_null negb andb]. rw bool_decide_true; [|lia].
    rw -Hv. iApply (wp_copy_cells _ _ _ cap c); [lia|]. iFrame "Hv Hd". iIntros "Hv Hd". iApply ("HΦ" with "Hv Hd").
Qed.

Lemma wp_object_resize p q o c (Φ : _ → hprop) : length (obj_pairs o) <= c → 0 < c →
  owns_object p q o ∗ ((owns_object p q (MkObject (obj_pairs o) c) -∗ Φ JSONSuccess) ∧
                       (⌜oom = true⌝ → owns_object p q o -∗ Φ JSONFailure))
  ⊢ wp oom (json_object_resize (Some q) c) Φ.
Proof.
  iIntros (Hc Hc0) "[(%ns & %nvs & %ks & %vs & Hq & Hn & Hv & Hp) HΦ]".
  iDestruct (pairs_at_length with "Hp") as "[[%Hk %Hl] Hp]".
  iDestruct (ptr_array_cap with "Hn") as "[%Hcap Hn]". iDestruct (ptr_array_null with "Hn") as "[%En Hn]".
  iDestruct (ptr_array_null with "Hv") as "[%Ev Hv]".
  iApply wp_seq. iApply wp_load_object. iFrame "Hq". iIntros "Hq".
  assert ((is_null ns && negb (is_null nvs)) || (negb (is_null ns) && is_null nvs) || bool_decide (c = 0) = false) as ->.
  { rw En Ev (bool_decide_false (c = 0)); [|lia]. by destruct (bool_decide (obj_capacity o = 0)). }
  iApply wp_seq. iApply wp_malloc. iSplit; last first.
  { iIntros "%E". iApply wp_ret. iDestruct "HΦ" as "[_ HΦ]". iApply ("HΦ" with "[//]"). iExists _, _, _, _. iFrame. }
  iIntros (d) "Hd". iApply wp_seq. iApply wp_malloc. iSplit; last first.
  { iIntros "%E". iApply wp_seq. iApply wp_free. iFrame "Hd". iApply wp_ret. iDestruct "HΦ" as "[_ HΦ]".
    iApply ("HΦ" with "[//]"). iExists _, _, _, _. iFrame. }
  iIntros (e) "He". iApply wp_seq.
  iApply (wp_copy_members _ _ ks vs (obj_capacity o) _ _ _ c); [done..|lia|]. iFrame "Hn Hv Hd He". iIntros "Hn Hv Hd He".
  iApply wp_seq. iApply wp_free_array. iFrame "Hn". iApply wp_seq. iApply wp_free_array. iFrame "Hv".
  iApply wp_seq. iApply wp_store. iFrame "Hq". iIntros "Hq". iApply wp_ret. iDestruct "HΦ" as "[HΦ _]". iApply "HΦ".
  iExists (Some d), (Some e), ks, vs. cbn [obj_pairs obj_capacity]. iFrame "Hq Hp".
  iSplitL "Hd"; iApply ptr_array_fresh; try lia; [by rw Hk|by rw Hl].
Qed.

Lemma wp_object_resize_zero p q o (Φ : _ → hprop) :
  owns_object p q o ∗ (owns_object p q o -∗ Φ JSONFailure) ⊢ wp oom (json_object_resize (Some q) 0) Φ.
Proof.
  iIntros "[(%ns & %nvs & %ks & %vs & Hq & H) HΦ]". iApply wp_seq. iApply wp_load_object. iFrame "Hq". iIntros "Hq".
  rw (bool_decide_true (0 = 0)); [|done]. rw orb_true_r. iApply wp_ret. iApply "HΦ". iExists ns, nvs, ks, vs. iFrame.
Qed.

Lemma wp_array_resize p q a c (Φ : _ → hprop) : length (arr_items a) <= c → 0 < c →
  owns_array p q a ∗ ((owns_array p q (MkArray (arr_items a) c) -∗ Φ JSONSuccess) ∧
                      (⌜oom = true⌝ → owns_array p q a -∗ Φ JSONFailure))
  ⊢ wp oom (json_array_resize (Some q) c) Φ.
Proof.
  iIntros (Hc Hc0) "[(%ptrs & %vs & Hq & Hv & Hp) HΦ]". iDestruct (items_at_length with "Hp") as "[%Hl Hp]".
  iDestruct (ptr_array_cap with "Hv") as "[%Hcap Hv]".
  unfold json_array_resize. rw bool_decide_false; [|lia]. iApply wp_seq. iApply wp_malloc. iSplit; last first.
  { iIntros "%E". iApply wp_ret. iDestruct "HΦ" as "[_ HΦ]". iApply ("HΦ" with "[//]"). iExists _, _. iFrame. }
  iIntros (d) "Hd". iApply wp_seq. iApply wp_load_array. iFrame "Hq". iIntros "Hq". iApply wp_seq.
  iApply (wp_copy_items _ vs (arr_capacity a) _ _ c); [done..|lia|]. iFrame "Hv Hd". iIntros "Hv Hd".
  iApply wp_seq. iApply wp_free_array. iFrame "Hv". iApply wp_seq. iApply wp_store. iFrame "Hq". iIntros "Hq".
  iApply wp_ret. iDestruct "HΦ" as "[HΦ _]". iApply "HΦ". iExists (Some d), vs. cbn [arr_items arr_capacity].
  iFrame "Hq Hp". iApply ptr_array_fresh; try lia. by rw Hl.
Qed.

(** ** Search and insertion *)

Lemma wp_object_count p q o (Φ : _ → hprop) :
  owns_object p q o ∗ (owns_object p q o -∗ Φ (length (obj_pairs o))) ⊢ wp oom (json_object_get_count (Some q)) Φ.
Proof.
  iIntros "[(%ns & %nvs & %ks & %vs & Hq & H) HΦ]". iApply wp_seq. iApply wp_load_object. iFrame "Hq". iIntros "Hq".
  iApply wp_ret. iApply "HΦ". iExists ns, nvs, ks, vs. iFrame.
Qed.
Lemma wp_array_count p q a (Φ : _ → hprop) :
  owns_array p q a ∗ (owns_array p q a -∗ Φ (length (arr_items a))) ⊢ wp oom (json_array_get_count (Some q)) Φ.
Proof.
  iIntros "[(%ptrs & %vs & Hq & H) HΦ]". iApply wp_seq. iApply wp_load_array. iFrame "Hq". iIntros "Hq".
  iApply wp_ret. iApply "HΦ". iExists ptrs, vs. iFrame.
Qed.

Lemma wp_getn_from p q o name len ps2 : ∀ i (Φ : _ → hprop), drop i (obj_pairs o) = ps2 →
  owns_object p q o ∗
    (∀ r, <affine> ⌜is_null r = is_null (getn_loop ps2 name len)⌝ -∗ owns_object p q o -∗ Φ r)
  ⊢ wp oom (getn_from (length ps2) i (Some q) name len) Φ.
Proof.
  induction ps2 as [|[k v] ps2 IH]; intros i Φ Hd.
  { iIntros "[Ho HΦ]". iApply wp_ret. by iApply ("HΦ" $! None with "[//] Ho"). }
  assert (obj_pairs o !! i = Some (k, v)) as Hi by (by rw -(Nat.add_0_r i) -lookup_drop Hd).
  assert (drop (S i) (obj_pairs o) = ps2) as Hd' by (by rw -Nat.add_1_r -drop_drop Hd).
  iIntros "[(%ns & %nvs & %ks & %vs & Hq & Hn & Hv & Hp) HΦ]".
  cbn [length getn_from]. iApply wp_seq. iApply wp_load_object. iFrame "Hq". iIntros "Hq".
  iDestruct (pairs_at_name _ i (k, v) with "Hp") as (kp vp) "(%E & Hs & Hp)"; [done|]. destruct E as [Ek Ev].
  iApply wp_seq. iApply (wp_read_cell _ _ _ _ _ _ Ek). iFrame "Hn". iIntros "Hn".
  iApply wp_seq. iApply wp_load_string. iFrame "Hs". iIntros "Hs". iDestruct ("Hp" with "Hs") as "Hp". cbn [fst].
  unfold getn_loop at 1; fold (@getn_loop JSON_Value).
  destruct (bool_decide (strlen k ≠ len)); [|destruct (strncmp_eq k name len)].
  1, 3: iApply (IH (S i)); [done|]; iFrame "HΦ"; iExists ns, nvs, ks, vs; iFrame.
  iApply (wp_read_cell _ _ _ _ _ _ Ev). iFrame "Hv". iIntros "Hv". iApply ("HΦ" $! (Some vp) with "[//]").
  iExists ns, nvs, ks, vs. iFrame.
Qed.

Lemma wp_getn p q o name len (Φ : _ → hprop) :
  owns_object p q o ∗
    (∀ r, <affine> ⌜is_null r = is_null (getn_loop (obj_pairs o) name len)⌝ -∗ owns_object p q o -∗ Φ r)
  ⊢ wp oom (json_object_getn_value (Some q) name len) Φ.
Proof.
  iIntros "[Ho HΦ]". iApply wp_seq. iApply wp_object_count. iFrame "Ho". iIntros "Ho".
  iApply (wp_getn_from p q o name len (obj_pairs o) 0); [done|]. iFrame.
Qed.

Lemma wp_set_parent par par' p v (Φ : _ → hprop) :
  owns par p v ∗ (owns par' p v -∗ Φ tt) ⊢ wp oom (set_parent (Some p) par') Φ.
Proof.
  iIntros "[H HΦ]". iDestruct (owns_block with "H") as (pl) "[H Hb]". iApply wp_seq. iApply wp_load_value.
  iFrame "H". iIntros "H". iApply wp_store. iFrame "H". iIntros "H". iApply "HΦ". by iApply "Hb".
Qed.

Lemma object_resize_pos o c : 0 < c → Parson.json_object_resize o c = (JSONSuccess, MkObject (obj_pairs o) c).
Proof. by destruct c; [lia|]. Qed.
Lemma array_resize_pos a c : 0 < c → Parson.json_array_resize a c = (JSONSuccess, MkArray (arr_items a) c).
Proof. by destruct c; [lia|]. Qed.

(** What insertion promises: the object or array of the functional model; or,
    when there is not enough memory or the functional model fails, the same
    members, and the caller still owns the value. *)
Definition object_added p q o par vp v (r : JSON_Status * option JSON_Object) (Φ : JSON_Status → hprop) : hprop :=
  match r with
  | (JSONSuccess, Some o') =>
      (owns_object p q o' -∗ Φ JSONSuccess) ∧
      (⌜oom = true⌝ → ∀ c, owns_object p q (MkObject (obj_pairs o) c) ∗ owns par vp v -∗ Φ JSONFailure)
  | _ => owns_object p q o ∗ owns par vp v -∗ Φ JSONFailure
  end.

(** The last part of [json_object_addn], where there is room. *)
Lemma wp_object_append p q o name len par vp v (Φ : _ → hprop) : length (obj_pairs o) < obj_capacity o →
  owns_object p q o ∗ owns par vp v ∗
  ((owns_object p q (MkObject (obj_pairs o ++ [(Parson.parson_strndup name len, v)]) (obj_capacity o)) -∗ Φ JSONSuccess) ∧
   (⌜oom = true⌝ → owns_object p q o ∗ owns par vp v -∗ Φ JSONFailure))
  ⊢ wp oom (o ← load_object (Some q);
      let '(w, ns, vs, index, capacity) := o in
      k ← parson_strndup name len;
      _ ← write_cell ns index k;
      match k with
      | None => mret JSONFailure
      | Some _ =>
          _ ← set_parent (Some vp) w;
          _ ← write_cell vs index (Some vp);
          _ ← store (Some q) (BObject w ns vs (S index) capacity);
          mret JSONSuccess
      end) Φ.
Proof.
  iIntros (Hc) "[(%ns & %nvs & %ks & %vs & Hq & Hn & Hv & Hp) [Hx HΦ]]".
  iDestruct (pairs_at_length with "Hp") as "[[%Hk %Hl] Hp]".
  iApply wp_seq. iApply wp_load_object. iFrame "Hq". iIntros "Hq". iApply wp_seq. iApply wp_strndup. iSplit; last first.
  { iIntros "%E". iApply wp_seq. iApply (wp_write_cell _ _ _ _ _ _ Hk Hc). iFrame "Hn". iIntros "Hn".
    iApply wp_ret. iDestruct "HΦ" as "[_ HΦ]". iApply ("HΦ" with "[//]"). iFrame "Hx".
    iExists ns, nvs, ks, vs. iFrame. }
  iIntros (k) "Hs". iApply wp_seq. iApply (wp_write_cell _ _ _ _ _ _ Hk Hc). iFrame "Hn". iIntros "Hn".
  iApply wp_seq. iApply wp_set_parent. iFrame "Hx". iIntros "Hx".
  iApply wp_seq. iApply (wp_write_cell _ _ _ _ _ _ Hl Hc). iFrame "Hv". iIntros "Hv".
  iApply wp_seq. iApply wp_store. iFrame "Hq". iIntros "Hq". iApply wp_ret. iDestruct "HΦ" as "[HΦ _]". iApply "HΦ".
  iExists ns, nvs, (ks ++ [k]), (vs ++ [vp]). cbn [obj_pairs obj_capacity]. rw length_app Nat.add_1_r. iFrame "Hq Hn Hv".
  iApply pairs_at_snoc. iFrame.
Qed.

Lemma wp_object_addn p q o name len par vp v (Φ : _ → hprop) :
  owns_object p q o ∗ owns par vp v ∗
    object_added p q o par vp v (Parson.json_object_addn (Some o) name len (Some v)) Φ
  ⊢ wp oom (json_object_addn (Some q) name len (Some vp)) Φ.
Proof.
  iIntros "(Ho & Hx & HΦ)". iDestruct (owns_object_cap with "Ho") as "[%Hcap Ho]". unfold json_object_addn. cbn [is_null orb]. iApply wp_seq. iApply wp_getn. iFrame "Ho".
  iIntros (r) "%Er Ho". unfold Parson.json_object_addn, Parson.json_object_getn_value.
  destruct (getn_loop (obj_pairs o) name len) as [w|]; rw Er; cbn [is_null negb].
  { iApply wp_ret. iApply "HΦ". iFrame. }
  iDestruct "Ho" as "(%ns & %nvs & %ks & %vs & Hq & H)". iApply wp_seq. iApply wp_load_object. iFrame "Hq". iIntros "Hq".
  iAssert (owns_object p q o) with "[Hq H]" as "Ho"; [iExists ns, nvs, ks, vs; iFrame|].
  iApply wp_seq. case_bool_decide as Hc.
  - assert (length (obj_pairs o) < Nat.max (obj_capacity o * 2) STARTING_CAPACITY) as Hm.
    { unfold STARTING_CAPACITY. lia. }
    set (c := Nat.max _ _) in *. rw object_resize_pos; [|lia].
    iApply (wp_object_resize p q o c); [lia|lia|]. iFrame "Ho". iSplit; last first.
    { iIntros "%E Ho". iApply wp_ret. cbn. iDestruct "HΦ" as "[_ HΦ]". destruct o. iApply ("HΦ" with "[//]"). iFrame. }
    iIntros "Ho". iApply (wp_object_append _ _ (MkObject (obj_pairs o) c)); [done|]. iFrame "Ho Hx". cbn. iSplit.
    + iDestruct "HΦ" as "[HΦ _]". iExact "HΦ".
    + iIntros "%E Ho". iDestruct "HΦ" as "[_ HΦ]". by iApply "HΦ".
  - iApply wp_ret. iApply (wp_object_append _ _ o); [lia|]. iFrame "Ho Hx". cbn. iSplit.
    + iDestruct "HΦ" as "[HΦ _]". iExact "HΦ".
    + iIntros "%E Ho". iDestruct "HΦ" as "[_ HΦ]". destruct o. by iApply "HΦ".
Qed.

(** The last part of [json_array_add], where there is room. *)
Lemma wp_array_append p q a par vp v (Φ : _ → hprop) : length (arr_items a) < arr_capacity a →
  owns_array p q a ∗ owns par vp v ∗
    (owns_array p q (MkArray (arr_items a ++ [v]) (arr_capacity a)) -∗ Φ JSONSuccess)
  ⊢ wp oom (a ← load_array (Some q);
      let '(w, items, count, capacity) := a in
      _ ← set_parent (Some vp) w;
      _ ← write_cell items count (Some vp);
      _ ← store (Some q) (BArray w items (S count) capacity);
      mret JSONSuccess) Φ.
Proof.
  iIntros (Hc) "[(%ptrs & %vs & Hq & Hv & Hp) [Hx HΦ]]". iDestruct (items_at_length with "Hp") as "[%Hl Hp]".
  iApply wp_seq. iApply wp_load_array. iFrame "Hq". iIntros "Hq".
  iApply wp_seq. iApply wp_set_parent. iFrame "Hx". iIntros "Hx".
  iApply wp_seq. iApply (wp_write_cell _ _ _ _ _ _ Hl Hc). iFrame "Hv". iIntros "Hv".
  iApply wp_seq. iApply wp_store. iFrame "Hq". iIntros "Hq". iApply wp_ret. iApply "HΦ".
  iExists ptrs, (vs ++ [vp]). cbn [arr_items arr_capacity]. rw length_app Nat.add_1_r. iFrame "Hq Hv".
  iApply items_at_snoc. iFrame.
Qed.

Lemma wp_array_add p q a par vp v (Φ : _ → hprop) :
  owns_array p q a ∗ owns par vp v ∗
    ((owns_array p q (Parson.json_array_add a v).2 -∗ Φ JSONSuccess) ∧
     (⌜oom = true⌝ → owns_array p q a ∗ owns par vp v -∗ Φ JSONFailure))
  ⊢ wp oom (json_array_add (Some q) (Some vp)) Φ.
Proof.
  iIntros "(Ha & Hx & HΦ)". iDestruct (owns_array_cap with "Ha") as "[%Hcap Ha]". unfold Parson.json_array_add.
  iDestruct "Ha" as "(%ptrs & %vs & Hq & H)". iApply wp_seq. iApply wp_load_array. iFrame "Hq". iIntros "Hq".
  iAssert (owns_array p q a) with "[Hq H]" as "Ha"; [iExists ptrs, vs; iFrame|].
  iApply wp_seq. case_bool_decide as Hc.
  - assert (length (arr_items a) < Nat.max (arr_capacity a * 2) STARTING_CAPACITY) as Hm
      by (unfold STARTING_CAPACITY; lia).
    set (c := Nat.max _ _) in *. rw array_resize_pos; [|lia].
    iApply (wp_array_resize p q a c); [lia|lia|]. iFrame "Ha". iSplit; last first.
    { iIntros "%E Ha". iApply wp_ret. iDestruct "HΦ" as "[_ HΦ]". iApply ("HΦ" with "[//]"). iFrame. }
    iIntros "Ha". iApply (wp_array_append _ _ (MkArray (arr_items a) c)); [done|]. iFrame "Ha Hx".
    iDestruct "HΦ" as "[HΦ _]". iExact "HΦ".
  - iApply wp_ret. iApply (wp_array_append _ _ a); [lia|]. iFrame "Ha Hx". iDestruct "HΦ" as "[HΦ _]". iExact "HΦ".
Qed.

(** ** Strings *)

Lemma wp_process_string input len r (Φ : _ → hprop) :
  ParsonText.process_string input len = Ok r → (∀ text, r = Some text → length text <= len) →
  (match r with Some text => (∀ p, strbuf p text -∗ Φ (Some p)) ∧ (⌜oom = true⌝ → Φ None) | None => Φ None end)
  ⊢ wp oom (process_string input len) Φ.
Proof.
  iIntros (Hr Hl) "HΦ". iApply wp_seq. iApply wp_malloc. iSplit; last first.
  { iIntros "%E". iApply wp_seq. iApply wp_free_null. iApply wp_ret.
    destruct r; [iDestruct "HΦ" as "[_ HΦ]"; by iApply "HΦ"|done]. }
  iIntros (p) "Hp". iApply wp_seq. iApply (wp_lift _ _ _ _ Hr). destruct r as [text|]; last first.
  { iApply wp_seq. iApply wp_free. iFrame "Hp". by iApply wp_ret. }
  specialize (Hl text eq_refl).
  iApply wp_seq. iApply (wp_write_string _ (len + 1)); [lia|]. iFrame "Hp". iIntros "Hp".
  iApply wp_seq. iApply wp_malloc. iSplit; last first.
  { iIntros "%E". iApply wp_seq. iApply wp_free_string. iFrame "Hp". iApply wp_ret.
    iDestruct "HΦ" as "[_ HΦ]". by iApply "HΦ". }
  iIntros (p') "Hp'". iApply wp_seq. iApply wp_load_string. iFrame "Hp". iIntros "Hp".
  iApply wp_seq. iApply (wp_write_string _ (length text + 1)); [lia|]. iFrame "Hp'". iIntros "Hp'".
  iApply wp_seq. iApply wp_free_string. iFrame "Hp". iApply wp_ret. iDestruct "HΦ" as "[HΦ _]". by iApply "HΦ".
Qed.

Lemma wp_get_quoted_string s r (Φ : _ → hprop) : ParsonText.get_quoted_string s = Ok r →
  (match r with
   | Some (text, rest) => (∀ p, strbuf p text -∗ Φ (Some p, rest)) ∧ (∀ s', ⌜oom = true⌝ → Φ (None, s'))
   | None => ∀ s', Φ (None, s')
   end) ⊢ wp oom (get_quoted_string s) Φ.
Proof.
  iIntros (Hr) "HΦ". destruct (get_quoted_string_total s) as (r' & Hr' & Hb).
  rw Hr in Hr'. apply Ok_inj in Hr'. subst r'.
  revert Hr. unfold ParsonText.get_quoted_string, get_quoted_string.
  destruct (skip_quotes s) as [rest|] eqn:Eq; intros Hr; last first.
  { simplify_eq. iApply wp_ret. iApply "HΦ". }
  destruct (ParsonText.process_string (drop 1 s) (length s - length rest - 2)) as [t| |] eqn:Et; try done.
  cbn in Hr. iApply wp_seq. iApply (wp_process_string _ _ _ _ Et).
  - intros text ->. simplify_eq. destruct (Hb _ _ eq_refl) as (mid & -> & Hm). cbn. rw length_app. cbn. lia.
  - destruct t as [text|]; simplify_eq; [iSplit|iApply wp_ret; iApply "HΦ"].
    + iIntros (p) "Hp". iApply wp_ret. iDestruct "HΦ" as "[HΦ _]". by iApply "HΦ".
    + iIntros "%E". iApply wp_ret. iDestruct "HΦ" as "[_ HΦ]". by iApply "HΦ".
Qed.

(** ** The parser *)

Implicit Types Φ : option addr * bytes → hprop.

(** What a parsing function promises when the functional parser returns [r]:
    the value and the cursor of [r], or NULL where memory may run out; in both
    cases nothing else is left allocated. *)
Definition outcome (r : option (JSON_Value * bytes)) (Φ : option addr * bytes → hprop) : hprop :=
  match r with
  | Some (v, rest) => (∀ p, owns None p v -∗ Φ (Some p, rest)) ∧ (∀ s, ⌜oom = true⌝ → Φ (None, s))
  | None => ∀ s, Φ (None, s)
  end.

Lemma outcome_oom r Φ s : oom = true → outcome r Φ ⊢ Φ (None, s).
Proof.
  iIntros (E) "H". destruct r as [[v rest]|]; cbn; [iDestruct "H" as "[_ H]"; by iApply "H"|iApply "H"].
Qed.

Lemma wp_free_and_null p v s Φ : owns None p v ∗ Φ (None, s) ⊢ wp oom (free_and_null (Some p) s) Φ.
Proof. iIntros "[H HΦ]". iApply wp_seq. iApply wp_value_free. iFrame "H". by iApply wp_ret. Qed.

(** A value that is one block. *)
Lemma wp_leaf pl v s Φ : (∀ p, p ↦ BValue None pl ⊢ owns None p v) →
  outcome (Some (v, s)) Φ ⊢ wp oom (p ← malloc (BValue None pl); mret (p, s)) Φ.
Proof.
  iIntros (Hv) "HΦ". iApply wp_seq. iApply wp_malloc. iSplit.
  - iIntros (p) "Hp". iApply wp_ret. iDestruct "HΦ" as "[HΦ _]". iApply "HΦ". by iApply Hv.
  - iIntros "%E". iApply wp_ret. by iApply (outcome_oom with "HΦ").
Qed.

Lemma wp_parse_string_value s r Φ : ParsonParse.parse_string_value s = Ok r →
  outcome r Φ ⊢ wp oom (parse_string_value s) Φ.
Proof.
  iIntros (Hr) "HΦ". unfold ParsonParse.parse_string_value in Hr.
  destruct (ParsonText.get_quoted_string s) as [q| |] eqn:Eq; try done. cbn in Hr. simplify_eq.
  iApply wp_seq. iApply (wp_get_quoted_string _ _ _ Eq). destruct q as [[text rest]|].
  2: { iIntros (s'). iApply wp_ret. iApply "HΦ". }
  iSplit; [|iIntros (s' E); iApply wp_ret; by iApply (outcome_oom with "HΦ")].
  iIntros (q) "Hq". iApply wp_seq. iApply wp_malloc. iSplit.
  - iIntros (p) "Hp". iApply wp_ret. iDestruct "HΦ" as "[HΦ _]". iApply "HΦ". iExists q. iFrame.
  - iIntros "%E". iApply wp_seq. iApply wp_free_string. iFrame "Hq". iApply wp_ret. by iApply (outcome_oom with "HΦ").
Qed.

Lemma wp_parse_boolean_value s r Φ : ParsonParse.parse_boolean_value s = Ok r →
  outcome r Φ ⊢ wp oom (parse_boolean_value s) Φ.
Proof.
  intros <-%Ok_inj. unfold parse_boolean_value.
  destruct (strncmp_eq _ s 4); [by apply wp_leaf|]. destruct (strncmp_eq _ s 5); [by apply wp_leaf|].
  iIntros "HΦ". iApply wp_ret. iApply "HΦ".
Qed.

Lemma wp_parse_null_value s r Φ : ParsonParse.parse_null_value s = Ok r →
  outcome r Φ ⊢ wp oom (parse_null_value s) Φ.
Proof.
  intros <-%Ok_inj. unfold parse_null_value.
  destruct (strncmp_eq _ s 4); [by apply wp_leaf|]. iIntros "HΦ". iApply wp_ret. iApply "HΦ".
Qed.

Lemma wp_parse_number_value s r Φ : ParsonParse.parse_number_value s = Ok r →
  outcome r Φ ⊢ wp oom (parse_number_value s) Φ.
Proof.
  unfold ParsonParse.parse_number_value, parse_number_value. intros H.
  apply Ok_inj in H. subst r. unfold json_value_init_number.
  destruct (_ || _); [iIntros "HΦ"; iApply wp_ret; iApply "HΦ"|].
  destruct (Parson.json_value_init_number _) as [v|] eqn:E.
  - apply json_value_init_number_finite in E as [-> _]. by apply wp_leaf.
  - iIntros "HΦ". iApply wp_seq. iApply wp_ret. iApply wp_ret. iApply "HΦ".
Qed.

Lemma wp_finish_object p q o s r Φ : ParsonParse.finish_object o s = Ok r →
  p ↦ BValue None (PObject (Some q)) ∗ owns_object p q o ∗ outcome r Φ
  ⊢ wp oom (finish_object (Some p) (Some q) s) Φ.
Proof.
  unfold ParsonParse.finish_object, finish_object. intros H.
  apply Ok_inj in H. subst r. iIntros "(Hp & Ho & HΦ)".
  destruct (negb _).
  { iApply (wp_free_and_null p (JSONObject o)). rw owns_object_eq. iFrame. iApply "HΦ". }
  iApply wp_seq. iApply wp_object_count. iFrame "Ho". iIntros "Ho". iApply wp_seq. cbn [Parson.json_object_get_count].
  destruct (decide (length (obj_pairs o) = 0)) as [->|Hn].
  - iApply wp_object_resize_zero. iFrame "Ho". iIntros "Ho". iApply (wp_free_and_null p (JSONObject o)).
    rw owns_object_eq. iFrame. iApply "HΦ".
  - rw object_resize_pos; [|lia]. iApply wp_object_resize; [done|lia|]. iFrame "Ho". iSplit.
    + iIntros "Ho". iApply wp_ret. iDestruct "HΦ" as "[HΦ _]". iApply "HΦ". rw owns_object_eq. iFrame.
    + iIntros "%E Ho". iApply (wp_free_and_null p (JSONObject o)). iSplitR "HΦ"; [rw owns_object_eq; iFrame|].
      by iApply (outcome_oom with "HΦ").
Qed.

Lemma wp_finish_array p q a s r Φ : ParsonParse.finish_array a s = Ok r →
  p ↦ BValue None (PArray (Some q)) ∗ owns_array p q a ∗ outcome r Φ
  ⊢ wp oom (finish_array (Some p) (Some q) s) Φ.
Proof.
  unfold ParsonParse.finish_array, finish_array. intros H.
  apply Ok_inj in H. subst r. iIntros "(Hp & Ha & HΦ)".
  destruct (negb _).
  { iApply (wp_free_and_null p (JSONArray a)). rw owns_array_eq. iFrame. iApply "HΦ". }
  iApply wp_seq. iApply wp_array_count. iFrame "Ha". iIntros "Ha". iApply wp_seq. cbn [Parson.json_array_get_count].
  destruct (decide (length (arr_items a) = 0)) as [->|Hn].
  - iApply wp_ret. iApply (wp_free_and_null p (JSONArray a)). rw owns_array_eq. iFrame. iApply "HΦ".
  - rw array_resize_pos; [|lia]. iApply wp_array_resize; [done|lia|]. iFrame "Ha". iSplit.
    + iIntros "Ha". iApply wp_ret. iDestruct "HΦ" as "[HΦ _]". iApply "HΦ". rw owns_array_eq. iFrame.
    + iIntros "%E Ha". iApply (wp_free_and_null p (JSONArray a)). iSplitR "HΦ"; [rw owns_array_eq; iFrame|].
      by iApply (outcome_oom with "HΦ").
Qed.

Definition value_spec (f : nat) : Prop := ∀ s n r Φ, ParsonParse.parse_value f s n = Ok r →
  outcome r Φ ⊢ wp oom (parse_value f s n) Φ.
Definition object_spec (f : nat) : Prop := ∀ p q o s n r Φ, ParsonParse.parse_object_loop f o s n = Ok r →
  p ↦ BValue None (PObject (Some q)) ∗ owns_object p q o ∗ outcome r Φ
  ⊢ wp oom (parse_object_loop f (Some p) (Some q) s n) Φ.
Definition array_spec (f : nat) : Prop := ∀ p q a s n r Φ, ParsonParse.parse_array_loop f a s n = Ok r →
  p ↦ BValue None (PArray (Some q)) ∗ owns_array p q a ∗ outcome r Φ
  ⊢ wp oom (parse_array_loop f (Some p) (Some q) s n) Φ.

Lemma wp_object_free_and_null p q o s Φ :
  p ↦ BValue None (PObject (Some q)) ∗ owns_object p q o ∗ Φ (None, s) ⊢ wp oom (free_and_null (Some p) s) Φ.
Proof. iIntros "(Hp & Ho & HΦ)". iApply (wp_free_and_null p (JSONObject o)). rw owns_object_eq. iFrame. Qed.
Lemma wp_array_free_and_null p q a s Φ :
  p ↦ BValue None (PArray (Some q)) ∗ owns_array p q a ∗ Φ (None, s) ⊢ wp oom (free_and_null (Some p) s) Φ.
Proof. iIntros "(Hp & Ha & HΦ)". iApply (wp_free_and_null p (JSONArray a)). rw owns_array_eq. iFrame. Qed.

Lemma array_spec_step f : value_spec f → array_spec f → array_spec (S f).
Proof.
  intros IHv IHa p q a s n r Φ. cbn [parse_array_loop ParsonParse.parse_array_loop].
  destruct (bool_decide (peek s = x00)); [apply wp_finish_array|].
  destruct (ParsonParse.parse_value f s n) as [rv| |] eqn:Ev; try done. cbn [mbind res_bind]. intros Hr.
  iIntros "(Hp & Ha & HΦ)". iApply wp_seq. iApply (IHv _ _ _ _ Ev). destruct rv as [[v s1]|]; last first.
  { iIntros (s'). apply Ok_inj in Hr as <-. iApply wp_array_free_and_null. iFrame. iApply "HΦ". }
  iSplit; last first.
  { iIntros (s' E). iApply wp_array_free_and_null. iFrame. by iApply (outcome_oom with "HΦ"). }
  iIntros (vp) "Hv". iApply wp_seq. iApply wp_array_add. iFrame "Ha Hv".
  destruct (json_array_add_success a v) as [a' Ea]. rw Ea in Hr *. cbn [snd]. iSplit; last first.
  { iIntros "%E [Ha Hv]". iApply wp_seq. iApply wp_value_free. iFrame "Hv". iApply wp_array_free_and_null. iFrame.
    by iApply (outcome_oom with "HΦ"). }
  iIntros "Ha". destruct (negb (bool_decide (peek (skip_whitespaces s1) = x2c))).
  - iApply wp_finish_array; [done|]. iFrame.
  - iApply IHa; [done|]. iFrame.
Qed.

Lemma object_spec_step f : value_spec f → object_spec f → object_spec (S f).
Proof.
  intros IHv IHo p q o s n r Φ. cbn [parse_object_loop ParsonParse.parse_object_loop].
  destruct (bool_decide (peek s = x00)); [apply wp_finish_object|].
  destruct (ParsonText.get_quoted_string s) as [k| |] eqn:Ek; try done. cbn [mbind res_bind]. intros Hr.
  iIntros "(Hp & Ho & HΦ)". iApply wp_seq. iApply (wp_get_quoted_string _ _ _ Ek). destruct k as [[key s1]|]; last first.
  { iIntros (s'). apply Ok_inj in Hr as <-. iApply wp_object_free_and_null. iFrame. iApply "HΦ". }
  iSplit; last first.
  { iIntros (s' E). iApply wp_object_free_and_null. iFrame. by iApply (outcome_oom with "HΦ"). }
  iIntros (kp) "Hk". destruct (negb (bool_decide (peek (skip_whitespaces s1) = x3a))).
  { apply Ok_inj in Hr as <-. iApply wp_seq. iApply wp_free_string. iFrame "Hk".
    iApply wp_object_free_and_null. iFrame. iApply "HΦ". }
  destruct (ParsonParse.parse_value f _ n) as [rv| |] eqn:Ev; try done. cbn [mbind res_bind] in Hr.
  iApply wp_seq. iApply (IHv _ _ _ _ Ev). destruct rv as [[v s2]|]; last first.
  { iIntros (s'). apply Ok_inj in Hr as <-. iApply wp_seq. iApply wp_free_string. iFrame "Hk".
    iApply wp_object_free_and_null. iFrame. iApply "HΦ". }
  iSplit; last first.
  { iIntros (s' E). iApply wp_seq. iApply wp_free_string. iFrame "Hk".
    iApply wp_object_free_and_null. iFrame. by iApply (outcome_oom with "HΦ"). }
  iIntros (vp) "Hv". iApply wp_seq. iApply wp_load_string. iFrame "Hk". iIntros "Hk".
  iApply wp_seq. iApply wp_object_addn. iFrame "Ho Hv".
  fold (Parson.json_object_add (Some o) key (Some v)).
  destruct (Parson.json_object_add (Some o) key (Some v)) as [[] [o'|]] eqn:Ea; cbn [object_added].
  2-4: iIntros "[Ho Hv]"; apply Ok_inj in Hr as <-; iApply wp_seq; iApply wp_free_string; iFrame "Hk";
    iApply wp_seq; iApply wp_value_free; iFrame "Hv"; iApply wp_object_free_and_null; iFrame; iApply "HΦ".
  iSplit; last first.
  { iIntros (E c) "[Ho Hv]". iApply wp_seq. iApply wp_free_string. iFrame "Hk".
    iApply wp_seq. iApply wp_value_free. iFrame "Hv". iApply wp_object_free_and_null. iFrame.
    by iApply (outcome_oom with "HΦ"). }
  iIntros "Ho". iApply wp_seq. iApply wp_free_string. iFrame "Hk".
  destruct (negb (bool_decide (peek (skip_whitespaces s2) = x2c))).
  - iApply wp_finish_object; [done|]. iFrame.
  - iApply IHo; [done|]. iFrame.
Qed.

Lemma wp_get_object par p q (Φ : option addr → hprop) :
  p ↦ BValue par (PObject (Some q)) ∗ (p ↦ BValue par (PObject (Some q)) -∗ Φ (Some q))
  ⊢ wp oom (json_value_get_object (Some p)) Φ.
Proof. iIntros "[H HΦ]". iApply wp_seq. iApply wp_load_value. iFrame. iIntros "H". iApply wp_ret. by iApply "HΦ". Qed.
Lemma wp_get_array par p q (Φ : option addr → hprop) :
  p ↦ BValue par (PArray (Some q)) ∗ (p ↦ BValue par (PArray (Some q)) -∗ Φ (Some q))
  ⊢ wp oom (json_value_get_array (Some p)) Φ.
Proof. iIntros "[H HΦ]". iApply wp_seq. iApply wp_load_value. iFrame. iIntros "H". iApply wp_ret. by iApply "HΦ". Qed.

Lemma wp_parse_object_value loop loop' s r Φ :
  (∀ p q o s r Φ, loop' o s = Ok r → p ↦ BValue None (PObject (Some q)) ∗ owns_object p q o ∗ outcome r Φ
     ⊢ wp oom (loop (Some p) (Some q) s) Φ) →
  ParsonParse.parse_object_value loop' s = Ok r → outcome r Φ ⊢ wp oom (parse_object_value loop s) Φ.
Proof.
  iIntros (Hl Hr) "HΦ". iApply wp_seq. iApply wp_init_object. iSplit; last first.
  { iIntros "%E". iApply wp_ret. by iApply (outcome_oom with "HΦ"). }
  iIntros (p q) "[Hp Ho]". unfold ParsonParse.parse_object_value in Hr. destruct (negb _).
  { apply Ok_inj in Hr as <-. iApply wp_object_free_and_null. iFrame. iApply "HΦ". }
  iApply wp_seq. iApply wp_get_object. iFrame "Hp". iIntros "Hp". destruct (bool_decide _).
  - apply Ok_inj in Hr as <-. iApply wp_ret. iDestruct "HΦ" as "[HΦ _]". iApply "HΦ".
    unfold Parson.json_value_init_object. rw owns_object_eq. iFrame.
  - iApply Hl; [done|]. iFrame.
Qed.

Lemma wp_parse_array_value loop loop' s r Φ :
  (∀ p q a s r Φ, loop' a s = Ok r → p ↦ BValue None (PArray (Some q)) ∗ owns_array p q a ∗ outcome r Φ
     ⊢ wp oom (loop (Some p) (Some q) s) Φ) →
  ParsonParse.parse_array_value loop' s = Ok r → outcome r Φ ⊢ wp oom (parse_array_value loop s) Φ.
Proof.
  iIntros (Hl Hr) "HΦ". iApply wp_seq. iApply wp_init_array. iSplit; last first.
  { iIntros "%E". iApply wp_ret. by iApply (outcome_oom with "HΦ"). }
  iIntros (p q) "[Hp Ha]". unfold ParsonParse.parse_array_value in Hr. destruct (negb _).
  { apply Ok_inj in Hr as <-. iApply wp_array_free_and_null. iFrame. iApply "HΦ". }
  iApply wp_seq. iApply wp_get_array. iFrame "Hp". iIntros "Hp". destruct (bool_decide _).
  - apply Ok_inj in Hr as <-. iApply wp_ret. iDestruct "HΦ" as "[HΦ _]". iApply "HΦ".
    unfold Parson.json_value_init_array. rw owns_array_eq. iFrame.
  - iApply Hl; [done|]. iFrame.
Qed.

Lemma value_spec_step f : object_spec f → array_spec f → value_spec (S f).
Proof.
  intros IHo IHa s n r Φ. cbn [parse_value ParsonParse.parse_value].
  set (t := skip_whitespaces s).
  assert (∀ s', Ok None = Ok r → outcome r Φ ⊢ wp oom (mret (None, s')) Φ) as Hnone.
  { iIntros (s' <-%Ok_inj) "HΦ". iApply wp_ret. iApply "HΦ". }
  destruct (bool_decide (MAX_NESTING < n)); [apply Hnone|].
  destruct (bool_decide _); [apply wp_parse_object_value; intros *; apply IHo|].
  destruct (bool_decide _); [apply wp_parse_array_value; intros *; apply IHa|].
  destruct (bool_decide _); [apply wp_parse_string_value|].
  destruct (_ || _); [apply wp_parse_boolean_value|].
  destruct (starts_number _); [apply wp_parse_number_value|].
  destruct (bool_decide _); [apply wp_parse_null_value|apply Hnone].
Qed.

Lemma parser_spec f : value_spec f ∧ object_spec f ∧ array_spec f.
Proof.
  induction f as [|f (IHv & IHo & IHa)]; [split_and!; by intros ?|].
  split_and!; [by apply value_spec_step|by apply object_spec_step|by apply array_spec_step].
Qed.

(** Code that returns the value [r] in new memory, or NULL where memory may run
    out, and otherwise leaves nothing behind. *)
Definition value_or_null (r : option JSON_Value) (Φ : option addr → hprop) : hprop :=
  match r with
  | Some v => (∀ p, owns None p v -∗ Φ (Some p)) ∧ (⌜oom = true⌝ → Φ None)
  | None => Φ None
  end.

Lemma wp_parse_text s r (Φ : _ → hprop) : parse_text s = Ok r →
  value_or_null r Φ ⊢ wp oom (r ← parse_value (S (2 * length s)) s 0; mret r.1) Φ.
Proof.
  unfold parse_text. destruct (ParsonParse.parse_value _ _ _) as [rv| |] eqn:Ev; try done. cbn [mbind res_bind].
  iIntros (<-%Ok_inj) "HΦ". iApply wp_seq. iApply (proj1 (parser_spec _) _ _ _ _ Ev).
  destruct rv as [[v rest]|]; cbn; [|iIntros (s'); by iApply wp_ret]. iSplit.
  - iIntros (p) "Hp". iApply wp_ret. iDestruct "HΦ" as "[HΦ _]". by iApply "HΦ".
  - iIntros (s' E). iApply wp_ret. iDestruct "HΦ" as "[_ HΦ]". by iApply "HΦ".
Qed.

Lemma wp_json_parse_string string r (Φ : _ → hprop) : ParsonParse.json_parse_string string = Ok r →
  value_or_null r Φ ⊢ wp oom (json_parse_string string) Φ.
Proof. destruct string as [s|]; [apply wp_parse_text|iIntros (<-%Ok_inj) "HΦ"; by iApply wp_ret]. Qed.
End proofs.

(** ** Runs *)

Lemma allowed_any fs : allowed true fs.
Proof. done. Qed.
Lemma allowed_none : allowed false [].
Proof. done. Qed.

Lemma parse_well_formed string : ∃ r, ParsonParse.json_parse_string string = Ok r ∧
  ∀ v, r = Some v → wf_value v = true ∧ depth v <= S MAX_NESTING.
Proof. destruct string as [s|]; [apply parse_text_total|by exists None]. Qed.
Lemma parse_defined string : ∃ r, ParsonParse.json_parse_string string = Ok r.
Proof. destruct (parse_well_formed string) as (r & H & _). by exists r. Qed.

(** A run of such code beside any other memory. *)
Lemma value_or_null_run oom (m : HM (option addr)) r h fs :
  (∀ Φ, value_or_null oom r Φ ⊢ wp oom m Φ) → allowed oom fs →
  ∃ res h' fs', m (MkMem h fs) = Ok (res, MkMem (h' ∪ h) fs') ∧ h' ##ₘ h ∧
    match res with
    | None => h' = ∅ ∧ (oom = false → r = None)
    | Some p => ∃ v, r = Some v ∧ at_heap (owns None p v) h'
    end.
Proof.
  intros Hm Hfs. pose (Φ := λ res : option addr, match res with
    | None => <affine> ⌜oom = false → r = None⌝
    | Some p => ∃ v, <affine> ⌜r = Some v⌝ ∗ owns None p v end%I : hprop).
  assert (emp ⊢ wp oom m Φ) as [Hwp].
  { iIntros "_". iApply Hm. destruct r as [v|]; [iSplit|by iPureIntro].
    - iIntros (p) "H". iExists v. by iFrame.
    - iIntros (->). by iPureIntro. }
  destruct (Hwp ∅ eq_refl h fs (map_disjoint_empty_l _) Hfs) as (res & h' & fs' & E & Hd & _ & HΦ).
  rw (left_id_L ∅ (∪)) in E. exists res, h', fs'. split_and!; [done..|].
  destruct res as [p|].
  - destruct HΦ as (v & h1 & h2 & -> & _ & [Hh Hv] & Ho). change (h1 = ∅) in Hh. subst h1. exists v. split; [done|].
    by rw (left_id_L ∅ (∪)).
  - by destruct HΦ as [-> Hn].
Qed.

(** The same, for the allocations that do fail. *)
Lemma value_or_null_safe (m : HM (option addr)) r h fs : (∀ oom Φ, value_or_null oom r Φ ⊢ wp oom m Φ) →
  ∃ res h' fs', m (MkMem h fs) = Ok (res, MkMem (h' ∪ h) fs') ∧ h' ##ₘ h ∧
    match res with
    | None => h' = ∅ ∧ (fs = [] → r = None)
    | Some p => ∃ v, r = Some v ∧ at_heap (owns None p v) h'
    end.
Proof.
  intros Hm. destruct fs as [|b fs].
  - destruct (value_or_null_run false m r h [] (Hm false) allowed_none) as (res & h' & fs' & H). exists res, h', fs'.
    split_and!; try apply H. destruct res; [apply H|]. split; [|intros _]; by apply H.
  - destruct (value_or_null_run true m r h (b :: fs) (Hm true) (allowed_any _)) as (res & h' & fs' & H).
    exists res, h', fs'. split_and!; try apply H. destruct res; [apply H|]. split; [apply H|done].
Qed.

Lemma free_run par p v h' h fs : at_heap (owns par p v) h' → h' ##ₘ h →
  ∃ fs', json_value_free (Some p) (MkMem (h' ∪ h) fs) = Ok (tt, MkMem h fs').
Proof.
  intros Ho Hd. assert (owns par p v ⊢ wp true (json_value_free (Some p)) (λ _, emp)%I) as [Hwp].
  { iIntros "H". iApply wp_value_free. by iFrame. }
  destruct (Hwp h' Ho h fs Hd (allowed_any fs)) as ([] & h2 & fs' & E & _ & _ & ->).
  exists fs'. by rw (left_id_L ∅ (∪)) in E.
Qed.

(** ** What the parser and the destructor promise *)

(** C11: [json_parse_string] with any memory and any allocations failing: no
    fault and no endless loop; it returns NULL and leaves the memory as it was,
    or a pointer to new blocks that are, with their counts, capacities, parent
    pointers and terminated names, the value the functional parser returns: one
    with distinct names without NUL, enough capacity, finite numbers and a
    nesting of at most one more than [MAX_NESTING]. Without an allocation that fails it returns NULL only for a text that is
    refused. *)
Theorem parse_memory_safe string h fs :
  ∃ r res h' fs', ParsonParse.json_parse_string string = Ok r ∧
    json_parse_string string (MkMem h fs) = Ok (res, MkMem (h' ∪ h) fs') ∧ h' ##ₘ h ∧
    match res with
    | None => h' = ∅ ∧ (fs = [] → r = None)
    | Some p => ∃ v, r = Some v ∧ wf_value v = true ∧ depth v <= S MAX_NESTING ∧ at_heap (owns None p v) h'
    end.
Proof.
  destruct (parse_well_formed string) as (r & Hr & Hw). exists r.
  destruct (value_or_null_safe (json_parse_string string) r h fs) as (res & h' & fs' & E & Hd & H).
  { intros oom Φ. by apply wp_json_parse_string. }
  exists res, h', fs'. split_and!; [done..|]. destruct res as [p|]; [|done].
  destruct H as (v & -> & Ho). destruct (Hw v eq_refl). by exists v.
Qed.

(** [json_value_free] of a value, at any address and in any memory, frees
    every block of the value once and nothing else, and terminates. *)
Theorem value_free_exact par p v h' h fs : at_heap (owns par p v) h' → h' ##ₘ h →
  ∃ fs', json_value_free (Some p) (MkMem (h' ∪ h) fs) = Ok (tt, MkMem h fs').
Proof. apply free_run. Qed.

(** C24: parsing a text and freeing the result, NULL included, leaves the memory
    as it was, whatever the text and whatever allocations fail. *)
Theorem parse_free_balanced string h fs :
  ∃ fs', (v ← json_parse_string string; json_value_free v) (MkMem h fs) = Ok (tt, MkMem h fs').
Proof.
  destruct (parse_defined string) as [r Hr].
  destruct (value_or_null_safe (json_parse_string string) r h fs) as (res & h' & fs' & E & Hd & H).
  { intros oom Φ. by apply wp_json_parse_string. }
  unfold mbind, st_bind. rw E. destruct res as [p|].
  - destruct H as (v & _ & Ho). by apply (free_run None p v).
  - destruct H as [-> _]. exists fs'. by rw (left_id_L ∅ (∪)).
Qed.

(** The string hi in memory. *)
Definition sample_heap : gmap addr block :=
  {[1%positive := BValue None (PString (Some 2%positive))]} ∪ {[2%positive := BChars 3 (Some (bs "hi"))]}.
Lemma sample_owned : at_heap (owns None 1 (JSONString (bs "hi"))) sample_heap.
Proof.
  assert (1%positive ↦ BValue None (PString (Some 2%positive)) ∗ 2%positive ↦ BChars 3 (Some (bs "hi"))
          ⊢ owns None 1 (JSONString (bs "hi"))) as [H].
  { iIntros "[H1 H2]". iExists 2%positive. iFrame "H1". iExists 3. iFrame "H2". iPureIntro. cbn. lia. }
  apply H. eexists _, _. split_and!; [done|by apply map_disjoint_singleton_l|done..].
Qed.
Lemma sample_alone : sample_heap ##ₘ {[7%positive := BChars 1 None]}.
Proof. by apply map_disjoint_singleton_r. Qed.

Lemma value_free_exact_witness : ∃ fs',
  json_value_free (Some 1%positive) (MkMem (sample_heap ∪ {[7%positive := BChars 1 None]}) [true]) =
  Ok (tt, MkMem {[7%positive := BChars 1 None]} fs').
Proof.
  exact (value_free_exact None 1 (JSONString (bs "hi")) sample_heap {[7%positive := BChars 1 None]} [true]
           sample_owned sample_alone).
Defined.

Local Open Scope positive_scope.
Example parse_example_memory : json_parse_string (Some (bs "[true, null]")) (MkMem ∅ []) = Ok (Some 1, MkMem
  {[1 := BValue None (PArray (Some 2));
    2 := BArray (Some 1) (Some 6) 2 2;
    3 := BValue (Some 1) (PBoolean true);
    5 := BValue (Some 1) PNull;
    6 := BPtrs [Some (Some 3); Some (Some 5)]]} []).
Proof. vm_compute. reflexivity. Qed.
(** The array's storage cannot be shrunk: everything is freed. *)
Example parse_example_oom :
  json_parse_string (Some (bs "[true, null]")) (MkMem ∅ [false; false; false; false; false; true]) = Ok (None, MkMem ∅ []).
Proof. vm_compute. reflexivity. Qed.
End ParsonHeapProofs.
