(* ===== verification/ParsonFile.v ===== *)
(** * parson.c: files and comments (src/common/json/parson.c, lines 268-301,
    1093-1141, 1509-1549, 1571-1614)

    Parsing from and serializing to files, and parsing with comments, over the
    memory of [ParsonHeap]: buffers and open streams are blocks, so that a
    buffer that is not freed or a stream that is not closed shows in the
    specifications. What the C library does with a file is a parameter: which
    files can be opened, what they deliver, and whether writing and closing
    succeed. *)
From iris.bi Require Import bi.
From iris.proofmode Require Import proofmode.
From S2P Require Import Prelude Utils Cdouble ParsonText Parson ParsonParse ParsonPrint ParsonRoundtrip Sgx.
From S2P Require Import HeapLogic ParsonHeap ParsonHeapProofs.
Import Cdouble ParsonText Parson ParsonParse Sgx HeapLogic ParsonHeap ParsonHeapProofs.

Module ParsonFile.

(** ** Comments *)

Definition parson_strdup (string : bytes) : HM (option addr) := parson_strndup string (strlen string).

(** [remove_comments] on a buffer. *)
Definition remove_comments (string : option addr) (start_token end_token : bytes) : HM unit :=
  s ← load_string string;
  write_string string (ParsonParse.remove_comments s start_token end_token).

Definition json_parse_string_with_comments (string : bytes) : HM (option addr) :=
  string_mutable_copy ← parson_strdup string;
  match string_mutable_copy with
  | None => mret None
  | Some _ =>
      _ ← remove_comments string_mutable_copy (bs "/*") (bs "*/");
      _ ← remove_comments string_mutable_copy (bs "//") [x0a];
      s ← load_string string_mutable_copy;
      result ← (r ← parse_value (S (2 * length s)) s 0; mret r.1);
      _ ← free string_mutable_copy;
      mret result
  end.

(** ** Reading *)

(** [fopen(filename, "r")] on a disk; it may fail for a file that exists. *)
Definition fopen_read (disk : bytes → option stream) (filename : bytes) : HM (option addr) :=
  match disk filename with
  | None => mret None
  | Some st => malloc (BFile st)
  end.
Definition load_file (fp : option addr) : HM stream :=
  b ← load fp; match b with BFile st => mret st | _ => lift (UB Dangling) end.
Definition fclose (fp : option addr) : HM unit := _ ← load_file fp; free fp.

Definition read_file (disk : bytes → option stream) (filename : bytes) : HM (option addr) :=
  fp ← fopen_read disk filename;
  match fp with
  | None => mret None
  | Some _ =>
      st ← load_file fp;
      let pos := end_pos st in
      if (pos <? 0)%Z then _ ← fclose fp; mret None
      else
        let size_to_read := Z.to_nat pos in
        file_contents ← malloc (BChars (size_to_read + 1) None);
        match file_contents with
        | None => _ ← fclose fp; mret None
        | Some _ =>
            st ← load_file fp;
            let read := take size_to_read (content st) in
            if bool_decide (length read = 0) || read_error st
            then _ ← fclose fp; _ ← free file_contents; mret None
            else _ ← fclose fp; _ ← write_string file_contents read; mret file_contents
        end
  end.

Definition json_parse_file (disk : bytes → option stream) (filename : bytes) : HM (option addr) :=
  file_contents ← read_file disk filename;
  match file_contents with
  | None => mret None
  | Some _ =>
      s ← load_string file_contents;
      output_value ← json_parse_string (Some s);
      _ ← free file_contents;
      mret output_value
  end.
Definition json_parse_file_with_comments (disk : bytes → option stream) (filename : bytes) : HM (option addr) :=
  file_contents ← read_file disk filename;
  match file_contents with
  | None => mret None
  | Some _ =>
      s ← load_string file_contents;
      output_value ← json_parse_string_with_comments s;
      _ ← free file_contents;
      mret output_value
  end.

(** ** Writing *)

(** How writing goes: whether the file can be opened, whether [fputs] and
    [fclose] succeed, and how many bytes reach the file if one of them fails. *)
Record sink := MkSink { opens : bool; puts : bool; closes : bool; kept : nat }.

(** The buffer [json_serialize_to_string] and its pretty variant return. *)
Definition serialize_to_string (is_pretty : bool) (junk : nat → byte) (value : JSON_Value) : HM (option addr) :=
  buf_size_bytes ← lift (ParsonPrint.json_serialization_size is_pretty value);
  if bool_decide (buf_size_bytes = 0)%Z then mret None
  else
    buf ← malloc (BChars (Z.to_nat buf_size_bytes) None);
    match buf with
    | None => mret None
    | Some _ =>
        r ← lift (ParsonPrint.json_serialize_to_buffer is_pretty value
                    (map junk (seq 0 (Z.to_nat buf_size_bytes))) buf_size_bytes);
        match r.2 with
        | JSONFailure => _ ← free buf; mret None
        | JSONSuccess => _ ← write_string buf (cstr r.1); mret buf
        end
    end.

(** [json_serialize_to_file] and its pretty variant: the status, and the new
    contents of the file unless it could not be opened. *)
Definition serialize_to_file (is_pretty : bool) (junk : nat → byte) (value : JSON_Value) (out : sink)
  : HM (JSON_Status * option bytes) :=
  serialized_string ← serialize_to_string is_pretty junk value;
  match serialized_string with
  | None => mret (JSONFailure, None)
  | Some _ =>
      fp ← (if opens out then malloc (BFile (MkStream 0 [] false)) else mret None);
      match fp with
      | None => _ ← free serialized_string; mret (JSONFailure, None)
      | Some _ =>
          s ← load_string serialized_string;
          _ ← fclose fp;
          _ ← free serialized_string;
          let ok := puts out && closes out in
          mret (if ok then JSONSuccess else JSONFailure, Some (if ok then s else take (kept out) s))
      end
  end.
Definition json_serialize_to_file := serialize_to_file false.
Definition json_serialize_to_file_pretty := serialize_to_file true.

(** ** What a file is read as *)

(** The text of a file, [None] where [read_file] fails with enough memory. *)
Definition file_text (disk : bytes → option stream) (filename : bytes) : option bytes :=
  match disk filename with
  | None => None
  | Some st =>
      if (end_pos st <? 0)%Z then None
      else
        let text := take (Z.to_nat (end_pos st)) (content st) in
        if bool_decide (length text = 0) || read_error st then None else Some text
  end.

(** The functional parser on the text of a file. *)
Definition file_value (comments : bool) (disk : bytes → option stream) (filename : bytes) : res (option JSON_Value) :=
  match file_text disk filename with
  | None => Ok None
  | Some text =>
      if comments then ParsonParse.json_parse_string_with_comments text else ParsonParse.json_parse_string (Some text)
  end.

Lemma file_value_defined comments disk filename : ∃ r, file_value comments disk filename = Ok r.
Proof.
  unfold file_value. destruct (file_text disk filename) as [text|]; [|by exists None]. destruct comments.
  - destruct (parse_text_total (ParsonParse.remove_comments (ParsonParse.remove_comments (cstr text) (bs "/*") (bs "*/"))
      (bs "//") [x0a])) as (r & E & _). by exists r.
  - apply parse_defined.
Qed.

(** ** Removing comments keeps the length *)

Lemma has_prefix_length token s : has_prefix token s = true → length token <= length s.
Proof. unfold has_prefix. rw bool_decide_eq_true. intros E. apply (f_equal length) in E. rw length_take in E. lia. Qed.

Lemma strstr_length token s k : strstr token s = Some k → k + length token <= length s.
Proof.
  revert k. induction s as [|c s IH]; intros k; cbn [strstr]; destruct (has_prefix token _) eqn:E.
  1, 3: intros [= <-]; by apply has_prefix_length in E.
  - done.
  - destruct (bool_decide (c = x00)); [done|]. intros (j & Hj & ->)%fmap_Some. apply IH in Hj. cbn. lia.
Qed.

Lemma remove_comments_loop_length a b : 0 < length a → 0 < length b → ∀ f s i e,
  length (remove_comments_loop f a b s i e) = length s.
Proof.
  intros Ha Hb. induction f as [|f IH]; intros s i e; [done|]. destruct s as [|c s]; [done|]. cbn [remove_comments_loop].
  destruct (bool_decide (c = x00)); [done|]. destruct (_ && _); [cbn; by rw IH|].
  destruct (_ && _); [cbn; by rw IH|]. destruct (negb i && has_prefix a (c :: s)) eqn:E; [|cbn; by rw IH].
  apply andb_true_iff in E as [_ E%has_prefix_length]. remember (c :: s) as t.
  destruct (strstr b (drop (length a) t)) as [k|] eqn:Es.
  - apply strstr_length in Es. rw length_drop in Es. rw !length_app !repeat_length IH !length_drop. lia.
  - rw length_app repeat_length length_drop. lia.
Qed.

Lemma remove_comments_length s a b : length (ParsonParse.remove_comments s a b) = length s.
Proof.
  unfold ParsonParse.remove_comments. destruct (_ || _) eqn:E; [done|].
  apply orb_false_iff in E as [E1%bool_decide_eq_false E2%bool_decide_eq_false].
  apply remove_comments_loop_length; lia.
Qed.

(** ** Specifications *)

Section proofs.
Context (oom : bool).

Lemma wp_remove_comments p s a b (Φ : _ → hprop) :
  strbuf p s ∗ (strbuf p (ParsonParse.remove_comments s a b) -∗ Φ tt) ⊢ wp oom (remove_comments (Some p) a b) Φ.
Proof.
  iIntros "[(%n & H & %Hn) HΦ]". iApply wp_seq. iApply wp_load_string. iSplitL "H"; [iExists n; by iFrame|].
  iIntros "(%m & H & %Hm)". iApply (wp_write_string _ _ m); [by rw remove_comments_length|]. iFrame.
Qed.

(** A block that is freed after a parse that may fail. *)
Lemma value_or_null_frame (P : hprop) r Φ Ψ : (∀ x, P ∗ Φ x ⊢ Ψ x) → P ∗ value_or_null oom r Φ ⊢ value_or_null oom r Ψ.
Proof.
  iIntros (H) "[HP HΦ]". destruct r as [v|]; cbn [value_or_null]; [iSplit|iApply H; iFrame].
  - iIntros (p) "Hp". iApply H. iFrame "HP". iDestruct "HΦ" as "[HΦ _]". by iApply "HΦ".
  - iIntros "%E". iApply H. iFrame "HP". iDestruct "HΦ" as "[_ HΦ]". by iApply "HΦ".
Qed.

Lemma value_or_null_oom r Φ : oom = true → value_or_null oom r Φ ⊢ Φ None.
Proof. iIntros (E) "H". destruct r as [v|]; cbn [value_or_null]; [iDestruct "H" as "[_ H]"; by iApply "H"|done]. Qed.

Lemma strdup_id s : Parson.parson_strndup s (strlen s) = cstr s.
Proof. unfold Parson.parson_strndup, strlen. by rw take_ge. Qed.

Lemma wp_parse_with_comments s r (Φ : _ → hprop) : ParsonParse.json_parse_string_with_comments s = Ok r →
  value_or_null oom r Φ ⊢ wp oom (json_parse_string_with_comments s) Φ.
Proof.
  iIntros (Hr) "HΦ". iApply wp_seq. iApply wp_strndup. iSplit; last first.
  { iIntros (E). iApply wp_ret. by iApply (value_or_null_oom with "HΦ"). }
  iIntros (p) "Hp". rw strdup_id. iApply wp_seq. iApply wp_remove_comments. iFrame "Hp". iIntros "Hp".
  iApply wp_seq. iApply wp_remove_comments. iFrame "Hp". iIntros "Hp".
  iApply wp_seq. iApply wp_load_string. iFrame "Hp". iIntros "Hp".
  iApply wp_seq. iApply (wp_parse_text _ _ _ _ Hr). iApply (value_or_null_frame (strbuf p _)); [|iFrame].
  iIntros (x) "[Hp HΦ]". iApply wp_seq. iApply wp_free_string. iFrame "Hp". by iApply wp_ret.
Qed.

Lemma wp_load_file p st (Φ : _ → hprop) : p ↦ BFile st ∗ (p ↦ BFile st -∗ Φ st) ⊢ wp oom (load_file (Some p)) Φ.
Proof. iIntros "[H HΦ]". iApply wp_seq. iApply wp_load. iFrame. iIntros "H". iApply wp_ret. by iApply "HΦ". Qed.
Lemma wp_fclose p st (Φ : _ → hprop) : p ↦ BFile st ∗ Φ tt ⊢ wp oom (fclose (Some p)) Φ.
Proof. iIntros "[H HΦ]". iApply wp_seq. iApply wp_load_file. iFrame "H". iIntros "H". iApply wp_free. iFrame. Qed.

(** Code that returns a string in a new buffer, or NULL where memory may run
    out. *)
Definition text_or_null (r : option bytes) (Φ : option addr → hprop) : hprop :=
  match r with
  | Some text => (∀ p, strbuf p text -∗ Φ (Some p)) ∧ (⌜oom = true⌝ → Φ None)
  | None => Φ None
  end.
Lemma text_or_null_oom r Φ : oom = true → text_or_null r Φ ⊢ Φ None.
Proof. iIntros (E) "H". destruct r as [v|]; cbn [text_or_null]; [iDestruct "H" as "[_ H]"; by iApply "H"|done]. Qed.

Lemma wp_read_file disk filename Φ : text_or_null (file_text disk filename) Φ ⊢ wp oom (read_file disk filename) Φ.
Proof.
  unfold file_text, read_file, fopen_read. destruct (disk filename) as [st|].
  2: { iIntros "HΦ". iApply wp_seq. iApply wp_ret. by iApply wp_ret. }
  iIntros "HΦ". iApply wp_seq. iApply wp_malloc. iSplit; last first.
  { iIntros (E). iApply wp_ret. by iApply (text_or_null_oom with "HΦ"). }
  iIntros (f) "Hf". iApply wp_seq. iApply wp_load_file. iFrame "Hf". iIntros "Hf".
  destruct (end_pos st <? 0)%Z.
  { iApply wp_seq. iApply wp_fclose. iFrame "Hf". by iApply wp_ret. }
  iApply wp_seq. iApply wp_malloc. iSplit; last first.
  { iIntros (E). iApply wp_seq. iApply wp_fclose. iFrame "Hf". iApply wp_ret. by iApply (text_or_null_oom with "HΦ"). }
  iIntros (p) "Hp". iApply wp_seq. iApply wp_load_file. iFrame "Hf". iIntros "Hf". cbn zeta.
  destruct (bool_decide _ || read_error st).
  - iApply wp_seq. iApply wp_fclose. iFrame "Hf". iApply wp_seq. iApply wp_free. iFrame "Hp". by iApply wp_ret.
  - iApply wp_seq. iApply wp_fclose. iFrame "Hf". iApply wp_seq.
    iApply (wp_write_string _ _ (Z.to_nat (end_pos st) + 1)); [rw length_take; lia|]. iFrame "Hp". iIntros "Hp".
    iApply wp_ret. iDestruct "HΦ" as "[HΦ _]". by iApply "HΦ".
Qed.

(** Parsing the text of a file, with either parser. *)
Lemma wp_parse_contents (parse : bytes → HM (option addr)) (text : option bytes) (fp : res (option JSON_Value)) r Φ :
  fp = Ok r → match text with None => fp = Ok None | Some s => ∀ Ψ, value_or_null oom r Ψ ⊢ wp oom (parse s) Ψ end →
  value_or_null oom r Φ ⊢ text_or_null text (λ a, wp oom (match a with
    | None => mret None
    | Some _ => s ← load_string a; output_value ← parse s; _ ← free a; mret output_value
    end) Φ).
Proof.
  intros Hr Hp. destruct text as [s|]; cbn [text_or_null].
  - iIntros "HΦ". iSplit; [|iIntros (E); iApply wp_ret; by iApply (value_or_null_oom with "HΦ")].
    iIntros (p) "Hp". iApply wp_seq. iApply wp_load_string. iFrame "Hp". iIntros "Hp". iApply wp_seq.
    iApply Hp. iApply (value_or_null_frame (strbuf p s)); [|iFrame].
    iIntros (x) "[Hp HΦ]". iApply wp_seq. iApply wp_free_string. iFrame "Hp". by iApply wp_ret.
  - rw Hr in Hp. apply Ok_inj in Hp as ->. iIntros "HΦ". by iApply wp_ret.
Qed.

Lemma wp_parse_file disk filename r Φ : file_value false disk filename = Ok r →
  value_or_null oom r Φ ⊢ wp oom (json_parse_file disk filename) Φ.
Proof.
  iIntros (Hr) "HΦ". iApply wp_seq. iApply wp_read_file.
  iApply (wp_parse_contents (λ s, json_parse_string (Some s)) _ _ _ _ Hr with "HΦ").
  unfold file_value in *. destruct (file_text disk filename); [|done]. intros Ψ. by apply wp_json_parse_string.
Qed.
Lemma wp_parse_file_with_comments disk filename r Φ : file_value true disk filename = Ok r →
  value_or_null oom r Φ ⊢ wp oom (json_parse_file_with_comments disk filename) Φ.
Proof.
  iIntros (Hr) "HΦ". iApply wp_seq. iApply wp_read_file.
  iApply (wp_parse_contents json_parse_string_with_comments _ _ _ _ Hr with "HΦ").
  unfold file_value in *. destruct (file_text disk filename); [|done]. intros Ψ. by apply wp_parse_with_comments.
Qed.

(** A value whose text fits in an [int]. *)
Definition printable (is_pretty : bool) (v : JSON_Value) : Prop :=
  wf_value v = true ∧ ParsonPrint.numbers_fit v = true ∧ (ParsonPrint.len (ParsonPrint.json_text is_pretty 0 v) < INT_MAX)%Z.

Lemma wp_serialize_to_string b junk v Φ : printable b v →
  text_or_null (Some (ParsonPrint.json_text b 0 v)) Φ ⊢ wp oom (serialize_to_string b junk v) Φ.
Proof.
  intros (Hw & Hf & Hl). pose proof (ParsonPrint.serialize_string_text b junk v Hw Hf Hl) as E.
  unfold ParsonPrint.serialize_to_string in E. pose proof (ParsonPrint.json_serialization_size_text b v Hw Hf Hl) as Es.
  rw Es in E. cbn [mbind res_bind] in E. pose proof (ParsonPrint.len_nonneg (ParsonPrint.json_text b 0 v)) as H0.
  set (text := ParsonPrint.json_text b 0 v) in *. rw bool_decide_false in E; [|lia].
  destruct (ParsonPrint.json_serialize_to_buffer _ _ _ _) as [[buf []]| |] eqn:Eb; try done.
  cbn in E. assert (cstr buf = text) as Ec by congruence.
  iIntros "HΦ". iApply wp_seq. iApply (wp_lift _ _ _ _ Es). rw bool_decide_false; [|lia].
  iApply wp_seq. iApply wp_malloc. iSplit; [|iIntros (Eo); iApply wp_ret; by iApply (text_or_null_oom with "HΦ")].
  iIntros (p) "Hp". iApply wp_seq. iApply (wp_lift _ _ _ _ Eb). cbn [snd fst]. rw Ec. iApply wp_seq.
  iApply (wp_write_string _ _ (Z.to_nat (ParsonPrint.len text + 1))); [unfold ParsonPrint.len; lia|].
  iFrame "Hp". iIntros "Hp". iApply wp_ret. iDestruct "HΦ" as "[HΦ _]". by iApply "HΦ".
Qed.

(** The outcome of writing [text]. *)
Definition written (text : bytes) (out : sink) (r : JSON_Status * option bytes) : Prop :=
  match r with
  | (JSONSuccess, c) => puts out = true ∧ closes out = true ∧ c = Some text
  | (JSONFailure, None) => opens out = true → oom = true
  | (JSONFailure, Some c) => (puts out && closes out = false) ∧ c = take (kept out) text
  end.

Lemma wp_serialize_to_file b junk v out Φ : printable b v →
  (∀ r, <affine> ⌜written (ParsonPrint.json_text b 0 v) out r⌝ -∗ Φ r) ⊢ wp oom (serialize_to_file b junk v out) Φ.
Proof.
  iIntros (Hv) "HΦ". iApply wp_seq. iApply (wp_serialize_to_string _ _ _ _ Hv).
  cbn [text_or_null]. iSplit; last first.
  { iIntros (E). iApply wp_ret. iApply "HΦ". iPureIntro. by cbn. }
  iIntros (p) "Hp". iApply wp_seq. destruct (opens out) eqn:Eo; last first.
  { iApply wp_ret. iApply wp_seq. iApply wp_free_string. iFrame "Hp". iApply wp_ret. iApply "HΦ". iPureIntro. cbn.
    by rw Eo. }
  iApply wp_malloc. iSplit; last first.
  { iIntros (E). iApply wp_seq. iApply wp_free_string. iFrame "Hp". iApply wp_ret. iApply "HΦ". iPureIntro. by cbn. }
  iIntros (f) "Hf". iApply wp_seq. iApply wp_load_string. iFrame "Hp". iIntros "Hp".
  iApply wp_seq. iApply wp_fclose. iFrame "Hf". iApply wp_seq. iApply wp_free_string. iFrame "Hp".
  iApply wp_ret. iApply "HΦ". iPureIntro. destruct (puts out) eqn:Ep, (closes out) eqn:Ecl; cbn; by rw ?Ep ?Ecl.
Qed.
End proofs.

(** ** What reading a file promises *)

(** [json_parse_file] and [json_parse_file_with_comments], whatever the
    file holds, whatever opening, seeking and reading it gives and whatever
    allocations fail: every buffer is freed and every stream closed, and the
    result is NULL or a pointer that owns the value of the functional parser on
    the bytes that were read. With enough memory NULL means that the file could
    not be read, is empty, or does not parse. *)
Theorem parse_file_safe (comments : bool) disk filename h fs :
  ∃ r res h' fs', file_value comments disk filename = Ok r ∧
    (if comments then json_parse_file_with_comments disk filename else json_parse_file disk filename) (MkMem h fs)
      = Ok (res, MkMem (h' ∪ h) fs') ∧ h' ##ₘ h ∧
    match res with
    | None => h' = ∅ ∧ (fs = [] → r = None)
    | Some p => ∃ v, r = Some v ∧ at_heap (owns None p v) h'
    end.
Proof.
  destruct (file_value_defined comments disk filename) as [r Hr]. exists r.
  edestruct (value_or_null_safe (if comments then json_parse_file_with_comments disk filename
    else json_parse_file disk filename) r h fs) as (res & h' & fs' & H).
  - intros oom Φ. destruct comments; [by apply wp_parse_file_with_comments|by apply wp_parse_file].
  - by exists res, h', fs'.
Qed.

Lemma serialize_to_file_run oom b junk v out h fs : printable b v → allowed oom fs →
  ∃ r fs', serialize_to_file b junk v out (MkMem h fs) = Ok (r, MkMem h fs') ∧
    written oom (ParsonPrint.json_text b 0 v) out r.
Proof.
  intros Hv Hfs. assert (emp ⊢ wp oom (serialize_to_file b junk v out)
    (λ r, <affine> ⌜written oom (ParsonPrint.json_text b 0 v) out r⌝)%I) as [Hwp].
  { iIntros "_". iApply wp_serialize_to_file; [done|]. by iIntros (r Hr). }
  destruct (Hwp ∅ eq_refl h fs (map_disjoint_empty_l _) Hfs) as (r & h' & fs' & E & _ & _ & Hh & Hr).
  change (h' = ∅) in Hh. subst h'. rw !(left_id_L ∅ (∪)) in E. by exists r, fs'.
Qed.

(** A file with the given contents that can be read. *)
Definition readable (text : bytes) : stream := MkStream (ParsonPrint.len text) text false.

Lemma file_text_readable disk filename text : disk filename = Some (readable text) → text ≠ [] →
  file_text disk filename = Some text.
Proof.
  intros E Hne. unfold file_text. rw E. cbn [readable end_pos content read_error].
  rw (proj2 (Z.ltb_ge _ _) (ParsonPrint.len_nonneg text)). unfold ParsonPrint.len. rw Nat2Z.id take_ge; [|done].
  rw bool_decide_false; [done|]. by destruct text.
Qed.

(** C23: writing a well-formed value with integer numbers, nested at most
    [MAX_NESTING] levels and with a text of less than [INT_MAX] bytes, to a file,
    plain or pretty, whatever allocations fail and however the writing goes: the
    memory is as it was and the stream closed. When it reports success,
    [json_parse_file] of a file with these contents is the value up to the
    capacity of its containers; a failure is reported whenever [fputs] or
    [fclose] fails; the file always has a beginning of the text. *)
Theorem file_roundtrip b junk v out h fs : wf_value v = true → ParsonRoundtrip.int_numbers v →
  depth v <= MAX_NESTING → (ParsonPrint.len (ParsonPrint.json_text b 0 v) < INT_MAX)%Z →
  ∃ st c fs', serialize_to_file b junk v out (MkMem h fs) = Ok ((st, c), MkMem h fs') ∧
    (st = JSONSuccess ↔ puts out = true ∧ closes out = true ∧ is_Some c) ∧
    (fs = [] → opens out = true → is_Some c) ∧
    (∀ text disk filename, st = JSONSuccess → c = Some text → disk filename = Some (readable text) →
       file_value false disk filename = Ok (Some (ParsonRoundtrip.trim v))) ∧
    (∀ text, c = Some text → text `prefix_of` ParsonPrint.json_text b 0 v).
Proof.
  intros Hw Hi Hd Hl. set (text := ParsonPrint.json_text b 0 v).
  pose proof (ParsonRoundtrip.parse_text_roundtrip b 0 v Hw Hi Hd) as Hr. fold text in Hr.
  assert (text ≠ []) as Hne by (intros E; rw E in Hr; done).
  assert (∃ st c fs', serialize_to_file b junk v out (MkMem h fs) = Ok ((st, c), MkMem h fs') ∧
    written (negb (bool_decide (fs = []))) text out (st, c)) as (st & c & fs' & E & H).
  { destruct (serialize_to_file_run (negb (bool_decide (fs = []))) b junk v out h fs) as ([st c] & fs' & E & H).
    - split; [done|]. by split; [apply ParsonRoundtrip.int_numbers_fit|].
    - unfold allowed. by rw negb_false_iff bool_decide_eq_true.
    - by exists st, c, fs'. }
  exists st, c, fs'. split; [done|]. destruct st; cbn in H.
  - destruct H as (Hp & Hc & ->). split_and!; [done|done| |].
    + intros t disk filename _ [= <-] Ed. unfold file_value. by rw (file_text_readable _ _ text).
    + by intros t [= <-].
  - split_and!.
    + split; [done|]. intros (Hp & Hc & [x ->]). rw Hp Hc in H. by destruct H.
    + intros -> Ho. destruct c; [done|]. by specialize (H Ho).
    + done.
    + intros t ->. destruct H as [_ ->]. apply prefix_take.
Qed.

Lemma file_roundtrip_witness :
  let out := MkSink true true true 0 in
  ∃ st c fs', serialize_to_file true (λ _, xff) ParsonPrint.sample_value out (MkMem ∅ []) = Ok ((st, c), MkMem ∅ fs') ∧
    st = JSONSuccess ∧ c = Some (ParsonPrint.json_text true 0 ParsonPrint.sample_value) ∧
    file_value false (λ _, readable <$> c) (bs "a.json") = Ok (Some (ParsonRoundtrip.trim ParsonPrint.sample_value)).
Proof.
  destruct (file_roundtrip true (λ _, xff) ParsonPrint.sample_value (MkSink true true true 0) ∅ [])
    as (st & c & fs' & E & Hst & Hc & Hv & _).
  - vm_compute. reflexivity.
  - apply List.Forall_cons; [|constructor]. exists 42%Z. split; [reflexivity|reflexivity].
  - apply Nat.leb_le. reflexivity.
  - vm_compute. reflexivity.
  - destruct (Hc eq_refl eq_refl) as [text ->]. assert (st = JSONSuccess) as -> by (apply Hst; by split_and!).
    exists JSONSuccess, (Some text), fs'. split_and!; [done|done| |].
    + vm_compute in E. injection E as <- _. vm_compute. reflexivity.
    + by apply (Hv text).
Defined.
End ParsonFile.
