(* ===== verification/ParsonHeapApi.v ===== *)
(** * parson.c: memory of the update functions (src/common/json/parson.c, lines
    428-449, 1306-1321, 1353-1372, 1410-1484, 1620-1790)

    Insertion, replacement, removal, clearing and deep copy on the blocks of
    [ParsonHeap]: values are freed when they are replaced or removed, and any
    allocation may fail. [ParsonHeapApiProofs] shows that they refine the
    definitions of [Parson]. *)
From S2P Require Import Prelude Utils Cdouble ParsonText Utf8 Parson ParsonParse Sgx.
From S2P Require Import HeapLogic ParsonHeap.
Import Cdouble ParsonText Utf8 Parson Sgx HeapLogic ParsonHeap.

Module ParsonHeapApi.

(** ** Objects *)

Definition json_value_init_string (string : option bytes) : HM (option addr) :=
  match string with
  | None => mret None
  | Some s =>
      let string_len := strlen s in
      if negb (is_valid_utf8 (cstr s)) then mret None
      else
        copy ← parson_strndup s string_len;
        match copy with
        | None => mret None
        | Some _ =>
            value ← json_value_init_string_no_copy copy;
            match value with None => _ ← free copy; mret None | Some _ => mret value end
        end
  end.

Definition json_object_get_value (object : option addr) (name : bytes) : HM (option addr) :=
  match object with
  | None => mret None
  | Some _ => json_object_getn_value object name (strlen name)
  end.

(** The loop of [json_object_set_value]: whether a name was found. *)
Fixpoint set_from (n i : nat) (object : option addr) (name : bytes) (value : option addr) : HM bool :=
  match n with
  | O => mret false
  | S n' =>
      o ← load_object object;
      let '(w, ns, vs, _, _) := o in
      k ← read_cell ns i;
      s ← load_string k;
      if strcmp_eq s name then
        _ ← set_parent value w;
        _ ← write_cell vs i value;
        mret true
      else set_from n' (S i) object name value
  end.

Definition json_object_set_value (object : option addr) (name : bytes) (value : option addr) : HM JSON_Status :=
  if is_null object || is_null value then mret JSONFailure
  else
    v ← load_value value;
    if negb (is_null v.1) then mret JSONFailure
    else
      old_value ← json_object_get_value object name;
      found ← match old_value with
              | None => mret false
              | Some _ =>
                  _ ← json_value_free old_value;
                  count ← json_object_get_count object;
                  set_from count 0 object name value
              end;
      if (found : bool) then mret JSONSuccess else json_object_add object name value.

Definition json_object_set_string (object : option addr) (name : bytes) (string : option bytes) : HM JSON_Status :=
  value ← json_value_init_string string; json_object_set_value object name value.
Definition json_object_set_number (object : option addr) (name : bytes) (number : double) : HM JSON_Status :=
  value ← json_value_init_number number; json_object_set_value object name value.
Definition json_object_set_boolean (object : option addr) (name : bytes) (boolean : Z) : HM JSON_Status :=
  value ← json_value_init_boolean boolean; json_object_set_value object name value.
Definition json_object_set_null (object : option addr) (name : bytes) : HM JSON_Status :=
  value ← json_value_init_null; json_object_set_value object name value.

(** The loop of [json_object_remove_internal]. *)
Fixpoint remove_from (n i last_item_index : nat) (object : option addr) (name : bytes) (free_value : bool) : HM JSON_Status :=
  match n with
  | O => mret JSONFailure
  | S n' =>
      o ← load_object object;
      let '(w, ns, vs, count, capacity) := o in
      k ← read_cell ns i;
      s ← load_string k;
      if strcmp_eq s name then
        _ ← free k;
        _ ← (if free_value then v ← read_cell vs i; json_value_free v else mret tt);
        _ ← (if bool_decide (i = last_item_index) then mret tt
             else
               kl ← read_cell ns last_item_index;
               _ ← write_cell ns i kl;
               vl ← read_cell vs last_item_index;
               write_cell vs i vl);
        _ ← store object (BObject w ns vs (count - 1) capacity);
        mret JSONSuccess
      else remove_from n' (S i) last_item_index object name free_value
  end.
Definition json_object_remove_internal (object : option addr) (name : bytes) (free_value : bool) : HM JSON_Status :=
  if is_null object then mret JSONFailure
  else
    v ← json_object_get_value object name;
    if is_null v then mret JSONFailure
    else
      count ← json_object_get_count object;
      remove_from count 0 (count - 1) object name free_value.
Definition json_object_remove (object : option addr) (name : bytes) : HM JSON_Status :=
  json_object_remove_internal object name true.

Definition json_object_clear (object : option addr) : HM JSON_Status :=
  if is_null object then mret JSONFailure
  else
    count ← json_object_get_count object;
    _ ← for_loop count 0 (λ i,
          o ← load_object object;
          let '(_, ns, vs, _, _) := o in
          k ← read_cell ns i;
          _ ← free k;
          v ← read_cell vs i;
          json_value_free v);
    o ← load_object object;
    let '(w, ns, vs, _, capacity) := o in
    _ ← store object (BObject w ns vs 0 capacity);
    mret JSONSuccess.

(** ** Arrays *)

Definition json_array_get_value (array : option addr) (index : nat) : HM (option addr) :=
  match array with
  | None => mret None
  | Some _ =>
      a ← load_array array;
      let '(_, items, count, _) := a in
      if bool_decide (count <= index) then mret None else read_cell items index
  end.

(** [memmove(items + ix, items + ix + 1, n)]. *)
Definition move_cells (items : option addr) (ix n : nat) : HM unit :=
  b ← load items;
  match b with
  | BPtrs cells =>
      if bool_decide (ix + 1 + n <= length cells)
      then store items (BPtrs (take ix cells ++ take n (drop (S ix) cells) ++ drop (ix + n) cells))
      else lift (UB OutOfBounds)
  | _ => lift (UB Dangling)
  end.

Definition json_array_remove (array : option addr) (ix : nat) : HM JSON_Status :=
  count ← json_array_get_count array;
  if is_null array || bool_decide (count <= ix) then mret JSONFailure
  else
    v ← json_array_get_value array ix;
    _ ← json_value_free v;
    a ← load_array array;
    let '(w, items, count, capacity) := a in
    _ ← move_cells items ix (count - 1 - ix);
    _ ← store array (BArray w items (count - 1) capacity);
    mret JSONSuccess.

Definition json_array_replace_value (array : option addr) (ix : nat) (value : option addr) : HM JSON_Status :=
  if is_null array || is_null value then mret JSONFailure
  else
    v ← load_value value;
    count ← json_array_get_count array;
    if negb (is_null v.1) || bool_decide (count <= ix) then mret JSONFailure
    else
      old ← json_array_get_value array ix;
      _ ← json_value_free old;
      a ← load_array array;
      let '(w, items, _, _) := a in
      _ ← set_parent value w;
      _ ← write_cell items ix value;
      mret JSONSuccess.

Definition json_array_append_value (array value : option addr) : HM JSON_Status :=
  if is_null array || is_null value then mret JSONFailure
  else
    v ← load_value value;
    if negb (is_null v.1) then mret JSONFailure else json_array_add array value.

(** The shape of the functions that build a value and hand it over: the value is
    freed when that fails. *)
Definition hand_over (new : HM (option addr)) (use : option addr → HM JSON_Status) : HM JSON_Status :=
  value ← new;
  match value with
  | None => mret JSONFailure
  | Some _ =>
      st ← use value;
      match st with
      | JSONFailure => _ ← json_value_free value; mret JSONFailure
      | JSONSuccess => mret JSONSuccess
      end
  end.
Definition json_array_append_string (array : option addr) (string : option bytes) : HM JSON_Status :=
  hand_over (json_value_init_string string) (json_array_append_value array).
Definition json_array_append_number (array : option addr) (number : double) : HM JSON_Status :=
  hand_over (json_value_init_number number) (json_array_append_value array).
Definition json_array_append_boolean (array : option addr) (boolean : Z) : HM JSON_Status :=
  hand_over (json_value_init_boolean boolean) (json_array_append_value array).
Definition json_array_append_null (array : option addr) : HM JSON_Status :=
  hand_over json_value_init_null (json_array_append_value array).
Definition json_array_replace_string (array : option addr) (i : nat) (string : option bytes) : HM JSON_Status :=
  hand_over (json_value_init_string string) (json_array_replace_value array i).
Definition json_array_replace_number (array : option addr) (i : nat) (number : double) : HM JSON_Status :=
  hand_over (json_value_init_number number) (json_array_replace_value array i).
Definition json_array_replace_boolean (array : option addr) (i : nat) (boolean : Z) : HM JSON_Status :=
  hand_over (json_value_init_boolean boolean) (json_array_replace_value array i).
Definition json_array_replace_null (array : option addr) (i : nat) : HM JSON_Status :=
  hand_over json_value_init_null (json_array_replace_value array i).

Definition json_array_clear (array : option addr) : HM JSON_Status :=
  if is_null array then mret JSONFailure
  else
    count ← json_array_get_count array;
    _ ← for_loop count 0 (λ i, v ← json_array_get_value array i; json_value_free v);
    a ← load_array array;
    let '(w, items, _, capacity) := a in
    _ ← store array (BArray w items 0 capacity);
    mret JSONSuccess.

(** ** Deep copy *)

Definition json_object_get_name (object : option addr) (index : nat) : HM (option addr) :=
  match object with
  | None => mret None
  | Some _ =>
      o ← load_object object;
      let '(_, ns, _, count, _) := o in
      if bool_decide (count <= index) then mret None else read_cell ns index
  end.

(** [json_value_free(return_value); return NULL;]. *)
Definition drop_copy (return_value : option addr) : HM (option addr) :=
  _ ← json_value_free return_value; mret None.

Fixpoint copy_items_from (copy : option addr → HM (option addr)) (n i : nat)
  (temp_array temp_array_copy return_value : option addr) : HM (option addr) :=
  match n with
  | O => mret return_value
  | S n' =>
      temp_value ← json_array_get_value temp_array i;
      temp_value_copy ← copy temp_value;
      match temp_value_copy with
      | None => drop_copy return_value
      | Some _ =>
          st ← json_array_add temp_array_copy temp_value_copy;
          match st with
          | JSONFailure => _ ← json_value_free return_value; _ ← json_value_free temp_value_copy; mret None
          | JSONSuccess => copy_items_from copy n' (S i) temp_array temp_array_copy return_value
          end
      end
  end.

Fixpoint copy_pairs_from (copy : option addr → HM (option addr)) (n i : nat)
  (temp_object temp_object_copy return_value : option addr) : HM (option addr) :=
  match n with
  | O => mret return_value
  | S n' =>
      temp_key ← json_object_get_name temp_object i;
      key ← load_string temp_key;
      temp_value ← json_object_get_value temp_object key;
      temp_value_copy ← copy temp_value;
      match temp_value_copy with
      | None => drop_copy return_value
      | Some _ =>
          key ← load_string temp_key;
          st ← json_object_add temp_object_copy key temp_value_copy;
          match st with
          | JSONFailure => _ ← json_value_free return_value; _ ← json_value_free temp_value_copy; mret None
          | JSONSuccess => copy_pairs_from copy n' (S i) temp_object temp_object_copy return_value
          end
      end
  end.

Fixpoint value_deep_copy (fuel : nat) (value : option addr) : HM (option addr) :=
  match fuel with
  | O => lift NoFuel
  | S f =>
      match value with
      | None => mret None
      | Some _ =>
          v ← load_value value;
          match v.2 with
          | PArray temp_array =>
              return_value ← json_value_init_array;
              match return_value with
              | None => mret None
              | Some _ =>
                  temp_array_copy ← json_value_get_array return_value;
                  count ← json_array_get_count temp_array;
                  copy_items_from (value_deep_copy f) count 0 temp_array temp_array_copy return_value
              end
          | PObject temp_object =>
              return_value ← json_value_init_object;
              match return_value with
              | None => mret None
              | Some _ =>
                  temp_object_copy ← json_value_get_object return_value;
                  count ← json_object_get_count temp_object;
                  copy_pairs_from (value_deep_copy f) count 0 temp_object temp_object_copy return_value
              end
          | PBoolean b => json_value_init_boolean (if b then 1 else 0)
          | PNumber d => json_value_init_number d
          | PString temp_string =>
              if is_null temp_string then mret None
              else
                s ← load_string temp_string;
                temp_string_copy ← parson_strndup s (strlen s);
                match temp_string_copy with
                | None => mret None
                | Some _ =>
                    return_value ← json_value_init_string_no_copy temp_string_copy;
                    match return_value with None => _ ← free temp_string_copy; mret None | Some _ => mret return_value end
                end
          | PNull => json_value_init_null
          end
      end
  end.
Definition json_value_deep_copy (value : option addr) : HM (option addr) := λ m,
  value_deep_copy (S (size (heap m))) value m.

(** ** Programs over an array

    A client that makes an array, updates it through the API and frees it; the
    statuses of its calls. *)
Inductive array_call :=
  | AppendString (string : option bytes) | AppendNumber (d : double) | AppendBoolean (b : Z) | AppendNull
  | ReplaceString (i : nat) (string : option bytes) | ReplaceNumber (i : nat) (d : double)
  | ReplaceBoolean (i : nat) (b : Z) | ReplaceNull (i : nat)
  | RemoveAt (i : nat) | Clear.

Definition do_call (array : option addr) (c : array_call) : HM JSON_Status :=
  match c with
  | AppendString string => json_array_append_string array string
  | AppendNumber d => json_array_append_number array d
  | AppendBoolean b => json_array_append_boolean array b
  | AppendNull => json_array_append_null array
  | ReplaceString i string => json_array_replace_string array i string
  | ReplaceNumber i d => json_array_replace_number array i d
  | ReplaceBoolean i b => json_array_replace_boolean array i b
  | ReplaceNull i => json_array_replace_null array i
  | RemoveAt i => json_array_remove array i
  | Clear => json_array_clear array
  end.

Fixpoint do_calls (array : option addr) (cs : list array_call) : HM (list JSON_Status) :=
  match cs with
  | [] => mret []
  | c :: cs' => st ← do_call array c; sts ← do_calls array cs'; mret (st :: sts)
  end.

(** No statuses when the array cannot be made. *)
Definition array_client (cs : list array_call) : HM (list JSON_Status) :=
  root ← json_value_init_array;
  match root with
  | None => mret []
  | Some _ =>
      array ← json_value_get_array root;
      sts ← do_calls array cs;
      _ ← json_value_free root;
      mret sts
  end.

(** The same calls on the functional arrays. *)
Definition pure_call (a : JSON_Array) (c : array_call) : JSON_Status * option JSON_Array :=
  match c with
  | AppendString string => Parson.json_array_append_string (Some a) string
  | AppendNumber d => Parson.json_array_append_number (Some a) d
  | AppendBoolean b => Parson.json_array_append_boolean (Some a) b
  | AppendNull => Parson.json_array_append_null (Some a)
  | ReplaceString i string => Parson.json_array_replace_string (Some a) i string
  | ReplaceNumber i d => Parson.json_array_replace_number (Some a) i d
  | ReplaceBoolean i b => Parson.json_array_replace_boolean (Some a) i b
  | ReplaceNull i => Parson.json_array_replace_null (Some a) i
  | RemoveAt i => Parson.json_array_remove (Some a) i
  | Clear => Parson.json_array_clear (Some a)
  end.
Fixpoint pure_calls (a : JSON_Array) (cs : list array_call) : list JSON_Status :=
  match cs with
  | [] => []
  | c :: cs' => let r := pure_call a c in r.1 :: pure_calls (default a r.2) cs'
  end.
End ParsonHeapApi.
