(* ===== verification/ParsonHeapApiProofs.v ===== *)
(** * Memory safety of parson's update functions

    Each function of [ParsonHeapApi] on blocks that are a tree refines its
    definition in [Parson]: what is replaced or removed is freed, the result is
    a tree again, and a failed allocation leaves the object or array with its
    members. Two functions of the API do not keep memory: a value can be put
    into its own descendant, and a value made for [json_object_set_string] is
    lost when it cannot be inserted. *)
From iris.bi Require Import bi.
From iris.proofmode Require Import proofmode.
From S2P Require Import Prelude Utils Cdouble ParsonText Utf8 Parson ParsonParse ParsonRoundtrip ParsonApi Sgx.
From S2P Require Import HeapLogic ParsonHeap ParsonHeapProofs ParsonHeapApi.
Import Cdouble ParsonText Utf8 Parson Sgx HeapLogic ParsonHeap ParsonHeapProofs ParsonHeapApi.

Module ParsonHeapApiProofs.

(** ** Searching by name *)

Lemma strncmp_eq_cstr_l a b n : strncmp_eq (cstr a) b n = strncmp_eq a b n.
Proof.
  revert a b. induction n as [|n IH]; intros a b; [done|]. cbn [strncmp_eq].
  destruct a as [|c a]; [done|]. cbn [cstr]. destruct (decide (c = x00)) as [->|Hc].
  - simpl. by destruct (bool_decide (_ = peek b)).
  - rw (bool_decide_false _ Hc). simpl. by rw IH (bool_decide_false _ Hc).
Qed.

(** [strcmp] and the test of [json_object_getn_value] agree. *)
Lemma strcmp_getn k name :
  strcmp_eq k name = negb (bool_decide (strlen k ≠ strlen name)) && strncmp_eq k name (strlen name).
Proof.
  unfold strcmp_eq. destruct (decide (strlen k = strlen name)) as [El|En].
  - rw (bool_decide_false (strlen k ≠ strlen name)); [|naive_solver]. cbn [negb andb].
    rw -strncmp_eq_cstr_l -strncmp_eq_cstr_r -El. symmetry. by apply strncmp_eq_full; [apply cstr_nul_free..|].
  - rw (bool_decide_true (strlen k ≠ strlen name)); [|done]. cbn. apply bool_decide_eq_false. intros E. apply En.
    unfold strlen. by rw E.
Qed.

(** The search by [json_object_getn_value] is the search by [strcmp]. *)
Lemma getn_loop_find {V} (ps : list (bytes * V)) name :
  getn_loop ps name (strlen name) = i ← find_name ps name; snd <$> ps !! i.
Proof.
  induction ps as [|[k v] ps IH]; [done|]. unfold getn_loop; fold (@getn_loop V). cbn [find_name].
  rw strcmp_getn. destruct (bool_decide (strlen k ≠ strlen name)), (strncmp_eq k name (strlen name)); try done.
  all: cbn [negb andb]; rw IH; by destruct (find_name ps name).
Qed.

Lemma find_name_fst {V W} (ps : list (bytes * V)) (qs : list (bytes * W)) name :
  map fst ps = map fst qs → find_name ps name = find_name qs name.
Proof.
  revert qs. induction ps as [|[k v] ps IH]; intros [|[k' w] qs] E; try done. cbn in E. cbn [find_name].
  injection E as -> E. by rw (IH qs E).
Qed.

Lemma zip_fst {A B} (l : list A) (k : list B) : length l = length k → map fst (zip l k) = l.
Proof. revert k. induction l; intros [|? ?] H; try done. cbn. f_equal. naive_solver. Qed.

Lemma find_name_lt {V} (ps : list (bytes * V)) name i : find_name ps name = Some i → i < length ps.
Proof.
  revert i. induction ps as [|[k v] ps IH]; intros i; cbn [find_name]; [done|].
  destruct (strcmp_eq k name); [intros [= <-]; cbn; lia|]. intros (j & Hj & ->)%fmap_Some. cbn. specialize (IH j Hj). lia.
Qed.

(** What [set_loop] stores, and where. *)
Lemma set_loop_find {V} (ps : list (bytes * V)) name v :
  set_loop ps name v = (λ i, alter (λ x, (x.1, v)) i ps) <$> find_name ps name.
Proof.
  induction ps as [|[k w] ps IH]; [done|]. cbn [set_loop find_name]. destruct (strcmp_eq k name); [done|].
  rw IH. by destruct (find_name ps name).
Qed.

(** The pointer and the value at the name that was found. *)
Lemma getn_zip {V} (ps : list (bytes * V)) (vs : list addr) name : length vs = length ps →
  getn_loop (zip (map fst ps) vs) name (strlen name) = i ← find_name ps name; vs !! i.
Proof.
  intros Hl. rw getn_loop_find. rw (find_name_fst (zip (map fst ps) vs) ps); [|rw zip_fst; [done|by rw length_map]].
  destruct (find_name ps name) as [i|] eqn:Ei; [|done]. cbn.
  assert (map snd (zip (map fst ps) vs) !! i = vs !! i) as E; [|change (map snd ?l) with (snd <$> l) in E; by rw list_lookup_fmap in E].
  f_equal. change (map snd ?l) with (snd <$> l). apply snd_zip. rw length_map. lia.
Qed.

(** ** Members and items as separating conjunctions *)

Abbreviation strings ks l := ([∗ list] k;s ∈ ks;l, strbuf k s)%I.
Abbreviation values p vs l := ([∗ list] vp;v ∈ vs;l, owns (Some p) vp v)%I.

Lemma pairs_at_split p ps : ∀ ks vs, own_pairs p ps ks vs ⊣⊢ strings ks (map fst ps) ∗ values p vs (map snd ps).
Proof.
  induction ps as [|[k v] ps IH]; intros [|kp ks] [|vp vs]; cbn [pairs_at map big_sepL2 fst snd].
  1: by rw bi.emp_sep.
  1-6: by iSplit; [iIntros "H"|iIntros "[H1 H2]"].
  rw IH. iSplit; [iIntros "($ & $ & $ & $)"|iIntros "[[$ $] [$ $]]"].
Qed.
Lemma items_at_values p items : ∀ vs, own_items p items vs ⊣⊢ values p vs items.
Proof. induction items as [|v items IH]; intros [|vp vs]; cbn [items_at big_sepL2]; [done..|by rw IH]. Qed.

(** The object [q] with its arrays of pointers. *)
Definition object_at p q names values ks vs (n cap : nat) : hprop :=
  q ↦ BObject (Some p) names values n cap ∗ ptr_array names ks cap ∗ ptr_array values vs cap.
Definition array_at p q items vs (n cap : nat) : hprop := q ↦ BArray (Some p) items n cap ∗ ptr_array items vs cap.

Lemma owns_object_open p q o : owns_object p q o ⊣⊢ ∃ ns nvs ks vs,
  object_at p q ns nvs ks vs (length (obj_pairs o)) (obj_capacity o) ∗
  strings ks (map fst (obj_pairs o)) ∗ values p vs (map snd (obj_pairs o)).
Proof.
  unfold owns_object, object_at. iSplit; iIntros "(%ns & %nvs & %ks & %vs & H)"; iExists ns, nvs, ks, vs.
  - rw pairs_at_split. iDestruct "H" as "($ & $ & $ & $)".
  - rw pairs_at_split. iDestruct "H" as "(($ & $ & $) & $)".
Qed.
Lemma owns_array_open p q a : owns_array p q a ⊣⊢ ∃ items vs,
  array_at p q items vs (length (arr_items a)) (arr_capacity a) ∗ values p vs (arr_items a).
Proof.
  unfold owns_array, array_at. iSplit; iIntros "(%ptrs & %vs & H)"; iExists ptrs, vs; rw items_at_values.
  - iDestruct "H" as "($ & $ & $)".
  - iDestruct "H" as "(($ & $) & $)".
Qed.

Lemma array_open p q a : owns_array p q a ⊢ ∃ items vs,
  array_at p q items vs (length (arr_items a)) (arr_capacity a) ∗ values p vs (arr_items a).
Proof. by rw owns_array_open. Qed.
Lemma array_close p q a items vs :
  array_at p q items vs (length (arr_items a)) (arr_capacity a) ∗ values p vs (arr_items a) ⊢ owns_array p q a.
Proof. rw owns_array_open. iIntros "H". iExists items, vs. iExact "H". Qed.

Lemma object_open p q o : owns_object p q o ⊢ ∃ ns nvs ks vs,
  object_at p q ns nvs ks vs (length (obj_pairs o)) (obj_capacity o) ∗
  strings ks (map fst (obj_pairs o)) ∗ values p vs (map snd (obj_pairs o)).
Proof. by rw owns_object_open. Qed.
Lemma object_close p q o ns nvs ks vs :
  object_at p q ns nvs ks vs (length (obj_pairs o)) (obj_capacity o) ∗
  strings ks (map fst (obj_pairs o)) ∗ values p vs (map snd (obj_pairs o)) ⊢ owns_object p q o.
Proof. rw owns_object_open. iIntros "H". iExists ns, nvs, ks, vs. iExact "H". Qed.

Lemma array_value par p q a : p ↦ BValue par (PArray (Some q)) ∗ owns_array p q a ⊢ owns par p (JSONArray a).
Proof. rw owns_array_eq. iIntros "H". iExists q. iExact "H". Qed.
Lemma object_value par p q o : p ↦ BValue par (PObject (Some q)) ∗ owns_object p q o ⊢ owns par p (JSONObject o).
Proof. rw owns_object_eq. iIntros "H". iExists q. iExact "H". Qed.
Lemma value_array par p a : owns par p (JSONArray a) ⊢ ∃ q, p ↦ BValue par (PArray (Some q)) ∗ owns_array p q a.
Proof. by rw owns_array_eq. Qed.
Lemma value_object par p o : owns par p (JSONObject o) ⊢ ∃ q, p ↦ BValue par (PObject (Some q)) ∗ owns_object p q o.
Proof. by rw owns_object_eq. Qed.

(** ** Lists of pointers *)

Lemma ptr_array_take o l cap n : ptr_array o l cap ⊢ ptr_array o (take n l) cap.
Proof.
  destruct o as [a|]; cbn [ptr_array].
  - iIntros "(%junk & H & %H1 & %H2)". iExists (map (λ x, Some (Some x)) (drop n l) ++ junk).
    unfold cells in *. rw app_assoc -map_app take_drop. by iFrame.
  - iIntros "%H". destruct H as [-> ->]. iPureIntro. by rw take_nil.
Qed.

Section proofs.
Context (oom : bool).

Lemma wp_set_cell o l cap i x (Φ : _ → hprop) : i < length l →
  ptr_array o l cap ∗ (ptr_array o (<[i := x]> l) cap -∗ Φ tt) ⊢ wp oom (write_cell o i (Some x)) Φ.
Proof.
  iIntros (Hi) "[Ha HΦ]". destruct o as [a|]; cbn [ptr_array]; last first.
  { iDestruct "Ha" as "%H". destruct H as [_ ->]. cbn in Hi. lia. }
  iDestruct "Ha" as "(%junk & Ha & %Hcap & %Hc)".
  iApply wp_seq. iApply wp_load. iFrame "Ha". iIntros "Ha".
  assert (i < length (cells l junk)) as Hi' by (unfold cells; rw length_app length_map; lia).
  rw bool_decide_true; [|done]. iApply wp_store. iFrame "Ha". iIntros "Ha". iApply "HΦ". iExists junk.
  assert (<[i := Some (Some x)]> (cells l junk) = cells (<[i := x]> l) junk) as ->.
  { unfold cells. rw insert_app_l; [|by rw length_map]. f_equal.
    change (map ?f ?l) with (f <$> l). by rw list_fmap_insert. }
  iFrame "Ha". iPureIntro. split; [done|]. rw -Hc. unfold cells. by rw !length_app !length_map length_insert.
Qed.

(** The pointer found is the one the functional search finds among the
    pointers. *)
Lemma wp_getn_from_at p q ns nvs ks vs l n cap name len l2 : ∀ i vs2 (Φ : _ → hprop),
  drop i l = l2 → drop i vs = vs2 → length vs2 = length l2 →
  object_at p q ns nvs ks vs n cap ∗ strings ks l ∗
    (object_at p q ns nvs ks vs n cap -∗ strings ks l -∗ Φ (getn_loop (zip l2 vs2) name len))
  ⊢ wp oom (getn_from (length l2) i (Some q) name len) Φ.
Proof.
  induction l2 as [|k l2 IH]; intros i vs2 Φ Hl Hv Hn.
  { iIntros "(Ho & Hs & HΦ)". iApply wp_ret. iApply ("HΦ" with "Ho Hs"). }
  destruct vs2 as [|vp vs2]; [done|].
  assert (l !! i = Some k) as Ek by (by rw -(Nat.add_0_r i) -lookup_drop Hl).
  assert (vs !! i = Some vp) as Ev by (by rw -(Nat.add_0_r i) -lookup_drop Hv).
  assert (drop (S i) l = l2) as Hl' by (by rw -Nat.add_1_r -drop_drop Hl).
  assert (drop (S i) vs = vs2) as Hv' by (by rw -Nat.add_1_r -drop_drop Hv).
  iIntros "((Hq & Hn & Hv) & Hs & HΦ)". cbn [length getn_from]. iApply wp_seq. iApply wp_load_object. iFrame "Hq". iIntros "Hq".
  iDestruct (big_sepL2_length with "Hs") as %Hks.
  destruct (lookup_lt_is_Some_2 ks i) as [kp Ekp]; [rw Hks; by eapply lookup_lt_Some|].
  iDestruct (big_sepL2_lookup_acc _ _ _ _ _ _ Ekp Ek with "Hs") as "[Hk Hs]".
  iApply wp_seq. iApply (wp_read_cell _ _ _ _ _ _ _ Ekp). iFrame "Hn". iIntros "Hn".
  iApply wp_seq. iApply wp_load_string. iFrame "Hk". iIntros "Hk". iDestruct ("Hs" with "Hk") as "Hs".
  cbn [zip zip_with]. unfold getn_loop at 1; fold (@getn_loop addr).
  destruct (bool_decide (strlen k ≠ len)); [|destruct (strncmp_eq k name len)].
  1, 3: iApply (IH (S i) vs2); [done..|by injection Hn|]; iFrame.
  iApply (wp_read_cell _ _ _ _ _ _ _ Ev). iFrame "Hv". iIntros "Hv". iApply ("HΦ" with "[Hq Hn Hv] Hs"). iFrame.
Qed.

Lemma wp_object_at_count p q ns nvs ks vs n cap (Φ : _ → hprop) :
  object_at p q ns nvs ks vs n cap ∗ (object_at p q ns nvs ks vs n cap -∗ Φ n) ⊢ wp oom (json_object_get_count (Some q)) Φ.
Proof.
  iIntros "[(Hq & Hn & Hv) HΦ]". iApply wp_seq. iApply wp_load_object. iFrame "Hq". iIntros "Hq".
  iApply wp_ret. iApply "HΦ". iFrame.
Qed.

Lemma wp_get_value_at p q ns nvs ks vs (ps : list (bytes * JSON_Value)) cap name (Φ : _ → hprop) : length vs = length ps →
  object_at p q ns nvs ks vs (length ps) cap ∗ strings ks (map fst ps) ∗
    (object_at p q ns nvs ks vs (length ps) cap -∗ strings ks (map fst ps) -∗ Φ (i ← find_name ps name; vs !! i))
  ⊢ wp oom (json_object_get_value (Some q) name) Φ.
Proof.
  iIntros (Hl) "(Ho & Hs & HΦ)". iApply wp_seq. iApply wp_object_at_count. iFrame "Ho". iIntros "Ho".
  rw -(getn_zip ps vs name Hl). iEval (rw -(length_map fst ps)).
  iApply (wp_getn_from_at _ _ _ _ ks vs (map fst ps) (length ps) cap _ _ (map fst ps) 0 vs);
    [done..|by rw length_map|]. iFrame.
Qed.

(** A name of an object, for reading. *)
Lemma wp_read_name p q ns nvs ks vs n cap l i k (Ψ : bytes → HM bool) (Φ : _ → hprop) : l !! i = Some k →
  object_at p q ns nvs ks vs n cap ∗ strings ks l ∗
    (object_at p q ns nvs ks vs n cap -∗ strings ks l -∗ wp oom (Ψ k) Φ)
  ⊢ wp oom (x ← read_cell ns i; s ← load_string x; Ψ s) Φ.
Proof.
  iIntros (Ek) "((Hq & Hn & Hv) & Hs & HΦ)". iDestruct (big_sepL2_length with "Hs") as %Hks.
  destruct (lookup_lt_is_Some_2 ks i) as [kp Ekp]; [rw Hks; by eapply lookup_lt_Some|].
  iDestruct (big_sepL2_lookup_acc _ _ _ _ _ _ Ekp Ek with "Hs") as "[Hk Hs]".
  iApply wp_seq. iApply (wp_read_cell _ _ _ _ _ _ _ Ekp). iFrame "Hn". iIntros "Hn".
  iApply wp_seq. iApply wp_load_string. iFrame "Hk". iIntros "Hk".
  iApply ("HΦ" with "[Hq Hn Hv]"); [iFrame|]. by iApply "Hs".
Qed.

Lemma wp_set_from p q ns nvs ks vs n cap (ps : list (bytes * JSON_Value)) name par vp v ps2 : ∀ i j (Φ : _ → hprop),
  drop i ps = ps2 → find_name ps2 name = Some j → length vs = length ps →
  object_at p q ns nvs ks vs n cap ∗ strings ks (map fst ps) ∗ owns par vp v ∗
    (object_at p q ns nvs ks (<[i + j := vp]> vs) n cap -∗ strings ks (map fst ps) -∗ owns (Some p) vp v -∗ Φ true)
  ⊢ wp oom (set_from (length ps2) i (Some q) name (Some vp)) Φ.
Proof.
  induction ps2 as [|[k w] ps2 IH]; intros i j Φ Hd Hf Hl; [done|]. cbn [find_name] in Hf.
  assert (ps !! i = Some (k, w)) as Hi by (by rw -(Nat.add_0_r i) -lookup_drop Hd).
  assert (drop (S i) ps = ps2) as Hd' by (by rw -Nat.add_1_r -drop_drop Hd).
  assert (map fst ps !! i = Some k) as Ek by (change (map fst ps) with (fst <$> ps); by rw list_lookup_fmap Hi).
  iIntros "(Ho & Hs & Hx & HΦ)". cbn [length set_from]. iDestruct "Ho" as "(Hq & Hn & Hv)".
  iApply wp_seq. iApply wp_load_object. iFrame "Hq". iIntros "Hq".
  iApply (wp_read_name p q ns nvs ks vs n cap (map fst ps) i k); [done|]. iFrame "Hq Hn Hv Hs". iIntros "(Hq & Hn & Hv) Hs".
  destruct (strcmp_eq k name).
  - injection Hf as <-. rw Nat.add_0_r. iApply wp_seq. iApply wp_set_parent. iFrame "Hx". iIntros "Hx".
    iApply wp_seq. iApply (wp_set_cell _ vs); [rw Hl; by eapply lookup_lt_Some|]. iFrame "Hv". iIntros "Hv".
    iApply wp_ret. iApply ("HΦ" with "[Hq Hn Hv] Hs Hx"). iFrame.
  - apply fmap_Some in Hf as (j' & Hf & ->). iApply (IH (S i) j'); [done..|]. iFrame "Hq Hn Hv Hs Hx".
    by rw Nat.add_succ_comm.
Qed.

(** Taking a value out of the values of an object, and putting one back. *)
Lemma values_insert p vs l i vp v : vs !! i = Some vp → l !! i = Some v →
  values p vs l ⊢ owns (Some p) vp v ∗ ∀ vp' v', owns (Some p) vp' v' -∗ values p (<[i := vp']> vs) (<[i := v']> l).
Proof. intros H1 H2. apply (big_sepL2_insert_acc (λ _ vp v, owns (Some p) vp v) _ _ _ _ _ H1 H2). Qed.

Lemma alter_value {V} (ps : list (bytes * V)) i v :
  map fst (alter (λ x, (x.1, v)) i ps) = map fst ps ∧ map snd (alter (λ x, (x.1, v)) i ps) = <[i := v]> (map snd ps).
Proof.
  revert i. induction ps as [|[k w] ps IH]; intros [|i]; [done..|]. destruct (IH i) as [H1 H2].
  change (alter _ (S i) ((k, w) :: ps)) with ((k, w) :: alter (λ x : bytes * V, (x.1, v)) i ps). cbn. by rw H1 H2.
Qed.

Lemma wp_object_set_value p q o name par vp v (Φ : _ → hprop) :
  owns_object p q o ∗ owns par vp v ∗
    object_added oom p q o par vp v (Parson.json_object_set_value (Some o) name (Some v) (negb (is_null par))) Φ
  ⊢ wp oom (json_object_set_value (Some q) name (Some vp)) Φ.
Proof.
  iIntros "(Ho & Hx & HΦ)". unfold json_object_set_value, Parson.json_object_set_value. cbn [is_null orb].
  iDestruct (owns_block with "Hx") as (pl) "[Hb Hx]". iApply wp_seq. iApply wp_load_value. iFrame "Hb". iIntros "Hb".
  iDestruct ("Hx" with "Hb") as "Hx". cbn [fst]. destruct (negb (is_null par)).
  { iApply wp_ret. iApply "HΦ". iFrame. }
  rw owns_object_open. iDestruct "Ho" as "(%ns & %nvs & %ks & %vs & Ho & Hs & Hv)".
  iDestruct (big_sepL2_length with "Hv") as %Hl. rw length_map in Hl.
  iApply wp_seq. iApply (wp_get_value_at _ _ _ _ ks vs); [done|]. iFrame "Ho Hs". iIntros "Ho Hs".
  unfold Parson.json_object_get_value, Parson.json_object_getn_value. rw getn_loop_find set_loop_find.
  destruct (find_name (obj_pairs o) name) as [i|] eqn:Ei; cbn [mbind option_bind fmap option_fmap option_map]; last first.
  { iApply wp_seq. iApply wp_ret. iApply wp_object_addn. iFrame "Hx HΦ". rw owns_object_open.
    iExists ns, nvs, ks, vs. iFrame. }
  pose proof (find_name_lt _ _ _ Ei) as Hi.
  destruct (lookup_lt_is_Some_2 (obj_pairs o) i Hi) as [[k w] Ew]. destruct (lookup_lt_is_Some_2 vs i) as [wp' Ewp]; [by rw Hl|].
  rw Ew Ewp. cbn [fmap option_fmap option_map object_added snd].
  iDestruct (values_insert _ _ _ i wp' w with "Hv") as "[Hw Hv]"; [done|change (map snd ?l) with (snd <$> l); by rw list_lookup_fmap Ew|].
  iApply wp_seq. iApply wp_seq. iApply wp_value_free. iFrame "Hw". iApply wp_seq. iApply wp_object_at_count. iFrame "Ho". iIntros "Ho".
  iApply (wp_set_from _ _ _ _ ks vs _ _ (obj_pairs o) name par vp v (obj_pairs o) 0 i); [done..|]. iFrame "Ho Hs Hx".
  iIntros "Ho Hs Hx". iApply wp_ret. iDestruct "HΦ" as "[HΦ _]". iApply "HΦ". rw owns_object_open.
  iExists ns, nvs, ks, (<[i := vp]> vs). cbn [obj_pairs obj_capacity].
  destruct (alter_value (obj_pairs o) i v) as [-> ->]. rw length_alter. iFrame "Ho Hs". by iApply "Hv".
Qed.

(** ** Removal *)

Lemma remove_at_snoc {A} (l : list A) z i : i <= length l → remove_at (l ++ [z]) i = <[i := z]> l.
Proof.
  intros Hi. unfold remove_at. rw length_app Nat.add_sub.
  rw lookup_app_r; [|done]. rw Nat.sub_diag. cbn [lookup list_lookup]. case_bool_decide as E.
  - subst. rw take_app_length list_insert_ge; done.
  - rw insert_app_l; [|lia]. rw take_app_le; [|rw length_insert; lia]. apply take_ge. rw length_insert. lia.
Qed.

Lemma map_remove_at {A B} (f : A → B) l i : i < length l → map f (remove_at l i) = remove_at (map f l) i.
Proof.
  destruct l as [|z l _] using rev_ind; [cbn; lia|]. rw length_app. cbn. intros Hi.
  rw remove_at_snoc; [|lia]. rw map_app. change (map f [z]) with [f z]. rw remove_at_snoc; [|rw length_map; lia].
  change (map ?f ?l) with (f <$> l). apply list_fmap_insert.
Qed.

Lemma big_remove {A B} (Φ : A → B → hprop) l1 l2 i x y : l1 !! i = Some x → l2 !! i = Some y →
  ([∗ list] a;b ∈ l1;l2, Φ a b) ⊢ Φ x y ∗ [∗ list] a;b ∈ remove_at l1 i;remove_at l2 i, Φ a b.
Proof.
  iIntros (Hx Hy) "H". iDestruct (big_sepL2_length with "H") as %Hl.
  destruct l1 as [|x' l1 _] using rev_ind; [done|]. destruct l2 as [|y' l2 _] using rev_ind; [rw length_app in Hl; cbn in Hl; lia|].
  rw !length_app !Nat.add_1_r in Hl. injection Hl as Hl.
  assert (i <= length l1) as Hi by (apply lookup_lt_Some in Hx; rw length_app in Hx; cbn in Hx; lia).
  rw big_sepL2_snoc. iDestruct "H" as "[H Hz]". rw !remove_at_snoc; [|lia|lia].
  destruct (decide (i = length l1)) as [->|Hne].
  - rw lookup_app_r in Hx; [|done]. rw Hl in Hy. rw lookup_app_r in Hy; [|done]. rw Nat.sub_diag in Hx. rw Nat.sub_diag in Hy.
    cbn in Hx, Hy. simplify_eq. rw !list_insert_ge; [|lia|lia]. iFrame.
  - rw lookup_app_l in Hx; [|lia]. rw lookup_app_l in Hy; [|lia].
    iDestruct (big_sepL2_insert_acc _ _ _ _ _ _ Hx Hy with "H") as "[$ H]". by iApply "H".
Qed.

(** The array of pointers after an entry was overwritten by the last one. *)
Lemma remove_at_last {A} (l : list A) i z : l !! (length l - 1) = Some z →
  remove_at l i = take (length l - 1) (if bool_decide (i = length l - 1) then l else <[i := z]> l).
Proof. intros E. unfold remove_at. by rw E. Qed.

Lemma wp_move_last p q ns nvs ks vs n cap i (Φ : _ → hprop) : length ks = n → length vs = n → i < n →
  object_at p q ns nvs ks vs n cap ∗
    (object_at p q ns nvs (remove_at ks i) (remove_at vs i) (n - 1) cap -∗ Φ JSONSuccess)
  ⊢ wp oom (_ ← (if bool_decide (i = n - 1) then mret tt
                 else
                   kl ← read_cell ns (n - 1);
                   _ ← write_cell ns i kl;
                   vl ← read_cell nvs (n - 1);
                   write_cell nvs i vl);
            _ ← store (Some q) (BObject (Some p) ns nvs (n - 1) cap);
            mret JSONSuccess) Φ.
Proof.
  iIntros (Hk Hv Hi) "((Hq & Hn & Hv) & HΦ)".
  destruct (lookup_lt_is_Some_2 ks (n - 1)) as [kl Ek]; [lia|]. destruct (lookup_lt_is_Some_2 vs (n - 1)) as [vl Ev]; [lia|].
  rw (remove_at_last ks i kl); [|by rw Hk]. rw (remove_at_last vs i vl); [|by rw Hv]. rw Hk Hv. iApply wp_seq.
  case_bool_decide as E.
  - iApply wp_ret. iApply wp_seq. iApply wp_store. iFrame "Hq". iIntros "Hq". iApply wp_ret. iApply "HΦ". iFrame "Hq".
    iSplitL "Hn"; by iApply ptr_array_take.
  - iApply wp_seq. iApply (wp_read_cell _ _ _ _ _ _ _ Ek). iFrame "Hn". iIntros "Hn".
    iApply wp_seq. iApply (wp_set_cell _ ks); [lia|]. iFrame "Hn". iIntros "Hn".
    iApply wp_seq. iApply (wp_read_cell _ _ _ _ _ _ _ Ev). iFrame "Hv". iIntros "Hv".
    iApply (wp_set_cell _ vs); [lia|]. iFrame "Hv". iIntros "Hv".
    iApply wp_seq. iApply wp_store. iFrame "Hq". iIntros "Hq". iApply wp_ret. iApply "HΦ". iFrame "Hq".
    iSplitL "Hn"; by iApply ptr_array_take.
Qed.

Lemma wp_remove_from p q ns nvs ks vs cap (ps : list (bytes * JSON_Value)) name ps2 : ∀ i j (Φ : _ → hprop),
  drop i ps = ps2 → find_name ps2 name = Some j →
  object_at p q ns nvs ks vs (length ps) cap ∗ strings ks (map fst ps) ∗ values p vs (map snd ps) ∗
    (object_at p q ns nvs (remove_at ks (i + j)) (remove_at vs (i + j)) (length ps - 1) cap -∗
     strings (remove_at ks (i + j)) (remove_at (map fst ps) (i + j)) -∗
     values p (remove_at vs (i + j)) (remove_at (map snd ps) (i + j)) -∗ Φ JSONSuccess)
  ⊢ wp oom (remove_from (length ps2) i (length ps - 1) (Some q) name true) Φ.
Proof.
  induction ps2 as [|[k w] ps2 IH]; intros i j Φ Hd Hf; [done|]. cbn [find_name] in Hf.
  assert (ps !! i = Some (k, w)) as Hi by (by rw -(Nat.add_0_r i) -lookup_drop Hd).
  assert (drop (S i) ps = ps2) as Hd' by (by rw -Nat.add_1_r -drop_drop Hd).
  assert (map fst ps !! i = Some k) as Ek by (change (map fst ps) with (fst <$> ps); by rw list_lookup_fmap Hi).
  assert (map snd ps !! i = Some w) as Ew by (change (map snd ps) with (snd <$> ps); by rw list_lookup_fmap Hi).
  iIntros "(Ho & Hs & Hv & HΦ)". cbn [length remove_from].
  iDestruct (big_sepL2_length with "Hs") as %Hks. iDestruct (big_sepL2_length with "Hv") as %Hvs. rw length_map in Hks. rw length_map in Hvs.
  assert (i < length ps) as Hlt by (by eapply lookup_lt_Some).
  destruct (lookup_lt_is_Some_2 ks i) as [kp Ekp]; [lia|]. destruct (lookup_lt_is_Some_2 vs i) as [wp' Ewp]; [lia|].
  iDestruct "Ho" as "(Hq & Hn & Hvp)". iApply wp_seq. iApply wp_load_object. iFrame "Hq". iIntros "Hq".
  iApply wp_seq. iApply (wp_read_cell _ _ _ _ _ _ _ Ekp). iFrame "Hn". iIntros "Hn". iApply wp_seq.
  iDestruct (big_sepL2_lookup_acc _ _ _ _ _ _ Ekp Ek with "Hs") as "[Hk Hs]".
  iApply wp_load_string. iFrame "Hk". iIntros "Hk". iDestruct ("Hs" with "Hk") as "Hs". destruct (strcmp_eq k name).
  - injection Hf as <-. rw Nat.add_0_r. iDestruct (big_remove _ _ _ _ _ _ Ekp Ek with "Hs") as "[Hk Hs]".
    iDestruct (big_remove _ _ _ _ _ _ Ewp Ew with "Hv") as "[Hw Hv]".
    iApply wp_seq. iApply wp_free_string. iFrame "Hk". iApply wp_seq. iApply wp_seq.
    iApply (wp_read_cell _ _ _ _ _ _ _ Ewp). iFrame "Hvp". iIntros "Hvp". iApply wp_value_free. iFrame "Hw".
    iApply (wp_move_last p q ns nvs ks vs); [done..|]. iFrame "Hq Hn Hvp". iIntros "Ho". iApply ("HΦ" with "Ho Hs Hv").
  - apply fmap_Some in Hf as (j' & Hf & ->). iApply (IH (S i) j'); [done..|]. iFrame "Hq Hn Hvp Hs Hv".
    by rw Nat.add_succ_comm.
Qed.

Lemma length_remove_at {A} (l : list A) i : i < length l → length (remove_at l i) = length l - 1.
Proof.
  destruct l as [|z l _] using rev_ind; [cbn; lia|]. rw length_app. cbn. intros Hi. rw remove_at_snoc; [|lia].
  rw length_insert. lia.
Qed.

Lemma wp_object_remove p q o name (Φ : _ → hprop) :
  owns_object p q o ∗
    (let r := Parson.json_object_remove (Some o) name in owns_object p q (default o r.2) -∗ Φ r.1)
  ⊢ wp oom (json_object_remove (Some q) name) Φ.
Proof.
  iIntros "(Ho & HΦ)". cbn zeta. rw owns_object_open. iDestruct "Ho" as "(%ns & %nvs & %ks & %vs & Ho & Hs & Hv)".
  iDestruct (big_sepL2_length with "Hv") as %Hl. rw length_map in Hl.
  iApply wp_seq. iApply (wp_get_value_at _ _ _ _ ks vs); [done|]. iFrame "Ho Hs". iIntros "Ho Hs".
  unfold Parson.json_object_remove, Parson.json_object_remove_internal, Parson.json_object_get_value, Parson.json_object_getn_value.
  rw getn_loop_find. destruct (find_name (obj_pairs o) name) as [i|] eqn:Ei; cbn [mbind option_bind]; last first.
  { iApply wp_ret. iApply "HΦ". cbn [fst snd default]. rw owns_object_open. iExists ns, nvs, ks, vs. iFrame. }
  pose proof (find_name_lt _ _ _ Ei) as Hi.
  destruct (lookup_lt_is_Some_2 (obj_pairs o) i Hi) as [[k w] Ew]. destruct (lookup_lt_is_Some_2 vs i) as [wp' Ewp]; [by rw Hl|].
  rw Ew Ewp. cbn [fmap option_fmap option_map is_null fst snd default].
  iApply wp_seq. iApply wp_object_at_count. iFrame "Ho". iIntros "Ho".
  iApply (wp_remove_from _ _ _ _ ks vs _ (obj_pairs o) name (obj_pairs o) 0 i); [done..|]. iFrame "Ho Hs Hv".
  iIntros "Ho Hs Hv". iApply "HΦ". rw owns_object_open. iExists ns, nvs, (remove_at ks i), (remove_at vs i).
  cbn [obj_pairs obj_capacity]. rw length_remove_at; [|done]. rw !map_remove_at; [|done|done]. iFrame.
Qed.

(** ** Clearing *)

Lemma wp_object_clear p q o (Φ : _ → hprop) :
  owns_object p q o ∗ (owns_object p q (MkObject [] (obj_capacity o)) -∗ Φ JSONSuccess)
  ⊢ wp oom (json_object_clear (Some q)) Φ.
Proof.
  iIntros "(Ho & HΦ)". unfold json_object_clear. cbn [is_null].
  iApply wp_seq. iApply wp_object_count. iFrame "Ho". iIntros "(%ns & %nvs & %ks & %vs & Hq & Hn & Hv & Hp)".
  iApply wp_seq. iApply (wp_free_pairs _ _ _ _ _ _ _ _ _ ks vs _ 0); [|done..|].
  { apply list.Forall_forall. intros x _ par r Ψ. apply wp_value_free. }
  iFrame "Hq Hn Hv Hp". iIntros "(Hq & Hn & Hv)".
  iApply wp_seq. iApply wp_load_object. iFrame "Hq". iIntros "Hq". iApply wp_seq. iApply wp_store. iFrame "Hq". iIntros "Hq".
  iApply wp_ret. iApply "HΦ". iExists ns, nvs, [], []. cbn [obj_pairs obj_capacity length pairs_at]. iFrame "Hq".
  iSplitL "Hn"; [by iApply (ptr_array_take _ _ _ 0 with "Hn")|]. iSplitL; [by iApply (ptr_array_take _ _ _ 0 with "Hv")|done].
Qed.

(** ** Arrays *)

Lemma wp_array_get_value p q items vs n cap i vp (Φ : _ → hprop) : vs !! i = Some vp → length vs = n →
  array_at p q items vs n cap ∗ (array_at p q items vs n cap -∗ Φ (Some vp))
  ⊢ wp oom (json_array_get_value (Some q) i) Φ.
Proof.
  iIntros (Ev Hl) "[(Hq & Hv) HΦ]". iApply wp_seq. iApply wp_load_array. iFrame "Hq". iIntros "Hq".
  rw bool_decide_false; [|apply lookup_lt_Some in Ev; lia].
  iApply (wp_read_cell _ _ _ _ _ _ _ Ev). iFrame "Hv". iIntros "Hv". iApply "HΦ". iFrame.
Qed.

Lemma wp_array_at_count p q items vs n cap (Φ : _ → hprop) :
  array_at p q items vs n cap ∗ (array_at p q items vs n cap -∗ Φ n) ⊢ wp oom (json_array_get_count (Some q)) Φ.
Proof.
  iIntros "[(Hq & Hv) HΦ]". iApply wp_seq. iApply wp_load_array. iFrame "Hq". iIntros "Hq".
  iApply wp_ret. iApply "HΦ". iFrame.
Qed.

(** Shifting the entries after [ix] by one. *)
Lemma cells_move l junk ix : ix < length l →
  let cs := cells l junk in let n := length l - 1 - ix in
  take ix cs ++ take n (drop (S ix) cs) ++ drop (ix + n) cs = cells (take ix l ++ drop (S ix) l) (drop (ix + n) cs).
Proof.
  intros Hi cs n. unfold cs, cells. rw map_app -app_assoc. f_equal; [|f_equal].
  - rw take_app_le; [|rw length_map; lia]. change (map ?f ?l) with (f <$> l). apply firstn_map.
  - rw drop_app_le; [|rw length_map; lia]. rw take_app_le; [|rw length_drop length_map; lia].
    rw take_ge; [|rw length_drop length_map; lia]. apply skipn_map.
Qed.

Lemma wp_move_cells items vs cap ix (Φ : _ → hprop) : ix < length vs →
  ptr_array items vs cap ∗ (ptr_array items (take ix vs ++ drop (S ix) vs) cap -∗ Φ tt)
  ⊢ wp oom (move_cells items ix (length vs - 1 - ix)) Φ.
Proof.
  iIntros (Hi) "[Ha HΦ]". destruct items as [a|]; cbn [ptr_array]; last first.
  { iDestruct "Ha" as "%H". destruct H as [_ ->]. cbn in Hi. lia. }
  iDestruct "Ha" as "(%junk & Ha & %Hcap & %Hc)". iApply wp_seq. iApply wp_load. iFrame "Ha". iIntros "Ha".
  assert (length (cells vs junk) = length vs + length junk) as Hlen by (unfold cells; by rw length_app length_map).
  rw bool_decide_true; [|lia]. iApply wp_store. iFrame "Ha". iIntros "Ha". iApply "HΦ". rw (cells_move vs junk ix Hi).
  iExists _. iFrame "Ha". iPureIntro. split; [done|]. unfold cells at 1. rw length_app length_map length_app length_take length_drop length_drop.
  lia.
Qed.

Lemma big_delete {A B} (Φ : A → B → hprop) l1 l2 i x y : l1 !! i = Some x → l2 !! i = Some y →
  ([∗ list] a;b ∈ l1;l2, Φ a b) ⊢ Φ x y ∗ [∗ list] a;b ∈ (take i l1 ++ drop (S i) l1);(take i l2 ++ drop (S i) l2), Φ a b.
Proof.
  intros Hx Hy. pose proof (take_drop_middle _ _ _ Hx) as E1. pose proof (take_drop_middle _ _ _ Hy) as E2.
  assert (length (take i l1) = length (take i l2)) as Hl.
  { apply lookup_lt_Some in Hx, Hy. rw !length_take. lia. }
  assert (([∗ list] a;b ∈ l1;l2, Φ a b)%I =
    ([∗ list] a;b ∈ (take i l1 ++ x :: drop (S i) l1);(take i l2 ++ y :: drop (S i) l2), Φ a b)%I) as -> by (by rw E1 E2).
  iIntros "H". rw (big_sepL2_app_same_length _ _ _ _ _ (or_introl Hl)).
  rw (big_sepL2_app_same_length _ _ _ _ _ (or_introl Hl)). iDestruct "H" as "($ & $ & $)".
Qed.

Lemma wp_array_remove p q a ix (Φ : _ → hprop) :
  owns_array p q a ∗ (let r := Parson.json_array_remove (Some a) ix in owns_array p q (default a r.2) -∗ Φ r.1)
  ⊢ wp oom (json_array_remove (Some q) ix) Φ.
Proof.
  iIntros "(Ha & HΦ)". cbn zeta. rw owns_array_open. iDestruct "Ha" as "(%items & %vs & Ha & Hv)".
  iDestruct (big_sepL2_length with "Hv") as %Hl. iApply wp_seq. iApply wp_array_at_count. iFrame "Ha". iIntros "Ha".
  cbn [is_null orb Parson.json_array_remove]. case_bool_decide as Hix.
  { iApply wp_ret. iApply "HΦ". cbn [snd default]. rw owns_array_open. iExists items, vs. iFrame. }
  destruct (lookup_lt_is_Some_2 (arr_items a) ix) as [w Ew]; [lia|]. destruct (lookup_lt_is_Some_2 vs ix) as [vp Ev]; [lia|].
  iApply wp_seq. iApply (wp_array_get_value _ _ _ vs _ _ _ _ _ Ev Hl). iFrame "Ha". iIntros "(Hq & Hp)".
  iDestruct (big_delete _ _ _ _ _ _ Ev Ew with "Hv") as "[Hw Hv]". iApply wp_seq. iApply wp_value_free. iFrame "Hw".
  iApply wp_seq. iApply wp_load_array. iFrame "Hq". iIntros "Hq". iApply wp_seq. iEval (rw -Hl).
  iApply (wp_move_cells _ vs); [lia|]. iFrame "Hp". iIntros "Hp". iApply wp_seq. iApply wp_store. iFrame "Hq". iIntros "Hq".
  iApply wp_ret. iApply "HΦ". cbn [fst snd default id]. rw owns_array_open. iExists items, (take ix vs ++ drop (S ix) vs).
  cbn [arr_items arr_capacity]. iFrame "Hv Hp".
  replace (length (take ix (arr_items a) ++ drop (S ix) (arr_items a))) with (length vs - 1); [iFrame|].
  rw length_app length_take length_drop. lia.
Qed.

Lemma wp_array_replace_value p q a ix par vp v (Φ : _ → hprop) :
  owns_array p q a ∗ owns par vp v ∗
    (let r := Parson.json_array_replace_value (Some a) ix (Some v) (negb (is_null par)) in
     match r with
     | (JSONSuccess, Some a') => owns_array p q a' -∗ Φ JSONSuccess
     | _ => owns_array p q a ∗ owns par vp v -∗ Φ JSONFailure
     end)
  ⊢ wp oom (json_array_replace_value (Some q) ix (Some vp)) Φ.
Proof.
  iIntros "(Ha & Hx & HΦ)". cbn zeta. iDestruct (array_open with "Ha") as "(%items & %vs & Ha & Hv)".
  iDestruct (big_sepL2_length with "Hv") as %Hl. unfold json_array_replace_value. cbn [is_null orb].
  iDestruct (owns_block with "Hx") as (pl) "[Hb Hx]". iApply wp_seq. iApply wp_load_value. iFrame "Hb". iIntros "Hb".
  iDestruct ("Hx" with "Hb") as "Hx". iApply wp_seq. iApply wp_array_at_count. iFrame "Ha". iIntros "Ha".
  cbn [fst Parson.json_array_replace_value]. destruct (negb (is_null par) || bool_decide _) eqn:E.
  { iApply wp_ret. iApply "HΦ". iFrame "Hx". iApply array_close. iFrame. }
  apply orb_false_iff in E as [_ E%bool_decide_eq_false].
  destruct (lookup_lt_is_Some_2 (arr_items a) ix) as [w Ew]; [lia|]. destruct (lookup_lt_is_Some_2 vs ix) as [wp' Ev]; [lia|].
  iApply wp_seq. iApply (wp_array_get_value _ _ _ vs _ _ _ _ _ Ev Hl). iFrame "Ha". iIntros "(Hq & Hp)".
  iDestruct (values_insert _ _ _ _ _ _ Ev Ew with "Hv") as "[Hw Hv]". iApply wp_seq. iApply wp_value_free. iFrame "Hw".
  iApply wp_seq. iApply wp_load_array. iFrame "Hq". iIntros "Hq". iApply wp_seq. iApply wp_set_parent. iFrame "Hx". iIntros "Hx".
  iApply wp_seq. iApply (wp_set_cell _ vs); [lia|]. iFrame "Hp". iIntros "Hp". iApply wp_ret. iApply "HΦ".
  iApply (array_close _ _ _ items (<[ix := vp]> vs)). cbn [arr_items arr_capacity]. rw length_insert. iFrame "Hq Hp". by iApply "Hv".
Qed.

Lemma wp_array_append_value p q a par vp v (Φ : _ → hprop) :
  owns_array p q a ∗ owns par vp v ∗
    (match Parson.json_array_append_value (Some a) (Some v) (negb (is_null par)) with
     | (JSONSuccess, Some a') => (owns_array p q a' -∗ Φ JSONSuccess) ∧
         (⌜oom = true⌝ → owns_array p q a ∗ owns par vp v -∗ Φ JSONFailure)
     | _ => owns_array p q a ∗ owns par vp v -∗ Φ JSONFailure
     end)
  ⊢ wp oom (json_array_append_value (Some q) (Some vp)) Φ.
Proof.
  iIntros "(Ha & Hx & HΦ)". unfold json_array_append_value, Parson.json_array_append_value. cbn [is_null orb].
  iDestruct (owns_block with "Hx") as (pl) "[Hb Hx]". iApply wp_seq. iApply wp_load_value. iFrame "Hb". iIntros "Hb".
  iDestruct ("Hx" with "Hb") as "Hx". cbn [fst]. destruct (negb (is_null par)).
  { iApply wp_ret. iApply "HΦ". iFrame. }
  destruct (ParsonParse.json_array_add_success a v) as [a' Ea]. rw Ea. iApply (wp_array_add _ p q a par vp v). rw Ea. iFrame.
Qed.

Lemma wp_clear_items p q items n cap vs l : ∀ i vs2 (Φ : _ → hprop), drop i vs = vs2 → length vs = n →
  array_at p q items vs n cap ∗ values p vs2 l ∗ (array_at p q items vs n cap -∗ Φ tt)
  ⊢ wp oom (for_loop (length l) i (λ i, v ← json_array_get_value (Some q) i; json_value_free v)) Φ.
Proof.
  induction l as [|v l IH]; intros i vs2 Φ Hv Hn; iIntros "(Ha & Hv & HΦ)".
  - iDestruct (big_sepL2_length with "Hv") as %E. destruct vs2; [|done]. iApply wp_ret. iApply ("HΦ" with "Ha").
  - destruct vs2 as [|vp vs2]; [done|]. cbn [big_sepL2 length for_loop]. iDestruct "Hv" as "[Hx Hv]".
    assert (vs !! i = Some vp) as Ev by (by rw -(Nat.add_0_r i) -lookup_drop Hv).
    iApply wp_seq. iApply wp_seq. iApply (wp_array_get_value _ _ _ vs _ _ _ _ _ Ev Hn). iFrame "Ha". iIntros "Ha".
    iApply wp_value_free. iFrame "Hx". iApply (IH (S i) vs2); [by rw -Nat.add_1_r -drop_drop Hv|done|]. iFrame.
Qed.

Lemma wp_array_clear p q a (Φ : _ → hprop) :
  owns_array p q a ∗ (owns_array p q (MkArray [] (arr_capacity a)) -∗ Φ JSONSuccess)
  ⊢ wp oom (json_array_clear (Some q)) Φ.
Proof.
  iIntros "(Ha & HΦ)". iDestruct (array_open with "Ha") as "(%items & %vs & Ha & Hv)".
  iDestruct (big_sepL2_length with "Hv") as %Hl. unfold json_array_clear. cbn [is_null].
  iApply wp_seq. iApply wp_array_at_count. iFrame "Ha". iIntros "Ha". iApply wp_seq.
  iApply (wp_clear_items p q items _ _ vs _ 0); [done|done|]. iFrame "Ha Hv". iIntros "[Hq Hp]".
  iApply wp_seq. iApply wp_load_array. iFrame "Hq". iIntros "Hq". iApply wp_seq. iApply wp_store. iFrame "Hq". iIntros "Hq".
  iApply wp_ret. iApply "HΦ". iApply (array_close _ _ _ items []). cbn [arr_items arr_capacity length big_sepL2]. iFrame "Hq".
  by iApply (ptr_array_take _ _ _ 0 with "Hp").
Qed.

(** ** New values *)

Lemma wp_init_string string (Φ : _ → hprop) :
  value_or_null oom (Parson.json_value_init_string string) Φ ⊢ wp oom (json_value_init_string string) Φ.
Proof.
  iIntros "HΦ". destruct string as [s|]; [|by iApply wp_ret]. unfold json_value_init_string, Parson.json_value_init_string.
  destruct (is_valid_utf8 (cstr s)); cbn [negb]; [|by iApply wp_ret]. iApply wp_seq. iApply wp_strndup. iSplit; last first.
  { iIntros (E). iApply wp_ret. iDestruct "HΦ" as "[_ HΦ]". by iApply "HΦ". }
  iIntros (k) "Hk". iApply wp_seq. iApply wp_malloc. iSplit.
  - iIntros (p) "Hp". iApply wp_ret. iDestruct "HΦ" as "[HΦ _]". iApply "HΦ". iExists k. iFrame.
  - iIntros (E). iApply wp_seq. iApply wp_free_string. iFrame "Hk". iApply wp_ret. iDestruct "HΦ" as "[_ HΦ]". by iApply "HΦ".
Qed.

Lemma wp_new_leaf pl v (Φ : _ → hprop) : (∀ p, p ↦ BValue None pl ⊢ owns None p v) →
  value_or_null oom (Some v) Φ ⊢ wp oom (malloc (BValue None pl)) Φ.
Proof.
  iIntros (Hv) "HΦ". iApply wp_malloc. iSplit.
  - iIntros (p) "Hp". iDestruct "HΦ" as "[HΦ _]". iApply "HΦ". by iApply Hv.
  - iDestruct "HΦ" as "[_ $]".
Qed.

Lemma wp_init_number d (Φ : _ → hprop) :
  value_or_null oom (Parson.json_value_init_number d) Φ ⊢ wp oom (json_value_init_number d) Φ.
Proof.
  unfold json_value_init_number. destruct (Parson.json_value_init_number d) as [v|] eqn:E.
  - apply ParsonParse.json_value_init_number_finite in E as [-> _]. by apply wp_new_leaf.
  - iIntros "HΦ". by iApply wp_ret.
Qed.

(** ** Handing a new value to an array

    Nothing is left behind when the array does not take the value. *)
Definition array_result p q a (r : JSON_Status * option JSON_Array) (Φ : JSON_Status → hprop) : hprop :=
  match r with
  | (JSONSuccess, Some a') => (owns_array p q a' -∗ Φ JSONSuccess) ∧ (⌜oom = true⌝ → owns_array p q a -∗ Φ JSONFailure)
  | _ => owns_array p q a -∗ Φ JSONFailure
  end.

Lemma wp_hand_over p q a (f : option JSON_Value → JSON_Status * option JSON_Array) new (v : option JSON_Value) use (Φ : _ → hprop) :
  (∀ Ψ, value_or_null oom v Ψ ⊢ wp oom new Ψ) → f None = (JSONFailure, Some a) →
  (∀ vp w Ψ, owns_array p q a ∗ owns None vp w ∗
     (match f (Some w) with
      | (JSONSuccess, Some a') => (owns_array p q a' -∗ Ψ JSONSuccess) ∧
          (⌜oom = true⌝ → owns_array p q a ∗ owns None vp w -∗ Ψ JSONFailure)
      | _ => owns_array p q a ∗ owns None vp w -∗ Ψ JSONFailure
      end) ⊢ wp oom (use (Some vp)) Ψ) →
  owns_array p q a ∗ array_result p q a (f v) Φ ⊢ wp oom (hand_over new use) Φ.
Proof.
  iIntros (Hnew Hf Huse) "(Ha & HΦ)". iApply wp_seq. iApply Hnew. destruct v as [w|]; cbn [value_or_null].
  2: { iApply wp_ret. rw Hf. iApply ("HΦ" with "Ha"). }
  iSplit; last first.
  { iIntros (E). iApply wp_ret. destruct (f (Some w)) as [[] [a'|]]; cbn [array_result]; [iDestruct "HΦ" as "[_ HΦ]"|..];
      by iApply ("HΦ" with "Ha") || iApply ("HΦ" with "[//] Ha"). }
  iIntros (vp) "Hv". iApply wp_seq. iApply Huse. iFrame "Ha Hv". destruct (f (Some w)) as [[] [a'|]]; cbn [array_result]; [iSplit|..].
  1: { iIntros "Ha". iApply wp_ret. iDestruct "HΦ" as "[HΦ _]". iApply ("HΦ" with "Ha"). }
  1: { iIntros (E) "[Ha Hv]". iApply wp_seq. iApply wp_value_free. iFrame "Hv". iApply wp_ret. iDestruct "HΦ" as "[_ HΦ]".
       by iApply ("HΦ" with "[//] Ha"). }
  all: iIntros "[Ha Hv]"; iApply wp_seq; iApply wp_value_free; iFrame "Hv"; iApply wp_ret; iApply ("HΦ" with "Ha").
Qed.

Lemma wp_append_new p q a new v Φ : (∀ Ψ, value_or_null oom v Ψ ⊢ wp oom new Ψ) →
  owns_array p q a ∗ array_result p q a (Parson.json_array_append_value (Some a) v false) Φ
  ⊢ wp oom (hand_over new (json_array_append_value (Some q))) Φ.
Proof.
  intros Hnew. apply (wp_hand_over p q a (λ v, Parson.json_array_append_value (Some a) v false)); [done..|].
  intros vp w Ψ. apply (wp_array_append_value p q a None vp w).
Qed.
Lemma wp_replace_new p q a ix new v Φ : (∀ Ψ, value_or_null oom v Ψ ⊢ wp oom new Ψ) →
  owns_array p q a ∗ array_result p q a (Parson.json_array_replace_value (Some a) ix v false) Φ
  ⊢ wp oom (hand_over new (json_array_replace_value (Some q) ix)) Φ.
Proof.
  intros Hnew. apply (wp_hand_over p q a (λ v, Parson.json_array_replace_value (Some a) ix v false)); [done..|].
  intros vp w Ψ. iIntros "(Ha & Hv & HΦ)". iApply (wp_array_replace_value p q a ix None vp w). iFrame "Ha Hv". cbn [is_null negb].
  destruct (Parson.json_array_replace_value (Some a) ix (Some w) false) as [[] [a'|]]; try iExact "HΦ".
  iDestruct "HΦ" as "[$ _]".
Qed.

(** Every function that makes a value for an array refines its functional
    definition, and frees the value when the array does not take it. *)
Lemma wp_array_append_string p q a string Φ :
  owns_array p q a ∗ array_result p q a (Parson.json_array_append_string (Some a) string) Φ
  ⊢ wp oom (json_array_append_string (Some q) string) Φ.
Proof. apply wp_append_new. intros Ψ. apply wp_init_string. Qed.
Lemma wp_array_append_number p q a d Φ :
  owns_array p q a ∗ array_result p q a (Parson.json_array_append_number (Some a) d) Φ
  ⊢ wp oom (json_array_append_number (Some q) d) Φ.
Proof. apply wp_append_new. intros Ψ. apply wp_init_number. Qed.
Lemma wp_array_append_boolean p q a b Φ :
  owns_array p q a ∗ array_result p q a (Parson.json_array_append_boolean (Some a) b) Φ
  ⊢ wp oom (json_array_append_boolean (Some q) b) Φ.
Proof. apply wp_append_new. intros Ψ. by apply wp_new_leaf. Qed.
Lemma wp_array_append_null p q a Φ :
  owns_array p q a ∗ array_result p q a (Parson.json_array_append_null (Some a)) Φ
  ⊢ wp oom (json_array_append_null (Some q)) Φ.
Proof. apply wp_append_new. intros Ψ. by apply wp_new_leaf. Qed.
Lemma wp_array_replace_string p q a i string Φ :
  owns_array p q a ∗ array_result p q a (Parson.json_array_replace_string (Some a) i string) Φ
  ⊢ wp oom (json_array_replace_string (Some q) i string) Φ.
Proof. apply wp_replace_new. intros Ψ. apply wp_init_string. Qed.
Lemma wp_array_replace_number p q a i d Φ :
  owns_array p q a ∗ array_result p q a (Parson.json_array_replace_number (Some a) i d) Φ
  ⊢ wp oom (json_array_replace_number (Some q) i d) Φ.
Proof. apply wp_replace_new. intros Ψ. apply wp_init_number. Qed.
Lemma wp_array_replace_boolean p q a i b Φ :
  owns_array p q a ∗ array_result p q a (Parson.json_array_replace_boolean (Some a) i b) Φ
  ⊢ wp oom (json_array_replace_boolean (Some q) i b) Φ.
Proof. apply wp_replace_new. intros Ψ. by apply wp_new_leaf. Qed.
Lemma wp_array_replace_null p q a i Φ :
  owns_array p q a ∗ array_result p q a (Parson.json_array_replace_null (Some a) i) Φ
  ⊢ wp oom (json_array_replace_null (Some q) i) Φ.
Proof. apply wp_replace_new. intros Ψ. by apply wp_new_leaf. Qed.

(** One call of a client. *)
Definition after_call p q a c (Φ : JSON_Status → hprop) : hprop :=
  ∀ st a', <affine> ⌜oom = false → st = (pure_call a c).1 ∧ a' = default a (pure_call a c).2⌝ -∗ owns_array p q a' -∗ Φ st.

Lemma array_result_after p q a c Φ : (∀ o, pure_call a c = (JSONFailure, o) → o = Some a) →
  (∀ o, pure_call a c = (JSONSuccess, o) → is_Some o) → after_call p q a c Φ ⊢ array_result p q a (pure_call a c) Φ.
Proof.
  iIntros (Hf Hs) "HΦ". unfold after_call. destruct (pure_call a c) as [[] o]; cbn [fst snd].
  - destruct (Hs o eq_refl) as [a' ->]. cbn [array_result default]. iSplit.
    + iIntros "Ha". by iApply ("HΦ" $! JSONSuccess a' with "[//] Ha").
    + iIntros (E) "Ha". iApply ("HΦ" $! JSONFailure a with "[] Ha"). iPureIntro. by rw E.
  - rw (Hf o eq_refl). iIntros "Ha". by iApply ("HΦ" $! JSONFailure a with "[//] Ha").
Qed.

Lemma append_shape a v : (∀ o, Parson.json_array_append_value (Some a) v false = (JSONFailure, o) → o = Some a) ∧
  (∀ o, Parson.json_array_append_value (Some a) v false = (JSONSuccess, o) → is_Some o).
Proof.
  unfold Parson.json_array_append_value. destruct v as [w|]; [|split; intros o H; by simplify_eq].
  destruct (ParsonParse.json_array_add_success a w) as [a' ->]. split; intros o H; by simplify_eq.
Qed.
Lemma replace_shape a i v : (∀ o, Parson.json_array_replace_value (Some a) i v false = (JSONFailure, o) → o = Some a) ∧
  (∀ o, Parson.json_array_replace_value (Some a) i v false = (JSONSuccess, o) → is_Some o).
Proof.
  unfold Parson.json_array_replace_value. destruct v as [w|]; [|split; intros o H; by simplify_eq].
  cbn [orb]. case_bool_decide; split; intros o' H'; by simplify_eq.
Qed.

Lemma wp_do_call p q a c (Φ : _ → hprop) : owns_array p q a ∗ after_call p q a c Φ ⊢ wp oom (do_call (Some q) c) Φ.
Proof.
  iIntros "[Ha HΦ]". destruct c as [s|d|b| |i s|i d|i b|i|i|]; cbn [do_call].
  1: iApply wp_array_append_string. 2: iApply wp_array_append_number. 3: iApply wp_array_append_boolean.
  4: iApply wp_array_append_null. 5: iApply wp_array_replace_string. 6: iApply wp_array_replace_number.
  7: iApply wp_array_replace_boolean. 8: iApply wp_array_replace_null.
  1-8: iFrame "Ha"; iApply (array_result_after with "HΦ"); by apply append_shape || by apply replace_shape.
  - iApply wp_array_remove. iFrame "Ha". cbn zeta. iIntros "Ha". by iApply ("HΦ" with "[//] Ha").
  - iApply wp_array_clear. iFrame "Ha". iIntros "Ha". by iApply ("HΦ" $! JSONSuccess with "[//] Ha").
Qed.

Lemma wp_do_calls p q cs : ∀ a (Φ : _ → hprop),
  owns_array p q a ∗ (∀ sts a', <affine> ⌜oom = false → sts = pure_calls a cs⌝ -∗ owns_array p q a' -∗ Φ sts)
  ⊢ wp oom (do_calls (Some q) cs) Φ.
Proof.
  induction cs as [|c cs IH]; intros a Φ; iIntros "[Ha HΦ]".
  { iApply wp_ret. by iApply ("HΦ" with "[//] Ha"). }
  cbn [do_calls pure_calls]. iApply wp_seq. iApply (wp_do_call _ _ a c). iFrame "Ha". iIntros (st a') "%H1 Ha".
  iApply wp_seq. iApply IH. iFrame "Ha". iIntros (sts a2) "%H2 Ha". iApply wp_ret. iApply ("HΦ" with "[] Ha").
  iPureIntro. intros E. destruct (H1 E) as [-> ->]. by rw (H2 E).
Qed.

Lemma wp_array_client cs (Φ : _ → hprop) :
  (∀ sts, <affine> ⌜oom = false → sts = pure_calls Parson.json_array_init cs⌝ -∗ Φ sts) ⊢ wp oom (array_client cs) Φ.
Proof.
  iIntros "HΦ". iApply wp_seq. iApply wp_init_array. iSplit; last first.
  { iIntros (E). iApply wp_ret. iApply "HΦ". iPureIntro. by rw E. }
  iIntros (p q) "[Hp Ha]". iApply wp_seq. iApply wp_get_array. iFrame "Hp". iIntros "Hp". iApply wp_seq. iApply wp_do_calls.
  iFrame "Ha". iIntros (sts a) "%H Ha". iApply wp_seq. iApply (wp_value_free _ None p (JSONArray a)).
  iSplitL "Hp Ha"; [iApply array_value; iFrame|]. iApply wp_ret. by iApply "HΦ".
Qed.

(** ** Deep copy *)

(** The copy of the functional model in new memory, or NULL where memory may run
    out; [P], which has the original, is still there. *)
Definition copied {A} (own : addr → A → hprop) (P : hprop) (r : option A) (Φ : option addr → hprop) : hprop :=
  match r with
  | Some c => (∀ p', P -∗ own p' c -∗ Φ (Some p')) ∧ (⌜oom = true⌝ → P -∗ Φ None)
  | None => P -∗ Φ None
  end.
Lemma copied_oom {A} own P (r : option A) Φ : oom = true → P ∗ copied own P r Φ ⊢ Φ None.
Proof.
  iIntros (E) "[HP H]". destruct r; cbn [copied]; [iDestruct "H" as "[_ H]"; by iApply "H"|by iApply "H"].
Qed.

Definition copies (copy : option addr → HM (option addr)) (v : JSON_Value) : Prop :=
  ∀ par p Φ, owns par p v ∗ copied (owns None) (owns par p v) (Parson.json_value_deep_copy v) Φ
    ⊢ wp oom (copy (Some p)) Φ.

Lemma wp_drop_copy p v (Φ : _ → hprop) : owns None p v ∗ Φ None ⊢ wp oom (drop_copy (Some p)) Φ.
Proof. iIntros "[H HΦ]". iApply wp_seq. iApply wp_value_free. iFrame "H". by iApply wp_ret. Qed.

(** A copy of a value inside its container. *)
Lemma wp_copy_inside copy par p v (R : hprop) (Φ : _ → hprop) : copies copy v →
  owns par p v ∗ (owns par p v -∗ R) ∗ copied (owns None) R (Parson.json_value_deep_copy v) Φ
  ⊢ wp oom (copy (Some p)) Φ.
Proof.
  iIntros (Hc) "(Hx & HR & HΦ)". iApply Hc. iFrame "Hx". destruct (Parson.json_value_deep_copy v) as [c|]; cbn [copied].
  - iSplit.
    + iIntros (p') "Hx Hc". iDestruct ("HR" with "Hx") as "HR". iDestruct "HΦ" as "[HΦ _]". iApply ("HΦ" with "HR Hc").
    + iIntros (E) "Hx". iDestruct ("HR" with "Hx") as "HR". iDestruct "HΦ" as "[_ HΦ]". by iApply ("HΦ" with "[//] HR").
  - iIntros "Hx". iApply "HΦ". by iApply "HR".
Qed.

Lemma wp_copy_items_from copy p q items n cap vs l p' q' l2 : ∀ i a' (Φ : _ → hprop),
  Forall (copies copy) l → drop i l = l2 → length vs = n →
  let src := (array_at p q items vs n cap ∗ values p vs l)%I in
  src ∗ p' ↦ BValue None (PArray (Some q')) ∗ owns_array p' q' a' ∗
    copied (λ x a, <affine> ⌜x = p'⌝ ∗ owns None x (JSONArray a))%I src (copy_items (map Parson.json_value_deep_copy l2) a') Φ
  ⊢ wp oom (copy_items_from copy (length l2) i (Some q) (Some q') (Some p')) Φ.
Proof.
  induction l2 as [|v l2 IH]; intros i a' Φ HF Hd Hn src; iIntros "((Ha & Hv) & Hp' & Ha' & HΦ)".
  { cbn [length copy_items_from copy_items copied List.map]. iApply wp_ret. iDestruct "HΦ" as "[HΦ _]".
    iApply ("HΦ" with "[Ha Hv]"); [iFrame|]. iSplit; [done|]. rw owns_array_eq. iExists q'. iFrame. }
  assert (l !! i = Some v) as Hi by (by rw -(Nat.add_0_r i) -lookup_drop Hd).
  assert (drop (S i) l = l2) as Hd' by (by rw -Nat.add_1_r -drop_drop Hd).
  iDestruct (big_sepL2_length with "Hv") as %Hl.
  destruct (lookup_lt_is_Some_2 vs i) as [vp Ev]; [rw Hl; by eapply lookup_lt_Some|].
  cbn [length copy_items_from List.map copy_items]. iApply wp_seq. iApply (wp_array_get_value _ _ _ vs _ _ _ _ _ Ev Hn).
  iFrame "Ha". iIntros "Ha". iDestruct (big_sepL2_lookup_acc _ _ _ _ _ _ Ev Hi with "Hv") as "[Hx Hv]".
  iApply wp_seq. iApply (wp_copy_inside _ _ _ v src); [by apply (proj1 (list.Forall_forall _ _) HF), list_elem_of_lookup_2 with i|].
  iFrame "Hx". iSplitL "Ha Hv"; [iIntros "Hx"; iFrame "Ha"; by iApply "Hv"|].
  destruct (Parson.json_value_deep_copy v) as [c|]; cbn [copied].
  2: { iIntros "Hsrc". iApply (wp_drop_copy p' (JSONArray a')). rw owns_array_eq. iSplitL "Hp' Ha'"; [iFrame|]. by iApply "HΦ". }
  destruct (ParsonParse.json_array_add_success a' c) as [a2 Ea]. rw Ea. iSplit; last first.
  { iIntros (E) "Hsrc". iApply (wp_drop_copy p' (JSONArray a')). rw owns_array_eq. iSplitL "Hp' Ha'"; [iFrame|].
    iApply (copied_oom _ src); [done|]. iFrame. }
  iIntros (cp) "Hsrc Hc". iApply wp_seq. iApply (wp_array_add _ p' q' a' None cp c). rw Ea. iFrame "Ha' Hc". iSplit.
  - iIntros "Ha'". iApply (IH (S i) a2); [done..|]. iFrame.
  - iIntros (E) "[Ha' Hc]". iApply wp_seq. iApply (wp_value_free _ None p' (JSONArray a')). rw owns_array_eq.
    iSplitL "Hp' Ha'"; [iFrame|]. iApply wp_seq. iApply wp_value_free. iFrame "Hc". iApply wp_ret.
    iApply (copied_oom _ src); [done|]. iFrame.
Qed.

Lemma wp_get_name p q ns nvs ks vs n cap i kp (Φ : _ → hprop) : ks !! i = Some kp → length ks = n →
  object_at p q ns nvs ks vs n cap ∗ (object_at p q ns nvs ks vs n cap -∗ Φ (Some kp))
  ⊢ wp oom (json_object_get_name (Some q) i) Φ.
Proof.
  iIntros (Ek Hl) "[(Hq & Hn & Hv) HΦ]". iApply wp_seq. iApply wp_load_object. iFrame "Hq". iIntros "Hq".
  rw bool_decide_false; [|apply lookup_lt_Some in Ek; lia].
  iApply (wp_read_cell _ _ _ _ _ _ _ Ek). iFrame "Hn". iIntros "Hn". iApply "HΦ". iFrame.
Qed.

(** Reading a name of the original while it is copied. *)
Lemma wp_load_name ks l i kp k (Φ : _ → hprop) : ks !! i = Some kp → l !! i = Some k →
  strings ks l ∗ (strings ks l -∗ Φ k) ⊢ wp oom (load_string (Some kp)) Φ.
Proof.
  iIntros (Ekp Ek) "[Hs HΦ]". iDestruct (big_sepL2_lookup_acc _ _ _ _ _ _ Ekp Ek with "Hs") as "[Hk Hs]".
  iApply wp_load_string. iFrame "Hk". iIntros "Hk". iApply "HΦ". by iApply "Hs".
Qed.

(** The copy of the value found under a name. *)
Lemma wp_copy_named copy p q ns nvs ks vs cap (ps : list (bytes * JSON_Value)) key (K : option addr → HM (option addr))
    (Φ : _ → hprop) : Forall (λ x, copies copy x.2) ps → is_Some (find_name ps key) →
  let src := (object_at p q ns nvs ks vs (length ps) cap ∗ strings ks (map fst ps) ∗ values p vs (map snd ps))%I in
  src ∗ copied (owns None) src (mjoin (getn_loop (map (λ x, (x.1, Parson.json_value_deep_copy x.2)) ps) key (strlen key)))
          (λ a, wp oom (K a) Φ)
  ⊢ wp oom (temp_value ← json_object_get_value (Some q) key; temp_value_copy ← copy temp_value; K temp_value_copy) Φ.
Proof.
  iIntros (HF [i Ei] src) "[(Ho & Hs & Hv) HΦ]". iDestruct (big_sepL2_length with "Hv") as %Hl. rw length_map in Hl.
  iApply wp_seq. iApply (wp_get_value_at _ _ _ _ ks vs); [done|]. iFrame "Ho Hs". iIntros "Ho Hs".
  rw getn_loop_map getn_loop_find Ei. cbn [mbind option_bind].
  pose proof (find_name_lt _ _ _ Ei) as Hi.
  destruct (lookup_lt_is_Some_2 ps i Hi) as [[k w] Ew]. destruct (lookup_lt_is_Some_2 vs i) as [vp Ev]; [by rw Hl|].
  assert (map snd ps !! i = Some w) as Ew' by (change (map snd ps) with (snd <$> ps); by rw list_lookup_fmap Ew).
  rw Ew Ev. cbn [fmap option_fmap option_map mjoin option_join snd].
  iDestruct (big_sepL2_lookup_acc _ _ _ _ _ _ Ev Ew' with "Hv") as "[Hx Hv]".
  iApply wp_seq. iApply (wp_copy_inside _ _ _ w src).
  - apply (proj1 (list.Forall_forall _ _) HF (k, w)). by apply list_elem_of_lookup_2 with i.
  - iFrame "Hx HΦ". iIntros "Hx". iFrame "Ho Hs". by iApply "Hv".
Qed.

Lemma find_name_in {V} (ps : list (bytes * V)) k : k ∈ map fst ps → is_Some (find_name ps k).
Proof.
  induction ps as [|[k' v] ps IH]; cbn [List.map find_name fst]; [by intros ?%not_elem_of_nil|].
  intros [->|H]%elem_of_cons.
  - unfold strcmp_eq. by rw bool_decide_true.
  - destruct (strcmp_eq k' k); [done|]. destruct (IH H) as [i ->]. by exists (S i).
Qed.

Lemma copy_pairs_None cs l : copy_pairs cs l None = None.
Proof. destruct l as [|k l]; [done|]. cbn. by destruct (getn_loop cs k (strlen k)) as [[c|]|]. Qed.

Lemma wp_copy_pairs_from copy p q ns nvs ks vs cap (ps : list (bytes * JSON_Value)) p' q' l2 : ∀ i o' (Φ : _ → hprop),
  Forall (λ x, copies copy x.2) ps → drop i (map fst ps) = l2 →
  let src := (object_at p q ns nvs ks vs (length ps) cap ∗ strings ks (map fst ps) ∗ values p vs (map snd ps))%I in
  src ∗ p' ↦ BValue None (PObject (Some q')) ∗ owns_object p' q' o' ∗
    copied (λ x o, <affine> ⌜x = p'⌝ ∗ owns None x (JSONObject o))%I src
      (copy_pairs (map (λ x, (x.1, Parson.json_value_deep_copy x.2)) ps) l2 (Some o')) Φ
  ⊢ wp oom (copy_pairs_from copy (length l2) i (Some q) (Some q') (Some p')) Φ.
Proof.
  induction l2 as [|key l2 IH]; intros i o' Φ HF Hd src; iIntros "(Hsrc & Hp' & Ho' & HΦ)".
  { cbn [length copy_pairs_from copy_pairs copied]. iApply wp_ret. iDestruct "HΦ" as "[HΦ _]".
    iApply ("HΦ" with "Hsrc"). iSplit; [done|]. rw owns_object_eq. iExists q'. iFrame. }
  assert (map fst ps !! i = Some key) as Hi by (by rw -(Nat.add_0_r i) -lookup_drop Hd).
  assert (drop (S i) (map fst ps) = l2) as Hd' by (by rw -Nat.add_1_r -drop_drop Hd).
  iDestruct "Hsrc" as "(Ho & Hs & Hv)". iDestruct (big_sepL2_length with "Hs") as %Hks.
  destruct (lookup_lt_is_Some_2 ks i) as [kp Ekp]; [rw Hks; by eapply lookup_lt_Some|]. rw length_map in Hks.
  cbn [length copy_pairs_from copy_pairs]. iApply wp_seq. iApply (wp_get_name _ _ _ _ ks vs _ _ _ _ _ Ekp Hks).
  iFrame "Ho". iIntros "Ho". iApply wp_seq. iApply (wp_load_name _ _ _ _ _ _ Ekp Hi). iFrame "Hs". iIntros "Hs".
  iApply (wp_copy_named _ p q ns nvs ks vs cap ps key); [done|apply find_name_in; by apply list_elem_of_lookup_2 with i|].
  iFrame "Ho Hs Hv".
  destruct (getn_loop _ key (strlen key)) as [[c|]|]; cbn [mjoin option_join copied].
  2-3: iIntros "Hsrc"; iApply (wp_drop_copy p' (JSONObject o')); rw owns_object_eq; iSplitL "Hp' Ho'"; [iFrame|]; by iApply "HΦ".
  iSplit; last first.
  { iIntros (E) "Hsrc". iApply (wp_drop_copy p' (JSONObject o')). rw owns_object_eq. iSplitL "Hp' Ho'"; [iFrame|].
    iApply (copied_oom _ src); [done|]. iFrame. }
  iIntros (cp) "(Ho & Hs & Hv) Hc". iApply wp_seq. iApply (wp_load_name _ _ _ _ _ _ Ekp Hi). iFrame "Hs". iIntros "Hs".
  iAssert src with "[Ho Hs Hv]" as "Hsrc"; [iFrame|].
  iApply wp_seq. iApply (wp_object_addn _ p' q' o' key _ None cp c). iFrame "Ho' Hc".
  fold (Parson.json_object_add (Some o') key (Some c)).
  destruct (Parson.json_object_add (Some o') key (Some c)) as [[] [o2|]]; cbn [object_added].
  2-4: iIntros "[Ho' Hc]"; iApply wp_seq; iApply (wp_value_free _ None p' (JSONObject o')); rw owns_object_eq;
    (iSplitL "Hp' Ho'"; [iFrame|]); iApply wp_seq; iApply wp_value_free; iFrame "Hc"; iApply wp_ret.
  - iSplit.
    + iIntros "Ho'". iApply (IH (S i) o2); [done..|]. iFrame.
    + iIntros (E c') "[Ho' Hc]". iApply wp_seq. iApply (wp_value_free _ None p' (JSONObject (MkObject (obj_pairs o') c'))).
      rw owns_object_eq. iSplitL "Hp' Ho'"; [iFrame|]. iApply wp_seq. iApply wp_value_free. iFrame "Hc". iApply wp_ret.
      iApply (copied_oom _ src); [done|]. iFrame.
  - rw copy_pairs_None. by iApply "HΦ".
  - by iApply "HΦ".
  - by iApply "HΦ".
Qed.

(** The same, where the copy needs no more of the original than its block. *)
Lemma value_or_null_copied P v Φ : P ∗ copied (owns None) P v Φ ⊢ value_or_null oom v Φ.
Proof.
  iIntros "[HP HΦ]". destruct v as [c|]; cbn [copied value_or_null]; [iSplit|by iApply "HΦ"].
  - iIntros (p) "Hp". iDestruct "HΦ" as "[HΦ _]". iApply ("HΦ" with "HP Hp").
  - iIntros (E). iDestruct "HΦ" as "[_ HΦ]". by iApply ("HΦ" with "[//] HP").
Qed.

Lemma wp_copy_string par p s Φ :
  owns par p (JSONString s) ∗ copied (owns None) (owns par p (JSONString s)) (Parson.json_value_deep_copy (JSONString s)) Φ
  ⊢ ∃ q, p ↦ BValue par (PString (Some q)) ∗ (p ↦ BValue par (PString (Some q)) -∗
      wp oom (s ← load_string (Some q);
              temp_string_copy ← parson_strndup s (strlen s);
              match temp_string_copy with
              | None => mret None
              | Some _ =>
                  return_value ← json_value_init_string_no_copy temp_string_copy;
                  match return_value with None => _ ← free temp_string_copy; mret None | Some _ => mret return_value end
              end) Φ).
Proof.
  iIntros "[(%q & Hp & Hq) HΦ]". iExists q. iFrame "Hp". iIntros "Hp". cbn [Parson.json_value_deep_copy copied].
  iApply wp_seq. iApply wp_load_string. iFrame "Hq". iIntros "Hq".
  iAssert (owns par p (JSONString s)) with "[Hp Hq]" as "Hx"; [iExists q; iFrame|].
  iApply wp_seq. iApply wp_strndup. iSplit; last first.
  { iIntros (E). iApply wp_ret. iDestruct "HΦ" as "[_ HΦ]". by iApply ("HΦ" with "[//] Hx"). }
  iIntros (k) "Hk". iApply wp_seq. iApply wp_malloc. iSplit.
  - iIntros (p') "Hp'". iApply wp_ret. iDestruct "HΦ" as "[HΦ _]". iApply ("HΦ" with "Hx"). iExists k. iFrame.
  - iIntros (E). iApply wp_seq. iApply wp_free_string. iFrame "Hk". iApply wp_ret. iDestruct "HΦ" as "[_ HΦ]".
    by iApply ("HΦ" with "[//] Hx").
Qed.

Lemma wp_copy_array f par p a Φ : Forall (copies (value_deep_copy f)) (arr_items a) →
  owns par p (JSONArray a) ∗ copied (owns None) (owns par p (JSONArray a)) (Parson.json_value_deep_copy (JSONArray a)) Φ
  ⊢ wp oom (value_deep_copy (S f) (Some p)) Φ.
Proof.
  iIntros (HF) "[Hx HΦ]". cbn [value_deep_copy]. iDestruct (value_array with "Hx") as (q) "[Hp Ha]".
  iApply wp_seq. iApply wp_load_value. iFrame "Hp". iIntros "Hp". iApply wp_seq. iApply wp_init_array. iSplit; last first.
  { iIntros (E). iApply wp_ret. iApply (copied_oom _ (owns par p (JSONArray a))); [done|]. iFrame "HΦ". iApply array_value. iFrame. }
  iIntros (p' q') "[Hp' Ha']". iApply wp_seq. iApply wp_get_array. iFrame "Hp'". iIntros "Hp'".
  iDestruct (array_open with "Ha") as "(%items & %vs & Ha & Hv)". iDestruct (big_sepL2_length with "Hv") as %Hl.
  iApply wp_seq. iApply wp_array_at_count. iFrame "Ha". iIntros "Ha".
  iApply (wp_copy_items_from _ p q items _ _ vs (arr_items a) p' q' (arr_items a) 0); [done..|]. iFrame "Ha Hv Hp' Ha'".
  iAssert (array_at p q items vs (length (arr_items a)) (arr_capacity a) ∗ values p vs (arr_items a) -∗
           owns par p (JSONArray a))%I with "[Hp]" as "Hback".
  { iIntros "H". iApply array_value. iFrame "Hp". by iApply array_close. }
  destruct a as [its cap]. cbn [arr_items arr_capacity Parson.json_value_deep_copy].
  destruct (copy_items (map Parson.json_value_deep_copy its) Parson.json_array_init) as [a2|];
    cbn [fmap option_fmap option_map copied].
  - iSplit.
    + iIntros (x) "Ha [-> Hx]". iDestruct "HΦ" as "[HΦ _]". iApply ("HΦ" with "[Hback Ha] Hx"). by iApply "Hback".
    + iIntros (E) "Ha". iDestruct "HΦ" as "[_ HΦ]". iApply ("HΦ" with "[//] [Hback Ha]"). by iApply "Hback".
  - iIntros "Ha". iApply "HΦ". by iApply "Hback".
Qed.

Lemma wp_copy_object f par p o Φ : Forall (λ x, copies (value_deep_copy f) x.2) (obj_pairs o) →
  owns par p (JSONObject o) ∗ copied (owns None) (owns par p (JSONObject o)) (Parson.json_value_deep_copy (JSONObject o)) Φ
  ⊢ wp oom (value_deep_copy (S f) (Some p)) Φ.
Proof.
  iIntros (HF) "[Hx HΦ]". cbn [value_deep_copy]. iDestruct (value_object with "Hx") as (q) "[Hp Ho]".
  iApply wp_seq. iApply wp_load_value. iFrame "Hp". iIntros "Hp". iApply wp_seq. iApply wp_init_object. iSplit; last first.
  { iIntros (E). iApply wp_ret. iApply (copied_oom _ (owns par p (JSONObject o))); [done|]. iFrame "HΦ". iApply object_value. iFrame. }
  iIntros (p' q') "[Hp' Ho']". iApply wp_seq. iApply wp_get_object. iFrame "Hp'". iIntros "Hp'".
  iDestruct (object_open with "Ho") as "(%ns & %nvs & %ks & %vs & Ho & Hs & Hv)".
  iApply wp_seq. iApply wp_object_at_count. iFrame "Ho". iIntros "Ho". iEval (rw -(length_map fst (obj_pairs o))).
  iApply (wp_copy_pairs_from _ p q ns nvs ks vs _ (obj_pairs o) p' q' (map fst (obj_pairs o)) 0); [done..|]. iFrame "Ho Hs Hv Hp' Ho'".
  iAssert (object_at p q ns nvs ks vs (length (obj_pairs o)) (obj_capacity o) ∗ strings ks (map fst (obj_pairs o)) ∗
           values p vs (map snd (obj_pairs o)) -∗ owns par p (JSONObject o))%I with "[Hp]" as "Hback".
  { iIntros "H". iApply object_value. iFrame "Hp". by iApply object_close. }
  destruct o as [ps cap]. cbn [obj_pairs obj_capacity Parson.json_value_deep_copy].
  destruct (copy_pairs _ (map fst ps) (Some Parson.json_object_init)) as [o2|]; cbn [fmap option_fmap option_map copied].
  - iSplit.
    + iIntros (x) "Ho [-> Hx]". iDestruct "HΦ" as "[HΦ _]". iApply ("HΦ" with "[Hback Ho] Hx"). by iApply "Hback".
    + iIntros (E) "Ho". iDestruct "HΦ" as "[_ HΦ]". iApply ("HΦ" with "[//] [Hback Ho]"). by iApply "Hback".
  - iIntros "Ho". iApply "HΦ". by iApply "Hback".
Qed.

Lemma value_deep_copy_copies v : ∀ fuel, depth v < fuel → copies (value_deep_copy fuel) v.
Proof.
  induction v as [|s|d|ps cap IH|items cap IH|b] using JSON_Value_ind; intros [|f] Hd par p Φ; try lia.
  - iIntros "[Hx HΦ]". cbn [value_deep_copy]. iApply wp_seq. iApply wp_load_value. iFrame "Hx". iIntros "Hx".
    iApply (wp_new_leaf PNull JSONNull); [done|]. iApply (value_or_null_copied (owns par p JSONNull)). iSplitL "Hx"; [iExact "Hx"|iExact "HΦ"].
  - iIntros "H". cbn [value_deep_copy]. iDestruct (wp_copy_string with "H") as (q) "[Hp H]".
    iApply wp_seq. iApply wp_load_value. iFrame "Hp". iIntros "Hp". cbn [snd is_null]. by iApply "H".
  - iIntros "[Hx HΦ]". cbn [value_deep_copy]. iApply wp_seq. iApply wp_load_value. iFrame "Hx". iIntros "Hx".
    iApply wp_init_number. iApply (value_or_null_copied (owns par p (JSONNumber d))). iSplitL "Hx"; [iExact "Hx"|iExact "HΦ"].
  - destruct f as [|f]; [cbn [depth] in Hd; lia|]. apply Nat.lt_succ_r, depth_object in Hd.
    apply (wp_copy_object (S f) par p (MkObject ps cap)). apply (Forall_both IH Hd). intros x Hx Hdx. apply Hx. lia.
  - destruct f as [|f]; [cbn [depth] in Hd; lia|]. apply Nat.lt_succ_r, depth_array in Hd.
    apply (wp_copy_array (S f) par p (MkArray items cap)). apply (Forall_both IH Hd). intros x Hx Hdx. apply Hx. lia.
  - iIntros "[Hx HΦ]". cbn [value_deep_copy]. iApply wp_seq. iApply wp_load_value. iFrame "Hx". iIntros "Hx".
    iApply (wp_new_leaf _ (Parson.json_value_init_boolean (if b then 1 else 0))); [done|].
    iApply (value_or_null_copied (owns par p (JSONBoolean b))). iSplitL "Hx"; [iExact "Hx"|iExact "HΦ"].
Qed.

Lemma wp_deep_copy par p v Φ :
  owns par p v ∗ copied (owns None) (owns par p v) (Parson.json_value_deep_copy v) Φ
  ⊢ wp oom (json_value_deep_copy (Some p)) Φ.
Proof.
  split. intros h H hf fs Hd Hfs.
  assert (depth v < S (size (h ∪ hf))) as Hdepth.
  { destruct H as (h1 & h2 & -> & Hd12 & H1 & _). pose proof (entails_at _ _ (owns_depth v par p) _ H1) as Hs.
    cbn in Hs. rw !map_size_disj_union; [lia|done..]. }
  exact (entails_at _ _ (value_deep_copy_copies v _ Hdepth par p Φ) h H hf fs Hd Hfs).
Qed.
End proofs.

(** ** Runs *)

(** A specification as a statement about runs beside other memory. *)
Lemma wp_run {A} oom (P : hprop) (m : HM A) (Φ : A → hprop) h' h fs : (P ⊢ wp oom m Φ) → at_heap P h' → h' ##ₘ h →
  allowed oom fs → ∃ a h2 fs', m (MkMem (h' ∪ h) fs) = Ok (a, MkMem (h2 ∪ h) fs') ∧ h2 ##ₘ h ∧ at_heap (Φ a) h2.
Proof.
  intros [H] HP Hd Hfs. destruct (H h' HP h fs Hd Hfs) as (a & h2 & fs' & E & Hd' & _ & HΦ). by exists a, h2, fs'.
Qed.

(** [allowed] for the failures that are planned. *)
Abbreviation may_fail fs := (negb (bool_decide (fs = []))).
Lemma allowed_may_fail fs : allowed (may_fail fs) fs.
Proof. unfold allowed. by rw negb_false_iff bool_decide_eq_true. Qed.

Lemma set_value_success o name v : ∃ o', Parson.json_object_set_value (Some o) name (Some v) false = (JSONSuccess, Some o').
Proof.
  unfold Parson.json_object_set_value, Parson.json_object_get_value, Parson.json_object_add, Parson.json_object_addn.
  cbn [Parson.json_object_getn_value]. rw getn_loop_find set_loop_find. destruct (find_name (obj_pairs o) name) as [i|] eqn:Ei.
  - apply find_name_lt in Ei. destruct (lookup_lt_is_Some_2 _ _ Ei) as [[k w] Ew]. cbn. rw Ew. by eexists.
  - cbn. case_bool_decide; [|by eexists]. rw object_resize_pos; [by eexists|]. unfold STARTING_CAPACITY. lia.
Qed.

(** [json_object_set_value] on an object and a value without a parent, in
    any memory and whatever allocations fail: no fault; the blocks afterwards
    are the object of the functional model, so that a value that was replaced
    is freed and the new one belongs to the object; or it fails, only because an
    allocation did, and the object has the members it had and the caller still
    owns the value. *)
Theorem set_value_memory_safe p q o name vp v h' h fs :
  at_heap (owns_object p q o ∗ owns None vp v)%I h' → h' ##ₘ h →
  ∃ st h2 fs', json_object_set_value (Some q) name (Some vp) (MkMem (h' ∪ h) fs) = Ok (st, MkMem (h2 ∪ h) fs') ∧ h2 ##ₘ h ∧
    match st with
    | JSONSuccess => ∃ o', Parson.json_object_set_value (Some o) name (Some v) false = (JSONSuccess, Some o') ∧
                           at_heap (owns_object p q o') h2
    | JSONFailure => fs ≠ [] ∧ ∃ c, at_heap (owns_object p q (MkObject (obj_pairs o) c) ∗ owns None vp v)%I h2
    end.
Proof.
  intros HP Hd. destruct (set_value_success o name v) as [o' Eo].
  pose (Φ := λ st, match st with
    | JSONSuccess => owns_object p q o'
    | JSONFailure => <affine> ⌜may_fail fs = true⌝ ∗ ∃ c, owns_object p q (MkObject (obj_pairs o) c) ∗ owns None vp v
    end%I : hprop).
  destruct (wp_run (may_fail fs) (owns_object p q o ∗ owns None vp v)%I (json_object_set_value (Some q) name (Some vp)) Φ h' h fs) as (st & h2 & fs' & E & Hd2 & HΦ);
    [|exact HP|done|apply allowed_may_fail|].
  - iIntros "[Ho Hv]". iApply (wp_object_set_value _ p q o name None vp v). iFrame "Ho Hv". cbn [is_null negb]. rw Eo.
    cbn [object_added]. iSplit; [iIntros "$"|]. iIntros (Ef c) "[Ho Hv]". iSplit; [done|]. iExists c. iFrame.
  - exists st, h2, fs'. split_and!; [done..|]. destruct st; [by exists o'|].
    destruct HΦ as (h3 & h4 & -> & _ & [Hh3 Hf] & Hc). change (h3 = ∅) in Hh3. subst h3.
    rw (left_id_L ∅ (∪)). split; [|exact Hc]. apply negb_true_iff, bool_decide_eq_false in Hf. done.
Qed.

(** C30: [json_value_deep_copy] of a well-formed value, whatever allocations fail:
    the original is still there, and the result is NULL with nothing left
    behind, only when an allocation failed, or a well-formed tree in new memory
    that is equal to the original for [json_value_equals]. *)
Theorem deep_copy_memory_safe par p v h' h fs : wf_value v = true → at_heap (owns par p v) h' → h' ##ₘ h →
  ∃ res h1 hc fs', json_value_deep_copy (Some p) (MkMem (h' ∪ h) fs) = Ok (res, MkMem (h1 ∪ hc ∪ h) fs') ∧
    h1 ##ₘ hc ∧ h1 ∪ hc ##ₘ h ∧ at_heap (owns par p v) h1 ∧
    match res with
    | None => hc = ∅ ∧ fs ≠ []
    | Some p' => ∃ c, at_heap (owns None p' c) hc ∧ wf_value c = true ∧ json_value_equals (Some v) (Some c) = true
    end.
Proof.
  intros Hw HP Hd. destruct (ParsonApi.deep_copy_ok v Hw) as (Ec & Hwc & Ht). set (c := ParsonApi.copy v) in *.
  pose (Φ := λ res, (owns par p v ∗ match res with
    | None => <affine> ⌜may_fail fs = true⌝
    | Some p' => owns None p' c
    end)%I : hprop).
  destruct (wp_run (may_fail fs) (owns par p v) (json_value_deep_copy (Some p)) Φ h' h fs) as (res & h2 & fs' & E & Hd2 & HΦ);
    [|exact HP|done|apply allowed_may_fail|].
  - iIntros "Hv". iApply (wp_deep_copy _ par p v). iFrame "Hv". rw Ec. cbn [copied]. iSplit.
    + iIntros (p') "$ $".
    + iIntros (Ef) "$". done.
  - destruct HΦ as (h1 & hc & -> & Hd12 & Ho & Hr). exists res, h1, hc, fs'. split_and!; [done..|]. destruct res as [p'|].
    + exists c. split_and!; [done..|]. by apply ParsonApi.trim_equals.
    + destruct Hr as [Hh Hf]. change (hc = ∅) in Hh. split; [done|].
      apply negb_true_iff, bool_decide_eq_false in Hf. done.
Qed.

(** A client that makes an array, does any sequence of appends, replacements,
    removals and clearings with any arguments, and frees it: whatever
    allocations fail there is no fault, and the memory is afterwards as it was
    before; without failures every call returns the status of the functional
    model. *)
Theorem array_client_balanced cs h fs :
  ∃ sts fs', array_client cs (MkMem h fs) = Ok (sts, MkMem h fs') ∧
    (fs = [] → sts = pure_calls Parson.json_array_init cs).
Proof.
  destruct (wp_run (may_fail fs) emp%I (array_client cs)
    (λ sts, <affine> ⌜may_fail fs = false → sts = pure_calls Parson.json_array_init cs⌝)%I ∅ h fs)
    as (sts & h2 & fs' & E & _ & Hh & Hs); [|done|apply map_disjoint_empty_l|apply allowed_may_fail|].
  - iIntros "_". iApply wp_array_client. iIntros (sts H). by iPureIntro.
  - change (h2 = ∅) in Hh. subst h2. rw !(left_id_L ∅ (∪)) in E. exists sts, fs'. split; [done|].
    intros ->. by apply Hs.
Qed.

(** ** Where the API loses memory *)

(** [json_object_set_value] takes any value without a parent, also the one
    the object belongs to: the tree becomes a cycle and [json_value_free] of it
    frees a block twice. *)
Theorem cyclic_insertion :
  (root ← json_value_init_object;
   object ← json_value_get_object root;
   json_object_set_value object (bs "self") root) (MkMem ∅ []) = Ok (JSONSuccess, MkMem
     {[1%positive := BValue (Some 1%positive) (PObject (Some 2%positive));
       2%positive := BObject (Some 1%positive) (Some 3%positive) (Some 4%positive) 1 16;
       3%positive := BPtrs (Some (Some 5%positive) :: replicate 15 None);
       4%positive := BPtrs (Some (Some 1%positive) :: replicate 15 None);
       5%positive := BChars 5 (Some (bs "self"))]} []) ∧
  (root ← json_value_init_object;
   object ← json_value_get_object root;
   _ ← json_object_set_value object (bs "self") root;
   json_value_free root) (MkMem ∅ []) = UB Dangling.
Proof. split; vm_compute; reflexivity. Qed.

(** The value made for [json_object_set_string] is lost when the name cannot be
    copied: freeing the object leaves its two blocks. *)
Theorem set_string_leak :
  (root ← json_value_init_object;
   object ← json_value_get_object root;
   st ← json_object_set_string object (bs "k") (Some (bs "v"));
   _ ← json_value_free root;
   mret st) (MkMem ∅ [false; false; false; false; false; false; true]) = Ok (JSONFailure, MkMem
     {[4%positive := BValue None (PString (Some 3%positive)); 3%positive := BChars 2 (Some (bs "v"))]} []).
Proof. vm_compute. reflexivity. Qed.

(** ** Instances *)

(** An empty object and a null. *)
Definition object_heap : gmap addr block :=
  {[2%positive := BObject (Some 1%positive) None None 0 0]} ∪ {[3%positive := BValue None PNull]}.
Lemma object_heap_owned : at_heap (owns_object 1 2 Parson.json_object_init ∗ owns None 3 JSONNull)%I object_heap.
Proof.
  assert (2%positive ↦ BObject (Some 1%positive) None None 0 0 ⊢ owns_object 1 2 Parson.json_object_init) as [H].
  { iIntros "H". iExists None, None, [], []. cbn. by iFrame. }
  eexists _, _. split_and!; [done|by apply map_disjoint_singleton_l|by apply H|done].
Qed.
Lemma object_heap_alone : object_heap ##ₘ {[7%positive := BChars 1 None]}.
Proof. by apply map_disjoint_singleton_r. Qed.

Lemma set_value_memory_safe_witness : ∃ st h2 fs',
  json_object_set_value (Some 2%positive) (bs "k") (Some 3%positive)
    (MkMem (object_heap ∪ {[7%positive := BChars 1 None]}) [false; true]) =
  Ok (st, MkMem (h2 ∪ {[7%positive := BChars 1 None]}) fs') ∧ h2 ##ₘ {[7%positive := BChars 1 None]}.
Proof.
  destruct (set_value_memory_safe 1 2 Parson.json_object_init (bs "k") 3 JSONNull object_heap
    {[7%positive := BChars 1 None]} [false; true] object_heap_owned object_heap_alone) as (st & h2 & fs' & E & Hd & _).
  by exists st, h2, fs'.
Defined.

Lemma deep_copy_memory_safe_witness : ∃ res h1 hc fs',
  json_value_deep_copy (Some 1%positive) (MkMem (sample_heap ∪ {[7%positive := BChars 1 None]}) [false; true]) =
  Ok (res, MkMem (h1 ∪ hc ∪ {[7%positive := BChars 1 None]}) fs') ∧ at_heap (owns None 1 (JSONString (bs "hi"))) h1.
Proof.
  destruct (deep_copy_memory_safe None 1 (JSONString (bs "hi")) sample_heap {[7%positive := BChars 1 None]} [false; true]
    eq_refl sample_owned sample_alone) as (res & h1 & hc & fs' & E & _ & _ & Ho & _).
  by exists res, h1, hc, fs'.
Defined.
End ParsonHeapApiProofs.
