(* ===== verification/EccCrypto.v ===== *)
(** * Chaincode enclave cryptography (src/ecc_enclave/enclave/crypto.cpp)

    Integrity tags of state values and encryption of the state. A cipher
    buffer is laid out as IV, tag, ciphertext. *)
From S2P Require Import Prelude Utils Sgx.
Import Utils Sgx.

Module EccCrypto.

Section ops.
Context {C : Crypto}.

(** 0 when the tag matches, -1 otherwise; the nonce is not used. *)
Definition check_cmac (key state_hash cmac_key cmac : bytes) : Z :=
  if bool_decide (cmac128 cmac_key (cstr key ++ state_hash) = cmac) then 0 else (-1).

(** [cipher] is the output buffer of [cipher_len] bytes; [iv] what
    [sgx_read_rand] yields. The status and the buffer. *)
Definition encrypt_state (key plain iv cipher : bytes) : res (Z * bytes) :=
  let needed_size := u32 (Z.of_nat (length plain) + 12 + 16) in
  if negb (bool_decide (needed_size <= Z.of_nat (length cipher))%Z) then UB AssertFailed
  else
    c1 ← store cipher 0 iv;
    let '(status, (ct, tag)) := gcm_encrypt key iv plain in
    c2 ← store c1 (SGX_AESGCM_IV_SIZE + SGX_AESGCM_MAC_SIZE) ct;
    c3 ← store c2 SGX_AESGCM_IV_SIZE tag;
    Ok (status, c3).

(** The status and the contents of the [plain] buffer of [plain_len] bytes. *)
Definition decrypt_state (key cipher : bytes) (plain_len : Z) : res (Z * bytes) :=
  let needed_size := u32 (Z.of_nat (length cipher) - 12 - 16) in
  if negb (bool_decide (needed_size <= plain_len)%Z) then UB AssertFailed
  else
    ct ← load cipher (SGX_AESGCM_IV_SIZE + SGX_AESGCM_MAC_SIZE) (Z.to_nat plain_len);
    iv ← load cipher 0 SGX_AESGCM_IV_SIZE;
    tag ← load cipher SGX_AESGCM_IV_SIZE SGX_AESGCM_MAC_SIZE;
    Ok (gcm_decrypt key iv ct tag).

(** What an encryption stores. *)
Definition sealed (key plain iv : bytes) : bytes :=
  iv ++ (gcm_encrypt key iv plain).2.2 ++ (gcm_encrypt key iv plain).2.1.
End ops.

Section laws.
Context {C : Crypto} {L : CryptoLaws C}.

Lemma sealed_length key plain iv : length iv = 12 →
  length (sealed key plain iv) = length plain + 28.
Proof.
  intros Hiv. unfold sealed. rewrite !length_app, gcm_encrypt_length, gcm_tag_length, Hiv.
  unfold SGX_AESGCM_MAC_SIZE. lia.
Qed.

Lemma store_at (pre old data post : bytes) off : off = length pre → length old = length data →
  store (pre ++ old ++ post) off data = Ok (pre ++ data ++ post).
Proof.
  intros -> Hl. rewrite store_seq by (rewrite length_app; lia).
  by rewrite <-Hl, drop_app_length, app_assoc.
Qed.

Lemma load_at (pre data post : bytes) off n : off = length pre → n = length data →
  load (pre ++ data ++ post) off n = Ok data.
Proof.
  intros -> ->. unfold load. rewrite bool_decide_true by (rewrite !length_app; lia).
  by rewrite drop_app_length, take_app_length.
Qed.

Lemma split_3 (l : bytes) a b : a + b <= length l →
  ∃ x y z, l = x ++ y ++ z ∧ length x = a ∧ length y = b.
Proof.
  intros Hl. exists (take a l), (take b (drop a l)), (drop b (drop a l)).
  rewrite !take_drop, !length_take, length_drop. split_and!; [done|lia..].
Qed.

(** Encrypting into a buffer of the exact size fills it. *)
Lemma encrypt_state_sealed key plain iv cipher : length iv = 12 →
  length cipher = length plain + 28 → (Z.of_nat (length cipher) < 2 ^ 32)%Z →
  encrypt_state key plain iv cipher = Ok (SGX_SUCCESS, sealed key plain iv).
Proof.
  intros Hiv Hc Hb. unfold encrypt_state, sealed.
  rewrite bool_decide_true by (unfold u32; rewrite Z.mod_small; lia). cbn [negb].
  pose proof (gcm_encrypt_ok key iv plain) as Hok.
  pose proof (gcm_encrypt_length key iv plain) as Hct.
  pose proof (gcm_tag_length key iv plain) as Htg.
  destruct (gcm_encrypt key iv plain) as [st [ct tag]]. cbn [fst snd] in *. subst st.
  destruct (split_3 cipher 12 16) as (x & y & z & -> & Hx & Hy); [lia|].
  pose proof (store_at [] x iv (y ++ z) 0 eq_refl ltac:(lia)) as E1. cbn [app] in E1.
  rewrite E1. cbn [mbind res_bind].
  rewrite !length_app in Hc. replace (iv ++ y ++ z) with ((iv ++ y) ++ z ++ [])
    by (by rewrite app_nil_r, <-app_assoc).
  rewrite (store_at (iv ++ y) z ct []);
    [|rewrite length_app; unfold SGX_AESGCM_IV_SIZE, SGX_AESGCM_MAC_SIZE; lia|lia].
  cbn [mbind res_bind]. rewrite app_nil_r, <-app_assoc.
  rewrite (store_at iv y tag ct) by (unfold SGX_AESGCM_IV_SIZE, SGX_AESGCM_MAC_SIZE in *; lia). done.
Qed.

Lemma decrypt_state_sealed key plain iv : length iv = 12 →
  (Z.of_nat (length plain) + 28 < 2 ^ 32)%Z →
  decrypt_state key (sealed key plain iv) (Z.of_nat (length plain)) = Ok (SGX_SUCCESS, plain).
Proof.
  intros Hiv Hb. unfold decrypt_state. rewrite sealed_length by done.
  rewrite bool_decide_true by (unfold u32; rewrite Z.mod_small; lia). cbn [negb]. unfold sealed.
  pose proof (gcm_roundtrip key iv plain) as Hrt.
  pose proof (gcm_encrypt_length key iv plain) as Hct.
  pose proof (gcm_tag_length key iv plain) as Htg.
  destruct (gcm_encrypt key iv plain) as [st [ct tag]]. cbn [fst snd] in *.
  rewrite Nat2Z.id.
  unfold SGX_AESGCM_IV_SIZE, SGX_AESGCM_MAC_SIZE in *. change (12 + 16) with 28.
  pose proof (load_at (iv ++ tag) ct [] 28 (length plain)) as E0.
  rewrite app_nil_r, <-app_assoc, length_app in E0. rewrite E0 by lia. cbn [mbind res_bind].
  pose proof (load_at [] iv (tag ++ ct) 0 12 eq_refl ltac:(lia)) as E1. cbn [app] in E1.
  rewrite E1. cbn [mbind res_bind]. rewrite load_at by lia. cbn [mbind res_bind]. by rewrite Hrt.
Qed.

(** A state value encrypted by [encrypt_state] into a buffer of
    [plain_len + 28] bytes decrypts to itself; neither call leaves its buffer
    or fails its assertion. *)
Theorem state_encryption_roundtrip key plain n cipher :
  length cipher = length plain + 28 → (Z.of_nat (length cipher) < 2 ^ 32)%Z →
  ∃ c, encrypt_state key plain (rand_iv n) cipher = Ok (SGX_SUCCESS, c) ∧
       length c = length cipher ∧
       decrypt_state key c (Z.of_nat (length plain)) = Ok (SGX_SUCCESS, plain).
Proof.
  intros Hc Hb. pose proof (rand_iv_length n) as Hiv.
  exists (sealed key plain (rand_iv n)). rewrite encrypt_state_sealed by done.
  split_and!; [done| |apply decrypt_state_sealed; [done|lia]]. by rewrite sealed_length.
Qed.
End laws.

#[local] Existing Instances Toy.toy_crypto Toy.toy_laws.

Lemma state_encryption_roundtrip_witness :
  ∃ c, encrypt_state (repeat x01 16) (bs "secret") (rand_iv 0) (repeat x00 34)
         = Ok (SGX_SUCCESS, c) ∧
       length c = length (repeat x00 34) ∧
       decrypt_state (repeat x01 16) c (Z.of_nat (length (bs "secret"))) = Ok (SGX_SUCCESS, bs "secret").
Proof. apply state_encryption_roundtrip; vm_compute; reflexivity. Defined.
End EccCrypto.
