(* ===== verification/Shim.v ===== *)
(** * The chaincode shim (src/ecc_enclave/enclave/shim.cpp)

    State access of the chaincode enclave. Every invocation owns a read set
    and a write set; [context] maps the invocation's [ctx] pointer to their
    address. The sets live on the stack of [ecall_invoke], so the model keeps
    the live ones in [sets] and a pointer to a finished invocation dangles.
    The outcome of a tag check is only logged: it is appended to [log]. *)
From S2P Require Import Prelude Utils Base64 Parson ParsonParse StdMap Sgx EccCrypto.
Import Utils Base64 Parson ParsonParse StdMap Sgx EccCrypto.

Module Shim.

Abbreviation read_set_t := (list bytes).
Abbreviation write_set_t := (list (bytes * bytes)).

(** [session_key] and [state_encryption_key] (enclave.cpp). *)
Definition session_key : bytes :=
  [x3f; xe2; x59; xdf; x62; x7f; xef; x99; x5b; x4b; x00; xde; x44; xc1; x26; x33].
Definition state_encryption_key : bytes :=
  [x6a; xb0; x46; xb3; x8d; x14; x2d; x17; x3f; x52; xf3; x9f; xda; x1d; x63; x4a].

Record shim_state (W : Type) := MkShim {
  context : gmap Z nat;
  sets : gmap nat (read_set_t * write_set_t);
  rand_count : nat;
  log : list bool;
  world : W }.
Arguments MkShim {W}.
Arguments context {W}.
Arguments sets {W}.
Arguments rand_count {W}.
Arguments log {W}.
Arguments world {W}.

(** [sizeof(json)] in [get_state_by_partial_composite_key]. *)
Definition RANGE_BUFFER_SIZE : nat := Z.to_nat 262144.

Section shim.
Context {C : Crypto} {W : Type} {P : Peer W}.
Abbreviation M := (ST (shim_state W)).

Definition set_context (f : gmap Z nat → gmap Z nat) (s : shim_state W) : shim_state W :=
  MkShim (f (context s)) (sets s) (rand_count s) (log s) (world s).
Definition set_sets (f : gmap nat (read_set_t * write_set_t) → gmap nat (read_set_t * write_set_t))
  (s : shim_state W) : shim_state W :=
  MkShim (context s) (f (sets s)) (rand_count s) (log s) (world s).
Definition add_log (b : bool) (s : shim_state W) : shim_state W :=
  MkShim (context s) (sets s) (rand_count s) (log s ++ [b]) (world s).
Definition set_world (w : W) (s : shim_state W) : shim_state W :=
  MkShim (context s) (sets s) (rand_count s) (log s) w.
Definition next_rand (s : shim_state W) : shim_state W :=
  MkShim (context s) (sets s) (S (rand_count s)) (log s) (world s).

(** [context.insert({ctx, ...})]: an existing entry stays. *)
Definition register_rwset (ctx : Z) (addr : nat) : M unit :=
  modify (set_context (λ c, match c !! ctx with Some _ => c | None => <[ctx := addr]> c end)).

Definition free_rwset (ctx : Z) : M unit := modify (set_context (delete ctx)).

(** [get_read_set] and [get_write_set]: NULL when [ctx] is not registered. *)
Definition get_rwset (ctx : Z) : M (option nat) := s ← get; mret (context s !! ctx).

(** Access through the pointer: undefined for NULL and after the sets are gone. *)
Definition update_sets (p : option nat) (f : read_set_t * write_set_t → read_set_t * write_set_t)
  : M unit :=
  addr ← lift (deref p);
  s ← get;
  match sets s !! addr with
  | None => lift (UB Dangling)
  | Some rw => modify (set_sets (insert addr (f rw)))
  end.

Definition read_set_insert (p : option nat) (key : bytes) : M unit :=
  update_sets p (λ rw, (set_insert key rw.1, rw.2)).
Definition write_set_insert (p : option nat) (key val : bytes) : M unit :=
  update_sets p (λ rw, (rw.1, map_insert key val rw.2)).

Definition ocall (f : W → answer * W) : M answer :=
  s ← get;
  let '(a, w) := f (world s) in
  _ ← put (set_world w s);
  mret a.

(** Decryption of a stored value, shared by the two getters: base64 decoding,
    the size computation with its wrap-around, [decrypt_state]. A size that
    wrapped around is that of a 4 GB array on the enclave stack. *)
Definition open_value (text : bytes) : res (Z * bytes) :=
  let cipher := b64_decode text in
  let plain_len := u32 (Z.of_nat (length cipher) - 12 - 16) in
  if bool_decide (length cipher < 28) then UB OutOfBounds
  else
    r ← decrypt_state state_encryption_key cipher plain_len;
    Ok (plain_len, r.2).

(** The buffer [val] and [*val_len] after the call. *)
Definition get_state (key : bytes) (max_val_len : nat) (ctx : Z) : M (bytes * Z) :=
  p ← get_rwset ctx;
  _ ← read_set_insert p (cstr key);
  a ← ocall (ocall_get_state (cstr key) ctx);
  let val := marshal_out max_val_len (ans_val a) in
  let val_len := u32 (ans_len a) in
  state_hash ← (if bool_decide (val_len > 0)%Z
                then m ← lift (load val 0 (Z.to_nat val_len)); mret (sha256 m)
                else mret (repeat x00 32));
  _ ← modify (add_log (bool_decide (check_cmac key state_hash session_key (ans_cmac a) = 0%Z)));
  if bool_decide (val_len = 0)%Z then mret (val, 0%Z)
  else
    text ← lift (c_string val);
    pl ← lift (open_value text);
    let '(plain_len, plain) := pl in
    val1 ← lift (store val 0 plain);
    let fill := u32 (val_len - plain_len) in
    val2 ← lift (if bool_decide (fill > 0)%Z
                 then store val1 (Z.to_nat plain_len) (repeat x00 (Z.to_nat fill)) else Ok val1);
    mret (val2, plain_len).

Definition put_state (key val : bytes) (ctx : Z) : M unit :=
  let cipher_len := u32 (Z.of_nat (length val) + 12 + 16) in
  s ← get;
  r ← lift (encrypt_state state_encryption_key val (rand_iv (rand_count s))
              (repeat x00 (Z.to_nat cipher_len)));
  _ ← modify next_rand;
  let base64 := b64_encode r.2 in
  p ← get_rwset ctx;
  _ ← write_set_insert p (cstr key) base64;
  s ← get;
  put (set_world (ocall_put_state (cstr key) base64 ctx (world s)) s).

(** The loop of [unmarshal_values]; constructing a [std::string] from NULL is
    undefined. *)
Fixpoint unmarshal_pairs (items : list JSON_Value) (values : list (bytes * bytes))
  : res (list (bytes * bytes)) :=
  match items with
  | [] => Ok values
  | item :: items' =>
      let pair := json_value_get_object (Some item) in
      key ← deref (json_object_get_string pair (bs "key"));
      value ← deref (json_object_get_string pair (bs "value"));
      unmarshal_pairs items' (map_insert (cstr key) (cstr value) values)
  end.

(** The result code and the map. *)
Definition unmarshal_values (values : list (bytes * bytes)) (json_bytes : bytes)
  : res (Z * list (bytes * bytes)) :=
  root ← json_parse_string (Some json_bytes);
  match json_value_get_array root with
  | None => Ok ((-1)%Z, values)
  | Some pairs => v ← unmarshal_pairs (arr_items pairs) values; Ok (1%Z, v)
  end.

Fixpoint unmarshal_strings (items : list JSON_Value) (argss : list bytes) : res (list bytes) :=
  match items with
  | [] => Ok argss
  | item :: items' =>
      a ← deref (json_value_get_string (Some item));
      unmarshal_strings items' (argss ++ [cstr a])
  end.

Definition unmarshal_args (argss : list bytes) (json_string : bytes) : res (Z * list bytes) :=
  root ← json_parse_string (Some json_string);
  match json_value_get_array root with
  | None => Ok ((-1)%Z, argss)
  | Some args => v ← unmarshal_strings (arr_items args) argss; Ok (1%Z, v)
  end.

(** One iteration over [values]: the hashed bytes so far and the new values. *)
Definition range_step (p : option nat) (acc : bytes * list (bytes * bytes)) (u : bytes * bytes)
  : M (bytes * list (bytes * bytes)) :=
  _ ← read_set_insert p u.1;
  pl ← lift (open_value (cstr u.2));
  mret (acc.1 ++ u.1 ++ u.2, acc.2 ++ [(u.1, pl.2)]).

(** The values by key, in the order of the map. *)
Definition get_state_by_partial_composite_key (comp_key : bytes) (ctx : Z)
  : M (list (bytes * bytes)) :=
  p ← get_rwset ctx;
  a ← ocall (ocall_get_state_by_partial_composite_key (cstr comp_key) ctx);
  json ← lift (c_string (marshal_out RANGE_BUFFER_SIZE (ans_val a)));
  r ← lift (unmarshal_values [] json);
  h ← st_fold (range_step p) ([], []) r.2;
  _ ← modify (add_log (bool_decide (check_cmac comp_key (sha256 h.1) session_key (ans_cmac a) = 0%Z)));
  mret h.2.
End shim.

(** ** What the operations do *)

Section laws.
Context {C : Crypto} {L : CryptoLaws C} {W : Type} {P : Peer W}.
Implicit Types (s : shim_state W) (key plain iv : bytes) (ctx : Z).

(** The text stored for a plaintext. *)
Definition stored (plain iv : bytes) : bytes := b64_encode (sealed state_encryption_key plain iv).

Lemma open_stored plain iv : length iv = 12 → (Z.of_nat (length plain) + 28 < 2 ^ 32)%Z →
  open_value (stored plain iv) = Ok (Z.of_nat (length plain), plain).
Proof.
  intros Hiv Hl. unfold open_value, stored. rewrite b64_roundtrip, sealed_length by done.
  rewrite bool_decide_false by lia.
  replace (u32 _) with (Z.of_nat (length plain)) by (unfold u32; rewrite Z.mod_small; lia).
  by rewrite decrypt_state_sealed.
Qed.

Lemma stored_longer plain iv : length iv = 12 →
  length plain + 28 <= length (stored plain iv).
Proof.
  intros Hiv. pose proof (b64_encode_length (sealed state_encryption_key plain iv)) as H.
  rewrite sealed_length in H by done. unfold stored. apply Nat2Z.inj_le. rewrite H. zdm.
Qed.

Lemma stored_nul_free plain iv : nul_free (stored plain iv).
Proof. apply b64_encode_nul_free. Qed.

(** The state after [key] was read by the invocation whose sets are at [addr]. *)
Definition after_read (key : bytes) (addr : nat) (rw : read_set_t * write_set_t) (w : W) (checked : bool)
  (s : shim_state W) : shim_state W :=
  add_log checked (set_world w (set_sets (insert addr (set_insert key rw.1, rw.2)) s)).

(** The state after [key] was written. *)
Definition after_write (key : bytes) (addr : nat) (rw : read_set_t * write_set_t) (val : bytes) (ctx : Z)
  (s : shim_state W) : shim_state W :=
  set_world (ocall_put_state key val ctx (world s))
    (set_sets (insert addr (rw.1, map_insert key val rw.2)) (next_rand s)).

(** An invocation in progress: its sets are registered and alive. *)
Record active (ctx : Z) (addr : nat) (rw : read_set_t * write_set_t) (s : shim_state W) : Prop := {
  active_ctx : context s !! ctx = Some addr;
  active_sets : sets s !! addr = Some rw }.

Lemma active_after_read ctx addr rw key w b s : active ctx addr rw s →
  active ctx addr (set_insert key rw.1, rw.2) (after_read key addr rw w b s).
Proof. intros []. split; [done|]. cbn. apply lookup_insert_eq. Qed.

Lemma active_after_write ctx addr rw key val s : active ctx addr rw s →
  active ctx addr (rw.1, map_insert key val rw.2) (after_write key addr rw val ctx s).
Proof. intros []. split; [done|]. cbn. apply lookup_insert_eq. Qed.

Lemma store_prefix (old new rest : bytes) : length old = length new →
  store (old ++ rest) 0 new = Ok (new ++ rest).
Proof. intros E. apply (store_at [] old new rest 0 eq_refl E). Qed.

(** The buffer after the decrypted value replaced the stored text. *)
Lemma replace_value plain (text : bytes) max : length plain < length text → length text < max →
  (val1 ← store (marshal_out max text) 0 plain;
   store val1 (length plain) (repeat x00 (length text - length plain)))
  = Ok (plain ++ repeat x00 (max - length plain)).
Proof.
  intros H1 H2. rewrite marshal_out_fits by lia. remember (length text) as n eqn:Hn.
  rewrite <-(take_drop (length plain) text), <-app_assoc.
  rewrite store_prefix by (rewrite length_take; lia). cbn [mbind res_bind].
  rewrite store_at; [|done|rewrite length_drop, repeat_length; lia].
  rewrite <-repeat_app. by replace (n - length plain + (max - n)) with (max - length plain) by lia.
Qed.

Lemma get_state_present key max ctx s addr rw a w plain iv :
  active ctx addr rw s → ocall_get_state (cstr key) ctx (world s) = (a, w) →
  ans_val a = stored plain iv → ans_len a = Z.of_nat (length (stored plain iv)) →
  length iv = 12 → length (stored plain iv) < max → (Z.of_nat max < 2 ^ 32)%Z →
  get_state key max ctx s =
    Ok ((plain ++ repeat x00 (max - length plain), Z.of_nat (length plain)),
        after_read (cstr key) addr rw w
          (bool_decide (check_cmac key (sha256 (stored plain iv)) session_key (ans_cmac a) = 0%Z)) s).
Proof.
  intros [Hctx Hset] Ha Hv Hlen Hiv Hmax Hb.
  pose proof (stored_longer plain iv Hiv) as Hlong.
  pose proof (stored_nul_free plain iv) as Hnf.
  unfold get_state, get_rwset, read_set_insert, update_sets, ocall, lift, modify, get, put,
    mbind, st_bind, mret, st_ret. rewrite Hctx. cbn [deref]. rewrite Hset. cbn.
  rewrite Ha. cbn. rewrite Hv, Hlen.
  set (t := stored plain iv) in *.
  assert (u32 (Z.of_nat (length t)) = Z.of_nat (length t)) as Hu
    by (unfold u32; rewrite Z.mod_small; lia).
  rewrite Hu, bool_decide_true by lia. rewrite Nat2Z.id.
  pose proof (load_at [] t (repeat x00 (max - length t)) 0 (length t) eq_refl eq_refl) as E.
  cbn [app] in E. rewrite marshal_out_fits, E by lia. cbn.
  rewrite bool_decide_false by lia.
  assert (c_string (t ++ repeat x00 (max - length t)) = Ok t) as ->.
  { destruct (max - length t) as [|n] eqn:En; [lia|]. by apply c_string_app. }
  assert (open_value t = Ok (Z.of_nat (length plain), plain)) as ->
    by (apply open_stored; [done|lia]). cbn.
  assert (u32 (Z.of_nat (length t) - Z.of_nat (length plain)) = Z.of_nat (length t - length plain)) as ->
    by (unfold u32; rewrite Z.mod_small; lia).
  rewrite (bool_decide_true (_ > 0)%Z) by lia. rewrite !Nat2Z.id.
  pose proof (replace_value plain t max ltac:(lia) ltac:(lia)) as Hr.
  rewrite marshal_out_fits in Hr by lia.
  destruct (store (t ++ _) 0 plain) as [v1| |]; cbn in Hr; [|done..].
  rewrite Hr. done.
Qed.

Lemma get_state_absent key max ctx s addr rw a w :
  active ctx addr rw s → ocall_get_state (cstr key) ctx (world s) = (a, w) → ans_len a = 0%Z →
  get_state key max ctx s =
    Ok ((marshal_out max (ans_val a), 0%Z),
        after_read (cstr key) addr rw w
          (bool_decide (check_cmac key (repeat x00 32) session_key (ans_cmac a) = 0%Z)) s).
Proof.
  intros [Hctx Hset] Ha Hlen.
  unfold get_state, get_rwset, read_set_insert, update_sets, ocall, lift, modify, get, put,
    mbind, st_bind, mret, st_ret. rewrite Hctx. cbn [deref]. rewrite Hset. cbn.
  rewrite Ha. cbn. rewrite Hlen. done.
Qed.

Lemma put_state_stored key val ctx s addr rw :
  active ctx addr rw s → (Z.of_nat (length val) + 28 < 2 ^ 32)%Z →
  put_state key val ctx s =
    Ok (tt, after_write (cstr key) addr rw (stored val (rand_iv (rand_count s))) ctx s).
Proof.
  intros [Hctx Hset] Hb. unfold put_state, get_rwset, write_set_insert, update_sets, lift, modify, get, put,
    mbind, st_bind, mret, st_ret.
  rewrite encrypt_state_sealed; [|apply rand_iv_length|rewrite repeat_length|rewrite repeat_length].
  - cbn. rewrite Hctx. cbn. rewrite Hset. done.
  - unfold u32. rewrite Z.mod_small; lia.
  - unfold u32. rewrite Z.mod_small; lia.
Qed.

(** Entries of a range query: key, plaintext and initialisation vector. *)
Record entry := MkEntry { e_key : bytes; e_plain : bytes; e_iv : bytes }.

Definition entry_ok (e : entry) : Prop :=
  length (e_iv e) = 12 ∧ (Z.of_nat (length (e_plain e)) + 28 < 2 ^ 32)%Z.

Definition entry_stored (e : entry) : bytes * bytes := (e_key e, stored (e_plain e) (e_iv e)).

(** The bytes hashed for a range query. *)
Definition entries_hashed (es : list entry) : bytes :=
  concat (map (λ e, e_key e ++ stored (e_plain e) (e_iv e)) es).

Definition read_all (ks : list bytes) (rs : read_set_t) : read_set_t :=
  fold_left (λ r k, set_insert k r) ks rs.

Lemma range_step_ok e ctx addr rw s acc : entry_ok e → active ctx addr rw s →
  range_step (Some addr) acc (entry_stored e) s =
  Ok ((acc.1 ++ e_key e ++ stored (e_plain e) (e_iv e), acc.2 ++ [(e_key e, e_plain e)]),
      set_sets (insert addr (set_insert (e_key e) rw.1, rw.2)) s).
Proof.
  intros [Hiv Hl] [Hctx Hset].
  unfold range_step, read_set_insert, update_sets, lift, modify, get, mbind, st_bind, mret, st_ret.
  cbn [deref]. rewrite Hset. cbn [entry_stored fst snd].
  rewrite (cstr_id (stored _ _)) by apply stored_nul_free. by rewrite open_stored.
Qed.

Lemma set_sets_twice addr x y s :
  set_sets (insert addr x) (set_sets (insert addr y) s) = set_sets (insert addr x) s.
Proof. unfold set_sets. cbn. by rewrite insert_insert_eq. Qed.

Lemma range_fold es : Forall entry_ok es → ∀ ctx addr rw s acc, active ctx addr rw s →
  st_fold (range_step (Some addr)) acc (map entry_stored es) s =
  Ok ((acc.1 ++ entries_hashed es, acc.2 ++ map (λ e, (e_key e, e_plain e)) es),
      set_sets (insert addr (read_all (map e_key es) rw.1, rw.2)) s).
Proof.
  induction 1 as [|e es He _ IH]; intros ctx addr [rs ws] s acc Ha.
  { unfold entries_hashed. cbn. rewrite !app_nil_r. destruct Ha as [_ Hset].
    unfold set_sets, mret, st_ret. rewrite insert_id by done. by destruct acc, s. }
  cbn [map st_fold]. erewrite st_bind_ok; [|by eapply range_step_ok].
  erewrite IH; [|split; [apply (active_ctx _ _ _ _ Ha)|apply lookup_insert_eq]].
  rewrite set_sets_twice. unfold entries_hashed. cbn [map concat fst snd read_all fold_left].
  rewrite <-!app_assoc. done.
Qed.

(** The state after a range query. *)
Definition after_range (ks : list bytes) (addr : nat) (rw : read_set_t * write_set_t) (w : W)
  (checked : bool) (s : shim_state W) : shim_state W :=
  add_log checked (set_sets (insert addr (read_all ks rw.1, rw.2)) (set_world w s)).

Lemma get_range_ok comp_key ctx s addr rw a w json r es :
  active ctx addr rw s →
  ocall_get_state_by_partial_composite_key (cstr comp_key) ctx (world s) = (a, w) →
  c_string (marshal_out RANGE_BUFFER_SIZE (ans_val a)) = Ok json →
  unmarshal_values [] json = Ok (r, map entry_stored es) → Forall entry_ok es →
  get_state_by_partial_composite_key comp_key ctx s =
    Ok (map (λ e, (e_key e, e_plain e)) es,
        after_range (map e_key es) addr rw w
          (bool_decide (check_cmac comp_key (sha256 (entries_hashed es)) session_key (ans_cmac a) = 0%Z)) s).
Proof.
  intros [Hctx Hset] Ha Hj Hu He. unfold get_state_by_partial_composite_key.
  erewrite st_bind_ok; [|unfold get_rwset, get, mbind, st_bind, mret, st_ret; by rewrite Hctx].
  erewrite st_bind_ok; [|unfold ocall, get, put, mbind, st_bind, mret, st_ret; by rewrite Ha].
  erewrite st_bind_ok; [|by apply lift_ok]. erewrite st_bind_ok; [|by apply lift_ok]. cbn [snd].
  erewrite st_bind_ok; [|eapply range_fold; [done|by split]]. done.
Qed.
End laws.

(** ** A concrete peer

    It answers from fixed tables with correct tags and records the writes. *)
Module ToyPeer.
#[export] Existing Instances Toy.toy_crypto Toy.toy_laws.

Record toy_world := MkToy {
  tw_state : gmap bytes bytes;
  tw_range : gmap bytes (bytes * bytes);
  tw_puts : list (bytes * bytes) }.

#[export] Instance toy_peer : Peer toy_world := {
  ocall_get_state key ctx w :=
    match tw_state w !! key with
    | Some v => (MkAnswer v (Z.of_nat (length v)) (cmac128 session_key (key ++ sha256 v)), w)
    | None => (MkAnswer [] 0 (cmac128 session_key (key ++ repeat x00 32)), w)
    end;
  ocall_put_state key val ctx w := MkToy (tw_state w) (tw_range w) (tw_puts w ++ [(key, val)]);
  ocall_get_state_by_partial_composite_key key ctx w :=
    match tw_range w !! key with
    | Some (json, hashed) =>
        (MkAnswer json (Z.of_nat (length json)) (cmac128 session_key (key ++ sha256 hashed)), w)
    | None => (MkAnswer (bs "[]") 2 (cmac128 session_key (key ++ sha256 [])), w)
    end }.

(** An invocation with empty sets on a given world. *)
Definition start (w : toy_world) : shim_state toy_world :=
  MkShim {[ 7%Z := 0 ]} {[ 0 := ([], []) ]} 0 [] w.

Lemma start_active w : active 7 0 ([], []) (start w).
Proof. by split. Qed.
End ToyPeer.
End Shim.
