(* ===== verification/AuctionJson.v ===== *)
(** * Auction data as JSON (src/ecc_enclave/enclave/auction/auction_json.cpp)

    Marshalling of the two records the auction chaincode stores, through the
    parson API. Assigning a NULL [const char *] to a [std::string] is
    [UB NullDeref]. *)
From S2P Require Import Prelude Utils Cdouble ParsonText Parson ParsonParse ParsonPrint ParsonRoundtrip.
Import Cdouble ParsonText Parson ParsonParse ParsonPrint ParsonRoundtrip.

Module AuctionJson.

Record auction_t := MkAuction { name : bytes; is_open : bool }.
Record bid_t := MkBid { bidder_name : bytes; value : Z }.

#[global] Instance auction_t_eq_dec : EqDecision auction_t.
Proof. solve_decision. Defined.
#[global] Instance bid_t_eq_dec : EqDecision bid_t.
Proof. solve_decision. Defined.

(** [json_bytes] is the C string at the pointer. *)
Definition unmarshal_auction (json_bytes : bytes) : res auction_t :=
  root ← json_parse_string (Some json_bytes);
  let o := json_value_get_object root in
  n ← deref (json_object_get_string o (bs "name"));
  Ok (MkAuction (cstr n) (negb (json_object_get_boolean o (bs "is_open") =? 0)%Z)).

(** [bid->value] is an [int], converted from a [double]. *)
Definition unmarshal_bid (json_bytes : bytes) : res bid_t :=
  root ← json_parse_string (Some json_bytes);
  let o := json_value_get_object root in
  n ← deref (json_object_get_string o (bs "bidder"));
  v ← to_int (json_object_get_number o (bs "value"));
  Ok (MkBid (cstr n) v).

(** [std::string out(serialized_string)]; the initial content of the allocated
    buffer is irrelevant, as [json_serialize_to_string] overwrites it. *)
Definition serialize_root (o : option JSON_Object) : res bytes :=
  match o with
  | None => UB NullDeref
  | Some ob => r ← json_serialize_to_string (λ _, x00) (JSONObject ob); deref r
  end.

(** The [json_object_set_*] statuses are not looked at. *)
Definition marshal_auction (the_auction : auction_t) : res bytes :=
  let root := Some json_object_init in
  let root := (json_object_set_string root (bs "name") (Some (name the_auction))).2 in
  let root := (json_object_set_boolean root (bs "is_open") (if is_open the_auction then 1 else 0)%Z).2 in
  serialize_root root.

Definition marshal_bid (bid : bid_t) : res bytes :=
  let root := Some json_object_init in
  let root := (json_object_set_string root (bs "bidder") (Some (bidder_name bid))).2 in
  let root := (json_object_set_number root (bs "value") (of_int (value bid))).2 in
  serialize_root root.

(** ** The stored text *)

Definition auction_value (a : auction_t) : JSON_Value :=
  JSONObject (MkObject [(bs "name", JSONString (name a)); (bs "is_open", JSONBoolean (is_open a))] 16).
Definition bid_value (b : bid_t) : JSON_Value :=
  JSONObject (MkObject [(bs "bidder", JSONString (bidder_name b));
                        (bs "value", JSONNumber (of_int (value b)))] 16).

Definition auction_text (a : auction_t) : bytes := json_text false 0 (auction_value a).
Definition bid_text (b : bid_t) : bytes := json_text false 0 (bid_value b).

(** A name the chaincode can store: a C string of valid UTF-8 of a length that
    keeps the text far below the [int] limit. *)
Definition good_name (n : bytes) : Prop :=
  nul_free n ∧ is_valid_utf8 n = true ∧ (Z.of_nat (length n) <= 2 ^ 20)%Z.

#[global] Instance good_name_dec n : Decision (good_name n).
Proof. unfold good_name. apply _. Defined.

Lemma escape_char_short c : length (escape_char c) <= 6.
Proof. destruct c; vm_compute; lia. Qed.

Lemma quote_length s : length (quote s) <= 6 * length (cstr s) + 2.
Proof.
  unfold quote. cbn [length]. rewrite length_app. cbn [length].
  enough (length (flat_map escape_char (cstr s)) <= 6 * length (cstr s)) by lia.
  induction (cstr s) as [|c l IH]; [done|]. cbn [flat_map length]. rewrite length_app.
  pose proof (escape_char_short c). lia.
Qed.

Lemma init_string_good n : good_name n → json_value_init_string (Some n) = Some (JSONString n).
Proof.
  intros (Hn & Hu & _). unfold json_value_init_string, parson_strndup, strlen.
  rewrite !(cstr_id n Hn), Hu. by rewrite take_ge.
Qed.

(** Any serialized object whose text is short enough. *)
Lemma serialize_root_text ob : wf_value (JSONObject ob) = true → int_numbers (JSONObject ob) →
  (len (json_text false 0 (JSONObject ob)) < INT_MAX)%Z →
  serialize_root (Some ob) = Ok (json_text false 0 (JSONObject ob)).
Proof.
  intros Hw Hi Hl. unfold serialize_root, json_serialize_to_string.
  by rewrite serialize_string_text by auto using int_numbers_fit.
Qed.

Lemma auction_value_wf a : wf_value (auction_value a) = true.
Proof. reflexivity. Qed.
Lemma of_int_finite n : (Z.abs n < 2 ^ 53)%Z → is_finite (of_int n) = true.
Proof. intros Hn. by apply (json_value_init_number_finite _ _ (init_number_int n Hn)). Qed.

Lemma bid_value_wf b : (Z.abs (value b) < 2 ^ 53)%Z → wf_value (bid_value b) = true.
Proof.
  intros Hb. apply wf_value_object. split; [simpl; lia|]. split.
  - apply (bool_decide_unpack _). vm_compute. done.
  - apply (bool_decide_unpack _). vm_compute. done.
  - repeat constructor. by apply of_int_finite.
Qed.

Lemma auction_text_eq a : auction_text a =
  bs "{" ++ quote (bs "name") ++ bs ":" ++ quote (name a) ++ bs "," ++
  quote (bs "is_open") ++ bs ":" ++ (if is_open a then bs "true" else bs "false") ++ bs "}".
Proof.
  unfold auction_text, auction_value, json_text, enclose, member. cbn [map lines andb fst snd].
  unfold line. cbn [map app]. by rewrite <-!app_assoc.
Qed.

Lemma bid_text_eq b : bid_text b =
  bs "{" ++ quote (bs "bidder") ++ bs ":" ++ quote (bidder_name b) ++ bs "," ++
  quote (bs "value") ++ bs ":" ++ fmt17g (of_int (value b)) ++ bs "}".
Proof.
  unfold bid_text, bid_value, json_text, enclose, member. cbn [map lines andb fst snd].
  unfold line. cbn [map app]. by rewrite <-!app_assoc.
Qed.

Lemma auction_text_length a : good_name (name a) → (len (auction_text a) < 2 ^ 24)%Z.
Proof.
  intros (Hn & _ & Hl). pose proof (quote_length (name a)) as H. rewrite (cstr_id _ Hn) in H.
  rewrite auction_text_eq, !len_app. unfold len.
  change (length (quote (bs "name"))) with 6. change (length (quote (bs "is_open"))) with 9.
  destruct (is_open a); simpl (length (bs _)); lia.
Qed.

Lemma bid_text_length b : good_name (bidder_name b) → (Z.abs (value b) < 2 ^ 53)%Z →
  (len (bid_text b) < 2 ^ 24)%Z.
Proof.
  intros (Hn & _ & Hl) Hv. pose proof (quote_length (bidder_name b)) as H. rewrite (cstr_id _ Hn) in H.
  pose proof (int_text_short _ Hv) as Hs. rewrite <-fmt17g_int in Hs by done.
  rewrite bid_text_eq, !len_app. unfold len, NUM_BUF_SIZE in *.
  change (length (quote (bs "bidder"))) with 8. change (length (quote (bs "value"))) with 7.
  simpl (length (bs _)). lia.
Qed.

Lemma bid_numbers b : (Z.abs (value b) < 2 ^ 53)%Z → int_numbers (bid_value b).
Proof. intros. repeat constructor. by eexists. Qed.

Lemma auction_numbers a : int_numbers (auction_value a).
Proof. constructor. Qed.

Definition int_range (n : Z) : Prop := (INT_MIN <= n <= INT_MAX)%Z.

Lemma int_range_double n : int_range n → (Z.abs n < 2 ^ 53)%Z.
Proof. unfold int_range, INT_MIN, INT_MAX. lia. Qed.

Lemma marshal_auction_text a : good_name (name a) → marshal_auction a = Ok (auction_text a).
Proof.
  intros Hn. unfold marshal_auction, json_object_set_string.
  rewrite init_string_good by done.
  transitivity (serialize_root (Some (MkObject [(bs "name", JSONString (name a));
    (bs "is_open", JSONBoolean (is_open a))] 16))); [by destruct a as [n []]|].
  apply serialize_root_text; [done|apply auction_numbers|].
  pose proof (auction_text_length a Hn). unfold auction_text, auction_value, INT_MAX in *. lia.
Qed.

Lemma marshal_bid_text b : good_name (bidder_name b) → int_range (value b) →
  marshal_bid b = Ok (bid_text b).
Proof.
  intros Hn Hv%int_range_double. unfold marshal_bid, json_object_set_string, json_object_set_number.
  rewrite init_string_good, init_number_int by done.
  transitivity (serialize_root (Some (MkObject [(bs "bidder", JSONString (bidder_name b));
    (bs "value", JSONNumber (of_int (value b)))] 16))); [done|].
  apply serialize_root_text; [by apply bid_value_wf|by apply bid_numbers|].
  pose proof (bid_text_length b Hn Hv). unfold bid_text, bid_value, INT_MAX in *. lia.
Qed.

Lemma unmarshal_auction_text a : good_name (name a) → unmarshal_auction (auction_text a) = Ok a.
Proof.
  intros (Hn & _ & _). unfold unmarshal_auction, auction_text.
  rewrite parse_text_roundtrip; [|done|apply auction_numbers|vm_compute; lia].
  transitivity (Ok (MkAuction (cstr (cstr (name a)))
    (negb ((if is_open a then 1 else 0) =? 0)%Z))); [done|].
  rewrite !(cstr_id (name a)) by done. by destruct a as [n []].
Qed.

Lemma unmarshal_bid_text b : good_name (bidder_name b) → int_range (value b) →
  unmarshal_bid (bid_text b) = Ok b.
Proof.
  intros (Hn & _ & _) Hv. pose proof (int_range_double _ Hv) as Hd.
  unfold unmarshal_bid, bid_text.
  rewrite parse_text_roundtrip; [|by apply bid_value_wf|by apply bid_numbers|vm_compute; lia].
  transitivity (v ← to_int (of_int (value b)); Ok (MkBid (cstr (cstr (bidder_name b))) v)); [done|].
  rewrite !(cstr_id (bidder_name b)) by done. rewrite int_of_double by done. by destruct b.
Qed.

(** An auction record that was marshalled is unmarshalled unchanged. *)
Theorem marshal_auction_roundtrip a : good_name (name a) →
  ∃ json, marshal_auction a = Ok json ∧ unmarshal_auction json = Ok a.
Proof. intros Hn. exists (auction_text a). by rewrite marshal_auction_text, unmarshal_auction_text. Qed.

Lemma marshal_auction_roundtrip_witness :
  ∃ json, marshal_auction (MkAuction (bs "MyAuction") false) = Ok json ∧
          unmarshal_auction json = Ok (MkAuction (bs "MyAuction") false).
Proof. apply marshal_auction_roundtrip. apply (bool_decide_unpack _). vm_compute. exact I. Defined.

(** A bid that was marshalled is unmarshalled unchanged, for every [int]. *)
Theorem marshal_bid_roundtrip b : good_name (bidder_name b) → int_range (value b) →
  ∃ json, marshal_bid b = Ok json ∧ unmarshal_bid json = Ok b.
Proof. intros Hn Hv. exists (bid_text b). by rewrite marshal_bid_text, unmarshal_bid_text. Qed.

Lemma marshal_bid_roundtrip_witness :
  ∃ json, marshal_bid (MkBid (bs "Alice") (-5)) = Ok json ∧ unmarshal_bid json = Ok (MkBid (bs "Alice") (-5)).
Proof.
  apply marshal_bid_roundtrip; [apply (bool_decide_unpack _); vm_compute; exact I|].
  split; discriminate.
Defined.
End AuctionJson.
