(* ===== verification/Auction.v ===== *)
(** * The auction chaincode (src/ecc_enclave/enclave/auction/auction_cc.cpp)

    The functions of the chaincode over the shim, and [invoke], which parses
    the arguments and dispatches. Results are the response strings. *)
From S2P Require Import Prelude Utils Base64 Cdouble ParsonText Parson ParsonParse ParsonPrint.
From S2P Require Import ParsonRoundtrip StdMap Sgx EccCrypto Shim AuctionJson.
Import Utils Base64 Cdouble Parson ParsonParse ParsonPrint ParsonRoundtrip StdMap Sgx EccCrypto Shim
  AuctionJson.

Module Auction.

Definition MAX_VALUE_SIZE : nat := Z.to_nat 1024.

Definition OK : bytes := bs "OK".
Definition AUCTION_DRAW : bytes := bs "DRAW".
Definition AUCTION_NO_BIDS : bytes := bs "NO_BIDS".
Definition AUCTION_ALREADY_EXISTS : bytes := bs "AUCTION_ALREADY_EXISTS".
Definition AUCTION_ALREADY_CLOSED : bytes := bs "AUCTION_ALREADY_CLOSED".

Definition SEP : bytes := bs ".".
Definition PREFIX : bytes := SEP ++ bs "somePrefix" ++ SEP.

(** The key of a bid and the prefix of the bids of an auction. *)
Definition bid_key (auction_name bidder_name : bytes) : bytes :=
  PREFIX ++ auction_name ++ SEP ++ bidder_name ++ SEP.
Definition bid_composite_key (auction_name : bytes) : bytes := PREFIX ++ auction_name ++ SEP.

(** The locals of the search loop of [auction_eval]. *)
Record search := MkSearch { winner : option bid_t; high : Z; draw : Z }.

Definition search_init : search := MkSearch None (-1) 0.

Definition search_step (st : search) (b : bid_t) : search :=
  if bool_decide (value b > high st)%Z then MkSearch (Some b) (value b) 0
  else if bool_decide (value b = high st)%Z then MkSearch (winner st) (high st) 1
  else st.

(** The loop over [values], which unmarshals each bid. *)
Fixpoint search_loop (values : list (bytes * bytes)) (st : search) : res search :=
  match values with
  | [] => Ok st
  | u :: values' => b ← unmarshal_bid (cstr u.2); search_loop values' (search_step st b)
  end.

(** [winner] is only assigned in the loop. *)
Definition eval_result (st : search) : res bytes :=
  if bool_decide (draw st ≠ 1)%Z
  then match winner st with None => UB Uninitialised | Some w => marshal_bid w end
  else Ok AUCTION_DRAW.

(** [std::stoi]: leading white space, a sign, digits; an exception when there
    are none or the value does not fit in an [int]. *)
Definition stoi (s : bytes) : res Z :=
  let '(neg, t) := match skip_spaces s with
                   | x2d :: t => (true, t)
                   | x2b :: t => (false, t)
                   | t => (false, t)
                   end in
  match scan_digits t 0 0 with
  | (_, O, _) => UB Uncaught
  | (v, _, _) =>
      let r := (if neg then - v else v)%Z in
      if bool_decide (INT_MIN <= r <= INT_MAX)%Z then Ok r else UB Uncaught
  end.

(** The end of [invoke]: the result is copied out when it fits. *)
Definition respond (max_response_len : Z) (result : bytes) : Z * bytes :=
  let neededSize := Z.of_nat (length result) in
  if bool_decide (max_response_len < neededSize)%Z then ((-1)%Z, []) else (0%Z, result).

Section chaincode.
Context {C : Crypto} {W : Type} {P : Peer W}.
Abbreviation M := (ST (shim_state W)).

Definition auction_create (auction_name : bytes) (ctx : Z) : M bytes :=
  r ← get_state (cstr auction_name) MAX_VALUE_SIZE ctx;
  if bool_decide (r.2 > 0)%Z then mret AUCTION_ALREADY_EXISTS
  else
    json ← lift (marshal_auction (MkAuction (cstr auction_name) true));
    _ ← put_state (cstr auction_name) json ctx;
    mret OK.

Definition auction_submit (auction_name bidder_name : bytes) (value : Z) (ctx : Z) : M bytes :=
  r ← get_state (cstr auction_name) MAX_VALUE_SIZE ctx;
  if bool_decide (r.2 = 0)%Z then mret AUCTION_ALREADY_EXISTS
  else
    text ← lift (c_string r.1);
    the_auction ← lift (unmarshal_auction text);
    if negb (is_open the_auction) then mret AUCTION_ALREADY_CLOSED
    else
      json ← lift (marshal_bid (MkBid bidder_name value));
      _ ← put_state (cstr (bid_key auction_name bidder_name)) json ctx;
      mret OK.

Definition auction_close (auction_name : bytes) (ctx : Z) : M bytes :=
  r ← get_state (cstr auction_name) MAX_VALUE_SIZE ctx;
  if bool_decide (r.2 = 0)%Z then mret AUCTION_ALREADY_EXISTS
  else
    text ← lift (c_string r.1);
    the_auction ← lift (unmarshal_auction text);
    if negb (is_open the_auction) then mret AUCTION_ALREADY_CLOSED
    else
      json ← lift (marshal_auction (MkAuction (name the_auction) false));
      _ ← put_state (cstr auction_name) json ctx;
      mret OK.

Definition auction_eval (auction_name : bytes) (ctx : Z) : M bytes :=
  r ← get_state (cstr auction_name) MAX_VALUE_SIZE ctx;
  if bool_decide (r.2 = 0)%Z then mret AUCTION_ALREADY_EXISTS
  else
    text ← lift (c_string r.1);
    the_auction ← lift (unmarshal_auction text);
    if is_open the_auction then mret AUCTION_ALREADY_CLOSED
    else
      values ← get_state_by_partial_composite_key (cstr (bid_composite_key auction_name)) ctx;
      match values with
      | [] => mret AUCTION_NO_BIDS
      | _ =>
          st ← lift (search_loop values search_init);
          lift (eval_result st)
      end.

(** The result code, and the response of [*actual_response_len] bytes. *)
Definition invoke (args : bytes) (max_response_len : Z) (ctx : Z) : M (Z * bytes) :=
  r ← lift (unmarshal_args [] args);
  let argss := r.2 in
  function_name ← lift (read_at argss 0);
  auction_name ← lift (read_at argss 1);
  result ←
    (if bool_decide (function_name = bs "create") then auction_create auction_name ctx
     else if bool_decide (function_name = bs "submit") then
       bidder_name ← lift (read_at argss 2);
       arg3 ← lift (read_at argss 3);
       value ← lift (stoi arg3);
       auction_submit auction_name bidder_name value ctx
     else if bool_decide (function_name = bs "close") then auction_close auction_name ctx
     else if bool_decide (function_name = bs "eval") then auction_eval auction_name ctx
     else mret []);
  mret (respond max_response_len result).
End chaincode.
End Auction.
