(* ===== verification/AuctionSpec.v ===== *)
(** * What the auction chaincode promises

    An abstract specification of the auction calls on the plaintext records,
    the theorem that the chaincode over the shim implements it, the winner rule
    of [auction_eval], and the life cycle of an auction as a step relation over
    the committed records. *)
From S2P Require Import Prelude Utils Base64 Cdouble ParsonText Parson ParsonParse ParsonPrint.
From S2P Require Import ParsonRoundtrip StdMap Sgx EccCrypto Shim AuctionJson Auction.
Import Utils Base64 Cdouble Parson ParsonParse ParsonPrint ParsonRoundtrip StdMap Sgx EccCrypto Shim
  AuctionJson Auction.

Module AuctionSpec.

(** ** Abstract calls *)

Inductive call :=
  | Create (auction : bytes)
  | Submit (auction bidder : bytes) (amount : Z)
  | Close (auction : bytes).

Definition call_auction (c : call) : bytes :=
  match c with Create n | Submit n _ _ | Close n => n end.

(** The response and the record written, from the current auction record. *)
Definition call_spec (c : call) (cur : option auction_t) : bytes * option (bytes * bytes) :=
  match c, cur with
  | Create n, None => (OK, Some (n, auction_text (MkAuction n true)))
  | Create n, Some _ => (AUCTION_ALREADY_EXISTS, None)
  | Submit n b v, None | Submit n b v, Some (MkAuction _ false) =>
      (match cur with None => AUCTION_ALREADY_EXISTS | _ => AUCTION_ALREADY_CLOSED end, None)
  | Submit n b v, Some (MkAuction _ true) => (OK, Some (bid_key n b, bid_text (MkBid b v)))
  | Close n, None => (AUCTION_ALREADY_EXISTS, None)
  | Close n, Some (MkAuction _ false) => (AUCTION_ALREADY_CLOSED, None)
  | Close n, Some (MkAuction m true) => (OK, Some (n, auction_text (MkAuction m false)))
  end.

(** Well-formed calls: names the records can hold, amounts that are [int]s. *)
Definition call_ok (c : call) : Prop :=
  match c with
  | Create n | Close n => good_name n
  | Submit n b v => good_name n ∧ good_name b ∧ int_range v
  end.

#[global] Instance int_range_dec v : Decision (int_range v).
Proof. unfold int_range. apply _. Defined.
#[global] Instance call_ok_dec c : Decision (call_ok c).
Proof. destruct c; simpl; apply _. Defined.

Section refinement.
Context {C : Crypto} {L : CryptoLaws C} {W : Type} {P : Peer W}.
Implicit Types (s : shim_state W) (ctx : Z) (n : bytes).

Definition run_call (c : call) (ctx : Z) : ST (shim_state W) bytes :=
  match c with
  | Create n => auction_create n ctx
  | Submit n b v => auction_submit n b v ctx
  | Close n => auction_close n ctx
  end.

(** The peer's answer for the key [n] is the encrypted auction record, or
    nothing; [w] is the peer's state afterwards and [checked] the outcome of
    the tag check. *)
Definition holds (n : bytes) (cur : option auction_t) (ctx : Z) (s : shim_state W) (w : W)
  (checked : bool) : Prop :=
  ∃ a, ocall_get_state n ctx (world s) = (a, w) ∧
    match cur with
    | None => ans_len a = 0%Z ∧
        checked = bool_decide (check_cmac n (repeat x00 32) session_key (ans_cmac a) = 0%Z)
    | Some au => good_name (name au) ∧ ∃ iv,
        let text := stored (auction_text au) iv in
        length iv = 12 ∧ ans_val a = text ∧ ans_len a = Z.of_nat (length text) ∧
        length text < MAX_VALUE_SIZE ∧
        checked = bool_decide (check_cmac n (sha256 text) session_key (ans_cmac a) = 0%Z)
    end.

(** Reading the record of an auction. *)
Lemma get_auction n cur ctx s w b addr rw : nul_free n → active ctx addr rw s →
  holds n cur ctx s w b →
  ∃ buf m, get_state n MAX_VALUE_SIZE ctx s = Ok ((buf, m), after_read n addr rw w b s) ∧
    match cur with
    | None => m = 0%Z
    | Some au => (0 < m)%Z ∧ ∃ text, c_string buf = Ok text ∧ unmarshal_auction text = Ok au
    end.
Proof.
  intros Hn Ha (a & Hoc & H). destruct cur as [au|].
  - destruct H as (Hg & iv & Hiv & Hv & Hl & Hm & ->).
    assert (nul_free (auction_text au)) as Hnf by apply json_text_nul_free.
    eexists _, _. split.
    + rewrite <-(cstr_id n Hn) at 2. eapply get_state_present; try done. by rewrite cstr_id.
    + split; [by rewrite auction_text_eq|]. exists (auction_text au).
      split; [|by apply unmarshal_auction_text].
      pose proof (stored_longer (auction_text au) iv Hiv).
      destruct (MAX_VALUE_SIZE - length (auction_text au)) as [|k] eqn:E; [lia|].
      by apply c_string_app.
  - destruct H as [Hl ->]. exists (marshal_out MAX_VALUE_SIZE (ans_val a)), 0%Z. split; [|done].
    rewrite <-(cstr_id n Hn) at 2. eapply get_state_absent; [done| |done]. by rewrite cstr_id.
Qed.

(** The state after a call: the auction record was read, and what the
    specification writes is encrypted under a fresh vector and written. *)
Definition after_call (n : bytes) (wr : option (bytes * bytes)) (addr : nat)
  (rw : read_set_t * write_set_t) (w : W) (b : bool) (ctx : Z) (s : shim_state W) : shim_state W :=
  let s1 := after_read n addr rw w b s in
  match wr with
  | None => s1
  | Some (k, plain) =>
      after_write k addr (set_insert n rw.1, rw.2) (stored plain (rand_iv (rand_count s))) ctx s1
  end.

Lemma put_record key plain n addr rw w b ctx s : nul_free key → active ctx addr rw s →
  (len plain < 2 ^ 24)%Z →
  put_state key plain ctx (after_read n addr rw w b s) =
  Ok (tt, after_call n (Some (key, plain)) addr rw w b ctx s).
Proof.
  intros Hk Ha Hl. unfold len in Hl.
  rewrite (put_state_stored key plain ctx _ addr (set_insert n rw.1, rw.2));
    [by rewrite cstr_id|by apply active_after_read|lia].
Qed.

Lemma bid_key_nul_free n b : nul_free n → nul_free b → nul_free (bid_key n b).
Proof.
  intros. unfold bid_key, PREFIX, SEP. repeat (apply nul_free_app; split); try done; forall_list.
Qed.

Lemma call_refines c cur ctx s w b addr rw :
  call_ok c → active ctx addr rw s → holds (call_auction c) cur ctx s w b →
  run_call c ctx s =
  Ok ((call_spec c cur).1, after_call (call_auction c) (call_spec c cur).2 addr rw w b ctx s).
Proof.
  intros Hc Ha Hh.
  assert (good_name (call_auction c)) as Hgn by (by destruct c; simpl in *; destruct_and?).
  pose proof (proj1 Hgn) as Hn.
  destruct (get_auction _ _ _ _ _ _ _ _ Hn Ha Hh) as (buf & m & Hget & Hm).
  destruct c as [n|n bd v|n]; cbn [run_call call_auction] in *;
    unfold auction_create, auction_submit, auction_close; rewrite (cstr_id n Hn).
  - erewrite st_bind_ok by exact Hget. cbn [fst snd]. destruct cur as [au|].
    + by rewrite bool_decide_true by (destruct Hm; lia).
    + subst m. rewrite bool_decide_false by lia.
      erewrite st_bind_ok; [|by apply lift_ok, marshal_auction_text].
      erewrite st_bind_ok; [|by apply put_record; [..|apply auction_text_length]]. done.
  - destruct Hc as (_ & Hb & Hv). erewrite st_bind_ok by exact Hget. cbn [fst snd].
    destruct cur as [au|]; [|by rewrite bool_decide_true].
    destruct Hm as (Hpos & text & Ht & Hu). rewrite bool_decide_false by lia.
    erewrite st_bind_ok; [|by apply lift_ok]. erewrite st_bind_ok; [|by apply lift_ok].
    destruct au as [an [|]]; [|done].
    cbn [is_open negb]. erewrite st_bind_ok; [|by apply lift_ok, marshal_bid_text].
    rewrite cstr_id by (apply bid_key_nul_free; [done|apply Hb]).
    erewrite st_bind_ok; [|apply put_record; [apply bid_key_nul_free; [done|apply Hb]|done|]]; [done|].
    apply bid_text_length; [done|by apply int_range_double].
  - erewrite st_bind_ok by exact Hget. cbn [fst snd].
    destruct cur as [au|]; [|by rewrite bool_decide_true].
    destruct Hm as (Hpos & text & Ht & Hu). rewrite bool_decide_false by lia.
    erewrite st_bind_ok; [|by apply lift_ok]. erewrite st_bind_ok; [|by apply lift_ok].
    destruct au as [an [|]]; [|done].
    cbn [is_open negb name].
    assert (good_name an) as Han by (by destruct Hh as (? & _ & ? & _)).
    erewrite st_bind_ok; [|by apply lift_ok, marshal_auction_text].
    erewrite st_bind_ok; [|by apply put_record; [..|apply auction_text_length]]. done.
Qed.
End refinement.

(** ** The winner *)

Definition best (bids : list bid_t) : Z := foldr (λ b m, Z.max (value b) m) (-1)%Z bids.

(** The bids that reach the highest amount. *)
Definition leaders (bids : list bid_t) : list bid_t :=
  List.filter (λ b, bool_decide (value b = best bids)) bids.

Definition eval_spec (bids : list bid_t) : bytes :=
  match leaders bids with
  | [] => AUCTION_NO_BIDS
  | [b] => bid_text b
  | _ => AUCTION_DRAW
  end.

Lemma best_ge bids b : b ∈ bids → (value b <= best bids)%Z.
Proof.
  induction bids as [|c bids IH]; [intros H; by apply not_elem_of_nil in H|].
  unfold best in *. intros [->|Hin]%elem_of_cons; cbn [foldr]; [lia|]. specialize (IH Hin). lia.
Qed.

Lemma best_snoc bids b : best (bids ++ [b]) = Z.max (best bids) (value b).
Proof. unfold best. induction bids as [|c bids IH]; cbn [foldr app]; [lia|]. rewrite IH. lia. Qed.

Lemma filter_none {A} (f : A → bool) l : (∀ x, x ∈ l → f x = false) → List.filter f l = [].
Proof.
  induction l as [|x l IH]; [done|]. intros H. cbn. rewrite H by (apply elem_of_cons; by left).
  apply IH. intros y Hy. apply H, elem_of_cons. by right.
Qed.

(** The leaders after one more bid. *)
Lemma leaders_snoc bids b :
  leaders (bids ++ [b]) =
  if bool_decide (value b > best bids)%Z then [b]
  else if bool_decide (value b = best bids)%Z then leaders bids ++ [b] else leaders bids.
Proof.
  unfold leaders. rewrite best_snoc, filter_app. cbn [List.filter].
  destruct (Z.compare_spec (value b) (best bids)) as [E|E|E].
  - rewrite (bool_decide_false (_ > _)%Z), !(bool_decide_true (value b = _)) by lia.
    by rewrite Z.max_l by lia.
  - rewrite (bool_decide_false (_ > _)%Z), !(bool_decide_false (value b = _)) by lia.
    rewrite app_nil_r. by rewrite Z.max_l by lia.
  - rewrite (bool_decide_true (_ > _)%Z), (bool_decide_true (value b = _)) by lia.
    rewrite filter_none; [done|]. intros c Hc%best_ge. apply bool_decide_eq_false. lia.
Qed.

(** The search keeps the first leader, and [draw] tells whether there are more. *)
Lemma search_invariant bids : Forall (λ b, 0 <= value b)%Z bids →
  fold_left search_step bids search_init =
  MkSearch (hd_error (leaders bids)) (best bids) (if decide (length (leaders bids) <= 1)%nat then 0 else 1)%Z
  ∧ (bids = [] ∨ leaders bids ≠ []).
Proof.
  induction bids as [|b bids IH] using rev_ind; [by auto|].
  intros [Hb [Hb0 _]%Forall_cons_iff]%Forall_app. destruct (IH Hb) as [E Hne].
  rewrite fold_left_app, E, leaders_snoc, best_snoc. cbn [fold_left]. unfold search_step. cbn [high winner].
  case_bool_decide as Hgt; [|case_bool_decide as Heq].
  - rewrite Z.max_r by lia. split; [done|by right].
  - assert (leaders bids ≠ []) as Hl.
    { destruct Hne as [->|?]; [cbn in Heq; lia|done]. }
    rewrite Z.max_l by lia. destruct (leaders bids) as [|l ls]; [done|].
    split; [|by right]. cbn [app hd_error length]. rewrite length_app. cbn [length].
    by rewrite decide_False by lia.
  - rewrite Z.max_l by lia. split; [done|]. right. destruct Hne as [->|?]; [cbn in *; lia|done].
Qed.

Lemma search_loop_texts (us : list (bytes * bytes)) bids st :
  Forall2 (λ u b, u.2 = bid_text b ∧ good_name (bidder_name b) ∧ int_range (value b)) us bids →
  search_loop us st = Ok (fold_left search_step bids st).
Proof.
  intros H. revert st. induction H as [|u b us bids (Hu & Hg & Hr) _ IH]; intros st; [done|].
  cbn [search_loop fold_left]. rewrite Hu, cstr_id by apply json_text_nul_free.
  rewrite unmarshal_bid_text by done. cbn. apply IH.
Qed.

(** The response computed from the search. *)
Lemma eval_result_spec bids : bids ≠ [] → Forall (λ b, 0 <= value b)%Z bids →
  Forall (λ b, good_name (bidder_name b) ∧ int_range (value b)) bids →
  eval_result (fold_left search_step bids search_init) = Ok (eval_spec bids).
Proof.
  intros Hne Hpos Hok. destruct (search_invariant bids Hpos) as [-> [?|Hl]]; [done|].
  unfold eval_result, eval_spec. cbn [draw winner].
  destruct (leaders bids) as [|b [|b' ls]] eqn:E; [done| |].
  - cbn. assert (b ∈ bids) as Hin.
    { assert (b ∈ leaders bids) as Hb by (rewrite E; apply elem_of_cons; by left).
      apply list_elem_of_In in Hb. unfold leaders in Hb. apply filter_In in Hb as [Hb _].
      by apply list_elem_of_In. }
    rewrite list.Forall_forall in Hok. destruct (Hok b Hin). by apply marshal_bid_text.
  - cbn [length hd_error]. by rewrite decide_False by lia.
Qed.

Section eval.
Context {C : Crypto} {L : CryptoLaws C} {W : Type} {P : Peer W}.

(** The peer's answer to the range query for the bids of [n]: the entries
    [es], whose plaintexts are the records of [bids]. *)
Definition holds_bids (n : bytes) (es : list entry) (bids : list bid_t) (ctx : Z) (w w' : W)
  (checked : bool) : Prop :=
  ∃ a json r, ocall_get_state_by_partial_composite_key (bid_composite_key n) ctx w = (a, w') ∧
    c_string (marshal_out RANGE_BUFFER_SIZE (ans_val a)) = Ok json ∧
    unmarshal_values [] json = Ok (r, map entry_stored es) ∧ Forall entry_ok es ∧
    Forall2 (λ e b, e_plain e = bid_text b ∧ good_name (bidder_name b) ∧ int_range (value b)) es bids ∧
    checked = bool_decide (check_cmac (bid_composite_key n) (sha256 (entries_hashed es))
                             session_key (ans_cmac a) = 0%Z).

Lemma eval_runs n au es bids ctx s w w' b b' addr rw :
  good_name n → active ctx addr rw s → holds n (Some au) ctx s w b → is_open au = false →
  holds_bids n es bids ctx w w' b' → Forall (λ x, 0 <= value x)%Z bids →
  auction_eval n ctx s =
  Ok (eval_spec bids,
      after_range (map e_key es) addr (set_insert n rw.1, rw.2) w' b' (after_read n addr rw w b s)).
Proof.
  intros Hg Ha Hh Hcl (a & json & r & Hoc & Hj & Hu & He & Hb & ->) Hpos. pose proof (proj1 Hg) as Hn.
  destruct (get_auction _ _ _ _ _ _ _ _ Hn Ha Hh) as (buf & m & Hget & Hm & text & Ht & Hun).
  unfold auction_eval. rewrite (cstr_id n Hn).
  erewrite st_bind_ok by exact Hget. cbn [fst snd]. rewrite bool_decide_false by lia.
  erewrite st_bind_ok; [|by apply lift_ok]. erewrite st_bind_ok; [|by apply lift_ok]. rewrite Hcl.
  assert (nul_free (bid_composite_key n)) as Hk.
  { unfold bid_composite_key, PREFIX, SEP. repeat (apply nul_free_app; split); try done; forall_list. }
  rewrite (cstr_id _ Hk).
  erewrite st_bind_ok; [|eapply get_range_ok; try done; [by apply active_after_read|by rewrite cstr_id]].
  assert (Forall2 (λ u b, u.2 = bid_text b ∧ good_name (bidder_name b) ∧ int_range (value b))
            (map (λ e, (e_key e, e_plain e)) es) bids) as Hb' by (by apply Forall2_fmap_l).
  destruct bids as [|b0 bids].
  { apply Forall2_nil_inv_r in Hb as ->. done. }
  destruct es as [|e es]; [by inversion Hb|]. cbn [map] in *.
  erewrite st_bind_ok; [|by eapply lift_ok, search_loop_texts]. apply lift_ok, eval_result_spec; [done..|].
  clear -Hb. induction Hb as [|? ? ? ? (_ & ? & ?)]; constructor; auto.
Qed.

(** [auction_eval] on a closed auction whose bids are not negative returns
    the record of the bid that alone reaches the highest amount, [DRAW] when
    several do and [NO_BIDS] when there is none; it writes nothing. *)
Theorem auction_eval_winner n au es bids ctx s w w' b b' addr rw :
  good_name n → active ctx addr rw s → holds n (Some au) ctx s w b → is_open au = false →
  holds_bids n es bids ctx w w' b' → Forall (λ x, 0 <= value x)%Z bids →
  auction_eval n ctx s =
  Ok (eval_spec bids,
      after_range (map e_key es) addr (set_insert n rw.1, rw.2) w' b' (after_read n addr rw w b s)).
Proof. apply eval_runs. Qed.
End eval.

(** ** The life of an auction *)

(** Names without the separator; with one, the keys of different auctions can
    coincide. *)
Definition dot_free (n : bytes) : Prop := Forall (λ c, c ≠ x2e) n.

#[global] Instance dot_free_dec n : Decision (dot_free n).
Proof. unfold dot_free. apply _. Defined.

Lemma split_at_dot a b a' b' : dot_free a → dot_free a' →
  a ++ SEP ++ b = a' ++ SEP ++ b' → a = a' ∧ b = b'.
Proof.
  intros Ha. revert a'. induction Ha as [|c a Hc _ IH]; intros [|c' a'] Ha' E; cbn in E; simplify_eq.
  - done.
  - apply Forall_cons_iff in Ha' as [Hc' _]. done.
  - apply Forall_cons_iff in Ha' as [_ Ha']. destruct (IH a' Ha') as [-> ->]; done.
Qed.

(** Bids of different auctions or bidders have different keys. *)
Lemma bid_key_inj n b n' b' : dot_free n → dot_free n' → dot_free b → dot_free b' →
  bid_key n b = bid_key n' b' → n = n' ∧ b = b'.
Proof.
  intros Hn Hn' Hb Hb' E. unfold bid_key in E. apply app_inv_head in E.
  apply split_at_dot in E as [-> E]; [|done..]. split; [done|].
  apply (split_at_dot b [] b' []); [done..|]. by rewrite !app_nil_r.
Qed.

Lemma bid_key_not_name n b n' : dot_free n' → bid_key n b ≠ n'.
Proof. intros H <-. by apply Forall_cons_iff in H as [? _]. Qed.

(** The committed plaintext records. *)
Abbreviation records := (gmap bytes bytes).

Definition record (m : records) (n : bytes) (cur : option auction_t) : Prop :=
  match cur with
  | None => m !! n = None
  | Some au => m !! n = Some (auction_text au) ∧ good_name (name au)
  end.

Definition call_dot_free (c : call) : Prop :=
  match c with Create n | Close n => dot_free n | Submit n b _ => dot_free n ∧ dot_free b end.

#[global] Instance call_dot_free_dec c : Decision (call_dot_free c).
Proof. destruct c; simpl; apply _. Defined.

Definition apply_write (wr : option (bytes * bytes)) (m : records) : records :=
  match wr with None => m | Some (k, v) => <[k := v]> m end.

(** A call as specified, on the committed records. *)
Inductive spec_step (m : records) : records → Prop :=
  | spec_call c cur : call_ok c → call_dot_free c → record m (call_auction c) cur →
      spec_step m (apply_write (call_spec c cur).2 m).

Lemma auction_text_inj a a' : good_name (name a) → good_name (name a') →
  auction_text a = auction_text a' → a = a'.
Proof.
  intros H H' E. pose proof (unmarshal_auction_text a H) as U.
  rewrite E, unmarshal_auction_text in U by done. congruence.
Qed.

(** A record under an auction's name is the record of that auction. *)
Definition house_inv (m : records) : Prop := ∀ n t, dot_free n → m !! n = Some t →
  good_name n ∧ ∃ o, t = auction_text (MkAuction n o).

Lemma house_inv_record m n au : house_inv m → dot_free n → record m n (Some au) → name au = n.
Proof.
  intros Hinv Hn [Hm Hg]. destruct (Hinv n _ Hn Hm) as (Hgn & o & E).
  by apply auction_text_inj in E as ->.
Qed.

Lemma spec_step_inv m m' : spec_step m m' → house_inv m → house_inv m'.
Proof.
  intros [c cur Hok Hd Hr] Hinv n t Hn. destruct c as [a|a b v|a]; cbn [call_ok call_dot_free call_auction] in *.
  - destruct cur; cbn [call_spec snd apply_write]; [apply Hinv, Hn|]. rewrite lookup_insert. case_decide; [|apply Hinv, Hn].
    intros [= <-]. subst. split; [done|by eexists].
  - destruct cur as [[? []]|]; cbn [call_spec snd apply_write]; try apply Hinv, Hn.
    rewrite lookup_insert. case_decide as E; [|apply Hinv, Hn]. by apply bid_key_not_name in E.
  - destruct cur as [[an []]|]; cbn [call_spec snd apply_write]; try apply Hinv, Hn.
    pose proof (house_inv_record m a _ Hinv Hd Hr) as En. cbn in En. subst an.
    rewrite lookup_insert. case_decide; [|apply Hinv, Hn]. intros [= <-]. subst. split; [done|by eexists].
Qed.

(** A closed auction and the bids for it since [m0]. *)
Definition frozen (n : bytes) (m0 m : records) : Prop :=
  m !! n = Some (auction_text (MkAuction n false)) ∧
  ∀ b, dot_free b → m !! bid_key n b = m0 !! bid_key n b.

Lemma frozen_step n m0 m m' : dot_free n → good_name n → spec_step m m' → house_inv m →
  frozen n m0 m → frozen n m0 m'.
Proof.
  intros Hn Hg [c cur Hok Hd Hr] Hinv [Hcl Hb].
  assert (∀ a an, record m a (Some (MkAuction an true)) → a ≠ n) as Hopen.
  { intros a an [Hra Hga] ->. rewrite Hcl in Hra. apply (inj Some) in Hra as E.
    by apply auction_text_inj in E. }
  assert (∀ k v, k ≠ n → (∀ b, dot_free b → k ≠ bid_key n b) → frozen n m0 (<[k := v]> m)) as Hk.
  { intros k v H1 H2. split; [by rewrite lookup_insert_ne|].
    intros b Hdb. rewrite lookup_insert_ne by auto. auto. }
  destruct c as [a|a b v|a]; cbn [call_ok call_dot_free call_auction] in *.
  - destruct cur; cbn [call_spec snd apply_write]; [by split|]. apply Hk.
    + intros ->. congruence.
    + intros b _ E. by apply (bid_key_not_name n b a).
  - destruct cur as [[an []]|]; cbn [call_spec snd apply_write]; try by split. destruct Hd as [Hda Hdb]. apply Hk.
    + by apply bid_key_not_name.
    + intros b' Hb' E. apply bid_key_inj in E as [-> _]; [|done..]. by eapply Hopen.
  - destruct cur as [[an []]|]; cbn [call_spec snd apply_write]; try by split. apply Hk.
    + by eapply Hopen.
    + intros b _ E. by apply (bid_key_not_name n b a).
Qed.

Lemma frozen_steps n m m' : dot_free n → house_inv m →
  m !! n = Some (auction_text (MkAuction n false)) → rtc spec_step m m' → frozen n m m'.
Proof.
  intros Hn Hinv Hcl Hsteps. destruct (Hinv n _ Hn Hcl) as [Hg _].
  assert (∀ m0, frozen n m0 m → frozen n m0 m') as H; [|by apply H].
  clear Hcl. induction Hsteps as [m|m m1 m2 Hs _ IH]; intros m0 Hf; [done|].
  apply IH; [by eapply spec_step_inv|by eapply frozen_step].
Qed.

(** ** Invocations *)

(** The arguments a client sends for a call. *)
Definition call_args (c : call) : list bytes :=
  match c with
  | Create n => [bs "create"; n]
  | Submit n b v => [bs "submit"; n; b; int_text v]
  | Close n => [bs "close"; n]
  end.

Definition args_value (args : list bytes) : JSON_Value :=
  JSONArray (MkArray (map JSONString args) (length args)).

(** The JSON text of the arguments. *)
Definition args_text (args : list bytes) : bytes := json_text false 0 (args_value args).

Lemma unmarshal_strings_ok args acc : Forall nul_free args →
  unmarshal_strings (map trim (map JSONString args)) acc = Ok (acc ++ args).
Proof.
  intros H. revert acc. induction H as [|a args Ha _ IH]; intros acc; cbn; [by rewrite app_nil_r|].
  rewrite !(cstr_id a Ha), IH. by rewrite <-app_assoc.
Qed.

Lemma unmarshal_args_text args : Forall nul_free args →
  unmarshal_args [] (args_text args) = Ok (1%Z, args).
Proof.
  intros Hn. unfold unmarshal_args, args_text.
  rewrite parse_text_roundtrip; [|..].
  - cbn [mbind res_bind json_value_get_array args_value trim arr_items].
    by rewrite unmarshal_strings_ok.
  - apply wf_value_array. rewrite length_map. split; [done|].
    apply Forall_fmap, Forall_true. done.
  - unfold int_numbers, args_value. cbn [numbers]. clear Hn. induction args; [constructor|done].
  - apply (depth_array _ _ (MAX_NESTING - 1)). apply Forall_fmap, Forall_true. cbn. lia.
Qed.

Lemma digit_not_sign c : is_digit c = true → isspace c = false ∧ c ≠ x2d ∧ c ≠ x2b.
Proof. apply digit_not_special. Qed.

Lemma stoi_int_text v : int_range v → stoi (int_text v) = Ok v.
Proof.
  intros Hv. unfold stoi, int_text.
  assert (scan_digits (dec (Z.abs v)) 0 0 = (Z.abs v, ndigits (Z.abs v), [])) as Hs.
  { rewrite <-(app_nil_r (dec _)). apply scan_digits_dec; [lia|done]. }
  destruct (ndigits_spec (Z.abs v)) as (_ & _ & Hnd); [lia|].
  destruct (dec_head (Z.abs v)) as (d & l & E & Hd); [lia|].
  destruct (ndigits (Z.abs v)) as [|k] eqn:Ek; [lia|].
  destruct (Z.ltb_spec v 0) as [Hlt|Hge]; cbn [app].
  - cbn. rewrite Hs. rewrite bool_decide_true by (unfold int_range in *; lia). f_equal. lia.
  - destruct (digit_not_sign (digit d)) as (H1 & H2 & H3); [by apply digit_value|].
    rewrite E in *. cbn [skip_spaces]. rewrite H1.
    replace (match digit d with x2d => _ | x2b => _ | _ => _ end) with (false, digit d :: l)
      by (by destruct (digit d)).
    cbv beta iota zeta. rewrite Hs. cbv beta iota zeta.
    rewrite bool_decide_true by (unfold int_range in *; lia). f_equal. lia.
Qed.

(** The longest response of a call. *)
Definition MAX_RESPONSE : Z := 22.

Lemma response_fits c cur : (Z.of_nat (length (call_spec c cur).1) <= MAX_RESPONSE)%Z.
Proof. by destruct c, cur as [[? []]|]. Qed.

Section invocation.
Context {C : Crypto} {L : CryptoLaws C} {W : Type} {P : Peer W}.

Lemma call_args_nul_free c : call_ok c → Forall nul_free (call_args c).
Proof.
  destruct c as [n|n b v|n]; cbn.
  1, 3: intros [Hn _]; repeat constructor; done.
  intros ([Hn _] & [Hb _] & _). repeat (constructor; [done|]). constructor; [forall_list|].
  constructor; [done|]. constructor; [done|]. constructor; [|constructor].
  unfold int_text. apply nul_free_app. split; [case_match; forall_list|apply dec_pad_nul_free].
Qed.

(** For any response buffer. *)
Lemma invoke_runs c cur ctx s w b addr rw max_response_len :
  call_ok c → active ctx addr rw s → holds (call_auction c) cur ctx s w b →
  invoke (args_text (call_args c)) max_response_len ctx s =
  Ok (respond max_response_len (call_spec c cur).1,
      after_call (call_auction c) (call_spec c cur).2 addr rw w b ctx s).
Proof.
  intros Hc Ha Hh. pose proof (call_refines c cur ctx s w b addr rw Hc Ha Hh) as E. unfold invoke.
  erewrite st_bind_ok; [|by apply lift_ok, unmarshal_args_text, call_args_nul_free]. cbn [snd].
  destruct c as [n|n bd v|n]; cbn [call_args]; do 2 (erewrite st_bind_ok; [|by apply lift_ok]);
    erewrite st_bind_ok; [done| |done| |done|].
  - exact E.
  - rewrite bool_decide_false, bool_decide_true by done.
    do 2 (erewrite st_bind_ok; [|by apply lift_ok]).
    erewrite st_bind_ok; [exact E|]. by apply lift_ok, stoi_int_text, Hc.
  - exact E.
Qed.

Lemma invoke_refines c cur ctx s w b addr rw max_response_len :
  call_ok c → active ctx addr rw s → holds (call_auction c) cur ctx s w b →
  (MAX_RESPONSE <= max_response_len)%Z →
  invoke (args_text (call_args c)) max_response_len ctx s =
  Ok ((0%Z, (call_spec c cur).1),
      after_call (call_auction c) (call_spec c cur).2 addr rw w b ctx s).
Proof.
  intros Hc Ha Hh Hmax. rewrite (invoke_runs c cur ctx s w b addr rw) by done.
  pose proof (response_fits c cur) as Hfit. unfold respond. by rewrite bool_decide_false by lia.
Qed.

(** A context whose sets are gone: the first access through it is undefined. *)
Lemma invoke_dangling c ctx s addr max_response_len : call_ok c →
  context s !! ctx = Some addr → sets s !! addr = None →
  invoke (args_text (call_args c)) max_response_len ctx s = UB Dangling.
Proof.
  intros Hc Hctx Hset. unfold invoke.
  erewrite st_bind_ok; [|by apply lift_ok, unmarshal_args_text, call_args_nul_free]. cbn [snd].
  assert (∀ key, get_state key MAX_VALUE_SIZE ctx s = UB Dangling) as Hget.
  { intros key. unfold get_state, get_rwset, read_set_insert, update_sets, lift, get, mbind, st_bind, mret, st_ret.
    rewrite Hctx. cbn [deref]. by rewrite Hset. }
  destruct c as [n|n bd v|n]; cbn [call_args]; do 2 (erewrite st_bind_ok; [|by apply lift_ok]).
  - unfold mbind at 1, st_bind at 1, auction_create at 1. unfold mbind at 1, st_bind at 1.
    rewrite bool_decide_true by done. by rewrite Hget.
  - rewrite bool_decide_false, bool_decide_true by done.
    unfold mbind at 1, st_bind at 1.
    do 2 (erewrite st_bind_ok; [|by apply lift_ok]).
    erewrite st_bind_ok; [|by apply lift_ok, stoi_int_text, Hc].
    unfold auction_submit, mbind at 1, st_bind at 1. by rewrite Hget.
  - unfold mbind at 1, st_bind at 1. rewrite !bool_decide_false, bool_decide_true by done.
    unfold auction_close, mbind at 1, st_bind at 1. by rewrite Hget.
Qed.

(** C3: an invocation of the chaincode with the arguments of a call implements
    the call's specification: for every state of the auction record (absent,
    open, closed) it returns the specified response, adds the auction's key to
    the read set, and encrypts and writes exactly the specified record. *)
Theorem invoke_refines_spec c cur ctx s w b addr rw max_response_len :
  call_ok c → active ctx addr rw s → holds (call_auction c) cur ctx s w b →
  (MAX_RESPONSE <= max_response_len)%Z →
  invoke (args_text (call_args c)) max_response_len ctx s =
  Ok ((0%Z, (call_spec c cur).1),
      after_call (call_auction c) (call_spec c cur).2 addr rw w b ctx s).
Proof. apply invoke_refines. Qed.

(** ** Committed invocations *)

(** The plaintext of a written value. *)
Definition plaintext (val : bytes) : bytes :=
  match open_value val with Ok (_, plain) => plain | _ => [] end.

(** The records after a write set was committed. *)
Definition commit_writes (ws : write_set_t) (m : records) : records :=
  fold_left (λ m p, <[p.1 := plaintext p.2]> m) ws m.

(** An invocation of the chaincode that succeeds, from fresh read and write
    sets and with a peer that answers from the committed records, and the
    commit of what it left in its write set. *)
Inductive house_step (m : records) : records → Prop :=
  | house_call c cur ctx addr max s w b response s' rw' :
      call_ok c → call_dot_free c → record m (call_auction c) cur →
      active ctx addr ([], []) s → holds (call_auction c) cur ctx s w b →
      invoke (args_text (call_args c)) max ctx s = Ok ((0%Z, response), s') →
      sets s' !! addr = Some rw' →
      house_step m (commit_writes rw'.2 m).

Lemma spec_plain_length c cur k plain : call_ok c →
  (∀ au, cur = Some au → good_name (name au)) →
  (call_spec c cur).2 = Some (k, plain) → (len plain < 2 ^ 24)%Z.
Proof.
  intros Hc Hg. destruct c as [n|n bd v|n], cur as [[an []]|]; cbn [call_spec snd];
    intros E; simplify_eq.
  - apply auction_text_length. exact Hc.
  - destruct Hc as (_ & Hb & Hv). apply bid_text_length; [done|by apply int_range_double].
  - apply auction_text_length. exact (Hg _ eq_refl).
Qed.

Lemma house_step_spec m m' : house_step m m' → spec_step m m'.
Proof.
  intros [c cur ctx addr max s w b response s' rw' Hc Hd Hr Ha Hh Hi Hs].
  replace (commit_writes rw'.2 m) with (apply_write (call_spec c cur).2 m); [by constructor|].
  rewrite (invoke_runs c cur ctx s w b addr ([], [])) in Hi by done. injection Hi as _ <-.
  unfold after_call in Hs. destruct (call_spec c cur).2 as [[k plain]|] eqn:E; cbn in Hs.
  - rewrite lookup_insert_eq in Hs. injection Hs as <-. cbn. unfold plaintext.
    assert (len plain < 2 ^ 24)%Z as Hl.
    { apply (spec_plain_length c cur k); [done| |done]. by intros au ->; destruct Hr. }
    unfold len in Hl. rewrite open_stored; [done|apply rand_iv_length|lia].
  - rewrite lookup_insert_eq in Hs. by injection Hs as <-.
Qed.

(** Once an auction is closed, no sequence of committed invocations of the
    chaincode reopens it or changes, adds or removes a bid for it. *)
Theorem closed_auction_frozen n m m' : dot_free n → house_inv m →
  m !! n = Some (auction_text (MkAuction n false)) → rtc house_step m m' → frozen n m m'.
Proof.
  intros Hn Hinv Hcl Hsteps. apply frozen_steps; [done..|].
  revert Hsteps. apply rtc_subrel, house_step_spec.
Qed.
End invocation.

(** ** Concrete runs *)

Import Shim.ToyPeer.

Definition sample_iv : bytes := repeat x11 12.

(** A world in which [MyAuction] is closed and has two bids. *)
Definition sample_closed : bytes := stored (auction_text (MkAuction (bs "MyAuction") false)) sample_iv.
Definition sample_bids : list bid_t := [MkBid (bs "Alice") 12; MkBid (bs "Bob") 30].
Definition sample_entries : list entry :=
  map (λ b, MkEntry (bid_key (bs "MyAuction") (bidder_name b)) (bid_text b) sample_iv) sample_bids.
Definition range_value (es : list entry) : JSON_Value :=
  JSONArray (MkArray (map (λ e, JSONObject (MkObject
    [(bs "key", JSONString (e_key e)); (bs "value", JSONString (stored (e_plain e) (e_iv e)))] 2)) es)
    (length es)).
Definition sample_world : toy_world :=
  MkToy {[ bs "MyAuction" := sample_closed ]}
    {[ bid_composite_key (bs "MyAuction") :=
         (json_text false 0 (range_value sample_entries), entries_hashed sample_entries) ]} [].

Ltac by_evaluation := apply (bool_decide_unpack _); vm_compute; exact I.

Lemma invoke_refines_spec_witness : ∃ s',
  invoke (args_text [bs "create"; bs "MyAuction"]) 100 7 (start (MkToy ∅ ∅ [])) = Ok ((0%Z, bs "OK"), s').
Proof.
  eexists. apply (invoke_refines_spec (Create (bs "MyAuction")) None 7 (start (MkToy ∅ ∅ []))
    (MkToy ∅ ∅ []) true 0 ([], []) 100).
  - by_evaluation.
  - split; reflexivity.
  - eexists. split; [reflexivity|]. split; [reflexivity|]. vm_compute. reflexivity.
  - discriminate.
Defined.

Lemma auction_eval_winner_witness : ∃ s',
  auction_eval (bs "MyAuction") 7 (start sample_world) = Ok (bid_text (MkBid (bs "Bob") 30), s').
Proof.
  eexists. apply (auction_eval_winner (bs "MyAuction") (MkAuction (bs "MyAuction") false)
    sample_entries sample_bids 7 (start sample_world) sample_world sample_world true true 0 ([], [])).
  - by_evaluation.
  - split; reflexivity.
  - eexists. split; [reflexivity|]. split; [by_evaluation|]. exists sample_iv.
    split; [reflexivity|]. split; [reflexivity|]. split; [reflexivity|].
    split; vm_compute; [repeat constructor|reflexivity].
  - reflexivity.
  - eexists _, (json_text false 0 (range_value sample_entries)), 1%Z.
    split; [reflexivity|]. split; [vm_compute; reflexivity|]. split; [vm_compute; reflexivity|].
    split; [repeat constructor|].
    split; [|vm_compute; reflexivity].
    repeat constructor; try by_evaluation; discriminate.
  - repeat constructor; discriminate.
Defined.

(** A world in which the auction [A] is closed. *)
Definition closed_world : toy_world :=
  MkToy {[ bs "A" := stored (auction_text (MkAuction (bs "A") false)) sample_iv ]} ∅ [].

Lemma closed_auction_frozen_witness :
  frozen (bs "A") {[ bs "A" := auction_text (MkAuction (bs "A") false) ]}
    {[ bs "A" := auction_text (MkAuction (bs "A") false) ]}.
Proof.
  apply closed_auction_frozen.
  - by_evaluation.
  - intros n t _ H. apply lookup_singleton_Some in H as [<- <-]. split; [by_evaluation|by eexists].
  - apply lookup_singleton_eq.
  - eapply rtc_l; [|apply rtc_refl].
    apply (house_call _ (Submit (bs "A") (bs "B") 4) (Some (MkAuction (bs "A") false)) 7 0 100
      (start closed_world) closed_world true AUCTION_ALREADY_CLOSED
      (after_read (bs "A") 0 ([], []) closed_world true (start closed_world)) ([bs "A"], []));
      [by_evaluation|by_evaluation| |split; reflexivity| |vm_compute; reflexivity|reflexivity].
    + split; [apply lookup_singleton_eq|by_evaluation].
    + eexists. split; [reflexivity|]. split; [by_evaluation|]. exists sample_iv.
      split; [reflexivity|]. split; [reflexivity|]. split; [reflexivity|].
      split; vm_compute; [repeat constructor|reflexivity].
Defined.
End AuctionSpec.
