(* ===== verification/Fabric.v ===== *)
(** * The Fabric messages the ledger enclave reads

    The protocol buffer schemas and the nanopb decoder are generated or
    external code. The records below have the fields [ledger.cpp] uses, and the
    class [FabricPb] the decoding functions ([None] is a failed [pb_decode]).
    A pointer field that is NULL when absent is an [option]; a string field
    holds its bytes without the terminator nanopb adds, and may contain NULs. *)
From S2P Require Import Prelude Sgx.

Module Fabric.

Record version_t := MkVersion { block_num : Z; tx_num : Z }.

#[global] Instance version_eq_dec : EqDecision version_t.
Proof. solve_decision. Defined.

Record common_BlockHeader := MkBlockHeader { number : Z; previous_hash : bytes; data_hash : bytes }.
Record common_Block := MkBlock {
  header : common_BlockHeader;
  block_metadata : list bytes;
  block_data : list bytes }.

Record common_MetadataSignature := MkMetadataSignature {
  ms_signature_header : option bytes;
  ms_signature : option bytes }.
Record common_Metadata := MkMetadata {
  md_value : option bytes;
  md_signatures : list common_MetadataSignature }.

Record common_SignatureHeader := MkSignatureHeader { creator : option bytes; nonce : option bytes }.
Record msp_SerializedIdentity := MkIdentity { id_bytes : option bytes }.
Record common_Envelope := MkEnvelope { env_payload : option bytes; env_signature : option bytes }.
Record common_Payload := MkPayload {
  channel_header : option bytes;
  signature_header : option bytes;
  pl_data : option bytes }.

(** [chdr.type] with the two values the ledger distinguishes. *)
Inductive header_type := HT_CONFIG | HT_ENDORSER_TRANSACTION | HT_OTHER (n : Z).
Record common_ChannelHeader := MkChannelHeader { ch_type : header_type; ch_tx_id : option bytes }.

(** Channel groups: name, organisations; each with the MSP values. *)
Record config_org := MkOrg { org_values : list (option bytes) }.
Record config_group := MkGroup { group_key : option bytes; group_orgs : list config_org }.
Record common_ConfigEnvelope := MkConfig { channel_groups : list config_group }.
Record msp_MSPConfig := MkMSPConfig { msp_config : option bytes }.
Record msp_FabricMSPConfig := MkFabricMSP { root_certs : list bytes; admins : list bytes }.

Record protos_Transaction := MkTransaction { actions : list (option bytes) }.
Record protos_ChaincodeActionPayload := MkActionPayload {
  chaincode_proposal_payload : option bytes;
  proposal_response_payload : option bytes }.
Record protos_ChaincodeProposalPayload := MkProposalPayload { pp_input : option bytes }.
Record protos_ChaincodeInvocationSpec := MkInvocationSpec { spec_args : list bytes }.
Record protos_ProposalResponsePayload := MkResponsePayload { extension : option bytes }.
Record protos_ChaincodeAction := MkAction {
  act_results : option bytes;
  act_response_payload : option bytes;
  act_chaincode_name : option bytes }.

Record ns_rwset := MkNsRwset { ns : option bytes; rwset : option bytes }.
Record rwset_TxReadWriteSet := MkTxRwset { ns_rwsets : list ns_rwset }.
Record kvrwset_KVRead := MkRead { read_key : option bytes; read_version : version_t }.
Record kvrwset_KVWrite := MkWrite { write_key : option bytes; write_value : option bytes }.
(** [RangeQueryInfo.reads_info], a union: the reads themselves, a Merkle summary
    of them, or no member at all. *)
Inductive kvrwset_RangeQueryInfo :=
  | raw_reads (kv_reads : list kvrwset_KVRead)
  | reads_merkle_hashes
  | reads_info_unset.
Record kvrwset_KVRWSet := MkRwset {
  range_queries_info : list kvrwset_RangeQueryInfo;
  reads : list kvrwset_KVRead;
  writes : list kvrwset_KVWrite }.

Class FabricPb := {
  decode_Block : bytes → option common_Block;
  decode_Metadata : bytes → option common_Metadata;
  decode_SignatureHeader : bytes → option common_SignatureHeader;
  decode_SerializedIdentity : bytes → option msp_SerializedIdentity;
  decode_Envelope : bytes → option common_Envelope;
  decode_Payload : bytes → option common_Payload;
  decode_ChannelHeader : bytes → option common_ChannelHeader;
  decode_ConfigEnvelope : bytes → option common_ConfigEnvelope;
  decode_MSPConfig : bytes → option msp_MSPConfig;
  decode_FabricMSPConfig : bytes → option msp_FabricMSPConfig;
  decode_Transaction : bytes → option protos_Transaction;
  decode_ChaincodeActionPayload : bytes → option protos_ChaincodeActionPayload;
  decode_ChaincodeProposalPayload : bytes → option protos_ChaincodeProposalPayload;
  decode_ChaincodeInvocationSpec : bytes → option protos_ChaincodeInvocationSpec;
  decode_ProposalResponsePayload : bytes → option protos_ProposalResponsePayload;
  decode_ChaincodeAction : bytes → option protos_ChaincodeAction;
  decode_TxReadWriteSet : bytes → option rwset_TxReadWriteSet;
  decode_KVRWSet : bytes → option kvrwset_KVRWSet }.

(** OpenSSL as [crypto.cpp] uses it. *)
Class OpenSSL := {
  X509 : Type;
  EC_KEY : Type;
  ECDSA_SIG : Type;
  (** SHA-256 of the concatenated updates. *)
  SHA256 : bytes → bytes;
  (** [X509_STORE_new], by call: NULL or an empty store. *)
  X509_STORE_new : nat → option (list X509);
  PEM_read_bio_X509 : bytes → option X509;
  X509_STORE_add_cert : list X509 → X509 → Z * list X509;
  (** The store may be NULL; verification then fails. *)
  X509_verify_cert : option (list X509) → X509 → Z;
  X509_get_pubkey_EC : X509 → option EC_KEY;
  (** [d2i_PUBKEY] followed by [EVP_PKEY_get1_EC_KEY]. *)
  d2i_PUBKEY_EC : bytes → option EC_KEY;
  d2i_ECDSA_SIG : bytes → option ECDSA_SIG;
  ECDSA_do_verify : bytes → option ECDSA_SIG → option EC_KEY → Z;
  (** DER encoding of a block header: number, previous hash, data hash. *)
  i2d_ASN1BlockHeader : Z → bytes → bytes → bytes }.

(** ** A concrete instance

    Signatures are concatenations, hashes the checksum of [Sgx.Toy], and the
    decoders know two blocks, [genesis] and [block1]; the transaction of the
    second has the read and write set [kv] in the name space [cc]. *)
Module ToyFabric.

#[export] Instance toy_openssl : OpenSSL := {
  X509 := bytes;
  EC_KEY := bytes;
  ECDSA_SIG := bytes;
  SHA256 := Sgx.Toy.checksum 32;
  X509_STORE_new _ := Some [];
  PEM_read_bio_X509 b := if bool_decide (b = []) then None else Some b;
  X509_STORE_add_cert store cert := (1%Z, cert :: store);
  X509_verify_cert store cert :=
    match store with Some l => if bool_decide (cert ∈ l) then 1%Z else 0%Z | None => 0%Z end;
  X509_get_pubkey_EC cert := Some cert;
  d2i_PUBKEY_EC b := Some b;
  d2i_ECDSA_SIG b := Some b;
  ECDSA_do_verify h sig pk :=
    match sig, pk with
    | Some sig, Some pk => if bool_decide (sig = h ++ pk) then 1%Z else 0%Z
    | _, _ => (-1)%Z
    end;
  i2d_ASN1BlockHeader n p d := z2b n :: p ++ d }.

Definition genesis : common_Block :=
  MkBlock (MkBlockHeader 0 [] (bs "h0")) [[]; []; [x00]] [bs "config"].
Definition block1 : common_Block :=
  MkBlock (MkBlockHeader 1 (bs "h0") (bs "h1")) [bs "sigs"; []; [x00; x01]] [bs "tx"; bs "skipped"].

(** Messages that only wrap another one are the identity on bytes. *)
Definition toy_pb (cc payload : bytes) (kv : kvrwset_KVRWSet) : FabricPb := {|
  decode_Block b := if bool_decide (b = bs "genesis") then Some genesis
                    else if bool_decide (b = bs "block1") then Some block1 else None;
  decode_Metadata b :=
    Some (MkMetadata None (if bool_decide (b = []) then []
                           else [MkMetadataSignature (Some (bs "orderer")) (Some [])]));
  decode_SignatureHeader b := Some (MkSignatureHeader (Some b) (Some (bs "nonce")));
  decode_SerializedIdentity b := Some (MkIdentity (Some b));
  decode_Envelope b := Some (MkEnvelope (Some b) (Some []));
  decode_Payload b := Some (MkPayload (Some b) (Some b) (Some b));
  decode_ChannelHeader b :=
    Some (MkChannelHeader (if bool_decide (b = bs "config") then HT_CONFIG else HT_ENDORSER_TRANSACTION) (Some b));
  decode_ConfigEnvelope _ := Some (MkConfig
    [MkGroup (Some (bs "Orderer")) [MkOrg [Some (bs "orderer")]];
     MkGroup (Some (bs "Application")) [MkOrg [Some (bs "tx")]]]);
  decode_MSPConfig b := Some (MkMSPConfig (Some b));
  decode_FabricMSPConfig b := Some (MkFabricMSP [b] [b]);
  decode_Transaction b := Some (MkTransaction [Some b]);
  decode_ChaincodeActionPayload b := Some (MkActionPayload (Some b) (Some b));
  decode_ChaincodeProposalPayload b := Some (MkProposalPayload (Some b));
  decode_ChaincodeInvocationSpec _ := Some (MkInvocationSpec [bs "setup"]);
  decode_ProposalResponsePayload b := Some (MkResponsePayload (Some b));
  decode_ChaincodeAction b := Some (MkAction (Some b) (Some payload) (Some cc));
  decode_TxReadWriteSet b := Some (MkTxRwset [MkNsRwset (Some cc) (Some b)]);
  decode_KVRWSet _ := Some kv |}.

(** One read and one write of the chaincode registry. *)
Definition lscc_rwset : kvrwset_KVRWSet :=
  MkRwset [] [MkRead (Some (bs "ecc")) (MkVersion 0 0)] [MkWrite (Some (bs "ecc")) (Some (bs "1.0"))].

#[export] Instance toy_fabric : FabricPb := toy_pb (bs "lscc") [] lscc_rwset.
End ToyFabric.
End Fabric.
