(* ===== verification/Ledger.v ===== *)
(** * The trusted ledger (src/tlcc_enclave/enclave/ledger.cpp, crypto.cpp, asn1_utils.c, ecc_json.cpp)

    Block processing in the ledger enclave. The statics of ledger.cpp are the
    state record: the certificate stores, the key-value state with the version
    of each entry, the spin lock and the 32-bit sequence number; [updates] is
    the local of [parse_block] that its callees change through a pointer. Signature and
    transaction-id checks only write the log, so their outcomes are events.
    A function may [return] early: its body is in a monad with the result code
    as an exception. *)
From S2P Require Import Prelude Utils Base64 Parson ParsonParse StdMap Sgx Fabric.
Import Utils Base64 Parson ParsonParse StdMap Fabric.

Module Ledger.

Definition LEDGER_SUCCESS : Z := 0.
Definition LEDGER_ERROR_DECODING : Z := -1.
Definition LEDGER_ERROR_CRYPTO : Z := -5.
Definition LEDGER_INVALID_BLOCK_NUMBER : Z := -3.
Definition LEDGER_NOT_FOUND : Z := -9.
Definition HASH_SIZE : nat := 32.

Abbreviation kvs_value_t := (bytes * version_t)%type.
Abbreviation kvs_t := (list (bytes * kvs_value_t)).

(** What the checks log. *)
Inductive event :=
  | BlockSignature (valid : bool)
  | EnvelopeSignature (valid : bool)
  | IncorrectTxId
  | InvalidEnvelopeType
  | RootCert (stored : bool)
  | AdminCert (valid : bool)
  | InvalidReadSet
  | UnsupportedChaincode
  | EccSignature (valid : bool).

Section state.
Context {O : OpenSSL}.

Record ledger_state := MkLedger {
  root_certs_orderer : option (list X509);
  root_certs_apps : option (list X509);
  state : kvs_t;
  lock : bool;
  sequence_number : Z;
  updates : kvs_t;
  events : list event }.

(** [static uint32_t sequence_number = -1]. *)
Definition initial : ledger_state := MkLedger None None [] false (u32 (-1)) [] [].

(** Two new stores; the code returns when the first is NULL. *)
Definition init_ledger (s : ledger_state) : Z * ledger_state :=
  match X509_STORE_new 0 with
  | None => (LEDGER_ERROR_CRYPTO, MkLedger None (root_certs_apps s) (state s) (lock s)
                                    (sequence_number s) (updates s) (events s))
  | Some o =>
      let apps := X509_STORE_new 1 in
      (match apps with None => LEDGER_ERROR_CRYPTO | Some _ => LEDGER_SUCCESS end,
       MkLedger (Some o) apps (state s) (lock s) (sequence_number s) (updates s) (events s))
  end.
End state.

(** Code over the ledger state with early return of a code. *)
Definition LM {O : OpenSSL} (A : Type) : Type := ledger_state → res ((Z + A) * ledger_state).

Section monad.
Context {O : OpenSSL}.

#[global] Instance lm_ret : MRet LM := λ A a s, Ok (inr a, s).
#[global] Instance lm_bind : MBind LM := λ A B f m s,
  match m s with
  | Ok (inr a, s') => f a s'
  | Ok (inl z, s') => Ok (inl z, s')
  | UB e => UB e
  | NoFuel => NoFuel
  end.

Definition return_early {A} (z : Z) : LM A := λ s, Ok (inl z, s).
Definition pure {A} (r : res A) : LM A := λ s,
  match r with Ok a => Ok (inr a, s) | UB e => UB e | NoFuel => NoFuel end.
Definition gets {A} (f : ledger_state → A) : LM A := λ s, Ok (inr (f s), s).
Definition event_log (e : event) : LM unit := λ s,
  Ok (inr tt, MkLedger (root_certs_orderer s) (root_certs_apps s) (state s) (lock s)
                (sequence_number s) (updates s) (events s ++ [e])).

(** [decode_pb]: returns from the enclosing function on failure. *)
Definition decode_pb {A} (decode : bytes → option A) (data : bytes) : LM A :=
  match decode data with Some a => mret a | None => return_early LEDGER_ERROR_DECODING end.

(** [decode_pb] of a [pb_bytes_array_t *] that may be NULL. *)
Definition decode_ptr {A} (decode : bytes → option A) (data : option bytes) : LM A :=
  d ← pure (deref data); decode_pb decode d.

(** Calling a function whose result code is ignored. *)
Definition ignore {A} (m : LM A) : LM unit := λ s,
  match m s with Ok (_, s') => Ok (inr tt, s') | UB e => UB e | NoFuel => NoFuel end.

(** Calling a function for its result code. *)
Definition code (m : LM Z) (s : ledger_state) : res (Z * ledger_state) :=
  match m s with
  | Ok (inl z, s') | Ok (inr z, s') => Ok (z, s')
  | UB e => UB e
  | NoFuel => NoFuel
  end.

Fixpoint fold {A B} (f : B → A → LM B) (b : B) (l : list A) : LM B :=
  match l with [] => mret b | a :: l' => b' ← f b a; fold f b' l' end.

Definition set_lock (b : bool) (s : ledger_state) : ledger_state :=
  MkLedger (root_certs_orderer s) (root_certs_apps s) (state s) b (sequence_number s) (updates s)
    (events s).

(** The spin lock is not recursive. *)
Definition spin_lock : LM unit := λ s,
  if lock s then UB Deadlock else Ok (inr tt, set_lock true s).
Definition spin_unlock : LM unit := λ s, Ok (inr tt, set_lock false s).

Definition set_updates (u : kvs_t) (s : ledger_state) : ledger_state :=
  MkLedger (root_certs_orderer s) (root_certs_apps s) (state s) (lock s) (sequence_number s) u
    (events s).

(** [updates->insert(...)]: a key written before in the block keeps its entry. *)
Definition update_insert (key val : bytes) (v : version_t) : LM unit := λ s,
  Ok (inr tt, set_updates (map_insert key (val, v) (updates s)) s).
End monad.

(** ** Versions *)

Definition cmp_version (v1 v2 : version_t) : Z :=
  if bool_decide (block_num v1 > block_num v2)%Z then 1
  else if bool_decide (block_num v1 < block_num v2)%Z then (-1)
  else if bool_decide (tx_num v1 > tx_num v2)%Z then 1
  else if bool_decide (tx_num v1 < tx_num v2)%Z then (-1)
  else 0.

Definition has_version_conflict (key : bytes) (st : kvs_t) (v : version_t) : Z :=
  match map_find key st with
  | Some (_, version) => if bool_decide (cmp_version v version = -1)%Z then 1 else 0
  | None => 0
  end.

(** ** Composite keys *)

(** [while ( *idx ) { key.append(idx); key.append("."); idx += strlen(idx) + 1; }]
    from the cursor [idx] into a NUL-terminated buffer; [None] is a cursor past
    the terminator. *)
Fixpoint composite_loop (fuel : nat) (idx : option bytes) : res bytes :=
  match fuel with
  | O => NoFuel
  | S f =>
      match idx with
      | None => UB OutOfBounds
      | Some s =>
          if bool_decide (peek s = x00) then Ok []
          else
            let w := cstr s in
            let next := if bool_decide (length w < length s)
                        then Some (drop (S (length w)) s) else None in
            rest ← composite_loop f next;
            Ok (w ++ x2e :: rest)
      end
  end.

(** The components after the first character of [key]. *)
Definition composite_tail (key : bytes) : res bytes :=
  composite_loop (S (S (length key))) (match key with [] => None | _ :: s => Some s end).

(** ** crypto.cpp *)

Section crypto.
Context {O : OpenSSL}.

Definition store_root_cert (cert_bytes : bytes) (root_certs : option (list X509))
  : res (Z * option (list X509)) :=
  match PEM_read_bio_X509 cert_bytes with
  | None => Ok ((-1)%Z, root_certs)
  | Some cert =>
      store ← deref root_certs;
      let '(ret, store') := X509_STORE_add_cert store cert in
      Ok (ret, Some store')
  end.

Definition validate_cert (cert_bytes : bytes) (root_certs : option (list X509)) : res Z :=
  match PEM_read_bio_X509 cert_bytes with
  | None => Ok (-1)%Z
  | Some cert => Ok (X509_verify_cert root_certs cert)
  end.

(** A certificate that does not verify is reported through [ctx], which was
    freed two lines before. *)
Definition verify_signature (sig_bytes input cert_bytes : bytes) (root_certs : option (list X509))
  : res Z :=
  match PEM_read_bio_X509 cert_bytes with
  | None => Ok (-1)%Z
  | Some cert =>
      if bool_decide (X509_verify_cert root_certs cert = 0)%Z then UB Dangling
      else Ok (ECDSA_do_verify input (d2i_ECDSA_SIG sig_bytes) (X509_get_pubkey_EC cert))
  end.

Definition verify_enclave_signature (sig_bytes input pk : bytes) : Z :=
  ECDSA_do_verify input (d2i_ECDSA_SIG sig_bytes) (d2i_PUBKEY_EC pk).

(** asn1_utils.c: the previous hash of the genesis block is left empty. *)
Definition block_header2DER (h : common_BlockHeader) : bytes :=
  i2d_ASN1BlockHeader (number h)
    (if bool_decide (number h > 0)%Z then previous_hash h else []) (data_hash h).
End crypto.

(** ** ecc_json.cpp *)

(** A decoded field copied into a caller's buffer of 96 bytes. *)
Definition copy_field (o : option JSON_Object) (field : bytes) : res bytes :=
  text ← deref (json_object_get_string o field);
  let data := b64_decode (cstr text) in
  if bool_decide (length data <= 96) then Ok data else UB OutOfBounds.

(** Response data, signature and public key. [json_bytes] is the C string at the
    payload's bytes: the code relies on a NUL after them. *)
Definition unmarshal_ecc_response (json_bytes : bytes) : res (bytes * bytes * bytes) :=
  root ← json_parse_string (Some json_bytes);
  let o := json_value_get_object root in
  response ← copy_field o (bs "ResponseData");
  signature ← copy_field o (bs "Signature");
  pk ← copy_field o (bs "PublicKey");
  Ok (response, signature, pk).

(** ** Endorser transactions *)

Section processing.
Context {O : OpenSSL} {F : FabricPb}.

(** [valid_tx] and [ecc_read_set]. *)
Abbreviation read_acc := (bool * list bytes)%type.

(** The version check of one read, against the state and then the updates. *)
Definition check_read (key : bytes) (v : version_t) (valid_tx : bool) : LM bool :=
  st ← gets state;
  up ← gets updates;
  mret (if bool_decide (has_version_conflict key st v = 1)%Z
           || bool_decide (has_version_conflict key up v = 1)%Z then false else valid_tx).

(** A read of a range query: a composite key, NULs replaced by dots. *)
Definition range_read (ns : bytes) (acc : read_acc) (r : kvrwset_KVRead) : LM read_acc :=
  k ← pure (deref (read_key r));
  tail ← pure (composite_tail k);
  let key := ns ++ x2e :: tail in
  let rs := if bool_decide (ns = bs "ecc") then set_insert (drop 3 key) acc.2 else acc.2 in
  valid ← check_read key (read_version r) acc.1;
  mret (valid, rs).

Definition plain_read (ns : bytes) (acc : read_acc) (r : kvrwset_KVRead) : LM read_acc :=
  k ← pure (deref (read_key r));
  let key := ns ++ x2e :: cstr k in
  let rs := if bool_decide (ns = bs "ecc") then set_insert (drop 4 key) acc.2 else acc.2 in
  valid ← check_read key (read_version r) acc.1;
  mret (valid, rs).

(** [reads_info.raw_reads] is read without looking at which member is set: a
    message without one is all zeroes. *)
Definition range_query (ns : bytes) (acc : read_acc) (q : kvrwset_RangeQueryInfo) : LM read_acc :=
  match q with
  | raw_reads l => fold (range_read ns) acc l
  | reads_merkle_hashes => pure (UB WrongMember)
  | reads_info_unset => mret acc
  end.

Definition ns_reads (acc : read_acc) (n : ns_rwset) : LM read_acc :=
  kv ← decode_ptr decode_KVRWSet (rwset n);
  name ← pure (deref (ns n));
  let name := cstr name in
  acc ← fold (range_query name) acc (range_queries_info kv);
  fold (plain_read name) acc (reads kv).

Definition lscc_write (ns : bytes) (v : version_t) (u : unit) (w : kvrwset_KVWrite) : LM unit :=
  k ← pure (deref (write_key w));
  val ← pure (deref (write_value w));
  update_insert (ns ++ x2e :: cstr k) val v.

(** The MRENCLAVE of the chaincode must be in the updates or the state. *)
Definition ercc_write (ns : bytes) (v : version_t) (ws : list kvrwset_KVWrite) : LM unit :=
  w ← pure (read_at ws 0);
  k ← pure (deref (write_key w));
  up ← gets updates;
  st ← gets state;
  let it := match map_find (bs "ecc.MRENCLAVE") up with
            | Some x => Some x
            | None => map_find (bs "ecc.MRENCLAVE") st
            end in
  match it with
  | None => pure (UB OutOfBounds)
  | Some (m, _) =>
      if bool_decide (32 < length (b64_decode m)) then pure (UB OutOfBounds)
      else
        val ← pure (deref (write_value w));
        update_insert (ns ++ x2e :: cstr k) val v
  end.

(** One write of the chaincode; [first] is [kvrwset.writes[0]], whose value is
    stored for every key. *)
Definition ecc_write (ns : bytes) (v : version_t) (first : kvrwset_KVWrite)
  (ecc_write_set : list (bytes * bytes)) (w : kvrwset_KVWrite) : LM (list (bytes * bytes)) :=
  k ← pure (deref (write_key w));
  kk ← pure (if bool_decide (peek k = x00)
             then tail ← composite_tail k;
                  let key := ns ++ x2e :: tail in Ok (key, drop 3 key)
             else Ok (ns ++ x2e :: cstr k, cstr k));
  let '(key, kkey) := kk in
  val ← pure (deref (write_value first));
  _ ← update_insert key val v;
  mret (map_insert kkey val ecc_write_set).

Definition ns_writes (v : version_t) (ecc_write_set : list (bytes * bytes)) (n : ns_rwset)
  : LM (list (bytes * bytes)) :=
  kv ← decode_ptr decode_KVRWSet (rwset n);
  name ← pure (deref (ns n));
  let name := cstr name in
  if bool_decide (name = bs "lscc") then
    _ ← fold (lscc_write name v) tt (writes kv); mret ecc_write_set
  else if bool_decide (name = bs "ercc") then
    _ ← ercc_write name v (writes kv); mret ecc_write_set
  else if bool_decide (name = bs "ecc") then
    match writes kv with
    | [] => mret ecc_write_set
    | first :: _ => fold (ecc_write name v first) ecc_write_set (writes kv)
    end
  else _ ← event_log UnsupportedChaincode; mret ecc_write_set.

(** The bytes the chaincode enclave signs the hash of. *)
Definition signed_bytes (function response : bytes) (rs : list bytes) (ws : list (bytes * bytes)) : bytes :=
  function ++ response ++ concat rs ++ concat (map (λ p, p.1 ++ p.2) ws).

Definition validate_ecc_tx (function : bytes) (action : protos_ChaincodeAction)
  (rs : list bytes) (ws : list (bytes * bytes)) : LM unit :=
  payload ← pure (deref (act_response_payload action));
  r ← pure (unmarshal_ecc_response payload);
  let '(response, signature, pk) := r in
  let hash := SHA256 (signed_bytes function response rs ws) in
  let hash2 := SHA256 hash in
  event_log (EccSignature (bool_decide (verify_enclave_signature signature hash2 pk = 1)%Z)).

(** The results of an action: the read set is checked, then the writes become
    updates and the signature of the chaincode enclave is checked. *)
Definition apply_results (v : version_t) (function : bytes) (cc_action : protos_ChaincodeAction)
  (results : bytes) : LM unit :=
  tx_rw_set ← decode_pb decode_TxReadWriteSet results;
  r ← fold ns_reads (true, []) (ns_rwsets tx_rw_set);
  if negb r.1 then event_log InvalidReadSet
  else
    ws ← fold (ns_writes v) [] (ns_rwsets tx_rw_set);
    name ← pure (deref (act_chaincode_name cc_action));
    if bool_decide (cstr name = bs "ecc") && negb (bool_decide (function = bs "setup"))
    then validate_ecc_tx function cc_action r.2 ws
    else mret tt.

(** The body of the loop over the actions of a transaction. *)
Definition process_action (v : version_t) (u : unit) (payload : option bytes) : LM unit :=
  action_payload ← decode_ptr decode_ChaincodeActionPayload payload;
  proposal_payload ← decode_ptr decode_ChaincodeProposalPayload (chaincode_proposal_payload action_payload);
  cis ← decode_ptr decode_ChaincodeInvocationSpec (pp_input proposal_payload);
  let function := match spec_args cis with [] => [] | a :: _ => a end in
  p_response_payload ← decode_ptr decode_ProposalResponsePayload (proposal_response_payload action_payload);
  cc_action ← decode_ptr decode_ChaincodeAction (extension p_response_payload);
  match act_results cc_action with
  | None => mret tt
  | Some results => apply_results v function cc_action results
  end.

Definition parse_endorser_transaction (tx_data : bytes) (v : version_t) : LM Z :=
  transaction ← decode_pb decode_Transaction tx_data;
  _ ← fold (process_action v) tt (actions transaction);
  mret LEDGER_SUCCESS.

(** ** Configuration *)

(** Which of the two stores a channel group selects; others select NULL. *)
Inductive store_id := Orderer | Apps | NoStore.

Definition select_store (group : bytes) : store_id :=
  if strcmp_eq group (bs "Orderer") then Orderer
  else if strcmp_eq group (bs "Application") then Apps else NoStore.

Definition store_of (i : store_id) (s : ledger_state) : option (list X509) :=
  match i with Orderer => root_certs_orderer s | Apps => root_certs_apps s | NoStore => None end.

Definition set_store (i : store_id) (c : option (list X509)) (s : ledger_state) : ledger_state :=
  match i with
  | Orderer => MkLedger c (root_certs_apps s) (state s) (lock s) (sequence_number s) (updates s) (events s)
  | Apps => MkLedger (root_certs_orderer s) c (state s) (lock s) (sequence_number s) (updates s) (events s)
  | NoStore => s
  end.

Definition add_root_cert (i : store_id) (u : unit) (cert : bytes) : LM unit :=
  st ← gets (store_of i);
  r ← pure (store_root_cert cert st);
  _ ← (λ s, Ok (inr tt, set_store i r.2 s));
  event_log (RootCert (bool_decide (r.1 = 1)%Z)).

Definition check_admin_cert (i : store_id) (u : unit) (cert : bytes) : LM unit :=
  st ← gets (store_of i);
  r ← pure (validate_cert cert st);
  event_log (AdminCert (bool_decide (r = 1)%Z)).

Definition config_value (i : store_id) (u : unit) (msp : option bytes) : LM unit :=
  c ← decode_ptr decode_MSPConfig msp;
  f ← decode_ptr decode_FabricMSPConfig (msp_config c);
  _ ← fold (add_root_cert i) tt (root_certs f);
  fold (check_admin_cert i) tt (admins f).

Definition parse_config (config_data : bytes) : LM Z :=
  config ← decode_pb decode_ConfigEnvelope config_data;
  _ ← fold (λ u g,
        name ← pure (deref (group_key g));
        fold (λ u o, fold (config_value (select_store name)) tt (org_values o)) tt (group_orgs g))
      tt (channel_groups config);
  mret LEDGER_SUCCESS.

(** ** Blocks *)

Definition check_block_signature (h : common_BlockHeader) (value : bytes) (u : unit)
  (ms : common_MetadataSignature) : LM unit :=
  sh ← pure (deref (ms_signature_header ms));
  hd ← decode_pb decode_SignatureHeader sh;
  identity ← decode_ptr decode_SerializedIdentity (creator hd);
  let sig_hash := SHA256 (value ++ sh ++ block_header2DER h) in
  sig ← pure (deref (ms_signature ms));
  idb ← pure (deref (id_bytes identity));
  store ← gets root_certs_orderer;
  r ← pure (verify_signature sig sig_hash idb store);
  event_log (BlockSignature (bool_decide (r = 1)%Z)).

(** The transaction filter: [data_count] cells, the received bytes copied. *)
Definition tx_filter (data_count : nat) (received : bytes) : res bytes :=
  store (repeat x00 data_count) 0 received.

(** The transaction-id check, which compares only strings of equal length. *)
Definition tx_id_mismatch (hd : common_SignatureHeader) (chdr : common_ChannelHeader) : res bool :=
  n ← deref (nonce hd);
  c ← deref (creator hd);
  let tx_id := bytes_to_hexstring (SHA256 (n ++ c)) in
  received ← deref (ch_tx_id chdr);
  Ok (bool_decide (strlen tx_id = strlen received) && negb (bool_decide (cstr tx_id = cstr received))).

(** The [switch] on the envelope type; the result codes are ignored. *)
Definition dispatch (h : common_BlockHeader) (v : version_t) (chdr : common_ChannelHeader)
  (payload : common_Payload) : LM unit :=
  match ch_type chdr with
  | HT_CONFIG =>
      if bool_decide (number h = 0)%Z
      then d ← pure (deref (pl_data payload)); ignore (parse_config d)
      else mret tt
  | HT_ENDORSER_TRANSACTION =>
      d ← pure (deref (pl_data payload)); ignore (parse_endorser_transaction d v)
  | HT_OTHER _ => event_log InvalidEnvelopeType
  end.

(** What is decoded and checked of an envelope before the lock is taken:
    signature and transaction id. *)
Definition envelope_checks (h : common_BlockHeader) (data : bytes)
  : LM (common_ChannelHeader * common_Payload) :=
  envelope ← decode_pb decode_Envelope data;
  payload_bytes ← pure (deref (env_payload envelope));
  payload ← decode_pb decode_Payload payload_bytes;
  hd ← decode_ptr decode_SignatureHeader (signature_header payload);
  identity ← decode_ptr decode_SerializedIdentity (creator hd);
  _ ← (if bool_decide (number h > 0)%Z then
         sig ← pure (deref (env_signature envelope));
         idb ← pure (deref (id_bytes identity));
         store ← gets root_certs_apps;
         r ← pure (verify_signature sig (SHA256 payload_bytes) idb store);
         event_log (EnvelopeSignature (bool_decide (r = 1)%Z))
       else mret tt);
  chdr ← decode_ptr decode_ChannelHeader (channel_header payload);
  _ ← (if bool_decide (number h > 0)%Z then
         bad ← pure (tx_id_mismatch hd chdr);
         if (bad : bool) then event_log IncorrectTxId else mret tt
       else mret tt);
  mret (chdr, payload).

(** One envelope that the filter does not mark as invalid: the checks, then the
    dispatch under the lock. *)
Definition process_envelope (h : common_BlockHeader) (filter : bytes) (i : nat) (data : bytes) : LM unit :=
  if bool_decide (filter !! i = Some x01) then mret tt
  else
    cp ← envelope_checks h data;
    _ ← spin_lock;
    _ ← dispatch h (MkVersion (number h) (Z.of_nat i)) cp.1 cp.2;
    spin_unlock.

Fixpoint process_envelopes (h : common_BlockHeader) (filter : bytes) (i : nat) (l : list bytes) : LM unit :=
  match l with
  | [] => mret tt
  | data :: l' => _ ← process_envelope h filter i data; process_envelopes h filter (S i) l'
  end.

(** [state[pair.first] = pair.second] for every update, in order. *)
Definition apply_updates (up st : kvs_t) : kvs_t :=
  fold_left (λ st p, map_assign p.1 p.2 st) up st.

(** The critical section of [commit_state_updates]. *)
Definition apply_commit (block_sequence_number : Z) : LM unit :=
  sn ← gets sequence_number;
  _ ← pure (if bool_decide (block_sequence_number = u32 (sn + 1)) then Ok tt else UB AssertFailed);
  ((λ s, Ok (inr tt, MkLedger (root_certs_orderer s) (root_certs_apps s)
      (apply_updates (updates s) (state s)) (lock s) block_sequence_number (updates s) (events s))) : LM unit).

Definition commit_state_updates (block_sequence_number : Z) : LM Z :=
  _ ← spin_lock;
  _ ← apply_commit block_sequence_number;
  _ ← spin_unlock;
  mret LEDGER_SUCCESS.

(** The block signatures, then the transaction filter. *)
Definition block_checks (block : common_Block) : LM bytes :=
  metadata_bytes ← pure (read_at (block_metadata block) 0);
  metadata ← decode_pb decode_Metadata metadata_bytes;
  let value := default [] (md_value metadata) in
  _ ← fold (check_block_signature (header block) value) tt (md_signatures metadata);
  filter_pb ← pure (read_at (block_metadata block) 2);
  pure (tx_filter (length (block_data block)) filter_pb).

Definition parse_block_body (block_data_bytes : bytes) : LM Z :=
  block ← decode_pb decode_Block block_data_bytes;
  let block_sequence_number := u32 (number (header block)) in
  sn ← gets sequence_number;
  if negb (bool_decide (block_sequence_number = u32 (sn + 1)))
  then return_early LEDGER_INVALID_BLOCK_NUMBER
  else
    filter ← block_checks block;
    _ ← (λ s, Ok (inr tt, set_updates [] s));
    _ ← process_envelopes (header block) filter 0 (block_data block);
    _ ← commit_state_updates block_sequence_number;
    mret LEDGER_SUCCESS.

Definition parse_block (block_data_bytes : bytes) (s : ledger_state) : res (Z * ledger_state) :=
  code (parse_block_body block_data_bytes) s.

(** ** Queries *)

(** The result code and [out_hash], which is only written when the key exists. *)
Definition ledger_get_state_hash (key out_hash : bytes) : LM (Z * bytes) :=
  _ ← spin_lock;
  st ← gets state;
  match map_find (cstr key) st with
  | Some (value, _) => _ ← spin_unlock; mret (LEDGER_SUCCESS, SHA256 value)
  | None => _ ← spin_unlock; mret (LEDGER_NOT_FOUND, out_hash)
  end.

(** [find_first_of(".")]. *)
Fixpoint find_dot (s : bytes) : option nat :=
  match s with [] => None | c :: s' => if bool_decide (c = x2e) then Some 0 else S <$> find_dot s' end.

(** [key.erase(0, found)], when a dot is found. *)
Definition erase_to_dot (key : bytes) : bytes :=
  match find_dot key with Some i => drop i key | None => key end.

(** The hash of the keys with a prefix and their values, in key order. *)
Definition ledger_get_multi_state_hash (comp_key : bytes) : LM (Z * bytes) :=
  let k := cstr comp_key in
  _ ← spin_lock;
  st ← gets state;
  let hashed := concat (map (λ e, erase_to_dot e.1 ++ e.2.1) (scan_prefix k (lower_bound k st))) in
  _ ← spin_unlock;
  mret (LEDGER_SUCCESS, SHA256 hashed).
End processing.
End Ledger.
