(* ===== verification/LedgerProofs.v ===== *)
(** * Correctness of the trusted ledger

    A program logic for the ledger monad (no deadlock, no missing fuel, a
    relation between the states before and after), the invariant of the
    key-value state, and the theorems on block processing: atomicity of a
    block, monotone sequence numbers and versions, rejection of transactions
    with stale reads, and the prefix query. *)
From S2P Require Import Prelude Utils Base64 Parson ParsonParse StdMap Sgx Fabric Ledger.
Import Utils Base64 Parson ParsonParse StdMap Fabric Ledger.

Module LedgerProofs.

Section logic.
Context {O : OpenSSL}.

(** A result that is neither a deadlock nor missing fuel. *)
Definition fine {A} (r : res A) : Prop :=
  match r with Ok _ => True | UB f => f ≠ Deadlock | NoFuel => False end.

(** Started with the lock in state [lk], [m] neither deadlocks nor runs out of
    fuel, relates the states before and after by [R], and returns early only
    with the code of a failed decoding. *)
Definition sp (lk : bool) (R : ledger_state → ledger_state → Prop) {A} (m : LM A) : Prop :=
  ∀ s, lock s = lk → match m s with
                     | Ok (r, s') => R s s' ∧ ∀ z, r = inl z → z = LEDGER_ERROR_DECODING
                     | UB f => f ≠ Deadlock
                     | NoFuel => False
                     end.

(** Relations that keep the lock. *)
Class Frame (R : ledger_state → ledger_state → Prop) : Prop := {
  frame_refl s : R s s;
  frame_trans s1 s2 s3 : R s1 s2 → R s2 s3 → R s1 s3;
  frame_lock s s' : R s s' → lock s' = lock s;
  frame_event s e : R s (MkLedger (root_certs_orderer s) (root_certs_apps s) (state s) (lock s)
                           (sequence_number s) (updates s) (events s ++ [e])) }.

Context {R : ledger_state → ledger_state → Prop} {HR : Frame R} (lk : bool).

Lemma sp_ret {A} (a : A) : sp lk R (mret a).
Proof. intros s _. split; [apply frame_refl|done]. Qed.
Lemma sp_early {A} : sp lk R (return_early LEDGER_ERROR_DECODING : LM A).
Proof. intros s _. split; [apply frame_refl|]. by intros z [= <-]. Qed.
Lemma sp_gets {A} (f : ledger_state → A) : sp lk R (gets f).
Proof. intros s _. split; [apply frame_refl|done]. Qed.
Lemma sp_event e : sp lk R (event_log e).
Proof. intros s _. split; [apply frame_event|done]. Qed.
Lemma sp_pure {A} (r : res A) : fine r → sp lk R (pure r).
Proof. intros Hr s _. unfold pure. destruct r; [split; [apply frame_refl|done]|done..]. Qed.

Lemma sp_bind {A B} (m : LM A) (f : A → LM B) :
  sp lk R m → (∀ a, sp lk R (f a)) → sp lk R (m ≫= f).
Proof.
  intros Hm Hf s Hs. specialize (Hm s Hs). unfold mbind, lm_bind.
  destruct (m s) as [[[z|a] s']| |]; try done.
  { destruct Hm as [? Hz]. split; [done|]. intros z' [= <-]. by apply Hz. }
  destruct Hm as [Hm _]. assert (lock s' = lk) as Hs' by (rewrite <-Hs; by apply frame_lock).
  specialize (Hf a s' Hs'). destruct (f a s') as [[r s'']| |]; try done.
  destruct Hf as [Hf Hz]. split; [by eapply frame_trans|done].
Qed.

Lemma sp_decode_pb {A} (d : bytes → option A) b : sp lk R (decode_pb d b).
Proof. unfold decode_pb. destruct (d b); [apply sp_ret|apply sp_early]. Qed.
Lemma sp_decode_ptr {A} (d : bytes → option A) b : sp lk R (decode_ptr d b).
Proof.
  unfold decode_ptr. apply sp_bind; [apply sp_pure; by destruct b|]. intros. apply sp_decode_pb.
Qed.

Lemma sp_ignore {A} (m : LM A) : sp lk R m → sp lk R (ignore m).
Proof.
  intros Hm s Hs. specialize (Hm s Hs). unfold ignore. destruct (m s) as [[r s']| |]; try done.
  by destruct Hm.
Qed.

Lemma sp_fold {A B} (f : B → A → LM B) b l : (∀ b a, sp lk R (f b a)) → sp lk R (fold f b l).
Proof.
  intros Hf. revert b. induction l as [|a l IH]; intros b; [apply sp_ret|]. by apply sp_bind.
Qed.
End logic.

(** ** The callees terminate *)

Lemma fine_deref {A} (p : option A) : fine (deref p).
Proof. by destruct p. Qed.
Lemma fine_read_at {A} (l : list A) i : fine (read_at l i).
Proof. unfold read_at. by destruct (l !! i). Qed.
Lemma fine_bind {A B} (r : res A) (f : A → res B) : fine r → (∀ a, fine (f a)) → fine (r ≫= f).
Proof. intros Hr Hf. destruct r; try done. apply Hf. Qed.
Lemma fine_store m off d : fine (store m off d).
Proof. unfold store. by case_bool_decide. Qed.

Lemma composite_loop_fine fuel : ∀ idx,
  match idx with Some s => length s + 1 < fuel | None => 0 < fuel end → fine (composite_loop fuel idx).
Proof.
  induction fuel as [|f IH]; intros [s|] Hf; try lia; cbn [composite_loop]; [|done].
  case_bool_decide as Hp; [done|]. apply fine_bind; [|done]. apply IH.
  destruct s as [|c s]; [done|]. cbn in Hp. cbn [cstr]. rewrite (bool_decide_false _ Hp).
  cbn [length] in *. case_bool_decide; [|lia]. cbn [drop]. rewrite length_drop. lia.
Qed.

Lemma composite_tail_fine key : fine (composite_tail key).
Proof. apply composite_loop_fine. destruct key; cbn; lia. Qed.

Lemma unmarshal_ecc_response_fine b : fine (unmarshal_ecc_response b).
Proof.
  unfold unmarshal_ecc_response, json_parse_string.
  destruct (parse_text_total (skip_bom b)) as (r & -> & _). cbn [mbind res_bind].
  assert (∀ o f, fine (copy_field o f)) as Hc.
  { intros o f. unfold copy_field. apply fine_bind; [apply fine_deref|]. intros. by case_bool_decide. }
  repeat (apply fine_bind; [apply Hc|intros ?]). done.
Qed.

(** ** What a transaction may change *)

(** Updates only gain entries, with versions in [Pv]; entries stay. *)
Definition grows (Pv : version_t → Prop) (u u' : kvs_t) : Prop := map_ok u →
  map_ok u' ∧ (∀ k x, map_find k u = Some x → map_find k u' = Some x) ∧
  (∀ k x, map_find k u' = Some x → map_find k u = Some x ∨ Pv x.2).

Section relation.
Context {O : OpenSSL}.

Record tx_rel (Pv : version_t → Prop) (s s' : ledger_state) : Prop := {
  tr_state : state s' = state s;
  tr_lock : lock s' = lock s;
  tr_seq : sequence_number s' = sequence_number s;
  tr_updates : grows Pv (updates s) (updates s') }.

Lemma grows_refl Pv u : grows Pv u u.
Proof. intros Hu. split_and!; auto. Qed.

Lemma grows_trans Pv u1 u2 u3 : grows Pv u1 u2 → grows Pv u2 u3 → grows Pv u1 u3.
Proof.
  intros H12 H23 H1. destruct (H12 H1) as (H2 & K12 & N12). destruct (H23 H2) as (H3 & K23 & N23).
  split_and!; [done|auto|]. intros k x Hx. destruct (N23 k x Hx) as [?|?]; auto.
Qed.

#[export] Instance tx_rel_frame Pv : Frame (tx_rel Pv).
Proof.
  split.
  - intros s. split; try done. apply grows_refl.
  - intros s1 s2 s3 [] []. split; try congruence. by eapply grows_trans.
  - by intros s s' [].
  - intros s e. split; try done. apply grows_refl.
Qed.

Lemma sp_update_insert lk (Pv : version_t → Prop) k val v : Pv v →
  sp lk (tx_rel Pv) (update_insert k val v).
Proof.
  intros Hv s _. split; [|done]. split; try done. cbn. intros Hu. split_and!; [by apply map_ok_insert|..].
  - intros k' x Hx. rewrite map_find_insert by done.
    destruct (map_find k (updates s)) eqn:E; [done|]. case_bool_decide; congruence.
  - intros k' x. rewrite map_find_insert by done.
    destruct (map_find k (updates s)) eqn:E; [auto|]. case_bool_decide; [|auto].
    intros [= <-]. by right.
Qed.
End relation.

Ltac fine_tac := repeat first
  [apply fine_deref|apply fine_read_at|apply fine_store|apply composite_tail_fine
  |apply unmarshal_ecc_response_fine|apply fine_bind; [|intros ?]|case_match|done].

Ltac sp_tac := repeat first
  [done|simple apply sp_ret|simple apply sp_early|simple apply sp_gets|simple apply sp_event
  |simple apply sp_decode_ptr|simple apply sp_decode_pb
  |simple apply sp_update_insert; done|simple apply sp_fold; intros ? ?|simple apply sp_ignore
  |simple apply sp_bind; [|intros ?]|simple apply sp_pure; fine_tac|case_match].

Section transactions.
Context {O : OpenSSL} {F : FabricPb} (Pv : version_t → Prop) (v : version_t) (Hv : Pv v) (lk : bool).

Lemma sp_check_read key w b : sp lk (tx_rel Pv) (check_read key w b).
Proof. unfold check_read. sp_tac. Qed.

Lemma sp_ns_reads acc n : sp lk (tx_rel Pv) (ns_reads acc n).
Proof.
  unfold ns_reads. sp_tac; unfold range_query, range_read, plain_read; sp_tac; apply sp_check_read.
Qed.

Lemma sp_ns_writes ws n : sp lk (tx_rel Pv) (ns_writes v ws n).
Proof. unfold ns_writes. sp_tac; unfold lscc_write, ercc_write, ecc_write; sp_tac. Qed.

Lemma sp_process_action u p : sp lk (tx_rel Pv) (process_action v u p).
Proof.
  unfold process_action, apply_results. sp_tac; first [apply sp_ns_reads|apply sp_ns_writes|idtac].
  all: unfold validate_ecc_tx; sp_tac.
Qed.

Lemma sp_parse_endorser_transaction tx : sp lk (tx_rel Pv) (parse_endorser_transaction tx v).
Proof. unfold parse_endorser_transaction. sp_tac. apply sp_process_action. Qed.

Lemma sp_set_store i c : sp lk (tx_rel Pv) (λ s, Ok (inr tt, set_store i c s)).
Proof. intros s _. split; [|done]. destruct i; split; try done; apply grows_refl. Qed.

Lemma sp_parse_config c : sp lk (tx_rel Pv) (parse_config c).
Proof.
  unfold parse_config, config_value, add_root_cert, check_admin_cert, store_root_cert, validate_cert.
  sp_tac; apply sp_set_store.
Qed.
End transactions.

(** ** Envelopes and blocks *)

(** [m] never returns early. *)
Definition noearly {O : OpenSSL} {A} (m : LM A) : Prop := ∀ s z s', m s ≠ Ok (inl z, s').

(** Versions a block's transactions carry. *)
Definition block_version (h : common_BlockHeader) (n : nat) (v : version_t) : Prop :=
  block_num v = number h ∧ (0 <= tx_num v < Z.of_nat n)%Z.

Section blocks.
Context {O : OpenSSL} {F : FabricPb}.

Lemma noearly_bind_pure {A B} (r : res A) (f : A → LM B) :
  (∀ a, noearly (f a)) → noearly (pure r ≫= f).
Proof. intros Hf s z s'. unfold mbind, lm_bind, pure. destruct r; [apply Hf|done..]. Qed.
Lemma noearly_ignore {A} (m : LM A) : noearly (ignore m).
Proof. intros s z s'. unfold ignore. by destruct (m s) as [[]| |]. Qed.

(** A section between [spin_lock] and [spin_unlock]. *)
Lemma sp_locked Pv (m : LM unit) : noearly m → sp true (tx_rel Pv) m →
  sp false (tx_rel Pv) (_ ← spin_lock; _ ← m; spin_unlock).
Proof.
  intros Hne Hm s Hs. unfold mbind, lm_bind, spin_lock. rewrite Hs.
  specialize (Hm (set_lock true s) eq_refl). specialize (Hne (set_lock true s)).
  destruct (m (set_lock true s)) as [[[z|a] s']| |]; [by destruct (Hne z s')| |done..].
  destruct Hm as [[H1 H2 H3 H4] _]. split; [|done]. split; cbn in *; done.
Qed.

Lemma sp_envelope_checks lk Pv h data : sp lk (tx_rel Pv) (envelope_checks h data).
Proof. unfold envelope_checks, verify_signature, tx_id_mismatch. sp_tac. Qed.

Lemma sp_dispatch lk (Pv : version_t → Prop) h v ch pl : Pv v → sp lk (tx_rel Pv) (dispatch h v ch pl).
Proof.
  intros Hv. unfold dispatch. sp_tac; [apply sp_parse_config|by apply sp_parse_endorser_transaction].
Qed.

Lemma noearly_dispatch h v ch pl : noearly (dispatch h v ch pl).
Proof.
  unfold dispatch. repeat case_match; try (by intros ? ? ?); apply noearly_bind_pure; intros; apply noearly_ignore.
Qed.

Lemma sp_process_envelope h filter i data n : i < n →
  sp false (tx_rel (block_version h n)) (process_envelope h filter i data).
Proof.
  intros Hi. unfold process_envelope. destruct (bool_decide (filter !! i = _)); [apply sp_ret|].
  apply sp_bind; [apply sp_envelope_checks|]. intros cp.
  apply sp_locked; [apply noearly_dispatch|]. apply sp_dispatch. split; cbn; [done|lia].
Qed.

Lemma sp_process_envelopes h filter n l : ∀ i, i + length l <= n →
  sp false (tx_rel (block_version h n)) (process_envelopes h filter i l).
Proof.
  induction l as [|d l IH]; intros i Hi; cbn [process_envelopes]; [apply sp_ret|]. cbn in Hi.
  apply sp_bind; [apply sp_process_envelope; lia|]. intros _. apply IH. lia.
Qed.

(** Weakest preconditions, for code whose result code matters. *)
Definition wp {A} (m : LM A) (Q : Z + A → ledger_state → Prop) (s : ledger_state) : Prop :=
  match m s with Ok (r, s') => Q r s' | UB f => f ≠ Deadlock | NoFuel => False end.

Lemma wp_bind {A B} (m : LM A) (f : A → LM B) Q s :
  wp m (λ r s1, match r with inl z => Q (inl z) s1 | inr a => wp (f a) Q s1 end) s → wp (m ≫= f) Q s.
Proof. unfold wp, mbind, lm_bind. by destruct (m s) as [[[]]| |]. Qed.

Lemma wp_sp {A} lk R (m : LM A) (Q : Z + A → ledger_state → Prop) s :
  sp lk R m → lock s = lk →
  (∀ r s', R s s' → (∀ z, r = inl z → z = LEDGER_ERROR_DECODING) → Q r s') → wp m Q s.
Proof.
  intros Hm Hs HQ. specialize (Hm s Hs). unfold wp. destruct (m s) as [[]| |]; auto.
  destruct Hm. auto.
Qed.

(** What is known after a block was accepted or refused. *)
Definition block_accepted (b : bytes) (s s' : ledger_state) : Prop :=
  sequence_number s' = u32 (sequence_number s + 1) ∧
  state s' = apply_updates (updates s') (state s) ∧ map_ok (updates s') ∧
  ∃ block, decode_Block b = Some block ∧ sequence_number s' = u32 (number (header block)) ∧
    ∀ k x, map_find k (updates s') = Some x →
      block_version (header block) (length (block_data block)) x.2.

Definition block_refused (s s' : ledger_state) : Prop :=
  sequence_number s' = sequence_number s ∧ state s' = state s.

Definition block_outcome (b : bytes) (s : ledger_state) (r : Z + Z) (s' : ledger_state) : Prop :=
  lock s' = false ∧
  match r with
  | inr z => z = LEDGER_SUCCESS ∧ block_accepted b s s'
  | inl z => (z = LEDGER_ERROR_DECODING ∨ z = LEDGER_INVALID_BLOCK_NUMBER) ∧ block_refused s s'
  end.
End blocks.

Section block.
Context {O : OpenSSL} {F : FabricPb}.

Lemma commit_eq b s1 : lock s1 = false → b = u32 (sequence_number s1 + 1) →
  commit_state_updates b s1 = Ok (inr LEDGER_SUCCESS,
    MkLedger (root_certs_orderer s1) (root_certs_apps s1) (apply_updates (updates s1) (state s1))
      false b (updates s1) (events s1)).
Proof.
  intros Hl Hb. unfold commit_state_updates, apply_commit, mbind, lm_bind, spin_lock, spin_unlock, gets, pure, mret, lm_ret.
  rewrite Hl. cbn. rewrite bool_decide_true by done. done.
Qed.

Lemma wp_commit b s1 : lock s1 = false → b = u32 (sequence_number s1 + 1) →
  wp (commit_state_updates b) (λ r s', r = inr LEDGER_SUCCESS ∧
    s' = MkLedger (root_certs_orderer s1) (root_certs_apps s1) (apply_updates (updates s1) (state s1))
           false b (updates s1) (events s1)) s1.
Proof. intros Hl Hb. unfold wp. by rewrite commit_eq. Qed.

(** The checks before the envelopes: they change nothing but the log. *)
Lemma sp_block_signature h value lk u ms :
  sp lk (tx_rel (λ _, False)) (check_block_signature h value u ms).
Proof. unfold check_block_signature, verify_signature. sp_tac. Qed.

Lemma sp_block_checks lk block : sp lk (tx_rel (λ _, False)) (block_checks block).
Proof. unfold block_checks, tx_filter. sp_tac. apply sp_block_signature. Qed.

Lemma parse_block_wp b s : lock s = false → wp (parse_block_body b) (block_outcome b s) s.
Proof.
  intros Hl. unfold parse_block_body. apply wp_bind.
  destruct (decode_Block b) as [block|] eqn:Hdec.
  2:{ unfold wp, decode_pb. rewrite Hdec. cbn. split; [done|]. split; [by left|done]. }
  unfold wp at 1, decode_pb. rewrite Hdec. cbn [mret lm_ret].
  apply wp_bind. unfold wp at 1, gets. case_match eqn:Hseq.
  { cbn. split; [done|]. split; [by right|done]. }
  apply negb_false_iff, bool_decide_eq_true in Hseq.
  apply wp_bind. eapply wp_sp; [apply sp_block_checks|done|].
  intros r s1 [Hst Hlk Hsn _] Hz. destruct r as [z|filter].
  { split; [congruence|]. split; [left; by apply Hz|by split]. }
  apply wp_bind. unfold wp at 1. apply wp_bind.
  eapply wp_sp; [apply (sp_process_envelopes _ _ (length (block_data block))); lia|cbn; congruence|].
  intros r s2 [Hst2 Hlk2 Hsn2 Hup] Hz2. cbn in Hst2, Hlk2, Hsn2, Hup. destruct r as [z|[]].
  { split; [congruence|]. split; [left; by apply Hz2|]. split; congruence. }
  apply wp_bind. pose proof (wp_commit (u32 (number (header block))) s2) as Hc.
  unfold wp at 1 in Hc. unfold wp at 1.
  destruct (commit_state_updates _ s2) as [[r s3]| |]; [|apply Hc; congruence..].
  destruct Hc as [-> ->]; [congruence..|]. split; [done|]. split; [done|].
  destruct (Hup map_ok_nil) as (Hok & _ & Hnew).
  unfold block_accepted. cbn [sequence_number state updates].
  split_and!; [congruence..|done|]. exists block. split_and!; [done..|].
  intros k x Hx. destruct (Hnew k x Hx) as [?|?]; done.
Qed.
End block.

(** ** Committing *)

Lemma apply_updates_ok up st : map_ok st → map_ok (apply_updates up st).
Proof.
  unfold apply_updates. revert st. induction up as [|p up IH]; intros st Hst; [done|].
  cbn [fold_left]. by apply IH, map_ok_assign.
Qed.

Lemma apply_updates_find up st k : map_ok up → map_ok st →
  map_find k (apply_updates up st) =
  match map_find k up with Some x => Some x | None => map_find k st end.
Proof.
  unfold apply_updates. revert st. induction up as [|[k0 x0] up IH]; intros st Hup Hst; [done|].
  apply map_ok_cons in Hup as [Hup Hk]. cbn [fold_left map_find fst snd].
  rewrite IH by (done || by apply map_ok_assign). rewrite map_find_assign by done.
  case_bool_decide; [|done]. subst. by rewrite map_find_lt.
Qed.

Section chain.
Context {O : OpenSSL} {F : FabricPb}.

(** The outcomes of [parse_block]. *)
Lemma parse_block_cases b s : lock s = false →
  match parse_block b s with
  | Ok (z, s') =>
      lock s' = false ∧
      (z = LEDGER_SUCCESS ∧ block_accepted b s s' ∨
       (z = LEDGER_ERROR_DECODING ∨ z = LEDGER_INVALID_BLOCK_NUMBER) ∧ block_refused s s')
  | UB f => f ≠ Deadlock
  | NoFuel => False
  end.
Proof.
  intros Hl. pose proof (parse_block_wp b s Hl) as H. unfold parse_block, code, wp in *.
  destruct (parse_block_body b s) as [[[z|z] s']| |]; try done;
    destruct H as (Hlk & H); split; auto.
Qed.

(** C2: a block is processed atomically and without deadlock. From a state with
    the lock free, [parse_block] has three outcomes. It succeeds: the sequence
    number advances by one (32-bit) to the block's number and the state becomes
    the old state overwritten by the block's updates; the lock is free
    afterwards. Or it fails with a decoding or block-number error, and neither
    changes; the lock is free. Or it faults and the enclave is lost (a dangling
    read for a certificate that does not verify, a missing measurement, a
    filter that is too long, a failed assertion), but never by a deadlock; it
    always ends. *)
Theorem parse_block_atomic b s : lock s = false →
  match parse_block b s with
  | Ok (z, s') =>
      lock s' = false ∧
      (z = LEDGER_SUCCESS ∧ block_accepted b s s' ∨
       (z = LEDGER_ERROR_DECODING ∨ z = LEDGER_INVALID_BLOCK_NUMBER) ∧ block_refused s s')
  | UB f => f ≠ Deadlock
  | NoFuel => False
  end.
Proof. apply parse_block_cases. Qed.

(** Committing a block makes the state the union of the block's updates and
    the old state, the updates taking precedence. *)
Theorem commit_is_union b s s' z : lock s = false → map_ok (state s) →
  parse_block b s = Ok (z, s') → z = LEDGER_SUCCESS →
  abs (state s') = abs (updates s') ∪ abs (state s) ∧ map_ok (state s').
Proof.
  intros Hl Hok Hp ->. pose proof (parse_block_wp b s Hl) as H. unfold parse_block, code, wp in *.
  destruct (parse_block_body b s) as [[[z|z] s1]| |]; try done; simplify_eq;
    destruct H as (_ & Hz & H).
  { by destruct Hz. }
  destruct H as (_ & -> & Hup & _). split; [|by apply apply_updates_ok].
  apply map_eq. intros k. rewrite lookup_union, !abs_lookup, apply_updates_find by done.
  destruct (map_find k (updates s')), (map_find k (state s)); done.
Qed.

(** ** Runs *)

(** Block numbers stay in the 32-bit range of the sequence number. *)
Definition number_ok (b : bytes) : Prop := ∀ block, decode_Block b = Some block →
  (0 <= number (header block) < 2 ^ 32 - 1)%Z.

(** The enclave receives a block, whatever the outcome. *)
Inductive next_block (s s' : ledger_state) : Prop :=
  | next_block_intro b z : number_ok b → parse_block b s = Ok (z, s') → next_block s s'.

(** The invariant: the lock is free, keys are ordered, and no entry is newer
    than the last block. *)
Record ledger_inv (s : ledger_state) : Prop := {
  inv_lock : lock s = false;
  inv_ok : map_ok (state s);
  inv_seq : (0 <= sequence_number s < 2 ^ 32)%Z;
  inv_versions : ∀ k x, map_find k (state s) = Some x →
    (0 <= block_num x.2 <= sequence_number s)%Z ∧ (sequence_number s < 2 ^ 32 - 1)%Z }.

Lemma initial_inv : ledger_inv initial.
Proof. split; cbn; [done|constructor|done|done]. Qed.

(** One step keeps the invariant; an entry is kept or replaced by a newer one. *)
Definition newer (s s' : ledger_state) : Prop := ∀ k x, map_find k (state s) = Some x →
  ∃ x', map_find k (state s') = Some x' ∧ (x' = x ∨ (block_num x.2 < block_num x'.2)%Z).

Lemma next_block_inv s s' : next_block s s' → ledger_inv s → ledger_inv s' ∧ newer s s'.
Proof.
  intros [b z Hb Hp] [Hl Hok Hseq Hv].
  pose proof (parse_block_wp b s Hl) as H. unfold parse_block, code, wp in *.
  destruct (parse_block_body b s) as [[[z'|z'] s1]| |]; try done; simplify_eq; destruct H as (Hlk & _ & H).
  { destruct H as [Hs Hst]. split.
    - split; rewrite ?Hst, ?Hs; done.
    - intros k x Hx. exists x. rewrite Hst. auto. }
  destruct H as (Hs & Hst & Hup & block & Hdec & Hnum & Hnew). specialize (Hb _ Hdec).
  assert (sequence_number s' = number (header block)) as Hn
    by (rewrite Hnum; unfold u32; apply Z.mod_small; lia).
  assert (∀ k x, map_find k (state s) = Some x → sequence_number s' = (sequence_number s + 1)%Z) as Hsucc.
  { intros k x Hx. destruct (Hv k x Hx). rewrite Hs. unfold u32. apply Z.mod_small. lia. }
  split.
  - split; [done|rewrite Hst; by apply apply_updates_ok|lia|].
    intros k x. rewrite Hst, apply_updates_find by done.
    destruct (map_find k (updates s')) as [y|] eqn:Ey.
    + intros [= <-]. destruct (Hnew k y Ey) as [-> _]. lia.
    + intros Hx. destruct (Hv k x Hx). pose proof (Hsucc k x Hx). lia.
  - intros k x Hx. rewrite Hst, apply_updates_find, Hx by done.
    destruct (map_find k (updates s')) as [y|] eqn:Ey; [|eauto].
    exists y. split; [done|]. right. destruct (Hnew k y Ey) as [-> _]. destruct (Hv k x Hx).
    rewrite (Hsucc k x Hx) in Hn. lia.
Qed.

Lemma newer_trans s1 s2 s3 : newer s1 s2 → newer s2 s3 → newer s1 s3.
Proof.
  intros H12 H23 k x Hx. destruct (H12 k x Hx) as (y & Hy & Hxy).
  destruct (H23 k y Hy) as (z & Hz & Hyz). exists z. split; [done|].
  destruct Hxy as [->|?], Hyz as [->|?]; auto. right. lia.
Qed.

(** C20: along any sequence of received blocks, accepted or refused, whose numbers
    are from 0 to [2 ^ 32 - 2], the ledger invariant is kept, no key disappears,
    and a key's entry only changes to one with a higher block number. (A larger
    number is cut to 32 bits for the sequence number but not for the versions.) *)
Theorem versions_never_decrease s s' : ledger_inv s → rtc next_block s s' →
  ledger_inv s' ∧ newer s s'.
Proof.
  intros Hinv Hsteps. induction Hsteps as [s|s s1 s2 Hs _ IH].
  - split; [done|]. intros k x Hx. eauto.
  - destruct (next_block_inv _ _ Hs Hinv) as [H1 N1]. destruct (IH H1) as [H2 N2].
    split; [done|]. by eapply newer_trans.
Qed.

(** Queries take and release the lock. *)
Lemma lock_unlock s : lock s = false → set_lock false (set_lock true s) = s.
Proof. destruct s; cbn. by intros ->. Qed.

Lemma state_hash_eq key out s : lock s = false →
  ledger_get_state_hash key out s =
  Ok (inr match map_find (cstr key) (state s) with
          | Some (value, _) => (LEDGER_SUCCESS, SHA256 value)
          | None => (LEDGER_NOT_FOUND, out)
          end, s).
Proof.
  intros Hl. pose proof (lock_unlock s Hl) as E.
  unfold ledger_get_state_hash, mbind, lm_bind, spin_lock, spin_unlock, gets. rewrite Hl. cbn [state set_lock].
  destruct (map_find _ _) as [[value v]|]; by rewrite E.
Qed.

Lemma multi_state_hash_eq comp_key s : lock s = false → map_ok (state s) → nul_free comp_key →
  ledger_get_multi_state_hash comp_key s =
  Ok (inr (LEDGER_SUCCESS, SHA256 (concat (map (λ e, erase_to_dot e.1 ++ e.2.1)
        (List.filter (λ e, starts_with comp_key e.1) (state s))))), s).
Proof.
  intros Hl Hok Hn. pose proof (lock_unlock s Hl) as E.
  unfold ledger_get_multi_state_hash, mbind, lm_bind, spin_lock, spin_unlock, gets. rewrite Hl.
  rewrite (cstr_id _ Hn). cbn [state set_lock] in *. rewrite E. by rewrite prefix_scan_filter.
Qed.

(** The state hash of a key prefix is the hash of exactly the entries whose
    key starts with it, in key order, although the code starts at
    [lower_bound] and stops at the first key without the prefix; the query
    leaves the ledger as it was. *)
Theorem multi_state_hash_complete comp_key s : lock s = false → map_ok (state s) → nul_free comp_key →
  ledger_get_multi_state_hash comp_key s =
  Ok (inr (LEDGER_SUCCESS, SHA256 (concat (map (λ e, erase_to_dot e.1 ++ e.2.1)
        (List.filter (λ e, starts_with comp_key e.1) (state s))))), s).
Proof. apply multi_state_hash_eq. Qed.
End chain.

(** ** Stale reads *)

Section stale.
Context {O : OpenSSL} {F : FabricPb}.

(** [m] changes nothing. *)
Definition reader {A} (m : LM A) : Prop := ∀ s r s', m s = Ok (r, s') → s' = s.

Lemma reader_ret {A} (a : A) : reader (mret a).
Proof. intros s r s' H. by injection H. Qed.
Lemma reader_early {A} z : reader (return_early z : LM A).
Proof. intros s r s' H. by injection H. Qed.
Lemma reader_gets {A} (f : ledger_state → A) : reader (gets f).
Proof. intros s r s' H. by injection H. Qed.
Lemma reader_pure {A} (x : res A) : reader (pure x).
Proof. intros s r s'. unfold pure. destruct x; [|done..]. by intros [= _ ->]. Qed.
Lemma reader_bind {A B} (m : LM A) (f : A → LM B) :
  reader m → (∀ a, reader (f a)) → reader (m ≫= f).
Proof.
  intros Hm Hf s r s'. unfold mbind, lm_bind.
  destruct (m s) as [[[z|a] s1]| |] eqn:E; [|..|done|done]; apply Hm in E as ->.
  - by intros [= _ ->].
  - apply Hf.
Qed.
Lemma reader_fold {A B} (f : B → A → LM B) b l : (∀ b a, reader (f b a)) → reader (fold f b l).
Proof.
  intros Hf. revert b. induction l as [|a l IH]; intros b; [apply reader_ret|]. by apply reader_bind.
Qed.
Lemma reader_decode_pb {A} (d : bytes → option A) b : reader (decode_pb d b).
Proof. unfold decode_pb. destruct (d b); [apply reader_ret|apply reader_early]. Qed.
Lemma reader_decode_ptr {A} (d : bytes → option A) b : reader (decode_ptr d b).
Proof. apply reader_bind; [apply reader_pure|]. intros. apply reader_decode_pb. Qed.

Ltac reader_tac := repeat first
  [simple apply reader_ret|simple apply reader_gets|simple apply reader_pure
  |simple apply reader_decode_ptr|simple apply reader_decode_pb
  |simple apply reader_fold; intros ? ?|simple apply reader_bind; [|intros ?]|case_match].

Lemma reader_range_read n acc r : reader (range_read n acc r).
Proof. unfold range_read, check_read. reader_tac. Qed.
Lemma reader_range_query n acc q : reader (range_query n acc q).
Proof. destruct q; cbn [range_query]; reader_tac. apply reader_range_read. Qed.
Lemma reader_plain_read n acc r : reader (plain_read n acc r).
Proof. unfold plain_read, check_read. reader_tac. Qed.
Lemma reader_ns_reads acc n : reader (ns_reads acc n).
Proof. unfold ns_reads. reader_tac; [apply reader_range_query|apply reader_plain_read]. Qed.

(** Splitting a run of a sequence that returned a value. *)
Lemma lm_bind_inv {A B} (m : LM A) (f : A → LM B) s b s' :
  (m ≫= f) s = Ok (inr b, s') → ∃ a s1, m s = Ok (inr a, s1) ∧ f a s1 = Ok (inr b, s').
Proof. unfold mbind, lm_bind. destruct (m s) as [[[z|a] s1]| |]; intros; simplify_eq. eauto. Qed.

Lemma pure_inv {A} (x : res A) s a s' : pure x s = Ok (inr a, s') → x = Ok a ∧ s' = s.
Proof. unfold pure. destruct x; intros; simplify_eq. done. Qed.

(** A fold of readers whose step never turns an invalid accumulator valid, and
    which meets an element that invalidates it, ends invalid. *)
Definition sticky {A B} (bad : B → Prop) (f : B → A → LM B) : Prop := ∀ acc a s acc' s',
  bad acc → f acc a s = Ok (inr acc', s') → bad acc'.

Lemma fold_sticky {A B} (bad : B → Prop) (f : B → A → LM B) : sticky bad f →
  sticky bad (λ acc l, fold f acc l).
Proof.
  intros Hf acc l. revert acc. induction l as [|a l IH]; intros acc s acc' s' Hb H.
  { injection H as <- _. done. }
  apply lm_bind_inv in H as (acc1 & s1 & H1 & H2). eapply IH; [|exact H2]. by eapply Hf.
Qed.

Lemma fold_kills {A B} (bad : B → Prop) (f : B → A → LM B) l a acc s acc' s' :
  (∀ b a, reader (f b a)) → sticky bad f → a ∈ l →
  (∀ b b' s', f b a s = Ok (inr b', s') → bad b') →
  fold f acc l s = Ok (inr acc', s') → bad acc'.
Proof.
  intros Hr Hs Hin Hk. revert acc. induction l as [|x l IH]; intros acc H.
  { by apply not_elem_of_nil in Hin. }
  apply lm_bind_inv in H as (acc1 & s1 & H1 & H2).
  pose proof (Hr _ _ _ _ _ H1) as ->. apply elem_of_cons in Hin as [->|Hin]; [|by eapply IH].
  eapply (fold_sticky bad f Hs); [|exact H2]. by eapply Hk.
Qed.

Definition invalid (acc : bool * list bytes) : Prop := acc.1 = false.

(** A read that conflicts with the state or the block's updates. *)
Definition conflict (s : ledger_state) (key : bytes) (v : version_t) : Prop :=
  has_version_conflict key (state s) v = 1%Z ∨ has_version_conflict key (updates s) v = 1%Z.

Lemma check_read_eq key v b s :
  check_read key v b s =
  Ok (inr (if bool_decide (has_version_conflict key (state s) v = 1)%Z
              || bool_decide (has_version_conflict key (updates s) v = 1)%Z then false else b), s).
Proof. done. Qed.

Lemma check_read_conflict key v b s : conflict s key v → check_read key v b s = Ok (inr false, s).
Proof.
  intros [H|H]; rewrite check_read_eq, (bool_decide_true _ H); [done|]. by rewrite orb_true_r.
Qed.

Lemma sticky_plain n : sticky invalid (plain_read n).
Proof.
  intros acc a s acc' s' Hb H. unfold plain_read in H.
  apply lm_bind_inv in H as (k & s1 & [_ ->]%pure_inv & H).
  apply lm_bind_inv in H as (b & s2 & Hc & H). injection H as <- _. rewrite check_read_eq in Hc.
  injection Hc as <- _. unfold invalid in *. cbn. rewrite Hb. by destruct (_ || _).
Qed.

Lemma sticky_range n : sticky invalid (range_read n).
Proof.
  intros acc a s acc' s' Hb H. unfold range_read in H.
  apply lm_bind_inv in H as (k & s1 & [_ ->]%pure_inv & H).
  apply lm_bind_inv in H as (t & s1 & [_ ->]%pure_inv & H).
  apply lm_bind_inv in H as (b & s2 & Hc & H). injection H as <- _. rewrite check_read_eq in Hc.
  injection Hc as <- _. unfold invalid in *. cbn. rewrite Hb. by destruct (_ || _).
Qed.

Lemma sticky_range_query n : sticky invalid (range_query n).
Proof.
  intros acc [l| |] s acc' s' Hb H; cbn [range_query] in H; [|done|by injection H as <- _].
  by eapply (fold_sticky _ _ (sticky_range n)).
Qed.

Lemma sticky_ns_reads : sticky invalid ns_reads.
Proof.
  intros acc n s acc' s' Hb H. unfold ns_reads in H.
  apply lm_bind_inv in H as (kv & s1 & _ & H). apply lm_bind_inv in H as (nm & s2 & _ & H).
  apply lm_bind_inv in H as (acc1 & s3 & H1 & H2).
  eapply (fold_sticky _ _ (sticky_plain _)); [|exact H2].
  by eapply (fold_sticky _ _ (sticky_range_query _)).
Qed.

(** A namespace of the transaction has a stale read: a plain read or a read of
    a range query of a key whose version in the state or in the block's
    updates is newer than the one read. *)
Inductive stale_read (s : ledger_state) (n : ns_rwset) : Prop :=
  | stale_plain rw kv nm r k :
      rwset n = Some rw → decode_KVRWSet rw = Some kv → ns n = Some nm →
      r ∈ reads kv → read_key r = Some k →
      conflict s (cstr nm ++ x2e :: cstr k) (read_version r) → stale_read s n
  | stale_range rw kv nm q r k tail :
      rwset n = Some rw → decode_KVRWSet rw = Some kv → ns n = Some nm →
      raw_reads q ∈ range_queries_info kv → r ∈ q → read_key r = Some k → composite_tail k = Ok tail →
      conflict s (cstr nm ++ x2e :: tail) (read_version r) → stale_read s n.

Lemma stale_invalidates n s acc acc' s' : stale_read s n →
  ns_reads acc n s = Ok (inr acc', s') → invalid acc'.
Proof.
  intros Hst H. unfold ns_reads in H.
  apply lm_bind_inv in H as (kv & s1 & Hkv & H). pose proof (reader_decode_ptr _ _ _ _ _ Hkv) as ->.
  apply lm_bind_inv in H as (nm & s2 & [Hnm ->]%pure_inv & H).
  apply lm_bind_inv in H as (acc1 & s3 & H1 & H2).
  destruct Hst as [rw kv' nm' r k Hrw Hd Hn Hin Hk Hc|rw kv' nm' q r k tail Hrw Hd Hn Hq Hin Hk Ht Hc];
    unfold decode_ptr, decode_pb, mbind, lm_bind, pure in Hkv; rewrite Hrw in Hkv; cbn in Hkv;
    rewrite Hd in Hkv; injection Hkv as <-; rewrite Hn in Hnm; injection Hnm as <-.
  - assert (s3 = s) as -> by (eapply reader_fold; [|exact H1]; intros; apply reader_range_query).
    eapply (fold_kills invalid (plain_read (cstr nm'))); [apply reader_plain_read|apply sticky_plain|exact Hin| |exact H2].
    intros b b' s4 Hp. unfold plain_read in Hp. rewrite Hk in Hp.
    apply lm_bind_inv in Hp as (k' & s5 & [[= <-] ->]%pure_inv & Hp).
    apply lm_bind_inv in Hp as (v & s6 & Hv & Hp). rewrite check_read_conflict in Hv by done.
    injection Hv as <- <-. by injection Hp as <- _.
  - eapply (fold_sticky _ _ (sticky_plain _)); [|exact H2].
    eapply (fold_kills invalid (range_query (cstr nm'))); [..|exact H1].
    + apply reader_range_query.
    + apply sticky_range_query.
    + exact Hq.
    + intros b b' s4 Hf.
      eapply (fold_kills invalid (range_read (cstr nm'))); [apply reader_range_read|apply sticky_range|exact Hin| |exact Hf].
      intros c c' s5 Hp. unfold range_read in Hp. rewrite Hk in Hp.
      apply lm_bind_inv in Hp as (k' & s6 & [[= <-] ->]%pure_inv & Hp).
      apply lm_bind_inv in Hp as (t' & s7 & [Ht' ->]%pure_inv & Hp). rewrite Ht in Ht'. injection Ht' as <-.
      apply lm_bind_inv in Hp as (v & s8 & Hv & Hp). rewrite check_read_conflict in Hv by done.
      injection Hv as <- <-. by injection Hp as <- _.
Qed.

(** A transaction with a stale read (multi-version concurrency control)
    changes neither the state nor the updates of the block, whatever its
    writes: [apply_results] only logs. *)
Theorem stale_read_rejected v function action results tx n s r s' :
  decode_TxReadWriteSet results = Some tx → n ∈ ns_rwsets tx → stale_read s n →
  apply_results v function action results s = Ok (r, s') →
  updates s' = updates s ∧ state s' = state s.
Proof.
  intros Hd Hin Hst H. unfold apply_results, decode_pb in H. rewrite Hd in H.
  unfold mbind, lm_bind, mret, lm_ret in H.
  destruct (fold ns_reads (true, []) (ns_rwsets tx) s) as [[[z|acc] s1]| |] eqn:E; [..|done|done].
  - injection H as <- <-. apply reader_fold in E as ->; [done|]. apply reader_ns_reads.
  - assert (s1 = s) as -> by (apply reader_fold in E; [done|apply reader_ns_reads]).
    apply (fold_kills invalid ns_reads _ n) in E;
      [|apply reader_ns_reads|apply sticky_ns_reads|done|intros; by eapply stale_invalidates].
    unfold invalid in E. rewrite E in H. cbn in H. injection H as <- <-. done.
Qed.
End stale.

(** ** Concrete runs *)

#[local] Existing Instances ToyFabric.toy_openssl ToyFabric.toy_fabric.

(** The ledger after the genesis block, and after the first block. *)
Definition joined : ledger_state := (init_ledger initial).2.
Definition config_events : list event := [RootCert true; AdminCert true; RootCert true; AdminCert true].
Definition at_genesis : ledger_state :=
  MkLedger (Some [bs "orderer"]) (Some [bs "tx"]) [] false 0 [] config_events.
Definition block1_updates : kvs_t := [(bs "lscc.ecc", (bs "1.0", MkVersion 1 0))].
Definition at_block1 : ledger_state :=
  MkLedger (Some [bs "orderer"]) (Some [bs "tx"]) block1_updates false 1 block1_updates
    (config_events ++ [BlockSignature false; EnvelopeSignature false]).

Lemma at_genesis_run : parse_block (bs "genesis") joined = Ok (LEDGER_SUCCESS, at_genesis).
Proof. reflexivity. Qed.
Lemma at_block1_run : parse_block (bs "block1") at_genesis = Ok (LEDGER_SUCCESS, at_block1).
Proof. reflexivity. Qed.

Lemma parse_block_atomic_witness : lock at_genesis = false ∧
  match parse_block (bs "block1") at_genesis with
  | Ok (z, s') =>
      lock s' = false ∧
      (z = LEDGER_SUCCESS ∧ block_accepted (bs "block1") at_genesis s' ∨
       (z = LEDGER_ERROR_DECODING ∨ z = LEDGER_INVALID_BLOCK_NUMBER) ∧ block_refused at_genesis s')
  | UB f => f ≠ Deadlock
  | NoFuel => False
  end.
Proof. split; [reflexivity|]. apply parse_block_atomic. reflexivity. Defined.

Lemma commit_is_union_witness :
  abs (state at_block1) = abs (updates at_block1) ∪ abs (state at_genesis) ∧ map_ok (state at_block1).
Proof.
  apply (commit_is_union (bs "block1") at_genesis at_block1 LEDGER_SUCCESS);
    [reflexivity|constructor|exact at_block1_run|reflexivity].
Defined.

Lemma number_ok_genesis : number_ok (bs "genesis").
Proof. intros block [= <-]. cbn [header number ToyFabric.genesis ToyFabric.block1]. lia. Qed.
Lemma number_ok_block1 : number_ok (bs "block1").
Proof. intros block [= <-]. cbn [header number ToyFabric.genesis ToyFabric.block1]. lia. Qed.

Lemma versions_never_decrease_witness : ledger_inv at_block1 ∧ newer joined at_block1.
Proof.
  apply versions_never_decrease.
  - split; [reflexivity|constructor|split; [|reflexivity]; discriminate|intros k x Hx; discriminate Hx].
  - eapply rtc_l; [exact (next_block_intro _ _ _ _ number_ok_genesis at_genesis_run)|].
    eapply rtc_l; [exact (next_block_intro _ _ _ _ number_ok_block1 at_block1_run)|]. apply rtc_refl.
Defined.

Lemma multi_state_hash_complete_witness :
  ledger_get_multi_state_hash (bs "lscc") at_block1 =
  Ok (inr (LEDGER_SUCCESS, SHA256 (concat (map (λ e, erase_to_dot e.1 ++ e.2.1)
        (List.filter (λ e, starts_with (bs "lscc") e.1) (state at_block1))))), at_block1).
Proof.
  apply multi_state_hash_complete; [reflexivity|by apply map_ok_cons; repeat constructor|by repeat constructor].
Defined.

(** The transaction of the first block again, after the key it read changed. *)
Lemma stale_read_rejected_witness :
  ∃ s', apply_results (MkVersion 2 0) (bs "setup") (MkAction None None (Some (bs "lscc"))) (bs "tx") at_block1
          = Ok (inr tt, s') ∧
    updates s' = updates at_block1 ∧ state s' = state at_block1.
Proof.
  eexists. split; [reflexivity|].
  eapply (stale_read_rejected (MkVersion 2 0) (bs "setup") (MkAction None None (Some (bs "lscc"))) (bs "tx")
    (MkTxRwset [MkNsRwset (Some (bs "lscc")) (Some (bs "tx"))])
    (MkNsRwset (Some (bs "lscc")) (Some (bs "tx"))) at_block1).
  - reflexivity.
  - apply list_elem_of_here.
  - eapply stale_plain; [reflexivity..|apply list_elem_of_here|reflexivity|]. left. reflexivity.
  - reflexivity.
Defined.

End LedgerProofs.
