(* ===== verification/LedgerThreads.v ===== *)
(** * Concurrent ECALLs of the ledger enclave (src/tlcc_enclave/enclave/ledger.cpp)

    The ledger enclave serves queries while it processes a block. A thread that
    runs [parse_block] takes the spin lock once per transaction and once for
    the commit, a query takes it once; everything else runs outside the lock.
    Here the code is cut at these points: a thread is a program counter with
    its locals, [thread_step] one atomic piece of it, and [None] a thread that
    spins or has finished. The [updates] of [parse_block] are a local of the
    thread.

    The theorems: a block processed while queries run has the outcome of
    [parse_block] alone, every query is answered from the state before or after
    the whole block, no schedule deadlocks or runs forever; and two threads that
    process the same block can fail the assertion of [commit_state_updates],
    since the sequence number is read outside the lock. *)
From S2P Require Import Prelude Utils Base64 Parson ParsonParse StdMap Sgx Fabric Ledger LedgerProofs.
Import Utils Base64 Parson ParsonParse StdMap Fabric Ledger LedgerProofs.

Module LedgerThreads.

Inductive query := StateHash (key : bytes) | MultiStateHash (comp_key : bytes).

(** Where a thread in [parse_block] is: before the number check, before the
    block checks, before an envelope, and around the critical sections of a
    transaction and of the commit. *)
Inductive writer :=
  | Start (b : bytes)
  | Check (block : common_Block)
  | Envelope (h : common_BlockHeader) (filter : bytes) (i : nat) (l : list bytes)
  | LockTx (h : common_BlockHeader) (filter : bytes) (i : nat) (l : list bytes)
      (chdr : common_ChannelHeader) (payload : common_Payload)
  | InTx (h : common_BlockHeader) (filter : bytes) (i : nat) (l : list bytes)
      (chdr : common_ChannelHeader) (payload : common_Payload)
  | UnlockTx (h : common_BlockHeader) (filter : bytes) (i : nat) (l : list bytes)
  | LockCommit (n : Z)
  | InCommit (n : Z)
  | UnlockCommit
  | Accepted
  | Refused (code : Z).

Inductive reader := LockQuery | InQuery | UnlockQuery (r : Z * bytes) | Answered (r : Z * bytes).

Inductive lthread :=
  | Writer (w : writer) (updates : kvs_t)
  | Reader (q : query) (r : reader).

Section threads.
Context {O : OpenSSL} {F : FabricPb}.

(** The answer of a query from the state: result code and hash. *)
Definition query_answer (q : query) (st : kvs_t) : Z * bytes :=
  match q with
  | StateHash key =>
      match map_find (cstr key) st with
      | Some (value, _) => (LEDGER_SUCCESS, SHA256 value)
      | None => (LEDGER_NOT_FOUND, repeat x00 32)
      end
  | MultiStateHash comp_key =>
      let k := cstr comp_key in
      (LEDGER_SUCCESS,
       SHA256 (concat (map (λ e, erase_to_dot e.1 ++ e.2.1) (scan_prefix k (lower_bound k st)))))
  end.

Definition query_code (q : query) : LM (Z * bytes) :=
  match q with
  | StateHash key => ledger_get_state_hash key (repeat x00 32)
  | MultiStateHash comp_key => ledger_get_multi_state_hash comp_key
  end.

Definition clear_updates : LM unit := λ s, Ok (inr tt, set_updates [] s).

(** Taking the lock: [None] when it is held. *)
Definition acquire (w : writer) (s : ledger_state) : option (res ((Z + writer) * ledger_state)) :=
  if lock s then None else Some (Ok (inr w, set_lock true s)).
Definition release (w : writer) (s : ledger_state) : res ((Z + writer) * ledger_state) :=
  Ok (inr w, set_lock false s).

Definition writer_step (w : writer) (s : ledger_state) : option (res ((Z + writer) * ledger_state)) :=
  match w with
  | Start b =>
      Some ((block ← decode_pb decode_Block b;
             sn ← gets sequence_number;
             if negb (bool_decide (u32 (number (header block)) = u32 (sn + 1)))
             then return_early LEDGER_INVALID_BLOCK_NUMBER else mret (Check block)) s)
  | Check block =>
      Some ((filter ← block_checks block;
             _ ← clear_updates;
             mret (Envelope (header block) filter 0 (block_data block))) s)
  | Envelope h filter i [] => Some (Ok (inr (LockCommit (u32 (number h))), s))
  | Envelope h filter i (data :: l) =>
      Some ((if bool_decide (filter !! i = Some x01) then mret (Envelope h filter (S i) l)
             else cp ← envelope_checks h data; mret (LockTx h filter i l cp.1 cp.2)) s)
  | LockTx h filter i l chdr payload => acquire (InTx h filter i l chdr payload) s
  | InTx h filter i l chdr payload =>
      Some ((_ ← dispatch h (MkVersion (number h) (Z.of_nat i)) chdr payload;
             mret (UnlockTx h filter i l)) s)
  | UnlockTx h filter i l => Some (release (Envelope h filter (S i) l) s)
  | LockCommit n => acquire (InCommit n) s
  | InCommit n => Some ((_ ← apply_commit n; mret UnlockCommit) s)
  | UnlockCommit => Some (release Accepted s)
  | Accepted | Refused _ => None
  end.

Definition thread_step (t : lthread) (s : ledger_state) : option (res (lthread * ledger_state)) :=
  match t with
  | Writer w u =>
      match writer_step w (set_updates u s) with
      | None => None
      | Some (Ok (r, s')) =>
          Some (Ok (Writer (match r with inl z => Refused z | inr w' => w' end) (updates s'),
                    set_updates (updates s) s'))
      | Some (UB e) => Some (UB e)
      | Some NoFuel => Some NoFuel
      end
  | Reader q LockQuery => if lock s then None else Some (Ok (Reader q InQuery, set_lock true s))
  | Reader q InQuery => Some (Ok (Reader q (UnlockQuery (query_answer q (state s))), s))
  | Reader q (UnlockQuery r) => Some (Ok (Reader q (Answered r), set_lock false s))
  | Reader q (Answered _) => None
  end.

Inductive lpool_step : list lthread * ledger_state → list lthread * ledger_state → Prop :=
  | lpool_step_intro ts s i t t' s' : ts !! i = Some t → thread_step t s = Some (Ok (t', s')) →
      lpool_step (ts, s) (<[i := t']> ts, s').

(** ** The pieces are the code *)

Lemma query_code_eq q s : lock s = false → query_code q s = Ok (inr (query_answer q (state s)), s).
Proof.
  intros Hl. destruct q as [key|comp_key]; cbn [query_code query_answer].
  - by apply state_hash_eq.
  - pose proof (lock_unlock s Hl) as E.
    unfold ledger_get_multi_state_hash, mbind, lm_bind, spin_lock, spin_unlock, gets. rewrite Hl.
    cbn [state set_lock] in *. by rewrite E.
Qed.

(** What a thread in [parse_block] still has to do. *)
Definition commit_rest (n : Z) : LM Z := _ ← commit_state_updates n; mret LEDGER_SUCCESS.
Definition envelopes_rest (h : common_BlockHeader) (filter : bytes) (i : nat) (l : list bytes) : LM Z :=
  _ ← process_envelopes h filter i l; commit_rest (u32 (number h)).
Definition rest (w : writer) : LM Z :=
  match w with
  | Start b => parse_block_body b
  | Check block =>
      filter ← block_checks block;
      _ ← clear_updates;
      envelopes_rest (header block) filter 0 (block_data block)
  | Envelope h filter i l => envelopes_rest h filter i l
  | LockTx h filter i l chdr payload =>
      _ ← spin_lock;
      _ ← dispatch h (MkVersion (number h) (Z.of_nat i)) chdr payload;
      _ ← spin_unlock;
      envelopes_rest h filter (S i) l
  | InTx h filter i l chdr payload =>
      _ ← dispatch h (MkVersion (number h) (Z.of_nat i)) chdr payload;
      _ ← spin_unlock;
      envelopes_rest h filter (S i) l
  | UnlockTx h filter i l => _ ← spin_unlock; envelopes_rest h filter (S i) l
  | LockCommit n => commit_rest n
  | InCommit n => _ ← apply_commit n; _ ← spin_unlock; mret LEDGER_SUCCESS
  | UnlockCommit => _ ← spin_unlock; mret LEDGER_SUCCESS
  | Accepted => mret LEDGER_SUCCESS
  | Refused z => return_early z
  end.

(** The steps of a thread, run without interruption, are its code. *)
Lemma writer_step_rest w s r : writer_step w s = Some r →
  rest w s = match r with
             | Ok (inl z, s') => Ok (inl z, s')
             | Ok (inr w', s') => rest w' s'
             | UB e => UB e
             | NoFuel => NoFuel
             end.
Proof.
  destruct w as [b|block|h f i [|d l]|h f i l ch pl|h f i l ch pl|h f i l|n|n| | |z];
    cbn [writer_step rest]; unfold acquire, release; intros H; simplify_eq.
  - unfold parse_block_body, mbind, lm_bind. destruct (decode_pb decode_Block b s) as [[[z|block] s1]| |]; try done.
    unfold gets. cbn [mret lm_ret]. by case_match.
  - unfold mbind, lm_bind. by destruct (block_checks block s) as [[[z|f] s1]| |].
  - done.
  - unfold envelopes_rest. cbn [process_envelopes]. unfold process_envelope, mbind, lm_bind.
    case_bool_decide; [done|]. destruct (envelope_checks h d s) as [[[z|cp] s1]| |]; try done.
    cbn [mret lm_ret rest]. unfold envelopes_rest, mbind, lm_bind.
    destruct (spin_lock s1) as [[[z|[]] s2]| |]; try done.
    by destruct (dispatch _ _ _ _ s2) as [[[z|[]] s3]| |].
  - destruct (lock s) eqn:E; simplify_eq. unfold mbind at 1, lm_bind at 1, spin_lock. by rewrite E.
  - unfold mbind, lm_bind. by destruct (dispatch _ _ _ _ s) as [[[z|[]] s3]| |].
  - done.
  - destruct (lock s) eqn:E; simplify_eq.
    unfold commit_rest, commit_state_updates, mbind, lm_bind, spin_lock. rewrite E. cbn [rest].
    unfold mbind, lm_bind.
    by destruct (apply_commit n _) as [[[z|[]] s3]| |].
  - unfold mbind, lm_bind. by destruct (apply_commit n s) as [[[z|[]] s3]| |].
  - done.
Qed.

(** ** Effects of a step *)

Definition writer_holds (w : writer) : bool :=
  match w with InTx _ _ _ _ _ _ | UnlockTx _ _ _ _ | InCommit _ | UnlockCommit => true | _ => false end.
Definition holds_lock (t : lthread) : bool :=
  match t with
  | Writer w _ => writer_holds w
  | Reader _ InQuery | Reader _ (UnlockQuery _) => true
  | Reader _ _ => false
  end.

(** How a step that takes a thread from [held] to [held'] treats the lock. *)
Inductive lock_step : bool → bool → bool → bool → Prop :=
  | lock_keep l h : lock_step l l h h
  | lock_take : lock_step false true false true
  | lock_give l : lock_step l false true false.

(** Steps left to the end of the thread. *)
Definition writer_size (w : writer) : nat :=
  match w with
  | Start b => match decode_Block b with Some block => 4 * length (block_data block) + 6 | None => 1 end
  | Check block => 4 * length (block_data block) + 5
  | Envelope _ _ _ l => 4 * length l + 4
  | LockTx _ _ _ l _ _ => 4 * length l + 7
  | InTx _ _ _ l _ _ => 4 * length l + 6
  | UnlockTx _ _ _ l => 4 * length l + 5
  | LockCommit _ => 3
  | InCommit _ => 2
  | UnlockCommit => 1
  | Accepted | Refused _ => 0
  end.
Definition thread_size (t : lthread) : nat :=
  match t with
  | Writer w _ => writer_size w
  | Reader _ LockQuery => 3
  | Reader _ InQuery => 2
  | Reader _ (UnlockQuery _) => 1
  | Reader _ (Answered _) => 0
  end.

Definition after (r : Z + writer) : writer := match r with inl z => Refused z | inr w => w end.

(** A step of [parse_block]: it uses the lock as it should, comes closer to the
    end, and only the commit changes the state. *)
Record writer_effect (w : writer) (s : ledger_state) (w' : writer) (s' : ledger_state) : Prop := {
  we_lock : lock_step (lock s) (lock s') (writer_holds w) (writer_holds w');
  we_size : writer_size w' < writer_size w;
  we_state : state s' = state s ∨ (∃ n, w = InCommit n) ∧ w' = UnlockCommit }.

Lemma sp_inv {A} lk R (m : LM A) s r s' : sp lk R m → lock s = lk → m s = Ok (r, s') → R s s'.
Proof. intros Hm Hl E. specialize (Hm s Hl). rewrite E in Hm. by destruct Hm. Qed.

Lemma lm_bind_cases {A B} (m : LM A) (f : A → LM B) s r s' : (m ≫= f) s = Ok (r, s') →
  (∃ z, m s = Ok (inl z, s') ∧ r = inl z) ∨ (∃ a s1, m s = Ok (inr a, s1) ∧ f a s1 = Ok (r, s')).
Proof.
  unfold mbind, lm_bind. destruct (m s) as [[[z|a] s1]| |]; intros; simplify_eq; eauto 6.
Qed.

Lemma we_same w s w' s' : writer_holds w' = writer_holds w → writer_size w' < writer_size w →
  (∃ Pv, tx_rel Pv s s') → writer_effect w s w' s'.
Proof. intros Hh Hs (Pv & [H1 H2 _ _]). split; [rewrite Hh, H2; constructor|done|by left]. Qed.

Lemma we_early w s z s' : writer_holds w = false → 0 < writer_size w →
  (∃ Pv, tx_rel Pv s s') → writer_effect w s (Refused z) s'.
Proof. intros Hh Hs HR. by apply (we_same w s (Refused z)). Qed.

Lemma writer_step_effect w s r s' : writer_step w s = Some (Ok (r, s')) →
  writer_effect w s (after r) s'.
Proof.
  assert (∃ Pv, tx_rel Pv s s) as Hrefl by (exists (λ _, True); by apply frame_refl).
  destruct w as [b|block|h f i [|d l]|h f i l ch pl|h f i l ch pl|h f i l|n|n| | |z];
    cbn [writer_step]; unfold acquire, release; intros H; try done.
  - injection H as H.
    assert (s' = s ∧ (match after r with Check block => decode_Block b = Some block | Refused _ => True | _ => False end)) as [-> Hr].
    { unfold decode_pb, mbind, lm_bind, gets, mret, lm_ret, return_early in H.
      destruct (decode_Block b) as [block|]; [|by simplify_eq]. destruct (negb _); by simplify_eq. }
    destruct (after r); try done; apply we_same; try done; cbn [writer_size]; [rewrite Hr; lia|].
    destruct (decode_Block b); lia.
  - injection H as H. apply lm_bind_cases in H as [(z & E & ->)|(f & s1 & E & H)];
      apply (sp_inv (lock s) _ _ _ _ _ (sp_block_checks (lock s) block) eq_refl) in E.
    + apply we_early; [done|cbn [writer_size]; lia|eauto].
    + destruct E as [H1 H2 _ _]. unfold clear_updates, mbind, lm_bind, mret, lm_ret in H. simplify_eq. cbn [after].
      split; [cbn [lock set_updates]; rewrite H2; constructor|cbn [writer_size]; lia|by left].
  - simplify_eq. apply we_same; [done|cbn [writer_size after length]; lia|done].
  - injection H as H. case_bool_decide.
    { injection H as <- <-. apply we_same; [done|cbn [writer_size after length]; lia|done]. }
    apply lm_bind_cases in H as [(z & E & ->)|(cp & s1 & E & H)];
      apply (sp_inv (lock s) (tx_rel (λ _, True)) _ _ _ _ (sp_envelope_checks _ _ h d) eq_refl) in E.
    + apply we_early; [done|cbn [writer_size length]; lia|eauto].
    + unfold mret, lm_ret in H. simplify_eq. apply we_same; [done|cbn [writer_size after length]; lia|eauto].
  - destruct (lock s) eqn:E; simplify_eq. split; [rewrite E; constructor|cbn [writer_size after]; lia|by left].
  - injection H as H. apply lm_bind_cases in H as [(z & E & ->)|([] & s1 & E & H)].
    { by apply noearly_dispatch in E. }
    apply (sp_inv (lock s) (tx_rel (λ _, True)) _ _ _ _ (sp_dispatch _ _ h _ ch pl I) eq_refl) in E.
    unfold mret, lm_ret in H. simplify_eq. apply we_same; [done|cbn [writer_size after]; lia|eauto].
  - simplify_eq. split; [constructor|cbn [writer_size after]; lia|by left].
  - destruct (lock s) eqn:E; simplify_eq. split; [rewrite E; constructor|cbn [writer_size after]; lia|by left].
  - injection H as H. unfold apply_commit, gets, pure, mbind, lm_bind, mret, lm_ret in H.
    destruct (bool_decide _); simplify_eq. split; [constructor|cbn [writer_size after]; lia|].
    right. split; [by exists n|done].
  - simplify_eq. split; [constructor|cbn [writer_size after]; lia|by left].
Qed.

Lemma thread_step_effect t s t' s' : thread_step t s = Some (Ok (t', s')) →
  lock_step (lock s) (lock s') (holds_lock t) (holds_lock t') ∧ thread_size t' < thread_size t.
Proof.
  destruct t as [w u|q [| | |]]; cbn [thread_step].
  - destruct (writer_step w (set_updates u s)) as [[[r s1]| |]|] eqn:E; intros; simplify_eq.
    destruct (writer_step_effect _ _ _ _ E) as [H1 H2 _]. by split.
  - destruct (lock s) eqn:E; intros; simplify_eq. split; [constructor|cbn; lia].
  - intros; simplify_eq. split; [constructor|cbn; lia].
  - intros; simplify_eq. split; [constructor|cbn; lia].
  - done.
Qed.

(** ** Mutual exclusion *)

Record lock_ok (ts : list lthread) (s : ledger_state) : Prop := {
  lock_held i t : ts !! i = Some t → holds_lock t = true → lock s = true;
  lock_once i j ti tj : ts !! i = Some ti → ts !! j = Some tj →
    holds_lock ti = true → holds_lock tj = true → i = j;
  lock_owner : lock s = true → ∃ i t, ts !! i = Some t ∧ holds_lock t = true }.

Lemma insert_cases (ts : list lthread) i t' j tj : <[i := t']> ts !! j = Some tj →
  j = i ∧ tj = t' ∨ j ≠ i ∧ ts !! j = Some tj.
Proof. intros H%list_lookup_insert_Some. naive_solver. Qed.

Lemma lock_ok_step ts s i t t' s' : lock_ok ts s → ts !! i = Some t →
  lock_step (lock s) (lock s') (holds_lock t) (holds_lock t') → lock_ok (<[i := t']> ts) s'.
Proof.
  intros [Hheld Honce Howner] Hi Hl. pose proof (lookup_lt_Some _ _ _ Hi) as Hlt.
  assert (<[i := t']> ts !! i = Some t') as Hi' by (by apply list_lookup_insert_eq).
  assert (∀ j tj, j ≠ i → ts !! j = Some tj → <[i := t']> ts !! j = Some tj) as Hother
    by (intros j tj Hj; by rewrite list_lookup_insert_ne).
  remember (lock s) as l eqn:El. remember (lock s') as l' eqn:El'.
  remember (holds_lock t) as h eqn:Eh. remember (holds_lock t') as h' eqn:Eh'.
  destruct Hl as [l h| |l].
  - split; rewrite <-?El'.
    + intros j tj [[-> ->]|[_ Hj]]%insert_cases Hh; [|by eapply Hheld].
      apply (Hheld i t Hi). congruence.
    + intros j k tj tk [[-> ->]|[_ Hj]]%insert_cases [[-> ->]|[_ Hk]]%insert_cases H1 H2; [done|..|by eapply Honce].
      * apply (Honce i k t tk); congruence.
      * apply (Honce j i tj t); congruence.
    + intros Hll. destruct (Howner Hll) as (j & tj & Hj & Hh). destruct (decide (j = i)) as [->|Hne].
      * exists i, t'. split; [done|]. congruence.
      * exists j, tj. auto.
  - assert (∀ j tj, ts !! j = Some tj → holds_lock tj = true → False) as Hno.
    { intros j tj Hj Hh. by specialize (Hheld j tj Hj Hh). }
    split; rewrite <-?El'; [done|..].
    + intros j k tj tk [[-> ->]|[_ Hj]]%insert_cases [[-> ->]|[_ Hk]]%insert_cases H1 H2; [done|exfalso; eauto..].
    + intros _. exists i, t'. by split.
  - assert (∀ j tj, <[i := t']> ts !! j = Some tj → holds_lock tj = true → False) as Hno.
    { intros j tj [[-> ->]|[Hne Hj]]%insert_cases Hh; [congruence|]. apply Hne. by eapply Honce. }
    split; rewrite <-?El'; [intros; exfalso; eauto|intros; exfalso; eauto|done].
Qed.

(** ** Progress and termination *)

Definition started (t : lthread) : Prop :=
  match t with Writer (Start _) _ | Reader _ LockQuery => True | _ => False end.
Definition finished (t : lthread) : Prop :=
  match t with Writer Accepted _ | Writer (Refused _) _ | Reader _ (Answered _) => True | _ => False end.

Definition total_size (ts : list lthread) : nat := sum_list (map thread_size ts).

Lemma total_size_insert ts i t t' : ts !! i = Some t →
  total_size (<[i := t']> ts) + thread_size t = total_size ts + thread_size t'.
Proof.
  unfold total_size. revert i. induction ts as [|x ts IH]; intros [|i] Hi; simplify_eq/=; [lia|].
  specialize (IH i Hi). lia.
Qed.

Lemma lock_ok_started ts s : Forall started ts → lock s = false → lock_ok ts s.
Proof.
  intros Hs Hl. assert (∀ i t, ts !! i = Some t → holds_lock t = false) as Hno.
  { intros i t Hi. eapply list.Forall_lookup_1 in Hs; [|done].
    by destruct t as [[] ?|? []]. }
  split; [intros i t Hi Hh|intros i j ti tj Hi _ Hh|congruence]; by rewrite (Hno _ _ Hi) in Hh.
Qed.

Lemma lpool_step_ok ts s ts' s' : lpool_step (ts, s) (ts', s') → lock_ok ts s →
  lock_ok ts' s' ∧ total_size ts' < total_size ts.
Proof.
  intros Hst Hok. inversion Hst as [? ? i t t' ? Hi Hstep]; subst.
  destruct (thread_step_effect _ _ _ _ Hstep) as [Hl Hz]. split; [by eapply lock_ok_step|].
  pose proof (total_size_insert ts i t t' Hi). lia.
Qed.

Lemma lpool_steps_ok n ts s ts' s' : nsteps lpool_step n (ts, s) (ts', s') → lock_ok ts s →
  lock_ok ts' s' ∧ n + total_size ts' <= total_size ts.
Proof.
  revert ts s. induction n as [|n IH]; intros ts s H Hok; inversion H as [|? ? [ts1 s1] ? H1 H2]; subst; [by split|].
  destruct (lpool_step_ok _ _ _ _ H1 Hok) as [Hok1 Hz]. destruct (IH _ _ H2 Hok1) as [Hok2 Hz2].
  split; [done|lia].
Qed.

(** A thread that cannot move has finished or waits for the lock. *)
Lemma blocked_thread t s : thread_step t s = None → finished t ∨ holds_lock t = false ∧ lock s = true.
Proof.
  destruct t as [w u|q [| | |]]; cbn [thread_step].
  - destruct (writer_step w (set_updates u s)) as [[[]| |]|] eqn:E; [done..|]. intros _.
    destruct w as [| |? ? ? []| | | | | | | |]; cbn [writer_step] in E; try done; try (by left);
      unfold acquire in E; cbn [lock set_updates] in E; right; by destruct (lock s).
  - destruct (lock s); [by right|done].
  - done.
  - done.
  - by left.
Qed.

Lemma sp_fine {A} lk R (m : LM A) s : sp lk R m → lock s = lk → fine (m s).
Proof. intros Hm Hl. specialize (Hm s Hl). by destruct (m s) as [[]| |]. Qed.

Lemma fine_map {A B} (m : LM A) (f : A → B) s : fine (m s) → fine ((a ← m; mret (f a)) s).
Proof. unfold mbind, lm_bind. by destruct (m s) as [[[]]| |]. Qed.

Lemma writer_step_fine w s r : writer_step w s = Some r → fine r.
Proof.
  destruct w as [b|block|h f i [|d l]|h f i l ch pl|h f i l ch pl|h f i l|n|n| | |z];
    cbn [writer_step]; unfold acquire, release; intros H; try done;
    try match type of H with (if lock s then _ else _) = _ => destruct (lock s) end; simplify_eq; try done.
  - unfold decode_pb, mbind, lm_bind, gets. destruct (decode_Block b); [|done]. cbn [mret lm_ret].
    by destruct (negb _).
  - unfold mbind at 1, lm_bind at 1. pose proof (sp_fine _ _ _ s (sp_block_checks (lock s) block) eq_refl) as Hf.
    by destruct (block_checks block s) as [[[]]| |].
  - case_bool_decide; [done|]. apply (fine_map (envelope_checks h d) (λ cp, LockTx h f i l cp.1 cp.2)).
    by apply (sp_fine (lock s) (tx_rel (λ _, True))); [apply sp_envelope_checks|].
  - apply (fine_map (dispatch _ _ _ _) (λ _, UnlockTx h f i l)).
    by apply (sp_fine (lock s) (tx_rel (λ _, True))); [apply sp_dispatch|].
  - unfold apply_commit, gets, pure, mbind, lm_bind. by destruct (bool_decide _).
Qed.

Lemma thread_step_fine t s r : thread_step t s = Some r → fine r.
Proof.
  destruct t as [w u|q [| | |]]; cbn [thread_step]; try (intros; by simplify_eq).
  - destruct (writer_step w (set_updates u s)) as [[[]|e|]|] eqn:E; intros; simplify_eq; try done;
      by apply writer_step_fine in E.
  - destruct (lock s); intros; by simplify_eq.
Qed.

(** C16: no schedule of concurrent ECALLs of the ledger enclave deadlocks or
    runs forever. For any number of blocks and queries started with the lock
    free, a schedule has at most [total_size] steps (a bound from the number of
    transactions), and as long as a thread has not finished some thread can
    move: it makes a step, or the code it runs faults, but not by waiting for a
    lock it holds itself. *)
Theorem schedules_finish n ts s ts' s' : Forall started ts → lock s = false →
  nsteps lpool_step n (ts, s) (ts', s') →
  n <= total_size ts ∧
  (Forall finished ts' ∨ ∃ i t r, ts' !! i = Some t ∧ thread_step t s' = Some r ∧ fine r).
Proof.
  intros Hs Hl Hn. destruct (lpool_steps_ok _ _ _ _ _ Hn (lock_ok_started _ _ Hs Hl)) as [Hok Hz].
  split; [lia|].
  destruct (decide (Exists (λ t, is_Some (thread_step t s')) ts')) as [Hex|Hno].
  { right. apply list.Exists_exists in Hex as (t & Hin & r & Hr). apply list_elem_of_lookup_1 in Hin as [i Hi].
    exists i, t, r. eauto using thread_step_fine. }
  left. assert (∀ i t, ts' !! i = Some t → thread_step t s' = None) as Hnone.
  { intros i t Hi. apply eq_None_not_Some. intros Ht. apply Hno, list.Exists_exists. exists t.
    split; [by eapply list_elem_of_lookup_2|done]. }
  apply list.Forall_lookup. intros i t Hi.
  destruct (blocked_thread t s' (Hnone i t Hi)) as [?|[_ Hlock]]; [done|].
  destruct (lock_owner _ _ Hok Hlock) as (j & tj & Hj & Hh).
  destruct (blocked_thread tj s' (Hnone j tj Hj)) as [Hf|[Hh' _]]; [|congruence].
  by destruct tj as [[]|? []].
Qed.

(** ** One block among queries *)

(** Code outside the critical sections does not look at the lock. *)
Definition lockless {A} (m : LM A) : Prop := ∀ l s,
  m (set_lock l s) = match m s with
                     | Ok (r, s') => Ok (r, set_lock l s')
                     | UB e => UB e
                     | NoFuel => NoFuel
                     end.

Lemma lockless_ret {A} (a : A) : lockless (mret a).
Proof. done. Qed.
Lemma lockless_early {A} z : lockless (return_early z : LM A).
Proof. done. Qed.
Lemma lockless_pure {A} (r : res A) : lockless (pure r).
Proof. intros l s. by destruct r. Qed.
Lemma lockless_event e : lockless (event_log e).
Proof. done. Qed.
Lemma lockless_clear : lockless clear_updates.
Proof. done. Qed.
Lemma lockless_gets {A} (f : ledger_state → A) : (∀ l s, f (set_lock l s) = f s) → lockless (gets f).
Proof. intros Hf l s. unfold gets. by rewrite Hf. Qed.
Lemma lockless_bind {A B} (m : LM A) (f : A → LM B) :
  lockless m → (∀ a, lockless (f a)) → lockless (m ≫= f).
Proof.
  intros Hm Hf l s. unfold mbind, lm_bind. rewrite Hm.
  destruct (m s) as [[[z|a] s1]| |]; [done| |done..]. apply Hf.
Qed.
Lemma lockless_fold {A B} (f : B → A → LM B) b l : (∀ b a, lockless (f b a)) → lockless (fold f b l).
Proof.
  intros Hf. revert b. induction l as [|a l IH]; intros b; [apply lockless_ret|]. by apply lockless_bind.
Qed.
Lemma lockless_decode_pb {A} (d : bytes → option A) b : lockless (decode_pb d b).
Proof. unfold decode_pb. by destruct (d b). Qed.
Lemma lockless_decode_ptr {A} (d : bytes → option A) b : lockless (decode_ptr d b).
Proof. apply lockless_bind; [apply lockless_pure|intros; apply lockless_decode_pb]. Qed.

Ltac lockless_tac := repeat first
  [simple apply lockless_ret|simple apply lockless_early|simple apply lockless_pure|simple apply lockless_event
  |simple apply lockless_clear|simple apply lockless_gets; done|simple apply lockless_decode_ptr
  |simple apply lockless_decode_pb|simple apply lockless_fold; intros ? ?
  |simple apply lockless_bind; [|intros ?]|case_match].

Lemma lockless_block_checks block : lockless (block_checks block).
Proof. unfold block_checks, check_block_signature. lockless_tac. Qed.
Lemma lockless_envelope_checks h data : lockless (envelope_checks h data).
Proof. unfold envelope_checks. lockless_tac. Qed.

(** A step that does not need the lock is the same with another lock. *)
Lemma writer_step_lockless w s r s' : writer_step w s = Some (Ok (r, s')) →
  writer_holds w = false → lock s = true →
  writer_step w (set_lock false s) = Some (Ok (r, set_lock false s')) ∧ writer_holds (after r) = false.
Proof.
  intros H Hw Hl. pose proof (writer_step_effect _ _ _ _ H) as [Hk _ _].
  rewrite Hw, Hl in Hk. split; [|by inversion Hk].
  assert (∀ m : LM writer, lockless m → m s = Ok (r, s') →
            Some (m (set_lock false s)) = Some (Ok (r, set_lock false s'))) as Hm.
  { intros m Hm E. by rewrite Hm, E. }
  destruct w as [b|block|h f i [|d l]|h f i l ch pl|h f i l ch pl|h f i l|n|n| | |z]; try done;
    cbn [writer_step] in *; unfold acquire in *; rewrite ?Hl in H; try done; injection H as H.
  - apply Hm; [|done]. lockless_tac.
  - apply Hm; [|done]. lockless_tac. apply lockless_block_checks.
  - by subst.
  - apply Hm; [|done]. lockless_tac. apply lockless_envelope_checks.
Qed.

(** What the thread sees of the ledger: the lock is taken when it took it. *)
Definition view (w : writer) (u : kvs_t) (s : ledger_state) : ledger_state :=
  set_lock (writer_holds w) (set_updates u s).

Lemma set_lock_id s l : lock s = l → set_lock l s = s.
Proof. intros <-. by destruct s. Qed.

Lemma writer_step_view w u s r s' : writer_step w (set_updates u s) = Some (Ok (r, s')) →
  (writer_holds w = true → lock s = true) →
  writer_step w (view w u s) = Some (Ok (r, view (after r) (updates s') (set_updates (updates s) s'))).
Proof.
  intros H Hh. unfold view.
  replace (set_updates (updates s') (set_updates (updates s) s')) with s' by (by destruct s').
  destruct (decide (lock s = writer_holds w)) as [E|E].
  - rewrite set_lock_id by done. rewrite set_lock_id; [done|].
    pose proof (we_lock _ _ _ _ (writer_step_effect _ _ _ _ H)) as Hk. cbn [lock set_updates] in Hk.
    rewrite E in Hk. by inversion Hk.
  - destruct (writer_holds w) eqn:Ew, (lock s) eqn:El; [done|by specialize (Hh eq_refl)| |done].
    destruct (writer_step_lockless w (set_updates u s) r s' H Ew El) as [-> ->]. done.
Qed.

Definition past_commit (w : writer) : bool := match w with UnlockCommit | Accepted => true | _ => false end.

(** What holds while the block [b] is processed from [s0] among queries. *)
Record block_inv (b : bytes) (s0 : ledger_state) (w : writer) (u : kvs_t) (ts : list lthread)
  (s : ledger_state) : Prop := {
  bi_writer : ts !! 0 = Some (Writer w u);
  bi_lock : lock_ok ts s;
  bi_rest : code (rest w) (view w u s) = parse_block b s0;
  bi_state : past_commit w = false → state s = state s0;
  bi_readers i t : ts !! S i = Some t → ∃ q r, t = Reader q r ∧
    match r with
    | UnlockQuery a | Answered a =>
        a = query_answer q (state s0) ∨ past_commit w = true ∧ a = query_answer q (state s)
    | _ => True
    end }.

Lemma block_inv_writer b s0 w u ts s r s' : block_inv b s0 w u ts s →
  writer_step w (set_updates u s) = Some (Ok (r, s')) →
  block_inv b s0 (after r) (updates s')
    (<[0 := Writer (after r) (updates s')]> ts) (set_updates (updates s) s').
Proof.
  intros [H0 Hl Hr Hs Hq] Hst. pose proof (writer_step_effect _ _ _ _ Hst) as [Hk _ Hstate].
  pose proof (lookup_lt_Some _ _ _ H0) as Hlt.
  assert (past_commit w = true → past_commit (after r) = true ∧ state s' = state s) as Hpast.
  { intros Hp. destruct w; try done; cbn in Hst; unfold release in Hst; by simplify_eq. }
  split.
  - by apply list_lookup_insert_eq.
  - eapply lock_ok_step; [done|done|exact Hk].
  - rewrite <-Hr. assert (writer_holds w = true → lock s = true) as Hh by (apply (lock_held _ _ Hl 0 _ H0)).
    apply writer_step_view in Hst; [|done]. unfold code. rewrite (writer_step_rest _ _ _ Hst).
    by destruct r.
  - intros Hp. destruct (past_commit w) eqn:Ep; [destruct (Hpast eq_refl); congruence|].
    destruct Hstate as [E|[_ E]]; [|by rewrite E in Hp].
    cbn [state set_updates] in *. rewrite E. by apply Hs.
  - intros i t Hi. rewrite list_lookup_insert_ne in Hi by done.
    destruct (Hq i t Hi) as (q & x & -> & Ha). exists q, x. split; [done|].
    destruct x; try done; destruct Ha as [?|[Hp ->]]; auto; destruct (Hpast Hp) as [? E]; right;
      cbn [state set_updates]; by rewrite E.
Qed.

Lemma block_inv_reader b s0 w u ts s i t t' s' : block_inv b s0 w u ts s →
  ts !! S i = Some t → thread_step t s = Some (Ok (t', s')) → block_inv b s0 w u (<[S i := t']> ts) s'.
Proof.
  intros [H0 Hl Hr Hs Hq] Hi Hst. pose proof (thread_step_effect _ _ _ _ Hst) as [Hk _].
  destruct (Hq i t Hi) as (q & x & -> & Ha).
  assert (∃ l, s' = set_lock l s) as [l ->].
  { destruct x; cbn [thread_step] in Hst; try destruct (lock s) eqn:E; simplify_eq; try (by eexists).
    - exists true. symmetry. by apply set_lock_id.
    - exists false. symmetry. by apply set_lock_id. }
  split; [by rewrite list_lookup_insert_ne|by eapply lock_ok_step|done|done|].
  intros j tj [[[= ->] ->]|[_ Hj]]%insert_cases; [|by apply Hq in Hj].
  destruct x; cbn [thread_step] in Hst; try destruct (lock s); simplify_eq; eexists q, _; (split; [done|]); try done.
  all: destruct (past_commit w) eqn:Ep; [by right|left; by rewrite Hs].
Qed.

Lemma block_inv_start b qs s0 : lock s0 = false →
  block_inv b s0 (Start b) (updates s0) (Writer (Start b) (updates s0) :: map (λ q, Reader q LockQuery) qs) s0.
Proof.
  intros Hl. split; [done| | |done|].
  - apply lock_ok_started; [|done]. constructor; [done|]. apply Forall_fmap, Forall_true. done.
  - unfold view. cbn [writer_holds]. replace (set_updates (updates s0) s0) with s0 by (by destruct s0).
    by rewrite set_lock_id.
  - intros i t Hi. cbn in Hi. apply list_lookup_fmap_Some in Hi as (q & -> & _). by exists q, LockQuery.
Qed.

Lemma block_inv_steps b s0 ts s ts' s' w u : rtc lpool_step (ts, s) (ts', s') →
  block_inv b s0 w u ts s → ∃ w' u', block_inv b s0 w' u' ts' s'.
Proof.
  intros Hsteps Hinv. apply (rtc_ind_r (λ c, ∃ w' u', block_inv b s0 w' u' c.1 c.2) (ts, s)) in Hsteps; [done|eauto|].
  intros [ts1 s1] [ts2 s2] _ Hst (w1 & u1 & H1). cbn [fst snd] in *.
  inversion Hst as [? ? i t t' ? Hi Hstep]; subst. destruct i as [|i]; [|eauto using block_inv_reader].
  rewrite (bi_writer _ _ _ _ _ _ H1) in Hi. injection Hi as <-. cbn [thread_step] in Hstep.
  destruct (writer_step w1 (set_updates u1 s1)) as [[[r s3]| |]|] eqn:E; simplify_eq.
  eexists _, _. by eapply block_inv_writer.
Qed.

(** C10: a block is atomic for concurrent queries. Whatever the schedule of a
    block and any number of queries, each answer a query got is the one
    [ledger_get_state_hash] (or the multi-key query) gives on the ledger before
    the block, or on the ledger after the whole block; and the thread that
    processed the block ends with the result and the ledger [parse_block] gives
    when it runs alone. *)
Theorem block_atomic_for_queries b qs s0 ts s : lock s0 = false →
  rtc lpool_step (Writer (Start b) (updates s0) :: map (λ q, Reader q LockQuery) qs, s0) (ts, s) →
  (∀ i q a, ts !! i = Some (Reader q (Answered a)) →
     query_code q s0 = Ok (inr a, s0) ∨
     ∃ s1, parse_block b s0 = Ok (LEDGER_SUCCESS, s1) ∧ query_code q s1 = Ok (inr a, s1)) ∧
  ∃ w u, ts !! 0 = Some (Writer w u) ∧
    match w with
    | Accepted => parse_block b s0 = Ok (LEDGER_SUCCESS, set_lock false (set_updates u s))
    | Refused z => parse_block b s0 = Ok (z, set_lock false (set_updates u s))
    | _ => True
    end.
Proof.
  intros Hl Hsteps. destruct (block_inv_steps _ _ _ _ _ _ _ _ Hsteps (block_inv_start b qs s0 Hl))
    as (w & u & [H0 Hlock Hr Hs Hq]). split.
  - intros [|i] q a Hi; [by rewrite H0 in Hi|].
    destruct (Hq i _ Hi) as (q' & r & [= <- <-] & [->|[Hp ->]]); [left; by apply query_code_eq|].
    right. exists (set_lock false (view w u s)). split; [|by rewrite query_code_eq].
    rewrite <-Hr. by destruct w.
  - exists w, u. split; [done|]. destruct w; try done; by rewrite <-Hr.
Qed.
End threads.

(** ** Concrete runs *)

#[local] Existing Instances ToyFabric.toy_openssl ToyFabric.toy_fabric.

(** The threads of a schedule step one after the other; [None] when one of them
    cannot. *)
Fixpoint run_schedule (l : list nat) (c : list lthread * ledger_state) : option (res (list lthread * ledger_state)) :=
  match l with
  | [] => Some (Ok c)
  | i :: l' =>
      match c.1 !! i with
      | None => None
      | Some t =>
          match thread_step t c.2 with
          | Some (Ok (t', s')) => run_schedule l' (<[i := t']> c.1, s')
          | Some (UB e) => Some (UB e)
          | Some NoFuel => Some NoFuel
          | None => None
          end
      end
  end.

Lemma run_schedule_steps l c c' : run_schedule l c = Some (Ok c') → nsteps lpool_step (length l) c c'.
Proof.
  revert c. induction l as [|i l IH]; intros [ts s] H; cbn [run_schedule length fst snd] in *.
  - injection H as <-. constructor.
  - destruct (ts !! i) as [t|] eqn:Hi; [|done].
    destruct (thread_step t s) as [[[t' s']| |]|] eqn:E; try done.
    econstructor; [by econstructor|]. by apply IH.
Qed.

Lemma run_schedule_rtc l c c' : run_schedule l c = Some (Ok c') → rtc lpool_step c c'.
Proof. intros H. eapply rtc_nsteps_2, run_schedule_steps, H. Qed.

(** A block that writes [lscc.ecc] and two queries for it: one is answered
    between the transaction and the commit, the other after the commit. *)
Definition sample_query : query := StateHash (bs "lscc.ecc").
Definition sample_threads : list lthread :=
  [Writer (Start (bs "block1")) []; Reader sample_query LockQuery; Reader sample_query LockQuery].
Definition sample_schedule : list nat := [0; 0; 0; 0; 0; 0; 1; 0; 1; 0; 1; 0; 0; 0; 2; 2; 2].
Definition old_answer : Z * bytes := (LEDGER_NOT_FOUND, repeat x00 32).
Definition new_answer : Z * bytes := (LEDGER_SUCCESS, SHA256 (bs "1.0")).
Definition sample_done : list lthread :=
  [Writer Accepted block1_updates; Reader sample_query (Answered old_answer);
   Reader sample_query (Answered new_answer)].

Lemma sample_run :
  run_schedule sample_schedule (sample_threads, at_genesis) =
  Some (Ok (sample_done, set_updates [] at_block1)).
Proof. reflexivity. Qed.

Lemma block_atomic_for_queries_witness :
  (query_code sample_query at_genesis = Ok (inr old_answer, at_genesis) ∨
   ∃ s1, parse_block (bs "block1") at_genesis = Ok (LEDGER_SUCCESS, s1) ∧
     query_code sample_query s1 = Ok (inr old_answer, s1)) ∧
  parse_block (bs "block1") at_genesis =
    Ok (LEDGER_SUCCESS, set_lock false (set_updates block1_updates (set_updates [] at_block1))).
Proof.
  destruct (block_atomic_for_queries (bs "block1") [sample_query; sample_query] at_genesis sample_done
    (set_updates [] at_block1)) as [H1 (w & u & H2 & H3)].
  - reflexivity.
  - exact (run_schedule_rtc _ _ _ sample_run).
  - split; [exact (H1 1 _ _ eq_refl)|]. injection H2 as <- <-. exact H3.
Defined.

Lemma schedules_finish_witness : length sample_schedule <= total_size sample_threads ∧ Forall finished sample_done.
Proof.
  destruct (schedules_finish (length sample_schedule) sample_threads at_genesis sample_done
    (set_updates [] at_block1)) as [H1 [H2|(i & t & r & Hi & H3 & _)]].
  - repeat constructor.
  - reflexivity.
  - exact (run_schedule_steps _ _ _ sample_run).
  - exact (conj H1 H2).
  - exfalso. destruct i as [|[|[|i]]]; [injection Hi as <-; discriminate H3..|discriminate Hi].
Defined.

(** Two threads that receive the same block both pass the number check, which
    is outside the lock; the second commit fails its assertion. *)
Definition race_schedule : list nat := [0; 1] ++ repeat 0 10 ++ repeat 1 9.

Example same_block_race :
  run_schedule race_schedule
    ([Writer (Start (bs "block1")) []; Writer (Start (bs "block1")) []], at_genesis) = Some (UB AssertFailed).
Proof. reflexivity. Qed.
End LedgerThreads.
