(* ===== verification/TlccEnclave.v ===== *)
(** * The ledger enclave's entry points (src/tlcc_enclave/enclave/enclave.cpp)

    The ECALLs over the ledger, and the theorems that tie the two enclaves
    together: the tags the ledger enclave issues are the ones the chaincode
    enclave accepts for the committed value, and a tag binds key and value. *)
From S2P Require Import Prelude Utils Base64 StdMap Sgx EccCrypto Shim Fabric Ledger LedgerProofs.
Import Utils Base64 StdMap Sgx EccCrypto Fabric Ledger LedgerProofs.

Module TlccEnclave.

Definition session_key : bytes :=
  [x3f; xe2; x59; xdf; x62; x7f; xef; x99; x5b; x4b; x00; xde; x44; xc1; x26; x33].

Section ecalls.
Context {C : Crypto} {O : OpenSSL} {F : FabricPb}.

Definition ecall_join_channel (genesis : bytes) (s : ledger_state) : res (Z * ledger_state) :=
  r ← parse_block genesis (init_ledger s).2;
  let '(sgx_ret, s') := r in
  if bool_decide (sgx_ret ≠ SGX_SUCCESS) then Ok (sgx_ret, s') else Ok (SGX_SUCCESS, s').

Definition ecall_next_block (block_bytes : bytes) (s : ledger_state) : res (Z * ledger_state) :=
  parse_block block_bytes s.

(** [kkey.erase(0, found + 1)], when a dot is found. *)
Definition erase_past_dot (key : bytes) : bytes :=
  match find_dot key with Some i => drop (S i) key | None => key end.

(** The tag; the nonce is not used. *)
Definition ecall_get_state_metadata (key : bytes) : LM (Z * bytes) :=
  r ← ledger_get_state_hash key (repeat x00 32);
  mret (SGX_SUCCESS, cmac128 session_key (erase_past_dot (cstr key) ++ r.2)).

Definition ecall_get_multi_state_metadata (comp_key : bytes) : LM (Z * bytes) :=
  r ← ledger_get_multi_state_hash comp_key;
  mret (SGX_SUCCESS, cmac128 session_key (erase_to_dot (cstr comp_key) ++ r.2)).

(** Only logs. *)
Definition ecall_print_state : Z := LEDGER_SUCCESS.
End ecalls.

(** Both enclaves use SHA-256, one through OpenSSL. *)
Class SameHash (C : Crypto) (O : OpenSSL) : Prop := same_hash m : SHA256 m = sha256 m.

(** The key under which the ledger keeps a key of the chaincode. *)
Definition ecc_key (key : bytes) : bytes := bs "ecc" ++ x2e :: key.

Lemma find_dot_ecc s : find_dot (bs "ecc" ++ x2e :: s) = Some 3.
Proof. done. Qed.

Lemma erase_past_dot_ecc key : erase_past_dot (ecc_key key) = key.
Proof. unfold erase_past_dot, ecc_key. rewrite find_dot_ecc. done. Qed.

Lemma ecc_key_nul_free key : nul_free key → nul_free (ecc_key key).
Proof. intros H. repeat (constructor; [done|]). exact H. Qed.

(** The two hard-coded session keys agree. *)
Lemma same_session_key : session_key = Shim.session_key.
Proof. reflexivity. Qed.

Section integrity.
Context {C : Crypto} {L : CryptoLaws C} {O : OpenSSL} {F : FabricPb} {SH : SameHash C O}.
Implicit Types (s : ledger_state) (key : bytes).

(** The hash of the committed value of a chaincode key. *)
Definition committed_hash (key : bytes) (s : ledger_state) : bytes :=
  match map_find (ecc_key key) (state s) with
  | Some (value, _) => sha256 value
  | None => repeat x00 32
  end.

Lemma committed_hash_length key s : length (committed_hash key s) = 32.
Proof.
  unfold committed_hash. destruct (map_find _ _) as [[]|]; [apply sha256_length|apply repeat_length].
Qed.

Lemma state_metadata_eq key s : lock s = false → nul_free key →
  ecall_get_state_metadata (ecc_key key) s =
  Ok (inr (SGX_SUCCESS, cmac128 session_key (key ++ committed_hash key s)), s).
Proof.
  intros Hl Hk. unfold ecall_get_state_metadata, mbind, lm_bind. rewrite state_hash_eq by done.
  unfold committed_hash. rewrite (cstr_id (ecc_key key)) by by apply ecc_key_nul_free.
  rewrite erase_past_dot_ecc. destruct (map_find _ _) as [[value v]|]; [by rewrite same_hash|done].
Qed.

(** C12: the ledger enclave answers a query for a chaincode key with a tag the
    chaincode enclave accepts for the committed value (the zero hash when there
    is none). If the tag is accepted for a key and hash that are not the queried
    key and the hash of its committed value, then exactly the two tagged
    messages are a collision of the CMAC: they are different and have the same
    tag. *)
Theorem state_tag_binds_value key s key' h : lock s = false → nul_free key → nul_free key' →
  length h = 32 →
  ∃ tag, ecall_get_state_metadata (ecc_key key) s = Ok (inr (SGX_SUCCESS, tag), s) ∧
    check_cmac key (committed_hash key s) Shim.session_key tag = 0%Z ∧
    (check_cmac key' h Shim.session_key tag = 0%Z → (key', h) ≠ (key, committed_hash key s) →
     key' ++ h ≠ key ++ committed_hash key s ∧
     cmac128 Shim.session_key (key' ++ h) = cmac128 Shim.session_key (key ++ committed_hash key s)).
Proof.
  intros Hl Hk Hk' Hh. eexists. split; [by apply state_metadata_eq|].
  unfold check_cmac. rewrite !cstr_id, same_session_key by done. split; [by rewrite bool_decide_true|].
  case_bool_decide as E; [|done]. intros _ Hne. split; [|done]. intros Eq. apply Hne.
  apply app_inj_2 in Eq as [-> ->]; [done|]. by rewrite committed_hash_length.
Qed.

(** The committed entries under a composite key of the chaincode, as the
    chaincode names them. *)
Definition committed_range (comp_key : bytes) (s : ledger_state) : list (bytes * bytes) :=
  map (λ e, (drop 3 e.1, e.2.1)) (List.filter (λ e, starts_with (bs "ecc" ++ comp_key) e.1) (state s)).

Lemma erase_to_dot_prefixed comp k : peek comp = x2e → starts_with (bs "ecc" ++ comp) k = true →
  erase_to_dot k = drop 3 k.
Proof.
  intros Hp Hk. apply bool_decide_eq_true in Hk. destruct comp as [|c comp]; [done|]. cbn in Hp. subst c.
  destruct k as [|a [|b [|c [|d k]]]]; cbn in Hk; try discriminate. injection Hk as -> -> -> -> _. done.
Qed.

Lemma range_metadata_eq comp_key s : lock s = false → map_ok (state s) → nul_free comp_key →
  peek comp_key = x2e →
  ecall_get_multi_state_metadata (bs "ecc" ++ comp_key) s =
  Ok (inr (SGX_SUCCESS, cmac128 session_key
        (comp_key ++ sha256 (concat (map (λ u, u.1 ++ u.2) (committed_range comp_key s))))), s).
Proof.
  intros Hl Hok Hn Hp. unfold ecall_get_multi_state_metadata, mbind, lm_bind.
  assert (nul_free (bs "ecc" ++ comp_key)) as Hn' by (repeat (constructor; [done|]); done).
  rewrite multi_state_hash_eq by done. cbn [snd]. rewrite (cstr_id _ Hn'), same_hash.
  replace (erase_to_dot (bs "ecc" ++ comp_key)) with comp_key by (by destruct comp_key; cbn in Hp; subst).
  unfold mret, lm_ret. do 8 f_equal. unfold committed_range. rewrite map_map. cbn [fst snd].
  apply map_ext_in. intros e [_ He]%filter_In. by rewrite (erase_to_dot_prefixed comp_key).
Qed.

Context {W : Type} {P : Peer W}.
Import Shim.

(** End to end. When the committed value of a key is an encrypted value and
    the peer answers the read with that value and the tag the ledger enclave
    issued for it, [get_state] returns the plaintext (zero-filled to the size of
    the buffer), logs the tag as correct and records the key as read. *)
Theorem honest_read_verified key max ctx addr rw (sh : shim_state W) s plain iv v tag w :
  lock s = false → nul_free key → active ctx addr rw sh →
  map_find (ecc_key key) (state s) = Some (stored plain iv, v) →
  ecall_get_state_metadata (ecc_key key) s = Ok (inr (SGX_SUCCESS, tag), s) →
  ocall_get_state key ctx (world sh) =
    (MkAnswer (stored plain iv) (Z.of_nat (length (stored plain iv))) tag, w) →
  length iv = 12 → length (stored plain iv) < max → (Z.of_nat max < 2 ^ 32)%Z →
  get_state key max ctx sh =
    Ok ((plain ++ repeat x00 (max - length plain), Z.of_nat (length plain)),
        after_read key addr rw w true sh).
Proof.
  intros Hl Hk Ha Hf Ht Ho Hiv Hmax Hb. rewrite state_metadata_eq in Ht by done. injection Ht as Ht.
  erewrite get_state_present; [..|done|done]; [|done|by rewrite cstr_id|done|done|done].
  rewrite (cstr_id key) by done. unfold check_cmac, committed_hash in *. rewrite Hf in Ht.
  rewrite (cstr_id key), <-same_session_key by done. cbn [ans_cmac].
  rewrite (bool_decide_true (_ = tag)) by done. done.
Qed.

(** End to end for range queries. When the peer answers with the committed
    entries under the composite key (as JSON) and the tag the ledger enclave
    issued, [get_state_by_partial_composite_key] returns their plaintexts in
    key order, logs the tag as correct and records every key as read. *)
Theorem honest_range_verified comp_key ctx addr rw (sh : shim_state W) s es json r tag a w :
  lock s = false → map_ok (state s) → nul_free comp_key → peek comp_key = x2e →
  active ctx addr rw sh → Forall entry_ok es → committed_range comp_key s = map entry_stored es →
  ecall_get_multi_state_metadata (bs "ecc" ++ comp_key) s = Ok (inr (SGX_SUCCESS, tag), s) →
  ocall_get_state_by_partial_composite_key comp_key ctx (world sh) = (a, w) → ans_cmac a = tag →
  c_string (marshal_out RANGE_BUFFER_SIZE (ans_val a)) = Ok json →
  unmarshal_values [] json = Ok (r, committed_range comp_key s) →
  get_state_by_partial_composite_key comp_key ctx sh =
    Ok (map (λ e, (e_key e, e_plain e)) es, after_range (map e_key es) addr rw w true sh).
Proof.
  intros Hl Hok Hn Hp Ha He Hr Ht Ho Hc Hj Hu.
  rewrite range_metadata_eq in Ht by done. injection Ht as Ht. rewrite Hr in *.
  erewrite get_range_ok; [|done|by rewrite cstr_id|done|done|done].
  unfold check_cmac. rewrite (cstr_id _ Hn), Hc, <-Ht, <-same_session_key.
  rewrite (bool_decide_true (cmac128 _ _ = _)); [done|].
  do 2 f_equal. unfold entries_hashed. rewrite map_map. done.
Qed.
End integrity.

(** ** Concrete runs *)

#[local] Existing Instances Toy.toy_crypto Toy.toy_laws ToyFabric.toy_openssl ToyFabric.toy_fabric.
Import Shim Shim.ToyPeer.

#[export] Instance toy_same_hash : SameHash Toy.toy_crypto ToyFabric.toy_openssl.
Proof. intros m. reflexivity. Qed.

Definition sample_iv : bytes := repeat x09 12.
Definition sample_entry : entry := MkEntry (bs ".bids.A.") (bs "10") sample_iv.
Definition sample_value : bytes := stored (bs "open") sample_iv.

(** A ledger that holds a value and an entry under a composite key, and a peer
    that answers from it. *)
Definition sample_state : ledger_state :=
  MkLedger None None
    [(ecc_key (bs "A"), (sample_value, MkVersion 1 0));
     (bs "ecc" ++ e_key sample_entry, ((entry_stored sample_entry).2, MkVersion 1 0))] false 1 [] [].
Definition sample_json : bytes :=
  bs "[{" ++ [x22] ++ bs "key" ++ [x22; x3a; x22] ++ e_key sample_entry ++ [x22; x2c; x22] ++ bs "value" ++
  [x22; x3a; x22] ++ (entry_stored sample_entry).2 ++ [x22] ++ bs "}]".
Definition sample_world : toy_world :=
  MkToy {[ bs "A" := sample_value ]} {[ bs ".bids." := (sample_json, entries_hashed [sample_entry]) ]} [].

Lemma state_tag_binds_value_witness :
  ∃ tag, ecall_get_state_metadata (ecc_key (bs "A")) sample_state = Ok (inr (SGX_SUCCESS, tag), sample_state) ∧
    check_cmac (bs "A") (committed_hash (bs "A") sample_state) Shim.session_key tag = 0%Z.
Proof.
  destruct (state_tag_binds_value (bs "A") sample_state (bs "B") (repeat x00 32)) as (tag & E & Hc & _);
    [reflexivity|by repeat constructor..|reflexivity|]. exists tag. split; [exact E|exact Hc].
Defined.

Lemma honest_read_verified_witness : ∃ sh',
  get_state (bs "A") 100 7 (start sample_world) = Ok ((bs "open" ++ repeat x00 96, 4%Z), sh') ∧ log sh' = [true].
Proof.
  eexists. split.
  - apply (honest_read_verified (bs "A") 100 7 0 ([], []) (start sample_world) sample_state (bs "open") sample_iv
      (MkVersion 1 0) (cmac128 session_key (bs "A" ++ sha256 sample_value)) sample_world);
      [reflexivity|by repeat constructor|split; reflexivity|reflexivity..| |].
    + apply Nat.ltb_lt. reflexivity.
    + reflexivity.
  - reflexivity.
Defined.

Lemma honest_range_verified_witness : ∃ sh',
  get_state_by_partial_composite_key (bs ".bids.") 7 (start sample_world) =
    Ok ([(bs ".bids.A.", bs "10")], sh') ∧ log sh' = [true].
Proof.
  eexists. split.
  - eapply (honest_range_verified (bs ".bids.") 7 0 ([], []) (start sample_world) sample_state [sample_entry]
      sample_json 1); [reflexivity|..].
    + apply map_ok_cons. split; [by apply map_ok_cons; repeat constructor|]. constructor; [reflexivity|constructor].
    + by repeat constructor.
    + reflexivity.
    + split; reflexivity.
    + repeat constructor.
    + reflexivity.
    + reflexivity.
    + reflexivity.
    + reflexivity.
    + vm_compute. reflexivity.
    + vm_compute. reflexivity.
  - reflexivity.
Defined.
End TlccEnclave.
