(* ===== verification/EccEnclave.v ===== *)
(** * The chaincode enclave (src/ecc_enclave/enclave/enclave.cpp, src/common/enclave/common.cpp)

    Key generation, attestation reports and the binding of the ledger enclave,
    and the invocation ECALL with its read and write sets and its signature.
    The chaincode is a parameter ([invoke] of chaincode.h), instantiated by the
    auction. Reports, Diffie-Hellman and ECDSA are the class [Platform]. *)
From S2P Require Import Prelude Utils Base64 StdMap Sgx EccCrypto Shim.
Import Utils Base64 StdMap Sgx EccCrypto Shim.

Module EccEnclave.

(** The fields of [sgx_report_t] the code looks at. *)
Record sgx_report_t := MkReport {
  mr_enclave : bytes;
  attributes : bytes;
  misc_select : bytes;
  report_data : bytes;
  report_mac : bytes }.

(** [sgx_target_info_t]: the fields set, the rest is zero. *)
Record sgx_target_info_t := MkTarget {
  t_mr_enclave : bytes;
  t_attributes : bytes;
  t_misc_select : bytes }.

Class Platform := {
  (** Status of the [n]-th [sgx_ecc256_open_context] of [ecall_init]. *)
  open_context : nat → Z;
  (** Status, private and public key (little endian) of the [n]-th pair. *)
  create_key_pair : nat → Z * (bytes * bytes);
  compute_shared_dhkey : bytes → bytes → Z * bytes;
  ecdsa_sign : bytes → bytes → Z * bytes;
  verify_report : sgx_report_t → Z;
  create_report : option sgx_target_info_t → option bytes → Z * sgx_report_t }.

Class PlatformLaws (P : Platform) : Prop := {
  (** Keys have their sizes. *)
  public_key_length n : length (create_key_pair n).2.2 = 64;
  signature_length d sk : length (ecdsa_sign d sk).2 = 64;
  (** A report carries the report data it was created with. *)
  report_carries_data t d : report_data (create_report t (Some d)).2 = d }.

(** A concrete platform: a signature is the digest and the key, padded, and
    the tag of a report the checksum of its data. *)
Module ToyPlatform.
Definition pad (n : nat) (m : bytes) : bytes := take n (m ++ repeat x00 n).

#[export] Instance toy_platform : Platform := {
  open_context _ := SGX_SUCCESS;
  create_key_pair n := (SGX_SUCCESS, (pad 32 [z2b (Z.of_nat n + 1)], pad 64 (bs "public key" ++ [z2b (Z.of_nat n)])));
  compute_shared_dhkey sk pk := (SGX_SUCCESS, pad 32 (rev pk));
  ecdsa_sign d sk := (SGX_SUCCESS, pad 64 (d ++ sk));
  verify_report r := if bool_decide (report_mac r = Toy.checksum 16 (report_data r)) then SGX_SUCCESS
                     else SGX_ERROR_UNEXPECTED;
  create_report t d := (SGX_SUCCESS, MkReport (repeat x05 32) [] [] (default [] d) (Toy.checksum 16 (default [] d))) }.

#[export] Instance toy_platform_laws : PlatformLaws toy_platform.
Proof.
  assert (∀ n m, length (pad n m) = n) as Hp.
  { intros n m. unfold pad. rewrite length_take, length_app, repeat_length. lia. }
  split; intros; cbn [create_key_pair ecdsa_sign create_report toy_platform fst snd]; try apply Hp. done.
Qed.
End ToyPlatform.

(** The statics of the enclave; [key_count] and [set_count] number the key pairs
    and the stack frames of [ecall_invoke], so that no two are confused. *)
Record enclave_state (W : Type) := MkEnclave {
  shim : shim_state W;
  enclave_sk : bytes;
  enclave_pk : bytes;
  tlcc_pk : bytes;
  key_count : nat;
  set_count : nat }.
Arguments MkEnclave {W}.
Arguments shim {W}.
Arguments enclave_sk {W}.
Arguments enclave_pk {W}.
Arguments tlcc_pk {W}.
Arguments key_count {W}.
Arguments set_count {W}.

(** Both halves of a 64-byte buffer reversed: little endian to big endian and back. *)
Definition swap_halves (m : bytes) : res bytes := m1 ← bytes_swap m 0 32; bytes_swap m1 32 32.

Section enclave.
Context {C : Crypto} {PL : Platform} {W : Type} {P : Peer W}.
(** [invoke(args, response, max_response_len, actual_response_len, ctx)]. *)
Context (invoke : bytes → Z → Z → ST (shim_state W) (Z * bytes)).
Abbreviation M := (ST (enclave_state W)).

(** ** common.cpp *)

Definition ecall_init : M Z := λ s,
  if bool_decide (open_context (key_count s) ≠ SGX_SUCCESS) then Ok (open_context (key_count s), s) else
  let '(status, (sk, pk)) := create_key_pair (key_count s) in
  Ok (status, MkEnclave (shim s) sk pk (tlcc_pk s) (S (key_count s)) (set_count s)).

(** [report_out] (only written on success) and [pubkey_out]. *)
Definition ecall_create_report (target : sgx_target_info_t) (s : enclave_state W)
  : res (Z * option sgx_report_t * bytes) :=
  enclave_pk_be ← load (enclave_pk s) 0 64;
  enclave_pk_be ← swap_halves enclave_pk_be;
  let data := sha256 enclave_pk_be ++ repeat x00 32 in
  let '(ret, report) := create_report (Some target) (Some data) in
  if bool_decide (ret ≠ SGX_SUCCESS) then Ok (ret, None, enclave_pk_be)
  else Ok (SGX_SUCCESS, Some report, enclave_pk_be).

Definition ecall_get_target_info (target : option sgx_target_info_t) : Z * option sgx_target_info_t :=
  match target with
  | None => (SGX_ERROR_INVALID_PARAMETER, None)
  | Some _ =>
      let '(ret, report) := create_report None None in
      if bool_decide (ret ≠ SGX_SUCCESS) then (ret, Some (MkTarget (repeat x00 32) (repeat x00 16) (repeat x00 4)))
      else (SGX_SUCCESS, Some (MkTarget (mr_enclave report) (attributes report) (misc_select report)))
  end.

Definition ecall_get_pk (s : enclave_state W) : res (Z * bytes) :=
  enclave_pk_be ← load (enclave_pk s) 0 64;
  pk ← swap_halves enclave_pk_be; Ok (SGX_SUCCESS, pk).

(** ** enclave.cpp *)

(** Hashing a NULL key fails and leaves [pk_hash] uninitialised. *)
Definition ecall_bind_tlcc (report : option sgx_report_t) (pubkey : option bytes) : M Z := λ s,
  match report, pubkey with
  | None, None => Ok (SGX_SUCCESS, s)
  | _, None => UB Uninitialised
  | None, Some _ => UB NullDeref
  | Some r, Some pubkey =>
      match load pubkey 0 64 with
      | UB e => UB e
      | NoFuel => NoFuel
      | Ok pk =>
      if bool_decide (sha256 pk ≠ take 32 (report_data r)) then Ok (SGX_ERROR_INVALID_PARAMETER, s)
      else if bool_decide (verify_report r ≠ SGX_SUCCESS) then Ok (verify_report r, s)
      else Ok (SGX_SUCCESS, MkEnclave (shim s) (enclave_sk s) (enclave_pk s) pk (key_count s) (set_count s))
      end
  end.

Definition set_shim (sh : shim_state W) (s : enclave_state W) : enclave_state W :=
  MkEnclave sh (enclave_sk s) (enclave_pk s) (tlcc_pk s) (key_count s) (set_count s).

(** Running shim code. *)
Definition in_shim {A} (m : ST (shim_state W) A) : M A := λ s,
  match m (shim s) with
  | Ok (a, sh) => Ok (a, set_shim sh s)
  | UB e => UB e
  | NoFuel => NoFuel
  end.

(** The code and the response of [*actual_response_len] bytes. The client's key
    is swapped in place in the storage of a string: its characters and the
    terminator. *)
Definition invoke_enc (args pk : bytes) (max_response_len ctx : Z) : M (Z * bytes) :=
  s ← get;
  client_pk ← lift (swap_halves (b64_decode (cstr pk) ++ [x00]));
  client_pk ← lift (load client_pk 0 64);
  let '(sgx_ret, shared) := compute_shared_dhkey (enclave_sk s) client_pk in
  if bool_decide (sgx_ret ≠ SGX_SUCCESS) then mret (sgx_ret, [])
  else
    shared ← lift (bytes_swap shared 0 32);
    let key := take 16 (sha256 shared) in
    let cipher := b64_decode (cstr args) in
    if bool_decide (length cipher < 28) then lift (UB OutOfBounds)
    else
      let iv := take 12 cipher in
      let tag := take 16 (drop 12 cipher) in
      let '(sgx_ret, plain) := gcm_decrypt key iv (drop 28 cipher) tag in
      if bool_decide (sgx_ret ≠ SGX_SUCCESS) then mret (sgx_ret, [])
      else in_shim (invoke (cstr plain) max_response_len ctx).

(** The bytes whose hash is signed: arguments, result, read and write set. *)
Definition invocation_bytes (args response : bytes) (rw : read_set_t * write_set_t) : bytes :=
  args ++ response ++ concat rw.1 ++ concat (map (λ p, p.1 ++ p.2) rw.2).

(** The sets are locals of the ECALL: they exist until it returns. *)
Definition alloc_sets : M nat :=
  s ← get;
  let addr := set_count s in
  _ ← put (MkEnclave (set_sets (insert addr ([], [])) (shim s)) (enclave_sk s) (enclave_pk s)
             (tlcc_pk s) (key_count s) (S addr));
  mret addr.
Definition free_sets (addr : nat) : M unit := in_shim (modify (set_sets (delete addr))).

(** What follows the call of the chaincode, with its code and response: an
    error returns at once; otherwise arguments, response and sets are hashed,
    the context is released and the hash is signed. The code, the response and
    the signature. *)
Definition finish_invoke (args : bytes) (ctx : Z) (addr : nat) (r : Z * bytes) : M (Z * bytes * bytes) :=
  let '(ret, response) := r in
  if bool_decide (ret ≠ 0)%Z then
    _ ← free_sets addr; mret (SGX_ERROR_UNEXPECTED, response, [])
  else
    s ← get;
    rw ← lift (deref (sets (shim s) !! addr));
    let hash := sha256 (invocation_bytes (cstr args) response rw) in
    _ ← in_shim (free_rwset ctx);
    _ ← free_sets addr;
    let '(ret, sig) := ecdsa_sign hash (enclave_sk s) in
    if bool_decide (ret ≠ SGX_SUCCESS) then mret (ret, response, [])
    else
      sig ← lift (swap_halves sig);
      mret (SGX_SUCCESS, response, sig).

Definition ecall_invoke (args pk : bytes) (response_len_in ctx : Z) : M (Z * bytes * bytes) :=
  addr ← alloc_sets;
  _ ← in_shim (register_rwset ctx addr);
  r ← (if bool_decide (strlen pk = 0)
       then in_shim (invoke (cstr args) response_len_in ctx)
       else invoke_enc args pk response_len_in ctx);
  finish_invoke args ctx addr r.
End enclave.

(** ** Attestation *)

Lemma swap_halves_rev (a b : bytes) : length a = 32 → length b = 32 →
  swap_halves (a ++ b) = Ok (reverse a ++ reverse b).
Proof.
  intros Ha Hb. unfold swap_halves.
  pose proof (bytes_swap_range [] a b) as E1. cbn [app length] in E1. rewrite Ha in E1.
  rewrite E1. cbn [mbind res_bind].
  pose proof (bytes_swap_range (reverse a) b []) as E2. rewrite app_nil_r, length_reverse, Ha, Hb in E2.
  rewrite E2. by rewrite app_nil_r.
Qed.

(** The halves in front of other bytes. *)
Lemma swap_halves_front m m' rest : length m = 64 → swap_halves m = Ok m' →
  swap_halves (m ++ rest) = Ok (m' ++ rest).
Proof.
  intros Hm. rewrite <-(take_drop 32 m).
  set (a := take 32 m). set (b := drop 32 m).
  assert (length a = 32) as Ha by (unfold a; rewrite length_take; lia).
  assert (length b = 32) as Hb by (unfold b; rewrite length_drop; lia).
  rewrite swap_halves_rev by done. intros [= <-]. unfold swap_halves. rewrite <-app_assoc.
  pose proof (bytes_swap_range [] a (b ++ rest)) as E1. cbn [app length] in E1. rewrite Ha in E1.
  rewrite E1. cbn [mbind res_bind].
  pose proof (bytes_swap_range (reverse a) b rest) as E2. rewrite length_reverse, Ha, Hb in E2.
  rewrite E2. by rewrite app_assoc.
Qed.

Lemma split_halves (m : bytes) : length m = 64 → ∃ a b, m = a ++ b ∧ length a = 32 ∧ length b = 32.
Proof.
  intros Hm. exists (take 32 m), (drop 32 m). rewrite take_drop, length_take, length_drop. split_and!; [done|lia..].
Qed.

Lemma swap_halves_ok m : length m = 64 →
  ∃ m', swap_halves m = Ok m' ∧ length m' = 64 ∧ swap_halves m' = Ok m.
Proof.
  intros (a & b & -> & Ha & Hb)%split_halves. exists (reverse a ++ reverse b).
  rewrite swap_halves_rev by done. split_and!; [done|rewrite length_app, !length_reverse; lia|].
  rewrite swap_halves_rev by (by rewrite length_reverse). by rewrite !reverse_involutive.
Qed.

Lemma load_all (m : bytes) n : length m = n → load m 0 n = Ok m.
Proof. intros <-. unfold load. rewrite bool_decide_true by lia. by rewrite drop_0, firstn_all. Qed.

Lemma load_front (m rest : bytes) n : length m = n → load (m ++ rest) 0 n = Ok m.
Proof.
  intros <-. unfold load. rewrite bool_decide_true by (rewrite length_app; lia). by rewrite drop_0, take_app_length.
Qed.

(** ** Encrypted invocations *)

Section encrypted.
Context {C : Crypto} {L : CryptoLaws C} {PL : Platform} {W : Type} {P : Peer W}.
Context (invoke : bytes → Z → Z → ST (shim_state W) (Z * bytes)).

Lemma b64_text_decode m : b64_decode (cstr (b64_encode m)) = m.
Proof. rewrite cstr_id by apply b64_encode_nul_free. apply b64_roundtrip. Qed.

Lemma bytes_swap_all m n : length m = n → bytes_swap m 0 n = Ok (reverse m).
Proof.
  intros <-. pose proof (bytes_swap_range [] m []) as E. cbn [app length] in E. by rewrite !app_nil_r in E.
Qed.

(** [invoke_enc] on a sealed text: it is opened under the key derived from the
    shared secret. *)
Lemma invoke_enc_open key plain pk_be pk_le shared iv max_response_len ctx (s : enclave_state W) :
  length pk_be = 64 → swap_halves pk_be = Ok pk_le → length iv = 12 →
  compute_shared_dhkey (enclave_sk s) pk_le = (SGX_SUCCESS, shared) → length shared = 32 →
  invoke_enc invoke (b64_encode (sealed key plain iv)) (b64_encode pk_be) max_response_len ctx s =
  (let '(c, t) := (gcm_encrypt key iv plain).2 in
   let '(sgx_ret, opened) := gcm_decrypt (take 16 (sha256 (reverse shared))) iv c t in
   if bool_decide (sgx_ret ≠ SGX_SUCCESS) then mret (sgx_ret, [])
   else in_shim (invoke (cstr opened) max_response_len ctx)) s.
Proof.
  intros Hpk Hsw Hiv Hdh Hsh. unfold invoke_enc.
  erewrite st_bind_ok; [|done]. rewrite !b64_text_decode.
  erewrite st_bind_ok; [|by apply lift_ok, swap_halves_front].
  destruct (swap_halves_ok _ Hpk) as (le & E & Hle & _). rewrite Hsw in E. injection E as <-.
  erewrite st_bind_ok; [|by apply lift_ok, load_front]. rewrite Hdh.
  rewrite (bool_decide_false (SGX_SUCCESS ≠ SGX_SUCCESS)) by (intros Hne; by apply Hne).
  erewrite st_bind_ok; [|by apply lift_ok, bytes_swap_all].
  rewrite bool_decide_false by (rewrite sealed_length by done; lia).
  pose proof (gcm_tag_length key iv plain) as Htg.
  unfold sealed. destruct (gcm_encrypt key iv plain) as [st [ct tag]]. cbn [fst snd] in *.
  unfold SGX_AESGCM_MAC_SIZE in Htg.
  replace (take 12 (iv ++ tag ++ ct)) with iv by (by rewrite take_app_length').
  replace (drop 12 (iv ++ tag ++ ct)) with (tag ++ ct) by (by rewrite drop_app_length').
  replace (take 16 (tag ++ ct)) with tag by (by rewrite take_app_length').
  replace (drop 28 (iv ++ tag ++ ct)) with ct; [done|].
  rewrite app_assoc, drop_app_length'; [done|]. rewrite length_app, Htg, Hiv. done.
Qed.

(** An encrypted invocation runs the chaincode on the client's arguments. The
    client sends its public key (big endian) and the arguments encrypted under
    the key derived from the shared secret, both in base64; [invoke_enc]
    derives the same key, decrypts and behaves as a clear invocation. *)
Theorem encrypted_args_delivered plain pk_be pk_le shared iv max_response_len ctx (s : enclave_state W) :
  length pk_be = 64 → swap_halves pk_be = Ok pk_le → length iv = 12 → nul_free plain →
  compute_shared_dhkey (enclave_sk s) pk_le = (SGX_SUCCESS, shared) → length shared = 32 →
  let key := take 16 (sha256 (reverse shared)) in
  invoke_enc invoke (b64_encode (sealed key plain iv)) (b64_encode pk_be) max_response_len ctx s =
  in_shim (invoke plain max_response_len ctx) s.
Proof.
  intros Hpk Hsw Hiv Hn Hdh Hsh key. rewrite (invoke_enc_open key plain pk_be pk_le shared) by done.
  pose proof (gcm_roundtrip key iv plain) as Hrt. destruct (gcm_encrypt key iv plain) as [st [ct tag]].
  cbn [fst snd] in *. fold key. rewrite Hrt, (cstr_id plain Hn).
  by rewrite (bool_decide_false (SGX_SUCCESS ≠ SGX_SUCCESS)) by (intros Hne; by apply Hne).
Qed.
End encrypted.

Section attestation.
Context {C : Crypto} {L : CryptoLaws C} {PL : Platform} {PLL : PlatformLaws PL} {W W' : Type}.

(** What [ecall_create_report] hands out. *)
Lemma create_report_inv target (tlcc : enclave_state W') report pk :
  ecall_create_report target tlcc = Ok (SGX_SUCCESS, Some report, pk) →
  length pk = 64 ∧ take 32 (report_data report) = sha256 pk ∧
  ∃ key, load (enclave_pk tlcc) 0 64 = Ok key ∧ swap_halves key = Ok pk.
Proof.
  intros H. unfold ecall_create_report in H. res_inv H. rename r into key. res_inv H. rename r into be.
  assert (length key = 64) as Hk.
  { unfold load in *. case_bool_decide; simplify_eq. rewrite length_take, length_drop. lia. }
  destruct (swap_halves_ok key Hk) as (be' & Hbe & Hl & _).
  pose proof (report_carries_data (Some target) (sha256 be ++ repeat x00 32)) as Hd.
  destruct (create_report _ _) as [ret rep]. cbn in Hd. case_bool_decide; simplify_eq.
  split_and!; [congruence| |eauto]. by rewrite Hd, take_app_length' by (by rewrite sha256_length).
Qed.

(** Binding. With the report another enclave exports by
    [ecall_create_report], [ecall_bind_tlcc] succeeds for a 64-byte key exactly
    when the report verifies and the key has the hash of the exported one, so
    for the exported key in particular; it then stores the key and changes
    nothing else. Otherwise it fails and changes nothing. *)
Theorem bind_accepts_reported_key target (tlcc : enclave_state W') report pk (s : enclave_state W) pk' :
  ecall_create_report target tlcc = Ok (SGX_SUCCESS, Some report, pk) → length pk' = 64 →
  if bool_decide (verify_report report = SGX_SUCCESS ∧ sha256 pk' = sha256 pk)
  then ecall_bind_tlcc (Some report) (Some pk') s = Ok (SGX_SUCCESS,
         MkEnclave (shim s) (enclave_sk s) (enclave_pk s) pk' (key_count s) (set_count s))
  else ∃ z, z ≠ SGX_SUCCESS ∧ ecall_bind_tlcc (Some report) (Some pk') s = Ok (z, s).
Proof.
  intros (_ & Ht & _)%create_report_inv Hl. unfold ecall_bind_tlcc. rewrite load_all, Ht by done.
  destruct (decide (sha256 pk' = sha256 pk)) as [E|E]; [destruct (decide (verify_report report = SGX_SUCCESS)) as [V|V]|].
  - rewrite (bool_decide_true (_ ∧ _)) by done. by rewrite !bool_decide_false by (intros Hn; by apply Hn).
  - rewrite (bool_decide_false (_ ∧ _)) by (by intros [? _]).
    rewrite bool_decide_false by (intros Hn; by apply Hn). rewrite bool_decide_true by done. eauto.
  - rewrite (bool_decide_false (_ ∧ _)) by (by intros [_ ?]). rewrite bool_decide_true by done.
    eexists; split; [|done]; done.
Qed.

(** [ecall_get_pk] and [ecall_create_report] export the same big-endian key,
    whose halves swapped back are the enclave's key. *)
Theorem exported_key_consistent target (s : enclave_state W) : length (enclave_pk s) = 64 →
  ∃ pk, ecall_get_pk s = Ok (SGX_SUCCESS, pk) ∧ length pk = 64 ∧ swap_halves pk = Ok (enclave_pk s) ∧
    ∃ ret rep, ecall_create_report target s = Ok (ret, rep, pk).
Proof.
  intros Hl. destruct (swap_halves_ok _ Hl) as (pk & E & Hpk & Hback). exists pk.
  unfold ecall_get_pk, ecall_create_report. rewrite load_all by done. cbn [mbind res_bind].
  rewrite E. cbn. split_and!; [done..|].
  destruct (create_report _ _) as [ret rep]. case_bool_decide; eauto.
Qed.
End attestation.

#[local] Existing Instances Toy.toy_crypto Toy.toy_laws ToyPlatform.toy_platform ToyPlatform.toy_platform_laws.

(** An enclave as loaded, and after [ecall_init]. *)
Definition loaded {W} (w : W) : enclave_state W :=
  MkEnclave (MkShim ∅ ∅ 0 [] w) (repeat x00 32) (repeat x00 64) (repeat x00 64) 0 0.
Definition initialised {W} (w : W) : enclave_state W :=
  match ecall_init (loaded w) with Ok (_, s) => s | _ => loaded w end.

(** The key and the report of the initialised enclave. *)
Definition sample_key : bytes :=
  match ecall_get_pk (initialised tt) with Ok (_, pk) => pk | _ => [] end.
Definition sample_report : sgx_report_t :=
  (create_report (Some (MkTarget [] [] [])) (Some (sha256 sample_key ++ repeat x00 32))).2.

(** A client key, the shared secret of the platform and a chaincode that
    returns its arguments. *)
Definition client_pk : bytes := repeat x0b 64.
Definition sample_shared : bytes := (compute_shared_dhkey (repeat x00 32) client_pk).2.
Definition echo (args : bytes) (max ctx : Z) : ST (shim_state unit) (Z * bytes) := λ sh, Ok ((0%Z, args), sh).

Lemma encrypted_args_delivered_witness :
  invoke_enc echo (b64_encode (sealed (take 16 (sha256 (reverse sample_shared))) (bs "[1]") (repeat x01 12)))
    (b64_encode client_pk) 100 7 (loaded tt) = in_shim (echo (bs "[1]") 100 7) (loaded tt).
Proof.
  apply (encrypted_args_delivered echo (bs "[1]") client_pk client_pk sample_shared (repeat x01 12) 100 7
    (loaded tt)); try (vm_compute; reflexivity). by repeat constructor.
Defined.

Lemma bind_accepts_reported_key_witness :
  ecall_bind_tlcc (Some sample_report) (Some sample_key) (loaded tt) =
    Ok (SGX_SUCCESS, MkEnclave (shim (loaded tt)) (repeat x00 32) (repeat x00 64) sample_key 0 0) ∧
  ∃ z, z ≠ SGX_SUCCESS ∧
    ecall_bind_tlcc (Some sample_report) (Some (repeat x07 64)) (loaded tt) = Ok (z, loaded tt).
Proof.
  pose proof (λ pk', bind_accepts_reported_key (MkTarget [] [] []) (initialised tt) sample_report
    sample_key (loaded tt) pk' eq_refl) as H. split.
  - specialize (H sample_key eq_refl). rewrite bool_decide_true in H; [exact H|split; reflexivity].
  - specialize (H (repeat x07 64) eq_refl). rewrite bool_decide_false in H; [exact H|].
    intros [_ E]. vm_compute in E. discriminate E.
Defined.

Lemma exported_key_consistent_witness :
  ∃ pk, ecall_get_pk (initialised tt) = Ok (SGX_SUCCESS, pk) ∧ length pk = 64 ∧
    swap_halves pk = Ok (enclave_pk (initialised tt)) ∧
    ∃ ret rep, ecall_create_report (MkTarget [] [] []) (initialised tt) = Ok (ret, rep, pk).
Proof. apply exported_key_consistent. vm_compute. reflexivity. Defined.
End EccEnclave.
