(* ===== verification/Interleaving.v ===== *)
(** * Concurrent invocations (src/ecc_enclave/enclave/enclave.cpp, shim.cpp)

    The chaincode enclave has several threads, so that [ecall_invoke] runs
    interleaved with itself on the shared [context] and peer. Here the
    chaincode is a program of shim operations, [run] of which is the sequential
    chaincode of Auction.v, and a pool of threads makes one step at a time: the
    start of an invocation, one shim operation, or its end. (Between two
    accesses to shared data a thread only works on its own locals; the accesses
    to [context] are under [global_mutex].) The theorems: the pool with one
    thread does what [ecall_invoke] does, and in any interleaving of
    invocations with different contexts each signs exactly the reads and writes
    it would make alone. *)
From S2P Require Import Prelude Utils Base64 StdMap Sgx EccCrypto Shim AuctionJson Auction EccEnclave.
Import Utils Base64 StdMap Sgx EccCrypto Shim AuctionJson Auction EccEnclave.

Module Interleaving.

(** ** Programs of shim operations *)

Inductive prog (A : Type) :=
  | Done (r : res A)
  | DoGet (key : bytes) (max : nat) (k : bytes * Z → prog A)
  | DoPut (key val : bytes) (k : unit → prog A)
  | DoRange (key : bytes) (k : list (bytes * bytes) → prog A).
Arguments Done {A}.
Arguments DoGet {A}.
Arguments DoPut {A}.
Arguments DoRange {A}.

#[global] Instance prog_ret : MRet prog := λ A a, Done (Ok a).
#[global] Instance prog_bind : MBind prog := λ A B f,
  fix go m :=
    match m with
    | Done (Ok a) => f a
    | Done (UB e) => Done (UB e)
    | Done NoFuel => Done NoFuel
    | DoGet key max k => DoGet key max (λ r, go (k r))
    | DoPut key val k => DoPut key val (λ r, go (k r))
    | DoRange key k => DoRange key (λ r, go (k r))
    end.

Definition do_get (key : bytes) (max : nat) : prog (bytes * Z) := DoGet key max mret.
Definition do_put (key val : bytes) : prog unit := DoPut key val mret.
Definition do_range (key : bytes) : prog (list (bytes * bytes)) := DoRange key mret.

(** ** The auction as a program *)

Definition create_prog (auction_name : bytes) : prog bytes :=
  r ← do_get (cstr auction_name) MAX_VALUE_SIZE;
  if bool_decide (r.2 > 0)%Z then mret AUCTION_ALREADY_EXISTS
  else
    json ← Done (marshal_auction (MkAuction (cstr auction_name) true));
    _ ← do_put (cstr auction_name) json;
    mret OK.

Definition submit_prog (auction_name bidder_name : bytes) (value : Z) : prog bytes :=
  r ← do_get (cstr auction_name) MAX_VALUE_SIZE;
  if bool_decide (r.2 = 0)%Z then mret AUCTION_ALREADY_EXISTS
  else
    text ← Done (c_string r.1);
    the_auction ← Done (unmarshal_auction text);
    if negb (is_open the_auction) then mret AUCTION_ALREADY_CLOSED
    else
      json ← Done (marshal_bid (MkBid bidder_name value));
      _ ← do_put (cstr (bid_key auction_name bidder_name)) json;
      mret OK.

Definition close_prog (auction_name : bytes) : prog bytes :=
  r ← do_get (cstr auction_name) MAX_VALUE_SIZE;
  if bool_decide (r.2 = 0)%Z then mret AUCTION_ALREADY_EXISTS
  else
    text ← Done (c_string r.1);
    the_auction ← Done (unmarshal_auction text);
    if negb (is_open the_auction) then mret AUCTION_ALREADY_CLOSED
    else
      json ← Done (marshal_auction (MkAuction (name the_auction) false));
      _ ← do_put (cstr auction_name) json;
      mret OK.

Definition eval_prog (auction_name : bytes) : prog bytes :=
  r ← do_get (cstr auction_name) MAX_VALUE_SIZE;
  if bool_decide (r.2 = 0)%Z then mret AUCTION_ALREADY_EXISTS
  else
    text ← Done (c_string r.1);
    the_auction ← Done (unmarshal_auction text);
    if is_open the_auction then mret AUCTION_ALREADY_CLOSED
    else
      values ← do_range (cstr (bid_composite_key auction_name));
      match values with
      | [] => mret AUCTION_NO_BIDS
      | _ => st ← Done (search_loop values search_init); Done (eval_result st)
      end.

Definition invoke_prog (args : bytes) (max_response_len : Z) : prog (Z * bytes) :=
  r ← Done (unmarshal_args [] args);
  let argss := r.2 in
  function_name ← Done (read_at argss 0);
  auction_name ← Done (read_at argss 1);
  result ←
    (if bool_decide (function_name = bs "create") then create_prog auction_name
     else if bool_decide (function_name = bs "submit") then
       bidder_name ← Done (read_at argss 2);
       arg3 ← Done (read_at argss 3);
       value ← Done (stoi arg3);
       submit_prog auction_name bidder_name value
     else if bool_decide (function_name = bs "close") then close_prog auction_name
     else if bool_decide (function_name = bs "eval") then eval_prog auction_name
     else mret []);
  mret (respond max_response_len result).

Section run.
Context {C : Crypto} {W : Type} {P : Peer W}.

(** Sequential execution. *)
Fixpoint run {A} (p : prog A) (ctx : Z) : ST (shim_state W) A :=
  match p with
  | Done r => lift r
  | DoGet key max k => r ← get_state key max ctx; run (k r) ctx
  | DoPut key val k => r ← put_state key val ctx; run (k r) ctx
  | DoRange key k => r ← get_state_by_partial_composite_key key ctx; run (k r) ctx
  end.

Lemma run_bind {A B} (m : prog A) (f : A → prog B) ctx s :
  run (m ≫= f) ctx s = (run m ctx ≫= λ a, run (f a) ctx) s.
Proof.
  revert s. induction m as [[a|e|]|key max k IH|key val k IH|key k IH]; intros s; try done;
    cbn [mbind prog_bind run]; unfold mbind, st_bind;
    (match goal with |- context [match ?m s with _ => _ end] => destruct (m s) as [[r s1]| |] end);
    [|done..]; apply IH.
Qed.

(** [p] is the code [m]. *)
Definition implements {A} (p : prog A) (m : Z → ST (shim_state W) A) : Prop :=
  ∀ ctx s, run p ctx s = m ctx s.

Lemma implements_bind {A B} (p : prog A) m (f : A → prog B) g :
  implements p m → (∀ a, implements (f a) (g a)) →
  implements (p ≫= f) (λ ctx, m ctx ≫= λ a, g a ctx).
Proof.
  intros Hp Hf ctx s. rewrite run_bind. unfold mbind, st_bind. rewrite Hp.
  destruct (m ctx s) as [[a s1]| |]; [|done..]. apply Hf.
Qed.
Lemma implements_lift {A} (r : res A) : implements (Done r) (λ _, lift r).
Proof. done. Qed.
Lemma implements_ret {A} (a : A) : implements (mret a) (λ _, mret a).
Proof. done. Qed.
Lemma implements_get key max : implements (do_get key max) (get_state key max).
Proof. intros ctx s. cbn. unfold mbind, st_bind. by destruct (get_state key max ctx s) as [[]| |]. Qed.
Lemma implements_put key val : implements (do_put key val) (put_state key val).
Proof. intros ctx s. cbn. unfold mbind, st_bind. by destruct (put_state key val ctx s) as [[]| |]. Qed.
Lemma implements_range key : implements (do_range key) (get_state_by_partial_composite_key key).
Proof.
  intros ctx s. cbn. unfold mbind, st_bind.
  by destruct (get_state_by_partial_composite_key key ctx s) as [[]| |].
Qed.
Lemma implements_if {A} (b : bool) (p q : prog A) m n :
  implements p m → implements q n → implements (if b then p else q) (λ ctx, if b then m ctx else n ctx).
Proof. by destruct b. Qed.
End run.

Create HintDb prog.
#[export] Hint Resolve implements_lift implements_ret implements_get implements_put implements_range
  implements_if : prog.
#[export] Hint Extern 1 (implements (_ ≫= _) _) => apply implements_bind; [|intros] : prog.
#[export] Hint Extern 2 (implements (match ?l with [] => _ | _ :: _ => _ end) _) => destruct l : prog.

Section auction.
Context {C : Crypto} {W : Type} {P : Peer W}.

Lemma create_prog_ok n : implements (W := W) (create_prog n) (auction_create n).
Proof. unfold create_prog, auction_create. auto 20 with prog. Qed.
Lemma submit_prog_ok n b v : implements (W := W) (submit_prog n b v) (auction_submit n b v).
Proof. unfold submit_prog, auction_submit. auto 20 with prog. Qed.
Lemma close_prog_ok n : implements (W := W) (close_prog n) (auction_close n).
Proof. unfold close_prog, auction_close. auto 20 with prog. Qed.
Lemma eval_prog_ok n : implements (W := W) (eval_prog n) (auction_eval n).
Proof. unfold eval_prog, auction_eval. auto 20 with prog. Qed.

Hint Resolve create_prog_ok submit_prog_ok close_prog_ok eval_prog_ok : prog.

Lemma invoke_prog_ok args max : implements (W := W) (invoke_prog args max) (invoke args max).
Proof. unfold invoke_prog, invoke. auto 20 with prog. Qed.
End auction.

(** ** The body of an invocation *)

Section entry.
Context {C : Crypto} {PL : Platform}.
Context (chaincode : bytes → Z → prog (Z * bytes)).

(** Clear arguments, or [invoke_enc]: [sk] is the enclave's private key. *)
Definition entry_prog (sk args pk : bytes) (max_response_len : Z) : prog (Z * bytes) :=
  if bool_decide (strlen pk = 0) then chaincode (cstr args) max_response_len
  else
    client_pk ← Done (swap_halves (b64_decode (cstr pk) ++ [x00]));
    client_pk ← Done (load client_pk 0 64);
    let '(sgx_ret, shared) := compute_shared_dhkey sk client_pk in
    if bool_decide (sgx_ret ≠ SGX_SUCCESS) then mret (sgx_ret, [])
    else
      shared ← Done (bytes_swap shared 0 32);
      let key := take 16 (sha256 shared) in
      let cipher := b64_decode (cstr args) in
      if bool_decide (length cipher < 28) then Done (UB OutOfBounds)
      else
        let '(sgx_ret, plain) := gcm_decrypt key (take 12 cipher) (drop 28 cipher)
                                   (take 16 (drop 12 cipher)) in
        if bool_decide (sgx_ret ≠ SGX_SUCCESS) then mret (sgx_ret, [])
        else chaincode (cstr plain) max_response_len.

Context {W : Type} {P : Peer W} (invoke : bytes → Z → Z → ST (shim_state W) (Z * bytes)).

Lemma entry_prog_ok args pk max ctx (es : enclave_state W) :
  (∀ args max, implements (chaincode args max) (invoke args max)) →
  (if bool_decide (strlen pk = 0) then in_shim (invoke (cstr args) max ctx)
   else invoke_enc invoke args pk max ctx) es =
  in_shim (run (entry_prog (enclave_sk es) args pk max) ctx) es.
Proof.
  intros Hcc. unfold entry_prog. case_bool_decide.
  { unfold in_shim. by rewrite Hcc. }
  unfold invoke_enc, get, lift, in_shim, mret, st_ret, mbind, st_bind, prog_bind. destruct es as [sh sk pk' tpk kc sc].
  cbn [enclave_sk shim].
  destruct (swap_halves _) as [k1| |]; [|done..]. destruct (load _ _ _) as [k2| |]; [|done..].
  destruct (compute_shared_dhkey _ _) as [st shared]. case_bool_decide; [done|].
  destruct (bytes_swap _ _ _) as [k3| |]; [|done..]. cbv zeta. case_bool_decide; [done|].
  destruct (gcm_decrypt _ _ _ _) as [st' plain]. case_bool_decide; [done|]. by rewrite Hcc.
Qed.
End entry.

(** ** Locality of the shim operations *)

Section local.
Context {C : Crypto} {W : Type} {P : Peer W}.
Implicit Types (s : shim_state W) (rw : read_set_t * write_set_t).

(** The shim as it would be with this invocation alone: the random numbers, the
    log and the peer are those of [s]. *)
Definition alone (ctx : Z) (addr : nat) (rw : read_set_t * write_set_t) (s : shim_state W) : shim_state W :=
  MkShim {[ctx := addr]} {[addr := rw]} (rand_count s) (log s) (world s).

(** [m] does the same alone, and touches no other invocation's sets. *)
Definition local {A} (ctx : Z) (addr : nat) (m : ST (shim_state W) A) : Prop :=
  ∀ s rw a s', active ctx addr rw s → m s = Ok (a, s') →
  ∃ rw', m (alone ctx addr rw s) = Ok (a, alone ctx addr rw' s') ∧
    context s' = context s ∧ sets s' = <[addr := rw']> (sets s).

Context {ctx : Z} {addr : nat}.

Lemma active_insert rw rw' s s' : active ctx addr rw s → context s' = context s →
  sets s' = <[addr := rw']> (sets s) → active ctx addr rw' s'.
Proof. intros [Hc _] Ec Es. split; [by rewrite Ec|]. rewrite Es. apply lookup_insert_eq. Qed.

Lemma local_bind {A B} (m : ST (shim_state W) A) (f : A → ST (shim_state W) B) :
  local ctx addr m → (∀ a, local ctx addr (f a)) → local ctx addr (m ≫= f).
Proof.
  intros Hm Hf s rw b s' Ha. unfold mbind, st_bind.
  destruct (m s) as [[a s1]| |] eqn:E; [|done..]. intros E'.
  destruct (Hm s rw a s1 Ha E) as (rw1 & -> & Ec & Es).
  destruct (Hf a s1 rw1 b s') as (rw2 & -> & Ec2 & Es2); [by eapply active_insert|done|].
  exists rw2. split_and!; [done|congruence|]. by rewrite Es2, Es, insert_insert_eq.
Qed.

Lemma local_lift {A} (r : res A) : local ctx addr (lift r).
Proof.
  intros s rw a s' [Hc Hs] H. destruct r; simplify_eq/=. exists rw. by rewrite insert_id.
Qed.
Lemma local_ret {A} (a : A) : local ctx addr (mret a).
Proof. apply (local_lift (Ok a)). Qed.

Lemma local_get_rwset {A} (f : option nat → ST (shim_state W) A) :
  local ctx addr (f (Some addr)) → local ctx addr (get_rwset ctx ≫= f).
Proof.
  intros Hf s rw a s' Ha. unfold get_rwset, get, mret, st_ret, mbind, st_bind, alone. cbn [context].
  rewrite (active_ctx _ _ _ _ Ha), lookup_singleton_eq. by apply Hf.
Qed.

Lemma local_update_sets f : local ctx addr (update_sets (Some addr) f).
Proof.
  intros s rw a s' [Hc Hs] H. unfold update_sets, lift, get, modify, mbind, st_bind in *. cbn [deref] in *.
  rewrite Hs in H. injection H as <- <-. exists (f rw). unfold alone. cbn [sets].
  rewrite lookup_singleton_eq. split; [|done]. unfold set_sets. cbn. by rewrite insert_singleton_eq.
Qed.

Lemma local_ocall f : local ctx addr (ocall f).
Proof.
  intros s rw a s' [Hc Hs] H. unfold ocall, get, put, mret, st_ret, mbind, st_bind in *. cbn in *.
  destruct (f (world s)) as [b w]. injection H as <- <-. exists rw. by rewrite insert_id.
Qed.

(** Changes of the random numbers, the log and the peer. *)
Lemma local_modify (f : shim_state W → shim_state W) :
  (∀ s, context (f s) = context s ∧ sets (f s) = sets s) →
  (∀ rw s, f (alone ctx addr rw s) = alone ctx addr rw (f s)) → local ctx addr (modify f).
Proof.
  intros Hf Ha s rw a s' [Hc Hs] [= <- <-]. exists rw. destruct (Hf s) as [-> ->].
  split_and!; [|done|by rewrite insert_id]. unfold modify. by rewrite Ha.
Qed.

Lemma local_get {A} (f : nat → W → ST (shim_state W) A) :
  (∀ n w, local ctx addr (f n w)) → local ctx addr (get ≫= λ s, f (rand_count s) (world s)).
Proof. intros Hf s rw a s' Ha H. by apply (Hf _ _ s rw a s' Ha). Qed.

Lemma local_fold {A B} (f : B → A → ST (shim_state W) B) b l :
  (∀ b a, local ctx addr (f b a)) → local ctx addr (st_fold f b l).
Proof.
  intros Hf. revert b. induction l as [|a l IH]; intros b; cbn [st_fold]; [apply local_ret|].
  by apply local_bind.
Qed.

Lemma local_if {A} (b : bool) (m n : ST (shim_state W) A) :
  local ctx addr m → local ctx addr n → local ctx addr (if b then m else n).
Proof. by destruct b. Qed.
End local.

Create HintDb local.
#[export] Hint Resolve local_lift local_ret local_ocall local_update_sets local_if local_fold : local.
#[export] Hint Extern 1 (local _ _ (get_rwset _ ≫= _)) => apply local_get_rwset : local.
#[export] Hint Extern 2 (local _ _ (_ ≫= _)) => apply local_bind; [|intros] : local.
#[export] Hint Extern 1 (local _ _ (modify _)) => apply local_modify : local.
#[export] Hint Extern 1 (local _ _ (read_set_insert _ _)) => apply local_update_sets : local.
#[export] Hint Extern 1 (local _ _ (write_set_insert _ _ _)) => apply local_update_sets : local.
#[export] Hint Extern 1 (local _ _ (let '(_, _) := ?x in _)) => destruct x : local.

Section operations.
Context {C : Crypto} {W : Type} {P : Peer W}.
Context {ctx : Z} {addr : nat}.

Lemma local_get_state key max : local (W := W) ctx addr (get_state key max ctx).
Proof. unfold get_state. auto 20 with local. Qed.

Lemma local_set_world (F : W → W) :
  local ctx addr (s ← get; put (set_world (F (world s)) s)).
Proof.
  intros s rw a s' [Hc Hs] [= <- <-]. exists rw. by rewrite insert_id.
Qed.

Lemma local_put_state key val : local (W := W) ctx addr (put_state key val ctx).
Proof.
  unfold put_state. cbv zeta.
  apply (local_get (λ n w, lift (encrypt_state state_encryption_key val (rand_iv n) _) ≫= _)).
  intros n _. auto 20 using local_set_world with local.
Qed.

Lemma local_range key : local (W := W) ctx addr (get_state_by_partial_composite_key key ctx).
Proof. unfold get_state_by_partial_composite_key, range_step. auto 20 with local. Qed.

(** One shim operation of a program. *)
Inductive op_step {A} (ctx : Z) : prog A → shim_state W → prog A → shim_state W → Prop :=
  | op_get key max k s r s' : get_state key max ctx s = Ok (r, s') →
      op_step ctx (DoGet key max k) s (k r) s'
  | op_put key val k s r s' : put_state key val ctx s = Ok (r, s') →
      op_step ctx (DoPut key val k) s (k r) s'
  | op_range key k s r s' : get_state_by_partial_composite_key key ctx s = Ok (r, s') →
      op_step ctx (DoRange key k) s (k r) s'.

Lemma op_step_local {A} (p p' : prog A) s s' rw : op_step ctx p s p' s' → active ctx addr rw s →
  ∃ rw', op_step ctx p (alone ctx addr rw s) p' (alone ctx addr rw' s') ∧
    context s' = context s ∧ sets s' = <[addr := rw']> (sets s).
Proof.
  intros [key max k s0 r s1 E|key val k s0 r s1 E|key k s0 r s1 E] Ha.
  - destruct (local_get_state key max _ _ _ _ Ha E) as (rw' & ? & ?). exists rw'. by split; [constructor|].
  - destruct (local_put_state key val _ _ _ _ Ha E) as (rw' & ? & ?). exists rw'. by split; [constructor|].
  - destruct (local_range key _ _ _ _ Ha E) as (rw' & ? & ?). exists rw'. by split; [constructor|].
Qed.

(** One operation of an invocation that is alone in the enclave, on its read
    and write set; the random numbers, the log and the peer may have changed
    since its last operation. *)
Inductive alone_step {A} (ctx : Z) (addr : nat)
  : prog A * (read_set_t * write_set_t) → prog A * (read_set_t * write_set_t) → Prop :=
  | alone_op p p' s s' rw rw' : op_step ctx p (alone ctx addr rw s) p' (alone ctx addr rw' s') →
      alone_step ctx addr (p, rw) (p', rw').
End operations.

(** ** The pool of threads *)

Inductive thread :=
  | Ready (args pk : bytes) (max_response_len ctx : Z)
  | Running (args : bytes) (ctx : Z) (addr : nat) (p : prog (Z * bytes))
  | Returned (args : bytes) (ctx : Z) (result : Z * bytes * bytes).

Definition thread_ctx (t : thread) : Z :=
  match t with Ready _ _ _ ctx | Running _ ctx _ _ | Returned _ ctx _ => ctx end.

Section pool.
Context {C : Crypto} {PL : Platform} {W : Type} {P : Peer W}.
Context (chaincode : bytes → Z → prog (Z * bytes)).
Implicit Types (es : enclave_state W) (ts : list thread).

(** The sets of a new invocation are allocated and registered. *)
Definition begin_invoke (ctx : Z) : ST (enclave_state W) nat :=
  addr ← alloc_sets;
  _ ← in_shim (register_rwset ctx addr);
  mret addr.

Inductive pool_step : list thread * enclave_state W → list thread * enclave_state W → Prop :=
  | step_begin ts es i args pk max ctx addr es' :
      ts !! i = Some (Ready args pk max ctx) → begin_invoke ctx es = Ok (addr, es') →
      pool_step (ts, es)
        (<[i := Running args ctx addr (entry_prog chaincode (enclave_sk es) args pk max)]> ts, es')
  | step_op ts es i args ctx addr p p' sh :
      ts !! i = Some (Running args ctx addr p) → op_step ctx p (shim es) p' sh →
      pool_step (ts, es) (<[i := Running args ctx addr p']> ts, set_shim sh es)
  | step_end ts es i args ctx addr r result es' :
      ts !! i = Some (Running args ctx addr (Done (Ok r))) →
      finish_invoke args ctx addr r es = Ok (result, es') →
      pool_step (ts, es) (<[i := Returned args ctx result]> ts, es').

(** The result of an invocation with the chaincode's result [r] and the sets
    [rw]: an error code, or the response with the signature. *)
Definition outcome (sk args : bytes) (r : Z * bytes) (rw : read_set_t * write_set_t)
  : res (Z * bytes * bytes) :=
  if bool_decide (r.1 ≠ 0)%Z then Ok (SGX_ERROR_UNEXPECTED, r.2, [])
  else
    let '(ret, sig) := ecdsa_sign (sha256 (invocation_bytes (cstr args) r.2 rw)) sk in
    if bool_decide (ret ≠ SGX_SUCCESS) then Ok (ret, r.2, [])
    else sig' ← swap_halves sig; Ok (SGX_SUCCESS, r.2, sig').

(** What holds of the thread [t] that was [t0] at first: a running invocation
    finds its own sets in [context], and they are what it would have alone; its
    result is that of the invocation alone. *)
Definition thread_ok (sk : bytes) (sh : shim_state W) (t0 t : thread) : Prop :=
  match t with
  | Ready _ _ _ ctx => t = t0 ∧ context sh !! ctx = None
  | Running args ctx addr p => ∃ pk max rw, t0 = Ready args pk max ctx ∧ active ctx addr rw sh ∧
      rtc (alone_step (W := W) ctx addr) (entry_prog chaincode sk args pk max, ([], [])) (p, rw)
  | Returned args ctx result => ∃ pk max addr rw r, t0 = Ready args pk max ctx ∧
      rtc (alone_step (W := W) ctx addr) (entry_prog chaincode sk args pk max, ([], [])) (Done (Ok r), rw) ∧
      outcome sk args r rw = Ok result
  end.

(** Only the entries of one invocation differ. *)
Definition frame (ctx : Z) (addr : nat) (sh sh' : shim_state W) : Prop :=
  (∀ c, c ≠ ctx → context sh' !! c = context sh !! c) ∧
  (∀ a, a ≠ addr → sets sh' !! a = sets sh !! a).

Definition thread_addr (t : thread) : option nat :=
  match t with Running _ _ addr _ => Some addr | _ => None end.

Lemma thread_ok_ctx sk sh t0 t : thread_ok sk sh t0 t → thread_ctx t = thread_ctx t0.
Proof. destruct t; cbn; [by intros [<- _]|..]; naive_solver. Qed.

Lemma thread_ok_frame sk sh sh' t0 t ctx addr : thread_ok sk sh t0 t → frame ctx addr sh sh' →
  thread_ctx t ≠ ctx → thread_addr t ≠ Some addr → thread_ok sk sh' t0 t.
Proof.
  intros H [Hc Hs] Hctx Haddr. destruct t as [args pk max c|args c a p|args c result]; cbn in *.
  - destruct H as [? H]. by rewrite Hc.
  - destruct H as (pk & max & rw & ? & [Ha Hr] & ?). exists pk, max, rw. split_and!; [done| |done].
    split; [by rewrite Hc|]. rewrite Hs; [done|]. congruence.
  - done.
Qed.

(** ** The three kinds of steps *)

Lemma begin_invoke_inv ctx es addr es' : begin_invoke ctx es = Ok (addr, es') →
  context (shim es) !! ctx = None →
  addr = set_count es ∧ set_count es' = S (set_count es) ∧ enclave_sk es' = enclave_sk es ∧
  context (shim es') = <[ctx := addr]> (context (shim es)) ∧
  sets (shim es') = <[addr := ([], [])]> (sets (shim es)).
Proof.
  intros H Hctx. unfold begin_invoke, alloc_sets, in_shim, register_rwset, modify, set_context, set_sets,
    get, put, mbind, st_bind, mret, st_ret in H.
  cbn [shim context] in H. rewrite Hctx in H. by injection H as <- <-.
Qed.

Lemma finish_invoke_inv args ctx addr r es result es' rw :
  finish_invoke args ctx addr r es = Ok (result, es') → sets (shim es) !! addr = Some rw →
  outcome (enclave_sk es) args r rw = Ok result ∧ enclave_sk es' = enclave_sk es ∧
  set_count es' = set_count es ∧ frame ctx addr (shim es) (shim es') ∧
  context (shim es') ⊆ context (shim es).
Proof.
  intros H Hs. unfold finish_invoke, outcome in *. destruct r as [ret response]. cbn [fst snd] in *.
  assert (∀ a, a ≠ addr → delete addr (sets (shim es)) !! a = sets (shim es) !! a) as Hd.
  { intros a Ha. by apply lookup_delete_ne. }
  case_bool_decide.
  { injection H as <- <-. cbn. split_and!; done. }
  unfold free_sets, in_shim, free_rwset, modify, get, lift, mbind, st_bind, mret, st_ret in H.
  rewrite Hs in H. cbn [deref] in H.
  assert (frame ctx addr (shim es) (set_sets (delete addr) (set_context (delete ctx) (shim es)))) as Hf.
  { split; [intros c Hc; by apply lookup_delete_ne|exact Hd]. }
  destruct (ecdsa_sign _ _) as [ret' sig]. case_bool_decide.
  { injection H as <- <-. cbn. split_and!; try done. apply delete_subseteq. }
  destruct (swap_halves sig) as [sig'| |]; [|done..]. injection H as <- <-. cbn.
  split_and!; try done. apply delete_subseteq.
Qed.

(** ** The invariant *)

Definition old_addresses es : Prop := ∀ c a, context (shim es) !! c = Some a → a < set_count es.

(** Threads are as they should be and no two running ones share their sets. *)
Record pool_inv (ts0 : list thread) (sk : bytes) (ts : list thread) (es : enclave_state W) : Prop := {
  inv_sk : enclave_sk es = sk;
  inv_old : old_addresses es;
  inv_threads i t : ts !! i = Some t → ∃ t0, ts0 !! i = Some t0 ∧ thread_ok sk (shim es) t0 t;
  inv_addr i j ti tj a : ts !! i = Some ti → ts !! j = Some tj →
    thread_addr ti = Some a → thread_addr tj = Some a → i = j }.

Lemma nodup_ctx ts0 i j t t' : NoDup (map thread_ctx ts0) → ts0 !! i = Some t → ts0 !! j = Some t' →
  thread_ctx t = thread_ctx t' → i = j.
Proof.
  intros Hnd Hi Hj E. apply (NoDup_lookup (map thread_ctx ts0) i j (thread_ctx t)); [done|..];
    rewrite list_lookup_fmap; [by rewrite Hi|by rewrite Hj, E].
Qed.

(** A step of the thread [i] that changes only the entries of its invocation. *)
Lemma inv_update ts0 sk ts es es' i t t' t0 addr :
  NoDup (map thread_ctx ts0) → pool_inv ts0 sk ts es → ts !! i = Some t → ts0 !! i = Some t0 →
  frame (thread_ctx t) addr (shim es) (shim es') → enclave_sk es' = sk → old_addresses es' →
  (∀ j tj, ts !! j = Some tj → j ≠ i → thread_addr tj ≠ Some addr) →
  thread_ok sk (shim es') t0 t' → (∀ a, thread_addr t' = Some a → a = addr) →
  pool_inv ts0 sk (<[i := t']> ts) es'.
Proof.
  intros Hnd Hinv Hi H0 Hf Hsk Hold Hother Ht' Haddr'.
  destruct (inv_threads _ _ _ _ Hinv i t Hi) as (t0' & H0' & Ht). assert (t0' = t0) as -> by congruence.
  assert (∀ j tj, <[i := t']> ts !! j = Some tj →
            j = i ∧ tj = t' ∨ j ≠ i ∧ ts !! j = Some tj) as Hcase.
  { intros j tj H%list_lookup_insert_Some. naive_solver. }
  split; [done..| |].
  - intros j tj [[-> ->]|[Hj Htj]]%Hcase; [eauto|].
    destruct (inv_threads _ _ _ _ Hinv j tj Htj) as (tj0 & Hj0 & Hok). exists tj0. split; [done|].
    eapply thread_ok_frame; [done|done| |by eapply Hother].
    rewrite (thread_ok_ctx _ _ _ _ Hok), (thread_ok_ctx _ _ _ _ Ht). intros E. apply Hj.
    by eapply nodup_ctx.
  - intros j k tj tk a [[-> ->]|[Hj Htj]]%Hcase [[-> ->]|[Hk Htk]]%Hcase Ea Eb; [done|..].
    + rewrite (Haddr' a Ea) in Eb. by destruct (Hother k tk Htk Hk).
    + rewrite (Haddr' a Eb) in Ea. by destruct (Hother j tj Htj Hj).
    + by eapply (inv_addr _ _ _ _ Hinv).
Qed.

(** The address of a thread that is running is registered. *)
Lemma running_addr ts0 sk ts es j tj a : pool_inv ts0 sk ts es → ts !! j = Some tj →
  thread_addr tj = Some a → a < set_count es.
Proof.
  intros Hinv Htj Ha. destruct (inv_threads _ _ _ _ Hinv j tj Htj) as (t0 & _ & Hok).
  destruct tj as [|args ctx addr p|]; cbn in Ha; simplify_eq.
  destruct Hok as (? & ? & ? & _ & [Hc _] & _). by apply (inv_old _ _ _ _ Hinv) in Hc.
Qed.

Lemma pool_step_inv ts0 sk ts es ts' es' : NoDup (map thread_ctx ts0) →
  pool_step (ts, es) (ts', es') → pool_inv ts0 sk ts es → pool_inv ts0 sk ts' es'.
Proof.
  intros Hnd Hstep Hinv. pose proof (inv_sk _ _ _ _ Hinv) as Hsk. pose proof (inv_old _ _ _ _ Hinv) as Hold.
  assert (∀ i t addr, ts !! i = Some t → thread_addr t = Some addr →
            ∀ j tj, ts !! j = Some tj → j ≠ i → thread_addr tj ≠ Some addr) as Hdistinct.
  { intros i t addr Hi Ha j tj Hj Hne E. apply Hne. by eapply (inv_addr _ _ _ _ Hinv). }
  inversion Hstep as [? ? i args pk max ctx addr ? Hi Hb|? ? i args ctx addr p p' sh Hi Hop
                     |? ? i args ctx addr r result ? Hi Hfin]; subst;
    destruct (inv_threads _ _ _ _ Hinv i _ Hi) as (t0 & H0 & Hok); cbn in Hok.
  - destruct Hok as [<- Hctx]. apply begin_invoke_inv in Hb as (-> & Hn & Hs & Ec & Es); [|done].
    apply (inv_update ts0 _ _ es _ _ (Ready args pk max ctx) _ (Ready args pk max ctx) (set_count es)); try done.
    + split; intros x Hx; [rewrite Ec|rewrite Es]; by rewrite lookup_insert_ne.
    + intros c a. rewrite Ec, Hn, lookup_insert. case_decide; [intros [= <-]; lia|]. intros Hc%Hold. lia.
    + intros j tj Hj _ E. apply (running_addr _ _ _ _ _ _ _ Hinv Hj) in E. lia.
    + exists pk, max, ([], []). split_and!; [done| |apply rtc_refl].
      split; [by rewrite Ec, lookup_insert_eq|by rewrite Es, lookup_insert_eq].
    + by intros a [= <-].
  - destruct Hok as (pk & max & rw & -> & Ha & Hrun).
    destruct (op_step_local _ _ _ _ _ Hop Ha) as (rw' & Hal & Ec & Es).
    apply (inv_update ts0 _ _ es _ _ _ _ _ addr Hnd Hinv Hi H0); try done.
    + split; intros x Hx; cbn; [by rewrite Ec|by rewrite Es, lookup_insert_ne].
    + intros c a. cbn. rewrite Ec. apply Hold.
    + by eapply Hdistinct.
    + exists pk, max, rw'. split_and!; [done|by eapply active_insert|]. eapply rtc_r; [done|]. by econstructor.
    + by intros a [= <-].
  - destruct Hok as (pk & max & rw & -> & [Hc Hs] & Hrun).
    destruct (finish_invoke_inv _ _ _ _ _ _ _ _ Hfin Hs) as (Ho & Hk & Hn & Hf & Hsub).
    apply (inv_update ts0 _ _ es _ _ _ _ _ addr Hnd Hinv Hi H0); try done.
    + intros c a Hca. rewrite Hn. apply (Hold c). by eapply lookup_weaken.
    + by eapply Hdistinct.
    + exists pk, max, addr, rw, r. done.
Qed.

(** Invocations that have not started, with different contexts, none of which
    is registered. *)
Record pool_ready (ts : list thread) (es : enclave_state W) : Prop := {
  ready_all t : t ∈ ts → ∃ args pk max ctx, t = Ready args pk max ctx ∧ context (shim es) !! ctx = None;
  ready_ctx : NoDup (map thread_ctx ts);
  ready_old : old_addresses es }.

Lemma pool_ready_inv ts es : pool_ready ts es → pool_inv ts (enclave_sk es) ts es.
Proof.
  intros [Hall _ Hold]. split; [done..| |].
  - intros i t Hi. exists t. split; [done|].
    destruct (Hall t) as (args & pk & max & ctx & -> & Hctx); [by eapply list_elem_of_lookup_2|done].
  - intros i j ti tj a Hi _ Ha. apply list_elem_of_lookup_2 in Hi.
    destruct (Hall ti Hi) as (? & ? & ? & ? & -> & _). done.
Qed.

Lemma pool_run_inv ts es ts' es' : pool_ready ts es → rtc pool_step (ts, es) (ts', es') →
  pool_inv ts (enclave_sk es) ts' es'.
Proof.
  intros Hr Hsteps. apply (rtc_ind_r (λ c, pool_inv ts (enclave_sk es) c.1 c.2) (ts, es)) in Hsteps; [done|..].
  - by apply pool_ready_inv.
  - intros [t1 e1] [t2 e2] _ Hs. apply pool_step_inv; [apply Hr|done].
Qed.

(** C7: isolation of concurrent invocations. Whatever the interleaving of
    invocations with different contexts and whatever the peer answers, a running
    invocation always finds its own read and write set, with exactly the reads
    and writes it would have made alone in the enclave, and an invocation that
    returned has the result, and the signature over the sets, it would have had
    alone. *)
Theorem invocations_isolated ts es ts' es' i t : pool_ready ts es →
  rtc pool_step (ts, es) (ts', es') → ts' !! i = Some t →
  ∃ t0, ts !! i = Some t0 ∧ thread_ok (enclave_sk es) (shim es') t0 t.
Proof. intros Hr Hs Ht. by eapply inv_threads; [eapply pool_run_inv|]. Qed.

(** ** Uninterrupted invocations *)

Context (invoke : bytes → Z → Z → ST (shim_state W) (Z * bytes)).

Lemma run_steps i args ctx addr p ts es a sh :
  ts !! i = Some (Running args ctx addr p) → run p ctx (shim es) = Ok (a, sh) →
  rtc pool_step (ts, es) (<[i := Running args ctx addr (Done (Ok a))]> ts, set_shim sh es).
Proof.
  revert ts es. induction p as [r|key max k IH|key val k IH|key k IH]; intros ts es Hi Hr; cbn [run] in Hr.
  { destruct r; cbn in Hr; simplify_eq. rewrite list_insert_id by done. destruct es. apply rtc_refl. }
  all: unfold mbind, st_bind in Hr;
    match type of Hr with context [match ?m with _ => _ end] => destruct m as [[r s1]| |] eqn:E end; [|done..];
    eapply rtc_l; [eapply step_op; [exact Hi|by constructor]|];
    specialize (IH r (<[i := Running args ctx addr (k r)]> ts) (set_shim s1 es));
    rewrite list_insert_insert_eq in IH; apply IH; [|done];
    apply list_lookup_insert_eq; by eapply lookup_lt_Some.
Qed.

(** An invocation of a thread that is not interrupted does what
    [ecall_invoke] does. *)
Lemma pool_sequential i args pk max ctx ts es result es' :
  (∀ args max, implements (chaincode args max) (invoke args max)) →
  ts !! i = Some (Ready args pk max ctx) →
  ecall_invoke invoke args pk max ctx es = Ok (result, es') →
  rtc pool_step (ts, es) (<[i := Returned args ctx result]> ts, es').
Proof.
  intros Hcc Hi H. pose proof (lookup_lt_Some _ _ _ Hi) as Hlt.
  assert (∃ addr es1, begin_invoke ctx es = Ok (addr, es1) ∧ enclave_sk es1 = enclave_sk es ∧
    ((if bool_decide (strlen pk = 0) then in_shim (invoke (cstr args) max ctx)
      else invoke_enc invoke args pk max ctx) ≫= finish_invoke args ctx addr) es1 = Ok (result, es'))
    as (addr & es1 & Hb & Hsk & Hrest) by (eexists _, _; split; [reflexivity|split; [reflexivity|exact H]]).
  eapply rtc_l; [by eapply step_begin|]. unfold mbind, st_bind in Hrest.
  rewrite (entry_prog_ok chaincode invoke args pk max ctx es1 Hcc), Hsk in Hrest. unfold in_shim in Hrest.
  destruct (run _ ctx (shim es1)) as [[r sh]| |] eqn:E; [|done..].
  etrans.
  { eapply run_steps; [|exact E]. by apply list_lookup_insert_eq. }
  rewrite list_insert_insert_eq. eapply rtc_l; [|apply rtc_refl].
  rewrite <-(list_insert_insert_eq ts i (Returned args ctx result) (Running args ctx addr (Done (Ok r)))).
  eapply step_end; [by apply list_lookup_insert_eq|done].
Qed.
End pool.

(** ** What an invocation can write *)

Section writes.
Context {C : Crypto} {W : Type} {P : Peer W}.
Implicit Types (s : shim_state W).

(** [m] adds only writes to keys of [K], to whatever sets. *)
Definition writes_in {A} (K : bytes → Prop) (m : ST (shim_state W) A) : Prop :=
  ∀ s a s', m s = Ok (a, s') → ∀ addr rw', sets s' !! addr = Some rw' →
  ∃ rw, sets s !! addr = Some rw ∧ ∀ p, p ∈ rw'.2 → p ∈ rw.2 ∨ K p.1.

Context {K : bytes → Prop}.

Lemma writes_bind {A B} (m : ST (shim_state W) A) (f : A → ST (shim_state W) B) :
  writes_in K m → (∀ a, writes_in K (f a)) → writes_in K (m ≫= f).
Proof.
  intros Hm Hf s b s' H addr rw2 H2. unfold mbind, st_bind in H.
  destruct (m s) as [[a s1]| |] eqn:E; [|done..].
  destruct (Hf a s1 b s' H addr rw2 H2) as (rw1 & H1 & K1).
  destruct (Hm s a s1 E addr rw1 H1) as (rw & H0 & K0). exists rw. split; [done|].
  intros p Hp. destruct (K1 p Hp); [auto|by right].
Qed.

(** Code that leaves the sets alone. *)
Lemma writes_same {A} (m : ST (shim_state W) A) :
  (∀ s a s', m s = Ok (a, s') → sets s' = sets s) → writes_in K m.
Proof. intros Hm s a s' H addr rw' Hs. rewrite (Hm _ _ _ H) in Hs. exists rw'. auto. Qed.

Lemma writes_lift {A} (r : res A) : writes_in K (lift r).
Proof. apply writes_same. intros s a s' H. destruct r; by simplify_eq/=. Qed.
Lemma writes_ret {A} (a : A) : writes_in K (mret a).
Proof. apply (writes_lift (Ok a)). Qed.
Lemma writes_get : writes_in K get.
Proof. apply writes_same. by intros s a s' [= _ <-]. Qed.
Lemma writes_get_rwset ctx : writes_in K (get_rwset ctx).
Proof. apply writes_same. by intros s a s' [= _ <-]. Qed.
Lemma writes_ocall f : writes_in K (ocall f).
Proof.
  apply writes_same. intros s a s' H. unfold ocall, get, put, mret, st_ret, mbind, st_bind in H. cbn in H.
  destruct (f (world s)). by injection H as _ <-.
Qed.

Lemma writes_update p f : (∀ rw q, q ∈ (f rw).2 → q ∈ rw.2 ∨ K q.1) → writes_in K (update_sets p f).
Proof.
  intros Hf s a s' H addr rw' Hs. unfold update_sets, lift, get, modify, mbind, st_bind in H.
  destruct p as [x|]; [|done]. cbn [deref] in H. destruct (sets s !! x) as [rw|] eqn:E; [|done].
  injection H as _ <-. cbn in Hs. rewrite lookup_insert in Hs. case_decide; simplify_eq.
  - exists rw. auto.
  - exists rw'. auto.
Qed.

Lemma writes_fold {A B} (f : B → A → ST (shim_state W) B) b l :
  (∀ b a, writes_in K (f b a)) → writes_in K (st_fold f b l).
Proof.
  intros Hf. revert b. induction l as [|a l IH]; intros b; cbn [st_fold]; [apply writes_ret|].
  by apply writes_bind.
Qed.

Lemma writes_if {A} (b : bool) (m n : ST (shim_state W) A) :
  writes_in K m → writes_in K n → writes_in K (if b then m else n).
Proof. by destruct b. Qed.
End writes.

Create HintDb writes.
#[export] Hint Resolve writes_lift writes_ret writes_get writes_get_rwset writes_ocall writes_fold writes_if : writes.
#[export] Hint Extern 2 (writes_in _ (_ ≫= _)) => apply writes_bind; [|intros] : writes.
#[export] Hint Extern 2 (writes_in _ (modify _)) => apply writes_same; by intros ? ? ? [= _ <-] : writes.
#[export] Hint Extern 1 (writes_in _ (get ≫= (λ s, put (set_world _ s)))) =>
  apply writes_same; by intros ? ? ? [= _ <-] : writes.
#[export] Hint Extern 2 (writes_in _ (read_set_insert _ _)) => apply writes_update; by left : writes.
#[export] Hint Extern 1 (writes_in _ (let '(_, _) := ?x in _)) => destruct x : writes.

Lemma elem_of_map_insert {V} k (v : V) m p : p ∈ map_insert k v m → p ∈ m ∨ p = (k, v).
Proof.
  induction m as [|[k' v'] m IH]; cbn [map_insert].
  - intros Hp%list_elem_of_singleton. by right.
  - destruct (bytes_compare k k'); [by left|..]; rewrite !elem_of_cons; naive_solver.
Qed.

Section confined.
Context {C : Crypto} {W : Type} {P : Peer W}.
Context {K : bytes → Prop}.

Lemma writes_get_state key max ctx : writes_in (W := W) K (get_state key max ctx).
Proof. unfold get_state. auto 20 with writes. Qed.

Lemma writes_range key ctx : writes_in (W := W) K (get_state_by_partial_composite_key key ctx).
Proof. unfold get_state_by_partial_composite_key, range_step. auto 20 with writes. Qed.

Lemma writes_write_set p key val : K key → writes_in (W := W) K (write_set_insert p key val).
Proof. intros Hk. apply writes_update. intros rw q [?| ->]%elem_of_map_insert; auto. Qed.

Lemma writes_put_state key val ctx : K (cstr key) → writes_in (W := W) K (put_state key val ctx).
Proof.
  intros Hk. unfold put_state. cbv zeta. auto 20 using writes_write_set with writes.
Qed.

(** The program puts only keys of [K]. *)
Inductive confined {A} (K : bytes → Prop) : prog A → Prop :=
  | confined_done r : confined K (Done r)
  | confined_get key max k : (∀ r, confined K (k r)) → confined K (DoGet key max k)
  | confined_put key val k : K (cstr key) → (∀ r, confined K (k r)) → confined K (DoPut key val k)
  | confined_range key k : (∀ r, confined K (k r)) → confined K (DoRange key k).

Lemma confined_ret {A} (a : A) : confined K (mret a).
Proof. constructor. Qed.
Lemma confined_do_get key max : confined K (do_get key max).
Proof. constructor. apply confined_ret. Qed.
Lemma confined_do_put key val : K (cstr key) → confined K (do_put key val).
Proof. constructor; [done|]. apply confined_ret. Qed.
Lemma confined_do_range key : confined K (do_range key).
Proof. constructor. apply confined_ret. Qed.

Lemma confined_bind {A B} (p : prog A) (f : A → prog B) :
  confined K p → (∀ a, confined K (f a)) → confined K (p ≫= f).
Proof.
  intros Hp Hf. induction Hp as [[a|e|]|key max k _ IH|key val k Hk _ IH|key k _ IH]; cbn;
    try constructor; auto.
Qed.

Lemma confined_mono {A} (K' : bytes → Prop) (p : prog A) : (∀ k, K k → K' k) → confined K p → confined K' p.
Proof. intros HK. induction 1; constructor; auto. Qed.

Lemma confined_steps {A} ctx addr (c c' : prog A * (read_set_t * write_set_t)) :
  rtc (alone_step (W := W) ctx addr) c c' → confined K c.1 → (∀ p, p ∈ c.2.2 → K p.1) →
  ∀ p, p ∈ c'.2.2 → K p.1.
Proof.
  induction 1 as [c|c c1 c2 Hs _ IH]; [done|]. intros Hc Hw. apply IH.
  - destruct Hs as [p p' s s' rw rw' Hop]. inversion Hop; subst; inversion Hc; subst; cbn; auto.
  - destruct Hs as [p p' s s' rw rw' Hop]. cbn [fst snd] in *. intros q Hq.
    assert (∃ rw0, sets (alone ctx addr rw s) !! addr = Some rw0 ∧ (q ∈ rw0.2 ∨ K q.1)) as (rw0 & E & Hk).
    { assert (sets (alone ctx addr rw' s') !! addr = Some rw') as E' by apply lookup_singleton_eq.
      inversion Hop as [? ? ? ? ? ? Ho|? ? ? ? ? ? Ho|? ? ? ? ? Ho]; subst; inversion Hc; subst.
      - destruct (writes_get_state _ _ _ _ _ _ Ho _ _ E') as (rw0 & ? & ?); eauto.
      - destruct (writes_put_state _ _ _ ltac:(eassumption) _ _ _ Ho _ _ E') as (rw0 & ? & ?); eauto.
      - destruct (writes_range _ _ _ _ _ Ho _ _ E') as (rw0 & ? & ?); eauto. }
    unfold alone in E. cbn [sets] in E. rewrite lookup_singleton_eq in E. injection E as <-. destruct Hk; [by apply Hw|done].
Qed.
End confined.

Create HintDb confined.
#[export] Hint Resolve confined_done : confined.
#[export] Hint Extern 1 (confined _ (_ ≫= _)) => apply confined_bind; [|intros] : confined.
#[export] Hint Extern 1 (confined _ (if _ then _ else _)) => case_match : confined.
#[export] Hint Resolve confined_do_get confined_do_put confined_do_range confined_ret : confined.
#[export] Hint Extern 2 (confined _ (match ?l with [] => _ | _ :: _ => _ end)) => destruct l : confined.

(** The keys a call may write, from its arguments. *)
Definition allowed_write (argss : list bytes) (k : bytes) : Prop :=
  match argss with
  | function :: auction :: rest =>
      ((function = bs "create" ∨ function = bs "close") ∧ k = cstr auction) ∨
      (function = bs "submit" ∧ ∃ bidder, rest !! 0 = Some bidder ∧ k = cstr (bid_key auction bidder))
  | _ => False
  end.

Lemma read_at_lookup {A} (l : list A) i x : read_at l i = Ok x → l !! i = Some x.
Proof. unfold read_at. destruct (l !! i); by intros; simplify_eq. Qed.

Lemma invoke_prog_confined args max z argss : unmarshal_args [] args = Ok (z, argss) →
  confined (allowed_write argss) (invoke_prog args max).
Proof.
  intros H. unfold invoke_prog. rewrite H. cbn [mbind prog_bind snd].
  destruct (read_at argss 0) as [f| |] eqn:E0; [|constructor..].
  destruct (read_at argss 1) as [n| |] eqn:E1; [|constructor..].
  apply read_at_lookup in E0, E1. destruct argss as [|f' [|n' rest]]; cbn in E0, E1; simplify_eq.
  apply confined_bind; [|intros; constructor].
  case_bool_decide as Hf; [|case_bool_decide as Hf2; [|case_bool_decide as Hf3; [|case_bool_decide]]].
  - assert (allowed_write (f :: n :: rest) (cstr (cstr n))) by (left; rewrite cstr_cstr; auto).
    unfold create_prog. auto 20 with confined.
  - cbn [read_at]. destruct (read_at (f :: n :: rest) 2) as [b| |] eqn:E2; [|constructor..].
    apply read_at_lookup in E2. destruct (read_at (f :: n :: rest) 3) as [a| |]; [|constructor..].
    destruct (stoi a) as [v| |]; [|constructor..].
    assert (allowed_write (f :: n :: rest) (cstr (cstr (bid_key n b)))) by (right; rewrite cstr_cstr; eauto).
    unfold submit_prog. auto 20 with confined.
  - assert (allowed_write (f :: n :: rest) (cstr (cstr n))) by (left; rewrite cstr_cstr; auto).
    unfold close_prog. auto 20 with confined.
  - unfold eval_prog. auto 20 with confined.
  - constructor.
Qed.

Section concurrent_writes.
Context {C : Crypto} {PL : Platform} {W : Type} {P : Peer W}.
Implicit Types (es : enclave_state W) (ts : list thread).

(** The arguments the chaincode runs on: the clear ones, or what [invoke_enc]
    opens with the enclave's private key [sk]. *)
Definition opened_args (sk args pk : bytes) : option bytes :=
  if bool_decide (strlen pk = 0) then Some (cstr args)
  else
    match (m ← swap_halves (b64_decode (cstr pk) ++ [x00]); load m 0 64) with
    | Ok client_pk =>
        let '(sgx_ret, shared) := compute_shared_dhkey sk client_pk in
        match bytes_swap shared 0 32 with
        | Ok shared =>
            let cipher := b64_decode (cstr args) in
            Some (cstr (gcm_decrypt (take 16 (sha256 shared)) (take 12 cipher) (drop 28 cipher)
                          (take 16 (drop 12 cipher))).2)
        | _ => None
        end
    | _ => None
    end.

(** The body of an invocation runs the chaincode on these arguments or nothing
    at all. *)
Lemma entry_prog_cases chaincode sk args pk max :
  (∃ text, opened_args sk args pk = Some text ∧ entry_prog chaincode sk args pk max = chaincode text max) ∨
  ∃ r, entry_prog chaincode sk args pk max = Done r.
Proof.
  unfold opened_args, entry_prog. case_bool_decide; [left; by eexists|].
  destruct (swap_halves _) as [m| |]; cbn [mbind res_bind prog_bind]; [|right; by eexists..].
  destruct (load m 0 64) as [client_pk| |]; cbn [mbind res_bind prog_bind]; [|right; by eexists..].
  destruct (compute_shared_dhkey sk client_pk) as [st shared]. case_bool_decide; [right; by eexists|].
  destruct (bytes_swap shared 0 32) as [s| |]; cbn [mbind prog_bind]; [|right; by eexists..].
  case_bool_decide; [right; by eexists|]. destruct (gcm_decrypt _ _ _ _) as [st' plain].
  case_bool_decide; [right; by eexists|]. left. by eexists.
Qed.

(** The keys an invocation may write, clear or encrypted. *)
Definition may_write (sk args pk k : bytes) : Prop := ∃ text z argss,
  opened_args sk args pk = Some text ∧ unmarshal_args [] text = Ok (z, argss) ∧ allowed_write argss k.

Lemma entry_confined sk args pk max : confined (may_write sk args pk) (entry_prog invoke_prog sk args pk max).
Proof.
  destruct (entry_prog_cases invoke_prog sk args pk max) as [(text & Ht & ->)|[r ->]]; [|constructor].
  destruct (unmarshal_args [] text) as [[z argss]| |] eqn:Hu.
  - eapply confined_mono; [|by apply (invoke_prog_confined _ _ z argss)]. intros k Hk. by exists text, z, argss.
  - unfold invoke_prog. rewrite Hu. constructor.
  - unfold invoke_prog. rewrite Hu. constructor.
Qed.

End concurrent_writes.

(** ** A concrete run *)

Import Shim.ToyPeer.
#[local] Existing Instances Toy.toy_crypto Toy.toy_laws ToyPlatform.toy_platform.

(** [["create","A"]] and so on. *)
Definition create_args (auction : bytes) : bytes :=
  [x5b; x22] ++ bs "create" ++ [x22; x2c; x22] ++ auction ++ [x22; x5d].

Definition two_threads : list thread :=
  [Ready (create_args (bs "A")) [] 100 7; Ready (create_args (bs "B")) [] 100 8].
Definition idle_enclave : enclave_state toy_world :=
  MkEnclave (MkShim ∅ ∅ 0 [] (MkToy ∅ ∅ [])) [x01] [x02] [] 0 0.

Lemma two_ready : pool_ready two_threads idle_enclave.
Proof.
  split.
  - intros t [->|[->|[]%not_elem_of_nil]%elem_of_cons]%elem_of_cons; by eexists _, _, _, _.
  - apply (bool_decide_unpack _). vm_compute. exact I.
  - by intros c a H.
Qed.

(** Two threads: the second invocation starts, then the first runs to its end. *)
Lemma invocations_isolated_witness : ∃ (ts : list thread) es sig,
  ts !! 0 = Some (Returned (create_args (bs "A")) 7 (SGX_SUCCESS, bs "OK", sig)) ∧
  thread_ok invoke_prog [x01] (shim es) (Ready (create_args (bs "A")) [] 100 7)
    (Returned (create_args (bs "A")) 7 (SGX_SUCCESS, bs "OK", sig)).
Proof.
  assert (∃ es1 sig es, begin_invoke 8 idle_enclave = Ok (0, es1) ∧
            ecall_invoke Auction.invoke (create_args (bs "A")) [] 100 7 es1 = Ok ((SGX_SUCCESS, bs "OK", sig), es))
    as (es1 & sig & es & H1 & H2).
  { eexists _, _, _. split; [reflexivity|]. vm_compute. reflexivity. }
  exists (<[0 := Returned (create_args (bs "A")) 7 (SGX_SUCCESS, bs "OK", sig)]>
           (<[1 := Running (create_args (bs "B")) 8 0 (entry_prog invoke_prog [x01] (create_args (bs "B")) [] 100)]>
              two_threads)), es, sig.
  split; [reflexivity|].
  edestruct (invocations_isolated invoke_prog two_threads idle_enclave) as (t0 & H0 & Hok); [..|].
  - apply two_ready.
  - eapply rtc_l; [by eapply (step_begin _ _ _ 1)|].
    eapply (pool_sequential _ Auction.invoke 0); [apply invoke_prog_ok|reflexivity|exact H2].
  - apply list_lookup_insert_eq. cbn. lia.
  - injection H0 as <-. exact Hok.
Defined.

(** The first invocation, after the chaincode has returned, and the second, which
    has not started. *)
Definition begun : enclave_state toy_world :=
  match begin_invoke 7 idle_enclave with Ok (_, es) => es | _ => idle_enclave end.
Definition ran : (Z * bytes) * shim_state toy_world :=
  match run (entry_prog invoke_prog [x01] (create_args (bs "A")) [] 100) 7 (shim begun) with
  | Ok x => x
  | _ => ((1%Z, []), shim begun)
  end.

End Interleaving.
