(* ===== verification/HostLib.v ===== *)
(** * The host libraries (src/tlcc_enclave/trusted_ledger/trusted_ledger.c, src/ecc_enclave/sgxcclib/sgxcclib.c)

    The untrusted wrappers the Go peer calls. Every ECALL has two results: the
    status of the call itself (the argument [status], chosen by the runtime)
    and, when it was made, the code the enclave returned. The file
    composes the wrappers with the two enclaves: starting the ledger enclave,
    binding the chaincode enclave to it, and what the wrappers report. *)
From S2P Require Import Prelude Utils Base64 StdMap Sgx EccCrypto Shim Fabric Ledger LedgerProofs TlccEnclave.
From S2P Require Import EccEnclave.
Import Utils Sgx Shim Fabric Ledger TlccEnclave EccEnclave.

Module HostLib.

Definition SGX_ERROR_OUT_OF_MEMORY : Z := 3.

(** An ECALL: not made when [status] is an error; [enclave_ret] then keeps its
    value, [None] for an uninitialised local. *)
Definition ecall {S} (status : Z) (enclave_ret : option Z) (m : S → res (Z * S)) (s : S)
  : res (option Z * S) :=
  if bool_decide (status ≠ SGX_SUCCESS) then Ok (enclave_ret, s)
  else r ← m s; Ok (Some r.1, r.2).

(** Reading a local that may be uninitialised. *)
Definition read_local (v : option Z) : res Z := match v with Some z => Ok z | None => UB Uninitialised end.

(** An [out] report the enclave did not write is zero. *)
Definition zero_report : sgx_report_t :=
  MkReport (repeat x00 32) (repeat x00 16) (repeat x00 4) (repeat x00 64) (repeat x00 16).

(** ** trusted_ledger.c *)

Section tlcc.
Context {C : Crypto} {O : OpenSSL} {F : FabricPb} {PL : Platform}.

(** The ledger enclave: the identity of common.cpp and the ledger. *)
Record tlcc_state := MkTlcc { identity : enclave_state unit; ledger : ledger_state }.

Definition on_identity (m : enclave_state unit → res (Z * enclave_state unit)) (s : tlcc_state)
  : res (Z * tlcc_state) :=
  r ← m (identity s); Ok (r.1, MkTlcc r.2 (ledger s)).
Definition on_ledger (m : ledger_state → res (Z * ledger_state)) (s : tlcc_state) : res (Z * tlcc_state) :=
  r ← m (ledger s); Ok (r.1, MkTlcc (identity s) r.2).

(** [access] and [sgx_create_enclave]. *)
Definition tlcc_create_enclave (exists_file : bool) (status : Z) : Z :=
  if negb exists_file then (-1)
  else if bool_decide (status ≠ SGX_SUCCESS) then (-1) else 0.

(** [status] is the result of [sgx_destroy_enclave]. *)
Definition tlcc_destroy_enclave (status : Z) : Z :=
  if bool_decide (status ≠ SGX_SUCCESS) then status else SGX_SUCCESS.

(** [calc] is what [sgx_calc_quote_size] stores, nothing on an error. *)
Definition tlcc_get_quote_size (calc : option Z) : Z := default 0%Z calc.

Definition tlcc_init_with_genesis (status1 status2 : Z) (genesis : bytes) (s : tlcc_state)
  : res (Z * tlcc_state) :=
  r ← ecall status1 (Some (-1)%Z) (on_identity ecall_init) s;
  enclave_ret ← read_local r.1;
  if bool_decide (status1 ≠ SGX_SUCCESS) || bool_decide (enclave_ret ≠ SGX_SUCCESS) then Ok ((-1)%Z, r.2)
  else
    r ← ecall status2 (Some enclave_ret) (on_ledger (ecall_join_channel genesis)) r.2;
    enclave_ret ← read_local r.1;
    if bool_decide (status2 ≠ SGX_SUCCESS) || bool_decide (enclave_ret ≠ SGX_SUCCESS) then Ok ((-1)%Z, r.2)
    else Ok (enclave_ret, r.2).

(** On an error of the enclave, the status of the call is returned. *)
Definition tlcc_send_block (status : Z) (block : bytes) (s : tlcc_state) : res (Z * tlcc_state) :=
  r ← ecall status (Some (-1)%Z) (on_ledger (ecall_next_block block)) s;
  enclave_ret ← read_local r.1;
  if bool_decide (status ≠ SGX_SUCCESS) || bool_decide (enclave_ret ≠ SGX_SUCCESS) then Ok (status, r.2)
  else Ok (enclave_ret, r.2).

(** The code and, when the call was made, the key. *)
Definition tlcc_get_pk (status : Z) (s : tlcc_state) : res (Z * option bytes) :=
  if bool_decide (status ≠ SGX_SUCCESS) then Ok (status, None)
  else r ← ecall_get_pk (identity s); Ok (r.1, Some r.2).

(** The code, the report and the key; the code of the enclave is not looked at. *)
Definition tlcc_get_local_attestation_report (status : Z) (target : sgx_target_info_t) (s : tlcc_state)
  : res (Z * option sgx_report_t * option bytes) :=
  if bool_decide (status ≠ SGX_SUCCESS) then Ok (status, None, None)
  else
    r ← ecall_create_report target (identity s);
    let '(_, report, pk) := r in Ok (status, Some (default zero_report report), Some pk).

Definition tlcc_get_target_info (status : Z) (target : option sgx_target_info_t) : Z * option sgx_target_info_t :=
  if bool_decide (status ≠ SGX_SUCCESS) then (status, target)
  else (status, (ecall_get_target_info target).2).

(** The code and the tag. *)
Definition tlcc_metadata (status : Z) (query : LM (Z * bytes)) (s : tlcc_state)
  : res (Z * option bytes * tlcc_state) :=
  if bool_decide (status ≠ SGX_SUCCESS) then Ok (status, None, s)
  else
    match query (ledger s) with
    | Ok (inr r, l) => Ok (SGX_SUCCESS, Some r.2, MkTlcc (identity s) l)
    | Ok (inl _, l) => Ok (SGX_SUCCESS, None, MkTlcc (identity s) l)
    | UB e => UB e
    | NoFuel => NoFuel
    end.
Definition tlcc_get_state_metadata (status : Z) (key : bytes) :=
  tlcc_metadata status (ecall_get_state_metadata key).
Definition tlcc_get_multi_state_metadata (status : Z) (comp_key : bytes) :=
  tlcc_metadata status (ecall_get_multi_state_metadata comp_key).

(** The state is only printed; the code of the enclave is not looked at. *)
Definition tlcc_print_state (status : Z) (s : tlcc_state) : res (Z * tlcc_state) :=
  r ← ecall status (Some (-1)%Z) (on_ledger (λ l, Ok (ecall_print_state, l))) s;
  if bool_decide (status ≠ SGX_SUCCESS) then Ok (status, r.2) else Ok (SGX_SUCCESS, r.2).
End tlcc.

(** ** sgxcclib.c *)

Section sgxcc.
Context {C : Crypto} {PL : Platform} {W : Type} {P : Peer W}.
Context (invoke : bytes → Z → Z → ST (shim_state W) (Z * bytes)).

(** On an error of [ecall_init], the status of the call is returned. *)
Definition sgxcc_create_enclave (exists_file : bool) (status1 status2 : Z) (s : enclave_state W)
  : res (Z * enclave_state W) :=
  if negb exists_file then Ok ((-1)%Z, s)
  else if bool_decide (status1 ≠ SGX_SUCCESS) then Ok (status1, s)
  else
    r ← ecall status2 (Some (-1)%Z) ecall_init s;
    enclave_ret ← read_local r.1;
    if bool_decide (status2 ≠ SGX_SUCCESS) || bool_decide (enclave_ret ≠ SGX_SUCCESS) then Ok (status2, r.2)
    else Ok (SGX_SUCCESS, r.2).

Definition sgxcc_destroy_enclave (status : Z) : Z :=
  if bool_decide (status ≠ SGX_SUCCESS) then status else SGX_SUCCESS.

Definition sgxcc_get_quote_size (calc : option Z) : Z := default 0%Z calc.

Definition sgxcc_get_target_info (status : Z) (target : option sgx_target_info_t) : Z * option sgx_target_info_t :=
  if bool_decide (status ≠ SGX_SUCCESS) then (status, target)
  else (status, (ecall_get_target_info target).2).

Definition sgxcc_get_local_attestation_report (status : Z) (target : sgx_target_info_t) (s : enclave_state W)
  : res (Z * option sgx_report_t * option bytes) :=
  if bool_decide (status ≠ SGX_SUCCESS) then Ok (status, None, None)
  else
    r ← ecall_create_report target s;
    let '(_, report, pk) := r in Ok (status, Some (default zero_report report), Some pk).

(** [enclave_ret] is not initialised and returned whatever the status. *)
Definition sgxcc_bind (status : Z) (report : option sgx_report_t) (pubkey : option bytes)
  (s : enclave_state W) : res (Z * enclave_state W) :=
  r ← ecall status None (ecall_bind_tlcc report pubkey) s;
  enclave_ret ← read_local r.1;
  Ok (enclave_ret, r.2).

Definition sgxcc_get_pk (status : Z) (s : enclave_state W) : res (Z * option bytes) :=
  if bool_decide (status ≠ SGX_SUCCESS) then Ok (status, None)
  else r ← ecall_get_pk s; Ok (r.1, Some r.2).

(** The quote is what [sgx_get_quote] returns for the report: status and quote. *)
Definition sgxcc_get_remote_attestation_report (init_quote : Z * sgx_target_info_t) (status : Z)
  (calc : option Z) (quote_size : Z) (get_quote : sgx_report_t → Z * bytes) (s : enclave_state W)
  : res (Z * option bytes * option bytes) :=
  let '(ret, qe_target_info) := init_quote in
  if bool_decide (ret ≠ SGX_SUCCESS) then Ok (ret, None, None)
  else if bool_decide (status ≠ SGX_SUCCESS) then Ok (status, None, None)
  else
    r ← ecall_create_report qe_target_info s;
    let '(_, report, pk) := r in
    if bool_decide (quote_size < u32 (sgxcc_get_quote_size calc))%Z then Ok (SGX_ERROR_OUT_OF_MEMORY, None, Some pk)
    else
      let '(ret, quote) := get_quote (default zero_report report) in Ok (ret, Some quote, Some pk).

(** The code, the response and the signature. *)
Definition sgxcc_invoke (status : Z) (args pk : bytes) (response_len_in ctx : Z) (s : enclave_state W)
  : res (Z * bytes * bytes * enclave_state W) :=
  if bool_decide (status ≠ SGX_SUCCESS) then Ok (status, [], [], s)
  else
    r ← ecall_invoke invoke args pk response_len_in ctx s;
    let '(ret, response, sig, s') := r in Ok (ret, response, sig, s').
End sgxcc.

(** ** What the wrappers report *)

Section tlcc_laws.
Context {C : Crypto} {O : OpenSSL} {F : FabricPb} {PL : Platform}.

(** [tlcc_send_block] hides that the ledger enclave refused a block: when the
    call is made it returns [SGX_SUCCESS] whatever code [parse_block] returned,
    so the peer does not learn that the block was not applied. *)
Theorem send_block_hides_refusal block (s : tlcc_state) z l :
  parse_block block (ledger s) = Ok (z, l) →
  tlcc_send_block SGX_SUCCESS block s = Ok (SGX_SUCCESS, MkTlcc (identity s) l).
Proof.
  intros H. unfold tlcc_send_block, ecall, on_ledger, ecall_next_block.
  rewrite (bool_decide_false (SGX_SUCCESS ≠ SGX_SUCCESS)) by (intros Hn; by apply Hn). rewrite H. cbn [mbind res_bind fst snd orb].
  cbn [read_local mbind res_bind]. case_bool_decide as Hz; [done|]. by rewrite Hz.
Qed.

(** A successful start: both calls were made and succeeded. *)
Lemma init_with_genesis_inv genesis (s s' : tlcc_state) status1 status2 :
  tlcc_init_with_genesis status1 status2 genesis s = Ok (SGX_SUCCESS, s') →
  status1 = SGX_SUCCESS ∧ status2 = SGX_SUCCESS ∧
  ∃ id', ecall_init (identity s) = Ok (SGX_SUCCESS, id') ∧
  ∃ l', ecall_join_channel genesis (ledger s) = Ok (SGX_SUCCESS, l') ∧ s' = MkTlcc id' l'.
Proof.
  intros H. unfold tlcc_init_with_genesis in H. res_inv H. destruct r as [ret1 s1]. cbn [fst snd] in H.
  res_inv H. rename r into ret1'. case_match eqn:E1; [done|].
  rewrite orb_false_iff, !bool_decide_eq_false in E1. destruct E1 as [E1%dec_stable ->%dec_stable]. subst status1.
  res_inv H. destruct r as [ret2 s2]. cbn [fst snd] in H. res_inv H. rename r into ret2'.
  case_match eqn:E2; [done|]. injection H as -> ->.
  rewrite orb_false_iff, !bool_decide_eq_false in E2. destruct E2 as [E2%dec_stable _]. subst status2.
  unfold ecall in *. rewrite (bool_decide_false (SGX_SUCCESS ≠ SGX_SUCCESS)) in * by (intros Hn; by apply Hn).
  res_inv Hr. destruct r as [z1 t1]. unfold on_identity in Hr3. res_inv Hr3. destruct r as [z1' id'].
  res_inv Hr1. destruct r as [z2 t2]. unfold on_ledger in Hr5. res_inv Hr5. destruct r as [z2' l'].
  cbn [read_local fst snd] in *. simplify_eq. injection Hr0 as ->. injection Hr2 as ->. split_and!; [done..|]. exists id'. split; [done|].
  exists l'. done.
Qed.

(** The first block of a ledger that has seen none. *)
Lemma join_accepted genesis l l' : lock l = false → sequence_number l = u32 (-1) →
  parse_block genesis l = Ok (LEDGER_SUCCESS, l') →
  sequence_number l' = 0%Z ∧ lock l' = false ∧
  ∃ block, decode_Block genesis = Some block ∧ u32 (number (header block)) = 0%Z.
Proof.
  intros Hl Hseq Hp. pose proof (LedgerProofs.parse_block_wp genesis l Hl) as H.
  unfold parse_block, code, LedgerProofs.wp in *.
  destruct (parse_block_body genesis l) as [[[z|z] l1]| |]; try done; simplify_eq;
    destruct H as (Hlk & Hz & H).
  { by destruct Hz. }
  destruct H as (Hs & _ & _ & block & Hd & Hn & _). rewrite Hseq in Hs.
  split_and!; [by rewrite Hs|done|]. exists block. split; [done|]. rewrite <-Hn. by rewrite Hs.
Qed.

(** Starting the ledger enclave. When [tlcc_init_with_genesis] returns
    success on a ledger that has not seen a block, the block it was given
    decodes, has number 0 (modulo 2^32), the ledger is at sequence number 0
    with its lock free, and the enclave has a new key pair. *)
Theorem genesis_joined genesis (s s' : tlcc_state) status1 status2 :
  lock (ledger s) = false → sequence_number (ledger s) = u32 (-1) →
  tlcc_init_with_genesis status1 status2 genesis s = Ok (SGX_SUCCESS, s') →
  sequence_number (ledger s') = 0%Z ∧ lock (ledger s') = false ∧
  (∃ block, decode_Block genesis = Some block ∧ u32 (number (header block)) = 0%Z) ∧
  (enclave_sk (identity s'), enclave_pk (identity s')) = (create_key_pair (key_count (identity s))).2.
Proof.
  intros Hl Hseq H. apply init_with_genesis_inv in H as (_ & _ & id' & Hinit & l' & Hjoin & ->).
  unfold ecall_init in Hinit. case_bool_decide; [by simplify_eq|].
  destruct (create_key_pair _) as [st [sk pk]] eqn:Ek. simplify_eq. cbn [enclave_sk enclave_pk identity ledger snd].
  unfold ecall_join_channel in Hjoin. res_inv Hjoin. destruct r as [z l1].
  assert (z = SGX_SUCCESS ∧ l1 = l') as [-> ->] by (case_bool_decide as Hz; by simplify_eq).
  destruct (join_accepted genesis (init_ledger (ledger s)).2 l') as (H1 & H2 & H3); [..|done|].
  - unfold init_ledger. by repeat case_match.
  - unfold init_ledger. by repeat case_match.
  - split_and!; done.
Qed.
End tlcc_laws.

Section binding.
Context {C : Crypto} {L : CryptoLaws C} {PL : Platform} {PLL : PlatformLaws PL} {O : OpenSSL} {W : Type}.

(** Local attestation between the two enclaves, through the host. When the
    platform creates reports for the chaincode enclave's target info that
    verify there, the report and key the host gets from the ledger enclave bind
    it: [sgxcc_bind] succeeds, and the chaincode enclave holds the key that
    [tlcc_get_pk] returns. *)
Theorem local_attestation_binds (tlcc : @tlcc_state O) (ecc : enclave_state W) target :
  length (enclave_pk (identity tlcc)) = 64 →
  (∀ d, (create_report (Some target) (Some d)).1 = SGX_SUCCESS ∧
        verify_report (create_report (Some target) (Some d)).2 = SGX_SUCCESS) →
  ∃ report pk,
    tlcc_get_local_attestation_report SGX_SUCCESS target tlcc = Ok (SGX_SUCCESS, Some report, Some pk) ∧
    tlcc_get_pk SGX_SUCCESS tlcc = Ok (SGX_SUCCESS, Some pk) ∧
    ∃ ecc', sgxcc_bind SGX_SUCCESS (Some report) (Some pk) ecc = Ok (SGX_SUCCESS, ecc') ∧ tlcc_pk ecc' = pk.
Proof.
  intros Hl Hp. destruct (swap_halves_ok _ Hl) as (pk & Esw & Hpk & _).
  destruct (Hp (sha256 pk ++ repeat x00 32)) as [Hc Hv].
  pose proof (report_carries_data (Some target) (sha256 pk ++ repeat x00 32)) as Hd.
  destruct (create_report _ _) as [ret report] eqn:Er. cbn [fst snd] in *. subst ret.
  assert (ecall_create_report target (identity tlcc) = Ok (SGX_SUCCESS, Some report, pk)) as Ecr.
  { unfold ecall_create_report. rewrite load_all by done. cbn [mbind res_bind]. rewrite Esw.
    cbn [mbind res_bind]. by rewrite Er. }
  exists report, pk. unfold tlcc_get_local_attestation_report, tlcc_get_pk, sgxcc_bind, ecall.
  rewrite !(bool_decide_false (SGX_SUCCESS ≠ SGX_SUCCESS)) by (intros Hn; by apply Hn).
  rewrite Ecr. split; [done|]. split.
  { unfold ecall_get_pk. rewrite load_all by done. cbn [mbind res_bind]. by rewrite Esw. }
  unfold ecall_bind_tlcc. rewrite load_all by done. apply create_report_inv in Ecr as (_ & Ht & _).
  rewrite Ht, (bool_decide_false (sha256 pk ≠ sha256 pk)) by (intros Hn; by apply Hn).
  rewrite bool_decide_false by (intros Hn; by apply Hn). by eexists.
Qed.

(** Two defects of the wrappers. [sgxcc_bind] returns an uninitialised
    variable when the call cannot be made, and [sgxcc_create_enclave] reports
    success for an enclave whose [ecall_init] failed. *)
Theorem wrapper_defects status report pk (s s' : enclave_state W) z : status ≠ SGX_SUCCESS →
  ecall_init s = Ok (z, s') → z ≠ SGX_SUCCESS →
  sgxcc_bind status report pk s = UB Uninitialised ∧
  sgxcc_create_enclave true SGX_SUCCESS SGX_SUCCESS s = Ok (SGX_SUCCESS, s').
Proof.
  intros Hs Hi Hz. unfold sgxcc_bind, sgxcc_create_enclave, ecall. split.
  - by rewrite (bool_decide_true (status ≠ SGX_SUCCESS)).
  - rewrite (bool_decide_false (SGX_SUCCESS ≠ SGX_SUCCESS)) by (intros Hn; by apply Hn).
    rewrite Hi. cbn [mbind res_bind fst snd read_local negb orb]. by case_bool_decide.
Qed.
End binding.

(** ** Concrete runs *)

#[local] Existing Instances Toy.toy_crypto Toy.toy_laws ToyPlatform.toy_platform ToyPlatform.toy_platform_laws
  ToyFabric.toy_openssl ToyFabric.toy_fabric.

Definition fresh_tlcc : tlcc_state := MkTlcc (loaded tt) initial.

(** A block with the wrong number. *)
Lemma send_block_hides_refusal_witness :
  parse_block (bs "block1") initial = Ok (LEDGER_INVALID_BLOCK_NUMBER, initial) ∧
  tlcc_send_block SGX_SUCCESS (bs "block1") fresh_tlcc = Ok (SGX_SUCCESS, fresh_tlcc).
Proof.
  split; [reflexivity|].
  apply (send_block_hides_refusal (bs "block1") fresh_tlcc LEDGER_INVALID_BLOCK_NUMBER initial). reflexivity.
Defined.

Definition started_tlcc : tlcc_state := MkTlcc (initialised tt) LedgerProofs.at_genesis.

Lemma genesis_joined_witness : sequence_number (ledger started_tlcc) = 0%Z ∧ lock (ledger started_tlcc) = false.
Proof.
  destruct (genesis_joined (bs "genesis") fresh_tlcc started_tlcc SGX_SUCCESS SGX_SUCCESS) as (H1 & H2 & _);
    [reflexivity..|]. split; [exact H1|exact H2].
Defined.

Lemma local_attestation_binds_witness : ∃ report pk,
  tlcc_get_local_attestation_report SGX_SUCCESS (MkTarget [] [] []) started_tlcc
    = Ok (SGX_SUCCESS, Some report, Some pk) ∧
  tlcc_get_pk SGX_SUCCESS started_tlcc = Ok (SGX_SUCCESS, Some pk) ∧
  ∃ ecc', sgxcc_bind SGX_SUCCESS (Some report) (Some pk) (loaded tt) = Ok (SGX_SUCCESS, ecc') ∧ tlcc_pk ecc' = pk.
Proof.
  apply local_attestation_binds; [vm_compute; reflexivity|]. intros d. split; [reflexivity|].
  cbn. by rewrite bool_decide_true.
Defined.

(** A platform out of resources. *)
Definition failing_platform : Platform := {|
  open_context _ := SGX_ERROR_OUT_OF_MEMORY;
  create_key_pair n := (SGX_ERROR_OUT_OF_MEMORY, ([], []));
  compute_shared_dhkey sk pk := (SGX_ERROR_OUT_OF_MEMORY, []);
  ecdsa_sign d sk := (SGX_ERROR_OUT_OF_MEMORY, []);
  verify_report r := SGX_ERROR_OUT_OF_MEMORY;
  create_report t d := (SGX_ERROR_OUT_OF_MEMORY, zero_report) |}.

Lemma wrapper_defects_witness :
  sgxcc_bind 1 None None (loaded tt) = UB Uninitialised ∧
  sgxcc_create_enclave (PL := failing_platform) true SGX_SUCCESS SGX_SUCCESS (loaded tt)
    = Ok (SGX_SUCCESS, loaded tt).
Proof.
  apply (wrapper_defects (PL := failing_platform) 1 None None (loaded tt) (loaded tt) SGX_ERROR_OUT_OF_MEMORY);
    [discriminate|reflexivity|discriminate].
Defined.
End HostLib.
