(* ===== verification/Ias.v ===== *)
(** * Attestation reports (src/tlcc_enclave/enclave/ias.cpp)

    Verification of the report of the Intel attestation service that
    accompanies a registered chaincode enclave: the signature over the report
    body, the hash of the enclave's public key and the measurement in the
    quote. OpenSSL's RSA verification, the decoding of EC keys and the layout of
    the SDK's [sgx_quote_t] are the class [IasCrypto]. The only call of the
    function is commented out in ledger.cpp. The checks are here; the function
    with the memory of its JSON value is in [IasHeap]. *)
From S2P Require Import Prelude Utils Base64 Parson ParsonParse StdMap Sgx Fabric EccEnclave.
Import Utils Base64 Parson ParsonParse StdMap Sgx Fabric EccEnclave.

Module Ias.

Definition IAS_SUCCESS : Z := 0.
Definition IAS_ERROR : Z := -1.

(** [memcmp] of two blocks of the same size, as -1, 0 or 1. *)
Definition memcmp (a b : bytes) : Z :=
  match bytes_compare a b with Eq => 0 | Lt => -1 | Gt => 1 end.

(** [BN_bn2bin] of a number that is not negative: big endian, without leading
    zeros, [BN_num_bytes] bytes. *)
Fixpoint bn_bytes (fuel : nat) (n : Z) : bytes :=
  match fuel with
  | O => []
  | S f => if bool_decide (n <= 0)%Z then [] else bn_bytes f (n / 256) ++ [z2b n]
  end.
Definition BN_bn2bin (n : Z) : bytes := bn_bytes (S (Z.to_nat (Z.log2 n))) n.

Class IasCrypto := {
  (** The offsets of [report_body.mr_enclave] and [report_body.report_data] in
      an [sgx_quote_t]. *)
  mr_enclave_offset : nat;
  report_data_offset : nat;
  (** [PEM_read_bio_PUBKEY] of the built-in Intel key succeeds. *)
  intel_key_parses : bool;
  (** [RSA_verify] with the Intel key: digest and signature. *)
  RSA_verify : bytes → bytes → Z;
  (** The affine coordinates of the key [d2i_EC_PUBKEY] decodes. *)
  d2i_EC_PUBKEY : bytes → option (Z * Z) }.

Section ias.
Context {O : OpenSSL} {I : IasCrypto}.

Definition quote_from_attestation_report_body (report_body : bytes) : res bytes :=
  root ← json_parse_string (Some report_body);
  base64_quote ← deref (json_object_get_string (json_value_get_object root) (bs "isvEnclaveQuoteBody"));
  Ok (b64_decode (cstr base64_quote)).

Definition verify_mrenclave_in_quote (quote mrenclave : option bytes) : res Z :=
  match quote, mrenclave with
  | Some q, Some m =>
      a ← load q mr_enclave_offset 32;
      b ← load m 0 32;
      Ok (memcmp a b)
  | _, _ => Ok (-1)%Z
  end.

Definition verify_enclave_pk_in_quote (quote enclave_pk_der : option bytes) : res Z :=
  match quote, enclave_pk_der with
  | Some q, Some der =>
      match d2i_EC_PUBKEY der with
      | None => Ok (-1)%Z
      | Some (x, y) =>
          let pk_hash := SHA256 (BN_bn2bin x ++ BN_bn2bin y) in
          d ← load q report_data_offset 32;
          Ok (memcmp d pk_hash)
      end
  | _, _ => Ok (-1)%Z
  end.

(** The checks, if the strings of the JSON value were read before it is freed. *)
Definition intact_checks (json : bytes) (mrenclave : option bytes) : res Z :=
  if negb intel_key_parses then Ok IAS_ERROR
  else
    root ← json_parse_string (Some json);
    match root with
    | None => Ok IAS_ERROR
    | Some _ =>
        let o := json_value_get_object root in
        let base64_enclave_pk := json_object_get_string o (bs "EnclavePk") in
        let base64_signature := json_object_get_string o (bs "IASReport-Signature") in
        let base64_report_body := json_object_get_string o (bs "IASResponseBody") in
        sig ← deref base64_signature;
        let signature := b64_decode (cstr sig) in
        body ← deref base64_report_body;
        let report_body := b64_decode (cstr body) in
        let ret := RSA_verify (SHA256 report_body) signature in
        if bool_decide (ret = 0 ∨ ret = -1)%Z then Ok IAS_ERROR
        else
          quote ← quote_from_attestation_report_body report_body;
          pk ← deref base64_enclave_pk;
          let enclave_pk := b64_decode (cstr pk) in
          r ← verify_enclave_pk_in_quote (Some quote) (Some enclave_pk);
          if bool_decide (r ≠ 0)%Z then Ok IAS_ERROR
          else
            r ← verify_mrenclave_in_quote (Some quote) mrenclave;
            if bool_decide (r ≠ 0)%Z then Ok IAS_ERROR else Ok IAS_SUCCESS
    end.
End ias.

(** ** Big-endian numbers *)

Definition be_value (b : bytes) : Z := fold_left (λ acc c, acc * 256 + b2z c)%Z b 0%Z.

Fixpoint strip_leading (b : bytes) : bytes :=
  match b with
  | x00 :: b' => strip_leading b'
  | _ => b
  end.

Lemma be_value_snoc b c : be_value (b ++ [c]) = (be_value b * 256 + b2z c)%Z.
Proof. unfold be_value. by rewrite fold_left_app. Qed.

Lemma be_value_nonneg b : (0 <= be_value b)%Z.
Proof.
  induction b as [|c b IH] using rev_ind; [done|]. rewrite be_value_snoc. pose proof (b2z_range c). lia.
Qed.

Lemma be_value_strip b : be_value (strip_leading b) = be_value b.
Proof. induction b as [|c b IH]; [done|]. cbn [strip_leading]. destruct c; done. Qed.

(** No leading zero. *)
Definition significant (b : bytes) : Prop := match b with c :: _ => c ≠ x00 | [] => True end.

Lemma strip_significant b : significant (strip_leading b).
Proof. induction b as [|c b IH]; [done|]. cbn [strip_leading]. by destruct c. Qed.

Lemma strip_id b : significant b → strip_leading b = b.
Proof. destruct b as [|c b]; [done|]. cbn. by destruct c. Qed.

Lemma strip_shorter b : ¬ significant b → length (strip_leading b) < length b.
Proof.
  assert (∀ b, length (strip_leading b) <= length b) as Hle.
  { intros b'. induction b' as [|c b' IH]; [done|]. cbn [strip_leading length]. destruct c; cbn [length]; lia. }
  destruct b as [|c b]; [by intros []|]. cbn [significant]. intros Hc.
  assert (c = x00) as -> by (by destruct (decide (c = x00))). cbn [strip_leading length]. specialize (Hle b). lia.
Qed.

Lemma strip_length b : length (strip_leading b) <= length b.
Proof. induction b as [|c b IH]; [done|]. cbn [strip_leading length]. destruct c; cbn [length]; lia. Qed.

Lemma be_value_lower b : significant b → (256 ^ (Z.of_nat (length b)) <= 256 * be_value b)%Z ∨ b = [].
Proof.
  induction b as [|c b IH] using rev_ind; intros Hs; [by right|]. left. rewrite be_value_snoc, length_app.
  cbn [length]. rewrite Nat2Z.inj_add. change (Z.of_nat 1) with 1%Z. rewrite Z.pow_add_r by lia.
  pose proof (b2z_range c). destruct b as [|d b].
  { cbn in *. assert (b2z c ≠ 0)%Z by (intros E; apply Hs; apply b2z_inj; by rewrite E). lia. }
  destruct IH as [IH|?]; [exact Hs| |done]. lia.
Qed.

Lemma bn_bytes_value b : significant b → ∀ fuel, length b <= fuel → bn_bytes fuel (be_value b) = b.
Proof.
  induction b as [|c b IH] using rev_ind; intros Hs fuel Hf; [by destruct fuel|].
  rewrite length_app in Hf. cbn in Hf. destruct fuel as [|fuel]; [lia|]. cbn [bn_bytes].
  pose proof (be_value_lower (b ++ [c]) Hs) as [Hl|Hnil]; [|by destruct b].
  assert (0 < 256 ^ Z.of_nat (length (b ++ [c])))%Z by (apply Z.pow_pos_nonneg; lia).
  rewrite bool_decide_false by lia. rewrite be_value_snoc. pose proof (b2z_range c).
  replace ((be_value b * 256 + b2z c) / 256)%Z with (be_value b) by (Z.div_mod_to_equations; lia).
  rewrite IH; [|by destruct b|lia]. f_equal. f_equal. apply z2b_eq. Z.div_mod_to_equations; lia.
Qed.

Lemma BN_bn2bin_value b : BN_bn2bin (be_value b) = strip_leading b.
Proof.
  rewrite <-be_value_strip. set (t := strip_leading b). assert (significant t) as Hs by apply strip_significant.
  unfold BN_bn2bin. apply bn_bytes_value; [done|].
  destruct (be_value_lower t Hs) as [Hl|E]; [|rewrite E; cbn; lia].
  destruct (decide (length t <= 1)) as [?|Hlen]; [lia|].
  assert (2 ^ (Z.of_nat (length t) - 1) <= be_value t)%Z as Hv.
  { replace (256 ^ Z.of_nat (length t))%Z with (256 * 256 ^ (Z.of_nat (length t) - 1))%Z in Hl
      by (rewrite <-Z.pow_succ_r by lia; f_equal; lia).
    assert (2 ^ (Z.of_nat (length t) - 1) <= 256 ^ (Z.of_nat (length t) - 1))%Z by (apply Z.pow_le_mono_l; lia). lia. }
  apply Z.log2_le_pow2 in Hv; [lia|]. assert (0 < 2 ^ (Z.of_nat (length t) - 1))%Z by (apply Z.pow_pos_nonneg; lia). lia.
Qed.

(** ** What the verification guarantees *)

Lemma memcmp_zero a b : memcmp a b = 0%Z ↔ a = b.
Proof.
  unfold memcmp. rewrite <-bytes_compare_eq. by destruct (bytes_compare a b).
Qed.

Section laws.
Context {O : OpenSSL} {I : IasCrypto}.

(** What the checks would guarantee if the freed strings were still intact:
    a report is accepted only with a signature of the attestation service over
    its body, when the quote in the body has the expected measurement and its
    report data starts with the hash of the registered key's coordinates. *)
Theorem attestation_sound json mrenclave : intact_checks json mrenclave = Ok IAS_SUCCESS →
  ∃ v sig body key quote x y m,
    json_parse_string (Some json) = Ok (Some v) ∧
    json_object_get_string (json_value_get_object (Some v)) (bs "IASReport-Signature") = Some sig ∧
    json_object_get_string (json_value_get_object (Some v)) (bs "IASResponseBody") = Some body ∧
    json_object_get_string (json_value_get_object (Some v)) (bs "EnclavePk") = Some key ∧
    (RSA_verify (SHA256 (b64_decode (cstr body))) (b64_decode (cstr sig)) ≠ 0)%Z ∧
    (RSA_verify (SHA256 (b64_decode (cstr body))) (b64_decode (cstr sig)) ≠ -1)%Z ∧
    quote_from_attestation_report_body (b64_decode (cstr body)) = Ok quote ∧
    d2i_EC_PUBKEY (b64_decode (cstr key)) = Some (x, y) ∧
    load quote report_data_offset 32 = Ok (SHA256 (BN_bn2bin x ++ BN_bn2bin y)) ∧
    mrenclave = Some m ∧ load quote mr_enclave_offset 32 = load m 0 32.
Proof.
  unfold intact_checks. intros H. case_match; [done|]. res_inv H. destruct r as [v|]; [|done].
  res_inv H. rename r into sig. res_inv H. rename r into body. case_bool_decide as Hrsa; [done|].
  res_inv H. rename r into quote. res_inv H. rename r into key. res_inv H. rename r into rk.
  case_bool_decide as Hrk; [done|]. res_inv H. rename r into rm. case_bool_decide as Hrm; [done|].
  subst rk rm.
  destruct (json_object_get_string _ (bs "IASReport-Signature")) as [?|] eqn:E1; [|done].
  destruct (json_object_get_string _ (bs "IASResponseBody")) as [?|] eqn:E2; [|done].
  destruct (json_object_get_string _ (bs "EnclavePk")) as [?|] eqn:E3; [|done]. cbn in *. simplify_eq.
  unfold verify_enclave_pk_in_quote in *.
  destruct (d2i_EC_PUBKEY _) as [[x y]|] eqn:E4; [|done].
  unfold verify_mrenclave_in_quote in *. destruct mrenclave as [m|]; [|done].
  match goal with H : (d ← load quote report_data_offset 32; _) = Ok 0%Z |- _ => res_inv H; injection H as H end.
  match goal with H : (a ← load quote mr_enclave_offset 32; _) = Ok 0%Z |- _ => res_inv H; res_inv H; injection H as H end.
  rewrite memcmp_zero in *. subst. eexists v, sig, body, key, quote, x, y, m. split_and!; try done.
  - intros E. apply Hrsa. auto.
  - intros E. apply Hrsa. auto.
  - congruence.
Qed.

Lemma verify_enclave_pk_eq xb yb der quote : d2i_EC_PUBKEY der = Some (be_value xb, be_value yb) →
  load quote report_data_offset 32 = Ok (SHA256 (xb ++ yb)) →
  verify_enclave_pk_in_quote (Some quote) (Some der) =
  Ok (memcmp (SHA256 (xb ++ yb)) (SHA256 (strip_leading xb ++ strip_leading yb))).
Proof.
  intros Hd Hl. unfold verify_enclave_pk_in_quote. rewrite Hd, Hl, !BN_bn2bin_value. done.
Qed.

(** The key check is incomplete. An enclave puts the hash of the 64 bytes of
    its key (two 32-byte coordinates) in its report; the check hashes the
    coordinates without leading zeros. A key whose coordinates have none is
    accepted; any other is rejected, unless the two different messages collide. *)
Theorem enclave_pk_check xb yb der quote : length xb = 32 → length yb = 32 →
  d2i_EC_PUBKEY der = Some (be_value xb, be_value yb) →
  load quote report_data_offset 32 = Ok (SHA256 (xb ++ yb)) →
  (significant xb → significant yb → verify_enclave_pk_in_quote (Some quote) (Some der) = Ok 0%Z) ∧
  (¬ significant xb ∨ ¬ significant yb → verify_enclave_pk_in_quote (Some quote) (Some der) = Ok 0%Z →
   strip_leading xb ++ strip_leading yb ≠ xb ++ yb ∧
   SHA256 (strip_leading xb ++ strip_leading yb) = SHA256 (xb ++ yb)).
Proof.
  intros Hx Hy Hd Hl. rewrite (verify_enclave_pk_eq xb yb) by done. split.
  - intros Hsx Hsy. rewrite !strip_id by done. f_equal. by apply memcmp_zero.
  - intros Hs Hok. injection Hok as Hok. apply memcmp_zero in Hok. split; [|done]. intros E.
    apply (f_equal length) in E. rewrite !length_app in E.
    assert (∀ b, length (strip_leading b) <= length b) as Hle.
    { intros b. destruct b as [|c b]; [done|]. destruct (decide (c = x00)) as [->|Hc].
      - pose proof (strip_shorter (x00 :: b)) as H. cbn [significant] in H. specialize (H ltac:(auto)). lia.
      - by rewrite strip_id. }
    pose proof (Hle xb). pose proof (Hle yb).
    destruct Hs as [Hs|Hs]; apply strip_shorter in Hs; lia.
Qed.
End laws.

(** ** Concrete runs *)

#[local] Existing Instance ToyFabric.toy_openssl.

Definition toy_ias : IasCrypto := {|
  mr_enclave_offset := 32;
  report_data_offset := 0;
  intel_key_parses := true;
  RSA_verify h sig := if bool_decide (h = sig) then 1%Z else 0%Z;
  d2i_EC_PUBKEY der := if bool_decide (length der = 64)
                       then Some (be_value (take 32 der), be_value (drop 32 der)) else None |}.
#[local] Existing Instance toy_ias.

(** A key, the quote of its enclave and the report of the service. *)
Definition sample_key : bytes := repeat x07 32 ++ repeat x09 32.
Definition sample_quote : bytes := SHA256 sample_key ++ repeat x05 32.
Definition json_of (fields : list (bytes * bytes)) : bytes :=
  [x7b] ++ concat (map (λ p, [x22] ++ p.1 ++ [x22; x3a; x22] ++ b64_encode p.2 ++ [x22; x2c]) fields) ++
  [x22; x22; x3a; x30; x7d].
Definition sample_report_body : bytes := json_of [(bs "isvEnclaveQuoteBody", sample_quote)].
Definition sample_json : bytes :=
  json_of [(bs "EnclavePk", sample_key); (bs "IASReport-Signature", SHA256 sample_report_body);
           (bs "IASResponseBody", sample_report_body)].

Lemma attestation_sound_witness : ∃ quote, load quote mr_enclave_offset 32 = load (repeat x05 32) 0 32.
Proof.
  destruct (attestation_sound sample_json (Some (repeat x05 32)))
    as (v & sig & body & key & quote & x & y & m & H); [vm_compute; reflexivity|].
  destruct H as (_ & _ & _ & _ & _ & _ & _ & _ & _ & [= <-] & H). exists quote. exact H.
Defined.

Lemma enclave_pk_check_witness :
  verify_enclave_pk_in_quote (Some sample_quote) (Some sample_key) = Ok 0%Z.
Proof.
  destruct (enclave_pk_check (repeat x07 32) (repeat x09 32) sample_key sample_quote) as [H _];
    [reflexivity|reflexivity|vm_compute; reflexivity|vm_compute; reflexivity|].
  apply H; discriminate.
Defined.
End Ias.
