(* ===== verification/IasHeap.v ===== *)
(** * Attestation reports: memory (src/tlcc_enclave/enclave/ias.cpp)

    [verify_attestation_report] on the memory model of parson: the JSON value is
    parsed, pointers to its strings are taken, the value is freed, and the
    strings are decoded afterwards. The theorem derives from the laws of the
    parser and the destructor that the decoding reads freed memory. *)
From iris.bi Require Import bi.
From iris.proofmode Require Import proofmode.
From S2P Require Import Prelude Utils Base64 Cdouble ParsonText Parson ParsonParse Sgx.
From S2P Require Import HeapLogic ParsonHeap ParsonHeapProofs ParsonHeapApi ParsonHeapApiProofs Fabric Ias.
Import Base64 Cdouble ParsonText Parson Sgx HeapLogic ParsonHeap ParsonHeapProofs ParsonHeapApi ParsonHeapApiProofs Fabric Ias.

Module IasHeap.

(** ** Getters of parson.c *)

Definition json_value_get_string (value : option addr) : HM (option addr) :=
  match value with
  | None => mret None
  | Some _ => v ← load_value value; mret (match v.2 with PString s => s | _ => None end)
  end.
Definition json_object_get_string (object : option addr) (name : bytes) : HM (option addr) :=
  v ← ParsonHeapApi.json_object_get_value object name;
  json_value_get_string v.

(** ** ias.cpp *)

Section ias.
Context {O : OpenSSL} {I : IasCrypto}.

(** The memory for the quote is not checked and never freed. *)
Definition quote_from_attestation_report_body (report_body : bytes) : HM (option addr) :=
  root ← ParsonHeap.json_parse_string (Some report_body);
  o ← ParsonHeap.json_value_get_object root;
  base64_quote ← json_object_get_string o (bs "isvEnclaveQuoteBody");
  text ← load_string base64_quote;
  let quote := b64_decode (cstr text) in
  _ ← json_value_free root;
  p ← malloc (BChars (length quote) None);
  _ ← store p (BChars (length quote) (Some quote));
  mret p.

Definition verify_attestation_report (json : bytes) (mrenclave : option bytes) : HM Z :=
  if negb intel_key_parses then mret IAS_ERROR
  else
    root ← ParsonHeap.json_parse_string (Some json);
    match root with
    | None => mret IAS_ERROR
    | Some _ =>
        o ← ParsonHeap.json_value_get_object root;
        base64_enclave_pk ← json_object_get_string o (bs "EnclavePk");
        o ← ParsonHeap.json_value_get_object root;
        base64_signature ← json_object_get_string o (bs "IASReport-Signature");
        o ← ParsonHeap.json_value_get_object root;
        base64_signing_cert ← json_object_get_string o (bs "IASReport-Signing-Certificate");
        o ← ParsonHeap.json_value_get_object root;
        base64_report_body ← json_object_get_string o (bs "IASResponseBody");
        _ ← json_value_free root;
        text ← load_string base64_signature;
        let signature := b64_decode (cstr text) in
        text ← load_string base64_report_body;
        let report_body := b64_decode (cstr text) in
        let ret := RSA_verify (SHA256 report_body) signature in
        if bool_decide (ret = 0 ∨ ret = -1)%Z then mret IAS_ERROR
        else
          quote ← quote_from_attestation_report_body report_body;
          text ← load_string base64_enclave_pk;
          let enclave_pk := b64_decode (cstr text) in
          q ← load_string quote;
          r ← lift (verify_enclave_pk_in_quote (Some q) (Some enclave_pk));
          if bool_decide (r ≠ 0)%Z then mret IAS_ERROR
          else
            r ← lift (verify_mrenclave_in_quote (Some q) mrenclave);
            if bool_decide (r ≠ 0)%Z then mret IAS_ERROR else mret IAS_SUCCESS
    end.
End ias.

(** ** Taking a string of a value *)

(** The string of a member, on the value and in memory. *)
Definition string_of (v : JSON_Value) (name : bytes) : option bytes :=
  Parson.json_object_get_string (Parson.json_value_get_object (Some v)) name.
Definition take_string (root : option addr) (name : bytes) : HM (option addr) :=
  o ← ParsonHeap.json_value_get_object root; json_object_get_string o name.

(** What a getter leaves: the whole value, or the string lent out of it. *)
Definition lent (s : option bytes) (r : option addr) (P : hprop) : hprop :=
  match s, r with
  | None, None => P
  | Some s, Some a => strbuf a s ∗ (strbuf a s -∗ P)
  | _, _ => False
  end%I.

Lemma wp_value_get_string oom par p v (Φ : _ → hprop) :
  owns par p v ∗ (∀ r, lent (Parson.json_value_get_string (Some v)) r (owns par p v) -∗ Φ r)
  ⊢ wp oom (json_value_get_string (Some p)) Φ.
Proof.
  iIntros "[H HΦ]". cbn [json_value_get_string Parson.json_value_get_string].
  destruct v as [|s|d|o|a|b]; [cbn [owns]..| | |cbn [owns]].
  2: { iDestruct "H" as "(%q & H & Hs)". iApply wp_seq. iApply wp_load_value. iFrame "H". iIntros "H". iApply wp_ret.
       iApply ("HΦ" $! (Some q)). cbn [lent]. iFrame "Hs". iIntros "Hs". iExists q. iFrame. }
  3: iDestruct (value_object with "H") as "(%q & H & Ho)".
  4: iDestruct (value_array with "H") as "(%q & H & Ho)".
  all: iApply wp_seq; iApply wp_load_value; iFrame "H"; iIntros "H"; iApply wp_ret; iApply ("HΦ" $! None); cbn [lent].
  3: iApply object_value.
  4: iApply array_value.
  all: iFrame.
Qed.

Lemma wp_object_get_string oom p q o name (Φ : _ → hprop) :
  owns_object p q o ∗ (∀ r, lent (Parson.json_object_get_string (Some o) name) r (owns_object p q o) -∗ Φ r)
  ⊢ wp oom (json_object_get_string (Some q) name) Φ.
Proof.
  iIntros "[Ho HΦ]". iDestruct (object_open with "Ho") as "(%ns & %nvs & %ks & %vs & Ho & Hs & Hv)".
  iDestruct (big_sepL2_length with "Hv") as %Hl. rw length_map in Hl.
  iApply wp_seq. iApply (wp_get_value_at _ _ _ _ _ ks vs); [done|]. iFrame "Ho Hs". iIntros "Ho Hs".
  unfold Parson.json_object_get_string, Parson.json_object_get_value, Parson.json_object_getn_value. rw getn_loop_find.
  destruct (find_name (obj_pairs o) name) as [i|] eqn:Ei; cbn [mbind option_bind fmap option_fmap option_map]; last first.
  { iApply wp_ret. iApply ("HΦ" $! None). cbn [lent Parson.json_value_get_string]. iApply object_close. iFrame. }
  pose proof (find_name_lt _ _ _ Ei) as Hi.
  destruct (lookup_lt_is_Some_2 (obj_pairs o) i Hi) as [[k w] Ew]. destruct (lookup_lt_is_Some_2 vs i) as [wp' Ewp]; [by rw Hl|].
  rw Ew Ewp. cbn [fmap option_fmap option_map snd].
  iDestruct (big_sepL2_lookup_acc (λ _ vp v, owns (Some p) vp v) vs (map snd (obj_pairs o)) i wp' w with "Hv") as "[Hw Hv]";
    [done|change (map snd ?l) with (snd <$> l); by rw list_lookup_fmap Ew|].
  iApply wp_value_get_string. iFrame "Hw". iIntros (r) "H". iApply "HΦ".
  destruct (Parson.json_value_get_string (Some w)) as [s|], r as [a|]; cbn [lent]; try done.
  - iDestruct "H" as "[$ H]". iIntros "Ha". iApply object_close. iFrame "Ho Hs". iApply "Hv". by iApply "H".
  - iApply object_close. iFrame "Ho Hs". by iApply "Hv".
Qed.

Lemma wp_take_string oom par p v name (Φ : _ → hprop) :
  owns par p v ∗ (∀ r, lent (string_of v name) r (owns par p v) -∗ Φ r) ⊢ wp oom (take_string (Some p) name) Φ.
Proof.
  iIntros "[H HΦ]". iApply wp_seq. unfold string_of.
  destruct v as [|s|d|o|a|b]; cbn [Parson.json_value_get_object]; [cbn [owns]..| | |cbn [owns]].
  4: { iDestruct (value_object with "H") as "(%q & H & Ho)". iApply wp_seq. iApply wp_load_value. iFrame "H".
       iIntros "H". iApply wp_ret. cbn [snd]. iApply wp_object_get_string. iFrame "Ho". iIntros (r) "Ho". iApply "HΦ".
       destruct (Parson.json_object_get_string (Some o) name), r; cbn [lent]; try done.
       - iDestruct "Ho" as "[$ Ho]". iIntros "Ha". iApply object_value. iFrame "H". by iApply "Ho".
       - iApply object_value. iFrame. }
  2: iDestruct "H" as "(%q & H & Ho)".
  4: iDestruct (value_array with "H") as "(%q & H & Ho)".
  all: iApply wp_seq; iApply wp_load_value; iFrame "H"; iIntros "H"; iApply wp_ret; cbn [snd].
  all: iApply wp_seq; iApply wp_ret; iApply wp_ret; iApply ("HΦ" $! None); cbn [lent].
  2: iExists q.
  4: iApply array_value.
  all: iFrame.
Qed.

(** *** The getters change nothing *)

Definition reads {A} (f : HM A) : Prop := ∀ m a m', f m = Ok (a, m') → m' = m.

Lemma reads_ret {A} (a : A) : reads (mret a).
Proof. by intros m b m' [= _ <-]. Qed.
Lemma reads_lift {A} (r : res A) : reads (lift r).
Proof. intros m a m'. unfold lift. destruct r; [by intros [= _ <-]|done..]. Qed.
Lemma reads_bind {A B} (f : HM A) (g : A → HM B) : reads f → (∀ a, reads (g a)) → reads (f ≫= g).
Proof.
  intros Hf Hg m b m'. unfold mbind, st_bind. destruct (f m) as [[a m1]| |] eqn:E; [|done..].
  intros H. apply Hg in H as ->. by eapply Hf.
Qed.
Lemma reads_load p : reads (load p).
Proof. intros m a m'. unfold load. destruct p as [p|]; [|done]. destruct (heap m !! p); [by intros [= _ <-]|done]. Qed.

Ltac reads_tac :=
  repeat first [apply reads_ret | apply reads_lift | apply reads_load | apply reads_bind; [|intros ?] | case_match].

Lemma reads_getn n : ∀ i object name len, reads (getn_from n i object name len).
Proof.
  induction n as [|n IH]; intros i object name len; cbn [getn_from]; [apply reads_ret|].
  unfold load_object, read_cell, load_string. reads_tac; by apply IH.
Qed.
Lemma reads_take root name : reads (take_string root name).
Proof.
  unfold take_string, ParsonHeap.json_value_get_object, json_object_get_string, ParsonHeapApi.json_object_get_value,
    ParsonHeap.json_object_getn_value, ParsonHeap.json_object_get_count, json_value_get_string, load_value, load_object.
  reads_tac; apply reads_getn.
Qed.

(** A string taken from a value that is in memory: the memory stays, and the
    pointer is to a block of the value. *)
Lemma take_string_run p v name h' h fs : at_heap (owns None p v) h' → h' ##ₘ h →
  ∃ r, take_string (Some p) name (MkMem (h' ∪ h) fs) = Ok (r, MkMem (h' ∪ h) fs) ∧
    match string_of v name, r with
    | None, None => True
    | Some s, Some a => ∃ n, h' !! a = Some (BChars n (Some s))
    | _, _ => False
    end.
Proof.
  intros Ho Hd.
  assert (owns None p v ⊢ wp true (take_string (Some p) name) (λ r, lent (string_of v name) r (owns None p v))) as [Hwp].
  { iIntros "H". iApply wp_take_string. iFrame "H". by iIntros (r) "H". }
  destruct (Hwp h' Ho h fs Hd (allowed_any fs)) as (r & h2 & fs' & E & Hd2 & _ & H).
  pose proof (reads_take _ _ _ _ _ E) as [= Hh ->]. apply map_union_cancel_r in Hh as ->; [|done..].
  exists r. split; [done|]. destruct (string_of v name) as [s|], r as [a|]; [|done..].
  destruct H as (h1 & h3 & -> & _ & (n & h4 & h5 & -> & _ & Ha & [Hemp _]) & _).
  change (h4 = {[a := BChars n (Some s)]}) in Ha. subst h4. exists n.
  rw -(assoc_L (∪)). apply lookup_union_Some_l, lookup_singleton_eq.
Qed.

(** ** Use after free *)

Section laws.
Context {O : OpenSSL} {I : IasCrypto}.

(** A string of a value that was freed, and NULL. *)
Lemma load_freed (a : addr) b h' h fs : h' !! a = Some b → h' ##ₘ h →
  load_string (Some a) (MkMem h fs) = UB Dangling.
Proof.
  intros Ha Hd. unfold load_string, mbind, st_bind, load. cbn [heap].
  by rw (map_disjoint_Some_l h' h a b Hd Ha).
Qed.

(** Parsing, taking the strings and freeing, when the value is at [p]. *)
Lemma freed_run json mrenclave p v h' h fs fs1 : intel_key_parses = true →
  ParsonHeap.json_parse_string (Some json) (MkMem h fs) = Ok (Some p, MkMem (h' ∪ h) fs1) →
  h' ##ₘ h → at_heap (owns None p v) h' →
  verify_attestation_report json mrenclave (MkMem h fs) =
    UB (match string_of v (bs "IASReport-Signature") with Some _ => Dangling | None => NullDeref end).
Proof.
  intros Hk Hp Hd Ho. unfold verify_attestation_report. rw Hk. cbn [negb].
  rw (st_bind_ok _ _ _ _ _ Hp).
  pose proof (λ name, take_string_run p v name h' h fs1 Ho Hd) as Ht.
  destruct (Ht (bs "EnclavePk")) as (r1 & E1 & _). destruct (Ht (bs "IASReport-Signature")) as (r2 & E2 & H2).
  destruct (Ht (bs "IASReport-Signing-Certificate")) as (r3 & E3 & _). destruct (Ht (bs "IASResponseBody")) as (r4 & E4 & _).
  destruct (free_run None p v h' h fs1 Ho Hd) as [fs2 Ef].
  assert (∀ {B} name r (f : option addr → HM B), take_string (Some p) name (MkMem (h' ∪ h) fs1) = Ok (r, MkMem (h' ∪ h) fs1) →
    (o ← ParsonHeap.json_value_get_object (Some p); s ← json_object_get_string o name; f s) (MkMem (h' ∪ h) fs1) =
    f r (MkMem (h' ∪ h) fs1)) as Hs.
  { intros B name r f E. rw -(st_bind_ok _ f _ _ _ E). unfold take_string, mbind, st_bind.
    by destruct (ParsonHeap.json_value_get_object (Some p) _) as [[o m]| |]. }
  rw (Hs _ _ _ _ E1) (Hs _ _ _ _ E2) (Hs _ _ _ _ E3) (Hs _ _ _ _ E4) (st_bind_ok _ _ _ _ _ Ef).
  destruct (string_of v (bs "IASReport-Signature")) as [s|], r2 as [a|]; try done.
  destruct H2 as [n Hn]. unfold mbind at 1, st_bind at 1. by rw (load_freed a _ h' h fs2 Hn Hd).
Qed.

(** C40: when Intel's key parses, the verification of an attestation report never
    succeeds, in any memory and whatever allocations fail. The strings of the
    report are decoded after the JSON value that owns them was freed: for a
    report that parses and has a signature the code reads freed memory, for one
    without a signature it reads NULL, and it refuses a report that does not
    parse (or for which there is no memory) and leaves the memory as it was. *)
Theorem attestation_use_after_free json mrenclave h fs : intel_key_parses = true →
  ∃ r, ParsonParse.json_parse_string (Some json) = Ok r ∧
    match r with
    | None => ∃ fs', verify_attestation_report json mrenclave (MkMem h fs) = Ok (IAS_ERROR, MkMem h fs')
    | Some v =>
        verify_attestation_report json mrenclave (MkMem h fs) =
          UB (match string_of v (bs "IASReport-Signature") with Some _ => Dangling | None => NullDeref end) ∨
        fs ≠ [] ∧ ∃ fs', verify_attestation_report json mrenclave (MkMem h fs) = Ok (IAS_ERROR, MkMem h fs')
    end.
Proof.
  intros Hk. destruct (parse_well_formed (Some json)) as (r & Hr & _). exists r. split; [done|].
  destruct (value_or_null_safe (ParsonHeap.json_parse_string (Some json)) r h fs) as (res & h' & fs' & E & Hd & H).
  { intros oom Φ. by apply wp_json_parse_string. }
  destruct res as [p|].
  - destruct H as (v & -> & Ho). left. by eapply freed_run.
  - destruct H as [-> Hn]. rw (left_id_L ∅ (∪)) in E.
    assert (verify_attestation_report json mrenclave (MkMem h fs) = Ok (IAS_ERROR, MkMem h fs')) as Ev.
    { unfold verify_attestation_report. rw Hk. cbn [negb]. by rw (st_bind_ok _ _ _ _ _ E). }
    destruct r as [v|]; [|by exists fs']. right. split; [|by exists fs']. intros ->. by specialize (Hn eq_refl).
Qed.
End laws.

(** ** A concrete run *)

#[local] Existing Instances ToyFabric.toy_openssl Ias.toy_ias.

Lemma attestation_use_after_free_witness :
  verify_attestation_report (I := toy_ias) sample_json (Some (repeat x05 32)) (MkMem ∅ []) = UB Dangling.
Proof.
  destruct (attestation_use_after_free (I := toy_ias) sample_json (Some (repeat x05 32)) ∅ [] eq_refl) as (r & Hr & H).
  revert Hr H. vm_compute. intros [= <-]. intros [H|[H _]]; [exact H|destruct (H eq_refl)].
Defined.
End IasHeap.
