(* ===== verification/Endorsement.v ===== *)
(** * From the chaincode enclave to the ledger enclave

    The two enclaves agree on what an endorsed transaction is: the hash the
    ledger recomputes from a transaction's read and write set is the one
    [ecall_invoke] signed, although the ledger sees the keys in the encoding of
    the peer (composite keys with NULs, in range queries and in another order).
    The last section composes this with the auction chaincode. *)
From S2P Require Import Prelude Utils Base64 Cdouble ParsonText Parson ParsonParse ParsonPrint.
From S2P Require Import ParsonRoundtrip StdMap Sgx EccCrypto Shim AuctionJson Auction AuctionSpec Fabric Ledger LedgerProofs.
From S2P Require Import TlccEnclave EccEnclave.
Import Utils Base64 StdMap Sgx EccCrypto Shim AuctionJson Auction AuctionSpec Fabric Ledger LedgerProofs
  TlccEnclave EccEnclave.

Module Endorsement.

(** ** Composite keys *)

(** The chaincode's spelling of a composite key, and the peer's. *)
Definition dotted (comps : list bytes) : bytes := concat (map (λ c, c ++ [x2e]) comps).
Definition composite_key (comps : list bytes) : bytes := x2e :: dotted comps.
Definition fabric_composite (comps : list bytes) : bytes :=
  x00 :: concat (map (λ c, c ++ [x00]) comps).

(** Components are not empty and have no NUL. *)
Definition comps_ok (comps : list bytes) : Prop := Forall (λ c, c ≠ [] ∧ nul_free c) comps.

#[global] Instance comps_ok_dec comps : Decision (comps_ok comps).
Proof. unfold comps_ok. apply _. Defined.

Lemma composite_loop_fabric comps : comps_ok comps → ∀ fuel, length comps < fuel →
  composite_loop fuel (Some (concat (map (λ c, c ++ [x00]) comps))) = Ok (dotted comps).
Proof.
  induction 1 as [|c comps [Hne Hc] _ IH]; intros [|f] Hf; try lia; [done|].
  unfold dotted. cbn [composite_loop map concat length] in *. rewrite <-!app_assoc. cbn [app].
  rewrite (bool_decide_false (peek _ = x00)).
  2:{ destruct c as [|x c]; [done|]. cbn. by apply Forall_cons_iff in Hc as [? _]. }
  rewrite cstr_app_nul by done.
  rewrite bool_decide_true by (rewrite length_app; cbn; lia).
  replace (drop (S (length c)) _) with (concat (map (λ c, c ++ [x00]) comps))
    by (by rewrite drop_app_ge, Nat.sub_succ_l, Nat.sub_diag by lia).
  rewrite IH by lia. done.
Qed.

Lemma composite_tail_fabric comps : comps_ok comps →
  composite_tail (fabric_composite comps) = Ok (dotted comps).
Proof.
  intros H. unfold composite_tail, fabric_composite. apply composite_loop_fabric; [done|].
  cbn [length]. induction H as [|c comps [Hne _] _ IH]; [cbn; lia|].
  cbn [map concat length] in *. rewrite !length_app. destruct c; [done|]. cbn in *. lia.
Qed.

(** ** The ledger's view of a read and write set *)

Section ledger.
Context {O : OpenSSL} {F : FabricPb}.

Definition fresh_read (s : ledger_state) (key : bytes) (v : version_t) : Prop :=
  has_version_conflict key (state s) v = 0%Z ∧ has_version_conflict key (updates s) v = 0%Z.

Lemma check_read_fresh key v b s : fresh_read s key v → check_read key v b s = Ok (inr b, s).
Proof. intros [H1 H2]. rewrite check_read_eq, H1, H2. done. Qed.

Lemma lm_bind_eq {A B} (m : LM A) (f : A → LM B) s a s' : m s = Ok (inr a, s') → (m ≫= f) s = f a s'.
Proof. intros H. unfold mbind, lm_bind. by rewrite H. Qed.

Definition plain_reads (l : list (bytes * version_t)) : list kvrwset_KVRead :=
  map (λ p, MkRead (Some p.1) p.2) l.
Definition range_reads (l : list (list bytes * version_t)) : list kvrwset_KVRead :=
  map (λ p, MkRead (Some (fabric_composite p.1)) p.2) l.

Lemma plain_read_ok k v acc s : nul_free k → fresh_read s (ecc_key k) v →
  plain_read (bs "ecc") acc (MkRead (Some k) v) s = Ok (inr (acc.1, set_insert k acc.2), s).
Proof.
  intros Hk Hf. unfold plain_read. cbn [read_key read_version].
  erewrite lm_bind_eq; [|done]. rewrite (cstr_id k Hk).
  erewrite lm_bind_eq; [|by apply check_read_fresh]. done.
Qed.

Lemma range_read_ok c v acc s : comps_ok c → fresh_read s (bs "ecc" ++ composite_key c) v →
  range_read (bs "ecc") acc (MkRead (Some (fabric_composite c)) v) s =
  Ok (inr (acc.1, set_insert (composite_key c) acc.2), s).
Proof.
  intros Hk Hf. unfold range_read. cbn [read_key read_version].
  erewrite lm_bind_eq; [|done].
  erewrite lm_bind_eq; [|unfold pure; by rewrite composite_tail_fabric].
  erewrite lm_bind_eq; [|by apply check_read_fresh]. done.
Qed.

Lemma plain_reads_ok l s : Forall (λ p, nul_free p.1 ∧ fresh_read s (ecc_key p.1) p.2) l → ∀ acc,
  fold (plain_read (bs "ecc")) acc (plain_reads l) s = Ok (inr (acc.1, read_all (map fst l) acc.2), s).
Proof.
  induction 1 as [|[k v] l [Hk Hf] _ IH]; intros acc; [by destruct acc|].
  change (plain_reads ((k, v) :: l)) with (MkRead (Some k) v :: plain_reads l). cbn [fold].
  erewrite lm_bind_eq; [|by apply plain_read_ok]. apply IH.
Qed.

Lemma range_reads_ok l s :
  Forall (λ p, comps_ok p.1 ∧ fresh_read s (bs "ecc" ++ composite_key p.1) p.2) l → ∀ acc,
  fold (range_read (bs "ecc")) acc (range_reads l) s =
  Ok (inr (acc.1, read_all (map (λ p, composite_key p.1) l) acc.2), s).
Proof.
  induction 1 as [|[k v] l [Hk Hf] _ IH]; intros acc; [by destruct acc|].
  change (range_reads ((k, v) :: l)) with (MkRead (Some (fabric_composite k)) v :: range_reads l).
  cbn [fold]. erewrite lm_bind_eq; [|by apply range_read_ok]. apply IH.
Qed.

Lemma read_all_app ks ks' r : read_all (ks ++ ks') r = read_all ks' (read_all ks r).
Proof. apply fold_left_app. Qed.

Lemma range_queries_ok qs s :
  Forall (Forall (λ p, comps_ok p.1 ∧ fresh_read s (bs "ecc" ++ composite_key p.1) p.2)) qs → ∀ acc,
  fold (range_query (bs "ecc")) acc (map (λ q, raw_reads (range_reads q)) qs) s =
  Ok (inr (acc.1, read_all (map (λ p, composite_key p.1) (concat qs)) acc.2), s).
Proof.
  induction 1 as [|q qs Hq _ IH]; intros acc; [by destruct acc|].
  cbn [map fold concat]. erewrite lm_bind_eq; [|cbn [range_query]; by apply range_reads_ok]. rewrite IH.
  cbn [fst snd]. by rewrite map_app, read_all_app.
Qed.

Lemma read_all_sorted ks r : sorted r → sorted (read_all ks r).
Proof. revert r. induction ks as [|k ks IH]; intros r Hr; [done|]. by apply IH, sorted_set_insert. Qed.

Lemma elem_of_read_all ks r x : x ∈ read_all ks r ↔ x ∈ ks ∨ x ∈ r.
Proof.
  revert r. induction ks as [|k ks IH]; intros r; cbn [read_all fold_left].
  - set_solver.
  - fold (read_all ks (set_insert k r)). rewrite IH, elem_of_set_insert, elem_of_cons. naive_solver.
Qed.

(** The order in which keys were inserted does not matter. *)
Lemma read_all_ext ks rs : sorted rs → (∀ x, x ∈ rs ↔ x ∈ ks) → read_all ks [] = rs.
Proof.
  intros Hs H. apply sorted_ext; [apply read_all_sorted; constructor|done|].
  intros x. rewrite elem_of_read_all, H. set_solver.
Qed.

(** A write as the peer encodes it. *)
Inductive ecc_key_form := Plain (k : bytes) | Composite (comps : list bytes).
Definition form_key (f : ecc_key_form) : bytes :=
  match f with Plain k => k | Composite c => composite_key c end.
Definition fabric_key (f : ecc_key_form) : bytes :=
  match f with Plain k => k | Composite c => fabric_composite c end.
Definition ledger_key (f : ecc_key_form) : bytes :=
  match f with Plain k => ecc_key k | Composite c => bs "ecc" ++ composite_key c end.
Definition form_ok (f : ecc_key_form) : Prop :=
  match f with Plain k => k ≠ [] ∧ nul_free k | Composite c => comps_ok c end.

Lemma ecc_write_ok f val first v ws w s : form_ok f →
  ecc_write (bs "ecc") v (MkWrite first (Some val)) ws (MkWrite (Some (fabric_key f)) w) s =
  Ok (inr (map_insert (form_key f) val ws), set_updates (map_insert (ledger_key f) (val, v) (updates s)) s).
Proof.
  intros Hf. unfold ecc_write. cbn [write_key write_value].
  erewrite lm_bind_eq; [|done]. destruct f as [k|c]; cbn [form_ok fabric_key form_key ledger_key] in *.
  - destruct Hf as [Hne Hk]. rewrite (bool_decide_false (peek k = x00)).
    2:{ destruct k; [done|]. cbn. by apply Forall_cons_iff in Hk as [? _]. }
    rewrite (cstr_id k Hk). done.
  - rewrite bool_decide_true by done. rewrite composite_tail_fabric by done. done.
Qed.

(** [kvrwset.writes[0].value] is the value of every write, and [insert] keeps
    the first entry for a key. *)
Definition put_all {V} (key : ecc_key_form → bytes) (x : V) (l : list (ecc_key_form * bytes)) (m : list (bytes * V))
  : list (bytes * V) :=
  fold_left (λ m p, map_insert (key p.1) x m) l m.

Lemma ecc_writes_ok l val first v : Forall (λ p, form_ok p.1) l → ∀ ws s,
  fold (ecc_write (bs "ecc") v (MkWrite first (Some val))) ws
    (map (λ p, MkWrite (Some (fabric_key p.1)) (Some p.2)) l) s =
  Ok (inr (put_all form_key val l ws), set_updates (put_all ledger_key (val, v) l (updates s)) s).
Proof.
  induction 1 as [|[f x] l Hf _ IH]; intros ws s; [by destruct s|].
  cbn [map fold fst snd]. erewrite lm_bind_eq; [|by apply ecc_write_ok]. by rewrite IH.
Qed.

(** The read and write set of an action of the chaincode, as the peer sends it:
    range queries, plain reads and writes. *)
Record ecc_rwset := MkEccRwset {
  er_ranges : list (list (list bytes * version_t));
  er_reads : list (bytes * version_t);
  er_writes : list (ecc_key_form * bytes) }.

Definition er_fabric (e : ecc_rwset) : kvrwset_KVRWSet :=
  MkRwset (map (λ q, raw_reads (range_reads q)) (er_ranges e)) (plain_reads (er_reads e))
    (map (λ p, MkWrite (Some (fabric_key p.1)) (Some p.2)) (er_writes e)).

(** No read is stale and the keys are well formed. *)
Record er_ok (s : ledger_state) (e : ecc_rwset) : Prop := {
  er_ranges_ok : Forall (Forall (λ p, comps_ok p.1 ∧ fresh_read s (bs "ecc" ++ composite_key p.1) p.2))
                   (er_ranges e);
  er_reads_ok : Forall (λ p, nul_free p.1 ∧ fresh_read s (ecc_key p.1) p.2) (er_reads e);
  er_writes_ok : Forall (λ p, form_ok p.1) (er_writes e) }.

Definition er_keys (e : ecc_rwset) : list bytes :=
  map (λ p, composite_key p.1) (concat (er_ranges e)) ++ map fst (er_reads e).
Definition er_write_set (e : ecc_rwset) : list (bytes * bytes) :=
  match er_writes e with [] => [] | (_, val) :: _ => put_all form_key val (er_writes e) [] end.

Lemma decode_ptr_ok {A} (d : bytes → option A) b a s : d b = Some a →
  decode_ptr d (Some b) s = Ok (inr a, s).
Proof.
  intros H. unfold decode_ptr. erewrite lm_bind_eq; [|done]. unfold decode_pb. by rewrite H.
Qed.

Lemma ns_reads_ecc e rw s : decode_KVRWSet rw = Some (er_fabric e) → er_ok s e →
  ns_reads (true, []) (MkNsRwset (Some (bs "ecc")) (Some rw)) s =
  Ok (inr (true, read_all (er_keys e) []), s).
Proof.
  intros Hd [H1 H2 _]. unfold ns_reads. cbn [rwset ns].
  erewrite lm_bind_eq; [|by apply decode_ptr_ok]. erewrite lm_bind_eq; [|done].
  change (cstr (bs "ecc")) with (bs "ecc"). cbn [er_fabric range_queries_info reads].
  erewrite lm_bind_eq; [|by apply range_queries_ok]. rewrite plain_reads_ok by done.
  unfold er_keys. by rewrite read_all_app.
Qed.

Definition er_update (e : ecc_rwset) (v : version_t) (u : kvs_t) : kvs_t :=
  match er_writes e with [] => u | (_, val) :: _ => put_all ledger_key (val, v) (er_writes e) u end.

Lemma ns_writes_ecc e rw v s : decode_KVRWSet rw = Some (er_fabric e) → er_ok s e →
  ns_writes v [] (MkNsRwset (Some (bs "ecc")) (Some rw)) s =
  Ok (inr (er_write_set e), set_updates (er_update e v (updates s)) s).
Proof.
  intros Hd [_ _ Hw]. unfold ns_writes. cbn [rwset ns].
  erewrite lm_bind_eq; [|by apply decode_ptr_ok]. erewrite lm_bind_eq; [|done].
  change (cstr (bs "ecc")) with (bs "ecc").
  rewrite !bool_decide_false, bool_decide_true by done. unfold er_fabric, er_write_set, er_update.
  destruct (er_writes e) as [|[f val] l]; cbn [writes map fst snd]; [by destruct s|].
  by apply (ecc_writes_ok ((f, val) :: l)).
Qed.

Lemma ledger_checks_hash v args action results rw e s rs response sig pk payload :
  decode_TxReadWriteSet results = Some (MkTxRwset [MkNsRwset (Some (bs "ecc")) (Some rw)]) →
  decode_KVRWSet rw = Some (er_fabric e) → er_ok s e →
  sorted rs → (∀ x, x ∈ rs ↔ x ∈ er_keys e) →
  act_chaincode_name action = Some (bs "ecc") → act_response_payload action = Some payload →
  unmarshal_ecc_response payload = Ok (response, sig, pk) → args ≠ bs "setup" →
  apply_results v args action results s =
    Ok (inr tt, MkLedger (root_certs_orderer s) (root_certs_apps s) (state s) (lock s) (sequence_number s)
          (er_update e v (updates s))
          (events s ++ [EccSignature (bool_decide (verify_enclave_signature sig
             (SHA256 (SHA256 (invocation_bytes args response (rs, er_write_set e)))) pk = 1)%Z)])).
Proof.
  intros Htx Hkv Hok Hs Hrs Hn Hp Hu Ha. unfold apply_results, decode_pb. rewrite Htx.
  erewrite lm_bind_eq; [|done]. cbn [ns_rwsets fold].
  erewrite lm_bind_eq; [|by erewrite lm_bind_eq; [|by apply ns_reads_ecc]]. cbn [fst snd negb].
  erewrite lm_bind_eq; [|by erewrite lm_bind_eq; [|by apply ns_writes_ecc]].
  rewrite Hn. erewrite lm_bind_eq; [|done]. rewrite bool_decide_true by done.
  rewrite bool_decide_false by done. cbn [negb andb]. unfold validate_ecc_tx. rewrite Hp.
  erewrite lm_bind_eq; [|done]. erewrite lm_bind_eq; [|unfold pure; by rewrite Hu].
  rewrite (read_all_ext _ rs) by done. done.
Qed.
End ledger.

(** ** Signed invocations of the auction *)

Section enclave.
Context {C : Crypto} {L : CryptoLaws C} {PL : Platform} {W : Type} {P : Peer W}.

Lemma in_shim_ok {A} (m : ST (shim_state W) A) (es : enclave_state W) a sh :
  m (shim es) = Ok (a, sh) → in_shim m es = Ok (a, set_shim sh es).
Proof. intros H. unfold in_shim. by rewrite H. Qed.

Lemma alloc_sets_eq (es : enclave_state W) :
  alloc_sets es = Ok (set_count es, MkEnclave (set_sets (insert (set_count es) ([], [])) (shim es))
    (enclave_sk es) (enclave_pk es) (tlcc_pk es) (key_count es) (S (set_count es))).
Proof. done. Qed.

(** The read and write set of a call. *)
Definition call_rwset (c : call) (cur : option auction_t) (iv : bytes) : read_set_t * write_set_t :=
  ([call_auction c],
   match (call_spec c cur).2 with None => [] | Some (k, plain) => [(k, stored plain iv)] end).

(** The peer after its answer to the read of a call and the call's write. *)
Definition call_world (c : call) (cur : option auction_t) (iv : bytes) (ctx : Z) (w : W) : W :=
  match (call_spec c cur).2 with None => w | Some (k, plain) => ocall_put_state k (stored plain iv) ctx w end.

(** An unencrypted invocation of the auction by an idle context. *)
Lemma ecall_invoke_auction c cur ctx (es : enclave_state W) w b max sig sig' :
  call_ok c → context (shim es) !! ctx = None → holds (call_auction c) cur ctx (shim es) w b →
  (MAX_RESPONSE <= max)%Z →
  let args := args_text (call_args c) in
  let hash := sha256 (invocation_bytes args (call_spec c cur).1
                        (call_rwset c cur (rand_iv (rand_count (shim es))))) in
  ecdsa_sign hash (enclave_sk es) = (SGX_SUCCESS, sig) → swap_halves sig = Ok sig' →
  ∃ es', ecall_invoke Auction.invoke args [] max ctx es =
           Ok ((SGX_SUCCESS, (call_spec c cur).1, sig'), es') ∧
    context (shim es') = context (shim es) ∧ sets (shim es') = delete (set_count es) (sets (shim es)) ∧
    world (shim es') = call_world c cur (rand_iv (rand_count (shim es))) ctx w ∧
    log (shim es') = log (shim es) ++ [b] ∧ enclave_pk es' = enclave_pk es.
Proof.
  intros Hc Hctx Hh Hmax args hash Hsig Hswap. unfold ecall_invoke.
  erewrite st_bind_ok; [|apply alloc_sets_eq].
  set (sh0 := set_sets (insert (set_count es) ([], [])) (shim es)).
  set (es0 := MkEnclave sh0 _ _ _ _ _).
  set (sh1 := set_context (insert ctx (set_count es)) sh0).
  erewrite st_bind_ok; [|apply (in_shim_ok _ es0 tt sh1); unfold register_rwset, modify, set_context;
    cbn; rewrite Hctx; done].
  assert (active ctx (set_count es) ([], []) sh1) as Hact.
  { split; cbn; apply lookup_insert_eq. }
  assert (holds (call_auction c) cur ctx sh1 w b) as Hh1 by exact Hh.
  rewrite bool_decide_true by done.
  assert (cstr args = args) as Hargs by (apply cstr_id, ParsonPrint.json_text_nul_free).
  erewrite st_bind_ok; [|apply in_shim_ok; rewrite Hargs; by eapply invoke_refines].
  unfold finish_invoke. cbn [fst snd]. rewrite bool_decide_false by (intros Hn; by apply Hn).
  set (sh2 := after_call _ _ _ _ _ _ _ _).
  assert (context sh2 = <[ctx := set_count es]> (context (shim es)) ∧
          sets sh2 = <[set_count es := call_rwset c cur (rand_iv (rand_count (shim es)))]> (sets (shim es)) ∧
          world sh2 = call_world c cur (rand_iv (rand_count (shim es))) ctx w ∧
          log sh2 = log (shim es) ++ [b])
    as (Hctx2 & Hsets2 & Hw2 & Hlog2).
  { unfold sh2, after_call, call_rwset, call_world. destruct (call_spec c cur).2 as [[k plain]|]; cbn;
      (split_and!; [done| |done..]); by rewrite !insert_insert_eq. }
  erewrite st_bind_ok; [|done]. cbn [shim set_shim]. rewrite Hsets2, lookup_insert_eq.
  erewrite st_bind_ok; [|done]. rewrite Hargs. fold hash.
  erewrite st_bind_ok; [|by apply in_shim_ok]. erewrite st_bind_ok; [|by apply in_shim_ok].
  cbn [enclave_sk set_shim es0]. rewrite Hsig. rewrite bool_decide_false by (intros Hn; by apply Hn).
  erewrite st_bind_ok; [|by apply lift_ok]. eexists. split; [done|].
  cbn. rewrite Hctx2, Hsets2. split_and!; [by apply delete_insert_id|apply delete_insert_eq|done..].
Qed.

(** C37: an invocation whose response does not fit its buffer leaves its context
    registered: [ecall_invoke] returns [SGX_ERROR_UNEXPECTED] without
    [free_rwset], so that [context] keeps a pointer into its dead stack frame,
    and every later invocation of the auction under the same context accesses
    the dangling read set. *)
Theorem failed_invocation_dangles c cur ctx (es : enclave_state W) w b max c' max' :
  call_ok c → call_ok c' → context (shim es) !! ctx = None →
  holds (call_auction c) cur ctx (shim es) w b →
  (max < Z.of_nat (length (call_spec c cur).1))%Z →
  ∃ es', ecall_invoke Auction.invoke (args_text (call_args c)) [] max ctx es =
           Ok ((SGX_ERROR_UNEXPECTED, [], []), es') ∧
    ecall_invoke Auction.invoke (args_text (call_args c')) [] max' ctx es' = UB Dangling.
Proof.
  intros Hc Hc' Hctx Hh Hmax. unfold ecall_invoke at 1.
  erewrite st_bind_ok; [|apply alloc_sets_eq].
  set (sh0 := set_sets (insert (set_count es) ([], [])) (shim es)).
  set (es0 := MkEnclave sh0 _ _ _ _ _).
  set (sh1 := set_context (insert ctx (set_count es)) sh0).
  erewrite st_bind_ok; [|apply (in_shim_ok _ es0 tt sh1); unfold register_rwset, modify, set_context;
    cbn; rewrite Hctx; done].
  assert (active ctx (set_count es) ([], []) sh1) as Hact by (split; cbn; apply lookup_insert_eq).
  assert (holds (call_auction c) cur ctx sh1 w b) as Hh1 by exact Hh.
  rewrite bool_decide_true by done.
  rewrite (cstr_id (args_text (call_args c))) by apply ParsonPrint.json_text_nul_free.
  erewrite st_bind_ok; [|apply in_shim_ok; by eapply invoke_runs].
  unfold respond. rewrite bool_decide_true by lia. unfold finish_invoke. rewrite bool_decide_true by done.
  erewrite st_bind_ok; [|by apply in_shim_ok]. eexists. split; [done|].
  unfold ecall_invoke. erewrite st_bind_ok; [|apply alloc_sets_eq].
  set (sh2 := after_call _ _ _ _ _ _ _ _).
  assert (context sh2 !! ctx = Some (set_count es)) as Hctx2.
  { unfold sh2, after_call. destruct (call_spec c cur).2 as [[k plain]|]; cbn; apply lookup_insert_eq. }
  erewrite st_bind_ok; [|unfold in_shim, register_rwset, modify, set_context; cbn; rewrite Hctx2; done].
  rewrite (cstr_id (args_text (call_args c'))) by apply ParsonPrint.json_text_nul_free.
  rewrite bool_decide_true by done. unfold mbind, st_bind, in_shim.
  rewrite (invoke_dangling c' ctx _ (set_count es)); [done|done|exact Hctx2|].
  cbn. rewrite lookup_insert_ne by lia. apply lookup_delete_eq.
Qed.
End enclave.

Section endorsement.
Context {C : Crypto} {L : CryptoLaws C} {PL : Platform} {W : Type} {P : Peer W}.
Context {O : OpenSSL} {F : FabricPb} {SH : SameHash C O}.

(** The form of the key a call writes. *)
Definition call_form (c : call) : ecc_key_form :=
  match c with
  | Create n | Close n => Plain n
  | Submit n b _ => Composite [bs "somePrefix"; n; b]
  end.

(** The read and write set of a call as the peer submits it. *)
Definition call_er (c : call) (cur : option auction_t) (iv : bytes) (ver : version_t) : ecc_rwset :=
  MkEccRwset [] [(call_auction c, ver)]
    (match (call_spec c cur).2 with
     | None => []
     | Some (_, plain) => [(call_form c, stored plain iv)]
     end).

Definition call_nonempty (c : call) : Prop :=
  match c with Create n | Close n => n ≠ [] | Submit n b _ => n ≠ [] ∧ b ≠ [] end.

Lemma bid_form_key n b : form_key (Composite [bs "somePrefix"; n; b]) = bid_key n b.
Proof.
  unfold form_key, composite_key, dotted, bid_key, PREFIX, SEP. cbn [map concat].
  rewrite app_nil_r, <-!app_assoc. done.
Qed.

Lemma call_form_key c cur k plain : (call_spec c cur).2 = Some (k, plain) → form_key (call_form c) = k.
Proof.
  destruct c as [n|n b v|n], cur as [[? []]|]; cbn [call_spec snd]; intros [= <- _]; try done.
  apply bid_form_key.
Qed.

Lemma call_form_ok c : call_ok c → call_nonempty c → form_ok (call_form c).
Proof.
  destruct c as [n|n b v|n]; cbn.
  - intros [Hn _] ?. done.
  - intros ([Hn _] & [Hb _] & _) [? ?]. repeat (apply List.Forall_cons; [split; [done|]|]); try done;
      forall_list.
  - intros [Hn _] ?. done.
Qed.

Lemma call_auction_nul_free c : call_ok c → nul_free (call_auction c).
Proof. destruct c; cbn; [by intros [? _]|by intros [[? _] _]|by intros [? _]]. Qed.

Lemma call_write_set c cur iv ver : er_write_set (call_er c cur iv ver) = (call_rwset c cur iv).2.
Proof.
  unfold er_write_set, call_er, call_rwset. cbn [er_writes snd].
  destruct (call_spec c cur).2 as [[k plain]|] eqn:E; [|done].
  cbn [put_all fold_left map_insert fst]. by rewrite (call_form_key c cur k plain).
Qed.

Lemma call_er_ok c cur iv ver (s : ledger_state) : call_ok c → call_nonempty c →
  fresh_read s (ecc_key (call_auction c)) ver → er_ok s (call_er c cur iv ver).
Proof.
  intros Hc Hne Hf. split; cbn [er_ranges er_reads er_writes call_er].
  - constructor.
  - constructor; [|constructor]. split; [|done]. by apply call_auction_nul_free.
  - destruct (call_spec c cur).2 as [[k plain]|]; [|constructor].
    constructor; [by apply call_form_ok|constructor].
Qed.

Lemma call_er_update c cur iv ver v (up : kvs_t) : er_update (call_er c cur iv ver) v up =
  match (call_spec c cur).2 with
  | None => up
  | Some (_, plain) => map_insert (ledger_key (call_form c)) (stored plain iv, v) up
  end.
Proof. unfold er_update, call_er. cbn [er_writes]. by destruct (call_spec c cur).2 as [[k plain]|]. Qed.

(** What the call adds to the updates of the block. *)
Lemma call_update c cur iv ver v (up : kvs_t) : map_ok up →
  match (call_spec c cur).2 with
  | None => er_update (call_er c cur iv ver) v up = up
  | Some (_, plain) =>
      map_find (ledger_key (call_form c)) (er_update (call_er c cur iv ver) v up) =
        match map_find (ledger_key (call_form c)) up with Some x => Some x | None => Some (stored plain iv, v) end ∧
      ∀ k, k ≠ ledger_key (call_form c) → map_find k (er_update (call_er c cur iv ver) v up) = map_find k up
  end.
Proof.
  intros Hok. rewrite call_er_update. destruct (call_spec c cur).2 as [[k plain]|]; [|done]. split.
  - rewrite map_find_insert, bool_decide_true by done. by destruct (map_find _ up).
  - intros k' Hk. rewrite map_find_insert, bool_decide_false by done. by destruct (map_find _ up).
Qed.

End endorsement.

(** ** Concrete runs *)

#[local] Existing Instances Toy.toy_crypto Toy.toy_laws ToyPlatform.toy_platform ToyFabric.toy_openssl
  toy_same_hash.
Import Shim.ToyPeer.

(** Creating an auction on an empty ledger. *)
Definition sample_call : call := Create (bs "A").
Definition empty_world : toy_world := MkToy ∅ ∅ [].
Definition sample_enclave : enclave_state toy_world := initialised empty_world.
Definition sample_rwset : ecc_rwset := call_er sample_call None (rand_iv 0) (MkVersion 0 0).
Definition sample_hash : bytes :=
  sha256 (invocation_bytes (args_text (call_args sample_call)) (call_spec sample_call None).1
            (call_rwset sample_call None (rand_iv 0))).

(** The response of the endorser. *)
Definition sample_pk : bytes := bs "enclave key".
Definition sample_sig : bytes := SHA256 sample_hash ++ sample_pk.
Definition sample_payload : bytes :=
  ParsonPrint.json_text false 0 (Parson.JSONObject (Parson.MkObject
    [(bs "ResponseData", Parson.JSONString (b64_encode (call_spec sample_call None).1));
     (bs "Signature", Parson.JSONString (b64_encode sample_sig));
     (bs "PublicKey", Parson.JSONString (b64_encode sample_pk))] 3)).
Definition sample_action : protos_ChaincodeAction := MkAction None (Some sample_payload) (Some (bs "ecc")).
#[local] Instance sample_pb : FabricPb := ToyFabric.toy_pb (bs "ecc") sample_payload (er_fabric sample_rwset).

Definition sample_ledger : ledger_state := MkLedger None None [] false 1 [] [].
Definition sample_signature : bytes := (ecdsa_sign sample_hash (enclave_sk sample_enclave)).2.

Lemma sample_holds : holds (bs "A") None 7 (shim sample_enclave) empty_world true.
Proof. eexists. split; [reflexivity|]. split; [reflexivity|]. vm_compute. reflexivity. Qed.


Lemma failed_invocation_dangles_witness : ∃ es',
  ecall_invoke Auction.invoke (args_text (call_args sample_call)) [] 1 7 sample_enclave =
    Ok ((SGX_ERROR_UNEXPECTED, [], []), es') ∧
  ecall_invoke Auction.invoke (args_text (call_args sample_call)) [] 100 7 es' = UB Dangling.
Proof.
  apply (failed_invocation_dangles sample_call None 7 sample_enclave empty_world true 1 sample_call 100).
  - by_evaluation.
  - by_evaluation.
  - reflexivity.
  - exact sample_holds.
  - reflexivity.
Defined.
End Endorsement.
