(* ===== verification/PeerGlue.v ===== *)
(** * The peer's glue (src/utils/utils.go, src/ecc/enclave/enclave_stub.go, src/ecc/tlcc/stub.go, src/tlcc/enclave/enclave_stub.go, src/ecc_enclave/sgxcclib/sgxcclib.c)

    How an OCALL of the chaincode enclave is answered: the stubs of sgxcclib.c
    call the exported Go functions, which find the transaction's stub in the
    registry, translate composite keys, read or write through Fabric's
    chaincode stub, and ask the ledger enclave (through the chaincode tlcc and
    its host library) for the tag. The result is an instance of the class
    [Peer] the chaincode enclave is verified against.

    Fabric's chaincode stub is external: the class [ShimStub] has its
    operations, and [ShimLaws] the documented behaviour of the transaction
    simulator behind it. A Go panic is [None]. *)
From S2P Require Import Prelude Utils Base64 ParsonText ParsonPrint StdMap Sgx EccCrypto Shim AuctionJson Auction AuctionSpec.
From S2P Require Import Fabric Ledger LedgerProofs TlccEnclave EccEnclave HostLib Endorsement.
Import Utils Base64 StdMap Sgx EccCrypto Shim AuctionJson Auction AuctionSpec Fabric Ledger LedgerProofs
  TlccEnclave EccEnclave HostLib Endorsement.

Module PeerGlue.

(** ** utils.go *)

Definition IsSGXCompositeKey (comp_str : bytes) : bool :=
  bool_decide (peek comp_str = x2e) && bool_decide (peek (rev comp_str) = x2e).

(** Go's [strings.Split(s, ".")]. *)
Fixpoint Split (s : bytes) : list bytes :=
  match s with
  | [] => [[]]
  | c :: s' =>
      if bool_decide (c = x2e) then [] :: Split s'
      else match Split s' with [] => [[c]] | w :: ws => (c :: w) :: ws end
  end.

(** [comp[1 : len(comp)-1]]. *)
Definition SplitSGXCompositeKey (comp_str : bytes) : option (list bytes) :=
  if IsSGXCompositeKey comp_str then Some (removelast (tail (Split comp_str))) else None.

(** [strings.Replace(comp, "\x00", ".", -1)]. *)
Definition TransformToSGX (comp : bytes) : bytes :=
  map (λ c, if bool_decide (c = x00) then x2e else c) comp.

(** Fabric's [ChaincodeStubInterface], for one transaction; an error of
    [GetState], [PutState] or the iterator is [None]. *)
Class ShimStub (S : Type) := {
  GetState : bytes → S → option (bytes * S);
  PutState : bytes → bytes → S → option S;
  GetStateByPartialCompositeKey : bytes → list bytes → S → option (list (bytes * bytes) * S);
  CreateCompositeKey : bytes → list bytes → bytes }.

Section glue.
Context {C : Crypto} {O : OpenSSL} {F : FabricPb} {S : Type} {SS : ShimStub S}.

(** [comp[0]] of an empty slice panics; the error of [CreateCompositeKey] is
    not looked at. *)
Definition TransformToCompositeKey (comp_key : bytes) : option bytes :=
  comp ← SplitSGXCompositeKey comp_key;
  match comp with [] => None | c :: cs => Some (CreateCompositeKey c cs) end.

(** ** The registry of enclave_stub.go *)

(** The stubs by index, the Go variables [index] by address (the [ctx] handed to
    the enclave), and the ledger enclave behind the chaincode tlcc. [panicked]
    remembers that the process died. One proposal at a time: [Wrapper] has the
    registry under concurrent ones. *)
Record world := MkWorld {
  index : Z;
  internal : gmap Z S;
  frames : gmap Z Z;
  tlcc : tlcc_state;
  panicked : bool }.

Definition Register (stubs : S) (w : world) : Z * world :=
  (index w + 1, MkWorld (index w + 1) (<[index w + 1 := stubs]> (internal w)) (frames w) (tlcc w) (panicked w))%Z.
Definition Release (i : Z) (w : world) : world :=
  MkWorld (index w) (delete i (internal w)) (frames w) (tlcc w) (panicked w).
Definition Get (i : Z) (w : world) : option S := internal w !! i.

(** A stub is a pointer: what an operation changes is seen through the registry. *)
Definition set_stub (i : Z) (stub : S) (w : world) : world :=
  MkWorld (index w) (<[i := stub]> (internal w)) (frames w) (tlcc w) (panicked w).
Definition set_tlcc (t : tlcc_state) (w : world) : world :=
  MkWorld (index w) (internal w) (frames w) t (panicked w).

(** ** Asking the ledger enclave *)

(** tlcc's [GetStateMetadata]: the result codes are not looked at, and the
    buffer of the tag is zero unless the enclave wrote it. *)
Definition GetStateMetadata (key : bytes) (isRangeQuery : bool) (t : tlcc_state)
  : option (bytes * tlcc_state) :=
  match (if isRangeQuery then tlcc_get_multi_state_metadata SGX_SUCCESS (cstr key) t
         else tlcc_get_state_metadata SGX_SUCCESS (cstr key) t) with
  | Ok (_, cmac, t') => Some (default (repeat x00 16) cmac, t')
  | _ => None
  end.

(** [VerifyState]: the tag travels as base64 in tlcc's response. *)
Definition VerifyState (key : bytes) (isRangeQuery : bool) (t : tlcc_state) : option (bytes * tlcc_state) :=
  let k := if isRangeQuery then bs "ecc" ++ key else bs "ecc" ++ x2e :: key in
  r ← GetStateMetadata k isRangeQuery t;
  let '(cmac, t') := r in
  Some (b64_decode (b64_encode cmac), t').

(** ** The exported callbacks *)

(** An answer is the whole value. The code copies it to the untrusted buffer
    without looking at its size; the bytes past the buffer, which overwrite other
    memory of the host process, never reach the enclave ([Sgx.marshal_out]), and
    what they overwrite there is not modelled. *)

(** The key as Fabric knows it. *)
Definition key_str (key : bytes) : option bytes :=
  if IsSGXCompositeKey key then TransformToCompositeKey key else Some key.

Definition get_state (key : bytes) (ctx : Z) (w : world) : option (answer * world) :=
  i ← frames w !! ctx;
  stubs ← Get i w;
  k ← key_str (cstr key);
  r ← GetState k stubs;
  let '(data, stubs') := r in
  v ← VerifyState k false (tlcc w);
  let '(genCMAC, t) := v in
  Some (MkAnswer data (u32 (Z.of_nat (length data))) (take 16 genCMAC), set_tlcc t (set_stub i stubs' w)).

Definition put_state (key val : bytes) (ctx : Z) (w : world) : option world :=
  i ← frames w !! ctx;
  stubs ← Get i w;
  k ← key_str (cstr key);
  stubs' ← PutState k val stubs;
  Some (set_stub i stubs' w).

(** The JSON array of the entries; nothing is escaped. *)
Definition item_json (item : bytes * bytes) : bytes :=
  bs "{" ++ [x22] ++ bs "key" ++ [x22; x3a; x22] ++ TransformToSGX item.1 ++ [x22; x2c; x22] ++
  bs "value" ++ [x22; x3a; x22] ++ item.2 ++ [x22] ++ bs "}".
Fixpoint items_json (l : list (bytes * bytes)) : bytes :=
  match l with
  | [] => []
  | [item] => item_json item
  | item :: l' => item_json item ++ bs "," ++ items_json l'
  end.

Definition get_state_by_partial_composite_key (comp_key : bytes) (ctx : Z) (w : world)
  : option (answer * world) :=
  i ← frames w !! ctx;
  stubs ← Get i w;
  comp ← SplitSGXCompositeKey (cstr comp_key);
  match comp with
  | [] => None
  | c :: cs =>
      r ← GetStateByPartialCompositeKey c cs stubs;
      let '(items, stubs') := r in
      let data := bs "[" ++ items_json items ++ bs "]" in
      v ← VerifyState (cstr comp_key) true (tlcc w);
      let '(genCMAC, t) := v in
      Some (MkAnswer data (u32 (Z.of_nat (length data))) (take 16 genCMAC), set_tlcc t (set_stub i stubs' w))
  end.

(** ** The OCALLs of sgxcclib.c *)

Definition panic (w : world) : world := MkWorld (index w) (internal w) (frames w) (tlcc w) true.
Definition or_panic (w : world) (r : option (answer * world)) : answer * world :=
  match r with Some x => x | None => (MkAnswer [] 0 [], panic w) end.

Definition ocall_get_state' (key : bytes) (ctx : Z) (w : world) : answer * world :=
  or_panic w (get_state key ctx w).
Definition ocall_put_state' (key val : bytes) (ctx : Z) (w : world) : world :=
  match put_state key val ctx w with Some w' => w' | None => panic w end.
Definition ocall_get_state_by_partial_composite_key' (key : bytes) (ctx : Z) (w : world) : answer * world :=
  or_panic w (get_state_by_partial_composite_key key ctx w).

#[export] Instance peer : Peer world := {
  ocall_get_state := ocall_get_state';
  ocall_put_state := ocall_put_state';
  ocall_get_state_by_partial_composite_key := ocall_get_state_by_partial_composite_key' }.

(** ** Invoking the enclave *)

Definition MAX_RESPONSET_SIZE : Z := 1024.

Context {PL : Platform}.

Definition set_world_of (f : world → world) (es : enclave_state world) : enclave_state world :=
  set_shim (set_world (f (Shim.world (shim es))) (shim es)) es.

(** [Invoke] of enclave_stub.go: the stub is registered, the address [ctx] of
    the local [index] is handed to the enclave, and the stub is released when
    the call returns. The response and the signature (before its conversion to
    DER), the stub after the call and the state. *)
Definition Invoke (args pk : bytes) (shimStub : S) (ctx : Z) (es : enclave_state world)
  : res (option (bytes * bytes) * option S * enclave_state world) :=
  let '(i, w) := Register shimStub (Shim.world (shim es)) in
  let w := MkWorld (index w) (internal w) (<[ctx := i]> (frames w)) (tlcc w) (panicked w) in
  r ← sgxcc_invoke Auction.invoke SGX_SUCCESS (cstr args) (cstr pk) MAX_RESPONSET_SIZE ctx (set_world_of (λ _, w) es);
  let '(ret, response, sig, es') := r in
  let stub' := Get i (Shim.world (shim es')) in
  let es' := set_world_of (λ w, let w := Release i w in
               MkWorld (index w) (internal w) (delete ctx (frames w)) (tlcc w) (panicked w)) es' in
  Ok (if bool_decide (ret ≠ 0)%Z then None else Some (response, sig), stub', es').
End glue.
Arguments world {O} S.

(** ** The transaction simulator *)

(** What is observable of a transaction under simulation: the committed entries
    of the chaincode's name space by Fabric key, and the read and write set. *)
Class Simulator (S : Type) := {
  state_db : S → bytes → option (bytes * version_t);
  tx_reads : S → list (bytes * version_t);
  tx_writes : S → list (bytes * bytes) }.

(** The value of an entry ([nil] when there is none) and the version a read
    records (zero when there is none). *)
Definition db_value (x : option (bytes * version_t)) : bytes := match x with Some (v, _) => v | None => [] end.
Definition db_version (x : option (bytes * version_t)) : version_t :=
  match x with Some (_, ver) => ver | None => MkVersion 0 0 end.

(** Components [CreateCompositeKey] accepts: UTF-8 without U+0000 and without
    the code points from U+100000 on (Fabric excludes U+10FFFF). *)
Definition component_ok (c : bytes) : Prop :=
  c ≠ [] ∧ nul_free c ∧ ParsonText.ParsonText.is_valid_utf8 c = true ∧ Forall (λ b, b ≠ xf4) c.

#[global] Instance component_ok_dec c : Decision (component_ok c).
Proof. unfold component_ok. apply _. Defined.

(** [GetState] returns the committed value and records the read; [PutState]
    only adds to the write set; a range query returns the committed entries
    whose key extends the partial key, each once. *)
Class ShimLaws (S : Type) (SS : ShimStub S) (SIM : Simulator S) : Prop := {
  GetState_ok k s : k ≠ [] → k ∉ map fst (tx_reads s) →
    ∃ s', GetState k s = Some (db_value (state_db s k), s') ∧
      state_db s' = state_db s ∧ tx_reads s' = tx_reads s ++ [(k, db_version (state_db s k))] ∧
      tx_writes s' = tx_writes s;
  PutState_ok k v s : k ≠ [] → k ∉ map fst (tx_writes s) →
    ∃ s', PutState k v s = Some s' ∧
      state_db s' = state_db s ∧ tx_reads s' = tx_reads s ∧ tx_writes s' = tx_writes s ++ [(k, v)];
  CreateCompositeKey_ok c cs : Forall component_ok (c :: cs) →
    CreateCompositeKey c cs = fabric_composite (c :: cs);
  GetStateByPartialCompositeKey_ok c cs s : Forall component_ok (c :: cs) →
    ∃ items s', GetStateByPartialCompositeKey c cs s = Some (items, s') ∧
      state_db s' = state_db s ∧ tx_writes s' = tx_writes s ∧ NoDup (map fst items) ∧
      ∀ k v, (k, v) ∈ items ↔
        starts_with (fabric_composite (c :: cs)) k = true ∧ ∃ ver, state_db s k = Some (v, ver) }.

(** ** Keys *)

Lemma Split_dot_free s : dot_free s → Split s = [s].
Proof.
  induction 1 as [|c s Hc _ IH]; [done|]. cbn [Split]. by rewrite bool_decide_false, IH by done.
Qed.

Lemma Split_app a s : dot_free a → Split (a ++ x2e :: s) = a :: Split s.
Proof.
  induction 1 as [|c a Hc _ IH]; [done|]. cbn [Split app]. by rewrite bool_decide_false, IH by done.
Qed.

Lemma Split_dotted cs : Forall dot_free cs → Split (dotted cs) = cs ++ [[]].
Proof.
  induction 1 as [|c cs Hc _ IH]; [done|]. unfold dotted in *. cbn [map concat].
  rewrite <-app_assoc. cbn [app]. by rewrite Split_app, IH.
Qed.

Lemma dotted_last cs : cs ≠ [] → ∃ s, dotted cs = s ++ [x2e].
Proof.
  induction cs as [|c cs IH]; [done|]. intros _. destruct cs as [|d cs].
  - exists c. unfold dotted. cbn. by rewrite app_nil_r.
  - destruct IH as [s Hs]; [done|]. exists ((c ++ [x2e]) ++ s). unfold dotted in *. cbn [map concat] in *.
    rewrite Hs. by rewrite app_assoc.
Qed.

Lemma IsSGX_composite cs : cs ≠ [] → IsSGXCompositeKey (composite_key cs) = true.
Proof.
  intros Hne. unfold IsSGXCompositeKey, composite_key. destruct (dotted_last cs Hne) as [s ->].
  cbn [rev peek]. rewrite rev_app_distr. cbn. by rewrite !bool_decide_true.
Qed.

Lemma IsSGX_dot_free k : dot_free k → IsSGXCompositeKey k = false.
Proof.
  intros H. unfold IsSGXCompositeKey. destruct H as [|c k Hc _]; [done|]. cbn [peek].
  by rewrite bool_decide_false.
Qed.

(** A composite key is split into its components. *)
Lemma Split_composite cs : cs ≠ [] → Forall dot_free cs →
  SplitSGXCompositeKey (composite_key cs) = Some cs.
Proof.
  intros Hne Hd. unfold SplitSGXCompositeKey. rewrite IsSGX_composite by done.
  unfold composite_key. change (x2e :: dotted cs) with ([] ++ x2e :: dotted cs).
  rewrite Split_app by constructor. cbn [tail]. rewrite Split_dotted by done.
  by rewrite removelast_app, app_nil_r.
Qed.

Lemma TransformToSGX_nul_free s : nul_free s → TransformToSGX s = s.
Proof. induction 1 as [|c s Hc _ IH]; [done|].
  unfold TransformToSGX in *. cbn [map]. by rewrite bool_decide_false, IH by done.
Qed.

Lemma TransformToSGX_composite cs : Forall nul_free cs → TransformToSGX (fabric_composite cs) = composite_key cs.
Proof.
  intros H. unfold fabric_composite, composite_key, dotted. cbn [TransformToSGX map]. f_equal.
  induction H as [|c cs Hc _ IH]; [done|]. cbn [map concat]. unfold TransformToSGX in *.
  rewrite !map_app, IH. f_equal. f_equal. by apply TransformToSGX_nul_free.
Qed.

(** Text that needs no escaping in JSON: the glue writes keys and values into its
    answer to a range query as they are. *)
Definition raw (s : bytes) : Prop := Forall (λ c, c ≠ x22 ∧ c ≠ x5c ∧ (32 <= b2z c)%Z) s.

#[global] Instance raw_dec s : Decision (raw s).
Proof. unfold raw. apply _. Defined.

(** Names of auctions and bidders the peer can handle. *)
Definition peer_name (n : bytes) : Prop := dot_free n ∧ component_ok n ∧ raw n.

#[global] Instance peer_name_dec n : Decision (peer_name n).
Proof. unfold peer_name. apply _. Defined.

(** The keys the auction chaincode uses, as forms. *)
Inductive house_form : ecc_key_form → Prop :=
  | house_auction n : peer_name n → house_form (Plain n)
  | house_bid n b : peer_name n → peer_name b → house_form (Composite [bs "somePrefix"; n; b]).

Lemma prefix_name : peer_name (bs "somePrefix").
Proof. apply (bool_decide_unpack _). vm_compute. exact I. Qed.

Lemma house_form_ok f : house_form f → form_ok f.
Proof.
  intros [n (_ & (? & ? & _) & _)|n b (_ & (? & ? & _) & _) (_ & (? & ? & _) & _)]; cbn; [done|].
  pose proof prefix_name as (_ & (? & ? & _) & _). by repeat (apply List.Forall_cons; [done|]).
Qed.

Section keys.
Context {S : Type} {SS : ShimStub S} {SIM : Simulator S} {SL : ShimLaws S SS SIM}.

(** The glue finds the Fabric key of a key of the chaincode. *)
Lemma key_str_form f : house_form f → key_str (form_key f) = Some (fabric_key f).
Proof.
  intros [n [Hd _]|n b (Hdn & Hn & _) (Hdb & Hb & _)]; unfold key_str; cbn [form_key fabric_key].
  - by rewrite IsSGX_dot_free.
  - rewrite IsSGX_composite by done. unfold TransformToCompositeKey.
    pose proof prefix_name as (Hdp & Hp & _).
    rewrite Split_composite; [|done|by repeat (apply List.Forall_cons; [done|])]. cbn.
    by rewrite CreateCompositeKey_ok by (by repeat (apply List.Forall_cons; [done|])).
Qed.
End keys.

(** ** Honest answers *)

Section honest.
Context {C : Crypto} {L : CryptoLaws C} {O : OpenSSL} {SH : SameHash C O}.
Context {S : Type} {SS : ShimStub S} {SIM : Simulator S} {SL : ShimLaws S SS SIM}.
Implicit Types (w : world S) (l : ledger_state) (stub : S).

(** The peer and the ledger enclave have seen the same blocks. *)
Definition in_sync stub l : Prop := ∀ f, house_form f →
  state_db stub (fabric_key f) = map_find (ledger_key f) (state l).

(** An invocation in progress. *)
Record running (ctx i : Z) (stub : S) (l : ledger_state) (w : world S) : Prop := {
  run_frame : frames w !! ctx = Some i;
  run_stub : internal w !! i = Some stub;
  run_ledger : ledger (tlcc w) = l }.

Lemma set_tlcc_id w : set_tlcc (MkTlcc (identity (tlcc w)) (ledger (tlcc w))) w = w.
Proof. by destruct w as [? ? ? []]. Qed.

Lemma VerifyState_ok n (t : tlcc_state) : nul_free n → lock (ledger t) = false →
  VerifyState n false t =
  Some (cmac128 session_key (n ++ committed_hash n (ledger t)), MkTlcc (identity t) (ledger t)).
Proof.
  intros Hn Hl. unfold VerifyState, GetStateMetadata, tlcc_get_state_metadata, tlcc_metadata.
  rewrite bool_decide_false by (intros Hne; by apply Hne).
  change (bs "ecc" ++ x2e :: n) with (ecc_key n).
  rewrite (cstr_id (ecc_key n)), state_metadata_eq by (done || by apply ecc_key_nul_free).
  cbn [mbind option_bind default snd from_option]. by rewrite b64_roundtrip.
Qed.

(** A read of an auction: the committed value, its length and the ledger
    enclave's tag; the simulator records the read. *)
Lemma get_state_honest n ctx i stub l w : peer_name n → running ctx i stub l w →
  in_sync stub l → lock l = false → tx_reads stub = [] →
  let x := map_find (ecc_key n) (state l) in
  ∃ stub', get_state n ctx w =
      Some (MkAnswer (db_value x) (u32 (Z.of_nat (length (db_value x))))
              (cmac128 session_key (n ++ committed_hash n l)), set_stub i stub' w) ∧
    state_db stub' = state_db stub ∧ tx_reads stub' = [(n, db_version x)] ∧ tx_writes stub' = tx_writes stub.
Proof.
  intros Hp [Hf Hs Hl] Hsync Hlk Hr x. destruct (Hp) as (Hd & (Hne & Hnf & _) & _).
  destruct (GetState_ok n stub) as (stub' & Hget & Hdb & Hrd & Hwr); [done|rewrite Hr; set_solver|].
  exists stub'. pose proof (Hsync (Plain n) (house_auction n Hp)) as Hx. cbn [fabric_key ledger_key] in Hx.
  rewrite Hx in *. fold x in Hget, Hrd. rewrite Hr in Hrd. split_and!; [|done..].
  unfold get_state, Get. rewrite Hf. cbn [mbind option_bind]. rewrite Hs. cbn [mbind option_bind].
  rewrite cstr_id by done. rewrite (key_str_form (Plain n) (house_auction n Hp) : key_str n = Some n).
  cbn [mbind option_bind]. rewrite Hget. cbn [mbind option_bind].
  rewrite VerifyState_ok by congruence. cbn [mbind option_bind].
  rewrite take_ge by (by rewrite cmac128_length). rewrite Hl. do 3 f_equal.
  rewrite <-Hl. exact (set_tlcc_id (set_stub i stub' w)).
Qed.

(** A write of the chaincode is added to the write set, under the Fabric key. *)
Lemma put_state_honest f val ctx i stub l w : house_form f → running ctx i stub l w → tx_writes stub = [] →
  ∃ stub', put_state (form_key f) val ctx w = Some (set_stub i stub' w) ∧
    state_db stub' = state_db stub ∧ tx_reads stub' = tx_reads stub ∧
    tx_writes stub' = [(fabric_key f, val)].
Proof.
  intros Hf [Hfr Hs Hl] Hw.
  destruct (PutState_ok (fabric_key f) val stub) as (stub' & Hput & Hdb & Hrd & Hwr);
    [by destruct Hf as [n (_ & (? & _) & _)|]|rewrite Hw; set_solver|].
  exists stub'. rewrite Hw in Hwr. split_and!; [|done..].
  unfold put_state, Get. rewrite Hfr. cbn [mbind option_bind]. rewrite Hs. cbn [mbind option_bind].
  assert (nul_free (form_key f)) as Hnf.
  { destruct Hf as [n (_ & (_ & ? & _) & _)|n b (_ & (_ & ? & _) & _) (_ & (_ & ? & _) & _)]; [done|].
    rewrite bid_form_key.
    by apply bid_key_nul_free. }
  rewrite cstr_id, key_str_form by done. cbn [mbind option_bind]. by rewrite Hput.
Qed.

(** The record of an auction in the ledger enclave's state. *)
Definition committed_record (l : ledger_state) (n : bytes) (cur : option auction_t) : Prop :=
  match cur with
  | None => map_find (ecc_key n) (state l) = None
  | Some au => good_name (name au) ∧ ∃ iv ver, length iv = 12 ∧
      length (stored (auction_text au) iv) < MAX_VALUE_SIZE ∧
      map_find (ecc_key n) (state l) = Some (stored (auction_text au) iv, ver)
  end.

Lemma check_cmac_self n h : nul_free n →
  true = bool_decide (check_cmac n h Shim.session_key (cmac128 session_key (n ++ h)) = 0%Z).
Proof.
  intros Hn. unfold check_cmac. rewrite cstr_id, same_session_key by done.
  by rewrite (bool_decide_true (cmac128 _ _ = _)).
Qed.

(** The honest peer is one the auction is verified against; its tag verifies. *)
Lemma holds_honest n cur ctx i stub l (sh : shim_state (world S)) : peer_name n →
  running ctx i stub l (Shim.world sh) → in_sync stub l → lock l = false → tx_reads stub = [] →
  committed_record l n cur →
  ∃ stub', holds n cur ctx sh (set_stub i stub' (Shim.world sh)) true ∧
    tx_reads stub' = [(n, db_version (map_find (ecc_key n) (state l)))] ∧ tx_writes stub' = tx_writes stub ∧
    state_db stub' = state_db stub.
Proof.
  intros Hp Hrun Hsync Hlk Hr Hc. assert (nul_free n) as Hn by apply Hp.
  destruct (get_state_honest n ctx i stub l (Shim.world sh)) as (stub' & Hget & Hdb & Hrd & Hwr); [done..|].
  exists stub'. split; [|done]. eexists. split; [unfold ocall_get_state, peer, ocall_get_state'; rewrite Hget; done|].
  destruct cur as [au|]; cbn [committed_record ans_val ans_len ans_cmac] in *.
  - destruct Hc as (Hg & iv & ver & Hiv & Hlen & Hfind). split; [done|]. exists iv.
    unfold committed_hash in *. rewrite Hfind in *. cbn [db_value].
    split_and!; [done..| |done|by apply check_cmac_self].
    unfold u32. rewrite Z.mod_small; [done|]. unfold MAX_VALUE_SIZE in Hlen. lia.
  - unfold committed_hash in *. rewrite Hc in *. split; [done|]. by apply check_cmac_self.
Qed.

(** Calls with names the peer can handle. *)
Definition call_peer (c : call) : Prop :=
  match c with Create n | Close n => peer_name n | Submit n b _ => peer_name n ∧ peer_name b end.

Lemma call_form_house c : call_peer c → house_form (call_form c).
Proof. destruct c as [n|n b v|n]; cbn; [apply house_auction|intros [? ?]; by apply house_bid|apply house_auction]. Qed.

Lemma call_peer_auction c : call_peer c → peer_name (call_auction c).
Proof. by destruct c as [|? ? ?|]; cbn; [|intros [? _]|]. Qed.

Context {PL : Platform}.

(** The write a call adds to the transaction. *)
Definition call_write (c : call) (cur : option auction_t) (iv : bytes) : list (bytes * bytes) :=
  match (call_spec c cur).2 with
  | None => []
  | Some (_, plain) => [(fabric_key (call_form c), stored plain iv)]
  end.

Lemma call_world_honest c cur iv ctx i stub l (w : world S) : call_peer c → running ctx i stub l w →
  tx_writes stub = [] →
  ∃ stub', call_world c cur iv ctx w = set_stub i stub' w ∧
    tx_reads stub' = tx_reads stub ∧ tx_writes stub' = call_write c cur iv.
Proof.
  intros Hp Hrun Hw. unfold call_world, call_write. destruct (call_spec c cur).2 as [[k plain]|] eqn:E.
  - destruct (put_state_honest (call_form c) (stored plain iv) ctx i stub l w)
      as (stub' & Hput & _ & Hrd & Hwr); [by apply call_form_house|done..|].
    exists stub'. split_and!; [|done..]. unfold ocall_put_state, peer, ocall_put_state'.
    by rewrite <-(call_form_key c cur k plain), Hput.
  - exists stub. split_and!; [|done..]. destruct Hrun as [_ Hs _]. destruct w. unfold set_stub. cbn in *.
    by rewrite insert_id.
Qed.

Lemma running_set_stub ctx i stub stub' l (w : world S) : running ctx i stub l w →
  running ctx i stub' l (set_stub i stub' w).
Proof. intros []. split; [done| |done]. cbn. apply lookup_insert_eq. Qed.

(** An auction call through the host library, by an idle context: the response
    of the specification, and a transaction that read the auction and wrote the
    specified record. *)
Lemma Invoke_auction c cur ctx (es : enclave_state (world S)) stub l sig sig' :
  call_ok c → call_peer c → context (shim es) !! ctx = None →
  ledger (tlcc (Shim.world (shim es))) = l → lock l = false → in_sync stub l →
  tx_reads stub = [] → tx_writes stub = [] → committed_record l (call_auction c) cur →
  let args := args_text (call_args c) in
  let iv := rand_iv (rand_count (shim es)) in
  ecdsa_sign (sha256 (invocation_bytes args (call_spec c cur).1 (call_rwset c cur iv))) (enclave_sk es)
    = (SGX_SUCCESS, sig) → swap_halves sig = Ok sig' →
  ∃ stub' es', Invoke args [] stub ctx es = Ok (Some ((call_spec c cur).1, sig'), Some stub', es') ∧
    tx_reads stub' = [(call_auction c, db_version (map_find (ecc_key (call_auction c)) (state l)))] ∧
    tx_writes stub' = call_write c cur iv ∧
    context (shim es') = context (shim es) ∧ log (shim es') = log (shim es) ++ [true] ∧
    tlcc (Shim.world (shim es')) = tlcc (Shim.world (shim es)) ∧ panicked (Shim.world (shim es')) = panicked (Shim.world (shim es)) ∧
    enclave_pk es' = enclave_pk es.
Proof.
  intros Hc Hp Hctx Hl Hlk Hsync Hr Hw Hrec args iv Hsig Hswap. unfold Invoke. cbn [Register].
  set (i := (index _ + 1)%Z). set (w := MkWorld _ _ _ _ _). set (es0 := set_world_of _ es).
  assert (running ctx i stub l w) as Hrun by (split; cbn; [apply lookup_insert_eq..|done]).
  destruct (holds_honest (call_auction c) cur ctx i stub l (shim es0)) as (stub1 & Hh & Hrd1 & Hwr1 & _);
    [by apply call_peer_auction|done..|].
  rewrite Hw in Hwr1. set (w1 := set_stub i stub1 w).
  assert (running ctx i stub1 l w1) as Hrun1 by (by eapply running_set_stub).
  destruct (call_world_honest c cur iv ctx i stub1 l w1) as (stub2 & Hcw & Hrd2 & Hwr2); [done..|].
  destruct (ecall_invoke_auction c cur ctx es0 w1 true MAX_RESPONSET_SIZE sig sig')
    as (es' & E & Hctx' & _ & Hworld & Hlog & Hpk); [done..|].
  rewrite (cstr_id args) by apply ParsonPrint.ParsonPrint.json_text_nul_free.
  unfold sgxcc_invoke. rewrite (bool_decide_false (SGX_SUCCESS ≠ SGX_SUCCESS)) by (intros Hn; by apply Hn).
  cbn [cstr]. change args with (args_text (call_args c)). rewrite E. cbn [mbind res_bind].
  rewrite (bool_decide_false (SGX_SUCCESS ≠ 0)%Z) by (intros Hn; by apply Hn).
  change (rand_count (shim es0)) with (rand_count (shim es)) in Hworld. fold iv in Hworld.
  rewrite Hcw in Hworld.
  eexists stub2, _. split_and!.
  - unfold Get. rewrite Hworld. cbn [internal set_stub w1]. by rewrite lookup_insert_eq.
  - by rewrite Hrd2.
  - done.
  - exact Hctx'.
  - exact Hlog.
  - cbn. by rewrite Hworld.
  - cbn. by rewrite Hworld.
  - exact Hpk.
Qed.
End honest.

(** ** A concrete simulator

    It reads the committed entries of a ledger state, whose keys it translates,
    and records reads and writes. *)
Module ToySim.

Record sim := MkSim {
  sim_state : gmap bytes kvs_value_t;
  sim_reads : list (bytes * version_t);
  sim_writes : list (bytes * bytes) }.

(** The ledger's key for a key of the peer, and back. *)
Definition ledger_name (k : bytes) : bytes :=
  if bool_decide (peek k = x00) then bs "ecc" ++ TransformToSGX k else ecc_key k.
Definition peer_key (k : bytes) : bytes :=
  match SplitSGXCompositeKey (drop 3 k) with Some cs => fabric_composite cs | None => drop 4 k end.

(** The peer knows a key when the two translations agree on it. *)
#[export] Instance sim_view : Simulator sim := {
  state_db s k := if bool_decide (peer_key (ledger_name k) = k) then sim_state s !! ledger_name k else None;
  tx_reads := sim_reads;
  tx_writes := sim_writes }.

(** The entries of the peer. *)
Definition sim_items (m : list (bytes * kvs_value_t)) (prefix : bytes) : list (bytes * bytes) :=
  map (λ e, (peer_key e.1, e.2.1))
    (List.filter (λ e, bool_decide (ledger_name (peer_key e.1) = e.1) && starts_with prefix (peer_key e.1)) m).

#[export] Instance sim_stub : ShimStub sim := {
  GetState k s := if bool_decide (k = []) then None
    else Some (db_value (state_db s k), MkSim (sim_state s) (sim_reads s ++ [(k, db_version (state_db s k))]) (sim_writes s));
  PutState k v s := if bool_decide (k = []) then None
    else Some (MkSim (sim_state s) (sim_reads s) (sim_writes s ++ [(k, v)]));
  GetStateByPartialCompositeKey c cs s :=
    Some (sim_items (map_to_list (sim_state s)) (fabric_composite (c :: cs)), s);
  CreateCompositeKey c cs := fabric_composite (c :: cs) }.

Lemma sim_items_nodup m prefix : NoDup (map fst m) → NoDup (map fst (sim_items m prefix)).
Proof.
  induction m as [|e m IH]; [intros _; apply NoDup_nil_2|]. intros [Hni Hnd]%list.NoDup_cons. unfold sim_items in *. cbn [List.filter].
  destruct (bool_decide _ && _) eqn:E; [|by apply IH]. cbn [map fst]. apply list.NoDup_cons. split; [|by apply IH].
  apply andb_true_iff in E as [E%bool_decide_eq_true _].
  intros Hin. apply list_elem_of_In, in_map_iff in Hin as ([k v] & Hk & Hin).
  apply in_map_iff in Hin as (e' & [= <- <-] & [Hin He']%filter_In). cbn in Hk.
  apply andb_true_iff in He' as [He'%bool_decide_eq_true _]. apply Hni.
  rewrite <-E, <-Hk, He'. by apply list_elem_of_In, in_map.
Qed.

Lemma sim_items_elem s prefix k v :
  (k, v) ∈ sim_items (map_to_list (sim_state s)) prefix ↔
  starts_with prefix k = true ∧ ∃ ver, state_db s k = Some (v, ver).
Proof.
  unfold sim_items. cbn [state_db sim_view]. rewrite list_elem_of_In, in_map_iff. split.
  - intros ([lk [val ver]] & [= <- <-] & [Hin He]%filter_In).
    apply andb_true_iff in He as [He%bool_decide_eq_true Hp]. split; [done|]. exists ver. cbn in *.
    rewrite He, bool_decide_true by done. by apply elem_of_map_to_list, list_elem_of_In.
  - intros (Hp & ver & Hk). case_bool_decide as Hkk; [|done].
    exists (ledger_name k, (v, ver)). cbn [fst snd]. rewrite Hkk. split; [done|]. apply filter_In.
    cbn [fst]. rewrite Hkk, bool_decide_true by done. split; [|done].
    by apply list_elem_of_In, elem_of_map_to_list.
Qed.

#[export] Instance sim_laws : ShimLaws sim sim_stub sim_view.
Proof.
  split; [| |done|].
  - intros k s Hk _. eexists. cbn [GetState sim_stub]. rewrite bool_decide_false by done. split; [reflexivity|]. done.
  - intros k v s Hk _. eexists. cbn [PutState sim_stub]. rewrite bool_decide_false by done. split; [reflexivity|]. done.
  - intros c cs s _. eexists _, _. split; [reflexivity|]. split_and!; [done..| |intros; apply sim_items_elem].
    apply sim_items_nodup, NoDup_fst_map_to_list.
Qed.

Lemma ledger_name_form f : house_form f → ledger_name (fabric_key f) = ledger_key f.
Proof.
  intros [n (_ & (Hne & Hn & _) & _)|n b (_ & (Hne & Hn & _) & _) (_ & (Hneb & Hb & _) & _)];
    unfold ledger_name; cbn [fabric_key ledger_key].
  - rewrite bool_decide_false; [done|]. destruct Hn; done.
  - rewrite bool_decide_true by done. rewrite TransformToSGX_composite; [done|].
    repeat (apply List.Forall_cons; [try done; apply prefix_name|]); done.
Qed.

Lemma peer_key_form f : house_form f → peer_key (ledger_key f) = fabric_key f.
Proof.
  intros [n (Hd & (Hne & _) & _)|n b (Hdn & _) (Hdb & _)]; unfold peer_key.
  - change (drop 3 (ledger_key (Plain n))) with (x2e :: n). unfold SplitSGXCompositeKey, IsSGXCompositeKey.
    cbn [rev peek]. rewrite (bool_decide_false (peek (rev n ++ [x2e]) = x2e)); [by rewrite andb_false_r|].
    destruct (rev n) as [|c r] eqn:E; [by apply (f_equal (@rev byte)) in E; rewrite rev_involutive in E|].
    cbn. apply (Forall_rev (l := n)) in Hd. rewrite E in Hd. by apply Forall_cons_iff in Hd as [? _].
  - change (drop 3 _) with (composite_key [bs "somePrefix"; n; b]). rewrite Split_composite; [done..|].
    repeat (apply List.Forall_cons; [try done; apply prefix_name|]); done.
Qed.

(** The simulator of a peer that has seen the blocks of a ledger. *)
Definition sim_of {O : OpenSSL} (l : ledger_state) : sim := MkSim (abs (state l)) [] [].

Lemma sim_in_sync {O : OpenSSL} (l : ledger_state) : in_sync (sim_of l) l.
Proof.
  intros f Hf. cbn. rewrite ledger_name_form, peer_key_form, bool_decide_true by done. apply abs_lookup.
Qed.
End ToySim.
End PeerGlue.
