(* ===== verification/System.v ===== *)
(** * The whole system

    The chaincode enclave, the ledger enclave and a peer that runs the glue
    faithfully, composed: clients invoke the auction at a peer whose ledger may
    lag behind, the endorsed transactions are ordered into blocks, and the
    ledger enclave validates and commits them. The theorems state that every
    such block is accepted and that the records the ledger enclave holds
    (encrypted) are always those that a serial reference computes from the
    submitted calls in block order, whatever the interleaving of endorsement
    and commit, and that closed auctions are final. *)
From S2P Require Import Prelude Utils Base64 ParsonText ParsonPrint StdMap Sgx EccCrypto Shim AuctionJson Auction AuctionSpec.
From S2P Require Import Fabric Ledger LedgerProofs TlccEnclave EccEnclave HostLib Endorsement PeerGlue.
Import Utils Base64 ParsonText ParsonPrint StdMap Sgx EccCrypto Shim AuctionJson Auction AuctionSpec Fabric Ledger LedgerProofs
  TlccEnclave EccEnclave HostLib Endorsement PeerGlue.

Module System.

(** ** Encrypted records *)

Section records.
Context {C : Crypto} {L : CryptoLaws C}.

(** A record of the auction house and the ledger entry that holds it. *)
Definition cell (x : option bytes) (y : option kvs_value_t) : Prop :=
  match x, y with
  | None, None => True
  | Some t, Some (val, _) => ∃ iv, length iv = 12 ∧ (len t < 2 ^ 24)%Z ∧ val = stored t iv
  | _, _ => False
  end.

(** [lk] looks up ledger entries. *)
Definition represents (m : records) (lk : bytes → option kvs_value_t) : Prop := ∀ f, house_form f →
  cell (m !! form_key f) (lk (ledger_key f)).

(** Every ledger entry is under a key of the auction house. *)
Definition house_keys (lk : bytes → option kvs_value_t) : Prop := ∀ k x, lk k = Some x →
  ∃ f, house_form f ∧ k = ledger_key f.

Lemma stored_inj t t' iv iv' : length iv = 12 → length iv' = 12 → (len t < 2 ^ 24)%Z → (len t' < 2 ^ 24)%Z →
  stored t iv = stored t' iv' → t = t'.
Proof.
  intros H H' Hl Hl' E. unfold len in *. pose proof (open_stored t iv H ltac:(lia)) as U.
  rewrite E, open_stored in U by (done || lia). congruence.
Qed.

Lemma cell_fun x x' y : cell x y → cell x' y → x = x'.
Proof.
  destruct x as [t|], x' as [t'|], y as [[val v]|]; cbn; try done.
  intros (iv & Hiv & Hl & ->) (iv' & Hiv' & Hl' & E). f_equal. exact (stored_inj t t' iv iv' Hiv Hiv' Hl Hl' E).
Qed.

(** The keys of different records are different. *)
Lemma ledger_key_form f f' : house_form f → house_form f' → ledger_key f = ledger_key f' → f = f'.
Proof.
  assert (∀ n a b, dot_free n → ecc_key n ≠ bs "ecc" ++ composite_key [bs "somePrefix"; a; b]) as Hne.
  { intros n a b Hn E. unfold ecc_key in E. apply app_inv_head in E. injection E as ->.
    unfold dotted in Hn. cbn [map concat] in Hn. rewrite <-app_assoc in Hn.
    by apply Forall_app in Hn as [_ [? _]%Forall_cons_iff]. }
  intros [n [Hn _]|n b [Hn _] [Hb _]] [n' [Hn' _]|n' b' [Hn' _] [Hb' _]]; cbn [ledger_key]; intros E.
  - unfold ecc_key in E. apply app_inv_head in E. injection E as ->. done.
  - by apply Hne in E.
  - symmetry in E. by apply Hne in E.
  - apply app_inv_head in E.
    change (form_key (Composite [bs "somePrefix"; n; b]) = form_key (Composite [bs "somePrefix"; n'; b'])) in E.
    rewrite !bid_form_key in E. by apply bid_key_inj in E as [-> ->].
Qed.

Lemma form_key_form f f' : house_form f → house_form f' → form_key f = form_key f' → f = f'.
Proof.
  intros [n [Hn _]|n b [Hn _] [Hb _]] [n' [Hn' _]|n' b' [Hn' _] [Hb' _]]; rewrite ?bid_form_key; intros E.
  - cbn in E. by subst.
  - symmetry in E. by apply bid_key_not_name in E.
  - by apply bid_key_not_name in E.
  - by apply bid_key_inj in E as [-> ->].
Qed.

(** Writing a record on both sides. *)
Lemma represents_insert m lk lk' f t iv v : house_form f → represents m lk → length iv = 12 →
  (len t < 2 ^ 24)%Z → lk' (ledger_key f) = Some (stored t iv, v) →
  (∀ k, k ≠ ledger_key f → lk' k = lk k) → represents (<[form_key f := t]> m) lk'.
Proof.
  intros Hf Hr Hiv Hl Hk Hne f' Hf'. destruct (decide (ledger_key f' = ledger_key f)) as [E|E].
  - apply ledger_key_form in E as ->; [|done..]. rewrite lookup_insert_eq, Hk. by exists iv.
  - rewrite lookup_insert_ne; [rewrite Hne by done; by apply Hr|].
    intros E'. apply form_key_form in E' as ->; done.
Qed.

(** An auction with a short name has a record that fits the read buffer. *)
Definition MAX_NAME : nat := 100.

Lemma stored_fits n o iv : good_name n → length n <= MAX_NAME → length iv = 12 →
  length (stored (auction_text (MkAuction n o)) iv) < MAX_VALUE_SIZE.
Proof.
  intros (Hn & _ & _) Hl Hiv. unfold MAX_NAME in Hl.
  pose proof (quote_length n) as Hq. rewrite (cstr_id n Hn) in Hq.
  assert (length (auction_text (MkAuction n o)) <= 640) as Ht.
  { rewrite auction_text_eq. cbn [name is_open]. rewrite !length_app.
    change (length (quote (bs "name"))) with 6. change (length (quote (bs "is_open"))) with 9.
    destruct o; cbn [length bs]; simpl (length (bs _)); lia. }
  unfold stored, MAX_VALUE_SIZE.
  pose proof (b64_encode_length (sealed state_encryption_key (auction_text (MkAuction n o)) iv)) as Hb.
  rewrite sealed_length in Hb by done. apply Nat2Z.inj_lt. rewrite Hb. zdm.
Qed.

(** The record an invocation reads. *)
Lemma represents_record m (l : bytes → option kvs_value_t) n : house_inv m → represents m l → peer_name n → length n <= MAX_NAME →
  ∃ cur, record m n cur ∧ match cur with
    | None => l (ecc_key n) = None
    | Some au => good_name (name au) ∧ ∃ iv ver, length iv = 12 ∧
        length (stored (auction_text au) iv) < MAX_VALUE_SIZE ∧ l (ecc_key n) = Some (stored (auction_text au) iv, ver)
    end.
Proof.
  intros Hinv Hrep Hn Hl. pose proof (Hrep (Plain n) (house_auction n Hn)) as Hc. cbn [form_key ledger_key] in Hc.
  destruct (m !! n) as [t|] eqn:E, (l (ecc_key n)) as [[val ver]|] eqn:E'; cbn in Hc; try done.
  - destruct Hc as (iv & Hiv & _ & ->). destruct (Hinv n t) as (Hg & o & ->); [apply Hn|done|].
    exists (Some (MkAuction n o)). split; [done|]. split; [done|]. exists iv, ver. split_and!; [done| |done].
    by apply stored_fits.
  - by exists None.
Qed.
End records.

(** ** Transactions and blocks as the ledger enclave sees them *)

Section ledger.
Context {O : OpenSSL} {F : FabricPb}.
Implicit Types (s : ledger_state).

(** A certificate that does not fail to verify against the stored roots (its
    failure is reported through freed memory). *)
Definition cert_ok (roots : option (list X509)) (cert_bytes : bytes) : Prop :=
  match PEM_read_bio_X509 cert_bytes with None => True | Some cert => X509_verify_cert roots cert ≠ 0%Z end.

Lemma verify_signature_ok sig input cert roots : cert_ok roots cert →
  ∃ z, verify_signature sig input cert roots = Ok z.
Proof.
  unfold cert_ok, verify_signature. destruct (PEM_read_bio_X509 cert); [|eauto].
  intros H. rewrite bool_decide_false by done. eauto.
Qed.

(** [data] is the envelope of an endorser transaction with one action: the
    invocation with the first argument [args] and its [action]. *)
Inductive tx_envelope (roots : option (list X509)) (data args : bytes) (action : protos_ChaincodeAction)
  : Prop :=
  | tx_envelope_intro plb sig ch shd txb cr nonce idb txid apb ppb prb inb rest ext :
      decode_Envelope data = Some (MkEnvelope (Some plb) (Some sig)) →
      decode_Payload plb = Some (MkPayload (Some ch) (Some shd) (Some txb)) →
      decode_SignatureHeader shd = Some (MkSignatureHeader (Some cr) (Some nonce)) →
      decode_SerializedIdentity cr = Some (MkIdentity (Some idb)) → cert_ok roots idb →
      decode_ChannelHeader ch = Some (MkChannelHeader HT_ENDORSER_TRANSACTION (Some txid)) →
      decode_Transaction txb = Some (MkTransaction [Some apb]) →
      decode_ChaincodeActionPayload apb = Some (MkActionPayload (Some ppb) (Some prb)) →
      decode_ChaincodeProposalPayload ppb = Some (MkProposalPayload (Some inb)) →
      decode_ChaincodeInvocationSpec inb = Some (MkInvocationSpec (args :: rest)) →
      decode_ProposalResponsePayload prb = Some (MkResponsePayload (Some ext)) →
      decode_ChaincodeAction ext = Some action →
      tx_envelope roots data args action.

Definition add_events (evs : list event) s : ledger_state :=
  MkLedger (root_certs_orderer s) (root_certs_apps s) (state s) (lock s) (sequence_number s) (updates s)
    (events s ++ evs).

Lemma add_events_nil s : add_events [] s = s.
Proof. destruct s. unfold add_events. cbn. by rewrite app_nil_r. Qed.
Lemma add_events_app e1 e2 s : add_events e2 (add_events e1 s) = add_events (e1 ++ e2) s.
Proof. unfold add_events. cbn. by rewrite app_assoc. Qed.
Lemma event_log_add e s : event_log e s = Ok (inr tt, add_events [e] s).
Proof. done. Qed.

(** The signature check of an envelope or block only logs. *)
Lemma verify_and_log roots sig input cert (ev : bool → event) s : cert_ok roots cert →
  ∃ e, (r ← pure (verify_signature sig input cert roots);
        event_log (ev (bool_decide (r = 1)%Z))) s = Ok (inr tt, add_events [e] s).
Proof.
  intros H. destruct (verify_signature_ok sig input cert roots H) as [z E]. rewrite E. eexists. done.
Qed.

(** An envelope of a transaction passes the checks; what remains is its action. *)
Lemma envelope_checks_tx h data args action s : tx_envelope (root_certs_apps s) data args action →
  (0 < number h)%Z →
  ∃ evs chdr pl txb apb ppb prb inb rest ext,
    envelope_checks h data s = Ok (inr (chdr, pl), add_events evs s) ∧
    ch_type chdr = HT_ENDORSER_TRANSACTION ∧ pl_data pl = Some txb ∧
    decode_Transaction txb = Some (MkTransaction [Some apb]) ∧
    decode_ChaincodeActionPayload apb = Some (MkActionPayload (Some ppb) (Some prb)) ∧
    decode_ChaincodeProposalPayload ppb = Some (MkProposalPayload (Some inb)) ∧
    decode_ChaincodeInvocationSpec inb = Some (MkInvocationSpec (args :: rest)) ∧
    decode_ProposalResponsePayload prb = Some (MkResponsePayload (Some ext)) ∧
    decode_ChaincodeAction ext = Some action.
Proof.
  intros [plb sig ch shd txb cr nonce idb txid apb ppb prb inb rest ext H1 H2 H3 H4 Hc H5 H6 H7 H8 H9 H10 H11] Hn.
  destruct (verify_and_log (root_certs_apps s) sig (SHA256 plb) idb EnvelopeSignature s Hc) as [e He].
  pose (bad := bool_decide (strlen (bytes_to_hexstring (SHA256 (nonce ++ cr))) = strlen txid) &&
    negb (bool_decide (cstr (bytes_to_hexstring (SHA256 (nonce ++ cr))) = cstr txid))).
  exists ([e] ++ if bad then [IncorrectTxId] else []),
    (MkChannelHeader HT_ENDORSER_TRANSACTION (Some txid)), (MkPayload (Some ch) (Some shd) (Some txb)),
    txb, apb, ppb, prb, inb, rest, ext.
  split_and!; [|done..]. unfold envelope_checks.
  erewrite lm_bind_eq; [|unfold decode_pb; by rewrite H1]. cbn [env_payload env_signature].
  erewrite lm_bind_eq; [|done]. erewrite lm_bind_eq; [|unfold decode_pb; by rewrite H2].
  cbn [signature_header channel_header].
  erewrite lm_bind_eq; [|by apply decode_ptr_ok]. cbn [creator].
  erewrite lm_bind_eq; [|by apply decode_ptr_ok]. rewrite bool_decide_true by lia. cbn [id_bytes].
  erewrite lm_bind_eq; [|do 3 (erewrite lm_bind_eq; [|done]); exact He].
  erewrite lm_bind_eq; [|by apply decode_ptr_ok].
  rewrite (lm_bind_eq _ _ _ tt (add_events ([e] ++ if bad then [IncorrectTxId] else []) s)); [done|].
  rewrite (lm_bind_eq _ _ _ bad (add_events [e] s)) by done.
  destruct bad; [by rewrite event_log_add, add_events_app|done].
Qed.

(** A transaction the filter does not mark: its results are applied under the
    lock, to the ledger with some events added. *)
Lemma process_tx h filter i data args action results s :
  tx_envelope (root_certs_apps s) data args action → act_results action = Some results →
  (0 < number h)%Z → filter !! i ≠ Some x01 → lock s = false →
  ∃ evs, ∀ s', apply_results (MkVersion (number h) (Z.of_nat i)) args action results
                 (set_lock true (add_events evs s)) = Ok (inr tt, s') →
    process_envelope h filter i data s = Ok (inr tt, set_lock false s').
Proof.
  intros Htx Hres Hn Hf Hlk.
  destruct (envelope_checks_tx h data args action s Htx Hn)
    as (evs & chdr & pl & txb & apb & ppb & prb & inb & rest & ext & E & Hty & Hpl & H1 & H2 & H3 & H4 & H5 & H6).
  exists evs. intros s' Happ. unfold process_envelope. rewrite bool_decide_false by done.
  erewrite lm_bind_eq; [|exact E]. cbn [fst snd].
  erewrite lm_bind_eq; [|unfold spin_lock; cbn [lock add_events]; rewrite Hlk; done].
  erewrite lm_bind_eq; [done|]. unfold dispatch. rewrite Hty, Hpl.
  erewrite lm_bind_eq; [|done]. unfold ignore, parse_endorser_transaction.
  erewrite lm_bind_eq; [|unfold decode_pb; by rewrite H1]. cbn [actions fold].
  erewrite lm_bind_eq; [done|]. erewrite lm_bind_eq; [done|]. unfold process_action.
  erewrite lm_bind_eq; [|by apply decode_ptr_ok]. cbn [chaincode_proposal_payload proposal_response_payload].
  erewrite lm_bind_eq; [|by apply decode_ptr_ok]. cbn [pp_input].
  erewrite lm_bind_eq; [|by apply decode_ptr_ok]. cbn [spec_args].
  erewrite lm_bind_eq; [|by apply decode_ptr_ok]. cbn [extension].
  erewrite lm_bind_eq; [|by apply decode_ptr_ok]. by rewrite Hres.
Qed.

(** ** Reads, fresh and stale *)

Lemma conflict_or_fresh s k v : conflict s k v ∨ fresh_read s k v.
Proof.
  assert (∀ st, has_version_conflict k st v = 1%Z ∨ has_version_conflict k st v = 0%Z) as H.
  { intros st. unfold has_version_conflict. destruct (map_find k st) as [[val ver]|]; [|by right].
    case_bool_decide; auto. }
  unfold conflict, fresh_read. destruct (H (state s)), (H (updates s)); auto.
Qed.

Lemma older_conflict k st v x : map_find k st = Some x → (block_num v < block_num x.2)%Z →
  has_version_conflict k st v = 1%Z.
Proof.
  intros Hx Hv. unfold has_version_conflict, cmp_version. rewrite Hx. destruct x as [val ver]. cbn in Hv.
  rewrite (bool_decide_false (_ > _)%Z), (bool_decide_true (_ < _)%Z) by lia. done.
Qed.

Lemma same_version_fresh k st x : map_find k st = x → has_version_conflict k st (db_version x) = 0%Z.
Proof.
  intros <-. unfold has_version_conflict. destruct (map_find k st) as [[val ver]|]; [|done].
  cbn [db_version]. assert (cmp_version ver ver = 0%Z) as ->; [|done]. unfold cmp_version.
  rewrite (bool_decide_false (block_num _ > _)%Z), (bool_decide_false (block_num _ < _)%Z) by lia.
  by rewrite (bool_decide_false (tx_num _ > _)%Z), (bool_decide_false (tx_num _ < _)%Z) by lia.
Qed.

(** A read recorded against [l0] that is fresh in a later ledger: the entry has
    not changed since, and no transaction of the block wrote it. *)
Lemma fresh_unchanged l0 s k N : newer l0 s →
  (∀ x, map_find k (state l0) = Some x → (block_num x.2 < N)%Z) → (0 < N)%Z →
  (∀ x, map_find k (state s) = Some x → (0 < block_num x.2)%Z) →
  (∀ x, map_find k (updates s) = Some x → block_num x.2 = N) →
  fresh_read s k (db_version (map_find k (state l0))) →
  map_find k (updates s) = None ∧ map_find k (state s) = map_find k (state l0).
Proof.
  intros Hnew Hold HN Hpos Hup [Hst Hu].
  assert (block_num (db_version (map_find k (state l0))) < N)%Z as Hlt.
  { destruct (map_find k (state l0)) as [[val v]|] eqn:E; [|done]. by apply (Hold _ eq_refl). }
  split.
  - destruct (map_find k (updates s)) as [x|] eqn:E; [|done].
    rewrite (older_conflict k _ _ x) in Hu; [done..|]. by rewrite (Hup x).
  - destruct (map_find k (state l0)) as [x|] eqn:E.
    + destruct (Hnew k x E) as (x' & Hx' & [->|Hlt']); [done|].
      rewrite (older_conflict k _ _ x') in Hst; [done..|]. by destruct x.
    + destruct (map_find k (state s)) as [x|] eqn:E'; [|done].
      rewrite (older_conflict k _ _ x) in Hst; [done..|]. by apply Hpos.
Qed.

(** The transaction of a chaincode with a single stale read is only logged. *)
Lemma stale_results v args action results rw e s k ver :
  decode_TxReadWriteSet results = Some (MkTxRwset [MkNsRwset (Some (bs "ecc")) (Some rw)]) →
  decode_KVRWSet rw = Some (er_fabric e) → er_ranges e = [] → er_reads e = [(k, ver)] → nul_free k →
  conflict s (ecc_key k) ver →
  apply_results v args action results s = Ok (inr tt, add_events [InvalidReadSet] s).
Proof.
  intros Htx Hkv Hra Hre Hk Hc. unfold apply_results, decode_pb. rewrite Htx.
  erewrite lm_bind_eq; [|done]. cbn [ns_rwsets fold].
  rewrite (lm_bind_eq _ _ _ (false, set_insert k []) s); [done|].
  erewrite lm_bind_eq; [done|]. unfold ns_reads. cbn [rwset ns].
  erewrite lm_bind_eq; [|by apply decode_ptr_ok]. erewrite lm_bind_eq; [|done].
  change (cstr (bs "ecc")) with (bs "ecc"). unfold er_fabric. cbn [range_queries_info reads].
  rewrite Hra, Hre. cbn [map fold]. erewrite lm_bind_eq; [|done]. cbn [plain_reads map fold fst snd].
  erewrite lm_bind_eq; [done|]. unfold plain_read. cbn [read_key read_version].
  erewrite lm_bind_eq; [|done]. rewrite (cstr_id k Hk).
  erewrite lm_bind_eq; [|by apply check_read_conflict]. done.
Qed.
End ledger.

(** ** The serial reference

    What the channel should do with the calls its clients submitted, without
    enclaves, keys, versions or read sets: a record and the number of the block
    that wrote it under every key, and the calls of a block one after the
    other. *)

Abbreviation stamped := (gmap bytes (bytes * Z)).
Definition records_of (a : stamped) : records := fst <$> a.

(** The auction recorded under a name. *)
Definition auction_at (m : records) (n : bytes) : option auction_t :=
  if decide (m !! n = Some (auction_text (MkAuction n true))) then Some (MkAuction n true)
  else if decide (m !! n = Some (auction_text (MkAuction n false))) then Some (MkAuction n false) else None.

(** A call endorsed after block [j]. It comes too late when its auction was
    written in a later block or earlier in this one, block [N]; a record that a
    call of this block already wrote is not written again; otherwise the call
    has the effect its specification gives it on the records as they are now. A
    transaction marked as invalid, [None], has no effect. *)
Definition late (j : Z) (c : call) (a : stamped) : bool :=
  match a !! call_auction c with Some (_, n) => bool_decide (j < n)%Z | None => false end.

Definition serial_tx (N : Z) (t : option (Z * call)) (a : stamped) : stamped :=
  match t with
  | None => a
  | Some (j, c) =>
      if late j c a then a
      else match (call_spec c (auction_at (records_of a) (call_auction c))).2 with
           | None => a
           | Some (k, text) => if decide (snd <$> a !! k = Some N) then a else <[k := (text, N)]> a
           end
  end.

Definition serial_block (N : Z) (txs : list (option (Z * call))) (a : stamped) : stamped :=
  fold_left (λ a t, serial_tx N t a) txs a.

(** The blocks of a log, the last one first. *)
Definition serial_run (log : list (Z * list (option (Z * call)))) : stamped :=
  foldr (λ b a, serial_block b.1 b.2 a) ∅ log.

Lemma auction_at_record m n cur : house_inv m → dot_free n → record m n cur → auction_at m n = cur.
Proof.
  intros Hinv Hn. unfold auction_at. destruct cur as [au|]; cbn [record].
  - intros Hr. pose proof (house_inv_record m n au Hinv Hn Hr) as En. destruct Hr as [E Hg].
    destruct au as [n' o]. cbn in En. subst n'. rewrite !E. destruct o.
    + by rewrite decide_True.
    + rewrite decide_False, decide_True; [done..|].
      intros E'. apply (inj Some) in E'. by apply auction_text_inj in E'.
  - intros ->. by rewrite !decide_False.
Qed.

(** ** Endorsed transactions *)

Section system.
Context {C : Crypto} {L : CryptoLaws C} {PL : Platform} {PLL : PlatformLaws PL}.
Context {O : OpenSSL} {F : FabricPb} {SH : SameHash C O}.
Context {S : Type} {SS : ShimStub S} {SIM : Simulator S} {SL : ShimLaws S SS SIM}.
Implicit Types (s l : ledger_state) (m : records) (stub : S).

(** The read and write set of a simulated transaction without range queries. *)
Definition fabric_rwset stub : kvrwset_KVRWSet :=
  MkRwset [] (plain_reads (tx_reads stub)) (map (λ p, MkWrite (Some p.1) (Some p.2)) (tx_writes stub)).

(** [data] is the envelope of a transaction that a peer in the state of the
    ledger [l0] endorsed for the call [c]: the arguments, what the chaincode
    enclave returned, and the read and write set of the simulation. *)
Inductive endorsed (l0 : ledger_state) (roots : option (list X509)) (data : bytes) (c : call) : Prop :=
  | endorsed_intro ctx (es es' : enclave_state (world S)) stub stub' response sig action results payload
      sig_der pk_der rw :
      call_ok c → call_peer c → length (call_auction c) <= MAX_NAME →
      context (shim es) !! ctx = None → ledger (tlcc (Shim.world (shim es))) = l0 →
      (∀ d, (ecdsa_sign d (enclave_sk es)).1 = SGX_SUCCESS) →
      in_sync stub l0 → tx_reads stub = [] → tx_writes stub = [] →
      Invoke (args_text (call_args c)) [] stub ctx es = Ok (Some (response, sig), Some stub', es') →
      tx_envelope roots data (args_text (call_args c)) action →
      act_chaincode_name action = Some (bs "ecc") →
      act_results action = Some results → act_response_payload action = Some payload →
      unmarshal_ecc_response payload = Ok (response, sig_der, pk_der) →
      decode_TxReadWriteSet results = Some (MkTxRwset [MkNsRwset (Some (bs "ecc")) (Some rw)]) →
      decode_KVRWSet rw = Some (fabric_rwset stub') →
      endorsed l0 roots data c.

(** The ledger enclave holds the records [m], encrypted. *)
Record sys_inv l m : Prop := {
  si_ledger : ledger_inv l;
  si_pos : ∀ k x, map_find k (state l) = Some x → (0 < block_num x.2)%Z;
  si_rep : represents m (λ k, map_find k (state l));
  si_house : house_inv m;
  si_keys : house_keys (λ k, map_find k (state l)) }.

Lemma inv_record l m n : sys_inv l m → peer_name n → length n <= MAX_NAME →
  ∃ cur, record m n cur ∧ committed_record l n cur.
Proof. intros [_ _ Hrep Hh _] Hn Hl. by apply (represents_record m (λ k, map_find k (state l)) n). Qed.

Lemma call_rwset_fabric c cur iv ver :
  er_fabric (call_er c cur iv ver) =
  MkRwset [] (plain_reads [(call_auction c, ver)])
    (map (λ p, MkWrite (Some p.1) (Some p.2)) (call_write c cur iv)).
Proof. unfold er_fabric, call_er, call_write. cbn. by destruct (call_spec c cur).2 as [[k plain]|]. Qed.

(** What the transaction contains, from the specification of its call. *)
Lemma endorsed_inv l0 m0 roots data c : sys_inv l0 m0 → endorsed l0 roots data c →
  ∃ cur iv action results payload rw response sig_der pk_der,
    call_ok c ∧ call_peer c ∧ record m0 (call_auction c) cur ∧ length iv = 12 ∧
    tx_envelope roots data (args_text (call_args c)) action ∧
    act_chaincode_name action = Some (bs "ecc") ∧
    act_results action = Some results ∧ act_response_payload action = Some payload ∧
    unmarshal_ecc_response payload = Ok (response, sig_der, pk_der) ∧ response = (call_spec c cur).1 ∧
    decode_TxReadWriteSet results = Some (MkTxRwset [MkNsRwset (Some (bs "ecc")) (Some rw)]) ∧
    decode_KVRWSet rw = Some (er_fabric (call_er c cur iv
      (db_version (map_find (ecc_key (call_auction c)) (state l0))))).
Proof.
  intros Hinv [ctx es es' stub stub' response sig action results payload sig_der pk_der rw
    Hc Hp Hl Hctx Hled Hsign Hsync Hr Hw Hi Htx Hn Hres Hpay Hun Hdr Hkv].
  destruct (inv_record l0 m0 (call_auction c) Hinv) as (cur & Hrec & Hcom); [by apply call_peer_auction|done|].
  pose (iv := rand_iv (rand_count (shim es))).
  pose (d := sha256 (invocation_bytes (args_text (call_args c)) (call_spec c cur).1 (call_rwset c cur iv))).
  destruct (swap_halves_ok (ecdsa_sign d (enclave_sk es)).2) as (sig' & Hsw & _); [apply signature_length|].
  destruct (Invoke_auction c cur ctx es stub l0 (ecdsa_sign d (enclave_sk es)).2 sig')
    as (stub1 & es1 & Hi' & Hrd & Hwr & _); try done.
  { destruct Hinv as [[]]. done. }
  { rewrite <-(Hsign d). by destruct (ecdsa_sign _ _). }
  rewrite Hi in Hi'. injection Hi' as -> _ <- _.
  exists cur, iv, action, results, payload, rw, (call_spec c cur).1, sig_der, pk_der.
  split_and!; try done; [apply rand_iv_length|].
  rewrite Hkv, call_rwset_fabric. unfold fabric_rwset. by rewrite Hrd, Hwr.
Qed.

Lemma call_peer_nonempty c : call_peer c → call_nonempty c.
Proof. destruct c as [n|n b v|n]; cbn; [by intros (_ & (? & _) & _)|by intros [(_ & (? & _) & _) (_ & (? & _) & _)]|by intros (_ & (? & _) & _)]. Qed.

Lemma call_peer_dot_free c : call_peer c → call_dot_free c.
Proof. destruct c as [n|n b v|n]; cbn; [by intros []|by intros [[] []]|by intros []]. Qed.

(** The ledger's verdict on an endorsed transaction, in any state: it is only
    logged when its read is stale, and its write becomes an update otherwise. *)
Definition verdict (c : call) (cur : option auction_t) (iv : bytes) (ver v : version_t) s s' : Prop :=
  ∃ evs, conflict s (ecc_key (call_auction c)) ver ∧ s' = add_events evs s ∨
         fresh_read s (ecc_key (call_auction c)) ver ∧
         s' = add_events evs (set_updates (er_update (call_er c cur iv ver) v (updates s)) s).

Lemma endorsed_verdict l0 m0 h filter i data c s : sys_inv l0 m0 →
  endorsed l0 (root_certs_apps s) data c → (0 < number h)%Z → filter !! i ≠ Some x01 → lock s = false →
  ∃ cur iv s', call_ok c ∧ call_peer c ∧ record m0 (call_auction c) cur ∧ length iv = 12 ∧
    process_envelope h filter i data s = Ok (inr tt, s') ∧
    verdict c cur iv (db_version (map_find (ecc_key (call_auction c)) (state l0)))
      (MkVersion (number h) (Z.of_nat i)) s s'.
Proof.
  intros Hinv He Hn Hf Hlk.
  destruct (endorsed_inv l0 m0 _ data c Hinv He)
    as (cur & iv & action & results & payload & rw & response & sig & pk & Hc & Hp & Hrec & Hiv & Htx & Hname &
        Hres & Hpay & Hun & -> & Hdr & Hkv).
  set (ver := db_version _) in *. set (v := MkVersion _ _).
  destruct (process_tx h filter i data _ action results s Htx Hres Hn Hf Hlk) as [evs Hproc].
  set (s1 := set_lock true (add_events evs s)) in *.
  assert (nul_free (call_auction c)) as Hnf by (by apply call_auction_nul_free).
  destruct (conflict_or_fresh s1 (ecc_key (call_auction c)) ver) as [Hcf|Hfr].
  - exists cur, iv, (set_lock false (add_events [InvalidReadSet] s1)). split_and!; try done.
    + apply Hproc. by eapply stale_results.
    + exists (evs ++ [InvalidReadSet]). left. split; [exact Hcf|].
      rewrite <-add_events_app. unfold set_lock, add_events, s1. cbn. by rewrite Hlk.
  - eexists cur, iv, _. split_and!; try done.
    + apply Hproc. apply (ledger_checks_hash v (args_text (call_args c)) action results rw
        (call_er c cur iv ver) s1 [call_auction c] (call_spec c cur).1 sig pk payload); try done.
      * apply call_er_ok; [done|by apply call_peer_nonempty|done].
      * apply sorted_cons. split; constructor.
    + eexists (evs ++ [EccSignature _]). right. split; [exact Hfr|].
      rewrite <-add_events_app. unfold set_lock, add_events, set_updates, s1. cbn. by rewrite Hlk.
Qed.

(** ** Inside a block *)

(** The entries as the rest of the block sees them. *)
Definition eff (up st : kvs_t) (k : bytes) : option kvs_value_t :=
  match map_find k up with Some x => Some x | None => map_find k st end.

(** The stamps of the reference are the block numbers of the entries. *)
Definition stamps (a : stamped) (lk : bytes → option kvs_value_t) : Prop := ∀ f, house_form f →
  snd <$> a !! form_key f = (λ x : kvs_value_t, block_num x.2) <$> lk (ledger_key f).

Record in_block (h : common_BlockHeader) m s : Prop := {
  ib_lock : lock s = false;
  ib_updates : map_ok (updates s);
  ib_versions : ∀ k x, map_find k (updates s) = Some x → block_num x.2 = number h;
  ib_pos : ∀ k x, map_find k (state s) = Some x → (0 < block_num x.2 < number h)%Z;
  ib_rep : represents m (eff (updates s) (state s));
  ib_house : house_inv m;
  ib_keys : house_keys (eff (updates s) (state s)) }.

(** What a block leaves alone until it is committed. *)
Definition same_base s s' : Prop :=
  state s' = state s ∧ root_certs_orderer s' = root_certs_orderer s ∧
  root_certs_apps s' = root_certs_apps s ∧ sequence_number s' = sequence_number s.

(** Writing a record in a block stamps it. *)
Lemma stamps_write a up st c val v k t : call_peer c → form_key (call_form c) = k → map_ok up →
  map_find (ledger_key (call_form c)) up = None → stamps a (eff up st) →
  stamps (<[k := (t, block_num v)]> a) (eff (map_insert (ledger_key (call_form c)) (val, v) up) st).
Proof.
  intros Hp <- Hok Hnone Hst f Hf. unfold eff. rewrite map_find_insert, Hnone by done.
  pose proof (call_form_house c Hp) as Hc. case_bool_decide as E.
  - apply ledger_key_form in E as ->; [|done..]. by rewrite lookup_insert_eq.
  - rewrite lookup_insert_ne; [by apply Hst|]. intros E'. by apply E; apply form_key_form in E' as <-.
Qed.

(** A write of the specification, on the records and in the updates. *)
Lemma represents_write c cur iv ver v m up st : call_ok c → call_peer c → length iv = 12 →
  (∀ au, cur = Some au → good_name (name au)) → map_ok up → map_find (ledger_key (call_form c)) up = None →
  represents m (eff up st) →
  represents (apply_write (call_spec c cur).2 m) (eff (er_update (call_er c cur iv ver) v up) st).
Proof.
  intros Hc Hp Hiv Hg Hok Hnone Hrep. rewrite call_er_update.
  destruct (call_spec c cur).2 as [[k plain]|] eqn:E; cbn [apply_write]; [|done].
  rewrite <-(call_form_key c cur k plain E).
  eapply (represents_insert m (eff up st) _ (call_form c) plain iv v); try done.
  - by apply call_form_house.
  - by eapply spec_plain_length.
  - unfold eff. rewrite map_find_insert by done. rewrite Hnone. by rewrite bool_decide_true.
  - intros k' Hk'. unfold eff. rewrite map_find_insert by done. rewrite Hnone. by rewrite bool_decide_false.
Qed.

Lemma in_block_events h m evs s : in_block h m s → in_block h m (add_events evs s).
Proof. intros []. by split. Qed.

(** The reference does to its records what the ledger does to its entries when
    a transaction passes the check of its read. *)
Lemma serial_fresh h m s c cur iv ver v j a : in_block h m s → call_peer c → record m (call_auction c) cur →
  block_num v = number h → records_of a = m → stamps a (eff (updates s) (state s)) → late j c a = false →
  let a' := serial_tx (number h) (Some (j, c)) a in
  records_of a' = match map_find (ledger_key (call_form c)) (updates s) with
                  | Some _ => m | None => apply_write (call_spec c cur).2 m end ∧
  stamps a' (eff (er_update (call_er c cur iv ver) v (updates s)) (state s)).
Proof.
  intros [Hlk Hok Hver Hpos Hrep Hh Hks] Hp Hrec Hv Ha Hst Hlate a'. unfold a', serial_tx. rewrite call_er_update.
  rewrite Hlate, Ha, (auction_at_record m _ cur) by (try done; by apply call_peer_auction).
  destruct (call_spec c cur).2 as [[k plain]|] eqn:E; cbn [apply_write]; [|by case_match].
  pose proof (call_form_key c cur k plain E) as Hk. pose proof (Hst _ (call_form_house c Hp)) as Hs.
  rewrite Hk in Hs. unfold eff in Hs. rewrite Hs.
  destruct (map_find (ledger_key (call_form c)) (updates s)) as [x|] eqn:Ex.
  - rewrite decide_True by (cbn; by rewrite (Hver _ x Ex)). split; [done|].
    rewrite map_insert_present by eauto. done.
  - rewrite decide_False.
    + split; [unfold records_of in *; by rewrite fmap_insert, Ha|]. rewrite <-Hv. by apply stamps_write.
    + destruct (map_find _ (state s)) as [y|] eqn:Ey; [|done]. cbn. intros [= Hy].
      pose proof (Hpos _ y Ey). lia.
Qed.

(** A fresh transaction of a block. *)
Lemma fresh_step h m s c cur iv ver v : in_block h m s → call_ok c → call_peer c → length iv = 12 →
  record m (call_auction c) cur → block_num v = number h →
  let m' := match map_find (ledger_key (call_form c)) (updates s) with
            | Some _ => m | None => apply_write (call_spec c cur).2 m end in
  in_block h m' (set_updates (er_update (call_er c cur iv ver) v (updates s)) s) ∧ (m' = m ∨ spec_step m m').
Proof.
  intros [Hlk Hok Hver Hpos Hrep Hh Hks] Hc Hp Hiv Hrec Hv m'. unfold m'. clear m'.
  destruct (map_find (ledger_key (call_form c)) (updates s)) as [x|] eqn:E.
  - split; [|by left].
    assert (er_update (call_er c cur iv ver) v (updates s) = updates s) as ->; [|by destruct s; split].
    rewrite call_er_update. destruct (call_spec c cur).2 as [[k plain]|]; [|done].
    by apply map_insert_present; eauto.
  - assert (spec_step m (apply_write (call_spec c cur).2 m)) as Hstep
      by (constructor; [done|by apply call_peer_dot_free|done]).
    split; [|by right]. split; cbn [lock updates state set_updates]; try done.
    + rewrite call_er_update.
      destruct (call_spec c cur).2 as [[k plain]|]; [by apply map_ok_insert|done].
    + intros k x. rewrite call_er_update.
      destruct (call_spec c cur).2 as [[k' plain]|]; [|apply Hver].
      rewrite map_find_insert, E by done. case_bool_decide; [by intros [= <-]|apply Hver].
    + apply represents_write; try done. intros au ->. by destruct Hrec.
    + by eapply spec_step_inv.
    + intros k x. unfold eff. rewrite call_er_update.
      destruct (call_spec c cur).2 as [[k' plain]|]; [|apply Hks].
      rewrite map_find_insert, E by done. case_bool_decide as Ek; [|apply Hks].
      intros _. exists (call_form c). split; [by apply call_form_house|done].
Qed.

(** Nothing entered the ledger since [l0] but what later blocks wrote. *)
Definition since (l0 s : ledger_state) : Prop := ∀ k x, map_find k (state s) = Some x →
  map_find k (state l0) = Some x ∨ (sequence_number l0 < block_num x.2)%Z.

(** The ledger's check of a read is the reference's check of the stamp. *)
Lemma late_conflict l0 m0 h m s c a : sys_inv l0 m0 → newer l0 s → since l0 s →
  (sequence_number l0 < number h)%Z → (0 < number h)%Z → in_block h m s → call_peer c →
  stamps a (eff (updates s) (state s)) →
  (conflict s (ecc_key (call_auction c)) (db_version (map_find (ecc_key (call_auction c)) (state l0))) →
     late (sequence_number l0) c a = true) ∧
  (fresh_read s (ecc_key (call_auction c)) (db_version (map_find (ecc_key (call_auction c)) (state l0))) →
     late (sequence_number l0) c a = false).
Proof.
  intros Hinv Hnew Hsince Hseq Hpos Hb Hp Hst. unfold late.
  pose proof (Hst _ (house_auction _ (call_peer_auction c Hp))) as Ha. cbn [form_key ledger_key] in Ha.
  set (k := ecc_key (call_auction c)) in *. unfold eff in Ha. split.
  - intros Hcf. destruct (map_find k (updates s)) as [x|] eqn:Ex.
    + destruct (a !! call_auction c) as [[t n]|]; [|done]. injection Ha as ->.
      rewrite (ib_versions _ _ _ Hb k x Ex). by apply bool_decide_eq_true.
    + destruct Hcf as [Hcf|Hcf]; [|unfold has_version_conflict in Hcf; by rewrite Ex in Hcf].
      destruct (map_find k (state s)) as [x|] eqn:Es; [|unfold has_version_conflict in Hcf; by rewrite Es in Hcf].
      destruct (a !! call_auction c) as [[t n]|]; [|done]. injection Ha as ->.
      destruct (Hsince k x Es) as [E|Hlt]; [|by apply bool_decide_eq_true].
      rewrite (same_version_fresh k (state s)) in Hcf; [done|by rewrite Es, E].
  - intros Hfr. destruct (fresh_unchanged l0 s k (number h)) as [Hnone Hsame]; try done.
    { intros x Hx. destruct (inv_versions _ (si_ledger _ _ Hinv) _ x Hx). lia. }
    { intros x Hx. by apply (ib_pos _ _ _ Hb k x). } { apply Hb. }
    rewrite Hnone, Hsame in Ha. destruct (a !! call_auction c) as [[t n]|]; [|done].
    destruct (map_find k (state l0)) as [x|] eqn:E; [|done]. injection Ha as ->.
    apply bool_decide_eq_false. destruct (inv_versions _ (si_ledger _ _ Hinv) _ x E). lia.
Qed.

(** One transaction of a block: nothing, or a call of the specification on the
    records as they are now, as the reference says. *)
Lemma tx_step l0 m0 m h filter i data c s : sys_inv l0 m0 → newer l0 s → since l0 s →
  (sequence_number l0 < number h)%Z →
  (0 < number h)%Z → in_block h m s → endorsed l0 (root_certs_apps s) data c → filter !! i ≠ Some x01 →
  ∃ s' m', process_envelope h filter i data s = Ok (inr tt, s') ∧ in_block h m' s' ∧ same_base s s' ∧
    (m' = m ∨ spec_step m m') ∧
    ∀ a, records_of a = m → stamps a (eff (updates s) (state s)) →
      records_of (serial_tx (number h) (Some (sequence_number l0, c)) a) = m' ∧
      stamps (serial_tx (number h) (Some (sequence_number l0, c)) a) (eff (updates s') (state s')).
Proof.
  intros Hinv Hnew Hsince Hseq Hpos Hb He Hf.
  destruct (endorsed_verdict l0 m0 h filter i data c s)
    as (cur & iv & s' & Hc & Hp & Hrec & Hiv & Hproc & evs & Hverdict); [try done; apply Hb..|].
  assert (∀ a, stamps a (eff (updates s) (state s)) → _) as Hlate
    by exact (λ a, late_conflict l0 m0 h m s c a Hinv Hnew Hsince Hseq Hpos Hb Hp).
  destruct Hverdict as [[Hcf ->]|[Hfr ->]].
  - eexists _, m. split_and!; [exact Hproc|by apply in_block_events|done|by left|].
    intros a Ha Hst. cbn [serial_tx]. by rewrite (proj1 (Hlate a Hst) Hcf).
  - destruct (fresh_unchanged l0 s (ecc_key (call_auction c)) (number h)) as [Hnone Hsame]; try done.
    { intros x Hx. destruct (inv_versions _ (si_ledger _ _ Hinv) _ x Hx). lia. }
    { intros x Hx. by apply (ib_pos _ _ _ Hb _ x Hx). } { apply Hb. }
    assert (record m (call_auction c) cur) as Hrec'.
    { pose proof (ib_rep _ _ _ Hb (Plain (call_auction c))) as H1.
      pose proof (si_rep _ _ Hinv (Plain (call_auction c))) as H2.
      cbn [form_key ledger_key] in *. unfold eff in H1. rewrite Hnone, Hsame in H1.
      assert (m !! call_auction c = m0 !! call_auction c) as E.
      { eapply cell_fun; [apply H1|apply H2]; by apply house_auction, call_peer_auction. }
      destruct cur; cbn in *; by rewrite E. }
    destruct (fresh_step h m s c cur iv (db_version (map_find (ecc_key (call_auction c)) (state l0)))
      (MkVersion (number h) (Z.of_nat i)) Hb Hc Hp Hiv Hrec' eq_refl) as (Hb' & Hm').
    eexists _, _. split_and!; [exact Hproc|by apply in_block_events|done|done|].
    intros a Ha Hst. by apply (serial_fresh h m s c cur iv); [..|apply (Hlate a Hst)].
Qed.

(** ** Blocks *)

(** A block signature whose parts decode. *)
Definition block_sig_ok (roots : option (list X509)) (ms : common_MetadataSignature) : Prop :=
  ∃ sh sig cr nonce idb, ms = MkMetadataSignature (Some sh) (Some sig) ∧
    decode_SignatureHeader sh = Some (MkSignatureHeader (Some cr) nonce) ∧
    decode_SerializedIdentity cr = Some (MkIdentity (Some idb)) ∧ cert_ok roots idb.

(** The transaction [data] and what the reference makes of it: nothing when the
    filter marks it as invalid, otherwise a call that a peer endorsed in one of
    the states [known], with the number of the last block of that state. *)
Definition submitted (known : ledger_state → Prop) (roots : option (list X509)) (flag : option byte)
  (data : bytes) (t : option (Z * call)) : Prop :=
  match t with
  | None => flag = Some x01
  | Some (j, c) => flag ≠ Some x01 ∧
      ∃ l0, known l0 ∧ sequence_number l0 = j ∧ endorsed l0 roots data c
  end.

(** The next block of a channel on which only the auction runs, with the
    transactions [txs]. *)
Inductive honest_block (known : ledger_state → Prop) s (txs : list (option (Z * call))) (b : bytes) : Prop :=
  | honest_block_intro block md value sigs fl :
      decode_Block b = Some block →
      number (header block) = (sequence_number s + 1)%Z → (number (header block) < 2 ^ 32 - 1)%Z →
      block_metadata block !! 0 = Some md → decode_Metadata md = Some (MkMetadata value sigs) →
      Forall (block_sig_ok (root_certs_orderer s)) sigs →
      block_metadata block !! 2 = Some fl → length fl <= length (block_data block) →
      length txs = length (block_data block) →
      (∀ i data t, block_data block !! i = Some data → txs !! i = Some t →
         submitted known (root_certs_apps s) (fl !! i) data t) →
      honest_block known s txs b.

Lemma signatures_logged h value sigs s : Forall (block_sig_ok (root_certs_orderer s)) sigs →
  ∃ evs, fold (check_block_signature h value) tt sigs s = Ok (inr tt, add_events evs s).
Proof.
  intros H. revert s H. induction sigs as [|ms sigs IH]; intros s H.
  { exists []. by rewrite add_events_nil. }
  apply Forall_cons_iff in H as [(sh & sig & cr & nonce & idb & -> & H1 & H2 & Hc) H]. cbn [fold].
  destruct (verify_and_log (root_certs_orderer s) sig (SHA256 (value ++ sh ++ block_header2DER h)) idb
    BlockSignature s Hc) as [e He].
  destruct (IH (add_events [e] s) H) as [evs Hevs]. exists ([e] ++ evs). rewrite <-add_events_app.
  erewrite lm_bind_eq; [exact Hevs|]. unfold check_block_signature. cbn [ms_signature_header ms_signature].
  erewrite lm_bind_eq; [|done]. erewrite lm_bind_eq; [|unfold decode_pb; by rewrite H1]. cbn [creator].
  erewrite lm_bind_eq; [|by apply decode_ptr_ok]. do 3 (erewrite lm_bind_eq; [|done]). exact He.
Qed.

Lemma block_checks_ok block s md value sigs fl :
  block_metadata block !! 0 = Some md → decode_Metadata md = Some (MkMetadata value sigs) →
  Forall (block_sig_ok (root_certs_orderer s)) sigs →
  block_metadata block !! 2 = Some fl → length fl <= length (block_data block) →
  ∃ evs, block_checks block s =
    Ok (inr (fl ++ repeat x00 (length (block_data block) - length fl)), add_events evs s).
Proof.
  intros H0 Hmd Hsigs H2 Hlen.
  destruct (signatures_logged (header block) (default [] value) sigs s Hsigs) as [evs Hevs].
  exists evs. unfold block_checks. erewrite lm_bind_eq; [|unfold read_at; rewrite H0; done].
  erewrite lm_bind_eq; [|unfold decode_pb; by rewrite Hmd]. cbn [md_value md_signatures].
  erewrite lm_bind_eq; [|exact Hevs]. erewrite lm_bind_eq; [|unfold read_at; rewrite H2; done].
  unfold tx_filter.
  replace (repeat x00 (length (block_data block)))
    with (repeat x00 (length fl) ++ repeat x00 (length (block_data block) - length fl))
    by (by rewrite <-repeat_app; f_equal; lia).
  rewrite store_prefix by (by rewrite repeat_length). done.
Qed.

(** What the states in which transactions were endorsed are to a later one. *)
Record earlier (l0 s : ledger_state) : Prop := {
  ea_newer : newer l0 s;
  ea_since : since l0 s;
  ea_inv : ∃ m0, sys_inv l0 m0 }.

Lemma earlier_base l0 s s' : state s' = state s → earlier l0 s → earlier l0 s'.
Proof. intros E [Hn Hs Hi]. split; [..|done]; intros k x; rewrite E; [apply Hn|apply Hs]. Qed.

(** One transaction of a block, marked or not. *)
Lemma marked_step (known : ledger_state → Prop) h filter i data t s m : in_block h m s → (0 < number h)%Z →
  (∀ l0, known l0 → earlier l0 s ∧ (sequence_number l0 < number h)%Z) →
  submitted known (root_certs_apps s) (filter !! i) data t →
  ∃ s' m', process_envelope h filter i data s = Ok (inr tt, s') ∧ in_block h m' s' ∧ same_base s s' ∧
    rtc spec_step m m' ∧
    ∀ a, records_of a = m → stamps a (eff (updates s) (state s)) →
      records_of (serial_tx (number h) t a) = m' ∧ stamps (serial_tx (number h) t a) (eff (updates s') (state s')).
Proof.
  intros Hb Hn Hk. destruct t as [[j c]|]; cbn [submitted].
  - intros (Hf & l0 & Hl0 & <- & He). destruct (Hk l0 Hl0) as ([Hnew Hsince [m0 Hinv]] & Hseq).
    destruct (tx_step l0 m0 m h filter i data c s) as (s1 & m1 & E & Hb1 & Hbase & Hm1 & Ha); [done..|].
    exists s1, m1. split_and!; try done. destruct Hm1 as [->|Hm1]; [done|by apply rtc_once].
  - intros Hf. exists s, m. split_and!; try done. unfold process_envelope. by rewrite bool_decide_true.
Qed.

(** The transactions of a block, in order. *)
Lemma txs_step (known : ledger_state → Prop) h filter datas : ∀ i s m txs, in_block h m s → (0 < number h)%Z →
  (∀ l0, known l0 → earlier l0 s ∧ (sequence_number l0 < number h)%Z) → length txs = length datas →
  (∀ j data t, datas !! j = Some data → txs !! j = Some t →
     submitted known (root_certs_apps s) (filter !! (i + j)) data t) →
  ∃ s' m', process_envelopes h filter i datas s = Ok (inr tt, s') ∧ in_block h m' s' ∧ same_base s s' ∧
    rtc spec_step m m' ∧
    ∀ a, records_of a = m → stamps a (eff (updates s) (state s)) →
      records_of (serial_block (number h) txs a) = m' ∧
      stamps (serial_block (number h) txs a) (eff (updates s') (state s')).
Proof.
  induction datas as [|data datas IH]; intros i s m [|t txs] Hb Hn Hk Hlen Hl; try discriminate;
    cbn [process_envelopes].
  { exists s, m. split_and!; try done. }
  destruct (marked_step known h filter i data t s m) as (s1 & m1 & E & Hb1 & (Hst & Ho & Ha & Hs) & Hm1 & Hser1);
    [done..|rewrite <-(Nat.add_0_r i); by apply (Hl 0)|].
  erewrite lm_bind_eq; [|exact E].
  destruct (IH (Datatypes.S i) s1 m1 txs) as (s2 & m2 & E2 & Hb2 & (Hst2 & Ho2 & Ha2 & Hs2) & Hm2 & Hser2); try done.
  - intros l0 Hl0. destruct (Hk l0 Hl0) as [? ?]. split; [by eapply earlier_base|done].
  - by injection Hlen.
  - intros j d t' Hj Ht. rewrite Ha. replace (Datatypes.S i + j) with (i + Datatypes.S j) by lia.
    by apply (Hl (Datatypes.S j)).
  - exists s2, m2. split_and!; [done..| |by etrans|]. { split_and!; congruence. }
    intros a Hra Hsa. destruct (Hser1 a Hra Hsa) as [Hra1 Hsa1]. exact (Hser2 _ Hra1 Hsa1).
Qed.

(** The ledger after a block whose transactions left [s2]. *)
Definition committed (n : Z) s2 : ledger_state :=
  MkLedger (root_certs_orderer s2) (root_certs_apps s2) (apply_updates (updates s2) (state s2)) false n
    (updates s2) (events s2).

(** A block that passes the checks is committed. *)
Lemma block_commit known s txs b : ledger_inv s → honest_block known s txs b →
  ∃ block filter s1, decode_Block b = Some block ∧
    number (header block) = (sequence_number s + 1)%Z ∧ (number (header block) < 2 ^ 32 - 1)%Z ∧
    length txs = length (block_data block) ∧
    (∀ i data t, block_data block !! i = Some data → txs !! i = Some t →
       submitted known (root_certs_apps s) (filter !! i) data t) ∧
    same_base s s1 ∧ updates s1 = [] ∧ lock s1 = false ∧
    ∀ s2, process_envelopes (header block) filter 0 (block_data block) s1 = Ok (inr tt, s2) →
      lock s2 = false → sequence_number s2 = sequence_number s →
      parse_block b s = Ok (LEDGER_SUCCESS, committed (sequence_number s + 1) s2).
Proof.
  intros [Hlk _ Hseq _] [block md value sigs fl Hd Hn Hmax H0 Hmd Hsigs H2 Hlen Hlt Htx].
  destruct (block_checks_ok block s md value sigs fl) as [evs Hchk]; [done..|].
  set (filter := fl ++ repeat x00 _) in *.
  assert (∀ i, filter !! i = Some x01 ↔ fl !! i = Some x01) as Hfl.
  { intros i. unfold filter. rewrite lookup_app. destruct (fl !! i) as [x|] eqn:E; [done|].
    split; [|done]. intros H%list_elem_of_lookup_2%list_elem_of_In%repeat_spec. done. }
  exists block, filter, (set_updates [] (add_events evs s)). split_and!; try done.
  - intros i data t Hi Ht. specialize (Htx i data t Hi Ht). unfold submitted in *.
    destruct t as [[j c]|]; by rewrite Hfl.
  - intros s2 E Hlk2 Hseq2. unfold parse_block, code, parse_block_body.
    assert (u32 (number (header block)) = (sequence_number s + 1)%Z) as Hu
      by (unfold u32; rewrite Hn, Z.mod_small; lia).
    erewrite lm_bind_eq; [|unfold decode_pb; by rewrite Hd]. erewrite lm_bind_eq; [|done].
    rewrite (bool_decide_true (_ = u32 (sequence_number s + 1))) by (by rewrite Hn). cbn [negb].
    erewrite lm_bind_eq; [|exact Hchk]. erewrite lm_bind_eq; [|done]. erewrite lm_bind_eq; [|exact E].
    erewrite lm_bind_eq; [|apply commit_eq; [done|congruence]]. by rewrite Hu.
Qed.

(** What holds after the commit. *)
Lemma committed_inv s m b z h m' s2 : sys_inv s m → number_ok b →
  parse_block b s = Ok (z, committed (number h) s2) → (0 < number h)%Z → map_ok (state s2) → in_block h m' s2 →
  sys_inv (committed (number h) s2) m' ∧ newer s (committed (number h) s2).
Proof.
  intros Hinv Hnum Hp Hn Hst [Hlk Hok Hver Hpos Hrep Hh Hks].
  destruct (next_block_inv s (committed (number h) s2)) as [Hl Hnew];
    [by econstructor|apply Hinv|]. split; [|done]. split; [done|..|done|].
  - intros k x. cbn [state committed]. rewrite apply_updates_find by done.
    destruct (map_find k (updates s2)) as [y|] eqn:E; [|apply Hpos]. intros [= <-]. by rewrite (Hver k y).
  - intros f Hf. cbn [state committed]. rewrite apply_updates_find by done. by apply Hrep.
  - intros k x. cbn [state committed]. rewrite apply_updates_find by done. apply Hks.
Qed.

Lemma in_block_start h s m s1 : sys_inv s m → (sequence_number s < number h)%Z → same_base s s1 →
  updates s1 = [] → lock s1 = false → in_block h m s1.
Proof.
  intros [Hl Hpos Hrep Hh Hks] Hn (Hst & _) Hu Hlk.
  split; rewrite ?Hu, ?Hst; try done; [apply map_ok_nil|].
  intros k x Hx. pose proof (Hpos k x Hx). destruct (inv_versions _ Hl k x Hx). lia.
Qed.

(** The states that were earlier ones before a block are so after it. *)
Lemma committed_earlier l0 s h m' s2 : earlier l0 s → state s2 = state s → map_ok (state s) → in_block h m' s2 →
  (sequence_number l0 < number h)%Z → newer s (committed (number h) s2) → earlier l0 (committed (number h) s2).
Proof.
  intros [Hn Hs Hi] Hst Hms [_ Hok Hver _ _ _ _] Hlt Hnew. split; [by eapply newer_trans| |done].
  intros k x. cbn [state committed]. rewrite Hst, apply_updates_find by done.
  destruct (map_find k (updates s2)) as [y|] eqn:E; [|apply Hs].
  intros [= <-]. right. by rewrite (Hver k y).
Qed.

Lemma block_step (known : ledger_state → Prop) s m txs b : sys_inv s m →
  (∀ l0, known l0 → earlier l0 s ∧ (sequence_number l0 <= sequence_number s)%Z) →
  honest_block known s txs b →
  ∃ s' m', parse_block b s = Ok (LEDGER_SUCCESS, s') ∧ sys_inv s' m' ∧ rtc spec_step m m' ∧
    (∀ l0, known l0 → earlier l0 s') ∧ sequence_number s' = (sequence_number s + 1)%Z ∧
    ∀ a, records_of a = m → stamps a (λ k, map_find k (state s)) →
      records_of (serial_block (sequence_number s + 1) txs a) = m' ∧
      stamps (serial_block (sequence_number s + 1) txs a) (λ k, map_find k (state s')).
Proof.
  intros Hinv Hk Hb. pose proof (si_ledger _ _ Hinv) as Hl.
  destruct (block_commit known s txs b Hl Hb)
    as (block & filter & s1 & Hd & Hn & Hmax & Hlen & Htx & Hbase & Hu & Hlk & Hcommit).
  pose proof (inv_seq _ Hl) as Hseq. pose proof Hbase as (Hst & _ & Ha & Hsn).
  destruct (txs_step known (header block) filter (block_data block) 0 s1 m txs)
    as (s2 & m' & E & Hb2 & (Hst2 & _ & _ & Hsn2) & Hm & Hser); try done.
  - eapply in_block_start; [done|lia|done..].
  - lia.
  - intros l0 Hl0. destruct (Hk l0 Hl0) as [He Hs0]. split; [by eapply earlier_base|lia].
  - intros j data t. rewrite Ha. apply Htx.
  - specialize (Hcommit s2 E (ib_lock _ _ _ Hb2) ltac:(congruence)). rewrite <-Hn in Hcommit |- *.
    destruct (committed_inv s m b LEDGER_SUCCESS (header block) m' s2) as [Hinv' Hnew']; try done.
    { intros blk Hblk. rewrite Hd in Hblk. injection Hblk as <-. lia. } { lia. }
    { rewrite Hst2, Hst. apply Hl. }
    exists (committed (number (header block)) s2), m'. split_and!; try done.
    + intros l0 Hl0. destruct (Hk l0 Hl0) as [He Hs0].
      apply (committed_earlier l0 s (header block) m' s2); try done; [congruence|apply Hl|lia].
    + intros a Hra Hsa. rewrite Hu, Hst in Hser. destruct (Hser a Hra Hsa) as [H1 H2]. split; [done|].
      intros f Hf. rewrite (H2 f Hf). cbn [state committed].
      rewrite apply_updates_find; [done|apply Hb2|rewrite Hst2, Hst; apply Hl].
Qed.

(** ** Runs of the system *)

(** From the ledger after the genesis block, blocks arrive whose transactions
    were endorsed against any earlier state; [hist] lists the earlier states
    and [log] the numbers and transactions of the blocks, the last ones
    first. *)
Inductive system_run : list ledger_state → list (Z * list (option (Z * call))) → ledger_state → Prop :=
  | run_start s : ledger_inv s → state s = [] → system_run [] [] s
  | run_block hist log s txs b s' : system_run hist log s → honest_block (λ l, l ∈ s :: hist) s txs b →
      parse_block b s = Ok (LEDGER_SUCCESS, s') →
      system_run (s :: hist) ((sequence_number s + 1, txs)%Z :: log) s'.

Lemma empty_house : house_inv ∅.
Proof. intros n t _ H. by rewrite lookup_empty in H. Qed.

Lemma start_inv s : ledger_inv s → state s = [] → sys_inv s ∅.
Proof.
  intros Hl Hs. split; [done|..|apply empty_house|].
  - intros k x. by rewrite Hs.
  - intros f _. by rewrite lookup_empty, Hs.
  - intros k x. by rewrite Hs.
Qed.

(** Every state of a run holds the records of the reference, which are those of
    a sequential run of the specification that goes on from the records of the
    states before. *)
Record run_inv (hist : list ledger_state) (log : list (Z * list (option (Z * call)))) s m : Prop := {
  ri_inv : sys_inv s m;
  ri_serial : records_of (serial_run log) = m;
  ri_stamps : stamps (serial_run log) (λ k, map_find k (state s));
  ri_spec : rtc spec_step ∅ m;
  ri_hist l : l ∈ hist → earlier l s ∧ (sequence_number l <= sequence_number s)%Z ∧
    ∃ ml, sys_inv l ml ∧ rtc spec_step ml m }.

Lemma run_known hist log s m l : run_inv hist log s m → l ∈ s :: hist →
  earlier l s ∧ (sequence_number l <= sequence_number s)%Z ∧ ∃ ml, sys_inv l ml ∧ rtc spec_step ml m.
Proof.
  intros [Hinv _ _ _ Hh] [->|Hl]%elem_of_cons; [|by apply Hh]. split_and!; [|done|by exists m].
  split; [intros k x Hx; eauto|intros k x Hx; by left|eauto].
Qed.

Lemma run_block_step hist log s m txs b : run_inv hist log s m → honest_block (λ l, l ∈ s :: hist) s txs b →
  ∃ s' m', parse_block b s = Ok (LEDGER_SUCCESS, s') ∧
    run_inv (s :: hist) ((sequence_number s + 1, txs)%Z :: log) s' m'.
Proof.
  intros Hr Hb.
  destruct (block_step (λ l, l ∈ s :: hist) s m txs b) as (s' & m' & Hp & Hinv & Hm & He & Hseq & Hser);
    [apply Hr| |done|].
  { intros l0 Hl0. destruct (run_known _ _ _ _ _ Hr Hl0) as (? & ? & _). done. }
  destruct (Hser (serial_run log) (ri_serial _ _ _ _ Hr) (ri_stamps _ _ _ _ Hr)) as [Hrec Hst].
  exists s', m'. split; [done|]. split; [done|done|done|etrans; [apply Hr|done]|].
  intros l Hl. destruct (run_known _ _ _ _ _ Hr Hl) as (_ & Hsl & ml & Hil & Hml).
  split_and!; [by apply He|lia|]. exists ml. split; [done|by etrans].
Qed.

Lemma run_has_inv hist log s : system_run hist log s → ∃ m, run_inv hist log s m.
Proof.
  induction 1 as [s Hl Hs|hist log s txs b s' _ [m IH] Hb Hp].
  - exists ∅. split; [by apply start_inv|apply fmap_empty| |done|].
    + intros f _. cbn [serial_run foldr]. by rewrite lookup_empty, Hs.
    + intros l Hl'. by apply not_elem_of_nil in Hl'.
  - destruct (run_block_step hist log s m txs b IH Hb) as (s1 & m' & Hp' & Hr).
    rewrite Hp in Hp'. injection Hp' as <-. by exists m'.
Qed.

(** C1: the system refines the serial reference. In every state of a run from the
    empty ledger, in which blocks carry create, submit and close transactions
    that peers in step with the ledger enclave endorsed in any earlier state
    of the run, the ledger enclave holds, encrypted under the names the
    chaincode uses, exactly the records that the transactions of the blocks
    give when the reference applies them in block order: a transaction has no
    effect when it is marked, when its auction was written since its
    endorsement, or when the record it writes was already written in its
    block, and the effect of its call on the current records otherwise. These
    are records of a sequential run of the specification, and the next honest
    block is always accepted. *)
Theorem system_serializable hist log s : system_run hist log s →
  represents (records_of (serial_run log)) (λ k, map_find k (state s)) ∧
  house_keys (λ k, map_find k (state s)) ∧
  rtc spec_step ∅ (records_of (serial_run log)) ∧
  ∀ txs b, honest_block (λ l, l ∈ s :: hist) s txs b →
    ∃ s', parse_block b s = Ok (LEDGER_SUCCESS, s').
Proof.
  intros [m Hr]%run_has_inv. rewrite (ri_serial _ _ _ _ Hr). pose proof (ri_inv _ _ _ _ Hr) as Hinv.
  split_and!; [apply Hinv|apply Hinv|apply Hr|].
  - intros txs b Hb. destruct (run_block_step hist log s m txs b Hr Hb) as (s' & m' & Hp & _). eauto.
Qed.

(** The plaintext of an entry of the ledger. *)
Definition plain_at (k : bytes) s : option bytes := (λ x, plaintext x.1) <$> map_find k (state s).

Lemma cell_plain x y : cell x y → (λ z : kvs_value_t, plaintext z.1) <$> y = x.
Proof.
  destruct x as [t|], y as [[val v]|]; cbn; try done. intros (iv & Hiv & Hl & ->).
  unfold plaintext, len in *. rewrite open_stored by (done || lia). done.
Qed.

Lemma represents_plain m s f : represents m (λ k, map_find k (state s)) → house_form f →
  plain_at (ledger_key f) s = m !! form_key f.
Proof. intros Hr Hf. by apply cell_plain, Hr. Qed.

End system.

(** ** Concrete runs

    Three blocks: one that creates the auction [A], one in which Bob bids and
    the auction is closed, both endorsed in the same state, and an empty one. *)
Module ToySystem.
Export ToySim.
#[export] Existing Instances Toy.toy_crypto Toy.toy_laws ToyPlatform.toy_platform ToyPlatform.toy_platform_laws
  ToyFabric.toy_openssl toy_same_hash.

Definition A : bytes := bs "A".
Definition open_A : auction_t := MkAuction A true.
Definition tx_call (b : bytes) : call :=
  if bool_decide (b = bs "bid") then Submit A (bs "Bob") 30
  else if bool_decide (b = bs "close") then Close A else Create A.
Definition tx_record (b : bytes) : option auction_t :=
  if bool_decide (b = bs "bid") then Some open_A
  else if bool_decide (b = bs "close") then Some open_A else None.
Definition tx_version (b : bytes) : version_t :=
  if bool_decide (b = bs "bid") then MkVersion 1 0
  else if bool_decide (b = bs "close") then MkVersion 1 0 else MkVersion 0 0.

Definition sample_block (n : Z) (data : list bytes) : common_Block :=
  MkBlock (MkBlockHeader n [] []) [bs "sigs"; []; map (λ _, x00) data] data.

(** Messages that only wrap another one are the identity on bytes. *)
#[export] Instance sample_pb : FabricPb := {|
  decode_Block b := if bool_decide (b = bs "b1") then Some (sample_block 1 [bs "create"])
                    else if bool_decide (b = bs "b2") then Some (sample_block 2 [bs "bid"; bs "close"])
                    else if bool_decide (b = bs "b3") then Some (sample_block 3 []) else None;
  decode_Metadata _ := Some (MkMetadata None [MkMetadataSignature (Some (bs "orderer")) (Some [])]);
  decode_SignatureHeader b := Some (MkSignatureHeader (Some b) (Some (bs "nonce")));
  decode_SerializedIdentity b :=
    Some (MkIdentity (Some (if bool_decide (b = bs "orderer") then bs "orderer" else bs "tx")));
  decode_Envelope b := Some (MkEnvelope (Some b) (Some []));
  decode_Payload b := Some (MkPayload (Some b) (Some b) (Some b));
  decode_ChannelHeader b := Some (MkChannelHeader HT_ENDORSER_TRANSACTION (Some b));
  decode_ConfigEnvelope _ := None;
  decode_MSPConfig _ := None;
  decode_FabricMSPConfig _ := None;
  decode_Transaction b := Some (MkTransaction [Some b]);
  decode_ChaincodeActionPayload b := Some (MkActionPayload (Some b) (Some b));
  decode_ChaincodeProposalPayload b := Some (MkProposalPayload (Some b));
  decode_ChaincodeInvocationSpec b := Some (MkInvocationSpec [args_text (call_args (tx_call b))]);
  decode_ProposalResponsePayload b := Some (MkResponsePayload (Some b));
  decode_ChaincodeAction b := Some (MkAction (Some b) (Some sample_payload) (Some (bs "ecc")));
  decode_TxReadWriteSet b := Some (MkTxRwset [MkNsRwset (Some (bs "ecc")) (Some b)]);
  decode_KVRWSet b := Some (er_fabric (call_er (tx_call b) (tx_record b) (rand_iv 0) (tx_version b))) |}.

Definition roots : option (list X509) := Some [bs "tx"].
Definition peer_enclave (l : ledger_state) : enclave_state (world sim) :=
  initialised (MkWorld 0 ∅ ∅ (MkTlcc (loaded tt) l) false).

Lemma sample_envelope b : b ≠ bs "orderer" →
  tx_envelope roots b (args_text (call_args (tx_call b))) (MkAction (Some b) (Some sample_payload) (Some (bs "ecc"))).
Proof.
  intros Hb. eapply tx_envelope_intro; try reflexivity. cbn [decode_SerializedIdentity sample_pb].
  rewrite bool_decide_false by done. discriminate.
Qed.

Lemma sample_payload_ok : unmarshal_ecc_response sample_payload = Ok (OK, sample_sig, sample_pk).
Proof. vm_compute. reflexivity. Qed.

(** The two transactions are endorsed where the ledger holds what they read. *)
Lemma sample_endorsed l m b : sys_inv l m → b ≠ bs "orderer" → committed_record l A (tx_record b) →
  db_version (map_find (ecc_key A) (state l)) = tx_version b → endorsed l roots b (tx_call b).
Proof.
  intros Hinv Hb Hrec Hver.
  assert (call_ok (tx_call b)) as Hc by (unfold tx_call; repeat case_bool_decide; by_evaluation).
  assert (peer_name A) as HA by by_evaluation.
  assert (call_peer (tx_call b)) as Hp.
  { unfold tx_call. repeat case_bool_decide; [split; [exact HA|by_evaluation]|exact HA..]. }
  assert (call_auction (tx_call b) = A) as Ha by (unfold tx_call; by repeat case_bool_decide).
  assert ((call_spec (tx_call b) (tx_record b)).1 = OK) as Hok
    by (unfold tx_call, tx_record; by repeat case_bool_decide).
  set (d := sha256 (invocation_bytes (args_text (call_args (tx_call b))) (call_spec (tx_call b) (tx_record b)).1
    (call_rwset (tx_call b) (tx_record b) (rand_iv 0)))).
  destruct (swap_halves_ok (ecdsa_sign d (enclave_sk (peer_enclave l))).2) as (sig' & Hsw & _);
    [apply (signature_length (PlatformLaws := ToyPlatform.toy_platform_laws))|].
  destruct (Invoke_auction (tx_call b) (tx_record b) 7 (peer_enclave l) (sim_of l) l
    (ecdsa_sign d (enclave_sk (peer_enclave l))).2 sig') as (stub' & es' & Hi & Hrd & Hwr & _);
    [exact Hc|exact Hp|reflexivity|reflexivity|apply Hinv|apply sim_in_sync|reflexivity|reflexivity
    |by rewrite Ha|reflexivity|exact Hsw|].
  eapply (endorsed_intro l roots b (tx_call b) 7 (peer_enclave l) es' (sim_of l) stub');
    [done|done|rewrite Ha; apply Nat.leb_le; reflexivity|reflexivity|reflexivity|reflexivity|apply sim_in_sync|reflexivity
    |reflexivity|exact Hi|by apply sample_envelope|reflexivity|reflexivity|reflexivity| |reflexivity|].
  - rewrite Hok. exact sample_payload_ok.
  - cbn [decode_KVRWSet sample_pb]. rewrite call_rwset_fabric. unfold fabric_rwset.
    rewrite Hrd, Hwr, Ha, Hver. done.
Qed.

(** A block of the channel over known states. *)
Lemma sample_honest (known : ledger_state → Prop) (s : ledger_state) b n data txs :
  decode_Block b = Some (sample_block n data) → n = (sequence_number s + 1)%Z → (n < 2 ^ 32 - 1)%Z →
  root_certs_orderer s = Some [bs "orderer"] →
  length txs = length data →
  (∀ i d t, data !! i = Some d → txs !! i = Some t →
     submitted (S := sim) known (root_certs_apps s) (Some x00) d t) →
  honest_block (S := sim) known s txs b.
Proof.
  intros Hd Hn Hmax Ho Hlen Htx. eapply (honest_block_intro known s txs b (sample_block n data)); try done.
  - constructor; [|constructor]. eexists _, _, _, _, _. split_and!; try reflexivity.
    rewrite Ho. discriminate.
  - cbn [block_data sample_block]. by rewrite length_map.
  - intros i d t Hi Ht. cbn [block_data sample_block] in Hi. rewrite list_lookup_fmap, Hi. by apply (Htx i).
Qed.

Lemma start_run : system_run (S := sim) [] [] at_genesis.
Proof.
  apply run_start; [|reflexivity]. split; [reflexivity|constructor|split; [discriminate|reflexivity]|discriminate].
Qed.

Lemma genesis_inv : sys_inv at_genesis ∅.
Proof.
  apply start_inv; [|reflexivity]. split; [reflexivity|constructor|split; [discriminate|reflexivity]|discriminate].
Qed.

(** The transactions of the three blocks. *)
Definition txs_1 : list (option (Z * call)) := [Some (0%Z, Create A)].
Definition txs_2 : list (option (Z * call)) := [Some (1%Z, Submit A (bs "Bob") 30); Some (1%Z, Close A)].

Lemma b1_honest : honest_block (S := sim) (λ l, l ∈ [at_genesis]) at_genesis txs_1 (bs "b1").
Proof.
  apply (sample_honest _ _ _ 1 [bs "create"]); [reflexivity..|].
  intros [|i] d t Hd Ht; [|discriminate Hd]. injection Hd as <-. injection Ht as <-.
  split; [discriminate|]. exists at_genesis. split; [by apply list_elem_of_singleton|]. split; [reflexivity|].
  by apply (sample_endorsed at_genesis ∅ (bs "create") genesis_inv).
Qed.

(** The value the first block stores, and the ledger after a block. *)
Definition created : bytes := stored (auction_text open_A) (rand_iv 0).
Definition after (b : bytes) (s : ledger_state) : ledger_state :=
  match parse_block b s with Ok (_, s') => s' | _ => s end.

Lemma run_after hist log (s : ledger_state) txs b : system_run (S := sim) hist log s →
  honest_block (S := sim) (λ l, l ∈ s :: hist) s txs b →
  parse_block b s = Ok (LEDGER_SUCCESS, after b s) ∧
  system_run (S := sim) (s :: hist) ((sequence_number s + 1, txs)%Z :: log) (after b s).
Proof.
  intros Hr Hb. destruct (run_has_inv _ _ _ Hr) as [m Hi].
  destruct (run_block_step hist log s m txs b Hi Hb) as (s' & m' & E & _).
  assert (parse_block b s = Ok (LEDGER_SUCCESS, after b s)) as E' by (unfold after; by rewrite E).
  split; [done|]. by apply (run_block hist log s txs b).
Qed.

Definition at_b1 : ledger_state := after (bs "b1") at_genesis.
Definition log_1 : list (Z * list (option (Z * call))) := [(1%Z, txs_1)].
Lemma run_b1 : system_run (S := sim) [at_genesis] log_1 at_b1.
Proof. apply (run_after [] [] at_genesis txs_1 (bs "b1") start_run b1_honest). Qed.
Lemma at_b1_state : state at_b1 = [(ecc_key A, (created, MkVersion 1 0))].
Proof. reflexivity. Qed.

Lemma b2_endorsed b : b ≠ bs "orderer" → tx_record b = Some open_A → tx_version b = MkVersion 1 0 →
  endorsed (S := sim) at_b1 roots b (tx_call b).
Proof.
  intros Hb Hrec Hver. destruct (run_has_inv _ _ _ run_b1) as [m [Hinv _ _ _ _]].
  apply (sample_endorsed at_b1 m b Hinv); [done| |by rewrite at_b1_state, Hver].
  rewrite Hrec. split; [by_evaluation|]. exists (rand_iv 0), (MkVersion 1 0). rewrite at_b1_state.
  split; [reflexivity|]. split; [apply Nat.ltb_lt; vm_compute; reflexivity|reflexivity].
Qed.

Lemma b2_honest : honest_block (S := sim) (λ l, l ∈ [at_b1; at_genesis]) at_b1 txs_2 (bs "b2").
Proof.
  apply (sample_honest _ _ _ 2 [bs "bid"; bs "close"]); [reflexivity..|].
  intros [|[|i]] d t Hd Ht; [..|discriminate Hd]; injection Hd as <-; injection Ht as <-;
    (split; [discriminate|]; exists at_b1; split; [apply list_elem_of_here|]; split; [reflexivity|]).
  - by apply (b2_endorsed (bs "bid")).
  - by apply (b2_endorsed (bs "close")).
Qed.

(** The auction is closed by the second block; the third one is empty. *)
Definition at_b2 : ledger_state := after (bs "b2") at_b1.
Definition log_2 : list (Z * list (option (Z * call))) := (2%Z, txs_2) :: log_1.
Lemma run_b2 : system_run (S := sim) [at_b1; at_genesis] log_2 at_b2.
Proof. apply (run_after _ _ at_b1 txs_2 (bs "b2") run_b1 b2_honest). Qed.
Lemma at_b2_state : state at_b2 =
  [(ecc_key A, (stored (auction_text (MkAuction A false)) (rand_iv 0), MkVersion 2 1));
   (bs "ecc" ++ bid_key A (bs "Bob"), (stored (bid_text (MkBid (bs "Bob") 30)) (rand_iv 0), MkVersion 2 0))].
Proof. reflexivity. Qed.

Lemma b3_honest : honest_block (S := sim) (λ l, l ∈ [at_b2; at_b1; at_genesis]) at_b2 [] (bs "b3").
Proof. apply (sample_honest _ _ _ 3 []); [reflexivity..|]. intros i d t Hd. discriminate Hd. Qed.

Definition at_b3 : ledger_state := after (bs "b3") at_b2.
Definition log_3 : list (Z * list (option (Z * call))) := (3%Z, []) :: log_2.
Lemma run_b3 : system_run (S := sim) [at_b2; at_b1; at_genesis] log_3 at_b3.
Proof. apply (run_after _ _ at_b2 [] (bs "b3") run_b2 b3_honest). Qed.
End ToySystem.

Import ToySystem.

Lemma system_serializable_witness :
  represents (records_of (serial_run log_2)) (λ k, map_find k (state at_b2)) ∧
  records_of (serial_run log_2) !! A = Some (auction_text (MkAuction A false)) ∧
  records_of (serial_run log_2) !! bid_key A (bs "Bob") = Some (bid_text (MkBid (bs "Bob") 30)) ∧
  ∃ s', parse_block (bs "b3") at_b2 = Ok (LEDGER_SUCCESS, s').
Proof.
  destruct (system_serializable [at_b1; at_genesis] log_2 at_b2 run_b2) as (H1 & _ & _ & H2).
  split; [exact H1|]. split; [vm_compute; reflexivity|]. split; [vm_compute; reflexivity|].
  exact (H2 [] (bs "b3") b3_honest).
Defined.

End System.
