(* ===== verification/Evaluation.v ===== *)
(** * Evaluating an auction in the whole system

    The answer of the glue to a range query is JSON text that is put together
    without escaping: it is parsed back to the entries it was made from. With
    it, [auction_eval] through the glue and the ledger enclave returns the
    winner among the bids the ledger holds. *)
From S2P Require Import Prelude Utils Base64 Cdouble ParsonText Parson ParsonParse ParsonPrint ParsonRoundtrip.
From S2P Require Import StdMap Sgx EccCrypto Shim AuctionJson Auction AuctionSpec.
From S2P Require Import Fabric Ledger LedgerProofs TlccEnclave EccEnclave HostLib Endorsement PeerGlue System.
Import Utils Base64 ParsonText Parson ParsonParse ParsonPrint ParsonRoundtrip StdMap Sgx EccCrypto Shim AuctionJson
  Auction AuctionSpec Fabric Ledger LedgerProofs TlccEnclave EccEnclave HostLib Endorsement PeerGlue System.

Module Evaluation.

(** ** Unescaped strings *)

Lemma raw_nul_free s : raw s → nul_free s.
Proof. intros H. eapply list.Forall_impl; [exact H|]. by intros c (_ & _ & Hc) ->. Qed.

Lemma skip_quotes_raw s rest : raw s → skip_quotes_loop (s ++ x22 :: rest) = Some rest.
Proof.
  induction 1 as [|c s (H1 & H2 & H3) _ IH]; [done|]. cbn [app skip_quotes_loop].
  by rewrite !bool_decide_false by (done || by intros ->).
Qed.

Lemma process_string_raw s rest : raw s → ∀ fuel out, length s <= fuel →
  process_string_loop fuel (s ++ rest) (length s) out = Ok (Some (out ++ s)).
Proof.
  induction 1 as [|c s (H1 & H2 & H3) _ IH]; intros [|f] out Hf; cbn [length] in Hf; try lia;
    [by rewrite app_nil_r..|].
  cbn [length process_string_loop app peek advance tail].
  rewrite !bool_decide_false by (done || by intros ->). destruct (Z.ltb_spec (b2z c) 32); [lia|].
  rewrite IH by lia. by rewrite <-app_assoc.
Qed.

Lemma quoted_raw s rest : raw s → get_quoted_string (x22 :: s ++ x22 :: rest) = Ok (Some (s, rest)).
Proof.
  intros Hs. unfold get_quoted_string. cbn [skip_quotes]. rewrite skip_quotes_raw by done.
  unfold process_string. cbn [drop]. rewrite drop_0.
  replace (_ - _ - 2) with (length s) by (cbn [length]; rewrite length_app; cbn [length]; lia).
  by rewrite process_string_raw.
Qed.

Lemma parse_raw_string f s rest n : raw s → n <= MAX_NESTING →
  parse_value (S f) (x22 :: s ++ x22 :: rest) n = Ok (Some (JSONString s, rest)).
Proof.
  intros Hs Hn. rewrite parse_value_at by done. rewrite !bool_decide_false, bool_decide_true by done.
  unfold parse_string_value. by rewrite quoted_raw.
Qed.

(** ** The answer to a range query *)

(** An entry of the answer, and the object it is parsed to. *)
Definition item_raw (item : bytes * bytes) : Prop := raw (TransformToSGX item.1) ∧ raw item.2.
Definition item_value (item : bytes * bytes) : JSON_Value :=
  JSONObject (MkObject [(bs "key", JSONString (TransformToSGX item.1)); (bs "value", JSONString item.2)] 2).

Lemma member_step f o k v rest n : raw k → raw v → n <= MAX_NESTING → nul_free k →
  Forall nul_free (names (obj_pairs o)) → k ∉ names (obj_pairs o) →
  ∃ o', obj_pairs o' = obj_pairs o ++ [(k, JSONString v)] ∧
    parse_object_loop (S (S f)) o (x22 :: k ++ x22 :: x3a :: x22 :: v ++ x22 :: rest) n =
    (let s2 := skip_whitespaces rest in
     if negb (bool_decide (peek s2 = x2c)) then finish_object o' s2
     else parse_object_loop (S f) o' (skip_whitespaces (advance s2)) n).
Proof.
  intros Hk Hv Hn Hnk Hno Hni.
  destruct (json_object_add_fresh o k (JSONString v) Hnk Hno Hni) as (o' & Hadd & Ho').
  exists o'. split; [done|]. cbn [parse_object_loop peek]. rewrite bool_decide_false by done.
  rewrite quoted_raw by done. cbn [mbind res_bind]. rewrite skip_stop by done. cbn [peek advance tail].
  rewrite bool_decide_true by done. cbn [negb]. rewrite parse_raw_string by done. cbn [mbind res_bind].
  by rewrite Hadd.
Qed.

(** A member before another one, and the last one. *)
Lemma member_comma f o k v rest n : raw k → raw v → n <= MAX_NESTING → nul_free k →
  Forall nul_free (names (obj_pairs o)) → k ∉ names (obj_pairs o) →
  ∃ o', obj_pairs o' = obj_pairs o ++ [(k, JSONString v)] ∧
    parse_object_loop (S (S f)) o (x22 :: k ++ x22 :: x3a :: x22 :: v ++ x22 :: x2c :: x22 :: rest) n =
    parse_object_loop (S f) o' (x22 :: rest) n.
Proof.
  intros Hk Hv Hn Hnk Hno Hni.
  destruct (member_step f o k v (x2c :: x22 :: rest) n) as (o' & Ho' & ->); [done..|].
  exists o'. split; [done|]. rewrite skip_stop by done. cbn [peek advance tail].
  rewrite bool_decide_true by done. cbn [negb]. by rewrite skip_stop.
Qed.

Lemma member_last f o k v rest n : raw k → raw v → n <= MAX_NESTING → nul_free k →
  Forall nul_free (names (obj_pairs o)) → k ∉ names (obj_pairs o) →
  parse_object_loop (S (S f)) o (x22 :: k ++ x22 :: x3a :: x22 :: v ++ x22 :: x7d :: rest) n =
  Ok (Some (JSONObject (MkObject (obj_pairs o ++ [(k, JSONString v)]) (S (length (obj_pairs o)))), rest)).
Proof.
  intros Hk Hv Hn Hnk Hno Hni.
  destruct (member_step f o k v (x7d :: rest) n) as (o' & Ho' & ->); [done..|].
  rewrite skip_stop by done. cbn [peek]. rewrite bool_decide_false by done. cbn [negb].
  rewrite finish_object_close by (rewrite Ho'; by destruct (obj_pairs o)).
  by rewrite Ho', length_app, Nat.add_1_r.
Qed.

(** An object starts with its first member. *)
Lemma parse_object_start f t n : n < MAX_NESTING →
  parse_value (S f) (x7b :: x22 :: t) n = parse_object_loop f json_object_init (x22 :: t) (S n).
Proof.
  intros Hn. rewrite parse_value_at by (done || lia).
  rewrite bool_decide_true by done. unfold parse_object_value. cbn [peek advance tail].
  rewrite bool_decide_true by done. cbn [negb]. rewrite skip_stop by done. cbn [peek].
  by rewrite bool_decide_false.
Qed.

Lemma item_json_eq item rest : item_json item ++ rest =
  x7b :: x22 :: bs "key" ++ x22 :: x3a :: x22 :: TransformToSGX item.1 ++ x22 ::
  x2c :: x22 :: bs "value" ++ x22 :: x3a :: x22 :: item.2 ++ x22 :: x7d :: rest.
Proof. unfold item_json. rewrite <-!app_assoc. done. Qed.

Lemma parse_item f item rest n : item_raw item → n < MAX_NESTING →
  parse_value (S (S (S (S f)))) (item_json item ++ rest) n = Ok (Some (item_value item, rest)).
Proof.
  intros [Hk Hv] Hn. rewrite item_json_eq, parse_object_start by done.
  destruct (member_comma (S f) json_object_init (bs "key") (TransformToSGX item.1)
    (bs "value" ++ x22 :: x3a :: x22 :: item.2 ++ x22 :: x7d :: rest) (S n))
    as (o1 & Ho1 & ->); [by_evaluation|done|lia|by_evaluation|constructor|apply not_elem_of_nil|].
  cbn [obj_pairs json_object_init app] in Ho1.
  rewrite member_last; [by rewrite Ho1|by_evaluation|done|lia|by_evaluation|rewrite Ho1; by_evaluation..].
Qed.

Lemma items_json_cons item item' l : items_json (item :: item' :: l) = item_json item ++ bs "," ++ items_json (item' :: l).
Proof. done. Qed.

Lemma parse_items l rest n : Forall item_raw l → l ≠ [] → n < MAX_NESTING → ∀ a fuel, length l + 4 <= fuel →
  parse_array_loop fuel a (items_json l ++ x5d :: rest) n =
  Ok (Some (JSONArray (MkArray (arr_items a ++ map item_value l) (length (arr_items a) + length l)), rest)).
Proof.
  intros H. induction H as [|item l Hi Hl IH]; [done|]. intros _ Hn a fuel Hf. cbn [length] in Hf.
  destruct fuel as [|[|[|[|[|f]]]]]; try lia.
  destruct (json_array_add_items a (item_value item)) as (a' & Hadd & Ha').
  destruct l as [|item' l].
  - cbn [items_json]. remember (S (S (S (S f)))) as g eqn:Hg. cbn [parse_array_loop].
    rewrite item_json_eq. cbn [peek]. rewrite bool_decide_false by done. rewrite <-item_json_eq. subst g.
    rewrite parse_item by done. cbn [mbind res_bind]. rewrite Hadd, skip_stop by done. cbn [peek].
    rewrite bool_decide_false by done. cbn [negb].
    rewrite finish_array_close by (rewrite Ha'; by destruct (arr_items a)). by rewrite Ha', length_app.
  - rewrite items_json_cons, <-!app_assoc. remember (S (S (S (S f)))) as g eqn:Hg. cbn [parse_array_loop].
    rewrite item_json_eq. cbn [peek]. rewrite bool_decide_false by done. rewrite <-item_json_eq. subst g.
    rewrite parse_item by done. cbn [mbind res_bind]. rewrite Hadd.
    change (bs "," ++ items_json (item' :: l) ++ x5d :: rest) with (x2c :: items_json (item' :: l) ++ x5d :: rest).
    rewrite skip_stop by done. cbn [peek advance tail]. rewrite bool_decide_true by done. cbn [negb].
    assert (∃ t, items_json (item' :: l) = x7b :: t) as [t Et] by (destruct l; eexists; reflexivity).
    rewrite Et. cbn [app]. rewrite skip_stop by done.
    change (x7b :: t ++ x5d :: rest) with ((x7b :: t) ++ x5d :: rest). rewrite <-Et.
    rewrite IH by (done || cbn [length] in *; lia).
    rewrite Ha'. by rewrite <-app_assoc, length_app, <-Nat.add_assoc.
Qed.

Definition range_json (l : list (bytes * bytes)) : bytes := bs "[" ++ items_json l ++ bs "]".

Lemma items_json_length l : l ≠ [] → length l + 4 <= length (items_json l).
Proof.
  assert (∀ i, 10 <= length (item_json i)) as Hi.
  { intros i. unfold item_json. rewrite !length_app. cbn. lia. }
  induction l as [|i l IH]; [done|]. intros _. destruct l as [|j l].
  - cbn [items_json]. specialize (Hi i). cbn [length]. lia.
  - rewrite items_json_cons, !length_app. specialize (Hi i). specialize (IH ltac:(done)).
    cbn [length] in *. change (length (bs ",")) with 1. lia.
Qed.

Lemma parse_range_text l : Forall item_raw l →
  ∃ cap, json_parse_string (Some (range_json l)) = Ok (Some (JSONArray (MkArray (map item_value l) cap))).
Proof.
  intros Hl. unfold json_parse_string, parse_text, range_json.
  change (skip_bom (bs "[" ++ items_json l ++ bs "]")) with (x5b :: items_json l ++ [x5d]).
  rewrite parse_value_at by (done || (unfold MAX_NESTING; lia)).
  rewrite bool_decide_false, bool_decide_true by done. unfold parse_array_value. cbn [peek advance tail].
  rewrite bool_decide_true by done. cbn [negb]. destruct l as [|i l].
  { cbn [items_json app]. rewrite skip_stop by done. cbn. by eexists. }
  assert (∃ t, items_json (i :: l) = x7b :: t) as [t Et] by (destruct l; eexists; reflexivity).
  rewrite Et. cbn [app]. rewrite skip_stop by done. cbn [peek]. rewrite bool_decide_false by done.
  change (x7b :: t ++ [x5d]) with ((x7b :: t) ++ [x5d]). rewrite <-Et.
  rewrite parse_items; [by eexists|done|done|unfold MAX_NESTING; lia|].
  pose proof (items_json_length (i :: l) ltac:(done)). cbn [length] in *. rewrite length_app. lia.
Qed.

(** The entries in the order of the map. *)
Definition insert_items (l : list (bytes * bytes)) (m : list (bytes * bytes)) : list (bytes * bytes) :=
  fold_left (λ m p, map_insert (TransformToSGX p.1) p.2 m) l m.

Lemma unmarshal_items l acc : Forall item_raw l →
  unmarshal_pairs (map item_value l) acc = Ok (insert_items l acc).
Proof.
  intros H. revert acc. induction H as [|i l [Hk Hv] _ IH]; intros acc; [done|].
  unfold insert_items in *. cbn [map unmarshal_pairs fold_left].
  change (json_value_get_object (Some (item_value i))) with (Some (MkObject
    [(bs "key", JSONString (TransformToSGX i.1)); (bs "value", JSONString i.2)] 2)).
  assert (json_object_get_string (Some (MkObject [(bs "key", JSONString (TransformToSGX i.1));
    (bs "value", JSONString i.2)] 2)) (bs "key") = Some (TransformToSGX i.1)) as -> by done.
  assert (json_object_get_string (Some (MkObject [(bs "key", JSONString (TransformToSGX i.1));
    (bs "value", JSONString i.2)] 2)) (bs "value") = Some i.2) as -> by done.
  cbn [deref mbind res_bind]. rewrite !cstr_id by (by apply raw_nul_free). apply IH.
Qed.

(** The answer of the glue is unmarshalled to the entries it was made from. *)
Lemma unmarshal_range l : Forall item_raw l → unmarshal_values [] (range_json l) = Ok (1%Z, insert_items l []).
Proof.
  intros Hl. unfold unmarshal_values. destruct (parse_range_text l Hl) as [cap ->]. cbn [mbind res_bind].
  cbn [json_value_get_array arr_items]. by rewrite unmarshal_items.
Qed.

Lemma insert_items_find l : ∀ m, map_ok m → NoDup (map (λ p, TransformToSGX p.1) l) →
  (∀ p, p ∈ l → map_find (TransformToSGX p.1) m = None) →
  map_ok (insert_items l m) ∧ ∀ k v, map_find k (insert_items l m) = Some v ↔
    map_find k m = Some v ∨ ∃ p, p ∈ l ∧ TransformToSGX p.1 = k ∧ p.2 = v.
Proof.
  induction l as [|p l IH]; intros m Hm Hnd Hfresh.
  { split; [done|]. intros k v. split; [by left|]. intros [?|(p & Hp & _)]; [done|]. by apply not_elem_of_nil in Hp. }
  cbn [map] in Hnd. apply list.NoDup_cons in Hnd as [Hni Hnd].
  pose proof (Hfresh p ltac:(apply list_elem_of_here)) as Hp.
  destruct (IH (map_insert (TransformToSGX p.1) p.2 m)) as [Hok Hfind]; [by apply map_ok_insert|done| |].
  { intros q Hq. rewrite map_find_insert, Hp by done. rewrite bool_decide_false.
    - apply Hfresh, elem_of_cons. by right.
    - intros E. apply Hni. rewrite <-E. apply list_elem_of_In, in_map_iff. exists q.
      split; [done|by apply list_elem_of_In]. }
  split; [exact Hok|]. intros k v. change (insert_items (p :: l) m) with (insert_items l (map_insert (TransformToSGX p.1) p.2 m)).
  rewrite Hfind, map_find_insert, Hp by done. case_bool_decide as E.
  - subst k. split.
    + intros [[= <-]|(q & Hq & E1 & E2)]; right; [exists p|exists q]; split_and!; try done;
        [apply list_elem_of_here|by apply list_elem_of_further].
    + intros [H|(q & Hq & E1 & E2)]; [by rewrite Hp in H|].
      apply elem_of_cons in Hq as [->|Hq]; [by left; f_equal|]. right. by exists q.
  - split.
    + intros [?|(q & Hq & E1 & E2)]; [by left|]. right. exists q. split; [by apply list_elem_of_further|done].
    + intros [?|(q & Hq & E1 & E2)]; [by left|]. right. exists q. split; [|done].
      apply elem_of_cons in Hq as [->|Hq]; done.
Qed.
(** ** The bids of an auction *)

(** A record under the key of a bid is the record of that bid. *)
Definition bids_inv (m : records) : Prop := ∀ n b t, dot_free n → dot_free b → m !! bid_key n b = Some t →
  good_name b ∧ ∃ v, int_range v ∧ t = bid_text (MkBid b v).

Lemma spec_step_bids m m' : spec_step m m' → bids_inv m → bids_inv m'.
Proof.
  intros [c cur Hok Hd Hr] Hinv n b t Hn Hb.
  destruct c as [a|a b' v|a]; cbn [call_ok call_dot_free call_auction] in *.
  - destruct cur; cbn [call_spec snd apply_write]; [by apply Hinv|].
    rewrite lookup_insert_ne; [by apply Hinv|]. intros E. by apply (bid_key_not_name n b a).
  - destruct cur as [[? []]|]; cbn [call_spec snd apply_write]; try by apply Hinv.
    destruct Hd as [Hda Hdb], Hok as (_ & Hgb & Hv). rewrite lookup_insert. case_decide as E; [|by apply Hinv].
    apply bid_key_inj in E as [_ ->]; [|done..]. intros [= <-]. split; [done|by exists v].
  - destruct cur as [[an []]|]; cbn [call_spec snd apply_write]; try by apply Hinv.
    rewrite lookup_insert_ne; [by apply Hinv|]. intros E. by apply (bid_key_not_name n b a).
Qed.

Lemma spec_steps_bids m m' : rtc spec_step m m' → bids_inv m → bids_inv m'.
Proof. induction 1 as [|m m1 m2 Hs _ IH]; [done|]. intros H. by eapply IH, spec_step_bids. Qed.

Lemma bid_text_inj b b' : good_name (bidder_name b) → good_name (bidder_name b') → int_range (value b) →
  int_range (value b') → bid_text b = bid_text b' → b = b'.
Proof.
  intros H H' Hv Hv' E. pose proof (unmarshal_bid_text b H Hv) as U.
  rewrite E, unmarshal_bid_text in U by done. congruence.
Qed.

(** ** Keys under the prefix of an auction *)

Lemma starts_with_app p s : starts_with p s = true ↔ ∃ r, s = p ++ r.
Proof.
  unfold starts_with. rewrite bool_decide_eq_true. split.
  - intros E. exists (drop (length p) s). rewrite <-E at 1. symmetry. apply take_drop.
  - intros [r ->]. by rewrite take_app_length.
Qed.

Lemma bid_composite_eq n : bid_composite_key n = composite_key [bs "somePrefix"; n].
Proof. unfold bid_composite_key, composite_key, dotted, PREFIX, SEP. cbn [map concat]. rewrite app_nil_r, <-!app_assoc. done. Qed.

Lemma split_at_nul a b a' b' : nul_free a → nul_free a' → a ++ x00 :: b = a' ++ x00 :: b' → a = a'.
Proof.
  intros Ha. revert a'. induction Ha as [|c a Hc _ IH]; intros [|c' a'] Ha' E; cbn in E; simplify_eq; try done.
  - by apply Forall_cons_iff in Ha' as [? _].
  - apply Forall_cons_iff in Ha' as [_ Ha']. by rewrite (IH a').
Qed.

(** The keys of the house under the prefix are those of the bids for [n], on the
    peer and in the ledger. *)
Lemma fabric_prefix f n : house_form f → peer_name n →
  starts_with (fabric_composite [bs "somePrefix"; n]) (fabric_key f) = true ↔
  ∃ b, peer_name b ∧ f = Composite [bs "somePrefix"; n; b].
Proof.
  intros Hf Hn. assert (nul_free n) as Hnf by apply Hn. rewrite starts_with_app. split.
  - intros [r E]. destruct Hf as [n' (_ & (_ & Hn' & _) & _)|n' b Hn' Hb].
    { cbn in E. subst n'. by apply Forall_cons_iff in Hn' as [? _]. }
    exists b. split; [done|]. assert (n' = n) as ->; [|done].
    unfold fabric_key, fabric_composite in E. cbn [map concat] in E. rewrite <-!app_assoc in E. cbn [app] in E.
    injection E as E. rewrite <-!app_assoc in E. cbn [app] in E.
    by apply split_at_nul in E; [| apply Hn'|].
  - intros (b & Hb & ->). exists (b ++ [x00]). unfold fabric_key, fabric_composite. cbn [map concat].
    change (?c :: ?l = (?c :: ?l1) ++ ?r) with (c :: l = c :: (l1 ++ r)). f_equal.
    by rewrite !app_nil_r, <-!app_assoc.
Qed.

Lemma ledger_prefix f n : house_form f → peer_name n →
  starts_with (bs "ecc" ++ bid_composite_key n) (ledger_key f) = true ↔
  ∃ b, peer_name b ∧ f = Composite [bs "somePrefix"; n; b].
Proof.
  intros Hf Hn. rewrite starts_with_app. split.
  - intros [r E]. destruct Hf as [n' (Hd & _)|n' b Hn' Hb].
    { exfalso. cbn [ledger_key] in E. unfold ecc_key in E. rewrite <-app_assoc in E. apply app_inv_head in E.
      unfold bid_composite_key, PREFIX, SEP in E. rewrite <-!app_assoc in E. change (bs ".") with [x2e] in E.
      cbn [app] in E. injection E as ->. unfold dot_free in Hd. rewrite !Forall_cons_iff in Hd. by destruct_and!. }
    exists b. split; [done|]. assert (n' = n) as ->; [|done].
    change (ledger_key (Composite [bs "somePrefix"; n'; b]))
      with (bs "ecc" ++ form_key (Composite [bs "somePrefix"; n'; b])) in E.
    rewrite bid_form_key, <-app_assoc in E. apply app_inv_head in E. unfold bid_composite_key, bid_key in E.
    rewrite <-!app_assoc in E. apply app_inv_head in E.
    by apply split_at_dot in E as [-> _]; [|apply Hn'|apply Hn].
  - intros (b & Hb & ->). exists (b ++ [x2e]).
    change (ledger_key (Composite [bs "somePrefix"; n; b]))
      with (bs "ecc" ++ form_key (Composite [bs "somePrefix"; n; b])).
    rewrite bid_form_key. unfold bid_composite_key, bid_key. by rewrite <-!app_assoc.
Qed.
(** ** The entries of a range query *)

Lemma bytes_lt_prefix p a b : bytes_lt (p ++ a) (p ++ b) ↔ bytes_lt a b.
Proof. unfold bytes_lt. induction p as [|c p IH]; [done|]. cbn. by rewrite Z.compare_refl. Qed.

Lemma range_sorted {V} q p (m : list (bytes * V)) : map_ok m →
  sorted (map (λ e, drop (length q) e.1) (List.filter (λ e, starts_with (q ++ p) e.1) m)).
Proof.
  induction m as [|[k v] m IH]; [constructor|]. intros [Hm Hk]%map_ok_cons. cbn [List.filter fst].
  destruct (starts_with (q ++ p) k) eqn:E; [|by apply IH]. cbn [map fst]. apply sorted_cons. split; [by apply IH|].
  apply starts_with_app in E as [r ->]. rewrite <-app_assoc, drop_app_length. apply list.Forall_forall.
  intros x Hx. apply list_elem_of_In, in_map_iff in Hx as ([k' v'] & <- & [Hin Hp]%filter_In).
  cbn [fst] in *. apply starts_with_app in Hp as [r' ->]. rewrite <-app_assoc, drop_app_length.
  rewrite list.Forall_forall in Hk. apply (bytes_lt_prefix q). rewrite !app_assoc. apply Hk. unfold keys.
  apply list_elem_of_In, in_map_iff. by exists ((q ++ p) ++ r', v').
Qed.

Lemma sorted_NoDup ks : sorted ks → NoDup ks.
Proof.
  induction ks as [|k ks IH]; [intros _; apply NoDup_nil_2|]. intros [Hs Hk]%sorted_cons.
  apply list.NoDup_cons. split; [|by apply IH]. intros Hin. rewrite list.Forall_forall in Hk.
  by apply (bytes_lt_irrefl k), Hk.
Qed.

Section evaluation.
Context {C : Crypto} {L : CryptoLaws C} {PL : Platform} {PLL : PlatformLaws PL}.
Context {O : OpenSSL} {F : FabricPb} {SH : SameHash C O}.
Context {S : Type} {SS : ShimStub S} {SIM : Simulator S} {SL : ShimLaws S SS SIM}.
Implicit Types (l : ledger_state) (stub : S).

(** The ledger's entry for a bid for [n]. *)
Definition bid_entry l (n k v : bytes) : Prop := ∃ b ver, peer_name b ∧ k = bid_key n b ∧
  map_find (bs "ecc" ++ bid_key n b) (state l) = Some (v, ver).

Lemma bid_ledger_key n b : ledger_key (Composite [bs "somePrefix"; n; b]) = bs "ecc" ++ bid_key n b.
Proof. by rewrite <-bid_form_key. Qed.

Lemma committed_range_elem l n k v : map_ok (state l) → house_keys (λ k, map_find k (state l)) → peer_name n →
  (k, v) ∈ committed_range (bid_composite_key n) l ↔ bid_entry l n k v.
Proof.
  intros Hok Hks Hn. unfold committed_range. rewrite list_elem_of_In, in_map_iff. split.
  - intros ([lk [val ver]] & [= <- <-] & [Hin Hp]%filter_In). cbn [fst] in *.
    apply list_elem_of_In, (map_In_find _ _ _ Hok) in Hin.
    destruct (Hks _ _ Hin) as (f & Hf & ->). apply (ledger_prefix f n Hf Hn) in Hp as (b & Hb & ->).
    rewrite bid_ledger_key in *. exists b, ver. split; [done|]. split; [|done]. done.
  - intros (b & ver & Hb & -> & Hfind). exists (bs "ecc" ++ bid_key n b, (v, ver)). split; [done|].
    apply filter_In. split; [by apply list_elem_of_In, map_find_In|]. cbn [fst]. rewrite <-bid_ledger_key.
    apply ledger_prefix; [by apply house_bid|done|]. by exists b.
Qed.

Lemma committed_range_ok l comp_key : map_ok (state l) → map_ok (committed_range comp_key l).
Proof.
  intros Hok. unfold map_ok, keys, committed_range. rewrite map_map. apply (range_sorted (bs "ecc")), Hok.
Qed.

(** The peer has only entries of the auction house. *)
Definition peer_only stub : Prop := ∀ k x, state_db stub k = Some x → ∃ f, house_form f ∧ k = fabric_key f.

Lemma bid_sgx_key n b : peer_name n → peer_name b →
  TransformToSGX (fabric_key (Composite [bs "somePrefix"; n; b])) = bid_key n b.
Proof.
  intros Hn Hb. cbn [fabric_key]. rewrite TransformToSGX_composite, <-bid_form_key; [done|].
  repeat (apply List.Forall_cons; [first [apply prefix_name|apply Hn|apply Hb]|]). constructor.
Qed.

(** What the peer finds for the bids of [n]. *)
Record bid_items l stub (n : bytes) (items : list (bytes * bytes)) : Prop := {
  bi_nodup : NoDup (map fst items);
  bi_elem k v : (k, v) ∈ items ↔
    starts_with (fabric_composite [bs "somePrefix"; n]) k = true ∧ ∃ ver, state_db stub k = Some (v, ver) }.

Section range.
Context l stub n items (Hsync : in_sync stub l) (Honly : peer_only stub) (Hn : peer_name n)
  (Hok : map_ok (state l)) (Hks : house_keys (λ k, map_find k (state l))) (Hit : bid_items l stub n items).

Lemma item_bid p : p ∈ items → ∃ b ver, peer_name b ∧ p.1 = fabric_key (Composite [bs "somePrefix"; n; b]) ∧
  map_find (bs "ecc" ++ bid_key n b) (state l) = Some (p.2, ver).
Proof.
  destruct p as [k v]. intros [Hp [ver Hdb]]%(bi_elem _ _ _ _ Hit). destruct (Honly _ _ Hdb) as (f & Hf & ->).
  apply (fabric_prefix f n Hf Hn) in Hp as (b & Hb & ->). exists b, ver. split_and!; [done..|].
  rewrite <-bid_ledger_key, <-Hsync by done. done.
Qed.

Lemma items_elem k v : (∃ p, p ∈ items ∧ TransformToSGX p.1 = k ∧ p.2 = v) ↔ bid_entry l n k v.
Proof.
  split.
  - intros (p & Hp & <- & <-). destruct (item_bid p Hp) as (b & ver & Hb & E & Hf).
    exists b, ver. split; [done|]. split; [by rewrite E, bid_sgx_key|done].
  - intros (b & ver & Hb & -> & Hf). exists (fabric_key (Composite [bs "somePrefix"; n; b]), v).
    split; [|cbn [fst snd]; by rewrite bid_sgx_key]. pose proof (house_bid n b Hn Hb) as Hh.
    apply (bi_elem _ _ _ _ Hit). split; [apply fabric_prefix; [done..|by exists b]|].
    exists ver. by rewrite (Hsync _ Hh), bid_ledger_key.
Qed.

Lemma items_nodup : NoDup (map (λ p, TransformToSGX p.1) items).
Proof.
  pose proof (bi_nodup _ _ _ _ Hit) as Hnd. pose proof item_bid as Hb. clear Hit.
  induction items as [|p ps IH]; [apply NoDup_nil_2|]. cbn [map] in *. apply list.NoDup_cons in Hnd as [Hni Hnd].
  apply list.NoDup_cons. split; [|apply IH; [done|]; intros q Hq; apply Hb; by apply list_elem_of_further].
  intros Hin. apply list_elem_of_In, in_map_iff in Hin as (q & E & Hq%list_elem_of_In). apply Hni.
  destruct (Hb p) as (b & ? & Hpb & Ep & _); [apply list_elem_of_here|].
  destruct (Hb q) as (b' & ? & Hqb & Eq & _); [by apply list_elem_of_further|].
  rewrite Ep, Eq, !bid_sgx_key in E by done. apply bid_key_inj in E as [_ ->]; [|apply Hn|apply Hn|apply Hqb|apply Hpb].
  rewrite Ep, <-Eq. by apply list_elem_of_In, in_map, list_elem_of_In.
Qed.

(** After unmarshalling, the entries are those the ledger hashes. *)
Lemma items_sorted : insert_items items [] = committed_range (bid_composite_key n) l.
Proof.
  destruct (insert_items_find items [] map_ok_nil items_nodup) as [Hm Hf]; [done|].
  pose proof (committed_range_ok l (bid_composite_key n) Hok) as Hr.
  apply map_ext; [done..|]. intros k. apply option_eq. intros v. rewrite Hf, items_elem.
  rewrite <-committed_range_elem by done. split.
  - intros [?|H]; [done|]. by apply map_In_find.
  - intros H. right. by apply map_find_In.
Qed.

(** The size of the answer, from the entries the ledger holds. *)
Definition range_size (us : list (bytes * bytes)) : nat :=
  2 + sum_list_with (λ u, length u.1 + length u.2 + 22) us.

Lemma range_size_perm us us' : Permutation us us' → range_size us = range_size us'.
Proof. unfold range_size. induction 1; cbn; lia. Qed.

Lemma range_json_length ps :
  length (range_json ps) <= range_size (map (λ p, (TransformToSGX p.1, p.2)) ps).
Proof.
  unfold range_json, range_size. rewrite !length_app.
  change (length (bs "[")) with 1. change (length (bs "]")) with 1.
  enough (length (items_json ps) <=
    sum_list_with (λ u, length u.1 + length u.2 + 22) (map (λ p, (TransformToSGX p.1, p.2)) ps)) by lia.
  assert (∀ p, length (item_json p) = length (TransformToSGX p.1) + length p.2 + 21) as Hi.
  { intros p. unfold item_json. rewrite !length_app. cbn. lia. }
  induction ps as [|p ps IH]; [cbn; lia|]. destruct ps as [|q ps].
  - cbn [items_json map sum_list_with fst snd]. rewrite Hi. lia.
  - rewrite items_json_cons, !length_app, Hi. change (length (bs ",")) with 1.
    cbn [map sum_list_with fst snd] in *. lia.
Qed.

Lemma items_perm : Permutation (map (λ p, (TransformToSGX p.1, p.2)) items) (committed_range (bid_composite_key n) l).
Proof.
  apply NoDup_Permutation.
  - apply (NoDup_fmap_1 fst). change (NoDup (map fst (map (λ p, (TransformToSGX p.1, p.2)) items))).
    rewrite map_map. apply items_nodup.
  - apply (NoDup_fmap_1 fst). apply sorted_NoDup, committed_range_ok, Hok.
  - intros [k v]. rewrite committed_range_elem, <-items_elem by done. rewrite list_elem_of_In, in_map_iff.
    split; intros (p & H1 & H2); exists p; [injection H1 as <- <-|destruct H2 as [<- <-]];
      by rewrite list_elem_of_In in *.
Qed.

Lemma items_fit : range_size (committed_range (bid_composite_key n) l) < RANGE_BUFFER_SIZE →
  length (range_json items) < RANGE_BUFFER_SIZE.
Proof. rewrite <-(range_size_perm _ _ items_perm). pose proof (range_json_length items). lia. Qed.
End range.

(** ** The answer of the glue *)

Lemma VerifyState_range comp_key (t : tlcc_state) : nul_free comp_key → peek comp_key = x2e →
  lock (ledger t) = false → map_ok (state (ledger t)) →
  VerifyState comp_key true t =
  Some (cmac128 session_key (comp_key ++ sha256 (concat (map (λ u, u.1 ++ u.2)
    (committed_range comp_key (ledger t))))), MkTlcc (identity t) (ledger t)).
Proof.
  intros Hn Hp Hl Hok. unfold VerifyState, GetStateMetadata, tlcc_get_multi_state_metadata, tlcc_metadata.
  rewrite bool_decide_false by (intros Hne; by apply Hne).
  rewrite (cstr_id (bs "ecc" ++ comp_key)) by (repeat (constructor; [done|]); done).
  rewrite range_metadata_eq by done.
  cbn [mbind option_bind default snd from_option]. by rewrite b64_roundtrip.
Qed.

Lemma bid_composite_nul_free n : peer_name n → nul_free (bid_composite_key n).
Proof.
  intros Hn. assert (nul_free n) by apply Hn. unfold bid_composite_key, PREFIX, SEP.
  repeat (apply nul_free_app; split); try done; forall_list.
Qed.

Lemma get_range_honest ctx i stub l (w : world S) n : running ctx i stub l w → lock l = false →
  map_ok (state l) → peer_name n →
  ∃ items stub', bid_items l stub n items ∧
    PeerGlue.get_state_by_partial_composite_key (bid_composite_key n) ctx w =
    Some (MkAnswer (range_json items) (u32 (Z.of_nat (length (range_json items))))
      (cmac128 session_key (bid_composite_key n ++ sha256 (concat (map (λ u, u.1 ++ u.2)
         (committed_range (bid_composite_key n) l))))), set_stub i stub' w).
Proof.
  intros [Hf Hs Hl] Hlk Hok Hn. pose proof (bid_composite_nul_free n Hn) as Hnf.
  assert (Forall component_ok [bs "somePrefix"; n]) as Hcs.
  { apply List.Forall_cons; [apply prefix_name|]. apply List.Forall_cons; [apply Hn|constructor]. }
  destruct (GetStateByPartialCompositeKey_ok (bs "somePrefix") [n] stub Hcs)
    as (items & stub' & Hq & _ & _ & Hnd & Helem).
  exists items, stub'. split; [by split|].
  unfold PeerGlue.get_state_by_partial_composite_key, Get. rewrite Hf. cbn [mbind option_bind]. rewrite Hs.
  cbn [mbind option_bind]. rewrite (cstr_id _ Hnf). rewrite bid_composite_eq at 1.
  rewrite Split_composite; [|done|].
  2:{ apply List.Forall_cons; [apply prefix_name|]. apply List.Forall_cons; [apply Hn|constructor]. }
  cbn [mbind option_bind]. rewrite Hq. cbn [mbind option_bind]. rewrite VerifyState_range by (done || congruence).
  cbn [mbind option_bind]. rewrite take_ge by (by rewrite cmac128_length). rewrite Hl.
  unfold range_json. do 3 f_equal. rewrite <-Hl. exact (set_tlcc_id (set_stub i stub' w)).
Qed.

(** ** The bids the ledger holds *)

Lemma choose_list {A B} (R : A → B → Prop) (us : list A) : (∀ x, x ∈ us → ∃ y, R x y) → ∃ ys, Forall2 R us ys.
Proof.
  induction us as [|x us IH]; intros H; [by exists []|].
  destruct (H x) as [y Hy]; [apply list_elem_of_here|].
  destruct IH as [ys Hys]; [intros z Hz; by apply H, list_elem_of_further|]. exists (y :: ys). by constructor.
Qed.

(** A ledger entry of the range, the entry decrypted and its bid. *)
Definition bid_of (n : bytes) (m : records) (u : bytes * bytes) (eb : entry * bid_t) : Prop :=
  u = entry_stored eb.1 ∧ entry_ok eb.1 ∧ e_plain eb.1 = bid_text eb.2 ∧
  good_name (bidder_name eb.2) ∧ int_range (value eb.2) ∧ peer_name (bidder_name eb.2) ∧
  u.1 = bid_key n (bidder_name eb.2) ∧ m !! u.1 = Some (bid_text eb.2).

Lemma range_bid l m n u : sys_inv l m → bids_inv m → peer_name n →
  u ∈ committed_range (bid_composite_key n) l → ∃ eb, bid_of n m u eb.
Proof.
  intros Hinv Hbids Hn Hu. destruct u as [k val].
  apply (committed_range_elem l n) in Hu as (b & ver & Hb & -> & Hf);
    [|apply (si_ledger _ _ Hinv)|apply (si_keys _ _ Hinv)|done].
  pose proof (si_rep _ _ Hinv _ (house_bid n b Hn Hb)) as Hc. rewrite bid_form_key, bid_ledger_key in Hc.
  cbv beta in Hc. rewrite Hf in Hc. destruct (m !! bid_key n b) as [t|] eqn:E; cbn in Hc; [|done].
  destruct Hc as (iv & Hiv & Hlen & ->).
  destruct (Hbids n b t) as (Hg & v & Hv & ->); [apply Hn|apply Hb|done|].
  exists (MkEntry (bid_key n b) (bid_text (MkBid b v)) iv, MkBid b v).
  split_and!; try done. split; [done|]. unfold len in Hlen. cbn [fst e_plain]. lia.
Qed.

Lemma range_bids l m n : sys_inv l m → bids_inv m → peer_name n →
  ∃ ebs, Forall2 (bid_of n m) (committed_range (bid_composite_key n) l) ebs.
Proof. intros Hinv Hb Hn. apply choose_list. intros u. by apply range_bid. Qed.

Lemma bids_entries n m us ebs : Forall2 (bid_of n m) us ebs →
  us = map entry_stored (map fst ebs) ∧ Forall entry_ok (map fst ebs) ∧
  Forall2 (λ e b, e_plain e = bid_text b ∧ good_name (bidder_name b) ∧ int_range (value b)) (map fst ebs) (map snd ebs).
Proof.
  induction 1 as [|u eb us ebs (Hu & Hok & Hp & Hg & Hv & _) _ (IH1 & IH2 & IH3)].
  - split_and!; constructor.
  - cbn [map]. split_and!; [by rewrite Hu, IH1|by constructor|by constructor].
Qed.

Lemma bids_keys n m us ebs : Forall2 (bid_of n m) us ebs →
  keys us = bid_key n <$> map bidder_name (map snd ebs).
Proof.
  unfold keys. induction 1 as [|u eb us ebs (_ & _ & _ & _ & _ & _ & Hk & _) _ IH]; [done|].
  cbn [map]. by rewrite IH, Hk.
Qed.

Section bids.
Context l m n ebs (Hinv : sys_inv l m) (Hbids : bids_inv m) (Hn : peer_name n)
  (Hebs : Forall2 (bid_of n m) (committed_range (bid_composite_key n) l) ebs).

Lemma bids_nodup : NoDup (map bidder_name (map snd ebs)).
Proof.
  apply (NoDup_fmap_1 (bid_key n)). rewrite <-(bids_keys n m _ _ Hebs).
  apply sorted_NoDup, committed_range_ok, (si_ledger _ _ Hinv).
Qed.

(** The bids are exactly those whose record the ledger holds. *)
Lemma bids_complete b v : MkBid b v ∈ map snd ebs ↔
  peer_name b ∧ int_range v ∧ plain_at (bs "ecc" ++ bid_key n b) l = Some (bid_text (MkBid b v)).
Proof.
  assert (∀ b, peer_name b → plain_at (bs "ecc" ++ bid_key n b) l = m !! bid_key n b) as Hplain.
  { intros b' Hb'. rewrite <-bid_ledger_key, <-bid_form_key.
    apply represents_plain; [apply Hinv|by apply house_bid]. }
  split.
  - intros Hin. apply list_elem_of_In, in_map_iff in Hin as (eb & Eb & Hin%list_elem_of_In).
    apply list_elem_of_lookup in Hin as [i Hi].
    destruct (Forall2_lookup_r _ _ _ _ _ Hebs Hi) as (u & _ & (_ & _ & _ & Hg & Hv & Hp & Hk & Hm)).
    rewrite Eb in *. cbn [bidder_name value] in *. split_and!; [done..|]. by rewrite Hplain, <-Hk.
  - intros (Hb & Hv & Hp). rewrite Hplain in Hp by done.
    destruct (Hbids n b _ (proj1 Hn) (proj1 Hb) Hp) as [Hg _].
    pose proof (si_rep _ _ Hinv _ (house_bid n b Hn Hb)) as Hc. rewrite bid_form_key, bid_ledger_key in Hc.
    cbv beta in Hc. rewrite Hp in Hc. destruct (map_find (bs "ecc" ++ bid_key n b) (state l)) as [[val ver]|] eqn:E; [|done].
    assert ((bid_key n b, val) ∈ committed_range (bid_composite_key n) l) as Hin.
    { apply committed_range_elem; [apply (si_ledger _ _ Hinv)|apply (si_keys _ _ Hinv)|done|]. by exists b, ver. }
    apply list_elem_of_lookup in Hin as [i Hi].
    destruct (Forall2_lookup_l _ _ _ _ _ Hebs Hi) as (eb & Heb & (_ & _ & _ & Hg' & Hv' & Hp' & Hk & Hm)).
    cbn [fst] in Hk, Hm. apply bid_key_inj in Hk as [_ Hbb]; [|apply Hn|apply Hn|apply Hb|apply Hp'].
    rewrite Hp in Hm. apply (inj Some) in Hm. apply list_elem_of_In, in_map_iff. exists eb.
    split; [|by apply list_elem_of_In, list_elem_of_lookup; exists i].
    symmetry. apply bid_text_inj; [done..|]. exact Hm.
Qed.
End bids.

Lemma b64_raw m : raw (b64_encode m).
Proof.
  eapply list.Forall_impl; [apply b64_encode_chars|]. intros c [Hc| ->]; [|done].
  assert (c ≠ x22 ∧ c ≠ x5c ∧ (32 <=? b2z c)%Z = true) as (? & ? & ?%Z.leb_le); [|done].
  revert Hc. byte_cases c.
Qed.

Lemma stored_raw t iv : raw (stored t iv).
Proof. apply b64_raw. Qed.

Lemma bid_key_raw n b : peer_name n → peer_name b → raw (bid_key n b).
Proof.
  intros (_ & _ & Hn) (_ & _ & Hb). unfold bid_key, PREFIX, SEP, raw in *.
  rewrite !Forall_app. split_and!; try done; by_evaluation.
Qed.

Lemma items_raw l m n items stub : sys_inv l m → bids_inv m → in_sync stub l → peer_only stub → peer_name n →
  bid_items l stub n items → Forall item_raw items.
Proof.
  intros Hinv Hbids Hsync Honly Hn Hit. apply list.Forall_forall. intros p Hp.
  destruct (item_bid l stub n items Hsync Honly Hn Hit p Hp) as (b & ver & Hb & Ek & Hf).
  split; [rewrite Ek, bid_sgx_key by done; by apply bid_key_raw|].
  pose proof (si_rep _ _ Hinv _ (house_bid n b Hn Hb)) as Hc. rewrite bid_form_key, bid_ledger_key in Hc.
  cbv beta in Hc. rewrite Hf in Hc. destruct (m !! bid_key n b) as [t|]; cbn in Hc; [|done].
  destruct Hc as (iv & _ & _ & ->). apply stored_raw.
Qed.

(** The honest peer's answer to the range query of [auction_eval]. *)
Lemma holds_bids_honest l m n ebs ctx i stub (w : world S) : sys_inv l m → bids_inv m → peer_name n →
  Forall2 (bid_of n m) (committed_range (bid_composite_key n) l) ebs →
  running ctx i stub l w → in_sync stub l → peer_only stub →
  range_size (committed_range (bid_composite_key n) l) < RANGE_BUFFER_SIZE →
  ∃ w', holds_bids n (map fst ebs) (map snd ebs) ctx w w' true.
Proof.
  intros Hinv Hbids Hn Hebs Hrun Hsync Honly Hsize. pose proof (si_ledger _ _ Hinv) as Hl.
  assert (map_ok (state l)) as Hok by apply Hl.
  destruct (get_range_honest ctx i stub l w n Hrun) as (items & stub' & Hit & Hget); [apply Hl|done..|].
  destruct (bids_entries n m _ _ Hebs) as (Hr & He & Hb).
  exists (set_stub i stub' w). eexists _, (range_json items), 1%Z.
  split; [unfold ocall_get_state_by_partial_composite_key, peer, ocall_get_state_by_partial_composite_key'; rewrite Hget; done|]. cbn [ans_val ans_cmac].
  pose proof (items_raw l m n items stub Hinv Hbids Hsync Honly Hn Hit) as Hraw.
  pose proof (items_fit l stub n items Hsync Honly Hn Hok (si_keys _ _ Hinv) Hit Hsize) as Hfit.
  split_and!; [| |done|done|].
  - rewrite marshal_out_fits by lia. destruct (RANGE_BUFFER_SIZE - length (range_json items)) as [|k] eqn:E; [lia|].
    apply c_string_app. unfold range_json. apply nul_free_app. split; [by_evaluation|].
    apply nul_free_app. split; [|by_evaluation]. clear -Hraw.
    induction Hraw as [|p ps [Hk Hv] _ IH]; [constructor|].
    assert (nul_free (item_json p)) as Hp.
    { unfold item_json. repeat (apply nul_free_app; split); first [by apply raw_nul_free|forall_list]. }
    destruct ps as [|q ps]; [done|]. rewrite items_json_cons.
    apply nul_free_app. split; [done|]. apply nul_free_app. split; [by_evaluation|done].
  - rewrite unmarshal_range by done. rewrite (items_sorted l stub n items) by (done || apply (si_keys _ _ Hinv)). by rewrite Hr.
  - rewrite Hr. replace (concat (map (λ u, u.1 ++ u.2) (map entry_stored (map fst ebs))))
      with (entries_hashed (map fst ebs)) by (unfold entries_hashed; by rewrite (map_map entry_stored)).
    apply check_cmac_self, bid_composite_nul_free, Hn.
Qed.

Lemma empty_bids : bids_inv ∅.
Proof. intros n b t _ _ H. by rewrite lookup_empty in H. Qed.

Lemma in_sync_db stub stub' l : state_db stub' = state_db stub → in_sync stub l → in_sync stub' l.
Proof. unfold in_sync. by intros ->. Qed.
Lemma peer_only_db stub stub' : state_db stub' = state_db stub → peer_only stub → peer_only stub'.
Proof. unfold peer_only. by intros ->. Qed.

End evaluation.

(** ** A concrete run *)

Import ToySystem.

Lemma sim_peer_only {O : OpenSSL} (l : ledger_state) : house_keys (λ k, map_find k (state l)) → peer_only (sim_of l).
Proof.
  intros Hks k x. cbn. case_bool_decide as E; [|done]. rewrite abs_lookup. intros Hk.
  destruct (Hks _ _ Hk) as (f & Hf & Ef). exists f. split; [done|]. by rewrite <-E, Ef, peer_key_form.
Qed.

(** An invocation at a peer in the state of the ledger after the second block. *)
Definition eval_start : shim_state (world sim) :=
  MkShim {[ 7%Z := 0 ]} {[ 0 := ([], []) ]} 0 []
    (MkWorld 1 {[ 1%Z := sim_of at_b2 ]} {[ 7%Z := 1%Z ]} (MkTlcc (loaded tt) at_b2) false).

(** Bob's is the only bid. *)
Lemma sample_bids_nonneg (bids : list bid_t) :
  (∀ b v, MkBid b v ∈ bids ↔ peer_name b ∧ int_range v ∧
     plain_at (bs "ecc" ++ bid_key A b) at_b2 = Some (bid_text (MkBid b v))) →
  Forall (λ b, 0 <= value b)%Z bids.
Proof.
  intros H. apply list.Forall_forall. intros [b v] Hin. apply H in Hin as (Hb & Hv & Hp).
  unfold plain_at in Hp. rewrite at_b2_state in Hp. cbn [map_find] in Hp.
  rewrite bool_decide_false in Hp; [|intros E; by apply (bid_key_not_name A b A ltac:(by_evaluation))].
  case_bool_decide as E; [|done]. apply app_inv_head in E.
  apply bid_key_inj in E as [_ ->]; [|by_evaluation|by_evaluation|apply Hb|by_evaluation].
  cbn [fmap option_fmap option_map fst] in Hp. unfold plaintext in Hp.
  rewrite open_stored in Hp by by_evaluation. apply (inj Some) in Hp.
  apply bid_text_inj in Hp as E; [injection E as <-; cbn [value]; lia|by_evaluation|by_evaluation|by_evaluation|exact Hv].
Qed.

End Evaluation.
