(* ===== verification/Vscc.v ===== *)
(** * The chaincode wrapper and the validation plugin (src/ecc/enclave_chaincode.go, src/ecc/crypto/ecdsa.go, src/ecc/vscc/ecc_validation_logic.go)

    What happens to the enclave's answer outside the enclaves: the wrapper
    converts signature and key to DER and sends them as JSON; the peer's
    validation plugin recomputes the signed hash from the transaction's read and
    write set, as the ledger enclave does. The theorems: the ledger enclave
    parses exactly the answers that fit its buffers, the two validators hash the
    same bytes for at most one write if and only if no key is read twice and for
    two writes if and only if their values are equal, the plugin accepts what an
    honest peer endorsed, and keys survive the conversion to DER and back if
    their coordinates have no leading zero.

    Go's ASN.1, X.509, ECDSA and JSON decoders and Fabric's protobuf decoder are
    the class [GoLib]. *)
From S2P Require Import Prelude Utils Base64 ParsonText Parson ParsonParse ParsonRoundtrip StdMap Sgx EccCrypto Shim.
From S2P Require Import AuctionJson Auction AuctionSpec Fabric Ledger LedgerProofs TlccEnclave EccEnclave HostLib Ias.
From S2P Require Import Endorsement PeerGlue System Evaluation.
Import Utils Base64 ParsonText Parson ParsonParse ParsonRoundtrip StdMap Sgx EccCrypto Shim AuctionJson Auction
  AuctionSpec Fabric Ledger LedgerProofs TlccEnclave EccEnclave HostLib Ias Endorsement PeerGlue System Evaluation.

Module Vscc.

(** A Go function: a result, an error, or a panic. *)
Inductive go_res (A : Type) := Ret (a : A) | Error | Panic.
Arguments Ret {A}.
Arguments Error {A}.
Arguments Panic {A}.

#[export] Instance go_ret : MRet go_res := λ A, Ret.
#[export] Instance go_bind : MBind go_res := λ A B f m,
  match m with Ret a => f a | Error => Error | Panic => Panic end.

Definition or_error {A} (o : option A) : go_res A := match o with Some a => Ret a | None => Error end.

(** Case analysis on the first step of a computation that returned. *)
Ltac go_inv H :=
  match type of H with
  | context [or_error ?x ≫= _] => destruct x eqn:?; cbn [or_error mbind go_bind] in H; [|done]
  | context [?x ≫= _] => destruct x eqn:?; cbn [mbind go_bind] in H; [|done..]
  end.

(** A slice may be [nil]. *)
Record Response := MkResponse {
  ResponseData : option bytes;
  Signature : option bytes;
  PublicKey : option bytes }.

(** The fields of [rwsetutil.NsRwSet] the plugin reads: the keys of the reads,
    what [GetRawReads] gives for each range query ([None]: [nil], because the
    reads are summarised by Merkle hashes or missing), and the writes. *)
Record NsRwSet := MkNs {
  NameSpace : bytes;
  Reads : list bytes;
  RangeQueriesInfo : list (option (list bytes));
  Writes : list (bytes * bytes) }.

Class GoLib := {
  (** A signature [(R, S)]; an integer of a decoded one may be [nil]. *)
  asn1_Marshal : Z → Z → option bytes;
  asn1_Unmarshal : bytes → option (option Z * option Z);
  (** [None]: not a public key; [Some None]: not an ECDSA key. *)
  ParsePKIXPublicKey : bytes → option (option (Z * Z));
  MarshalPKIXPublicKey : Z * Z → option bytes;
  IsOnCurve : Z → Z → bool;
  (** Key, digest, [R] and [S]. *)
  ecdsa_Verify : Z * Z → bytes → Z → Z → bool;
  Sum256 : bytes → bytes;
  json_Unmarshal : bytes → option Response;
  FromProtoBytes : bytes → option (list NsRwSet) }.

Section go.
Context {G : GoLib}.

(** ** ecdsa.go *)

Definition UnmarshalECDSASignature (raw : bytes) : go_res (Z * Z) :=
  sig ← or_error (asn1_Unmarshal raw);
  match sig with
  | (Some r, Some s) =>
      if bool_decide (r <= 0)%Z then Error else if bool_decide (s <= 0)%Z then Error else Ret (r, s)
  | _ => Error
  end.

(** [input[:32]] and [input[32:]]. *)
Definition split32 (input : bytes) : go_res (bytes * bytes) :=
  if bool_decide (length input < 32) then Panic else Ret (take 32 input, drop 32 input).

Definition MarshalEnclaveSignature (input : bytes) : go_res bytes :=
  p ← split32 input;
  let r := be_value p.1 in
  let s := be_value p.2 in
  if bool_decide (r <= 0)%Z then Error else if bool_decide (s <= 0)%Z then Error
  else or_error (asn1_Marshal r s).

(** [copy] of a number's big-endian bytes, which have no leading zeros, into 32
    zero bytes: left aligned. *)
Definition copy32 (n : Z) : bytes := take 32 (BN_bn2bin n ++ repeat x00 32).

(** The type assertion panics for a key that is not ECDSA. *)
Definition UnmarshalEnclavePk (input : bytes) : go_res bytes :=
  re ← or_error (ParsePKIXPublicKey input);
  match re with
  | None => Panic
  | Some (x, y) => Ret (copy32 x ++ copy32 y)
  end.

Definition EnclavePk2ECDSAPK (input : bytes) : go_res (Z * Z) :=
  p ← split32 input;
  let x := be_value p.1 in
  let y := be_value p.2 in
  if IsOnCurve x y then Ret (x, y) else Error.

Definition MarshalEnclavePk (input : bytes) : go_res bytes :=
  pk ← EnclavePk2ECDSAPK input;
  or_error (MarshalPKIXPublicKey pk).

Definition Verify (args responseData : bytes) (readset writeset : list bytes) (signature enclavePk : bytes)
  : go_res bool :=
  rs ← UnmarshalECDSASignature signature;
  pk ← or_error (ParsePKIXPublicKey enclavePk);
  match pk with
  | None => Error
  | Some pk =>
      let hash := Sum256 (args ++ responseData ++ concat readset ++ concat writeset) in
      let hash2 := Sum256 hash in
      Ret (ecdsa_Verify pk hash2 rs.1 rs.2)
  end.

(** ** The answer of the chaincode: [json.Marshal] of a [Response] *)

Definition bytes_json (o : option bytes) : bytes :=
  match o with None => bs "null" | Some b => [x22] ++ b64_encode b ++ [x22] end.
Definition json_Marshal (r : Response) : bytes :=
  bs "{" ++ [x22] ++ bs "ResponseData" ++ [x22; x3a] ++ bytes_json (ResponseData r) ++
  bs "," ++ [x22] ++ bs "Signature" ++ [x22; x3a] ++ bytes_json (Signature r) ++
  bs "," ++ [x22] ++ bs "PublicKey" ++ [x22; x3a] ++ bytes_json (PublicKey r) ++ bs "}".

(** ** ecc_validation_logic.go *)

(** [sort.Strings]. *)
Fixpoint insert_string (k : bytes) (l : list bytes) : list bytes :=
  match l with
  | [] => [k]
  | k' :: l' => match bytes_compare k k' with Gt => k' :: insert_string k l' | _ => k :: l end
  end.
Definition sort_Strings (l : list bytes) : list bytes := foldr insert_string [] l.

(** The keys of the range queries; [nil.KvReads] panics. *)
Fixpoint rangeKeys (rqis : list (option (list bytes))) : go_res (list bytes) :=
  match rqis with
  | [] => Ret []
  | None :: _ => Panic
  | Some KvReads :: rqis => ks ← rangeKeys rqis; Ret (map TransformToSGX KvReads ++ ks)
  end.
Definition readKeys (ns : NsRwSet) : go_res (list bytes) :=
  ks ← rangeKeys (RangeQueriesInfo ns); Ret (map TransformToSGX (Reads ns) ++ ks).
Definition writeKeys (ns : NsRwSet) : list bytes := map (λ w, TransformToSGX w.1) (Writes ns).
Definition writesetMap (ns : NsRwSet) : gmap bytes bytes :=
  fold_left (λ m w, <[TransformToSGX w.1 := w.2]> m) (Writes ns) ∅.

Definition readset (ns : NsRwSet) : go_res (list bytes) := ks ← readKeys ns; Ret (sort_Strings ks).
Definition writeset (ns : NsRwSet) : list bytes :=
  concat (map (λ k, [k; default [] (writesetMap ns !! k)]) (sort_Strings (writeKeys ns))).

(** [GetStateMultipleKeys] of the channel's state: an error, or the values. *)
Abbreviation fetched := (bytes → list bytes → option (list (option bytes))).

(** [GetState]: an error, or the value ([nil] when there is none). *)
Definition GetState' (st : fetched) (namespace key : bytes) : option (option bytes) :=
  values ← st namespace [key];
  match values with [] => Some None | v :: _ => Some v end.

(** One name space of the transaction; others than "ecc" are skipped. *)
Definition check_ns (st : fetched) (Args : list bytes) (payload : option bytes) (ns : NsRwSet) : go_res unit :=
  if bool_decide (NameSpace ns ≠ bs "ecc") then Ret tt
  else
    match Args, payload with
    | args :: _, Some payload =>
        response ← or_error (json_Unmarshal payload);
        let pk := default [] (PublicKey response) in
        let base64PublicKey := b64_encode (Sum256 pk) in
        match GetState' st (bs "ercc") base64PublicKey with
        | None | Some None => Error
        | Some (Some _) =>
            rs ← readset ns;
            isValid ← Verify args (default [] (ResponseData response)) rs (writeset ns)
              (default [] (Signature response)) pk;
            if (isValid : bool) then Ret tt else Error
        end
    | _, _ => Panic
    end.

Fixpoint check_all (st : fetched) (Args : list bytes) (payload : option bytes) (l : list NsRwSet) : go_res unit :=
  match l with
  | [] => Ret tt
  | ns :: l' => _ ← check_ns st Args payload ns; check_all st Args payload l'
  end.

Definition checkEnclaveEndorsement (FetchState : option fetched) (Args : list bytes)
  (respPayload : protos_ChaincodeAction) : go_res unit :=
  channelState ← or_error FetchState;
  txRWSet ← or_error (FromProtoBytes (default [] (act_results respPayload)));
  check_all channelState Args (act_response_payload respPayload) txRWSet.

(** ** The wrapper *)

Context {C : Crypto} {PL : Platform} {O : OpenSSL} {F : FabricPb} {S : Type} {SS : ShimStub S}.

(** [GetPublicKey]: the result of the call is not looked at. *)
Definition GetPublicKey (es : enclave_state (world S)) : res (go_res bytes) :=
  r ← sgxcc_get_pk SGX_SUCCESS es;
  match r.2 with None => UB Uninitialised | Some pk => Ok (MarshalEnclavePk pk) end.

(** [invoke] of the wrapper, on the string arguments of the proposal: the
    enclave's answer in JSON, with the transaction's stub after the call. *)
Definition invoke_cc (argss : list bytes) (stub : S) (ctx : Z) (es : enclave_state (world S))
  : res (go_res bytes * option S * enclave_state (world S)) :=
  match argss with
  | args :: pk :: _ =>
      r ← Invoke args pk stub ctx es;
      let '(ret, stub', es') := r in
      match ret with
      | None => Ok (Error, stub', es')
      | Some (responseData, sig) =>
          match MarshalEnclaveSignature sig with
          | Ret signature =>
              r ← GetPublicKey es';
              Ok (enclavePk ← r;
                  Ret (json_Marshal (MkResponse (Some responseData) (Some signature) (Some enclavePk))), stub', es')
          | Error => Ok (Error, stub', es')
          | Panic => Ok (Panic, stub', es')
          end
      end
  | _ => Ok (Panic, Some stub, es)
  end.

(** [Bind]: without report or key the enclave is bound to nothing, and whether
    the enclave accepted the report is not looked at. *)
Definition Bind (report : option sgx_report_t) (pk : option bytes) (es : enclave_state (world S))
  : res (go_res unit * enclave_state (world S)) :=
  match report, pk with
  | Some report, Some pk =>
      match UnmarshalEnclavePk pk with
      | Ret transPk => r ← sgxcc_bind SGX_SUCCESS (Some report) (Some transPk) es; Ok (Ret tt, r.2)
      | Error => Ok (Error, es)
      | Panic => Ok (Panic, es)
      end
  | _, _ => r ← sgxcc_bind SGX_SUCCESS None None es; Ok (Ret tt, r.2)
  end.
End go.

(** ** Parsing the answer in the ledger enclave *)

Definition response_object (rd sg pk : bytes) : JSON_Object :=
  MkObject [(bs "ResponseData", JSONString (b64_encode rd)); (bs "Signature", JSONString (b64_encode sg));
            (bs "PublicKey", JSONString (b64_encode pk))] 3.

Lemma json_Marshal_eq rd sg pk : json_Marshal (MkResponse (Some rd) (Some sg) (Some pk)) =
  x7b :: x22 :: bs "ResponseData" ++ x22 :: x3a :: x22 :: b64_encode rd ++ x22 ::
  x2c :: x22 :: bs "Signature" ++ x22 :: x3a :: x22 :: b64_encode sg ++ x22 ::
  x2c :: x22 :: bs "PublicKey" ++ x22 :: x3a :: x22 :: b64_encode pk ++ x22 :: [x7d].
Proof. unfold json_Marshal, bytes_json. cbn [ResponseData Signature PublicKey]. by rewrite <-!app_assoc. Qed.

Lemma parse_response rd sg pk :
  json_parse_string (Some (json_Marshal (MkResponse (Some rd) (Some sg) (Some pk)))) =
  Ok (Some (JSONObject (response_object rd sg pk))).
Proof.
  unfold json_parse_string, parse_text. rewrite json_Marshal_eq.
  set (t := bs "ResponseData" ++ _). change (skip_bom (x7b :: x22 :: t)) with (x7b :: x22 :: t).
  assert (∃ f, Datatypes.S (2 * length (x7b :: x22 :: t)) = Datatypes.S (Datatypes.S (Datatypes.S (Datatypes.S (Datatypes.S f)))))
    as [f Hf] by (exists (2 * length t); cbn [length]; lia).
  rewrite Hf, parse_object_start by (unfold MAX_NESTING; lia). subst t. clear Hf.
  destruct (member_comma (Datatypes.S (Datatypes.S f)) json_object_init (bs "ResponseData") (b64_encode rd)
    (bs "Signature" ++ x22 :: x3a :: x22 :: b64_encode sg ++ x22 ::
     x2c :: x22 :: bs "PublicKey" ++ x22 :: x3a :: x22 :: b64_encode pk ++ x22 :: [x7d]) 1)
    as (o1 & Ho1 & ->); [by_evaluation|apply b64_raw|unfold MAX_NESTING; lia|by_evaluation|constructor|apply not_elem_of_nil|].
  cbn [obj_pairs json_object_init app] in Ho1.
  destruct (member_comma (Datatypes.S f) o1 (bs "Signature") (b64_encode sg)
    (bs "PublicKey" ++ x22 :: x3a :: x22 :: b64_encode pk ++ x22 :: [x7d]) 1)
    as (o2 & Ho2 & ->);
    [by_evaluation|apply b64_raw|unfold MAX_NESTING; lia|by_evaluation|rewrite Ho1; by_evaluation..|].
  rewrite Ho1 in Ho2. cbn [app] in Ho2.
  rewrite member_last;
    [by rewrite Ho2|by_evaluation|apply b64_raw|unfold MAX_NESTING; lia|by_evaluation|rewrite Ho2; by_evaluation..].
Qed.

Lemma response_fields rd sg pk : let o := json_value_get_object (Some (JSONObject (response_object rd sg pk))) in
  json_object_get_string o (bs "ResponseData") = Some (b64_encode rd) ∧
  json_object_get_string o (bs "Signature") = Some (b64_encode sg) ∧
  json_object_get_string o (bs "PublicKey") = Some (b64_encode pk).
Proof. done. Qed.

Lemma copy_field_b64 o k m : json_object_get_string o k = Some (b64_encode m) →
  copy_field o k = if bool_decide (length m <= 96) then Ok m else UB OutOfBounds.
Proof. intros H. unfold copy_field. rewrite H. cbn [deref mbind res_bind]. by rewrite b64_text_decode. Qed.

(** C21: the ledger enclave recovers response, signature and key from the answer
    the wrapper sends, when each fits the buffer of 96 bytes it is copied to;
    otherwise [unmarshal_ecc_response] writes past the end of a buffer. *)
Theorem ecc_response_parsed rd sg pk :
  unmarshal_ecc_response (json_Marshal (MkResponse (Some rd) (Some sg) (Some pk))) =
  if bool_decide (length rd <= 96 ∧ length sg <= 96 ∧ length pk <= 96) then Ok (rd, sg, pk) else UB OutOfBounds.
Proof.
  unfold unmarshal_ecc_response. rewrite parse_response. cbn [mbind res_bind].
  destruct (response_fields rd sg pk) as (H1 & H2 & H3).
  rewrite (copy_field_b64 _ _ _ H1), (copy_field_b64 _ _ _ H2), (copy_field_b64 _ _ _ H3).
  by repeat (case_bool_decide; cbn [mbind res_bind]); naive_solver.
Qed.

(** ** Both validators hash the same bytes *)

(** The Go view of a decoded read and write set; a missing field is empty. *)
Definition ns_of (name : bytes) (kv : kvrwset_KVRWSet) : NsRwSet :=
  MkNs name (map (λ r, default [] (read_key r)) (reads kv))
    (map (λ q, match q with raw_reads l => Some (map (λ r, default [] (read_key r)) l) | _ => None end)
       (range_queries_info kv))
    (map (λ w, (default [] (write_key w), default [] (write_value w))) (writes kv)).

(** The keys are those of a chaincode: components and names are not empty and
    have no NUL. *)
Record er_forms (e : ecc_rwset) : Prop := {
  ef_ranges : Forall (Forall (λ p, comps_ok p.1)) (er_ranges e);
  ef_reads : Forall (λ p, p.1 ≠ [] ∧ nul_free p.1) (er_reads e);
  ef_writes : Forall (λ p, form_ok p.1) (er_writes e) }.

Lemma insert_string_perm k l : Permutation (insert_string k l) (k :: l).
Proof.
  induction l as [|k' l IH]; [done|]. cbn [insert_string]. destruct (bytes_compare k k'); [done..|].
  etrans; [by apply perm_skip, IH|apply perm_swap].
Qed.

Lemma sort_Strings_perm l : Permutation (sort_Strings l) l.
Proof. induction l as [|k l IH]; [done|]. etrans; [apply insert_string_perm|by apply perm_skip]. Qed.

Lemma insert_string_sorted k l : sorted l → k ∉ l → sorted (insert_string k l).
Proof.
  induction l as [|k' l IH]; intros Hs Hk; [apply sorted_cons; split; constructor|].
  cbn [insert_string]. destruct (bytes_compare k k') eqn:E.
  - apply bytes_compare_eq in E as ->. by destruct Hk; apply list_elem_of_here.
  - apply sorted_cons. split; [done|]. apply sorted_cons in Hs as [_ Hlt]. constructor; [done|].
    eapply list.Forall_impl; [exact Hlt|]. intros x Hx. by eapply bytes_lt_trans.
  - apply sorted_cons in Hs as [Hs Hlt]. apply sorted_cons. split.
    + apply IH; [done|]. intros H. by apply Hk, list_elem_of_further.
    + rewrite insert_string_perm. constructor; [|done]. unfold bytes_lt. by rewrite bytes_compare_antisym, E.
Qed.

Lemma sort_Strings_nodup l : NoDup l → sort_Strings l = read_all l [].
Proof.
  intros Hl. symmetry. apply read_all_ext; [|intros x; by rewrite sort_Strings_perm].
  induction Hl as [|k l Hk _ IH]; [constructor|]. cbn [sort_Strings foldr].
  apply insert_string_sorted; [done|]. by rewrite sort_Strings_perm.
Qed.

(** The length of a concatenation does not depend on the order. *)
Lemma length_concat_perm (l l' : list bytes) : Permutation l l' → length (concat l) = length (concat l').
Proof. induction 1; cbn [concat]; rewrite ?length_app; lia. Qed.

Lemma read_all_nodup l : NoDup (read_all l []).
Proof. apply sorted_NoDup, read_all_sorted. constructor. Qed.

(** A set loses bytes if a key is repeated. *)
Lemma read_all_repeated l : Forall (λ k, k ≠ []) l →
  length (concat (read_all l [])) = length (concat l) → NoDup l.
Proof.
  intros Hne Hlen.
  destruct (submseteq_Permutation (read_all l []) l) as [rest Hp].
  { apply NoDup_submseteq; [apply read_all_nodup|]. intros x. rewrite elem_of_read_all. set_solver. }
  rewrite (length_concat_perm _ _ Hp), concat_app, length_app in Hlen.
  destruct rest as [|k rest].
  - rewrite Hp, app_nil_r. apply read_all_nodup.
  - rewrite Hp in Hne. apply Forall_app in Hne as [_ Hne]. apply Forall_cons_iff in Hne as [Hk _].
    cbn [concat] in Hlen. rewrite length_app in Hlen. destruct k; [done|]. cbn [length] in Hlen. lia.
Qed.

Lemma range_keys_sgx q : Forall (λ p, comps_ok p.1) q →
  map TransformToSGX (map (λ r, default [] (read_key r)) (range_reads q)) = map (λ p, composite_key p.1) q.
Proof.
  induction 1 as [|p q Hp _ IH]; [done|]. cbn [range_reads map read_key default from_option id]. f_equal; [|exact IH].
  apply TransformToSGX_composite. eapply list.Forall_impl; [exact Hp|]. by intros c [_ ?].
Qed.

Lemma ranges_keys_sgx qs : Forall (Forall (λ p, comps_ok p.1)) qs →
  rangeKeys (map (λ q, match q with raw_reads l => Some (map (λ r, default [] (read_key r)) l) | _ => None end)
    (map (λ q, raw_reads (range_reads q)) qs)) = Ret (map (λ p, composite_key p.1) (concat qs)).
Proof.
  induction 1 as [|q qs Hq _ IH]; [done|]. cbn [map concat rangeKeys]. rewrite IH. cbn [mbind go_bind].
  by rewrite map_app, range_keys_sgx.
Qed.

Lemma reads_keys_sgx l : Forall (λ p : bytes * version_t, p.1 ≠ [] ∧ nul_free p.1) l →
  map TransformToSGX (map (λ r, default [] (read_key r)) (plain_reads l)) = map fst l.
Proof.
  induction 1 as [|p l [_ Hp] _ IH]; [done|]. cbn [plain_reads map read_key default from_option id].
  f_equal; [|exact IH]. by apply TransformToSGX_nul_free.
Qed.

Lemma readKeys_er e : er_forms e →
  ∃ ks, readKeys (ns_of (bs "ecc") (er_fabric e)) = Ret ks ∧ Permutation ks (er_keys e).
Proof.
  intros [H1 H2 _]. unfold readKeys, er_keys. cbn [ns_of Reads RangeQueriesInfo er_fabric reads range_queries_info].
  rewrite reads_keys_sgx, ranges_keys_sgx by done. eexists. split; [done|]. apply Permutation_app_comm.
Qed.

Lemma form_key_sgx f : form_ok f → TransformToSGX (fabric_key f) = form_key f.
Proof.
  destruct f as [k|c]; cbn.
  - intros [_ Hk]. by apply TransformToSGX_nul_free.
  - intros Hc. apply TransformToSGX_composite. eapply list.Forall_impl; [exact Hc|]. by intros x [_ ?].
Qed.

Lemma writeset_one e f val : er_forms e → er_writes e = [(f, val)] →
  concat (writeset (ns_of (bs "ecc") (er_fabric e))) = concat (map (λ p, p.1 ++ p.2) (er_write_set e)).
Proof.
  intros [_ _ Hw] E. unfold writeset, writeKeys, writesetMap, er_write_set. cbn [ns_of Writes er_fabric writes].
  rewrite E in *. apply Forall_cons_iff in Hw as [Hf _].
  cbn [map write_key write_value default from_option id fst snd fold_left].
  rewrite form_key_sgx by done. cbn [sort_Strings foldr insert_string map concat app put_all fold_left map_insert fst snd].
  rewrite lookup_insert_eq. cbn [default from_option id]. by rewrite !app_nil_r.
Qed.

Lemma writeset_short e : er_forms e → length (er_writes e) <= 1 →
  concat (writeset (ns_of (bs "ecc") (er_fabric e))) = concat (map (λ p, p.1 ++ p.2) (er_write_set e)).
Proof.
  intros He Hl. destruct (er_writes e) as [|[f val] [|? ?]] eqn:E; cbn [length] in Hl; [| |lia].
  - unfold writeset, writeKeys, writesetMap, er_write_set. cbn [ns_of Writes er_fabric writes]. by rewrite E.
  - by eapply writeset_one.
Qed.

(** Two writes of different keys: the plugin pairs each key with its value, the
    ledger each with the value of the first write. *)
Lemma writeset_two e f0 v0 f1 v1 : er_forms e → er_writes e = [(f0, v0); (f1, v1)] → form_key f0 ≠ form_key f1 →
  concat (writeset (ns_of (bs "ecc") (er_fabric e))) = concat (map (λ p, p.1 ++ p.2) (er_write_set e)) ↔ v0 = v1.
Proof.
  intros [_ _ Hw] E Hne. unfold writeset, writeKeys, writesetMap, er_write_set. cbn [ns_of Writes er_fabric writes].
  rewrite E in *. apply Forall_cons_iff in Hw as [Hf0 Hw]. apply Forall_cons_iff in Hw as [Hf1 _].
  cbn [map write_key write_value default from_option id fst snd fold_left].
  rewrite !form_key_sgx by done. cbn [sort_Strings foldr insert_string put_all fold_left fst map_insert].
  set (k0 := form_key f0) in *. set (k1 := form_key f1) in *.
  rewrite (bytes_compare_antisym k0 k1).
  assert (<[k1:=v1]> (<[k0:=v0]> (∅ : gmap bytes bytes)) !! k0 = Some v0) as L0
    by (rewrite lookup_insert_ne by done; apply lookup_insert_eq).
  assert (<[k1:=v1]> (<[k0:=v0]> (∅ : gmap bytes bytes)) !! k1 = Some v1) as L1 by apply lookup_insert_eq.
  destruct (bytes_compare k0 k1) eqn:Ec; cbn [CompOpp].
  - by apply bytes_compare_eq in Ec.
  - cbn [map concat app fst snd map_insert]. rewrite L0, L1. cbn [default from_option id]. rewrite !app_nil_r, <-!app_assoc.
    split; [|by intros ->]. intros H. by apply app_inv_head, app_inv_head, app_inv_head in H.
  - cbn [map concat app fst snd map_insert]. rewrite L0, L1. cbn [default from_option id]. rewrite !app_nil_r, <-!app_assoc.
    split; [|by intros ->]. intros H. apply app_inv_head in H.
    apply (f_equal length) in H as Hl. rewrite !length_app in Hl.
    apply app_inj_1 in H as [-> _]; [done|lia].
Qed.

Lemma er_keys_nonempty e : er_forms e → Forall (λ k, k ≠ []) (er_keys e).
Proof.
  intros [_ H _]. apply Forall_app. split; apply List.Forall_map.
  - by apply list.Forall_true.
  - eapply list.Forall_impl; [exact H|]. by intros p [? _].
Qed.

Lemma sort_Strings_ext l l' : Permutation l l' → NoDup l → sort_Strings l = sort_Strings l'.
Proof.
  intros Hp Hl. rewrite !sort_Strings_nodup by (by rewrite <-?Hp). apply read_all_ext; [apply read_all_sorted; constructor|].
  intros x. rewrite elem_of_read_all, Hp. set_solver.
Qed.

Lemma app_middle_inj (a b x y w : bytes) : a ++ b ++ x ++ w = a ++ b ++ y ++ w ↔ x = y.
Proof. split; [|by intros ->]. intros E. by apply app_inv_head, app_inv_head, app_inv_tail in E. Qed.

(** The keys both validators hash when none is read twice. *)
Lemma readset_er e : er_forms e →
  ∃ rs, readset (ns_of (bs "ecc") (er_fabric e)) = Ret rs ∧ Permutation rs (er_keys e) ∧
    (NoDup (er_keys e) → rs = read_all (er_keys e) []).
Proof.
  intros He. destruct (readKeys_er e He) as (ks & E & Hp). unfold readset. rewrite E. cbn [mbind go_bind].
  eexists. split_and!; [done|by rewrite sort_Strings_perm|]. intros Hnd.
  rewrite (sort_Strings_ext _ _ Hp) by (by rewrite Hp). by apply sort_Strings_nodup.
Qed.

Lemma same_bytes args response e : er_forms e → length (er_writes e) <= 1 → NoDup (er_keys e) →
  let ns := ns_of (bs "ecc") (er_fabric e) in
  ∃ rs, readset ns = Ret rs ∧
  args ++ response ++ concat rs ++ concat (writeset ns) =
  signed_bytes args response (read_all (er_keys e) []) (er_write_set e).
Proof.
  intros He Hl Hnd ns. destruct (readset_er e He) as (rs & E & _ & Hrs). exists rs. split; [done|].
  unfold signed_bytes. subst ns. by rewrite (writeset_short e He Hl), Hrs.
Qed.


(** A range query whose reads are summarised by Merkle hashes: the plugin panics
    and the ledger enclave reads the wrong member of the union. *)
Lemma merkle_range_faults {O : OpenSSL} {F : FabricPb} kv acc n (s : ledger_state) :
  decode_KVRWSet (default [] (rwset n)) = Some kv → is_Some (rwset n) → ns n = Some (bs "ecc") →
  head (range_queries_info kv) = Some reads_merkle_hashes →
  readset (ns_of (bs "ecc") kv) = Panic ∧ ns_reads acc n s = UB WrongMember.
Proof.
  intros Hd [rw Hrw] Hn Hh. rewrite Hrw in Hd. cbn [default from_option id] in Hd.
  destruct (range_queries_info kv) as [|q qs] eqn:Eq; [done|]. injection Hh as ->. split.
  - unfold readset, readKeys. cbn [ns_of RangeQueriesInfo]. by rewrite Eq.
  - unfold ns_reads. rewrite Hrw, Hn. erewrite lm_bind_eq; [|by apply decode_ptr_ok].
    erewrite lm_bind_eq; [|done]. by rewrite Eq.
Qed.

(** ** Documented behaviour of the libraries *)

(** The numbers of a 64-byte key or signature, big endian. *)
Definition halves (m : bytes) : Z * Z := (be_value (take 32 m), be_value (drop 32 m)).

(** DER and JSON round trips, SHA-256, and that a key pair of the platform signs:
    [sgx_ecdsa_sign] signs the hash of its input. *)
Class GoLaws (G : GoLib) (C : Crypto) (PL : Platform) : Prop := {
  asn1_roundtrip r s : (0 < r)%Z → (0 < s)%Z →
    ∃ raw, asn1_Marshal r s = Some raw ∧ asn1_Unmarshal raw = Some (Some r, Some s);
  pkix_roundtrip x y : IsOnCurve x y = true →
    ∃ raw, MarshalPKIXPublicKey (x, y) = Some raw ∧ ParsePKIXPublicKey raw = Some (Some (x, y));
  response_roundtrip rd sg pk : let r := MkResponse (Some rd) (Some sg) (Some pk) in
    json_Unmarshal (json_Marshal r) = Some r;
  Sum256_sha256 m : Sum256 m = sha256 m;
  keys_on_curve n pk : swap_halves (create_key_pair n).2.2 = Ok pk → IsOnCurve (halves pk).1 (halves pk).2 = true;
  signature_verifies n d sig sig' pk : ecdsa_sign d (create_key_pair n).2.1 = (SGX_SUCCESS, sig) →
    swap_halves sig = Ok sig' → swap_halves (create_key_pair n).2.2 = Ok pk →
    (0 < (halves sig').1)%Z ∧ (0 < (halves sig').2)%Z ∧
    ecdsa_Verify (halves pk) (sha256 d) (halves sig').1 (halves sig').2 = true }.

(** Both decoders read the same messages. *)
Definition go_ns {F : FabricPb} (n : ns_rwset) : option NsRwSet :=
  kv ← decode_KVRWSet (default [] (rwset n)); Some (ns_of (default [] (ns n)) kv).
Class SameWire (G : GoLib) (F : FabricPb) : Prop :=
  same_wire results tx : decode_TxReadWriteSet results = Some tx →
    FromProtoBytes results = mapM go_ns (ns_rwsets tx).

(** ** Keys in DER and back *)

(** A coordinate that fills its 32 bytes (or is zero). *)
Definition full (h : bytes) : Prop := significant h ∨ h = repeat x00 32.

#[global] Instance significant_dec h : Decision (significant h).
Proof. destruct h; apply _. Defined.
#[global] Instance full_dec h : Decision (full h).
Proof. unfold full. apply _. Defined.

Definition full_coordinates (pk : bytes) : Prop := full (take 32 pk) ∧ full (drop 32 pk).

Lemma strip_nil h : strip_leading h = [] → h = repeat x00 (length h).
Proof.
  induction h as [|c h IH]; [done|]. cbn [strip_leading length repeat].
  destruct (decide (c = x00)) as [->|Hc]; [intros E; by rewrite <-IH|]. by destruct c.
Qed.

Lemma copy32_iff h : length h = 32 → copy32 (be_value h) = h ↔ full h.
Proof.
  intros Hl. unfold copy32. rewrite BN_bn2bin_value. split.
  - intros E. destruct (decide (significant h)) as [|Hs]; [by left|]. right.
    destruct (strip_leading h) as [|c t] eqn:Et; [by rewrite <-Hl; apply strip_nil|].
    destruct Hs. rewrite <-E. pose proof (strip_significant h) as Hc. by rewrite Et in Hc.
  - intros [Hs| ->]; [|done]. rewrite strip_id by done. by rewrite take_app_length'.
Qed.

Section keys.
Context {C : Crypto} {L : CryptoLaws C} {PL : Platform} {PLL : PlatformLaws PL} {O : OpenSSL} {F : FabricPb} {S : Type} {SS : ShimStub S}.
Context {G : GoLib} {GL : GoLaws G C PL}.

Lemma split32_ok m : length m = 64 → split32 m = Ret (take 32 m, drop 32 m).
Proof. intros Hl. unfold split32. by rewrite bool_decide_false by lia. Qed.

Lemma marshal_pk pk : length pk = 64 → IsOnCurve (halves pk).1 (halves pk).2 = true →
  ∃ raw, MarshalEnclavePk pk = Ret raw ∧ ParsePKIXPublicKey raw = Some (Some (halves pk)).
Proof.
  intros Hl Hc. destruct (pkix_roundtrip _ _ Hc) as (raw & Hm & Hp). exists raw. split; [|done].
  unfold MarshalEnclavePk, EnclavePk2ECDSAPK. rewrite split32_ok by done. cbn [mbind go_bind fst snd].
  unfold halves in *. cbn [fst snd] in *. rewrite Hc. cbn [mbind go_bind]. by rewrite Hm.
Qed.

Lemma unmarshal_pk_iff pk raw : length pk = 64 → ParsePKIXPublicKey raw = Some (Some (halves pk)) →
  ∃ pk', UnmarshalEnclavePk raw = Ret pk' ∧ length pk' = 64 ∧ (pk' = pk ↔ full_coordinates pk).
Proof.
  intros Hl Hp. unfold UnmarshalEnclavePk. rewrite Hp. cbn [mbind go_bind or_error halves].
  assert (∀ n, length (copy32 n) = 32) as H32.
  { intros n. unfold copy32. rewrite length_take, length_app, repeat_length. lia. }
  eexists. split; [done|]. rewrite length_app, !H32. split; [done|].
  rewrite <-(take_drop 32 pk) at 3. unfold full_coordinates.
  rewrite <-!copy32_iff by (rewrite ?length_take, ?length_drop; lia). split.
  - intros E. apply app_inj_1 in E; [done|]. rewrite H32, length_take. lia.
  - by intros [-> ->].
Qed.

(** C39: the wrapper binds the chaincode enclave to the key of the ledger enclave
    only if both coordinates of the key fill their 32 bytes: the conversion from
    DER shifts a shorter coordinate to the left, the enclave refuses the report
    of another key, and the wrapper reports success all the same. *)
Theorem bind_needs_full_coordinates (t : tlcc_state) target report pk (es : enclave_state (world S)) :
  ecall_create_report target (identity t) = Ok (SGX_SUCCESS, Some report, pk) →
  verify_report report = SGX_SUCCESS → IsOnCurve (halves pk).1 (halves pk).2 = true →
  ∃ raw pk', MarshalEnclavePk pk = Ret raw ∧ UnmarshalEnclavePk raw = Ret pk' ∧
    (full_coordinates pk → ∃ es', Bind (Some report) (Some raw) es = Ok (Ret tt, es') ∧ tlcc_pk es' = pk) ∧
    (¬ full_coordinates pk → pk' ≠ pk ∧
       (sha256 pk' ≠ sha256 pk → Bind (Some report) (Some raw) es = Ok (Ret tt, es))).
Proof.
  intros (Hl & Hd & _)%create_report_inv Hv Hc. destruct (marshal_pk pk Hl Hc) as (raw & Hm & Hp).
  destruct (unmarshal_pk_iff pk raw Hl Hp) as (pk' & Hu & Hl' & Hiff).
  exists raw, pk'. split_and!; [done..| |].
  - intros Hf%Hiff. subst pk'. unfold Bind. rewrite Hu. unfold sgxcc_bind, ecall, ecall_bind_tlcc.
    rewrite load_all, Hd, Hv by done.
    repeat rewrite bool_decide_false by (intros Hn; by apply Hn). by eexists.
  - intros Hf. rewrite <-Hiff in Hf. split; [done|]. intros Hne. unfold Bind. rewrite Hu.
    unfold sgxcc_bind, ecall, ecall_bind_tlcc. rewrite bool_decide_false by (intros Hn; by apply Hn).
    rewrite load_all, Hd, bool_decide_true by done. done.
Qed.

(** ** The plugin accepts honest endorsements *)

Lemma marshal_signature sig : length sig = 64 → (0 < (halves sig).1)%Z → (0 < (halves sig).2)%Z →
  ∃ raw, MarshalEnclaveSignature sig = Ret raw ∧ UnmarshalECDSASignature raw = Ret (halves sig).
Proof.
  intros Hl Hr Hs. destruct (asn1_roundtrip _ _ Hr Hs) as (raw & Hm & Hu). exists raw.
  unfold MarshalEnclaveSignature, UnmarshalECDSASignature. rewrite split32_ok, Hu by done.
  unfold halves in *. cbn [mbind go_bind or_error fst snd] in *.
  rewrite !bool_decide_false by lia. by rewrite Hm.
Qed.

Lemma call_er_forms c cur iv ver : call_ok c → call_nonempty c → er_forms (call_er c cur iv ver).
Proof.
  intros Hc Hne. split; cbn [er_ranges er_reads er_writes call_er].
  - constructor.
  - constructor; [|constructor]. split; [by destruct c; cbn in *; naive_solver|by apply call_auction_nul_free].
  - destruct (call_spec c cur).2 as [[k plain]|]; [|constructor]. constructor; [by apply call_form_ok|constructor].
Qed.

(** The bytes the plugin hashes for the transaction of a call. *)
Lemma call_bytes c cur iv ver args response : call_ok c → call_nonempty c →
  let ns := ns_of (bs "ecc") (er_fabric (call_er c cur iv ver)) in
  ∃ rs, readset ns = Ret rs ∧
  args ++ response ++ concat rs ++ concat (writeset ns) = invocation_bytes args response (call_rwset c cur iv).
Proof.
  intros Hc Hne ns. subst ns. destruct (same_bytes args response (call_er c cur iv ver)) as (rs & E & H).
  - by apply call_er_forms.
  - unfold call_er. cbn [er_writes]. destruct (call_spec c cur).2 as [[k plain]|]; cbn [length]; lia.
  - apply NoDup_singleton.
  - exists rs. split; [done|]. rewrite H. by rewrite call_write_set.
Qed.

Context {SIM : Simulator S} {SL : ShimLaws S SS SIM} {SH : SameHash C O} {SW : SameWire G F}.

(** The key is in the registry's part of the channel state. *)
Definition registered (st : bytes → list bytes → option (list (option bytes))) (pk_der : bytes) : Prop :=
  ∃ report, GetState' st (bs "ercc") (b64_encode (Sum256 pk_der)) = Some (Some report).

Lemma check_ns_accepts st args rest rd sg pk_der ns rset rs pk : readset ns = Ret rset → NameSpace ns = bs "ecc" → registered st pk_der →
  UnmarshalECDSASignature sg = Ret rs → ParsePKIXPublicKey pk_der = Some (Some pk) →
  ecdsa_Verify pk (Sum256 (Sum256 (args ++ rd ++ concat rset ++ concat (writeset ns)))) rs.1 rs.2 = true →
  check_ns st (args :: rest) (Some (json_Marshal (MkResponse (Some rd) (Some sg) (Some pk_der)))) ns = Ret tt.
Proof.
  intros Hrset Hn [report Hr] Hs Hk Hv. unfold check_ns. rewrite Hn, bool_decide_false by (intros H; by apply H).
  rewrite response_roundtrip. cbn [or_error mbind go_bind PublicKey ResponseData Signature default from_option id].
  rewrite Hr, Hrset. cbn [mbind go_bind]. unfold Verify. rewrite Hs, Hk. cbn [or_error mbind go_bind]. by rewrite Hv.
Qed.

Lemma GetPublicKey_ok (es : enclave_state (world S)) pk : length (enclave_pk es) = 64 →
  swap_halves (enclave_pk es) = Ok pk → GetPublicKey es = Ok (MarshalEnclavePk pk).
Proof.
  intros Hl Hsw. unfold GetPublicKey, sgxcc_get_pk, ecall_get_pk.
  rewrite bool_decide_false by (intros Hn; by apply Hn). rewrite load_all by done.
  cbn [mbind res_bind]. by rewrite Hsw.
Qed.

(** A call through the wrapper and its validation; [pk_der] is the key of the
    enclave in DER. *)
Lemma accepts_auction c cur ctx (es : enclave_state (world S)) stub l n :
  call_ok c → call_peer c → context (shim es) !! ctx = None →
  ledger (tlcc (Shim.world (shim es))) = l → lock l = false → in_sync stub l →
  tx_reads stub = [] → tx_writes stub = [] → committed_record l (call_auction c) cur →
  enclave_sk es = (create_key_pair n).2.1 → enclave_pk es = (create_key_pair n).2.2 →
  (∀ d, (ecdsa_sign d (enclave_sk es)).1 = SGX_SUCCESS) →
  let args := args_text (call_args c) in
  ∃ payload signature pk pk_der stub' es', swap_halves (enclave_pk es) = Ok pk ∧ MarshalEnclavePk pk = Ret pk_der ∧
    invoke_cc [args; []] stub ctx es = Ok (Ret payload, Some stub', es') ∧
    payload = json_Marshal (MkResponse (Some (call_spec c cur).1) (Some signature) (Some pk_der)) ∧
    fabric_rwset stub' = er_fabric (call_er c cur (rand_iv (rand_count (shim es)))
      (db_version (map_find (ecc_key (call_auction c)) (state l)))) ∧
    ∀ st action results rw, registered st pk_der →
      act_results action = Some results → act_response_payload action = Some payload →
      decode_TxReadWriteSet results = Some (MkTxRwset [MkNsRwset (Some (bs "ecc")) (Some rw)]) →
      decode_KVRWSet rw = Some (fabric_rwset stub') →
      checkEnclaveEndorsement (Some st) [args; []] action = Ret tt.
Proof.
  intros Hc Hp Hctx Hl Hlk Hsync Hr Hw Hrec Hsk Hpk Hsign args.
  pose (iv := rand_iv (rand_count (shim es))).
  pose (d := sha256 (invocation_bytes args (call_spec c cur).1 (call_rwset c cur iv))).
  destruct (ecdsa_sign d (enclave_sk es)) as [ret sig] eqn:Es.
  pose proof (Hsign d) as Hret. rewrite Es in Hret. cbn in Hret. subst ret.
  destruct (swap_halves_ok sig) as (sig' & Hsw & Hls & _).
  { pose proof (signature_length d (enclave_sk es)) as H. by rewrite Es in H. }
  destruct (swap_halves_ok (enclave_pk es)) as (pk & Hswk & Hlk' & _); [rewrite Hpk; apply public_key_length|].
  destruct (Invoke_auction c cur ctx es stub l sig sig')
    as (stub' & es' & Hi & Hrd & Hwr & _ & _ & _ & _ & Hpk'); [done..|].
  rewrite Hsk in Es. rewrite Hpk in Hswk.
  destruct (signature_verifies n d sig sig' pk Es Hsw Hswk) as (Hr1 & Hs1 & Hver).
  destruct (marshal_signature sig' Hls Hr1 Hs1) as (signature & Hms & Hus).
  destruct (marshal_pk pk Hlk') as (pk_der & Hmk & Hparse); [by eapply keys_on_curve|].
  exists (json_Marshal (MkResponse (Some (call_spec c cur).1) (Some signature) (Some pk_der))), signature, pk, pk_der, stub', es'.
  assert (fabric_rwset stub' = er_fabric (call_er c cur iv (db_version (map_find (ecc_key (call_auction c)) (state l))))) as Hfab
    by (unfold fabric_rwset; by rewrite Hrd, Hwr, <-call_rwset_fabric).
  split_and!; [by rewrite Hpk|done| |done..|].
  - unfold invoke_cc. fold args in Hi. rewrite Hi. cbn [mbind res_bind]. rewrite Hms.
    rewrite (GetPublicKey_ok es' pk) by (by rewrite Hpk', Hpk; try apply public_key_length).
    cbn [mbind res_bind]. by rewrite Hmk.
  - intros st action results rw Hreg Hres Hpay Htx Hkv. unfold checkEnclaveEndorsement. rewrite Hres, Hpay.
    cbn [or_error mbind go_bind default from_option id]. rewrite (same_wire _ _ Htx).
    assert (go_ns (MkNsRwset (Some (bs "ecc")) (Some rw)) = Some (ns_of (bs "ecc") (fabric_rwset stub'))) as Hns
      by (unfold go_ns; cbn; by rewrite Hkv).
    cbn [ns_rwsets mapM]. rewrite Hns. cbn [mret option_ret mbind option_bind or_error go_bind check_all].
    rewrite Hfab.
    destruct (call_bytes c cur iv (db_version (map_find (ecc_key (call_auction c)) (state l))) args (call_spec c cur).1)
      as (rset & Hrset & Hbytes); [done|by apply call_peer_nonempty|].
    erewrite check_ns_accepts; [done|exact Hrset|done|done|exact Hus|exact Hparse|].
    rewrite Hbytes, !Sum256_sha256. exact Hver.
Qed.

(** The peer's validation plugin accepts what an honest peer endorsed. An
    auction call through the wrapper yields an answer in JSON; a transaction
    with this answer and the read and write set the call left in the simulator
    passes [checkEnclaveEndorsement] once the enclave's key is registered. *)
Theorem vscc_accepts_auction c cur ctx (es : enclave_state (world S)) stub l n :
  call_ok c → call_peer c → context (shim es) !! ctx = None →
  ledger (tlcc (Shim.world (shim es))) = l → lock l = false → in_sync stub l →
  tx_reads stub = [] → tx_writes stub = [] → committed_record l (call_auction c) cur →
  enclave_sk es = (create_key_pair n).2.1 → enclave_pk es = (create_key_pair n).2.2 →
  (∀ d, (ecdsa_sign d (enclave_sk es)).1 = SGX_SUCCESS) →
  let args := args_text (call_args c) in
  ∃ payload signature pk_der stub' es',
    invoke_cc [args; []] stub ctx es = Ok (Ret payload, Some stub', es') ∧
    payload = json_Marshal (MkResponse (Some (call_spec c cur).1) (Some signature) (Some pk_der)) ∧
    fabric_rwset stub' = er_fabric (call_er c cur (rand_iv (rand_count (shim es)))
      (db_version (map_find (ecc_key (call_auction c)) (state l)))) ∧
    ∀ st action results rw, registered st pk_der →
      act_results action = Some results → act_response_payload action = Some payload →
      decode_TxReadWriteSet results = Some (MkTxRwset [MkNsRwset (Some (bs "ecc")) (Some rw)]) →
      decode_KVRWSet rw = Some (fabric_rwset stub') →
      checkEnclaveEndorsement (Some st) [args; []] action = Ret tt.
Proof.
  intros Hc Hp Hctx Hl Hlk Hsync Hr Hw Hrec Hsk Hpk Hsign args.
  destruct (accepts_auction c cur ctx es stub l n) as (payload & signature & pk & pk_der & stub' & es' & _ & _ & H); [done..|].
  by exists payload, signature, pk_der, stub', es'.
Qed.
End keys.

(** ** Concrete libraries

    Keys and signatures that start with a one, pairs of numbers written in
    binary, the JSON decoder of the ledger enclave without its limits. *)
Module ToyGo.
Export ToySystem.
Import ToyPlatform.

Definition key_half (n : nat) : bytes := x01 :: pad 31 [z2b (Z.of_nat n)].
Definition sig_half (h : bytes) : bytes := x01 :: Toy.checksum 31 h.

Definition go_platform : Platform := {|
  open_context _ := SGX_SUCCESS;
  create_key_pair n := (SGX_SUCCESS, (reverse (key_half n), reverse (key_half n) ++ reverse (key_half n)));
  compute_shared_dhkey sk pk := (SGX_SUCCESS, pad 32 (rev pk));
  ecdsa_sign d sk := (SGX_SUCCESS, pad 32 sk ++ reverse (sig_half (Toy.checksum 32 d)));
  verify_report r := if bool_decide (report_mac r = Toy.checksum 16 (report_data r)) then SGX_SUCCESS
                     else SGX_ERROR_UNEXPECTED;
  create_report t d := (SGX_SUCCESS, MkReport (repeat x05 32) [] [] (default [] d) (Toy.checksum 16 (default [] d))) |}.

Fixpoint pos_bytes (p : positive) : bytes :=
  match p with xH => [] | xO p => x00 :: pos_bytes p | xI p => x01 :: pos_bytes p end.
Fixpoint bytes_pos (b : bytes) : positive :=
  match b with [] => xH | x00 :: b => xO (bytes_pos b) | _ :: b => xI (bytes_pos b) end.
Definition put_pair (p : Z * Z) : bytes := pos_bytes (encode p).
Definition get_pair (b : bytes) : option (Z * Z) := decode (bytes_pos b).

Lemma get_put_pair p : get_pair (put_pair p) = Some p.
Proof.
  unfold get_pair, put_pair. rewrite <-(decode_encode p). f_equal.
  generalize (encode p). intros q. by induction q as [q IH|q IH|]; cbn; rewrite ?IH.
Qed.

Definition parse_fields (b : bytes) : option Response :=
  match json_parse_string (Some b) with
  | Ok root =>
      let field k := option_map (λ t, b64_decode (cstr t)) (json_object_get_string (json_value_get_object root) k) in
      Some (MkResponse (field (bs "ResponseData")) (field (bs "Signature")) (field (bs "PublicKey")))
  | _ => None
  end.

Definition go_lib (F : FabricPb) : GoLib := {|
  asn1_Marshal r s := Some (put_pair (r, s));
  asn1_Unmarshal b := option_map (λ p, (Some p.1, Some p.2)) (get_pair b);
  ParsePKIXPublicKey b := option_map Some (get_pair b);
  MarshalPKIXPublicKey p := Some (put_pair p);
  IsOnCurve _ _ := true;
  ecdsa_Verify pk h r s := bool_decide (r = pk.1) && bool_decide (s = be_value (sig_half h));
  Sum256 := Toy.checksum 32;
  json_Unmarshal := parse_fields;
  FromProtoBytes b := tx ← decode_TxReadWriteSet b; mapM go_ns (ns_rwsets tx) |}.

#[export] Instance go_same_wire F : SameWire (go_lib F) F.
Proof. intros results tx H. cbn. by rewrite H. Qed.

Lemma be_value_one t : (0 < be_value (x01 :: t))%Z.
Proof.
  destruct (be_value_lower (x01 :: t)) as [H|H]; [done| |done].
  assert (0 < 256 ^ Z.of_nat (length (x01 :: t)))%Z by (apply Z.pow_pos_nonneg; lia). lia.
Qed.

Lemma pad_length n m : length (pad n m) = n.
Proof. unfold pad. rewrite length_take, length_app, repeat_length. lia. Qed.
Lemma key_half_length n : length (key_half n) = 32.
Proof. unfold key_half. cbn [length]. by rewrite pad_length. Qed.
Lemma sig_half_length h : length (sig_half h) = 32.
Proof. done. Qed.

Lemma halves_app (a b : bytes) : length a = 32 → halves (a ++ b) = (be_value a, be_value b).
Proof. intros Ha. unfold halves. by rewrite take_app_length', drop_app_length'. Qed.

#[export] Instance go_platform_laws : PlatformLaws go_platform.
Proof.
  split; intros; cbn [create_key_pair ecdsa_sign create_report go_platform fst snd]; [..|done];
    by rewrite length_app, ?length_reverse, ?pad_length, ?key_half_length, ?sig_half_length.
Qed.

#[export] Instance go_laws F : GoLaws (go_lib F) Toy.toy_crypto go_platform.
Proof.
  split; cbn [asn1_Marshal asn1_Unmarshal MarshalPKIXPublicKey ParsePKIXPublicKey json_Unmarshal Sum256 IsOnCurve
    ecdsa_Verify go_lib create_key_pair ecdsa_sign go_platform fst snd].
  - intros r s _ _. eexists. by rewrite get_put_pair.
  - intros x y _. eexists. by rewrite get_put_pair.
  - intros rd sg pk. unfold parse_fields. rewrite parse_response.
    destruct (response_fields rd sg pk) as (-> & -> & ->). cbn [option_map]. by rewrite !b64_text_decode.
  - done.
  - done.
  - intros n d sig sig' pk Hsig.
    assert (sig = reverse (key_half n) ++ reverse (sig_half (Toy.checksum 32 d))) as ->.
    { apply (f_equal snd) in Hsig. cbn [snd] in Hsig. by rewrite <-Hsig. }
    clear Hsig.
    rewrite !swap_halves_rev by (by rewrite ?length_reverse, ?key_half_length).
    rewrite !reverse_involutive. intros H1 H2.
    assert (key_half n ++ sig_half (Toy.checksum 32 d) = sig') as <- by congruence.
    assert (key_half n ++ key_half n = pk) as <- by congruence. rewrite !halves_app by (by rewrite key_half_length).
    cbn [fst snd]. rewrite !bool_decide_true by done. split_and!; [apply be_value_one..|done].
Qed.

Definition go_enclave (l : ledger_state) : enclave_state (world sim) :=
  MkEnclave (MkShim ∅ ∅ 0 [] (MkWorld 0 ∅ ∅ (MkTlcc (loaded tt) l) false))
    (create_key_pair (Platform := go_platform) 0).2.1 (create_key_pair (Platform := go_platform) 0).2.2
    (repeat x00 64) 1 0.
End ToyGo.

Import ToyGo.

Lemma vscc_accepts_auction_witness :
  ∃ payload stub' es',
    invoke_cc (G := go_lib sample_pb) (PL := go_platform) [args_text (call_args (Create A)); []] (sim_of at_genesis) 7
      (go_enclave at_genesis) = Ok (Ret payload, Some stub', es') ∧
    checkEnclaveEndorsement (G := go_lib sample_pb) (Some (λ _ _, Some [Some (bs "report")]))
      [args_text (call_args (Create A)); []] (MkAction (Some (bs "create")) (Some payload) (Some (bs "ecc"))) = Ret tt.
Proof.
  destruct (vscc_accepts_auction (G := go_lib sample_pb) (PL := go_platform) (S := sim)
    (Create A) None 7 (go_enclave at_genesis) (sim_of at_genesis) at_genesis 0)
    as (payload & sg & pk & stub' & es' & Hi & Hp & Hfab & Hacc);
    [by_evaluation|by_evaluation|reflexivity|reflexivity|reflexivity|apply sim_in_sync|reflexivity|reflexivity
    |reflexivity|reflexivity|reflexivity|reflexivity|].
  exists payload, stub', es'. split; [exact Hi|].
  apply (Hacc _ (MkAction (Some (bs "create")) (Some payload) (Some (bs "ecc"))) (bs "create") (bs "create"));
    [by exists (bs "report")|reflexivity|reflexivity|reflexivity|].
  rewrite Hfab. reflexivity.
Defined.

(** A read that appears twice, in the plain reads and in a range, and one that
    does not. *)
Definition two_reads (c : list bytes) : ecc_rwset :=
  MkEccRwset [[(c, MkVersion 1 0)]] [(bs ".a.", MkVersion 1 0)] [].

(** Two writes. *)
Definition two_writes (v0 v1 : bytes) : ecc_rwset := MkEccRwset [] [] [(Plain (bs "k0"), v0); (Plain (bs "k1"), v1)].

Definition pb_of (e : ecc_rwset) : FabricPb := ToyFabric.toy_pb (bs "ecc") [] (er_fabric e).
Definition ecc_ns (rw : bytes) : ns_rwset := MkNsRwset (Some (bs "ecc")) (Some rw).

Lemma same_result {O : OpenSSL} {A} (r : res ((Z + A) * ledger_state)) a b s s' :
  r = Ok (inr a, s) → r = Ok (inr b, s') → a = b.
Proof. congruence. Qed.
Lemma two_reads_set : ns_reads (F := pb_of (two_reads [bs "a"])) (true, []) (ecc_ns []) initial = Ok (inr (true, [bs ".a."]), initial).
Proof. reflexivity. Qed.
Lemma no_writes_set : ∃ s', ns_writes (F := pb_of (two_reads [bs "a"])) (MkVersion 2 0) [] (ecc_ns []) initial = Ok (inr [], s').
Proof. exists initial. reflexivity. Qed.
Lemma no_reads_set : ns_reads (F := pb_of (two_writes (bs "x") (bs "y"))) (true, []) (ecc_ns []) initial = Ok (inr (true, []), initial).
Proof. reflexivity. Qed.
Lemma two_writes_set : ∃ s', ns_writes (F := pb_of (two_writes (bs "x") (bs "y"))) (MkVersion 2 0) [] (ecc_ns []) initial =
  Ok (inr [(bs "k0", bs "x"); (bs "k1", bs "x")], s').
Proof. exists (set_updates (er_update (two_writes (bs "x") (bs "y")) (MkVersion 2 0) []) initial). reflexivity. Qed.


(** A ledger enclave whose key has short coordinates. *)
Definition short_tlcc : tlcc_state :=
  MkTlcc (MkEnclave (MkShim ∅ ∅ 0 [] tt) [] (ToyPlatform.pad 64 (bs "public key")) [] 1 0) at_genesis.
Definition short_report : sgx_report_t * bytes :=
  match ecall_create_report (PL := go_platform) (MkTarget [] [] []) (identity short_tlcc) with
  | Ok (_, Some r, pk) => (r, pk)
  | _ => (zero_report, [])
  end.

Lemma bind_needs_full_coordinates_witness :
  ∃ raw, MarshalEnclavePk (G := go_lib sample_pb) short_report.2 = Ret raw ∧
    Bind (G := go_lib sample_pb) (PL := go_platform) (Some short_report.1) (Some raw) (go_enclave at_genesis) =
    Ok (Ret tt, go_enclave at_genesis).
Proof.
  destruct (bind_needs_full_coordinates (G := go_lib sample_pb) (PL := go_platform) (S := sim) short_tlcc
    (MkTarget [] [] []) short_report.1 short_report.2 (go_enclave at_genesis))
    as (raw & pk' & Hm & Hu & _ & Hshort); [reflexivity|reflexivity|reflexivity|].
  exists raw. split; [exact Hm|]. destruct Hshort as [_ Hb].
  - intros [H _]. revert H. apply (bool_decide_unpack _). vm_compute. exact I.
  - apply Hb. assert (pk' = (match UnmarshalEnclavePk (G := go_lib sample_pb)
      (match MarshalEnclavePk (G := go_lib sample_pb) short_report.2 with Ret r => r | _ => [] end) with
      Ret k => k | _ => [] end)) as -> by (by rewrite Hm, Hu). apply (bool_decide_unpack _). vm_compute. exact I.
Defined.
End Vscc.
