(* ===== verification/Registry.v ===== *)
(** * The enclave registry and its validation plugin (src/ercc/ercc.go,
    src/ercc/attestation/verifier.go, src/ercc/attestation/ias.go,
    src/ercc/vscc/ercc_validation_logic.go, src/ecc/ercc/stub.go)

    The chaincode that registers the keys of chaincode enclaves, and the
    validation of its transactions. A report of the attestation service is
    stored under the hash of the enclave's key; the peers check its signature,
    the key and the measurement in its quote before they commit it, and the
    validation plugin of the chaincode ([Vscc]) accepts only registered keys.
    Go's decoders, X.509, RSA, TLS and HTTP are the class [RegLib]. *)
From S2P Require Import Prelude Utils Base64 StdMap Sgx EccEnclave Fabric LedgerProofs TlccEnclave HostLib Ias System Vscc.
Import Utils Base64 StdMap Sgx EccEnclave Fabric LedgerProofs TlccEnclave HostLib Ias System Vscc.

Module Registry.

(** ** Data *)

(** The fields of [IASReportBody] that are always there. *)
Record IASReportBody := MkBody {
  body_ID : bytes;
  IsvEnclaveQuoteStatus : bytes;
  IsvEnclaveQuoteBody : bytes;
  Timestamp : bytes }.

Record IASAttestationReport := MkAttestation {
  EnclavePk : bytes;
  IASReportSignature : bytes;
  IASReportSigningCertificate : bytes;
  ReportBody : bytes }.

(** [EnclaveQuote]: the fields that are read. *)
Record EnclaveQuote := MkQuote { MrEnclave : bytes; ReportData : bytes }.

Class RegLib := {
  (** [base64.StdEncoding.DecodeString]: what was decoded, and whether there was
      no error. *)
  DecodeString : bytes → bytes * bool;
  (** [json.Marshal] and [json.Unmarshal] of a report, and of a body, where an
      error is ignored. *)
  report_Marshal : IASAttestationReport → bytes;
  report_Unmarshal : bytes → option IASAttestationReport;
  body_Unmarshal : bytes → IASReportBody;
  (** [url.QueryUnescape], empty on an error. *)
  QueryUnescape : bytes → bytes;
  (** [pem.Decode]: the block and the rest, or [nil]. *)
  pem_Decode : bytes → option (bytes * bytes);
  Certificate : Type;
  CertPool : Type;
  ParseCertificate : bytes → option Certificate;
  AppendCertsFromPEM : bytes → option CertPool;
  cert_Verify : Certificate → CertPool → bool;
  (** [x509.ParsePKIXPublicKey] and the assertion to an RSA key. *)
  rsa_PublicKey : Type;
  ParsePKIX_rsa : bytes → option (option rsa_PublicKey);
  VerifyPKCS1v15 : rsa_PublicKey → bytes → bytes → bool;
  tls_Certificate : Type;
  X509KeyPair : bytes → bytes → option tls_Certificate;
  (** A POST to the service: an error, or the status code, the headers and the
      body (or an error while it is read). *)
  http_post : tls_Certificate → bytes → option (Z * (bytes → bytes) * option bytes);
  (** The built-in key of the service. *)
  IntelPubPEM : bytes }.

(** [GetStateMultipleKeys] of the channel's state. *)
Abbreviation fetched := (bytes → list bytes → option (list (option bytes))).

(** The committed state of the channel, by name space and key, and the read and
    write sets of a transaction. *)
Abbreviation channel := (gmap (bytes * bytes) bytes).
Abbreviation transaction := (list NsRwSet).

Section registry.
Context {G : GoLib} {R : RegLib}.

(** ** verifier.go *)

(** [binary.Read] into the 432 bytes of [EnclaveQuote]; [MrEnclave] is at 112,
    [ReportData] at 368. *)
Definition quote_size : nat := 432.
Definition QuoteFromBytes (quoteAsBytes : bytes) : go_res EnclaveQuote :=
  if bool_decide (length quoteAsBytes < quote_size) then Error
  else Ret (MkQuote (take 32 (drop 112 quoteAsBytes)) (take 64 (drop 368 quoteAsBytes))).

Definition QuoteFromBase64 (quoteBase64 : bytes) : go_res EnclaveQuote :=
  let '(quoteAsBytes, ok) := DecodeString quoteBase64 in
  if ok then QuoteFromBytes quoteAsBytes else Error.

Definition QuoteFromAttestionReport (report : IASAttestationReport) : go_res EnclaveQuote :=
  QuoteFromBase64 (IsvEnclaveQuoteBody (body_Unmarshal (ReportBody report))).

(** The certificates come with the report; a text without a PEM block is a
    [nil] dereference. The key is [None] for one that is not RSA. *)
Definition VerifyAttestionReport (verificationPubKey : option rsa_PublicKey) (report : IASAttestationReport)
  : go_res bool :=
  let certs := QueryUnescape (IASReportSigningCertificate report) in
  match pem_Decode certs with
  | None => Panic
  | Some (block, rest) =>
      signCert ← or_error (ParseCertificate block);
      roots ← or_error (AppendCertsFromPEM rest);
      if negb (cert_Verify signCert roots) then Error
      else
        let signature := (DecodeString (IASReportSignature report)).1 in
        let hashedBody := Sum256 (ReportBody report) in
        rsaPublickey ← or_error verificationPubKey;
        if negb (VerifyPKCS1v15 rsaPublickey hashedBody signature) then Error else Ret true
  end.

(** [mrenclave[:32]] is within the capacity of the decoder's buffer, three
    bytes for four characters. *)
Definition CheckMrEnclave (mrEnclaveBase64 : bytes) (report : IASAttestationReport) : go_res bool :=
  quote ← QuoteFromAttestionReport report;
  let '(mrenclave, ok) := DecodeString mrEnclaveBase64 in
  if negb ok then Error
  else if bool_decide (length mrEnclaveBase64 / 4 * 3 < 32) then Panic
  else Ret (bool_decide (take 32 (mrenclave ++ repeat x00 32) = take 32 (MrEnclave quote))).

Definition CheckEnclavePkHash (pkBytes : bytes) (report : IASAttestationReport) : go_res bool :=
  quote ← QuoteFromAttestionReport report;
  pub ← or_error (ParsePKIXPublicKey pkBytes);
  ecdsaPublickey ← or_error pub;
  let enclavePkHash := Sum256 (BN_bn2bin ecdsaPublickey.1 ++ BN_bn2bin ecdsaPublickey.2) in
  Ret (bool_decide (take 32 enclavePkHash = take 32 (ReportData quote))).

(** ** ias.go *)

(** [json.Marshal] of an [IASRequestBody]. *)
Definition request_json (quoteBase64 : bytes) : bytes :=
  bs "{" ++ [x22] ++ bs "isvEnclaveQuote" ++ [x22; x3a; x22] ++ quoteBase64 ++ [x22] ++ bs "}".

Definition HasPrefix (s prefix : bytes) : bool := bool_decide (take (length prefix) s = prefix).

Definition RequestAttestationReport (cert : tls_Certificate) (quoteAsBytes : bytes) : go_res IASAttestationReport :=
  let quoteAsBase64 := b64_encode quoteAsBytes in
  resp ← or_error (http_post cert (request_json quoteAsBase64));
  let '(StatusCode, header, body) := resp in
  if negb (bool_decide (StatusCode = 200%Z)) then Error
  else
    bodyData ← or_error body;
    let reportBody := body_Unmarshal bodyData in
    if negb (HasPrefix quoteAsBase64 (IsvEnclaveQuoteBody reportBody)) then Error
    else Ret (MkAttestation [] (header (bs "X-IASReport-Signature")) (header (bs "X-IASReport-Signing-Certificate")) bodyData).

Definition PublicKeyFromPem (pem : bytes) : go_res (option rsa_PublicKey) :=
  match pem_Decode pem with
  | None => Error
  | Some (block, _) => or_error (ParsePKIX_rsa block)
  end.
Definition GetIntelVerificationKey : go_res (option rsa_PublicKey) := PublicKeyFromPem IntelPubPEM.

(** ** ercc.go *)

(** The decorations of a proposal. *)
Abbreviation decorations := (gmap bytes bytes).

(** The write of a successful registration: whether [PutState] failed is not
    looked at. *)
Definition registerEnclave (dec : decorations) (args : list bytes) : go_res (bytes * bytes) :=
  match args with
  | pk64 :: quote64 :: more =>
      let '(enclavePkAsBytes, ok) := DecodeString pk64 in
      if negb ok then Error
      else
        let '(quoteAsBytes, ok) := DecodeString quote64 in
        if negb ok then Error
        else
          let certPem := match more with c :: _ => c | [] => default [] (dec !! bs "certPEM") end in
          let keyPem := match more with _ :: k :: _ => k | _ => default [] (dec !! bs "keyPEM") end in
          cert ← or_error (X509KeyPair certPem keyPem);
          attestationReport ← RequestAttestationReport cert quoteAsBytes;
          verificationPK ← GetIntelVerificationKey;
          isValid ← VerifyAttestionReport verificationPK attestationReport;
          if negb isValid then Error
          else
            isValid ← CheckEnclavePkHash enclavePkAsBytes attestationReport;
            if negb isValid then Error
            else
              let stored := MkAttestation enclavePkAsBytes (IASReportSignature attestationReport)
                (IASReportSigningCertificate attestationReport) (ReportBody attestationReport) in
              Ret (b64_encode (Sum256 enclavePkAsBytes), report_Marshal stored)
  | _ => Error
  end.

(** The state of the registry as a lookup that may fail. *)
Definition getAttestationReport (GetState : bytes → option (option bytes)) (args : list bytes) : go_res bytes :=
  match args with
  | [enclavePkHashBase64] =>
      r ← or_error (GetState enclavePkHashBase64);
      or_error r
  | _ => Error
  end.
Definition getSPID (dec : decorations) : option bytes := dec !! bs "SPID".

(** [Invoke]: the payload of the answer and the write. *)
Definition ercc_Invoke (dec : decorations) (GetState : bytes → option (option bytes)) (function : bytes)
  (args : list bytes) : go_res (option bytes * option (bytes * bytes)) :=
  if bool_decide (function = bs "registerEnclave") then w ← registerEnclave dec args; Ret (None, Some w)
  else if bool_decide (function = bs "getAttestationReport")
  then r ← getAttestationReport GetState args; Ret (Some r, None)
  else if bool_decide (function = bs "getSPID") then Ret (getSPID dec, None)
  else Error.

(** ** stub.go of the wrapper *)

Definition GetSPID (dec : decorations) : go_res bytes := or_error (dec !! bs "SPID").

Definition RegisterEnclave (dec : decorations) (GetState : bytes → option (option bytes))
  (enclavePk enclaveQuote : bytes) : go_res (option (bytes * bytes)) :=
  certPEM ← or_error (dec !! bs "certPEM");
  keyPEM ← or_error (dec !! bs "keyPEM");
  resp ← ercc_Invoke dec GetState (bs "registerEnclave") [enclavePk; enclaveQuote; certPEM; keyPEM];
  Ret resp.2.

(** ** ercc_validation_logic.go *)

(** One name space of a transaction. *)
Definition check_ercc_ns (FetchState : option fetched) (ns : NsRwSet) : go_res unit :=
  if bool_decide (NameSpace ns ≠ bs "ercc") then Ret tt
  else
    match Writes ns with
    | [(key, value)] =>
        attestationReport ← or_error (report_Unmarshal value);
        match pem_Decode IntelPubPEM with
        | None => Panic
        | Some (block, _) =>
            verificationPK ← or_error (ParsePKIX_rsa block);
            isValid ← VerifyAttestionReport verificationPK attestationReport;
            if negb isValid then Error
            else if negb (bool_decide (key = b64_encode (Sum256 (EnclavePk attestationReport)))) then Error
            else
              isValid ← CheckEnclavePkHash (EnclavePk attestationReport) attestationReport;
              if negb isValid then Error
              else
                channelState ← or_error FetchState;
                match GetState' channelState (bs "ecc") (bs "MRENCLAVE") with
                | None | Some None => Error
                | Some (Some mrenclave) =>
                    matches ← CheckMrEnclave mrenclave attestationReport;
                    if negb matches then Error else Ret tt
                end
        end
    | _ => Error
    end.

Fixpoint check_ercc_all (FetchState : option fetched) (l : list NsRwSet) : go_res unit :=
  match l with
  | [] => Ret tt
  | ns :: l' => _ ← check_ercc_ns FetchState ns; check_ercc_all FetchState l'
  end.

Definition checkAttestation (FetchState : option fetched) (respPayload : protos_ChaincodeAction) : go_res unit :=
  txRWSet ← or_error (FromProtoBytes (default [] (act_results respPayload)));
  check_ercc_all FetchState txRWSet.
End registry.

(** ** What an accepted registration means *)

Section sound.
Context {G : GoLib} {R : RegLib}.

(** The key and value of a registration, for the measurement on the channel:
    the service signed a body whose quote has the measurement and the hash of
    the key the entry is for. *)
Definition attested (mrenclave key value : bytes) : Prop :=
  ∃ report block rest k quote x y,
    report_Unmarshal value = Some report ∧ key = b64_encode (Sum256 (EnclavePk report)) ∧
    pem_Decode IntelPubPEM = Some (block, rest) ∧ ParsePKIX_rsa block = Some (Some k) ∧
    VerifyPKCS1v15 k (Sum256 (ReportBody report)) (DecodeString (IASReportSignature report)).1 = true ∧
    QuoteFromAttestionReport report = Ret quote ∧
    ParsePKIXPublicKey (EnclavePk report) = Some (Some (x, y)) ∧
    take 32 (ReportData quote) = take 32 (Sum256 (BN_bn2bin x ++ BN_bn2bin y)) ∧
    take 32 (MrEnclave quote) = take 32 ((DecodeString mrenclave).1 ++ repeat x00 32).

Lemma VerifyAttestionReport_sound key report : VerifyAttestionReport key report = Ret true →
  ∃ k, key = Some k ∧ VerifyPKCS1v15 k (Sum256 (ReportBody report)) (DecodeString (IASReportSignature report)).1 = true.
Proof.
  unfold VerifyAttestionReport. intros H. destruct (pem_Decode _) as [[block rest]|]; [|done].
  go_inv H. go_inv H. case_match; [done|]. go_inv H. case_match eqn:E; [done|]. apply negb_false_iff in E. eauto.
Qed.

Lemma CheckEnclavePkHash_sound pk report : CheckEnclavePkHash pk report = Ret true →
  ∃ quote x y, QuoteFromAttestionReport report = Ret quote ∧ ParsePKIXPublicKey pk = Some (Some (x, y)) ∧
    take 32 (ReportData quote) = take 32 (Sum256 (BN_bn2bin x ++ BN_bn2bin y)).
Proof.
  unfold CheckEnclavePkHash. intros H. go_inv H. go_inv H. destruct o as [[x y]|]; [|done]. cbn [or_error mbind go_bind fst snd] in H.
  injection H as H%bool_decide_eq_true. eauto 10.
Qed.

Lemma CheckMrEnclave_sound mr report : CheckMrEnclave mr report = Ret true →
  ∃ quote, QuoteFromAttestionReport report = Ret quote ∧
    take 32 (MrEnclave quote) = take 32 ((DecodeString mr).1 ++ repeat x00 32).
Proof.
  unfold CheckMrEnclave. intros H. go_inv H. destruct (DecodeString mr) as [m ok]. case_match; [done|]. case_match; [done|].
  injection H as H%bool_decide_eq_true. eauto.
Qed.

Lemma check_ercc_ns_sound st ns : check_ercc_ns (Some st) ns = Ret tt → NameSpace ns = bs "ercc" →
  ∃ key value mr, Writes ns = [(key, value)] ∧ GetState' st (bs "ecc") (bs "MRENCLAVE") = Some (Some mr) ∧
    attested mr key value.
Proof.
  unfold check_ercc_ns. intros H Hn. rewrite bool_decide_false in H by (intros Hne; by apply Hne).
  destruct (Writes ns) as [|[key value] [|]] eqn:Ew; [done| |done]. go_inv H.
  destruct (pem_Decode IntelPubPEM) as [[block rest]|] eqn:Ep; [|done]. go_inv H. go_inv H.
  destruct a; cbn [negb] in H; [|done]. case_match eqn:Ek; [done|]. apply negb_false_iff, bool_decide_eq_true in Ek.
  go_inv H. destruct a; cbn [negb] in H; [|done]. cbn [or_error mbind go_bind] in H.
  destruct (GetState' st (bs "ecc") (bs "MRENCLAVE")) as [[mr|]|] eqn:Em; [|done..]. go_inv H.
  destruct a; cbn [negb] in H; [|done].
  destruct (VerifyAttestionReport_sound _ _ Heqg) as (k & -> & Hk).
  destruct (CheckEnclavePkHash_sound _ _ Heqg0) as (quote & x & y & Hq & Hp & Hd).
  destruct (CheckMrEnclave_sound _ _ Heqg1) as (quote' & Hq' & Hm). rewrite Hq in Hq'. injection Hq' as <-.
  exists key, value, mr. split_and!; [done..|]. exists i, block, rest, k, quote, x, y. split_and!; done.
Qed.

(** ** The registry on the channel *)

Definition fetch_of (ch : channel) : fetched := λ namespace keys, Some (map (λ k, ch !! (namespace, k)) keys).

Definition apply_ns (ch : channel) (ns : NsRwSet) : channel :=
  fold_left (λ c w, <[(NameSpace ns, w.1) := w.2]> c) (Writes ns) ch.
Definition apply_tx (ch : channel) (tx : transaction) : channel := fold_left apply_ns tx ch.

Definition writes_to (name : bytes) (tx : transaction) : Prop :=
  ∃ ns, ns ∈ tx ∧ NameSpace ns = name ∧ Writes ns ≠ [].

(** A block is validated in the state before it. The peer leaves out any
    transaction that is not valid for other reasons; one that writes to the
    registry is applied only if the registry's plugin accepts it. *)
Inductive commits (before : channel) : channel → list transaction → channel → Prop :=
  | commits_nil ch : commits before ch [] ch
  | commits_skip ch tx txs ch' : commits before ch txs ch' → commits before ch (tx :: txs) ch'
  | commits_apply ch tx txs ch' :
      (writes_to (bs "ercc") tx → check_ercc_all (Some (fetch_of before)) tx = Ret tt) →
      commits before (apply_tx ch tx) txs ch' → commits before ch (tx :: txs) ch'.

Inductive reachable : channel → Prop :=
  | reachable_start ch : (∀ key, ch !! (bs "ercc", key) = None) → reachable ch
  | reachable_block ch txs ch' : reachable ch → commits ch ch txs ch' → reachable ch'.

Lemma check_ercc_all_in st tx ns : check_ercc_all st tx = Ret tt → ns ∈ tx → check_ercc_ns st ns = Ret tt.
Proof.
  induction tx as [|n tx IH]; [by intros _ ?%not_elem_of_nil|]. cbn [check_ercc_all]. intros H [->|Hin]%elem_of_cons.
  - by destruct (check_ercc_ns st n) as [[]| |].
  - apply IH; [|done]. by destruct (check_ercc_ns st n) as [[]| |].
Qed.

(** Where an entry after a transaction comes from. *)
Lemma apply_ns_lookup ch ns name key value : apply_ns ch ns !! (name, key) = Some value →
  ch !! (name, key) = Some value ∨ (NameSpace ns = name ∧ (key, value) ∈ Writes ns).
Proof.
  unfold apply_ns. revert ch. induction (Writes ns) as [|[k v] ws IH]; intros ch H; [by left|]. cbn [fold_left] in H.
  destruct (IH _ H) as [H'|[H1 H2]]; [|right; split; [done|by right]]. cbn [fst snd] in H'.
  destruct (decide ((NameSpace ns, k) = (name, key))) as [E|E].
  - rewrite E, lookup_insert_eq in H'. simplify_eq. right. split; [done|by left].
  - rewrite lookup_insert_ne in H' by done. by left.
Qed.
Lemma apply_tx_lookup ch tx name key value : apply_tx ch tx !! (name, key) = Some value →
  ch !! (name, key) = Some value ∨ ∃ ns, ns ∈ tx ∧ NameSpace ns = name ∧ (key, value) ∈ Writes ns.
Proof.
  unfold apply_tx. revert ch. induction tx as [|ns tx IH]; intros ch H; [by left|]. cbn [fold_left] in H.
  destruct (IH _ H) as [H'|(ns' & H1 & H2)]; [|right; exists ns'; split; [by right|done]].
  destruct (apply_ns_lookup _ _ _ _ _ H') as [|[H1 H2]]; [by left|]. right. exists ns. split; [by left|done].
Qed.

(** The entries of the registry after a block. *)
Lemma commits_attested before ch txs ch' key value : commits before ch txs ch' →
  ch' !! (bs "ercc", key) = Some value →
  ch !! (bs "ercc", key) = Some value ∨ ∃ mr, before !! (bs "ecc", bs "MRENCLAVE") = Some mr ∧ attested mr key value.
Proof.
  induction 1 as [ch|ch tx txs ch' _ IH|ch tx txs ch' Hv _ IH]; intros H; [by left|by auto|].
  destruct (IH H) as [H'|]; [|by right]. destruct (apply_tx_lookup _ _ _ _ _ H') as [|(ns & Hin & Hn & Hw)]; [by left|].
  right. assert (check_ercc_all (Some (fetch_of before)) tx = Ret tt) as Hc.
  { apply Hv. exists ns. split_and!; [done..|]. intros E. rewrite E in Hw. by apply not_elem_of_nil in Hw. }
  pose proof (check_ercc_all_in _ _ _ Hc Hin) as Hns.
  destruct (check_ercc_ns_sound _ _ Hns Hn) as (k & v & mr & Ew & Em & Ha).
  rewrite Ew in Hw. apply list_elem_of_singleton in Hw. simplify_eq. exists mr. split; [|done].
  unfold GetState', fetch_of in Em. cbn in Em. by injection Em.
Qed.

(** Where the entry of a registered key comes from. *)
Lemma registered_attested ch pk_der : reachable ch → registered (fetch_of ch) pk_der →
  ∃ value ch0 mr, ch !! (bs "ercc", b64_encode (Sum256 pk_der)) = Some value ∧
    reachable ch0 ∧ ch0 !! (bs "ecc", bs "MRENCLAVE") = Some mr ∧
    attested mr (b64_encode (Sum256 pk_der)) value.
Proof.
  intros Hr [value Hv]. unfold GetState', fetch_of in Hv. cbn in Hv. injection Hv as Hv. exists value.
  revert value Hv. induction Hr as [ch Hs|ch txs ch' Hr IH Hc]; intros value Hv; [by rewrite Hs in Hv|].
  destruct (commits_attested _ _ _ _ _ _ Hc Hv) as [H|(mr & Hm & Ha)].
  - destruct (IH value H) as (ch0 & mr & _ & H1 & H2 & H3). by exists ch0, mr.
  - by exists ch, mr.
Qed.
(** Soundness of the registry. In every state of the channel that is
    reached from one without registrations, by blocks with any transactions,
    every key the validation plugin of the chaincode takes for registered has
    an entry that was checked when it was committed: for the measurement then
    on the channel, the attestation service signed a body whose quote has that
    measurement and the hash of a key with the SHA-256 hash of this one. *)
Theorem registry_sound ch pk_der : reachable ch → registered (fetch_of ch) pk_der →
  ∃ value ch0 mr, ch !! (bs "ercc", b64_encode (Sum256 pk_der)) = Some value ∧
    reachable ch0 ∧ ch0 !! (bs "ecc", bs "MRENCLAVE") = Some mr ∧
    attested mr (b64_encode (Sum256 pk_der)) value.
Proof. apply registered_attested. Qed.
End sound.

(** ** Registration of an enclave *)

(** A group of three bytes is four characters whatever follows. *)
Lemma encode_groups_app n : ∀ l, 3 * n <= length l →
  encode_groups l = encode_groups (take (3 * n) l) ++ encode_groups (drop (3 * n) l).
Proof.
  induction n as [|n IH]; intros l Hl; [done|].
  destruct l as [|a [|b [|c l]]]; cbn [length] in Hl; try lia.
  replace (3 * S n) with (S (S (S (3 * n)))) by lia. cbn [take drop encode_groups].
  rewrite (IH l) by lia. by rewrite <-app_assoc.
Qed.
Lemma b64_prefix n q : 3 * n <= length q → HasPrefix (b64_encode q) (b64_encode (take (3 * n) q)) = true.
Proof.
  intros Hl. unfold HasPrefix, b64_encode. rewrite !base64_encode_groups by done. apply bool_decide_eq_true.
  rewrite (encode_groups_app n q Hl). by rewrite take_app_length.
Qed.

(** Documented behaviour: Go's decoders undo its encoders. *)
Class RegLaws (R : RegLib) : Prop := {
  DecodeString_encode b : DecodeString (b64_encode b) = (b, true);
  report_roundtrip r : report_Unmarshal (report_Marshal r) = Some r }.

Section registration.
Context {C : Crypto} {L : CryptoLaws C} {PL : Platform} {PLL : PlatformLaws PL} {G : GoLib} {GL : GoLaws G C PL}.
Context {R : RegLib} {RL : RegLaws R} {W : Type}.
Implicit Types (certPEM keyPEM quote body pk_der xb yb pk s c : bytes) (header : bytes → bytes).
Implicit Types (forged : sgx_report_t) (dec : gmap bytes bytes) (GetState : bytes → option (option bytes)).

(** The quote of a report: [sgx_quote_t] has the report's fields at the offsets
    the verifier reads. *)
Definition quotes (report : sgx_report_t) (quote : bytes) : Prop :=
  quote_size <= length quote ∧ take 32 (drop 112 quote) = mr_enclave report ∧
  take 64 (drop 368 quote) = report_data report.

(** The service answers with a body for the quote that it signed, whatever its
    verdict on the quote. *)
Record service (certPEM keyPEM quote : bytes) (body : bytes) (header : bytes → bytes) : Prop := {
  sv_answer : ∃ cert, X509KeyPair certPEM keyPEM = Some cert ∧
    http_post cert (request_json (b64_encode quote)) = Some (200%Z, header, Some body);
  sv_quote : IsvEnclaveQuoteBody (body_Unmarshal body) = b64_encode (take quote_size quote);
  sv_signed : ∃ block rest key, pem_Decode IntelPubPEM = Some (block, rest) ∧ ParsePKIX_rsa block = Some (Some key) ∧
    ∀ pk, VerifyAttestionReport (Some key) (MkAttestation pk (header (bs "X-IASReport-Signature"))
      (header (bs "X-IASReport-Signing-Certificate")) body) = Ret true }.

Lemma service_request certPEM keyPEM quote body header cert : service certPEM keyPEM quote body header →
  quote_size <= length quote → X509KeyPair certPEM keyPEM = Some cert →
  RequestAttestationReport cert quote = Ret (MkAttestation [] (header (bs "X-IASReport-Signature"))
    (header (bs "X-IASReport-Signing-Certificate")) body).
Proof.
  intros [(cert' & Hc & Hp) Hq _] Hl Hc'. rewrite Hc in Hc'. injection Hc' as <-.
  unfold RequestAttestationReport. rewrite Hp. cbn [or_error mbind go_bind].
  rewrite (bool_decide_true (200%Z = 200%Z)) by done. cbn [negb]. rewrite Hq.
  change quote_size with (3 * 144) in *. by rewrite b64_prefix.
Qed.

Lemma service_body_quote certPEM keyPEM quote body header pk s c : service certPEM keyPEM quote body header →
  quote_size <= length quote → QuoteFromAttestionReport (MkAttestation pk s c body) =
    Ret (MkQuote (take 32 (drop 112 quote)) (take 64 (drop 368 quote))).
Proof.
  intros [_ Hq _] Hl. unfold QuoteFromAttestionReport, QuoteFromBase64. cbn [ReportBody]. rewrite Hq, DecodeString_encode.
  unfold QuoteFromBytes. rewrite length_take, bool_decide_false by lia. unfold quote_size in *.
  by rewrite !take_drop_commute, !take_take.
Qed.

(** The hash of the key in the quote, against the key in DER. *)
Lemma check_pk_quote certPEM keyPEM quote body header report pk pk_der s c (xb yb : bytes) :
  service certPEM keyPEM quote body header → quotes report quote → take 32 (report_data report) = sha256 (xb ++ yb) →
  ParsePKIXPublicKey pk_der = Some (Some (be_value xb, be_value yb)) →
  CheckEnclavePkHash pk_der (MkAttestation pk s c body) =
  Ret (bool_decide (sha256 (strip_leading xb ++ strip_leading yb) = sha256 (xb ++ yb))).
Proof.
  intros Hs (Hl & _ & Hd) Hr Hp. unfold CheckEnclavePkHash.
  rewrite (service_body_quote certPEM keyPEM quote body header) by done. rewrite Hp. cbn [or_error mbind go_bind fst snd ReportData].
  rewrite !BN_bn2bin_value, Hd, Hr, Sum256_sha256. rewrite (take_ge (sha256 _)) by (by rewrite sha256_length). done.
Qed.

Lemma check_mr_quote certPEM keyPEM quote body header report pk s c :
  service certPEM keyPEM quote body header → quotes report quote →
  CheckMrEnclave (b64_encode (mr_enclave report)) (MkAttestation pk s c body) = Ret true.
Proof.
  intros Hs (Hl & Hm & _). assert (length (mr_enclave report) = 32) as H32.
  { rewrite <-Hm, length_take, length_drop. unfold quote_size in Hl. lia. }
  unfold CheckMrEnclave. rewrite (service_body_quote certPEM keyPEM quote body header) by done.
  cbn [mbind go_bind MrEnclave]. rewrite DecodeString_encode. cbn [negb].
  assert (length (b64_encode (mr_enclave report)) = 44) as ->
    by (apply Nat2Z.inj; rewrite b64_encode_length, H32; reflexivity).
  rewrite bool_decide_false by (vm_compute; lia).
  rewrite take_app_le, Hm by lia. by rewrite bool_decide_true.
Qed.

(** The entry of a registration. *)
Definition entry (pk_der body : bytes) (header : bytes → bytes) : NsRwSet :=
  MkNs (bs "ercc") [] [] [(b64_encode (Sum256 pk_der), report_Marshal (MkAttestation pk_der
    (header (bs "X-IASReport-Signature")) (header (bs "X-IASReport-Signing-Certificate")) body))].

Lemma register_result certPEM keyPEM quote body header report dec GetState (pk_der xb yb : bytes) :
  service certPEM keyPEM quote body header → quotes report quote → take 32 (report_data report) = sha256 (xb ++ yb) →
  ParsePKIXPublicKey pk_der = Some (Some (be_value xb, be_value yb)) →
  dec !! bs "certPEM" = Some certPEM → dec !! bs "keyPEM" = Some keyPEM →
  RegisterEnclave dec GetState (b64_encode pk_der) (b64_encode quote) =
  if bool_decide (sha256 (strip_leading xb ++ strip_leading yb) = sha256 (xb ++ yb))
  then Ret (head (Writes (entry pk_der body header))) else Error.
Proof.
  intros Hs Hq Hr Hp Hc Hk. pose proof Hs as [(cert & Hx & _) _ (block & rest & key & Hpem & Hkey & Hsig)].
  unfold RegisterEnclave. rewrite Hc, Hk. cbn [or_error mbind go_bind]. unfold ercc_Invoke.
  rewrite (bool_decide_true (bs "registerEnclave" = _)) by done. unfold registerEnclave. rewrite !DecodeString_encode. cbn [negb].
  rewrite Hx. cbn [or_error mbind go_bind]. rewrite (service_request certPEM keyPEM quote body header) by (done || by apply Hq).
  cbn [mbind go_bind]. unfold GetIntelVerificationKey, PublicKeyFromPem. rewrite Hpem, Hkey. cbn [or_error mbind go_bind].
  rewrite Hsig. cbn [mbind go_bind negb].
  rewrite (check_pk_quote certPEM keyPEM quote body header report _ _ _ _ xb yb) by done. cbn [mbind go_bind].
  by destruct (bool_decide _).
Qed.

Lemma entry_accepted certPEM keyPEM quote body header (report : sgx_report_t) (pk_der xb yb : bytes) (ch : channel) :
  service certPEM keyPEM quote body header → quotes report quote → take 32 (report_data report) = sha256 (xb ++ yb) →
  ParsePKIXPublicKey pk_der = Some (Some (be_value xb, be_value yb)) →
  strip_leading xb ++ strip_leading yb = xb ++ yb →
  ch !! (bs "ecc", bs "MRENCLAVE") = Some (b64_encode (mr_enclave report)) →
  check_ercc_all (Some (fetch_of ch)) [entry pk_der body header] = Ret tt ∧
  registered (fetch_of (apply_tx ch [entry pk_der body header])) pk_der.
Proof.
  intros Hs Hq Hr Hp Hxy Hm. pose proof Hs as [_ _ (block & rest & key & Hpem & Hkey & Hsig)]. split.
  - cbn [check_ercc_all]. unfold check_ercc_ns, entry. cbn [NameSpace Writes].
    rewrite bool_decide_false by (intros H; by apply H). rewrite report_roundtrip. cbn [or_error mbind go_bind].
    rewrite Hpem, Hkey. cbn [or_error mbind go_bind]. rewrite Hsig. cbn [mbind go_bind negb EnclavePk].
    rewrite bool_decide_true by done. cbn [negb].
    rewrite (check_pk_quote certPEM keyPEM quote body header report _ _ _ _ xb yb) by done.
    rewrite Hxy, bool_decide_true by done. cbn [mbind go_bind negb]. unfold GetState', fetch_of. cbn [map mbind option_bind]. rewrite Hm.
    by rewrite (check_mr_quote certPEM keyPEM quote body header).
  - eexists. unfold GetState', fetch_of, apply_tx, apply_ns, entry. cbn [map mbind option_bind fold_left NameSpace Writes fst snd].
    by rewrite lookup_insert_eq.
Qed.

(** Registration from end to end. The enclave reports its key, the platform
    makes the quote and the service answers for it; then, if no coordinate of
    the key starts with a zero byte, the registry writes an entry, the plugin of
    the registry accepts it where the channel has the enclave's measurement, and
    the chaincode's plugin finds the key afterwards. Otherwise the registration
    fails, unless two different messages collide under SHA-256: the verifier
    hashes the coordinates without their leading zeros. *)
Theorem registration_accepted target (es : enclave_state W) (report : sgx_report_t) pk quote certPEM keyPEM body header dec GetState :
  ecall_create_report target es = Ok (SGX_SUCCESS, Some report, pk) → quotes report quote →
  IsOnCurve (halves pk).1 (halves pk).2 = true → service certPEM keyPEM quote body header →
  dec !! bs "certPEM" = Some certPEM → dec !! bs "keyPEM" = Some keyPEM →
  ∃ pk_der, MarshalEnclavePk pk = Ret pk_der ∧
    let registration := RegisterEnclave dec GetState (b64_encode pk_der) (b64_encode quote) in
    (significant (take 32 pk) → significant (drop 32 pk) →
       ∃ key value, registration = Ret (Some (key, value)) ∧
         ∀ ch : channel, ch !! (bs "ecc", bs "MRENCLAVE") = Some (b64_encode (mr_enclave report)) →
           let tx := [MkNs (bs "ercc") [] [] [(key, value)]] in
           check_ercc_all (Some (fetch_of ch)) tx = Ret tt ∧ registered (fetch_of (apply_tx ch tx)) pk_der) ∧
    (¬ significant (take 32 pk) ∨ ¬ significant (drop 32 pk) →
       registration = Error ∨
       (let m := strip_leading (take 32 pk) ++ strip_leading (drop 32 pk) in m ≠ pk ∧ sha256 m = sha256 pk)).
Proof.
  intros (Hl & Hd & _)%create_report_inv Hq Hc Hs Hcert Hkey. destruct (marshal_pk pk Hl Hc) as (pk_der & Hm & Hp).
  exists pk_der. split; [done|]. intros registration.
  set (xb := take 32 pk) in *. set (yb := drop 32 pk) in *. assert (xb ++ yb = pk) as Exy by apply take_drop.
  rewrite <-Exy in Hd. pose proof (register_result certPEM keyPEM quote body header report dec GetState pk_der xb yb
    Hs Hq Hd Hp Hcert Hkey) as Er. fold registration in Er. split.
  - intros Hx Hy. rewrite !strip_id, bool_decide_true in Er by done. eexists _, _. split; [exact Er|].
    intros ch Hch. apply (entry_accepted certPEM keyPEM quote body header report pk_der xb yb ch Hs Hq Hd Hp); [|done].
    by rewrite !strip_id.
  - intros Hshort. case_bool_decide as E; [right|by left]. rewrite <-Exy. split; [|done].
    intros E'. apply (f_equal length) in E'. rewrite !length_app in E'.
    pose proof (strip_length xb). pose proof (strip_length yb). destruct Hshort as [H'|H']; apply strip_shorter in H'; lia.
Qed.

(** C38: the verdict of the service is not looked at. A quote that no enclave made,
    for any key in DER whose coordinates have no leading zeros, and with the
    measurement on the channel, is registered and accepted by the peers when
    the service answers with a signed body, also one that says that the
    signature of the quote is invalid. *)
Theorem invalid_quote_registered forged quote certPEM keyPEM body header dec GetState (pk_der xb yb : bytes) (ch : channel) :
  quotes forged quote → take 32 (report_data forged) = sha256 (xb ++ yb) → significant xb → significant yb →
  ParsePKIXPublicKey pk_der = Some (Some (be_value xb, be_value yb)) →
  service certPEM keyPEM quote body header → dec !! bs "certPEM" = Some certPEM → dec !! bs "keyPEM" = Some keyPEM →
  ch !! (bs "ecc", bs "MRENCLAVE") = Some (b64_encode (mr_enclave forged)) →
  IsvEnclaveQuoteStatus (body_Unmarshal body) = bs "SIGNATURE_INVALID" →
  ∃ key value, RegisterEnclave dec GetState (b64_encode pk_der) (b64_encode quote) = Ret (Some (key, value)) ∧
    let tx := [MkNs (bs "ercc") [] [] [(key, value)]] in
    check_ercc_all (Some (fetch_of ch)) tx = Ret tt ∧ registered (fetch_of (apply_tx ch tx)) pk_der.
Proof.
  intros Hq Hd Hx Hy Hp Hs Hc Hk Hm _. pose proof (register_result certPEM keyPEM quote body header forged dec GetState
    pk_der xb yb Hs Hq Hd Hp Hc Hk) as Er. rewrite !strip_id, bool_decide_true in Er by done.
  eexists _, _. split; [exact Er|]. apply (entry_accepted certPEM keyPEM quote body header forged pk_der xb yb ch Hs Hq Hd Hp); [|done].
  by rewrite !strip_id.
Qed.

(** A transaction whose entry has a certificate without a PEM block makes the
    registry's plugin panic in every peer that validates it, whatever the rest
    of the entry is. *)
Theorem malformed_certificate_panics FetchState key report block rest rsa :
  pem_Decode IntelPubPEM = Some (block, rest) → ParsePKIX_rsa block = Some rsa →
  pem_Decode (QueryUnescape (IASReportSigningCertificate report)) = None →
  check_ercc_all FetchState [MkNs (bs "ercc") [] [] [(key, report_Marshal report)]] = Panic.
Proof.
  intros Hpem Hkey Hc. cbn [check_ercc_all]. unfold check_ercc_ns. cbn [NameSpace Writes].
  rewrite bool_decide_false by (intros H; by apply H). rewrite report_roundtrip. cbn [or_error mbind go_bind].
  rewrite Hpem, Hkey. cbn [or_error mbind go_bind]. unfold VerifyAttestionReport. by rewrite Hc.
Qed.
End registration.

(** ** A concrete service

    It signs by hashing, and answers every quote with the verdict that its
    signature is invalid. *)
Module ToyReg.
Import ToyGo.

Abbreviation fields := (bytes * bytes * bytes * bytes)%type.
Definition put_fields (f : fields) : bytes := pos_bytes (encode f).
Definition get_fields (b : bytes) : option fields := decode (bytes_pos b).
Lemma get_put_fields f : get_fields (put_fields f) = Some f.
Proof.
  unfold get_fields, put_fields. rewrite <-(decode_encode f). f_equal.
  generalize (encode f). intros q. by induction q as [q IH|q IH|]; cbn; rewrite ?IH.
Qed.

Definition body_of (quoteBody : bytes) : bytes := put_fields ([], bs "SIGNATURE_INVALID", quoteBody, []).
Definition answer_body (quote : bytes) : bytes := body_of (b64_encode (take quote_size quote)).
Definition answer_header (body : bytes) (name : bytes) : bytes :=
  if bool_decide (name = bs "X-IASReport-Signature") then b64_encode (Toy.checksum 32 body) else bs "certificate".
Definition requested (request : bytes) : bytes := take (length request - 22) (drop 20 request).

#[export] Instance reg_lib : RegLib := {|
  DecodeString s := (b64_decode s, true);
  report_Marshal r := put_fields (EnclavePk r, IASReportSignature r, IASReportSigningCertificate r, ReportBody r);
  report_Unmarshal b := (λ f : fields, let '(a, s, c, d) := f in MkAttestation a s c d) <$> get_fields b;
  body_Unmarshal b := match get_fields b with Some (a, s, c, d) => MkBody a s c d | None => MkBody [] [] [] [] end;
  QueryUnescape s := s;
  pem_Decode b := match b with [] => None | _ => Some (b, []) end;
  Certificate := unit;
  CertPool := unit;
  ParseCertificate _ := Some tt;
  AppendCertsFromPEM _ := Some tt;
  cert_Verify _ _ := true;
  rsa_PublicKey := unit;
  ParsePKIX_rsa _ := Some (Some tt);
  VerifyPKCS1v15 _ digest signature := bool_decide (signature = digest);
  tls_Certificate := unit;
  X509KeyPair _ _ := Some tt;
  http_post _ request :=
    let body := answer_body (b64_decode (requested request)) in Some (200%Z, answer_header body, Some body);
  IntelPubPEM := bs "key" |}.

#[export] Instance reg_laws : RegLaws reg_lib.
Proof.
  split; cbn [DecodeString report_Unmarshal report_Marshal reg_lib].
  - intros b. by rewrite b64_roundtrip.
  - intros [a s c d]. cbn [EnclavePk IASReportSignature IASReportSigningCertificate ReportBody]. by rewrite get_put_fields.
Qed.

Lemma requested_json q : requested (request_json q) = q.
Proof.
  unfold requested, request_json. rewrite !length_app. cbn [length bs app drop].
  change (drop 20 _) with (q ++ [x22] ++ bs "}"). rewrite take_app_le by (cbn; lia). apply take_ge. cbn. lia.
Qed.

Lemma answers certPEM keyPEM quote F :
  service (G := go_lib F) (R := reg_lib) certPEM keyPEM quote (answer_body quote) (answer_header (answer_body quote)).
Proof.
  split.
  - exists tt. split; [done|]. cbn [http_post reg_lib]. by rewrite requested_json, b64_roundtrip.
  - cbn [body_Unmarshal reg_lib]. unfold answer_body, body_of. by rewrite get_put_fields.
  - exists (bs "key"), [], tt. split_and!; [done..|]. intros pk. unfold VerifyAttestionReport.
    cbn [IASReportSigningCertificate IASReportSignature ReportBody].
    change (answer_header _ (bs "X-IASReport-Signing-Certificate")) with (bs "certificate").
    change (answer_header ?b (bs "X-IASReport-Signature")) with (b64_encode (Toy.checksum 32 b)).
    generalize (answer_body quote). intros b. cbn [QueryUnescape reg_lib]. change (pem_Decode _) with (Some (bs "certificate", [] : bytes)).
    cbn [ParseCertificate AppendCertsFromPEM cert_Verify DecodeString VerifyPKCS1v15 reg_lib or_error mbind go_bind negb fst].
    by rewrite b64_roundtrip, bool_decide_true.
Qed.

(** A quote with the given measurement and report data. *)
Definition quote_of (mr data : bytes) : bytes := repeat x00 112 ++ mr ++ repeat x00 224 ++ data.
Lemma quotes_quote_of report : length (mr_enclave report) = 32 → length (report_data report) = 64 →
  quotes report (quote_of (mr_enclave report) (report_data report)).
Proof.
  intros Hm Hd. unfold quotes, quote_of. split_and!.
  - rewrite !length_app, !repeat_length, Hm, Hd. done.
  - rewrite drop_app_length' by (by rewrite repeat_length). by rewrite take_app_length' by done.
  - rewrite !app_assoc, drop_app_length' by (rewrite !length_app, !repeat_length, Hm; done).
    by rewrite take_ge by lia.
Qed.
End ToyReg.

Import ToyGo ToyReg.

(** *** Examples *)

Definition made_report : sgx_report_t * bytes :=
  match ecall_create_report (PL := go_platform) (MkTarget [] [] []) (go_enclave at_genesis) with
  | Ok (_, Some r, pk) => (r, pk)
  | _ => (zero_report, [])
  end.
Definition made_quote : bytes := quote_of (mr_enclave made_report.1) (report_data made_report.1).
Definition credentials : gmap bytes bytes := {[bs "certPEM" := bs "cert"; bs "keyPEM" := bs "key"]}.
Definition measured : channel := {[(bs "ecc", bs "MRENCLAVE") := b64_encode (repeat x05 32)]}.
Definition made_der : bytes :=
  match MarshalEnclavePk (G := go_lib sample_pb) made_report.2 with Ret d => d | _ => [] end.

Lemma made_der_parses :
  ParsePKIXPublicKey (GoLib := go_lib sample_pb) made_der =
  Some (Some (be_value (take 32 made_report.2), be_value (drop 32 made_report.2))).
Proof. cbn [ParsePKIXPublicKey go_lib]. change made_der with (put_pair (halves made_report.2)). by rewrite get_put_pair. Qed.
Lemma made_quotes : quotes made_report.1 made_quote.
Proof. by apply quotes_quote_of. Qed.

Lemma registration_accepted_witness :
  ∃ key value, RegisterEnclave (G := go_lib sample_pb) credentials (λ _, None) (b64_encode made_der) (b64_encode made_quote) =
      Ret (Some (key, value)) ∧
    registered (G := go_lib sample_pb) (fetch_of (apply_tx measured [MkNs (bs "ercc") [] [] [(key, value)]])) made_der.
Proof.
  destruct (registration_accepted (G := go_lib sample_pb) (PL := go_platform) (MkTarget [] [] []) (go_enclave at_genesis)
    made_report.1 made_report.2 made_quote (bs "cert") (bs "key") (answer_body made_quote) (answer_header (answer_body made_quote))
    credentials (λ _, None)) as (der & Hm & Hok & _);
    [reflexivity|apply made_quotes|reflexivity|apply answers|reflexivity|reflexivity|].
  assert (der = made_der) as -> by (unfold made_der; by rewrite Hm).
  destruct Hok as (key & value & Hr & Hc); [vm_compute; discriminate..|].
  exists key, value. split; [exact Hr|]. by apply (Hc measured).
Defined.

(** The verdict of this service is that the signature is invalid. *)
Lemma invalid_quote_registered_witness :
  IsvEnclaveQuoteStatus (body_Unmarshal (answer_body made_quote)) = bs "SIGNATURE_INVALID" ∧
  ∃ key value, RegisterEnclave (G := go_lib sample_pb) credentials (λ _, None) (b64_encode made_der) (b64_encode made_quote) =
      Ret (Some (key, value)) ∧
    check_ercc_all (G := go_lib sample_pb) (Some (fetch_of measured)) [MkNs (bs "ercc") [] [] [(key, value)]] = Ret tt.
Proof.
  assert (IsvEnclaveQuoteStatus (body_Unmarshal (answer_body made_quote)) = bs "SIGNATURE_INVALID") as Hs.
  { cbn [body_Unmarshal reg_lib]. unfold answer_body, body_of. by rewrite get_put_fields. }
  split; [exact Hs|].
  destruct (invalid_quote_registered (G := go_lib sample_pb) (PL := go_platform) made_report.1 made_quote (bs "cert") (bs "key")
    (answer_body made_quote) (answer_header (answer_body made_quote)) credentials (λ _, None) made_der
    (take 32 made_report.2) (drop 32 made_report.2) measured) as (key & value & Hr & Hc & _);
    [apply made_quotes|reflexivity|vm_compute; discriminate|vm_compute; discriminate| |apply answers|reflexivity|reflexivity|reflexivity|exact Hs|].
  - apply made_der_parses.
  - exists key, value. split; [exact Hr|exact Hc].
Defined.

Definition made_tx : transaction :=
  [entry (G := go_lib sample_pb) made_der (answer_body made_quote) (answer_header (answer_body made_quote))].
Lemma made_tx_accepted :
  check_ercc_all (G := go_lib sample_pb) (Some (fetch_of measured)) made_tx = Ret tt ∧
  registered (G := go_lib sample_pb) (fetch_of (apply_tx measured made_tx)) made_der.
Proof.
  apply (entry_accepted (G := go_lib sample_pb) (PL := go_platform) (bs "cert") (bs "key") made_quote (answer_body made_quote)
    (answer_header (answer_body made_quote)) made_report.1 made_der (take 32 made_report.2) (drop 32 made_report.2) measured);
    [apply answers|apply made_quotes|reflexivity|apply made_der_parses|reflexivity|reflexivity].
Qed.

Lemma registry_sound_witness :
  ∃ ch value mr, registered (G := go_lib sample_pb) (fetch_of ch) made_der ∧
    attested (G := go_lib sample_pb) mr (b64_encode (Sum256 (GoLib := go_lib sample_pb) made_der)) value.
Proof.
  destruct (registry_sound (G := go_lib sample_pb) (apply_tx measured made_tx) made_der) as (value & ch0 & mr & _ & _ & _ & Ha).
  - apply (reachable_block measured [made_tx]).
    + constructor. intros key. by apply lookup_singleton_ne.
    + apply commits_apply; [intros _; apply made_tx_accepted|apply commits_nil].
  - apply made_tx_accepted.
  - exists (apply_tx measured made_tx), value, mr. split; [apply made_tx_accepted|exact Ha].
Defined.

Lemma malformed_certificate_panics_witness :
  check_ercc_all (G := go_lib sample_pb) None
    [MkNs (bs "ercc") [] [] [([], report_Marshal (MkAttestation [] [] [] []))]] = Panic.
Proof.
  by apply (malformed_certificate_panics (G := go_lib sample_pb) None [] (MkAttestation [] [] [] []) (bs "key") [] (Some (tt : rsa_PublicKey (RegLib := reg_lib)))).
Defined.
End Registry.
