(* ===== verification/Client.v ===== *)
(** * The client's encryption (src/ecc/crypto/enc.go)

    A client encrypts the arguments of a call under a key it derives from the
    public key of the enclave and a key pair of its own, which it sends along;
    the enclave ([EccEnclave.invoke_enc]) derives the key from its private key.
    The file models the client and composes it with the wrapper's key export
    and the enclave: when a call is delivered, and what happens for keys whose
    coordinates are short. AES-GCM and the curve of Go are the class [GoEnc]. *)
From S2P Require Import Prelude Utils Base64 StdMap Sgx EccCrypto Shim EccEnclave Fabric LedgerProofs TlccEnclave HostLib Ias PeerGlue System Vscc.
Import Utils Base64 StdMap Sgx EccCrypto Shim EccEnclave Fabric LedgerProofs TlccEnclave HostLib Ias PeerGlue System Vscc.

Module Client.

Definition aesgcm_key_size : nat := 16.
Definition aesgcm_iv_size : nat := 12.
Definition aesgcm_mac_size : nat := 16.

Class GoEnc := {
  (** Key, nonce and text: the ciphertext followed by the tag. *)
  aes_Seal : bytes → bytes → bytes → bytes;
  aes_Open : bytes → bytes → bytes → option bytes;
  (** A point times a big-endian number. *)
  ScalarMult : Z * Z → bytes → Z * Z;
  (** The [n]-th key pair: the private number and the point. *)
  GenerateKey : nat → option (Z * (Z * Z)) }.

Section enc.
Context {G : GoLib} {E : GoEnc}.

(** [aes.NewCipher] takes keys of these sizes. *)
Definition NewCipher (key : bytes) : bool :=
  bool_decide (length key = 16) || bool_decide (length key = 24) || bool_decide (length key = 32).

(** [iv]: what the random source gives. *)
Definition Encrypt (iv : option bytes) (plaintextBytes key : bytes) : go_res bytes :=
  if negb (NewCipher key) then Error
  else
    iv ← or_error iv;
    let cipherWithMac := aes_Seal key iv plaintextBytes in
    if bool_decide (length cipherWithMac < aesgcm_mac_size) then Panic
    else
      let cipherLen := length cipherWithMac - aesgcm_mac_size in
      Ret (iv ++ drop cipherLen cipherWithMac ++ take cipherLen cipherWithMac).

Definition Decrypt (input key : bytes) : go_res bytes :=
  if bool_decide (length input < aesgcm_iv_size + aesgcm_mac_size) then Panic
  else
    let iv := take aesgcm_iv_size input in
    let mac := take aesgcm_mac_size (drop aesgcm_iv_size input) in
    let ciphertext := drop (aesgcm_iv_size + aesgcm_mac_size) input in
    if negb (NewCipher key) then Error else or_error (aes_Open key iv (ciphertext ++ mac)).

Definition ParseECDSAPubKey (raw : bytes) : go_res (Z * Z) :=
  pk ← or_error (ParsePKIXPublicKey raw); or_error pk.

Definition GenKeyPair (n : nat) : go_res (Z * (Z * Z)) := or_error (GenerateKey n).

(** The hash of the abscissa, which has no leading zeros. *)
Definition GenSharedKey (pub : Z * Z) (priv : Z) : bytes :=
  take 16 (Sum256 (BN_bn2bin (ScalarMult pub (BN_bn2bin priv)).1)).

(** The key, and the public key as it is sent; errors are panics. *)
Definition GenCrypto (enclavePk : bytes) (n : nat) : go_res (bytes * bytes) :=
  match ParseECDSAPubKey enclavePk, GenKeyPair n with
  | Ret enclavePub, Ret (priv, pub) =>
      Ret (GenSharedKey enclavePub priv, BN_bn2bin pub.1 ++ BN_bn2bin pub.2)
  | _, _ => Panic
  end.
End enc.

(** Documented behaviour: Go's AES-GCM is that of the SGX SDK, with the tag at
    the end, and opening undoes sealing; the client's key pairs have points of
    the curve with coordinates of 32 bytes, and both sides of a key exchange
    compute the same abscissa. *)
Class EncLaws (E : GoEnc) (C : Crypto) (PL : Platform) : Prop := {
  seal_gcm key iv p : length key = 16 → length iv = 12 →
    aes_Seal key iv p = (gcm_encrypt key iv p).2.1 ++ (gcm_encrypt key iv p).2.2;
  open_seal key iv p : aes_Open key iv (aes_Seal key iv p) = Some p;
  key_coordinates n d p : GenerateKey n = Some (d, p) →
    ∃ m, length m = 64 ∧ p = halves m;
  dh_agreement n e d m pk_le pk : GenerateKey n = Some (d, halves m) → length m = 64 → swap_halves m = Ok pk_le →
    swap_halves (create_key_pair e).2.2 = Ok pk →
    ∃ shared, compute_shared_dhkey (create_key_pair e).2.1 pk_le = (SGX_SUCCESS, shared) ∧ length shared = 32 ∧
      be_value (reverse shared) = (ScalarMult (halves pk) (BN_bn2bin d)).1 }.

(** ** Reading past the end of the client's key *)

Lemma swap_loop_outside fuel : ∀ m (s e : Z), (0 <= s < e)%Z → (Z.of_nat (length m) <= e)%Z → 0 < fuel →
  swap_loop fuel m s e = UB OutOfBounds.
Proof.
  intros m s e Hse He Hf. destruct fuel as [|fuel]; [lia|]. cbn [swap_loop]. rewrite bool_decide_true by lia.
  unfold read_at. rewrite (lookup_ge_None_2 m (Z.to_nat e)) by lia. by destruct (m !! Z.to_nat s).
Qed.

Lemma swap_halves_short m : length m < 64 → swap_halves m = UB OutOfBounds.
Proof.
  intros Hm. unfold swap_halves. destruct (decide (length m < 32)) as [Hs|Hs].
  { change (bytes_swap m 0 32) with (swap_loop 32 m 0 31). by rewrite swap_loop_outside by lia. }
  rewrite <-(take_drop 32 m). pose proof (bytes_swap_range [] (take 32 m) (drop 32 m)) as E.
  cbn [app length] in E. rewrite length_take, Nat.min_l in E by lia. rewrite E. cbn [mbind res_bind].
  unfold bytes_swap. rewrite swap_loop_outside; [done|lia| |lia].
  rewrite length_app, length_reverse, length_take, length_drop. lia.
Qed.

(** A public key that decodes to 62 bytes or less makes the enclave swap bytes
    past the terminator of the string. *)
Lemma invoke_enc_short {C : Crypto} {PL : Platform} {W : Type} {P : Peer W}
  (invoke : bytes → Z → Z → ST (shim_state W) (Z * bytes)) args pk max ctx (es : enclave_state W) :
  length (b64_decode (cstr pk)) < 63 → invoke_enc invoke args pk max ctx es = UB OutOfBounds.
Proof.
  intros Hl. unfold invoke_enc. erewrite st_bind_ok; [|done].
  rewrite swap_halves_short; [done|]. rewrite length_app. cbn [length]. lia.
Qed.

(** One that decodes to 63 bytes is used with the terminator as its last byte. *)
Lemma invoke_enc_terminator {C : Crypto} {L : CryptoLaws C} {PL : Platform} {W : Type} {P : Peer W}
  (invoke : bytes → Z → Z → ST (shim_state W) (Z * bytes)) args m max ctx (es : enclave_state W) : length m = 63 →
  invoke_enc invoke args (b64_encode m) max ctx es = invoke_enc invoke args (b64_encode (m ++ [x00])) max ctx es.
Proof.
  intros Hm. assert (length (m ++ [x00]) = 64) as Hl by (rewrite length_app, Hm; done).
  destruct (swap_halves_ok _ Hl) as (le & E & Hle & _).
  unfold invoke_enc, get, lift, mbind, st_bind. rewrite !b64_text_decode, E, (swap_halves_front _ _ [x00] Hl E).
  by rewrite (load_all le), (load_front le) by done.
Qed.

(** No client input is checked before it is used. In [ecall_invoke] a public
    key that is not empty and decodes to 62 bytes or less makes the enclave
    swap bytes past the end of a string, whatever the arguments and the state
    of the enclave. *)
Theorem short_client_key_overruns {C : Crypto} {PL : Platform} {W : Type} {P : Peer W}
  (invoke : bytes → Z → Z → ST (shim_state W) (Z * bytes)) args pk max ctx (es : enclave_state W) :
  cstr pk ≠ [] → length (b64_decode (cstr pk)) < 63 → ecall_invoke invoke args pk max ctx es = UB OutOfBounds.
Proof.
  intros Hne Hl. unfold ecall_invoke, alloc_sets. repeat (erewrite st_bind_ok; [|reflexivity]).
  rewrite (bool_decide_false (strlen pk = 0)) by (by intros ?%length_zero_iff_nil).
  unfold mbind, st_bind at 1. by rewrite invoke_enc_short.
Qed.

(** ** A call from the client to the chaincode *)

Section delivery.
Context {C : Crypto} {L : CryptoLaws C} {PL : Platform} {PLL : PlatformLaws PL} {O : OpenSSL} {F : FabricPb}.
Context {G : GoLib} {GL : GoLaws G C PL} {E : GoEnc} {EL : EncLaws E C PL} {S : Type} {SS : ShimStub S}.
Context (invoke : bytes → Z → Z → ST (shim_state (world S)) (Z * bytes)).

(** [Encrypt] writes what the enclave reads. *)
Lemma Encrypt_sealed iv p key : length key = 16 → length iv = 12 → Encrypt (Some iv) p key = Ret (sealed key p iv).
Proof.
  intros Hk Hi. unfold Encrypt, NewCipher. rewrite Hk. cbn [negb orb or_error mbind go_bind bool_decide].
  rewrite bool_decide_true by done. cbn [orb negb]. rewrite seal_gcm by done. set (ct := (gcm_encrypt key iv p).2.1).
  pose proof (gcm_tag_length key iv p) as Ht. set (tag := (gcm_encrypt key iv p).2.2) in *.
  change SGX_AESGCM_MAC_SIZE with aesgcm_mac_size in Ht.
  rewrite length_app, Ht, bool_decide_false by lia.
  replace (length ct + aesgcm_mac_size - aesgcm_mac_size) with (length ct) by lia.
  by rewrite drop_app_length, take_app_length.
Qed.

(** [Decrypt] undoes [Encrypt]. *)
Lemma Decrypt_sealed iv p key : length key = 16 → length iv = 12 → Decrypt (sealed key p iv) key = Ret p.
Proof.
  intros Hk Hi. unfold Decrypt, sealed. pose proof (gcm_tag_length key iv p) as Ht.
  pose proof (seal_gcm key iv p Hk Hi) as Es.
  set (ct := (gcm_encrypt key iv p).2.1) in *. set (tag := (gcm_encrypt key iv p).2.2) in *.
  change SGX_AESGCM_MAC_SIZE with aesgcm_mac_size in Ht. change 12 with aesgcm_iv_size in Hi.
  rewrite bool_decide_false by (rewrite !length_app; lia).
  rewrite (take_app_length' iv), (drop_app_length' iv _ aesgcm_iv_size), (take_app_length' tag) by lia.
  rewrite app_assoc, (drop_app_length' (iv ++ tag)) by (rewrite length_app; lia).
  unfold NewCipher. rewrite Hk, bool_decide_true by done. cbn [orb negb]. by rewrite <-Es, open_seal.
Qed.

Lemma sealed_parts key plain iv : length iv = 12 →
  drop 28 (sealed key plain iv) = (gcm_encrypt key iv plain).2.1 ∧
  take 16 (drop 12 (sealed key plain iv)) = (gcm_encrypt key iv plain).2.2.
Proof.
  intros Hi. pose proof (gcm_tag_length key iv plain) as Ht. unfold sealed.
  set (ct := (gcm_encrypt key iv plain).2.1). set (tag := (gcm_encrypt key iv plain).2.2) in *.
  change SGX_AESGCM_MAC_SIZE with 16 in Ht. split.
  - rewrite app_assoc, (drop_app_length' (iv ++ tag)); [done|]. by rewrite length_app, Hi, Ht.
  - by rewrite (drop_app_length' iv), (take_app_length' tag).
Qed.

Lemma halves_significant m : length m = 64 → BN_bn2bin (halves m).1 ++ BN_bn2bin (halves m).2 =
  strip_leading (take 32 m) ++ strip_leading (drop 32 m).
Proof. intros _. unfold halves. cbn [fst snd]. by rewrite !BN_bn2bin_value. Qed.

Lemma be_value_inj a : ∀ b, length a = length b → be_value a = be_value b → a = b.
Proof.
  induction a as [|c a IH] using rev_ind; intros b Hl H; [by destruct b|].
  destruct b as [|c' b _] using rev_ind; [rewrite length_app in Hl; cbn in Hl; lia|].
  rewrite !length_app in Hl. cbn in Hl. rewrite !be_value_snoc in H. pose proof (b2z_range c). pose proof (b2z_range c').
  rewrite (IH b) by lia. f_equal. f_equal. apply b2z_inj. lia.
Qed.
Lemma halves_inj m m' : length m = 64 → length m' = 64 → halves m = halves m' → m = m'.
Proof.
  intros Hm Hm' H. unfold halves in H. injection H as H1%be_value_inj H2%be_value_inj;
    [|rewrite ?length_drop, ?length_take; lia..].
  by rewrite <-(take_drop 32 m), <-(take_drop 32 m'), H1, H2.
Qed.

Lemma pub_bytes m : length m = 64 → let pub := BN_bn2bin (halves m).1 ++ BN_bn2bin (halves m).2 in
  length pub < 64 ∨ pub = m.
Proof.
  intros Hm pub. subst pub. rewrite halves_significant by done.
  destruct (decide (significant (take 32 m))) as [H1|H1%strip_shorter], (decide (significant (drop 32 m))) as [H2|H2%strip_shorter].
  1: right; by rewrite !strip_id, take_drop.
  all: left; rewrite length_app; pose proof (strip_length (take 32 m)); pose proof (strip_length (drop 32 m));
    rewrite length_take, length_drop in *; lia.
Qed.

(** With the terminator for the missing byte the key is another one. *)
Lemma strip_not_shifted a rest : ¬ significant a → strip_leading a ≠ [] → strip_leading a ++ rest ≠ a.
Proof.
  intros Ha Hne Eq. pose proof (strip_significant a) as Hs. destruct (strip_leading a) as [|c s]; [done|].
  destruct Ha. rewrite <-Eq. exact Hs.
Qed.

Lemma terminator_wrong m : length m = 64 → let pub := BN_bn2bin (halves m).1 ++ BN_bn2bin (halves m).2 in
  length pub = 63 → halves (pub ++ [x00]) ≠ halves m.
Proof.
  intros Hm pub Hl H. apply halves_inj in H; [|by rewrite length_app, Hl|done].
  unfold pub in *. rewrite halves_significant in * by done. rewrite length_app in Hl.
  rewrite <-(take_drop 32 m) in H at 3. set (a := take 32 m) in *. set (b := drop 32 m) in *.
  assert (length a = 32) as Ha by (unfold a; rewrite length_take; lia).
  assert (length b = 32) as Hb by (unfold b; rewrite length_drop; lia).
  pose proof (strip_length a). pose proof (strip_length b). rewrite <-app_assoc in H.
  destruct (decide (significant a)) as [Hs|Hs].
  - rewrite (strip_id a Hs) in *. apply app_inv_head in H. revert H. apply strip_not_shifted.
    + intros Hsb. rewrite (strip_id b Hsb) in Hl. lia.
    + intros Eq. rewrite Eq in Hl. cbn in Hl. lia.
  - assert (strip_leading a ≠ []) as Hne by (intros Eq; rewrite Eq in Hl; cbn in Hl; lia).
    apply (f_equal (take 1)) in H. pose proof (strip_significant a) as Hc.
    destruct (strip_leading a) as [|c s]; [done|]. destruct a as [|c' a']; [done|]. cbn in H, Hs, Hc.
    destruct Hs. congruence.
Qed.

Lemma GenCrypto_ok pk pk_der n d m : MarshalEnclavePk pk = Ret pk_der → ParsePKIXPublicKey pk_der = Some (Some (halves pk)) →
  GenerateKey n = Some (d, halves m) → GenCrypto pk_der n = Ret
    (take 16 (sha256 (BN_bn2bin (ScalarMult (halves pk) (BN_bn2bin d)).1)), BN_bn2bin (halves m).1 ++ BN_bn2bin (halves m).2).
Proof.
  intros _ Hp Hg. unfold GenCrypto, ParseECDSAPubKey, GenKeyPair. rewrite Hp, Hg. cbn [or_error mbind go_bind].
  unfold GenSharedKey. by rewrite Sum256_sha256.
Qed.

(** C34: encrypted calls from the client to the chaincode. The client takes the
    enclave's key from the wrapper, makes a key pair, derives a key and encrypts
    its arguments. If its own coordinates and the shared secret have no leading
    zero bytes, the enclave runs the chaincode on the arguments as it does for a
    clear call. If one byte of its coordinates is a leading zero, the enclave
    takes the 63 bytes that are sent and the terminator of the string for a
    key, which is not the client's; if more are missing it writes past the
    terminator. With a short secret it opens the text under another key. *)
Theorem client_call_delivered e n d p pk plain iv max ctx (es : enclave_state (world S)) :
  enclave_sk es = (create_key_pair e).2.1 → enclave_pk es = (create_key_pair e).2.2 → swap_halves (enclave_pk es) = Ok pk →
  GenKeyPair n = Ret (d, p) → length iv = 12 → nul_free plain →
  ∃ pk_der key cipher x, GetPublicKey es = Ok (Ret pk_der) ∧
    let pub := BN_bn2bin p.1 ++ BN_bn2bin p.2 in
    GenCrypto pk_der n = Ret (key, pub) ∧
    length x = 32 ∧ be_value x = (ScalarMult (halves pk) (BN_bn2bin d)).1 ∧ key = take 16 (sha256 (strip_leading x)) ∧
    Encrypt (Some iv) plain key = Ret cipher ∧ Decrypt cipher key = Ret plain ∧
    let run := invoke_enc invoke (b64_encode cipher) (b64_encode pub) max ctx es in
    (length pub < 63 → run = UB OutOfBounds) ∧
    (length pub = 63 → halves (pub ++ [x00]) ≠ p ∧
       run = invoke_enc invoke (b64_encode cipher) (b64_encode (pub ++ [x00])) max ctx es) ∧
    (length pub = 64 → significant x → run = in_shim (invoke plain max ctx) es) ∧
    (length pub = 64 → ¬ significant x → ∀ st opened,
       gcm_decrypt (take 16 (sha256 x)) iv (drop 28 cipher) (take 16 (drop 12 cipher)) = (st, opened) →
       run = if bool_decide (st ≠ SGX_SUCCESS) then Ok ((st, []), es) else in_shim (invoke (cstr opened) max ctx) es).
Proof.
  intros Hsk Hpk Hsw Hg Hiv Hn. unfold GenKeyPair in Hg. destruct (GenerateKey n) as [[d' p']|] eqn:Eg; [|done].
  cbn [or_error] in Hg. injection Hg as -> ->. destruct (key_coordinates n d p Eg) as (m & Hm & ->).
  assert (length pk = 64) as Hl.
  { destruct (swap_halves_ok (enclave_pk es)) as (pk' & Hsw' & Hl & _); [rewrite Hpk; apply public_key_length|]. congruence. }
  destruct (marshal_pk pk Hl) as (pk_der & Hmk & Hparse); [rewrite Hpk in Hsw; by eapply keys_on_curve|].
  destruct (swap_halves_ok m Hm) as (m_le & Hswm & _). pose proof Hsw as Hsw'. rewrite Hpk in Hsw'.
  destruct (dh_agreement n e d m m_le pk Eg Hm Hswm Hsw') as (shared & Hdh & Hsh & Hx). rewrite <-Hsk in Hdh.
  set (x := reverse shared) in *. set (key := take 16 (sha256 (strip_leading x))).
  assert (length key = 16) as Hkey by (unfold key; by rewrite length_take, sha256_length).
  exists pk_der, key, (sealed key plain iv), x. cbv zeta. split_and!.
  - rewrite (GetPublicKey_ok es pk), Hmk by (done || by rewrite Hpk; apply public_key_length). done.
  - rewrite (GenCrypto_ok pk pk_der n d m) by done. by rewrite <-Hx, BN_bn2bin_value.
  - unfold x. by rewrite length_reverse.
  - done.
  - done.
  - by apply Encrypt_sealed.
  - by apply Decrypt_sealed.
  - intros Hs. apply invoke_enc_short. by rewrite b64_text_decode.
  - intros H63. split; [|by apply invoke_enc_terminator]. by apply terminator_wrong.
  - intros H64 Hsig. destruct (pub_bytes m Hm) as [?| ->]; [lia|]. unfold key. rewrite strip_id by done.
    by apply (encrypted_args_delivered invoke plain m m_le shared).
  - intros H64 _ st opened Hop. destruct (pub_bytes m Hm) as [?| ->]; [lia|].
    rewrite (invoke_enc_open invoke key plain m m_le shared) by done. fold x.
    destruct (sealed_parts key plain iv Hiv) as [E1 E2]. rewrite E1, E2 in Hop.
    destruct (gcm_encrypt key iv plain) as [st' [ct tag]]. cbn [fst snd] in *. rewrite Hop. by case_bool_decide.
Qed.
End delivery.

(** ** A concrete client

    Sealing reverses the text and appends its checksum; the shared secret is the
    ordinate of the client's point. *)
Module ToyEnc.
Import ToyGo.

Definition client_half (n : nat) : bytes := x01 :: ToyPlatform.pad 30 [z2b (Z.of_nat n)] ++ [x01].
Lemma client_half_length n : length (client_half n) = 32.
Proof. unfold client_half. change (x01 :: ?a) with ([x01] ++ a). rewrite !length_app, pad_length. done. Qed.

#[export] Instance enc_lib : GoEnc := {|
  aes_Seal key iv p := rev p ++ Toy.checksum 16 (key ++ iv ++ p);
  aes_Open key iv c :=
    let p := rev (take (length c - 16) c) in
    if bool_decide (drop (length c - 16) c = Toy.checksum 16 (key ++ iv ++ p)) then Some p else None;
  ScalarMult p k := (be_value (reverse k), 0%Z);
  GenerateKey n := Some (be_value (client_half n), halves (client_half n ++ client_half n)) |}.

#[export] Instance enc_laws : EncLaws enc_lib Toy.toy_crypto go_platform.
Proof.
  split; cbn [aes_Seal aes_Open GenerateKey ScalarMult enc_lib].
  - done.
  - intros key iv p. rewrite length_app. assert (∀ q, length (Toy.checksum 16 q) = 16) as Ht by done. rewrite Ht.
    rewrite Nat.add_sub, take_app_length, drop_app_length, rev_involutive. by rewrite bool_decide_true.
  - intros n d p H. apply (inj Some), pair_equal_spec in H as [_ <-]. exists (client_half n ++ client_half n). by rewrite length_app, !client_half_length.
  - intros n e d m m_le pk H Hm Hsw _. apply (inj Some), pair_equal_spec in H as [<- Em].
    assert (significant (client_half n)) as Hs by done. pose proof (client_half_length n) as Hl.
    revert Em Hs Hl. generalize (client_half n). intros h Em Hs Hl.
    apply halves_inj in Em as <-; [|by rewrite length_app, Hl|done].
    rewrite swap_halves_rev in Hsw by done. injection Hsw as <-.
    exists h. cbn [compute_shared_dhkey go_platform fst]. unfold ToyPlatform.pad.
    rewrite rev_app_distr, !rev_alt. fold (reverse (reverse h)). rewrite reverse_involutive, <-app_assoc.
    rewrite take_app_length' by done. split_and!; [done..|]. by rewrite BN_bn2bin_value, strip_id.
Qed.
End ToyEnc.

Import ToyGo ToyEnc.

Definition echo (args : bytes) (max ctx : Z) : ST (shim_state (world sim)) (Z * bytes) := λ sh, Ok ((0%Z, args), sh).

Lemma client_call_delivered_witness :
  let pub := client_half 3 ++ client_half 3 in
  ∃ cipher, invoke_enc (PL := go_platform) echo (b64_encode cipher) (b64_encode pub) 100 7 (go_enclave at_genesis) =
    in_shim (echo (bs "[1]") 100 7) (go_enclave at_genesis).
Proof.
  intros pub.
  destruct (client_call_delivered (G := go_lib sample_pb) (PL := go_platform) echo 0 3
    (be_value (client_half 3)) (halves pub) (key_half 0 ++ key_half 0) (bs "[1]") (repeat x01 12) 100 7 (go_enclave at_genesis))
    as (pk_der & key & cipher & x & _ & _ & Hl & Hx & _ & _ & _ & _ & _ & Hrun & _); [reflexivity..|by repeat constructor|].
  exists cipher. assert (x = reverse (client_half 3)) as -> by (apply be_value_inj; [by rewrite Hl|rewrite Hx; vm_compute; reflexivity]).
  assert (BN_bn2bin (halves pub).1 ++ BN_bn2bin (halves pub).2 = pub) as Ep by (vm_compute; reflexivity). rewrite Ep in Hrun.
  apply Hrun; [reflexivity|vm_compute; discriminate].
Defined.

(** Four characters are three bytes. *)
Lemma short_client_key_overruns_witness :
  ecall_invoke (PL := go_platform) echo (bs "[1]") (bs "AAAA") 100 7 (go_enclave at_genesis) = UB OutOfBounds.
Proof. apply (short_client_key_overruns (PL := go_platform) echo); [done|]. vm_compute. lia. Defined.
End Client.
