(* ===== verification/Setup.v ===== *)
(** * Setting up a chaincode enclave (src/ecc/enclave_chaincode.go,
    src/ecc/enclave/enclave_stub.go, src/ecc/tlcc/stub.go, src/tlcc/tlcc.go,
    src/tlcc/enclave/enclave_stub.go)

    The wrapper's [setup] creates the enclave, has it quoted, registers its key
    ([Registry]) and binds it to the ledger enclave; afterwards [invoke]
    ([Vscc.invoke_cc]) endorses calls. Every call into the enclave takes a permit
    of a semaphore. The file models the wrapper's entry points and composes them
    with the host library, both enclaves, the registry and both plugins. *)
From S2P Require Import Prelude Utils Base64 StdMap Sgx EccCrypto Shim AuctionJson Auction AuctionSpec EccEnclave Fabric Ledger.
From S2P Require Import LedgerProofs TlccEnclave HostLib Ias Endorsement PeerGlue System Vscc Registry.
Import Utils Base64 StdMap Sgx EccCrypto Shim AuctionJson Auction AuctionSpec EccEnclave Fabric Ledger LedgerProofs TlccEnclave.
Import HostLib Ias Endorsement PeerGlue System Vscc Registry.

Module Setup.

Definition ENCLAVE_TCS_NUM : nat := 8.
Definition REPORT_SIZE : nat := 432.
Definition SGX_ERROR_INVALID_ENCLAVE_ID : Z := 0x2002.

(** The memory layout of a report, and [json.Unmarshal] of the answer of the
    ledger chaincode into its two fields. *)
Class GoSetup := {
  report_bytes : sgx_report_t → bytes;
  report_of_bytes : bytes → sgx_report_t;
  json_report : bytes → option (bytes * bytes) }.

(** What the platform answers when an enclave is created, and when it is
    quoted: the status and target of [sgx_init_quote], the size of a quote, and
    the status and buffer of [sgx_get_quote] for an SPID and a report. *)
Record launch := MkLaunch { exists_file : bool; create_status : Z; init_status : Z }.
Record quoting := MkQuoting {
  init_quote : Z * sgx_target_info_t;
  calc : option Z;
  get_quote : bytes → sgx_report_t → Z * bytes }.

Section wrapper.
Context {C : Crypto} {PL : Platform} {O : OpenSSL} {F : FabricPb} {G : GoLib} {R : RegLib} {GS : GoSetup}.
Context {S : Type} {SS : ShimStub S}.

(** [eid] says whether an enclave was created; [es] is the enclave with the
    peer around it. *)
Record StubImpl := MkStub { eid : bool; sem : nat; es : enclave_state (world S) }.

(** Go code on the stub. *)
Definition GM (A : Type) : Type := StubImpl → res (go_res A * StubImpl).
#[export] Instance gm_ret : MRet GM := λ A a e, Ok (Ret a, e).
#[export] Instance gm_bind : MBind GM := λ A B f m e,
  match m e with
  | Ok (Ret a, e') => f a e'
  | Ok (Error, e') => Ok (Error, e')
  | Ok (Panic, e') => Ok (Panic, e')
  | UB x => UB x
  | NoFuel => NoFuel
  end.
Definition lift_go {A} (r : go_res A) : GM A := λ e, Ok (r, e).
Definition undefined {A} (f : fault) : GM A := λ _, UB f.

(** [sem.Acquire] and [sem.Release]. Nothing else runs here that could release a
    permit: without one the call waits forever. *)
Definition Acquire : GM unit := λ e,
  match sem e with
  | 0 => UB Deadlock
  | Datatypes.S n => Ok (Ret tt, MkStub (eid e) n (es e))
  end.
Definition Release : GM unit := λ e, Ok (Ret tt, MkStub (eid e) (Datatypes.S (sem e)) (es e)).

(** A call of the host library, with the status of the ECALL: without an enclave
    the id is not valid. *)
Definition host {A} (f : Z → enclave_state (world S) → res (A * enclave_state (world S))) : GM A := λ e,
  r ← f (if eid e then SGX_SUCCESS else SGX_ERROR_INVALID_ENCLAVE_ID) (es e);
  Ok (Ret r.1, MkStub (eid e) (sem e) r.2).

(** ** enclave_stub.go *)

Definition NewEnclave (w : enclave_state (world S)) : StubImpl := MkStub false ENCLAVE_TCS_NUM w.

(** The statics of a new enclave: nothing registered and no keys. *)
Definition fresh_enclave (s : enclave_state (world S)) : enclave_state (world S) :=
  MkEnclave (MkShim ∅ ∅ (rand_count (shim s)) [] (Shim.world (shim s)))
    (repeat x00 32) (repeat x00 64) (repeat x00 64) (key_count s) (set_count s).

(** The permit is not released when the enclave cannot be created. An enclave
    that was there before is forgotten. *)
Definition Create (l : launch) : GM unit :=
  _ ← Acquire;
  (λ e, r ← sgxcc_create_enclave (exists_file l) (create_status l) (init_status l) (fresh_enclave (es e));
       if bool_decide (r.1 ≠ 0)%Z then Ok (Error, e) else Release (MkStub true (sem e) r.2)) : GM unit.

(** The result of the host library is not looked at: what it did not write is
    read all the same. *)
Definition GetRemoteAttestationReport (q : quoting) (spid : bytes) : GM (bytes * bytes) :=
  let quote_size := sgxcc_get_quote_size (calc q) in
  _ ← Acquire;
  r ← host (λ status s,
    r ← sgxcc_get_remote_attestation_report (init_quote q) status (calc q) quote_size (get_quote q spid) s; Ok (r, s));
  _ ← Release;
  let '(_, quote, pubkey) := r in
  match pubkey with
  | None => undefined Uninitialised
  | Some pubkey =>
      pk ← lift_go (MarshalEnclavePk pubkey);
      match quote with
      | None => undefined Uninitialised
      | Some quote =>
          if bool_decide (length quote < Z.to_nat quote_size) then undefined Uninitialised
          else mret (take (Z.to_nat quote_size) quote, pk)
      end
  end.

Definition stub_GetPublicKey : GM bytes :=
  _ ← Acquire;
  r ← host (λ status s, r ← sgxcc_get_pk status s; Ok (r, s));
  _ ← Release;
  match r.2 with None => undefined Uninitialised | Some pubkey => lift_go (MarshalEnclavePk pubkey) end.

Definition GetTargetInfo : GM sgx_target_info_t :=
  _ ← Acquire;
  r ← host (λ status s, Ok (if bool_decide (status ≠ SGX_SUCCESS) then None
                            else (sgxcc_get_target_info status (Some (MkTarget [] [] []))).2, s));
  _ ← Release;
  match r with None => undefined Uninitialised | Some target => mret target end.

(** [Bind] with a report and a key: the bytes of the report are copied, and the
    enclave reads the size of a report. *)
Definition stub_Bind (report pk : bytes) : GM unit :=
  _ ← lift_go (UnmarshalEnclavePk pk);
  _ ← Acquire;
  _ ← ((λ e, if bool_decide (length report < REPORT_SIZE) then UB OutOfBounds
            else if negb (eid e) then UB Uninitialised
            else r ← Bind (Some (report_of_bytes report)) (Some pk) (es e); Ok (r.1, MkStub (eid e) (sem e) r.2)) : GM unit);
  Release.

(** ** The ledger chaincode *)

(** [GetLocalAttestationReport] of the ledger's stub: its buffers are zero before
    the call, whose result is not looked at. *)
Definition tlcc_GetLocalAttestationReport (status : Z) (targetInfo : sgx_target_info_t) (t : tlcc_state)
  : res (go_res (bytes * bytes)) :=
  r ← tlcc_get_local_attestation_report status targetInfo t;
  let '(_, report, pubkey) := r in
  Ok (pk ← MarshalEnclavePk (default (repeat x00 64) pubkey);
      Ret (match report with Some report => report_bytes report | None => repeat x00 REPORT_SIZE end, pk)).

Definition report_answer (reportBase64 enclavePkBase64 : bytes) : bytes :=
  bs "{" ++ [x22] ++ bs "Report" ++ [x22; x3a; x22] ++ reportBase64 ++ [x22] ++ bs ", " ++
  [x22] ++ bs "EnclavePK" ++ [x22] ++ bs ": " ++ [x22] ++ enclavePkBase64 ++ [x22] ++ bs "}".

Definition getLocalAttestationReport (status : Z) (targetInfo : sgx_target_info_t) (t : tlcc_state) : res (go_res bytes) :=
  r ← tlcc_GetLocalAttestationReport status targetInfo t;
  Ok (p ← r; Ret (report_answer (b64_encode p.1) (b64_encode p.2))).

(** [GetReport] of stub.go: the ledger chaincode is called through the peer. *)
Definition GetReport (status : Z) (targetInfo : sgx_target_info_t) : GM (bytes * bytes) := λ e,
  r ← getLocalAttestationReport status targetInfo (tlcc (Shim.world (shim (es e))));
  Ok (payload ← r;
      f ← or_error (json_report payload);
      let '(reportBytes, ok1) := DecodeString f.1 in
      if negb ok1 then Error
      else
        let '(enclavePkBytes, ok2) := DecodeString f.2 in
        if negb ok2 then Error else Ret (reportBytes, enclavePkBytes), e).

(** ** enclave_chaincode.go *)

(** [Init]: the write with the measurement the wrapper was built with. *)
Definition Init (MrEnclave : bytes) : bytes * bytes := (bs "MRENCLAVE", MrEnclave).

(** [setup]: the payload, and the write in the registry's name space. The field
    [t.enclave] is set when the wrapper starts and never [nil]. *)
Definition setup (l : launch) (q : quoting) (tlcc_status : Z) (dec : gmap bytes bytes)
  (GetState : bytes → option (option bytes)) (args : list bytes) : GM (bytes * option (bytes * bytes)) :=
  match args with
  | _ :: erccName :: _ =>
      _ ← Create l;
      spid ← lift_go (GetSPID dec);
      p ← GetRemoteAttestationReport q spid;
      let '(quoteAsBytes, enclavePk) := p in
      let enclavePkBase64 := b64_encode enclavePk in
      let quoteBase64 := b64_encode quoteAsBytes in
      write ← lift_go (RegisterEnclave dec GetState enclavePkBase64 quoteBase64);
      eccTargetInfo ← GetTargetInfo;
      p ← GetReport tlcc_status eccTargetInfo;
      let '(tlccReport, tlccPk) := p in
      _ ← stub_Bind tlccReport tlccPk;
      mret (enclavePkBase64, write)
  | _ => lift_go Panic
  end.

Definition getEnclavePk : GM bytes :=
  enclavePk ← stub_GetPublicKey;
  mret (json_Marshal (MkResponse None None (Some enclavePk))).
End wrapper.

(** ** A setup that succeeds *)

(** Documented behaviour: a report of the platform has 432 bytes that give it
    back, and [json.Unmarshal] finds a field whatever the case of its name. *)
Class SetupLaws (GS : GoSetup) (PL : Platform) : Prop := {
  report_layout t d r : length d = 64 → create_report t (Some d) = (SGX_SUCCESS, r) →
    report_of_bytes (report_bytes r) = r ∧ length (report_bytes r) = REPORT_SIZE;
  answer_fields r p : json_report (report_answer (b64_encode r) (b64_encode p)) = Some (b64_encode r, b64_encode p) }.

Section setup.
Context {C : Crypto} {L : CryptoLaws C} {PL : Platform} {PLL : PlatformLaws PL} {O : OpenSSL} {F : FabricPb}.
Context {G : GoLib} {GL : GoLaws G C PL} {R : RegLib} {RL : RegLaws R} {GS : GoSetup} {GSL : SetupLaws GS PL}.
Context {S : Type} {SS : ShimStub S}.
Implicit Types (ln : launch) (q : quoting) (pk tpk quote body : bytes) (header : bytes → bytes) (report treport : sgx_report_t).
Implicit Types (e : StubImpl (S := S)) (dec : gmap bytes bytes) (GetState : bytes → option (option bytes)).

Lemma gm_bind_ok {A B} (m : GM A) (f : A → GM B) a e e' : m e = Ok (Ret a, e') → (m ≫= f) e = f a e'.
Proof. intros H. unfold mbind, gm_bind. by rewrite H. Qed.
Lemma Acquire_ok e n : sem e = Datatypes.S n → Acquire e = Ok (Ret tt, MkStub (eid e) n (es e)).
Proof. intros H. unfold Acquire. by rewrite H. Qed.

(** The enclave after [Create]. *)
Definition created (s : enclave_state (world S)) : enclave_state (world S) :=
  let k := key_count s in
  MkEnclave (shim (fresh_enclave s)) (create_key_pair k).2.1 (create_key_pair k).2.2 (repeat x00 64) (Datatypes.S k) (set_count s).

Lemma Create_ok l e : 0 < sem e → exists_file l = true → create_status l = SGX_SUCCESS → init_status l = SGX_SUCCESS →
  open_context (key_count (es e)) = SGX_SUCCESS → (create_key_pair (key_count (es e))).1 = SGX_SUCCESS →
  Create l e = Ok (Ret tt, MkStub true (sem e) (created (es e))).
Proof.
  intros Hs Hf Hc Hi Ho Hk. destruct (sem e) as [|n] eqn:En; [lia|]. unfold Create.
  erewrite gm_bind_ok; [|by apply Acquire_ok]. cbn [es sem]. unfold sgxcc_create_enclave. rewrite Hf, Hc, Hi. cbn [negb].
  rewrite (bool_decide_false (SGX_SUCCESS ≠ SGX_SUCCESS)) by (intros H; by apply H). unfold ecall, ecall_init, fresh_enclave.
  cbn [key_count]. rewrite Ho.
  rewrite (bool_decide_false (SGX_SUCCESS ≠ SGX_SUCCESS)) by (intros H; by apply H).
  unfold created. destruct (create_key_pair (key_count (es e))) as [st [sk pk]]. cbn [fst snd] in *. subst st. done.
Qed.

(** A call that holds a permit while it runs. *)
Lemma with_permit {A B} (m : GM A) (f : A → GM B) e a s : 0 < sem e →
  (∀ n, m (MkStub (eid e) n (es e)) = Ok (Ret a, MkStub (eid e) n s)) →
  (_ ← Acquire; r ← m; _ ← Release; f r) e = f a (MkStub (eid e) (sem e) s).
Proof.
  intros Hs Hm. destruct (sem e) as [|n] eqn:En; [lia|]. erewrite gm_bind_ok; [|by apply Acquire_ok].
  erewrite gm_bind_ok; [|apply Hm]. done.
Qed.

Lemma stub_eta e : MkStub (eid e) (sem e) (es e) = e.
Proof. by destruct e. Qed.

Lemma remote_report_ok q spid e pk report quote pk_der : 0 < sem e → eid e = true →
  length (enclave_pk (es e)) = 64 → swap_halves (enclave_pk (es e)) = Ok pk → MarshalEnclavePk pk = Ret pk_der →
  (init_quote q).1 = SGX_SUCCESS →
  create_report (Some (init_quote q).2) (Some (sha256 pk ++ repeat x00 32)) = (SGX_SUCCESS, report) →
  calc q = Some (Z.of_nat (length quote)) → get_quote q spid report = (SGX_SUCCESS, quote) →
  GetRemoteAttestationReport q spid e = Ok (Ret (quote, pk_der), e).
Proof.
  intros Hs He Hl Hsw Hm Hq Hr Hc Hg. unfold GetRemoteAttestationReport.
  erewrite (with_permit _ _ e (SGX_SUCCESS, Some quote, Some pk) (es e)); [|done|].
  2:{ intros n. unfold host. cbn [eid es]. rewrite He. unfold sgxcc_get_remote_attestation_report.
      destruct (init_quote q) as [st target]. cbn [fst snd] in Hq, Hr. subst st.
      rewrite (bool_decide_false (SGX_SUCCESS ≠ SGX_SUCCESS)) by (intros H; by apply H). unfold ecall_create_report.
      rewrite load_all by done. cbn [mbind res_bind]. rewrite Hsw. cbn [mbind res_bind]. rewrite Hr.
      rewrite (bool_decide_false (SGX_SUCCESS ≠ SGX_SUCCESS)) by (intros H; by apply H). cbn [mbind res_bind].
      rewrite Hc. cbn [sgxcc_get_quote_size default from_option id]. rewrite bool_decide_false.
      2:{ unfold u32. pose proof (Z.mod_le (Z.of_nat (length quote)) (2 ^ 32)). lia. }
      cbn [default from_option id]. by rewrite Hg. }
  erewrite gm_bind_ok; [|unfold lift_go; by rewrite Hm]. rewrite Hc. cbn [sgxcc_get_quote_size default from_option id].
  rewrite Nat2Z.id, bool_decide_false by lia. rewrite firstn_all, stub_eta. done.
Qed.

Lemma target_info_ok e st target : 0 < sem e → eid e = true →
  ecall_get_target_info (Some (MkTarget [] [] [])) = (st, Some target) → GetTargetInfo e = Ok (Ret target, e).
Proof.
  intros Hs He Ht. unfold GetTargetInfo. erewrite (with_permit _ _ e (Some target) (es e)); [|done|].
  2:{ intros n. unfold host. cbn [eid es]. rewrite He.
      rewrite (bool_decide_false (SGX_SUCCESS ≠ SGX_SUCCESS)) by (intros H; by apply H). unfold sgxcc_get_target_info.
      rewrite (bool_decide_false (SGX_SUCCESS ≠ SGX_SUCCESS)) by (intros H; by apply H). by rewrite Ht. }
  by rewrite stub_eta.
Qed.

Lemma GetReport_ok e target report pk raw :
  ecall_create_report target (identity (tlcc (Shim.world (shim (es e))))) = Ok (SGX_SUCCESS, Some report, pk) →
  MarshalEnclavePk pk = Ret raw → GetReport SGX_SUCCESS target e = Ok (Ret (report_bytes report, raw), e).
Proof.
  intros Hr Hm. unfold GetReport, getLocalAttestationReport, tlcc_GetLocalAttestationReport, tlcc_get_local_attestation_report.
  rewrite (bool_decide_false (SGX_SUCCESS ≠ SGX_SUCCESS)) by (intros H; by apply H). rewrite Hr.
  cbn [mbind res_bind default from_option id]. rewrite Hm. cbn [mbind go_bind fst snd]. rewrite answer_fields.
  cbn [or_error mbind go_bind fst snd]. by rewrite !DecodeString_encode.
Qed.

Lemma created_layout {W} target (s : enclave_state W) report pk :
  ecall_create_report target s = Ok (SGX_SUCCESS, Some report, pk) →
  report_of_bytes (report_bytes report) = report ∧ length (report_bytes report) = REPORT_SIZE.
Proof.
  intros H. unfold ecall_create_report in H. destruct (load _ _ _) as [key| |]; [|done..]. cbn [mbind res_bind] in H.
  destruct (swap_halves key) as [be| |]; [|done..]. cbn [mbind res_bind] in H.
  destruct (create_report (Some target) (Some (sha256 be ++ repeat x00 32))) as [ret rep] eqn:Er.
  case_bool_decide as Hret; [by destruct Hret|]. subst ret. injection H as <- _.
  eapply report_layout; [|exact Er]. rewrite length_app, sha256_length, repeat_length. done.
Qed.

(** The enclave bound to a key. *)
Definition bound (pk : bytes) (s : enclave_state (world S)) : enclave_state (world S) :=
  MkEnclave (shim s) (enclave_sk s) (enclave_pk s) pk (key_count s) (set_count s).

Lemma stub_Bind_ok e report pk raw : 0 < sem e → eid e = true → length pk = 64 → take 32 (report_data report) = sha256 pk →
  verify_report report = SGX_SUCCESS → UnmarshalEnclavePk raw = Ret pk →
  report_of_bytes (report_bytes report) = report ∧ length (report_bytes report) = REPORT_SIZE →
  stub_Bind (report_bytes report) raw e = Ok (Ret tt, MkStub true (sem e) (bound pk (es e))).
Proof.
  intros Hs He Hl Hd Hv Hu [Elay Elen]. unfold stub_Bind. erewrite gm_bind_ok; [|unfold lift_go; by rewrite Hu].
  destruct (sem e) as [|n] eqn:En; [lia|]. erewrite gm_bind_ok; [|by apply Acquire_ok].
  rewrite (gm_bind_ok _ _ tt _ (MkStub true n (bound pk (es e)))); [done|].
  cbn [eid sem es]. rewrite Elen, bool_decide_false, He by lia. cbn [negb].
  unfold Bind. rewrite Hu. unfold sgxcc_bind, ecall, ecall_bind_tlcc. rewrite Elay.
  rewrite (bool_decide_false (SGX_SUCCESS ≠ SGX_SUCCESS)) by (intros H; by apply H). rewrite load_all, Hd, Hv by done.
  repeat rewrite bool_decide_false by (intros H; by apply H). done.
Qed.

(** What a setup needs: a permit, an enclave file and a working platform; the
    quote of the enclave's report and the service's answer for it; and a ledger
    enclave whose report for this enclave verifies. [pk] and [tpk] are the keys
    of the chaincode and the ledger enclave, big endian. *)
Record can_set_up (l : launch) (q : quoting) dec e (pk tpk quote body : bytes) (header : bytes → bytes)
  (report treport : sgx_report_t) : Prop := {
  cs_permit : 0 < sem e;
  cs_launch : exists_file l = true ∧ create_status l = SGX_SUCCESS ∧ init_status l = SGX_SUCCESS;
  cs_context : open_context (key_count (es e)) = SGX_SUCCESS;
  cs_keys : (create_key_pair (key_count (es e))).1 = SGX_SUCCESS;
  cs_pk : swap_halves (create_key_pair (key_count (es e))).2.2 = Ok pk;
  cs_report : (init_quote q).1 = SGX_SUCCESS ∧
    create_report (Some (init_quote q).2) (Some (sha256 pk ++ repeat x00 32)) = (SGX_SUCCESS, report);
  cs_quote : ∃ spid, dec !! bs "SPID" = Some spid ∧ get_quote q spid report = (SGX_SUCCESS, quote);
  cs_size : calc q = Some (Z.of_nat (length quote));
  cs_quoted : quotes report quote;
  cs_service : ∃ certPEM keyPEM, dec !! bs "certPEM" = Some certPEM ∧ dec !! bs "keyPEM" = Some keyPEM ∧
    service certPEM keyPEM quote body header;
  cs_ledger : ∃ st target, ecall_get_target_info (Some (MkTarget [] [] [])) = (st, Some target) ∧
    ecall_create_report target (identity (tlcc (Shim.world (shim (es e))))) = Ok (SGX_SUCCESS, Some treport, tpk);
  cs_verified : verify_report treport = SGX_SUCCESS ∧ IsOnCurve (halves tpk).1 (halves tpk).2 = true }.

(** The keys have no leading zero bytes. *)
Definition full_keys (pk tpk : bytes) : Prop :=
  significant (take 32 pk) ∧ significant (drop 32 pk) ∧ full_coordinates tpk.

Lemma setup_run l q dec e pk tpk quote body header report treport GetState (name ercc : bytes) (more : list bytes) :
  can_set_up l q dec e pk tpk quote body header report treport → full_keys pk tpk →
  ∃ pk_der, MarshalEnclavePk pk = Ret pk_der ∧
    setup l q SGX_SUCCESS dec GetState (name :: ercc :: more) e =
      Ok (Ret (b64_encode pk_der, head (Writes (entry pk_der body header))), MkStub true (sem e) (bound tpk (created (es e)))) ∧
    ∀ ch : gmap (bytes * bytes) bytes, ch !! (bs "ecc", bs "MRENCLAVE") = Some (b64_encode (mr_enclave report)) →
      check_ercc_all (Some (fetch_of ch)) [entry pk_der body header] = Ret tt ∧
      registered (fetch_of (apply_tx ch [entry pk_der body header])) pk_der.
Proof.
  intros [Hs (Hf & Hc & Hi) Ho Hk Hpk [Hq Hr] (spid & Hsp & Hg) Hz Hqu (cert & kp & Hce & Hkp & Hsv) (st & target & Ht & Htr) [Hv Hcu]]
    (Hx & Hy & Hfull).
  assert (length (create_key_pair (key_count (es e))).2.2 = 64) as Hl by apply public_key_length.
  assert (length pk = 64) as Hlpk. { destruct (swap_halves_ok _ Hl) as (pk' & Hsw & Hl' & _). congruence. }
  destruct (marshal_pk pk Hlpk) as (pk_der & Hm & Hparse); [by eapply keys_on_curve|].
  pose proof (create_report_inv _ _ _ _ Htr) as (Hlt & Hdt & _).
  destruct (marshal_pk tpk Hlt Hcu) as (raw & Hmt & Hpt). destruct (unmarshal_pk_iff tpk raw Hlt Hpt) as (tpk' & Hu & _ & Hiff).
  apply Hiff in Hfull as ->.
  assert (take 32 (report_data report) = sha256 (take 32 pk ++ drop 32 pk)) as Hd.
  { rewrite take_drop. pose proof (report_carries_data (Some (init_quote q).2) (sha256 pk ++ repeat x00 32)) as E.
    rewrite Hr in E. cbn [snd] in E. rewrite E. by rewrite take_app_length' by (by rewrite sha256_length). }
  exists pk_der. split; [done|]. split.
  2:{ intros ch Hch. apply (entry_accepted cert kp quote body header report pk_der (take 32 pk) (drop 32 pk) ch); try done.
      by rewrite !strip_id. }
  unfold setup. erewrite gm_bind_ok; [|by apply Create_ok]. set (e1 := MkStub true (sem e) (created (es e))).
  erewrite gm_bind_ok; [|unfold lift_go, GetSPID; by rewrite Hsp].
  erewrite gm_bind_ok; [|by eapply (remote_report_ok q spid e1 pk report quote pk_der)]. cbv beta iota zeta.
  erewrite gm_bind_ok; [|unfold lift_go; rewrite (register_result cert kp quote body header report dec GetState pk_der (take 32 pk) (drop 32 pk)) by done;
    rewrite !strip_id, bool_decide_true by done; reflexivity].
  erewrite gm_bind_ok; [|by eapply target_info_ok].
  erewrite gm_bind_ok; [|by eapply (GetReport_ok e1)]. cbv beta iota zeta.
  erewrite gm_bind_ok; [|by apply (stub_Bind_ok e1 treport tpk raw); try done; eapply created_layout]. done.
Qed.

Context {SIM : Simulator S} {SL : ShimLaws S SS SIM} {SH : SameHash C O} {SW : SameWire G F}.

(** The state a setup leaves, for the theorem below and for [Plugins]. *)
Lemma setup_endorses ln q dec e pk tpk quote body header report treport GetState (name ercc : bytes) (more : list bytes) (ch0 : gmap (bytes * bytes) bytes) :
  can_set_up ln q dec e pk tpk quote body header report treport → full_keys pk tpk →
  let ch := apply_tx ch0 [MkNs (bs "ecc") [] [] [Init (b64_encode (mr_enclave report))]] in
  ∃ payload key value e', setup ln q SGX_SUCCESS dec GetState (name :: ercc :: more) e = Ok (Ret (payload, Some (key, value)), e') ∧
    tlcc_pk (es e') = tpk ∧ sem e' = sem e ∧
    let tx := [MkNs (bs "ercc") [] [] [(key, value)]] in
    check_ercc_all (Some (fetch_of ch)) tx = Ret tt ∧
    ∀ c cur ctx stub l, call_ok c → call_peer c → ledger (tlcc (Shim.world (shim (es e)))) = l → lock l = false →
      in_sync stub l → tx_reads stub = [] → tx_writes stub = [] → committed_record l (call_auction c) cur →
      (∀ d, (ecdsa_sign d (enclave_sk (es e'))).1 = SGX_SUCCESS) →
      let args := args_text (call_args c) in
      ∃ response stub' es', invoke_cc [args; []] stub ctx (es e') = Ok (Ret response, Some stub', es') ∧
        ∀ action results rw, act_results action = Some results → act_response_payload action = Some response →
          decode_TxReadWriteSet results = Some (MkTxRwset [MkNsRwset (Some (bs "ecc")) (Some rw)]) →
          decode_KVRWSet rw = Some (fabric_rwset stub') →
          checkEnclaveEndorsement (Some (fetch_of (apply_tx ch tx))) [args; []] action = Ret tt.
Proof.
  intros Hcan Hfull ch. destruct (setup_run ln q dec e pk tpk quote body header report treport GetState name ercc more Hcan Hfull)
    as (pk_der & Hm & Hrun & Hch).
  destruct (Hch ch) as [Hchk Hreg]; [by apply lookup_insert_eq|].
  eexists _, _, _, _. split; [exact Hrun|]. split; [done|]. split; [done|]. split; [exact Hchk|].
  intros c cur ctx stub l Hc Hp Hl Hlk Hsync Hr Hw Hrec Hsign args. cbn [es] in *.
  destruct (accepts_auction c cur ctx (bound tpk (created (es e))) stub l (key_count (es e)))
    as (payload & signature & pk' & pk_der' & stub' & es' & Hsw & Hm' & Hi & -> & _ & Hacc); [done..|].
  pose proof (cs_pk _ _ _ _ _ _ _ _ _ _ _ Hcan) as Hpk. unfold bound, created in Hsw. cbn [enclave_pk] in Hsw.
  rewrite Hpk in Hsw. injection Hsw as <-. rewrite Hm in Hm'. injection Hm' as <-.
  eexists _, stub', es'. split; [exact Hi|]. intros action results rw H1 H2 H3 H4. by eapply Hacc.
Qed.

(** From setup to accepted endorsements. On a channel where the wrapper's
    [Init] was committed, a setup on a working platform (also one that replaces
    an enclave) binds the enclave to the key of the ledger enclave and returns
    its permits; the registry's plugin accepts its registration; and once that
    is committed, the answers to auction calls through the wrapper pass the
    validation plugin of the chaincode. *)
Theorem setup_then_endorse ln q dec e pk tpk quote body header report treport GetState (name ercc : bytes) (more : list bytes) (ch0 : gmap (bytes * bytes) bytes) :
  can_set_up ln q dec e pk tpk quote body header report treport → full_keys pk tpk →
  let ch := apply_tx ch0 [MkNs (bs "ecc") [] [] [Init (b64_encode (mr_enclave report))]] in
  ∃ payload key value e', setup ln q SGX_SUCCESS dec GetState (name :: ercc :: more) e = Ok (Ret (payload, Some (key, value)), e') ∧
    tlcc_pk (es e') = tpk ∧ sem e' = sem e ∧
    let tx := [MkNs (bs "ercc") [] [] [(key, value)]] in
    check_ercc_all (Some (fetch_of ch)) tx = Ret tt ∧
    ∀ c cur ctx stub l, call_ok c → call_peer c → ledger (tlcc (Shim.world (shim (es e)))) = l → lock l = false →
      in_sync stub l → tx_reads stub = [] → tx_writes stub = [] → committed_record l (call_auction c) cur →
      (∀ d, (ecdsa_sign d (enclave_sk (es e'))).1 = SGX_SUCCESS) →
      let args := args_text (call_args c) in
      ∃ response stub' es', invoke_cc [args; []] stub ctx (es e') = Ok (Ret response, Some stub', es') ∧
        ∀ action results rw, act_results action = Some results → act_response_payload action = Some response →
          decode_TxReadWriteSet results = Some (MkTxRwset [MkNsRwset (Some (bs "ecc")) (Some rw)]) →
          decode_KVRWSet rw = Some (fabric_rwset stub') →
          checkEnclaveEndorsement (Some (fetch_of (apply_tx ch tx))) [args; []] action = Ret tt.
Proof. apply setup_endorses. Qed.

(** ** Permits that are kept *)

(** Code after which there are as many permits as before, however it ends. *)
Definition keeps {A} (m : GM (S := S) A) : Prop := ∀ e r e', m e = Ok (r, e') → sem e' = sem e.

Lemma keeps_bind {A B} (m : GM A) (f : A → GM B) : keeps m → (∀ a, keeps (f a)) → keeps (m ≫= f).
Proof.
  intros Hm Hf e r e' H. unfold mbind, gm_bind in H. destruct (m e) as [[[a| |] e1]| |] eqn:E; try done.
  - rewrite (Hf a e1 r e' H). by eapply Hm.
  - injection H as <- <-. by eapply Hm.
  - injection H as <- <-. by eapply Hm.
Qed.
Lemma keeps_lift {A} (r : go_res A) : keeps (lift_go r).
Proof. intros e r' e' H. by injection H as <- <-. Qed.
Lemma keeps_ret {A} (a : A) : keeps (mret a).
Proof. intros e r' e' H. by injection H as <- <-. Qed.
Lemma keeps_undefined {A} f : keeps (undefined (A := A) f).
Proof. by intros e r e' H. Qed.

(** A call that takes a permit, runs to its end and gives it back. *)
Lemma keeps_permit {A B} (m : GM A) (f : A → GM B) :
  (∀ e r e', m e = Ok (r, e') → sem e' = sem e ∧ ∃ a, r = Ret a) → (∀ a, keeps (f a)) →
  keeps (_ ← Acquire; r ← m; _ ← Release; f r).
Proof.
  intros Hm Hf e r e' H. unfold mbind, gm_bind, Acquire in H. destruct (sem e) as [|n] eqn:En; [done|].
  destruct (m (MkStub (eid e) n (es e))) as [[r1 e1]| |] eqn:E; [|done..].
  destruct (Hm _ _ _ E) as [Hs [a ->]]. cbn [Release sem] in *. rewrite (Hf _ _ _ _ H). cbn [sem]. by rewrite Hs.
Qed.
Lemma host_ret {A} (f : Z → enclave_state (world S) → res (A * enclave_state (world S))) e r e' :
  host f e = Ok (r, e') → sem e' = sem e ∧ ∃ a, r = Ret a.
Proof.
  unfold host. intros H. destruct (f _ _) as [p| |]; [|done..]. cbn [mbind res_bind] in H. injection H as <- <-. by eauto.
Qed.

Lemma keeps_report q spid : keeps (GetRemoteAttestationReport q spid).
Proof.
  apply keeps_permit; [apply host_ret|]. intros [[st quote] [pubkey|]]; [|apply keeps_undefined].
  apply keeps_bind; [apply keeps_lift|]. intros pk. destruct quote as [quote|]; [|apply keeps_undefined].
  case_match; [apply keeps_undefined|apply keeps_ret].
Qed.
Lemma keeps_key : keeps stub_GetPublicKey.
Proof. apply keeps_permit; [apply host_ret|]. intros [st [pk|]]; [apply keeps_lift|apply keeps_undefined]. Qed.
Lemma keeps_target : keeps GetTargetInfo.
Proof. apply keeps_permit; [apply host_ret|]. intros [target|]; [apply keeps_ret|apply keeps_undefined]. Qed.
Lemma keeps_get_report status target : keeps (GetReport status target).
Proof.
  intros e r e' H. unfold GetReport in H. destruct (getLocalAttestationReport _ _ _); [|done..]. cbn [mbind res_bind] in H.
  injection H as _ <-. done.
Qed.

Lemma keeps_Bind (report pk : bytes) : keeps (stub_Bind report pk).
Proof.
  intros e r e' H. unfold stub_Bind in H. unfold mbind at 1, gm_bind at 1, lift_go in H.
  destruct (UnmarshalEnclavePk pk) as [trans| |] eqn:Eu; [|by injection H as <- <-..].
  unfold mbind, gm_bind, Acquire in H. destruct (sem e) as [|n] eqn:En; [done|]. cbn [eid es] in H.
  case_bool_decide; [done|]. destruct (eid e); cbn [negb] in H; [|done]. unfold Bind in H. rewrite Eu in H.
  destruct (sgxcc_bind _ _ _ _) as [[z s]| |]; [|done..]. cbn [res_bind fst snd sem] in H. by injection H as <- <-.
Qed.

(** [Create] takes a permit with it exactly when it fails. *)
Lemma Create_permits ln e r e' : Create ln e = Ok (r, e') →
  (r = Ret tt ∧ sem e' = sem e) ∨ (r = Error ∧ Datatypes.S (sem e') = sem e).
Proof.
  unfold Create, mbind at 1, gm_bind, Acquire. destruct (sem e) as [|n] eqn:En; [done|]. intros H.
  destruct (sgxcc_create_enclave _ _ _ _) as [[z s]| |]; [|done..]. cbn [mbind res_bind fst snd] in H.
  case_bool_decide; injection H as <- <-; [by right|by left].
Qed.

(** The permits after a [setup] or a query of the key: all are back, unless the
    enclave could not be created; then one is missing and the proposal is
    answered with an error. *)
Theorem setup_permits ln q status dec GetState args e r e' :
  setup ln q status dec GetState args e = Ok (r, e') →
  sem e' = sem e ∨ (r = Error ∧ Datatypes.S (sem e') = sem e).
Proof.
  unfold setup. destruct args as [|a [|b args]]; [intros H; left; by eapply keeps_lift|intros H; left; by eapply keeps_lift|].
  unfold mbind at 1, gm_bind at 1. destruct (Create ln e) as [[r1 e1]| |] eqn:Ec; [|done..].
  destruct (Create_permits _ _ _ _ Ec) as [[-> <-]|[-> Hs]]; intros H; [left|right; by injection H as <- <-]. revert H.
  eapply keeps_bind; [apply keeps_lift|]. intros spid. apply keeps_bind; [apply keeps_report|]. intros [quote pk].
  apply keeps_bind; [apply keeps_lift|]. intros w. apply keeps_bind; [apply keeps_target|]. intros target.
  apply keeps_bind; [apply keeps_get_report|]. intros [report tpk]. apply keeps_bind; [apply keeps_Bind|]. intros _. apply keeps_ret.
Qed.
Lemma key_permits e r e' : getEnclavePk e = Ok (r, e') → sem e' = sem e.
Proof. apply keeps_bind; [apply keeps_key|]. intros pk. apply keeps_ret. Qed.

(** ** Permits that are lost *)

Definition cannot_launch ln : Prop :=
  exists_file ln = false ∨ create_status ln ≠ SGX_SUCCESS ∨ init_status ln ≠ SGX_SUCCESS.

(** Proposals that run [setup] one after the other, with their results. *)
Fixpoint setups (lns : list launch) q (status : Z) dec GetState (args : list bytes) e
  : res (list (go_res (bytes * option (bytes * bytes))) * StubImpl (S := S)) :=
  match lns with
  | [] => Ok ([], e)
  | ln :: lns =>
      r ← setup ln q status dec GetState args e;
      rs ← setups lns q status dec GetState args r.2;
      Ok (r.1 :: rs.1, rs.2)
  end.

Lemma Create_fails ln e n : cannot_launch ln → sem e = Datatypes.S n → Create ln e = Ok (Error, MkStub (eid e) n (es e)).
Proof.
  intros Hl Hs. unfold Create. erewrite gm_bind_ok; [|by apply Acquire_ok]. cbn [es]. unfold sgxcc_create_enclave.
  destruct (exists_file ln) eqn:Ef; cbn [negb]; [|done].
  case_bool_decide as Hc; [by cbn [mbind res_bind fst]; rewrite bool_decide_true|].
  destruct Hl as [?|[?|Hi]]; [congruence|by destruct Hc|]. unfold ecall. rewrite (bool_decide_true (init_status ln ≠ _)) by done.
  cbn [mbind res_bind read_local fst snd orb]. by rewrite bool_decide_true.
Qed.

(** A setup whose enclave cannot be created keeps its permit. After as many
    such setups as there are permits (eight for a wrapper that starts), each
    answered with an error, the wrapper waits forever: in every later setup,
    also one that could create the enclave, and in every query of the key. *)
Theorem failed_setups_block lns q status dec GetState args e :
  Forall cannot_launch lns → length lns = sem e → 2 <= length args →
  ∃ e', setups lns q status dec GetState args e = Ok (repeat Error (length lns), e') ∧
    (∀ ln, setup ln q status dec GetState args e' = UB Deadlock) ∧ getEnclavePk e' = UB Deadlock.
Proof.
  intros Hf Hl Ha. destruct args as [|a [|b args]]; cbn [length] in Ha; [lia..|]. revert e Hl.
  induction Hf as [|ln lns Hln _ IH]; intros e Hl; cbn [length] in *.
  - exists e. assert (Acquire e = UB Deadlock) as Hacq by (unfold Acquire; by rewrite <-Hl).
    split; [done|]. split.
    + intros ln. unfold setup, Create, mbind, gm_bind. by rewrite Hacq.
    + unfold getEnclavePk, stub_GetPublicKey, mbind, gm_bind. by rewrite Hacq.
  - destruct (IH (MkStub (eid e) (length lns) (es e)) eq_refl) as (e' & Hs & H). exists e'. split; [|exact H].
    cbn [setups]. unfold setup at 1. unfold mbind, gm_bind at 1. rewrite (Create_fails ln e (length lns)) by done.
    cbn [res_bind fst snd]. unfold mbind in Hs. rewrite Hs. done.
Qed.
End setup.

(** ** A concrete setup *)
Module ToySetup.
Import ToyGo ToyReg.

(** The text up to a quotation mark and the text after it. *)
Fixpoint cut (b : bytes) : bytes * bytes :=
  match b with
  | [] => ([], [])
  | x22 :: b' => ([], b')
  | c :: b' => let '(u, t) := cut b' in (c :: u, t)
  end.
Lemma cut_raw u t : raw u → cut (u ++ x22 :: t) = (u, t).
Proof. induction 1 as [|c u [Hc _] _ IH]; [done|]. cbn [app cut]. rewrite IH. destruct c; done || by destruct Hc. Qed.
Definition skip (n : nat) (b : bytes) : bytes := Nat.iter n (λ b, (cut b).2) b.

#[export] Instance setup_lib : GoSetup := {|
  report_bytes r := report_data r ++ report_mac r ++ mr_enclave r ++ repeat x00 320;
  report_of_bytes b := MkReport (take 32 (drop 80 b)) [] [] (take 64 b) (take 16 (drop 64 b));
  json_report b := Some ((cut (skip 3 b)).1, (cut (skip 7 b)).1) |}.

#[export] Instance setup_laws : SetupLaws setup_lib go_platform.
Proof.
  split; cbn [report_bytes report_of_bytes json_report setup_lib].
  - intros t d r Hd [= <-]. cbn [report_data report_mac mr_enclave default from_option id].
    set (m := Toy.checksum 16 d). assert (length m = 16) as Hm by done. split.
    + rewrite (take_app_length' d) by done. rewrite (drop_app_length' d _ 64) by done. rewrite (take_app_length' m) by done.
      rewrite app_assoc, (drop_app_length' (d ++ m)) by (by rewrite length_app, Hd, Hm). by rewrite take_app_length'.
    + by rewrite !length_app, Hd, Hm.
  - intros r p. unfold skip, report_answer. pose proof (Evaluation.Evaluation.b64_raw r) as Hr.
    pose proof (Evaluation.Evaluation.b64_raw p) as Hp. revert Hr Hp. generalize (b64_encode r), (b64_encode p). intros u v Hu Hv.
    cbn. rewrite !cut_raw by done. cbn. by rewrite cut_raw.
Qed.

Definition working : launch := MkLaunch true SGX_SUCCESS SGX_SUCCESS.
Definition quotes_all : quoting := MkQuoting (SGX_SUCCESS, MkTarget [] [] []) (Some 432%Z)
  (λ _ r, (SGX_SUCCESS, quote_of (mr_enclave r) (report_data r))).
Definition decorated : gmap bytes bytes := <[bs "SPID" := repeat x01 16]> credentials.
Definition started : StubImpl (S := sim) := NewEnclave (go_enclave at_genesis).
Definition new_pk : bytes := key_half 1 ++ key_half 1.
Definition new_report : sgx_report_t :=
  (create_report (Platform := go_platform) None (Some (Toy.checksum 32 new_pk ++ repeat x00 32))).2.
Definition ledger_report : sgx_report_t :=
  (create_report (Platform := go_platform) None (Some (Toy.checksum 32 (repeat x00 64) ++ repeat x00 32))).2.
Definition new_quote : bytes := quote_of (mr_enclave new_report) (report_data new_report).

Lemma started_can : can_set_up (G := go_lib sample_pb) (PL := go_platform) working quotes_all decorated started
  new_pk (repeat x00 64) new_quote (answer_body new_quote) (answer_header (answer_body new_quote)) new_report ledger_report.
Proof.
  split; try done.
  - change (0 < 8). lia.
  - exists (repeat x01 16). done.
  - exists (bs "cert"), (bs "key"). split_and!; [done..|]. apply answers.
  - eexists _, _. done.
Qed.
Lemma started_keys : full_keys new_pk (repeat x00 64).
Proof. split_and!; [vm_compute; discriminate..|]. split; by right. Qed.
End ToySetup.

Import ToyGo ToyReg ToySetup.

(** A setup, its registration, and an endorsement afterwards. *)
Lemma setup_then_endorse_witness :
  ∃ payload key value e', setup (G := go_lib sample_pb) (PL := go_platform) working quotes_all SGX_SUCCESS decorated (λ _, None)
      [bs "setup"; bs "ercc"] started = Ok (Ret (payload, Some (key, value)), e') ∧
    tlcc_pk (es e') = repeat x00 64 ∧
    ∃ response stub' es', invoke_cc (G := go_lib sample_pb) (PL := go_platform) [args_text (call_args (AuctionSpec.Create A)); []]
      (sim_of at_genesis) 7 (es e') = Ok (Ret response, Some stub', es').
Proof.
  destruct (setup_then_endorse (G := go_lib sample_pb) (PL := go_platform) (S := sim) working quotes_all decorated started
    new_pk (repeat x00 64) new_quote (answer_body new_quote) (answer_header (answer_body new_quote)) new_report ledger_report
    (λ _, None) (bs "setup") (bs "ercc") [] ∅ started_can started_keys)
    as (payload & key & value & e' & Hrun & Ht & _ & _ & Hcalls).
  exists payload, key, value, e'. split; [exact Hrun|]. split; [exact Ht|].
  destruct (Hcalls (AuctionSpec.Create A) None 7%Z (sim_of at_genesis) at_genesis) as (response & stub' & es' & Hi & _);
    [by_evaluation|by_evaluation|reflexivity|reflexivity|apply sim_in_sync|reflexivity|reflexivity|reflexivity|reflexivity|].
  by exists response, stub', es'.
Defined.

Lemma failed_setups_block_witness :
  ∃ e', setups (G := go_lib sample_pb) (PL := go_platform) (repeat (MkLaunch false 0 0) 8) quotes_all SGX_SUCCESS decorated
      (λ _, None) [bs "setup"; bs "ercc"] started = Ok (repeat Error 8, e') ∧
    setup (G := go_lib sample_pb) (PL := go_platform) working quotes_all SGX_SUCCESS decorated (λ _, None)
      [bs "setup"; bs "ercc"] e' = UB Deadlock.
Proof.
  destruct (failed_setups_block (G := go_lib sample_pb) (PL := go_platform) (repeat (MkLaunch false 0 0) 8) quotes_all SGX_SUCCESS
    decorated (λ _, None) [bs "setup"; bs "ercc"] started) as (e' & Hs & Hb & _).
  - repeat constructor.
  - reflexivity.
  - cbn. lia.
  - exists e'. split; [exact Hs|apply Hb].
Defined.
End Setup.
