(* ===== verification/Wrapper.v ===== *)
(** * Concurrent proposals in the chaincode wrapper (src/ecc/enclave_chaincode.go,
    src/ecc/enclave/enclave_stub.go)

    Fabric's shim runs the handler of every proposal in a goroutine of its own.
    The goroutines share the semaphore with a permit for each thread the enclave
    has, the id of the enclave, and the registry that leads a callback of the
    enclave to the stub of its proposal. Here a handler is the sequence of its
    calls of the enclave, each cut where another goroutine can come between, and
    [step] runs one piece of one goroutine. ([Setup.setup_permits] says of the whole
    handlers, run alone, what they do to the permits.)

    The theorems: there are never more threads in the enclave than it has, and
    every schedule ends with all proposals answered, with a panic, or with all
    permits lost to enclaves that could not be created; a callback reaches the
    stub of its own proposal as long as no two registrations overlap, and never
    does for a proposal whose registration is overtaken by another one. *)
From S2P Require Import Prelude Sgx Setup.
Import Setup.

Module Wrapper.

(** ** Data *)

(** The calls of the enclave stub that enter the enclave; an invocation makes a
    number of callbacks. *)
Inductive call := CCreate | CReport | CInvoke (callbacks : nat) | CKey | CTarget | CBind.

(** The handlers of enclave_chaincode.go. *)
Inductive handler := HSetup | HInvoke (callbacks : nat) | HGetEnclavePk.
(** [Invoke]: the handler by the function of the proposal. *)
Definition dispatch_proposal (function : bytes) (callbacks : nat) : handler :=
  if bool_decide (function = bs "setup") then HSetup
  else if bool_decide (function = bs "getEnclavePk") then HGetEnclavePk
  else HInvoke callbacks.
Definition calls_of (h : handler) : list call :=
  match h with
  | HSetup => [CCreate; CReport; CTarget; CBind]
  | HInvoke n => [CInvoke n; CKey]
  | HGetEnclavePk => [CKey]
  end.

(** Where a goroutine is: between two calls; in [Register], after the lock was
    released and before [r.index] is read for the result; before [Acquire]; with
    a permit; in the enclave with some id; before [Release]; before the deferred
    [registry.Release]; or at the end. [Leaked]: it returned an error and kept
    its permit. [ix] is the index of an invocation in the registry. *)
Inductive goroutine :=
  | Between (todo : list call)
  | Registering (n : nat) (todo : list call)
  | Waiting (c : call) (ix : option nat) (todo : list call)
  | Permitted (c : call) (ix : option nat) (todo : list call)
  | Inside (c : call) (ix : option nat) (id : option nat) (todo : list call)
  | Leaving (ok : bool) (ix : option nat) (todo : list call)
  | Deferred (ok : bool) (ix : nat) (todo : list call)
  | Answered (ok : bool)
  | Leaked.

(** What happened: a callback of a goroutine with the goroutine whose stub
    served it, and a call that returned with the id of the enclave it was in. *)
Inductive event := Callback (t owner : nat) | Returned (t : nat) (c : call) (id : option nat).

(** The stub of the enclave, the registry, the goroutines, and a log. *)
Record wrapper := MkWrapper {
  permits : nat;
  eid : option nat;
  created : nat;
  index : nat;
  internal : gmap nat nat;
  pool : list goroutine;
  log : list event }.

Definition start (hs : list handler) : wrapper :=
  MkWrapper ENCLAVE_TCS_NUM None 0 0 ∅ (map (λ h, Between (calls_of h)) hs) [].

(** ** Steps *)

(** The shared state, with the goroutine that moved. *)
Definition set_permits (n : nat) (s : wrapper) : wrapper :=
  MkWrapper n (eid s) (created s) (index s) (internal s) (pool s) (log s).
Definition set_eid (id : option nat) (n : nat) (s : wrapper) : wrapper :=
  MkWrapper (permits s) id n (index s) (internal s) (pool s) (log s).
Definition set_registry (ix : nat) (m : gmap nat nat) (s : wrapper) : wrapper :=
  MkWrapper (permits s) (eid s) (created s) ix m (pool s) (log s).
Definition move (t : nat) (g : goroutine) (s : wrapper) : wrapper :=
  MkWrapper (permits s) (eid s) (created s) (index s) (internal s) (<[t := g]> (pool s)) (log s).
Definition record (e : event) (s : wrapper) : wrapper :=
  MkWrapper (permits s) (eid s) (created s) (index s) (internal s) (pool s) (log s ++ [e]).

(** A handler goes on after a call, or returns its error. *)
Definition continue (ok : bool) (todo : list call) : goroutine := if ok then Between todo else Answered false.

(** [Acquire] waits without a permit. *)
Definition acquire (t : nat) (g : goroutine) (s : wrapper) : option wrapper :=
  match permits s with 0 => None | S n => Some (move t g (set_permits n s)) end.

(** One piece of goroutine [t] ([None]: it waits or has ended; [Crash]: a panic,
    the process ends). [ok] is the outcome of what runs in this piece: of the
    call; of the operations of a callback on the stub it found ([GetState],
    [PutState], [GetStateByPartialCompositeKey], the iterator, [VerifyState]:
    a callback panics when one returns an error); or, between two calls, of
    the handler's own work ([GetSPID], [RegisterEnclave], [GetReport], the
    conversion of keys). *)
Inductive outcome := Next (s : wrapper) | Crash.

Definition call_ends (t : nat) (ok : bool) (c : call) (ix id : option nat) (todo : list call) (s : wrapper) : outcome :=
  match c with
  | CInvoke (S n) =>
      match ix with
      | None => Crash
      | Some ix' =>
          match internal s !! ix' with
          | None => Crash
          | Some owner =>
              if ok then Next (record (Callback t owner) (move t (Inside (CInvoke n) ix id todo) s)) else Crash
          end
      end
  | CCreate =>
      if ok then Next (move t (Leaving true None todo) (set_eid (Some (created s)) (S (created s)) s))
      else Next (move t Leaked s)
  | _ => Next (record (Returned t c id) (move t (Leaving ok ix todo) s))
  end.

Definition step_goroutine (t : nat) (ok : bool) (g : goroutine) (s : wrapper) : option outcome :=
  match g with
  | Between [] => Some (Next (move t (Answered true) s))
  | Between (c :: todo) =>
      if negb ok then Some (Next (move t (Answered false) s))
      else
        match c with
        | CInvoke n => Some (Next (move t (Registering n todo) (set_registry (S (index s)) (<[S (index s) := t]> (internal s)) s)))
        | _ => Some (Next (move t (Waiting c None todo) s))
        end
  | Registering n todo => Some (Next (move t (Waiting (CInvoke n) (Some (index s)) todo) s))
  | Waiting c ix todo => Next <$> acquire t (Permitted c ix todo) s
  | Permitted c ix todo => Some (Next (move t (Inside c ix (eid s) todo) s))
  | Inside c ix id todo => Some (call_ends t ok c ix id todo s)
  | Leaving ok ix todo =>
      Some (Next (move t (match ix with Some ix => Deferred ok ix todo | None => continue ok todo end)
                       (set_permits (S (permits s)) s)))
  | Deferred ok ix todo => Some (Next (move t (continue ok todo) (set_registry (index s) (delete ix (internal s)) s)))
  | Answered _ | Leaked => None
  end.

Definition step (s : wrapper) (t : nat) (ok : bool) : option outcome :=
  g ← pool s !! t; step_goroutine t ok g s.

(** A schedule: which goroutine moves, and how what it does turns out. *)
Fixpoint run (s : wrapper) (sched : list (nat * bool)) : option outcome :=
  match sched with
  | [] => Some (Next s)
  | (t, ok) :: sched' =>
      match step s t ok with
      | Some (Next s') => run s' sched'
      | Some Crash => match sched' with [] => Some Crash | _ => None end
      | None => None
      end
  end.

Inductive reaches (s : wrapper) : wrapper → Prop :=
  | reaches_refl : reaches s s
  | reaches_step s1 s2 t ok : reaches s s1 → step s1 t ok = Some (Next s2) → reaches s s2.

(** ** Permits *)

Fixpoint total (f : goroutine → nat) (l : list goroutine) : nat :=
  match l with [] => 0 | g :: l' => f g + total f l' end.

Lemma total_insert f l t g g' : l !! t = Some g → total f (<[t := g']> l) + f g = total f l + f g'.
Proof.
  revert t. induction l as [|x l IH]; intros [|t] H; [done..| |].
  - injection H as ->. cbn [insert list_insert total]. lia.
  - apply IH in H. change (<[S t := g']> (x :: l)) with (x :: <[t := g']> l). cbn [total]. lia.
Qed.
Lemma total_le f g l : (∀ x, f x <= g x) → total f l <= total g l.
Proof. intros H. induction l as [|x l IH]; cbn; [done|]. specialize (H x). lia. Qed.
Lemma total_in f l t g : l !! t = Some g → f g <= total f l.
Proof.
  revert t. induction l as [|x l IH]; intros [|t] H; [done..| |].
  - injection H as ->. cbn [total]. lia.
  - apply IH in H. cbn [total]. lia.
Qed.

(** Goroutines with a permit, in the enclave, and those that took a permit with
    them. *)
Definition holding (g : goroutine) : nat :=
  match g with Permitted _ _ _ | Inside _ _ _ _ | Leaving _ _ _ | Leaked => 1 | _ => 0 end.
Definition inside (g : goroutine) : nat := match g with Inside _ _ _ _ => 1 | _ => 0 end.
Definition leaked (g : goroutine) : nat := match g with Leaked => 1 | _ => 0 end.

(** What is left to do. *)
Definition call_size (c : call) : nat := match c with CInvoke n => 7 + n | _ => 7 end.
Definition todo_size (todo : list call) : nat := 1 + sum_list (map call_size todo).
Definition goroutine_size (g : goroutine) : nat :=
  match g with
  | Between todo => todo_size todo
  | Registering n todo => 6 + n + todo_size todo
  | Waiting c _ todo => call_size c - 2 + todo_size todo
  | Permitted c _ todo => call_size c - 3 + todo_size todo
  | Inside c _ _ todo => call_size c - 4 + todo_size todo
  | Leaving _ _ todo => 2 + todo_size todo
  | Deferred _ _ todo => 1 + todo_size todo
  | Answered _ | Leaked => 0
  end.

(** A step moves one goroutine; what it held and what it has to do change with
    the permits. *)
Lemma step_moves t ok g s s' : step_goroutine t ok g s = Some (Next s') →
  ∃ g', pool s' = <[t := g']> (pool s) ∧ permits s' + holding g' = permits s + holding g ∧
    goroutine_size g' < goroutine_size g.
Proof.
  intros H.
  destruct g as [[|c todo]|n todo|c ix todo|c ix todo|c ix id todo|ok' ix todo|ok' ix todo|ok'|]; cbn in H; simplify_eq.
  all: try (eexists; split; [reflexivity|]; cbn; unfold todo_size; lia).
  - destruct ok; cbn in H; [destruct c; simplify_eq|simplify_eq]; eexists; (split; [reflexivity|]); cbn; unfold todo_size; cbn; lia.
  - unfold acquire in H. destruct (permits s) as [|n] eqn:En; [done|]. cbn in H. simplify_eq. eexists. split; [reflexivity|].
    cbn. destruct c; cbn; lia.
  - eexists. split; [reflexivity|]. cbn. destruct c; cbn; lia.
  - destruct c as [| |[|n]| | |]; cbn in H; [destruct ok| | | | | |]; simplify_eq;
      try (destruct ix as [ix|]; [|done]; case_match; [|done]; destruct ok; simplify_eq);
      (eexists; split; [reflexivity|]; cbn; unfold todo_size; lia).
  - destruct ix as [ix|], ok'; eexists; (split; [reflexivity|]); cbn; unfold todo_size; lia.
  - destruct ok'; eexists; (split; [reflexivity|]); cbn; unfold todo_size; lia.
Qed.

Lemma step_inv s t ok s' : step s t ok = Some (Next s') →
  ∃ g g', pool s !! t = Some g ∧ step_goroutine t ok g s = Some (Next s') ∧ pool s' = <[t := g']> (pool s) ∧
    permits s' + holding g' = permits s + holding g ∧ goroutine_size g' < goroutine_size g.
Proof.
  unfold step. destruct (pool s !! t) as [g|] eqn:Eg; [|done]. cbn. intros H. destruct (step_moves _ _ _ _ _ H) as (g' & ?).
  by exists g, g'.
Qed.

Lemma permits_start hs : permits (start hs) + total holding (pool (start hs)) = ENCLAVE_TCS_NUM.
Proof.
  cbn [permits pool start]. assert (total holding (map (λ h, Between (calls_of h)) hs) = 0) as ->; [|done].
  by induction hs.
Qed.

Lemma permits_kept s t ok s' : step s t ok = Some (Next s') →
  permits s' + total holding (pool s') = permits s + total holding (pool s).
Proof.
  intros (g & g' & Hg & _ & -> & Hp & _)%step_inv. pose proof (total_insert holding _ _ _ g' Hg). lia.
Qed.

Lemma reaches_permits hs s : reaches (start hs) s → permits s + total holding (pool s) = ENCLAVE_TCS_NUM.
Proof.
  induction 1 as [|s1 s2 t ok _ IH Hs]; [apply permits_start|]. by rewrite (permits_kept _ _ _ _ Hs).
Qed.

Lemma total_add f g l : total (λ x, f x + g x) l = total f l + total g l.
Proof. induction l as [|x l IH]; cbn [total]; [done|]. rewrite IH. lia. Qed.

(** C17: for any proposals and any schedule of their goroutines, the threads in
    the enclave, the permits that are left and the permits that were lost are
    together at most the eight threads the enclave is configured with. So
    [ENCLAVE_TCS_NUM] goroutines are in the enclave at most, and fewer for each
    enclave that could not be created. *)
Theorem enclave_threads_bounded hs s : reaches (start hs) s →
  total inside (pool s) + permits s + total leaked (pool s) <= ENCLAVE_TCS_NUM.
Proof.
  intros H%reaches_permits. pose proof (total_le (λ g, inside g + leaked g) holding (pool s)) as Hle.
  rewrite total_add in Hle. specialize (Hle ltac:(intros []; cbn; lia)). lia.
Qed.

(** *** Progress *)

Definition ended (g : goroutine) : bool := match g with Answered _ | Leaked => true | _ => false end.

(** A goroutine that cannot move has ended or waits for a permit. *)
Lemma cannot_move t g s : step_goroutine t true g s = None →
  ended g = true ∨ (permits s = 0 ∧ ∃ c ix todo, g = Waiting c ix todo).
Proof.
  destruct g as [[|[] todo]|n todo|c ix todo|c ix todo|c ix id todo|ok' ix todo|ok' ix todo|ok'|]; cbn; try done; try by left.
  unfold acquire. destruct (permits s); [|done]. eauto 10.
Qed.

Lemma waiting_leaked l : (∀ t g, l !! t = Some g → ended g = true ∨ ∃ c ix todo, g = Waiting c ix todo) →
  total holding l = total leaked l.
Proof.
  induction l as [|g l IH]; intros H; [done|]. cbn [total]. rewrite IH by (intros t; apply (H (S t))).
  destruct (H 0 g eq_refl) as [He|(c & ix & todo & ->)]; [by destruct g|done].
Qed.

Lemma run_length s sched o : run s sched = Some o → length sched <= total goroutine_size (pool s).
Proof.
  revert s. induction sched as [|[t ok] sched IH]; intros s H; [cbn; lia|]. cbn [run length] in *.
  destruct (step s t ok) as [[s'|]|] eqn:E; [| |done].
  - apply IH in H. apply step_inv in E as (g & g' & Hg & _ & Hp & _ & Hsz). rewrite Hp in H.
    pose proof (total_insert goroutine_size _ _ _ g' Hg). lia.
  - destruct sched; [|done]. unfold step in E. destruct (pool s !! t) as [g|] eqn:Eg; [|done].
    pose proof (total_in goroutine_size _ _ _ Eg) as Hin.
    assert (0 < goroutine_size g); [|cbn; lia].
    destruct g as [[|[] todo]|n todo|c ix todo|c ix todo|c ix id todo|ok' ix todo|ok' ix todo|ok'|]; cbn in E |- *; done || lia.
Qed.

(** C18: for any proposals, every schedule ends, after no more steps than the
    goroutines' calls and callbacks have pieces; and when no goroutine can move,
    all have ended, or eight of them failed to create an enclave and took the
    permits with them. *)
Theorem proposals_end hs s : reaches (start hs) s →
  (∀ sched o, run s sched = Some o → length sched <= total goroutine_size (pool s)) ∧
  ((∀ t ok, step s t ok = None) →
   (∀ t g, pool s !! t = Some g → ended g = true) ∨ total leaked (pool s) = ENCLAVE_TCS_NUM).
Proof.
  intros Hr. split; [intros sched o; apply run_length|]. intros Hstuck.
  assert (∀ t g, pool s !! t = Some g → ended g = true ∨ (permits s = 0 ∧ ∃ c ix todo, g = Waiting c ix todo)) as Hg.
  { intros t g Ht. apply (cannot_move t). specialize (Hstuck t true). unfold step in Hstuck. by rewrite Ht in Hstuck. }
  destruct (decide (permits s = 0)) as [Hp|Hp].
  - right. apply reaches_permits in Hr. rewrite waiting_leaked in Hr; [lia|]. intros t g Ht.
    destruct (Hg t g Ht) as [|[_ ?]]; auto.
  - left. intros t g Ht. by destruct (Hg t g Ht) as [|[? _]].
Qed.

(** ** Callbacks *)

Definition registering (g : goroutine) : nat := match g with Registering _ _ => 1 | _ => 0 end.

(** Runs in which [Register] returns before it is called again. *)
Inductive reaches_serial (s : wrapper) : wrapper → Prop :=
  | serial_refl : reaches_serial s s
  | serial_step s1 s2 t ok : reaches_serial s s1 → step s1 t ok = Some (Next s2) →
      total registering (pool s2) <= 1 → reaches_serial s s2.

(** The entry of a goroutine in the registry is its own. *)
Definition entry_of (internal : gmap nat nat) (t : nat) (ix : option nat) : Prop :=
  match ix with Some ix => internal !! ix = Some t | None => True end.
Definition owned (internal : gmap nat nat) (index : nat) (t : nat) (g : goroutine) : Prop :=
  match g with
  | Registering _ _ => internal !! index = Some t
  | Waiting c ix _ | Permitted c ix _ | Inside c ix _ _ =>
      entry_of internal t ix ∧ match c with CInvoke _ => is_Some ix | _ => True end
  | Leaving _ ix _ => entry_of internal t ix
  | Deferred _ ix _ => internal !! ix = Some t
  | _ => True
  end.
Definition registry_inv (s : wrapper) : Prop :=
  (∀ ix, is_Some (internal s !! ix) → ix <= index s) ∧
  (∀ t g, pool s !! t = Some g → owned (internal s) (index s) t g) ∧
  (∀ a b, Callback a b ∈ log s → a = b).

(** What a step does to the registry. *)
Inductive registry_change (s s' : wrapper) (t : nat) : goroutine → Prop :=
  | rc_same g' : internal s' = internal s → index s' = index s → owned (internal s) (index s) t g' → registry_change s s' t g'
  | rc_register n todo : internal s' = <[S (index s) := t]> (internal s) → index s' = S (index s) →
      registry_change s s' t (Registering n todo)
  | rc_release g' ix : internal s !! ix = Some t → internal s' = delete ix (internal s) → index s' = index s →
      (∀ m i, owned m i t g') → registry_change s s' t g'.

Lemma continue_owned ok todo m i t : owned m i t (continue ok todo).
Proof. by destruct ok. Qed.

Lemma step_registry t ok g s s' : owned (internal s) (index s) t g → step_goroutine t ok g s = Some (Next s') →
  ∃ g', pool s' = <[t := g']> (pool s) ∧ registry_change s s' t g' ∧
    (∀ a b, Callback a b ∈ log s' → Callback a b ∈ log s ∨ (a = t ∧ b = t)).
Proof.
  intros Ho H. assert (∀ a b (e : event), Callback a b ∈ log s ++ [e] → Callback a b ∈ log s ∨ e = Callback a b) as Hlog.
  { intros a b e [?|?%list_elem_of_singleton]%elem_of_app; auto. }
  destruct g as [[|c todo]|n todo|c ix todo|c ix todo|c ix id todo|ok' ix todo|ok' ix todo|ok'|]; cbn in H, Ho; simplify_eq.
  - eexists. split; [reflexivity|]. split; [by apply rc_same|by left].
  - destruct ok; cbn in H; [destruct c|]; simplify_eq; eexists; (split; [reflexivity|]);
      (split; [by first [apply rc_register|apply rc_same]|by left]).
  - eexists. split; [reflexivity|]. split; [apply rc_same; [done..|split; [done|by eexists]]|by left].
  - unfold acquire in H. destruct (permits s) as [|n]; [done|]. cbn in H. simplify_eq.
    eexists. split; [reflexivity|]. split; [by apply rc_same|by left].
  - eexists. split; [reflexivity|]. split; [by apply rc_same|by left].
  - destruct Ho as [Ho Hix]. destruct c as [| |[|n]| | |]; cbn in H; [destruct ok| | | | | |]; simplify_eq;
      try (eexists; split; [reflexivity|]; split; [by apply rc_same|intros a b; cbn [log record move set_eid]; naive_solver]).
    destruct Hix as [ix' ->]. cbn in Ho. rewrite Ho in H. destruct ok; simplify_eq. eexists. split; [reflexivity|].
    split; [apply rc_same; [done..|split; [done|by eexists]]|]. intros a b Hin%Hlog. naive_solver.
  - destruct ix as [ix|]; (eexists; split; [reflexivity|]); (split; [apply rc_same; [done..|]|by left]); [done|apply continue_owned].
  - eexists. split; [reflexivity|]. split; [eapply rc_release; [exact Ho|done..|]|by left]. intros m i. apply continue_owned.
Qed.

(** The entries of the other goroutines stay when a goroutine registers or
    releases its own. *)
Lemma owned_register m i t t' g : (∀ ix, is_Some (m !! ix) → ix <= i) → registering g = 0 →
  owned m i t' g → owned (<[S i := t]> m) (S i) t' g.
Proof.
  intros Hm Hg Ho. assert (∀ ix, entry_of m t' ix → entry_of (<[S i := t]> m) t' ix) as He.
  { intros [ix|]; [|done]. cbn. intros Hix. rewrite lookup_insert_ne; [done|]. specialize (Hm ix (mk_is_Some _ _ Hix)). lia. }
  destruct g; cbn in *; try done; try (destruct Ho; split; [by apply He|done]); [by apply He|by apply (He (Some ix))].
Qed.
Lemma owned_release m i t t' ix g : m !! ix = Some t → t ≠ t' → owned m i t' g → owned (delete ix m) i t' g.
Proof.
  intros Hm Ht Ho. assert (∀ ix', m !! ix' = Some t' → delete ix m !! ix' = Some t') as Hd.
  { intros ix' H. rewrite lookup_delete_ne; [done|congruence]. }
  assert (∀ ix', entry_of m t' ix' → entry_of (delete ix m) t' ix') as He by (intros [ix'|]; cbn; auto).
  destruct g; cbn in *; auto; destruct Ho; auto.
Qed.

Lemma registering_alone l t t' n todo g : total registering (<[t := Registering n todo]> l) <= 1 →
  l !! t' = Some g → t ≠ t' → t < length l → registering g = 0.
Proof.
  intros Hle Hg Ht Hlt. destruct (lookup_lt_is_Some_2 l t Hlt) as [g0 Hg0].
  assert (<[t' := Between []]> (<[t := Registering n todo]> l) !! t = Some (Registering n todo)) as H1.
  { rewrite list_lookup_insert_ne by done. by apply list_lookup_insert_eq. }
  pose proof (total_in registering _ _ _ H1) as H2. cbn in H2.
  assert (<[t := Registering n todo]> l !! t' = Some g) as H3 by (by rewrite list_lookup_insert_ne).
  pose proof (total_insert registering _ _ _ (Between []) H3). cbn [registering] in *. lia.
Qed.

Lemma registry_step s t ok s' : registry_inv s → step s t ok = Some (Next s') → total registering (pool s') <= 1 →
  registry_inv s'.
Proof.
  intros (Hm & Ho & Hlog) H Hser. unfold step in H. destruct (pool s !! t) as [g|] eqn:Eg; [|done].
  destruct (step_registry t ok g s s' (Ho t g Eg) H) as (g' & Hp & Hc & Hl).
  split; [|split; [|intros a b Hab; destruct (Hl a b Hab) as [?|[-> ->]]; auto]].
  - destruct Hc as [? -> ->|n todo -> ->|? ix _ -> ->]; intros ix'; [by apply Hm| |].
    + destruct (decide (ix' = S (index s))) as [->|]; [done|]. rewrite lookup_insert_ne by done. intros ?%Hm. lia.
    + intros [o [_ ?]%lookup_delete_Some]. apply Hm. by eexists.
  - intros t' g0. rewrite Hp. destruct (decide (t = t')) as [<-|Ht].
    + rewrite list_lookup_insert_eq by (by eapply lookup_lt_Some). intros [= <-].
      destruct Hc as [? -> -> ?|n todo -> ->|? ix _ -> -> ?]; [done| |done]. cbn. apply lookup_insert_eq.
    + rewrite list_lookup_insert_ne by done. intros H0. pose proof (Ho t' g0 H0) as Ho'.
      destruct Hc as [? -> -> ?|n todo -> ->|? ix ? -> -> ?]; [done| |by eapply owned_release].
      apply owned_register; [done| |done]. rewrite Hp in Hser. eapply registering_alone; [done..|]. by eapply lookup_lt_Some.
Qed.

Lemma registry_start hs : registry_inv (start hs).
Proof.
  split; [|split].
  - intros ix [o H]. change ((∅ : gmap nat nat) !! ix = Some o) in H. by rewrite lookup_empty in H.
  - intros t g H. cbn [pool start] in H. apply list_lookup_fmap_Some in H as (h & -> & _). done.
  - by intros a b ?%not_elem_of_nil.
Qed.


(** *** Overlapping registrations *)

Definition no_invoke (todo : list call) : bool :=
  forallb (λ c, match c with CInvoke _ => false | _ => true end) todo.
Definition no_callback (t : nat) (s : wrapper) : Prop := ∀ b, Callback t b ∉ log s.

(** A handler invokes the enclave at most once, as the first of its calls. *)
Definition invoked_once (s : wrapper) (t : nat) (g : goroutine) : Prop :=
  match g with
  | Between todo => no_invoke (tail todo) = true ∧ (no_invoke todo = true ∨ no_callback t s)
  | Registering _ todo => no_invoke todo = true ∧ no_callback t s
  | Waiting _ _ todo | Permitted _ _ todo | Inside _ _ _ todo | Leaving _ _ todo | Deferred _ _ todo =>
      no_invoke todo = true
  | Answered _ | Leaked => True
  end.

Lemma no_invoke_tail todo : no_invoke todo = true → no_invoke (tail todo) = true.
Proof. destruct todo as [|c todo]; [done|]. by intros [_ ?]%andb_true_iff. Qed.
Lemma continue_once ok s t todo : no_invoke todo = true → invoked_once s t (continue ok todo).
Proof. intros H. destruct ok; [|done]. split; [by apply no_invoke_tail|by left]. Qed.

(** A step logs callbacks of the goroutine that moves only. *)
Lemma step_log t ok g s s' : step_goroutine t ok g s = Some (Next s') → ∀ a b,
  Callback a b ∈ log s' → Callback a b ∈ log s ∨
    a = t ∧ ∃ n ix id todo, g = Inside (CInvoke (S n)) (Some ix) id todo ∧ internal s !! ix = Some b.
Proof.
  intros H a b.
  destruct g as [[|c todo]|n todo|c ix todo|c ix todo|c ix id todo|ok' ix todo|ok' ix todo|ok'|]; cbn in H; simplify_eq;
    try by left.
  - destruct ok; cbn in H; [destruct c|]; simplify_eq; by left.
  - unfold acquire in H. destruct (permits s); [done|]. cbn in H. simplify_eq. by left.
  - destruct c as [| |[|n]| | |]; cbn in H; [destruct ok| | | | | |]; simplify_eq; try by left.
    all: try (intros [?|?%list_elem_of_singleton]%elem_of_app; [by left|done]).
    destruct ix as [ix|]; [|done]. destruct (internal s !! ix) as [o|] eqn:Eo; [|done]. destruct ok; [|done].
    simplify_eq. intros [?|[= <- <-]%list_elem_of_singleton]%elem_of_app; [by left|]. right. eauto 10.
Qed.

Lemma once_step t ok g s s' : step_goroutine t ok g s = Some (Next s') → invoked_once s t g →
  ∃ g', pool s' = <[t := g']> (pool s) ∧ invoked_once s' t g'.
Proof.
  intros H Ho.
  destruct g as [[|c todo]|n todo|c ix todo|c ix todo|c ix id todo|ok' ix todo|ok' ix todo|ok'|]; cbn in H, Ho; simplify_eq.
  - by eexists.
  - destruct Ho as [Hn Hc]. destruct ok; cbn in H; [destruct c as [| |n| | |]|]; simplify_eq; (eexists; split; [reflexivity|]); try done.
    split; [done|]. by destruct Hc.
  - destruct Ho. by eexists.
  - unfold acquire in H. destruct (permits s); [done|]. cbn in H. simplify_eq. by eexists.
  - by eexists.
  - destruct c as [| |[|n]| | |]; cbn in H; [destruct ok| | | | | |]; simplify_eq; try by eexists.
    destruct ix as [ix|]; [|done]. case_match; [|done]. destruct ok; simplify_eq. by eexists.
  - destruct ix as [ix|]; (eexists; split; [reflexivity|]); [done|by apply continue_once].
  - eexists. split; [reflexivity|]. by apply continue_once.
Qed.

Lemma reaches_once hs s : reaches (start hs) s → ∀ t g, pool s !! t = Some g → invoked_once s t g.
Proof.
  induction 1 as [|s1 s2 u ok _ IH Hs]; intros t g Hg.
  - cbn [pool start] in Hg. apply list_lookup_fmap_Some in Hg as (h & -> & _). split; [by destruct h|].
    right. intros b. apply not_elem_of_nil.
  - unfold step in Hs. destruct (pool s1 !! u) as [gu|] eqn:Eu; [|done].
    destruct (once_step u ok gu s1 s2 Hs (IH u gu Eu)) as (g' & Hp & Hg'). rewrite Hp in Hg.
    destruct (decide (u = t)) as [->|Hne].
    + rewrite list_lookup_insert_eq in Hg by (by eapply lookup_lt_Some). by injection Hg as <-.
    + rewrite list_lookup_insert_ne in Hg by done. pose proof (IH t g Hg) as Ho.
      assert (no_callback t s1 → no_callback t s2) as Hc.
      { intros Hn b Hb. destruct (step_log u ok gu s1 s2 Hs t b Hb) as [?|[? _]]; [by eapply Hn|done]. }
      destruct g; cbn in *; naive_solver.
Qed.

(** The invocation of [t] will use, or uses, an index that is not its own. *)
Definition lost (t : nat) (s : wrapper) (g : goroutine) : Prop :=
  match g with
  | Registering _ todo => internal s !! index s ≠ Some t ∧ no_invoke todo = true
  | Waiting (CInvoke _) ix todo | Permitted (CInvoke _) ix todo | Inside (CInvoke _) ix _ todo =>
      (∃ ix', ix = Some ix' ∧ ix' <= index s ∧ internal s !! ix' ≠ Some t) ∧ no_invoke todo = true
  | Between todo | Waiting _ _ todo | Permitted _ _ todo | Inside _ _ _ todo | Leaving _ _ todo | Deferred _ _ todo =>
      no_invoke todo = true
  | Answered _ | Leaked => True
  end.
Definition overtaken (t : nat) (s : wrapper) : Prop :=
  (∀ b, Callback t b ∈ log s → b ≠ t) ∧ ∃ g, pool s !! t = Some g ∧ lost t s g.

Lemma continue_lost ok s t todo : no_invoke todo = true → lost t s (continue ok todo).
Proof. by destruct ok. Qed.

(** The step of [t] itself. *)
Lemma lost_step t ok g s s' : step_goroutine t ok g s = Some (Next s') → lost t s g →
  ∃ g', pool s' = <[t := g']> (pool s) ∧ lost t s' g'.
Proof.
  intros H Ho.
  destruct g as [[|c todo]|n todo|c ix todo|c ix todo|c ix id todo|ok' ix todo|ok' ix todo|ok'|]; cbn in H, Ho; simplify_eq.
  - by eexists.
  - apply andb_true_iff in Ho as [Hc Ht].
    destruct ok; cbn in H; [destruct c; try done|]; simplify_eq; (eexists; split; [reflexivity|]); done.
  - destruct Ho as [Ho Ht]. eexists. split; [reflexivity|]. split; [|done]. by exists (index s).
  - unfold acquire in H. destruct (permits s); [done|]. cbn in H. simplify_eq. eexists. split; [reflexivity|]. by destruct c.
  - eexists. split; [reflexivity|]. by destruct c.
  - destruct c as [| |[|n]| | |]; cbn in H; [destruct ok| | | | | |]; simplify_eq; try (by eexists);
      try (destruct Ho; by eexists).
    destruct ix as [ix|]; [|done]. case_match; [|done]. destruct ok; simplify_eq. by eexists.
  - destruct ix as [ix|]; (eexists; split; [reflexivity|]); [done|by apply continue_lost].
  - eexists. split; [reflexivity|]. by apply continue_lost.
Qed.

(** Another goroutine registers under a new index or releases one. *)
Lemma step_entries t ok g s s' : step_goroutine t ok g s = Some (Next s') →
  (internal s' = internal s ∧ index s' = index s) ∨
  (internal s' = <[S (index s) := t]> (internal s) ∧ index s' = S (index s)) ∨
  (∃ ix, internal s' = delete ix (internal s) ∧ index s' = index s).
Proof.
  intros H.
  destruct g as [[|c todo]|n todo|c ix todo|c ix todo|c ix id todo|ok' ix todo|ok' ix todo|ok'|]; cbn in H; simplify_eq; try by left.
  - destruct ok; cbn in H; [destruct c|]; simplify_eq; [by left|by left|by right; left|by left..].
  - unfold acquire in H. destruct (permits s); [done|]. cbn in H. simplify_eq. by left.
  - destruct c as [| |[|n]| | |]; cbn in H; [destruct ok| | | | | |]; simplify_eq; try by left.
    destruct ix as [ix|]; [|done]. case_match; [|done]. destruct ok; simplify_eq. by left.
  - right. right. by exists ix.
Qed.

Lemma lost_other t u ok gu g s s' : u ≠ t → step_goroutine u ok gu s = Some (Next s') → lost t s g → lost t s' g.
Proof.
  intros Hne Hs Ho.
  assert (∀ ix, ix <= index s → internal s !! ix ≠ Some t → ix <= index s' ∧ internal s' !! ix ≠ Some t) as Hix.
  { intros ix Hle H. destruct (step_entries _ _ _ _ _ Hs) as [[-> ->]|[[-> ->]|(ix' & -> & ->)]]; [done|..].
    - rewrite lookup_insert_ne by lia. split; [lia|done].
    - split; [done|]. by intros [_ ?]%lookup_delete_Some. }
  assert (internal s !! index s ≠ Some t → internal s' !! index s' ≠ Some t) as Hidx.
  { intros H. destruct (step_entries _ _ _ _ _ Hs) as [[-> ->]|[[-> ->]|(ix' & -> & ->)]]; [done|..].
    - rewrite lookup_insert_eq. congruence.
    - by intros [_ ?]%lookup_delete_Some. }
  destruct g as [todo|n todo|[] ix todo|[] ix todo|[] ix id todo|ok' ix todo|ok' ix todo|ok'|]; cbn in *; try done;
    [destruct Ho; auto|..]; destruct Ho as [(ix' & -> & Hle & Hi) Ht]; (split; [|done]); exists ix'; naive_solver.
Qed.

Lemma overtaken_step t s u ok s' : overtaken t s → step s u ok = Some (Next s') → overtaken t s'.
Proof.
  intros [Hlog (g & Hg & Hl)] Hs. unfold step in Hs. destruct (pool s !! u) as [gu|] eqn:Eu; [|done]. cbn in Hs. split.
  - intros b Hb. destruct (step_log u ok gu s s' Hs t b Hb) as [?|(-> & n & ix & id & todo & -> & Hix)]; [by apply Hlog|].
    intros ->. rewrite Hg in Eu. injection Eu as ->. cbn in Hl. destruct Hl as [(ix' & [= <-] & _ & Hne) _]. done.
  - destruct (decide (u = t)) as [->|Hne].
    + rewrite Hg in Eu. injection Eu as <-. destruct (lost_step t ok g s s' Hs Hl) as (g' & Hp & Hl').
      exists g'. split; [|done]. rewrite Hp. apply list_lookup_insert_eq. by eapply lookup_lt_Some.
    + exists g. split; [|by eapply lost_other]. destruct (step_moves u ok gu s s' Hs) as (gu' & -> & _).
      by rewrite list_lookup_insert_ne.
Qed.

(** C35: [Register] reads the index for its result after it released the lock.
    When, in any run, another goroutine registers after [t] has entered its
    stub and before [t] reads the index, no callback of [t] is ever served by
    the stub of its own proposal: whatever happens then, it is served by the
    stub of another one, or panics because that one has released it. *)
Theorem registration_race hs s t n todo u s1 m todo' :
  reaches (start hs) s → pool s !! t = Some (Registering n todo) → u ≠ t →
  step s u true = Some (Next s1) → pool s !! u = Some (Between (CInvoke m :: todo')) →
  ∀ s', reaches s1 s' →
    (∀ b, Callback t b ∈ log s' → b ≠ t) ∧
    ∀ k ix id rest, pool s' !! t = Some (Inside (CInvoke k) (Some ix) id rest) → internal s' !! ix ≠ Some t.
Proof.
  intros Hr Ht Hne Hs Hu s' Hr'. assert (overtaken t s') as [Hlog (g & Hg & Hl)].
  2:{ split; [done|]. intros k ix id rest Hin. rewrite Hg in Hin. injection Hin as ->. by destruct Hl as [(ix' & [= <-] & _ & ?) _]. }
  induction Hr' as [|s2 s3 v ok _ IH Hv]; [|by eapply overtaken_step].
  destruct (reaches_once hs s Hr t _ Ht) as [Hn Hc].
  unfold step in Hs. rewrite Hu in Hs. cbn in Hs. injection Hs as <-. split; [intros b Hb; by destruct (Hc b)|].
  exists (Registering n todo). split; [cbn; by rewrite list_lookup_insert_ne|]. split; [|done].
  cbn. rewrite lookup_insert_eq. congruence.
Qed.

(** An answer whose signature and key are of two enclaves: a second setup
    replaces the enclave between the two calls of [invoke]. *)
Theorem setup_between_answers : ∃ s,
  run (start [HSetup; HSetup; HInvoke 0]) (repeat (0, true) 5 ++ repeat (2, true) 7 ++ repeat (1, true) 5 ++ repeat (2, true) 5) = Some (Next s) ∧
  log s = [Returned 2 (CInvoke 0) (Some 0); Returned 2 CKey (Some 1)].
Proof. eexists. split; vm_compute; reflexivity. Qed.

(** ** Examples *)

(** A run as a computation, and whether its registrations overlap. *)
Fixpoint final (s : wrapper) (sched : list (nat * bool)) : option (wrapper * bool) :=
  match sched with
  | [] => Some (s, true)
  | (t, ok) :: sched' =>
      match step s t ok with
      | Some (Next s') =>
          r ← final s' sched'; Some (r.1, bool_decide (total registering (pool s') <= 1) && r.2)
      | _ => None
      end
  end.

Lemma reaches_trans_step s t ok s1 s2 : step s t ok = Some (Next s1) → reaches s1 s2 → reaches s s2.
Proof. intros H. induction 1; [|by eapply reaches_step]. eapply reaches_step; [apply reaches_refl|done]. Qed.
Lemma serial_trans_step s t ok s1 s2 : step s t ok = Some (Next s1) → total registering (pool s1) <= 1 →
  reaches_serial s1 s2 → reaches_serial s s2.
Proof. intros H Hser. induction 1; [|by eapply serial_step]. eapply serial_step; [apply serial_refl|done..]. Qed.

Lemma final_reaches s sched s' b : final s sched = Some (s', b) → reaches s s'.
Proof.
  revert s b. induction sched as [|[t ok] sched IH]; intros s b H; cbn [final] in H; [injection H as <- _; apply reaches_refl|].
  destruct (step s t ok) as [[s1|]|] eqn:E; [|done..]. destruct (final s1 sched) as [[s2 b2]|] eqn:Ef; [|done].
  injection H as <- _. eapply reaches_trans_step; [done|]. by eapply IH.
Qed.
Lemma final_serial s sched s' : final s sched = Some (s', true) → reaches_serial s s'.
Proof.
  revert s. induction sched as [|[t ok] sched IH]; intros s H; cbn [final] in H; [injection H as <-; apply serial_refl|].
  destruct (step s t ok) as [[s1|]|] eqn:E; [|done..]. destruct (final s1 sched) as [[s2 b2]|] eqn:Ef; [|done].
  injection H as <- [Hser ->]%andb_true_iff. apply bool_decide_eq_true in Hser.
  eapply serial_trans_step; [done..|]. by apply IH.
Qed.

(** Nine proposals: eight in the enclave, one waits. *)
Definition enter (t : nat) : list (nat * bool) := repeat (t, true) 3.
Definition crowd_schedule : list (nat * bool) := concat (map enter (seq 0 8)) ++ [(8, true)].
Definition crowd : wrapper :=
  match final (start (repeat HGetEnclavePk 9)) crowd_schedule with Some (s, _) => s | None => start [] end.
Lemma crowd_reached : reaches (start (repeat HGetEnclavePk 9)) crowd.
Proof. eapply (final_reaches _ crowd_schedule _ true). vm_compute. reflexivity. Qed.

Lemma enclave_threads_bounded_witness :
  total inside (pool crowd) = 8 ∧ total inside (pool crowd) + permits crowd + total leaked (pool crowd) <= ENCLAVE_TCS_NUM.
Proof. split; [vm_compute; reflexivity|]. apply (enclave_threads_bounded (repeat HGetEnclavePk 9)), crowd_reached. Defined.

(** Eight setups fail to create an enclave, and a query waits. *)
Definition fail_setup (t : nat) : list (nat * bool) := [(t, true); (t, true); (t, true); (t, false)].
Definition blocked_schedule : list (nat * bool) := concat (map fail_setup (seq 0 8)) ++ [(8, true)].
Definition blocked : wrapper :=
  match final (start (repeat HSetup 8 ++ [HGetEnclavePk])) blocked_schedule with Some (s, _) => s | None => start [] end.
Lemma blocked_reached : reaches (start (repeat HSetup 8 ++ [HGetEnclavePk])) blocked.
Proof. eapply (final_reaches _ blocked_schedule _ true). vm_compute. reflexivity. Qed.
Lemma blocked_stuck t ok : step blocked t ok = None.
Proof.
  assert (blocked = MkWrapper 0 None 0 0 ∅ (repeat Leaked 8 ++ [Waiting CKey None []]) []) as -> by (vm_compute; reflexivity).
  do 9 (destruct t as [|t]; [reflexivity|]). reflexivity.
Qed.

Lemma proposals_end_witness : total leaked (pool blocked) = ENCLAVE_TCS_NUM ∨ permits blocked = 1.
Proof.
  destruct (proposals_end (repeat HSetup 8 ++ [HGetEnclavePk]) blocked blocked_reached) as [_ H].
  destruct (H blocked_stuck) as [He|Hl]; [|by left].
  specialize (He 8 (Waiting CKey None []) ltac:(vm_compute; reflexivity)). discriminate.
Defined.

(** Two invocations that register one after the other. *)
Definition overlapping_schedule : list (nat * bool) :=
  repeat (0, true) 2 ++ repeat (1, true) 2 ++ repeat (0, true) 3 ++ repeat (1, true) 3.
Definition overlapping : wrapper :=
  match final (start [HInvoke 1; HInvoke 1]) overlapping_schedule with Some (s, _) => s | None => start [] end.
Lemma overlapping_reached : reaches_serial (start [HInvoke 1; HInvoke 1]) overlapping.
Proof. eapply (final_serial _ overlapping_schedule). vm_compute. reflexivity. Qed.


(** Two invocations: the second registers before the first has read the index. *)
Definition race : wrapper :=
  match final (start [HInvoke 1; HInvoke 1]) [(0, true)] with Some (s, _) => s | None => start [] end.
Definition raced : wrapper :=
  match final race [(1, true)] with Some (s, _) => s | None => start [] end.
Definition crossed : wrapper :=
  match final raced (repeat (0, true) 4) with Some (s, _) => s | None => start [] end.

Lemma registration_race_witness : log crossed = [Callback 0 1] ∧ ∀ b, Callback 0 b ∈ log crossed → b ≠ 0.
Proof.
  split; [vm_compute; reflexivity|].
  apply (registration_race [HInvoke 1; HInvoke 1] race 0 1 [CKey] 1 raced 1 [CKey]).
  - eapply (final_reaches _ [(0, true)] _ true). vm_compute. reflexivity.
  - vm_compute. reflexivity.
  - discriminate.
  - vm_compute. reflexivity.
  - vm_compute. reflexivity.
  - eapply (final_reaches _ (repeat (0, true) 4) _ true). vm_compute. reflexivity.
Defined.
End Wrapper.
