(* ===== verification/Logging.v ===== *)
(** * Logging (src/common/logging.c, src/common/logging.h, the [golog] of
    src/tlcc_enclave/test/test.c)

    The enclaves format their messages with [vsnprintf] into a buffer and pass
    the text to the host, which hands it to [golog]. Modelled are the
    conversions the program's formats have: [%d], [%i], [%x], [%s], [%p] and
    [%%], with a width, the flag [0] for numbers and the flag [#] for [%x]; at
    any other conversion specification the model stops ([Unmodelled]) and says
    nothing about what [vsnprintf] does. A modelled conversion without a fitting
    argument is undefined. The theorems: on a format of these conversions,
    [printf] is defined exactly for arguments that fit it, never leaves its
    buffer, and returns the length of what it passes on; the [golog] of the test
    driver takes that text for a format again. *)
From S2P Require Import Prelude Cdouble ParsonPrint.
Import Cdouble ParsonPrint.

Module Logging.

(** ** [vsnprintf] *)

(** An argument: a C string (or NULL), an [int] or [unsigned], a pointer. *)
Inductive arg := ArgStr (s : option bytes) | ArgInt (n : Z) | ArgPtr (p : Z).

(** Flags and width of a conversion. *)
Record spec := MkSpec { alt : bool; zero : bool; width : nat }.
#[export] Instance spec_eq_dec : EqDecision spec.
Proof. solve_decision. Defined.

Definition hex_digit (d : Z) : byte := z2b (if (d <? 10)%Z then 48 + d else 87 + d).
Fixpoint hex_fuel (fuel : nat) (n : Z) (acc : bytes) : bytes :=
  match fuel with
  | 0 => acc
  | S f =>
      let acc' := hex_digit (n mod 16) :: acc in
      if (n / 16 =? 0)%Z then acc' else hex_fuel f (n / 16) acc'
  end.
(** Sixteen digits are enough for a pointer. *)
Definition hex (n : Z) : bytes := hex_fuel 16 n [].

(** Padding to the width: zeros after the sign or prefix, or spaces before it. *)
Definition pad (sp : spec) (prefix digits : bytes) : bytes :=
  let n := width sp - length (prefix ++ digits) in
  if zero sp then prefix ++ repeat x30 n ++ digits else repeat x20 n ++ prefix ++ digits.

Inductive kind := KInt | KStr | KPtr.
#[export] Instance kind_eq_dec : EqDecision kind.
Proof. solve_decision. Defined.

(** The argument a conversion takes. *)
Definition conversion (c : byte) : option kind :=
  if bool_decide (c = x64) || bool_decide (c = x69) || bool_decide (c = x78) then Some KInt
  else if bool_decide (c = x73) then Some KStr
  else if bool_decide (c = x70) then Some KPtr
  else None.

(** The flags a conversion may have. *)
Definition flags_ok (sp : spec) (c : byte) : bool :=
  (negb (alt sp) || bool_decide (c = x78)) && (negb (zero sp) || bool_decide (conversion c = Some KInt)).
(** The argument of a modelled conversion specification. *)
Definition directive (sp : spec) (c : byte) : option kind := if flags_ok sp c then conversion c else None.

Definition convert (sp : spec) (c : byte) (k : kind) (a : arg) : res bytes :=
  match k, a with
  | KInt, ArgInt n =>
      if bool_decide (c = x78) then Ok (pad sp (if alt sp && negb (u32 n =? 0)%Z then bs "0x" else []) (hex (u32 n)))
      else Ok (pad sp (if (n <? 0)%Z then [x2d] else []) (dec (Z.abs n)))
  | KStr, ArgStr (Some s) => Ok (pad (MkSpec false false (width sp)) [] (cstr s))
  | KStr, ArgStr None => UB NullDeref
  | KPtr, ArgPtr p => Ok (pad sp (bs "0x") (hex p))
  | _, _ => UB BadFormat
  end.

Definition no_spec : spec := MkSpec false false 0.

(** Flags, then width: [Some] with what was read so far, [None] for another
    character. *)
Definition spec_char (c : byte) (sp : spec) : option spec :=
  if bool_decide (c = x23 ∧ width sp = 0) then Some (MkSpec true (zero sp) (width sp))
  else if bool_decide (c = x30 ∧ width sp = 0) then Some (MkSpec (alt sp) true 0)
  else if is_digit c then Some (MkSpec (alt sp) (zero sp) (10 * width sp + Z.to_nat (b2z c - 48)))
  else None.

(** What is left of the format and of the arguments; [st] is [Some] inside a
    conversion. *)
Fixpoint vformat (st : option spec) (fmt : bytes) (args : list arg) : res bytes :=
  match fmt with
  | [] => match st with None => Ok [] | Some _ => UB BadFormat end
  | c :: fmt' =>
      match st with
      | None =>
          if bool_decide (c = x25) then vformat (Some no_spec) fmt' args
          else r ← vformat None fmt' args; Ok (c :: r)
      | Some sp =>
          if bool_decide (c = x25 ∧ sp = no_spec) then r ← vformat None fmt' args; Ok (c :: r)
          else
            match spec_char c sp with
            | Some sp' => vformat (Some sp') fmt' args
            | None =>
                match directive sp c, args with
                | None, _ => UB Unmodelled
                | Some _, [] => UB BadFormat
                | Some k, a :: args' => t ← convert sp c k a; r ← vformat None fmt' args'; Ok (t ++ r)
                end
            end
      end
  end.

Section buffer.
(** The size of a stream buffer, at least 256 in C. *)
Context (BUFSIZ : nat).

(** The buffer of [size] bytes, zero before the call. *)
Definition vsnprintf (size : nat) (fmt : bytes) (args : list arg) : res bytes :=
  out ← vformat None (cstr fmt) args;
  let text := take (size - 1) out in
  Ok (text ++ repeat x00 (size - length text)).

(** ** logging.c *)

(** The result, and the string passed to [ocall_print_string]. *)
Definition printf (fmt : bytes) (args : list arg) : res (Z * bytes) :=
  buf ← vsnprintf BUFSIZ fmt args;
  str ← c_string buf;
  Ok (Z.of_nat (length str), str).

(** ** logging.h *)

Definition TAG : bytes := bs "[Enclave] ".
Definition NRM : bytes := x1b :: bs "[0m".
Definition CYN : bytes := x1b :: bs "[36m".
Definition YEL : bytes := x1b :: bs "[33m".
Definition RED : bytes := x1b :: bs "[31m".
Definition DO_DEBUG : bool := false.
Definition DO_INFO : bool := true.
Definition DO_ERROR : bool := true.

(** The text of a message that is logged. *)
Definition logs (on : bool) (fmt : bytes) (args : list arg) : res (option bytes) :=
  if on then r ← printf fmt args; Ok (Some r.2) else Ok None.
Definition LOG_DEBUG (fmt : bytes) := logs DO_DEBUG (CYN ++ bs "DEBUG " ++ TAG ++ YEL ++ fmt ++ NRM ++ [x0a]).
Definition LOG_INFO (fmt : bytes) := logs DO_INFO (CYN ++ bs "INFO " ++ TAG ++ NRM ++ fmt ++ [x0a]).
Definition LOG_ERROR (fmt : bytes) := logs DO_ERROR (CYN ++ bs "ERROR " ++ TAG ++ RED ++ fmt ++ NRM ++ [x0a]).

(** ** The host side of the test driver *)

(** What [golog] prints. *)
Definition golog (fmt : bytes) (args : list arg) : res bytes :=
  buf ← vsnprintf BUFSIZ fmt args; c_string buf.
Definition ocall_print_string (str : bytes) : res bytes := golog str [].
Definition PERR (fmt : bytes) := golog (CYN ++ bs "ERROR" ++ RED ++ fmt ++ NRM ++ [x0a]).
End buffer.

(** ** Formats and their arguments *)

(** The arguments a format takes, if it has only modelled conversions. *)
Fixpoint format_kinds (st : option spec) (fmt : bytes) : option (list kind) :=
  match fmt with
  | [] => match st with None => Some [] | Some _ => None end
  | c :: fmt' =>
      match st with
      | None => format_kinds (if bool_decide (c = x25) then Some no_spec else None) fmt'
      | Some sp =>
          if bool_decide (c = x25 ∧ sp = no_spec) then format_kinds None fmt'
          else
            match spec_char c sp with
            | Some sp' => format_kinds (Some sp') fmt'
            | None => k ← directive sp c; ks ← format_kinds None fmt'; Some (k :: ks)
            end
      end
  end.

Definition fits (k : kind) (a : arg) : bool :=
  match k, a with KInt, ArgInt _ | KStr, ArgStr (Some _) | KPtr, ArgPtr _ => true | _, _ => false end.
(** More arguments than the format takes are ignored. *)
Fixpoint all_fit (ks : list kind) (args : list arg) : bool :=
  match ks, args with
  | [], _ => true
  | k :: ks', a :: args' => fits k a && all_fit ks' args'
  | _ :: _, [] => false
  end.

Definition defined {A} (r : res A) : bool := match r with Ok _ => true | _ => false end.

Lemma defined_bind {A B} (m : res A) (f : A → B) : defined (x ← m; Ok (f x)) = defined m.
Proof. by destruct m. Qed.

Lemma convert_defined sp c k a : defined (convert sp c k a) = fits k a.
Proof. destruct k, a as [[s|]| |]; try done. cbn [convert]. by case_bool_decide. Qed.

Lemma vformat_defined fmt : ∀ st args, defined (vformat st fmt args) =
  match format_kinds st fmt with Some ks => all_fit ks args | None => false end.
Proof.
  induction fmt as [|c fmt IH]; intros st args; cbn [vformat format_kinds]; [by destruct st|].
  destruct st as [sp|].
  2: { case_bool_decide; [by rewrite IH|by rewrite defined_bind, IH]. }
  case_bool_decide; [by rewrite defined_bind, IH|].
  destruct (spec_char c sp) as [sp'|]; [by rewrite IH|]. destruct (directive sp c) as [k|]; [|done].
  destruct args as [|a args]; [cbn; by destruct (format_kinds None fmt)|].
  pose proof (convert_defined sp c k a) as Hc. pose proof (IH None args) as Hn.
  destruct (format_kinds None fmt) as [ks|]; cbn; rewrite <-?Hc;
    destruct (convert sp c k a) as [t| |]; cbn [mbind res_bind defined andb]; by rewrite ?defined_bind, ?Hn.
Qed.

(** The output of a format has no NUL. *)
Lemma hex_digit_nonzero n : hex_digit (n mod 16) ≠ x00.
Proof.
  pose proof (Z.mod_pos_bound n 16 ltac:(lia)). intros E. apply (f_equal b2z) in E. unfold hex_digit in E.
  rewrite b2z_z2b in E. change (b2z x00) with 0%Z in E. revert E. case_match eqn:Ed; rewrite Z.mod_small; lia.
Qed.
Lemma hex_fuel_nul_free fuel : ∀ n acc, nul_free acc → nul_free (hex_fuel fuel n acc).
Proof.
  induction fuel as [|f IH]; intros n acc H; [done|]. cbn [hex_fuel].
  assert (nul_free (hex_digit (n mod 16) :: acc)) as H' by (constructor; [apply hex_digit_nonzero|done]).
  destruct (n / 16 =? 0)%Z; [done|]. by apply IH.
Qed.
Lemma hex_nul_free n : nul_free (hex n).
Proof. apply hex_fuel_nul_free. constructor. Qed.
Lemma pad_nul_free sp a b : nul_free a → nul_free b → nul_free (pad sp a b).
Proof.
  intros Ha Hb. unfold pad. assert (∀ c n, c ≠ x00 → nul_free (repeat c n)) as Hr.
  { intros c n Hc. induction n; constructor; done. }
  destruct (zero sp); rewrite !nul_free_app; split_and!; try done; by apply Hr.
Qed.
Lemma convert_nul_free sp c k a t : convert sp c k a = Ok t → nul_free t.
Proof.
  unfold convert. intros H. destruct k, a as [[s|]|n|p]; try done.
  - case_bool_decide; injection H as <-; apply pad_nul_free; try apply hex_nul_free; try apply dec_pad_nul_free;
      case_match; try constructor; done || by apply (bool_decide_unpack _).
  - injection H as <-. apply pad_nul_free; [constructor|apply cstr_nul_free].
  - injection H as <-. apply pad_nul_free; [by apply (bool_decide_unpack _)|apply hex_nul_free].
Qed.
Lemma vformat_nul_free fmt : nul_free fmt → ∀ st args out, vformat st fmt args = Ok out → nul_free out.
Proof.
  induction 1 as [|c fmt Hc _ IH]; intros st args out H; cbn [vformat] in H.
  { destruct st; [done|]. injection H as <-. constructor. }
  destruct st as [sp|].
  - case_bool_decide; [res_inv H; injection H as <-; constructor; [done|by eapply IH]|].
    destruct (spec_char c sp) as [sp'|]; [by eapply IH|]. destruct (directive sp c), args as [|a args]; [done| |done..].
    do 2 res_inv H. injection H as <-.
    apply nul_free_app. split; [by eapply convert_nul_free|by eapply IH].
  - case_bool_decide; [by eapply IH|]. res_inv H. injection H as <-. constructor; [done|by eapply IH].
Qed.

(** ** [printf] *)

Section printf.
Context (BUFSIZ : nat) (BUFSIZ_min : 256 <= BUFSIZ).

(** The buffer is terminated whatever the output is. *)
Lemma vsnprintf_string fmt args out : vformat None (cstr fmt) args = Ok out →
  (buf ← vsnprintf BUFSIZ fmt args; c_string buf) = Ok (take (BUFSIZ - 1) out).
Proof.
  intros H. unfold vsnprintf. rewrite H. cbn [mbind res_bind].
  assert (nul_free (take (BUFSIZ - 1) out)) as Hn.
  { apply Forall_take. eapply vformat_nul_free; [apply cstr_nul_free|exact H]. }
  destruct (BUFSIZ - length (take (BUFSIZ - 1) out)) as [|k] eqn:Ek; [rewrite length_take in Ek; lia|].
  cbn [repeat]. by apply c_string_app.
Qed.

Lemma printf_eq fmt args : printf BUFSIZ fmt args =
  (out ← vformat None (cstr fmt) args; Ok (Z.of_nat (length (take (BUFSIZ - 1) out)), take (BUFSIZ - 1) out)).
Proof.
  destruct (vformat None (cstr fmt) args) as [out| |] eqn:E; [|unfold printf, vsnprintf; by rewrite E..].
  pose proof (vsnprintf_string fmt args out E) as H. unfold printf.
  destruct (vsnprintf BUFSIZ fmt args) as [buf| |]; [|done..]. cbn [mbind res_bind] in *. by rewrite H.
Qed.

(** C33: the enclaves' [printf], on a format whose conversions are those of
    the program's formats ([%d], [%i], [%x], [%s], [%p] and [%%], with a width,
    [0] for numbers and [#] for [%x]). It is defined exactly when the arguments
    fit the format in number and type, with no NULL for a string. Then the text
    it passes to the host is the formatted message cut to the buffer, it stays
    within the buffer with its terminator, and its length is returned. *)
Theorem printf_spec fmt args ks : format_kinds None (cstr fmt) = Some ks →
  (all_fit ks args = true ↔ defined (printf BUFSIZ fmt args) = true) ∧
  ∀ n str, printf BUFSIZ fmt args = Ok (n, str) →
    n = Z.of_nat (length str) ∧ length str < BUFSIZ ∧ nul_free str ∧
    ∃ out, vformat None (cstr fmt) args = Ok out ∧ str = take (BUFSIZ - 1) out.
Proof.
  intros Hks. rewrite printf_eq. split.
  - rewrite (defined_bind (vformat None (cstr fmt) args) (λ out, (Z.of_nat (length (take (BUFSIZ - 1) out)), take (BUFSIZ - 1) out))).
    by rewrite vformat_defined, Hks.
  - intros n str H. destruct (vformat None (cstr fmt) args) as [out| |] eqn:E; [|done..]. cbn [mbind res_bind] in H.
    injection H as <- <-. split; [done|]. rewrite length_take. split; [lia|]. split; [|by exists out].
    apply Forall_take. eapply vformat_nul_free; [apply cstr_nul_free|exact E].
Qed.

(** ** The message as a format *)

(** Text without a percent sign is its own output. *)
Definition plain (s : bytes) : Prop := Forall (λ c, c ≠ x25) s.
Lemma vformat_plain s fmt args : plain s → vformat None (s ++ fmt) args = (r ← vformat None fmt args; Ok (s ++ r)).
Proof.
  induction 1 as [|c s Hc _ IH]; cbn [app vformat]; [by destruct (vformat None fmt args)|].
  rewrite bool_decide_false, IH by done. by destruct (vformat None fmt args).
Qed.

Lemma golog_eq fmt args : golog BUFSIZ fmt args = (out ← vformat None (cstr fmt) args; Ok (take (BUFSIZ - 1) out)).
Proof.
  destruct (vformat None (cstr fmt) args) as [out| |] eqn:E; [by apply vsnprintf_string|unfold golog, vsnprintf; by rewrite E..].
Qed.

Definition unknown_group : bytes := bs "Ledger: Unknown channel group: %s".
Definition group_prefix : bytes := CYN ++ bs "ERROR " ++ TAG ++ RED ++ bs "Ledger: Unknown channel group: ".

(** What the ledger enclave logs for a group of the configuration block. *)
Lemma log_group g : nul_free g →
  LOG_ERROR BUFSIZ unknown_group [ArgStr (Some g)] = Ok (Some (take (BUFSIZ - 1) (group_prefix ++ g ++ NRM ++ [x0a]))).
Proof.
  intros Hg. unfold LOG_ERROR, logs, DO_ERROR. rewrite printf_eq.
  change (cstr _) with (group_prefix ++ x25 :: x73 :: NRM ++ [x0a]). rewrite vformat_plain by (by apply (bool_decide_unpack _)).
  change (vformat None (x25 :: x73 :: NRM ++ [x0a]) [ArgStr (Some g)]) with (Ok (cstr g ++ NRM ++ [x0a])).
  cbn [mbind res_bind snd]. by rewrite cstr_id.
Qed.

(** The host side of the test driver takes a logged text for a format. A
    message without a percent sign is printed as it is; but the name of a
    channel group in a block, which the enclave logs, is formatted a second time:
    if it holds a conversion, [golog] reads an argument nobody passed. *)
Theorem log_text_is_format (g pre post : bytes) :
  (∀ str, nul_free str → plain str → length str < BUFSIZ → ocall_print_string BUFSIZ str = Ok str) ∧
  (g = pre ++ bs "%s" ++ post → nul_free g → plain pre → length (group_prefix ++ pre) + 3 <= BUFSIZ →
   ∃ str, LOG_ERROR BUFSIZ unknown_group [ArgStr (Some g)] = Ok (Some str) ∧ ocall_print_string BUFSIZ str = UB BadFormat).
Proof.
  split.
  - intros str Hn Hp Hl. unfold ocall_print_string. rewrite golog_eq, cstr_id by done.
    rewrite <-(app_nil_r str) at 1. rewrite vformat_plain by done. cbn [vformat mbind res_bind]. rewrite app_nil_r, take_ge by lia. done.
  - intros -> Hn Hp Hl. eexists. split; [by apply log_group|]. unfold ocall_print_string. rewrite golog_eq.
    assert (nul_free (group_prefix ++ (pre ++ bs "%s" ++ post) ++ NRM ++ [x0a])) as Hall.
    { rewrite !nul_free_app. rewrite !nul_free_app in Hn. split_and!; try apply Hn; by apply (bool_decide_unpack _). }
    rewrite cstr_id by (by apply Forall_take).
    replace (group_prefix ++ (pre ++ bs "%s" ++ post) ++ NRM ++ [x0a])
      with ((group_prefix ++ pre) ++ x25 :: x73 :: (post ++ NRM ++ [x0a])) by (by rewrite <-!app_assoc).
    rewrite take_app_ge by lia. destruct (BUFSIZ - 1 - length (group_prefix ++ pre)) as [|[|k]] eqn:Ek; [lia..|].
    rewrite vformat_plain by (apply Forall_app; split; [by apply (bool_decide_unpack _)|done]). done.
Qed.

(** The formats of the ledger and its host library whose arguments do not fit:
    none for the code of a failed signature check, a number for a string. *)
Theorem mismatched_formats n :
  LOG_ERROR BUFSIZ (bs "Ledger: ecc signature validaion failed: %d") [] = UB BadFormat ∧
  PERR BUFSIZ (bs "Lib: Error: %s") [ArgInt n] = UB BadFormat.
Proof.
  split.
  - unfold LOG_ERROR, logs, DO_ERROR. by rewrite printf_eq.
  - unfold PERR. by rewrite golog_eq.
Qed.
End printf.

(** ** Examples *)

Lemma log_text_is_format_witness :
  ∃ str, LOG_ERROR 1024 unknown_group [ArgStr (Some (bs "Org%s"))] = Ok (Some str) ∧ ocall_print_string 1024 str = UB BadFormat.
Proof.
  apply (log_text_is_format 1024 ltac:(lia) (bs "Org%s") (bs "Org") []);
    [reflexivity|by apply (bool_decide_unpack _)|by apply (bool_decide_unpack _)|].
  apply Nat.leb_le. vm_compute. reflexivity.
Defined.

(** The only format with flags and width: the code of a failed signature. *)
Lemma printf_spec_witness :
  format_kinds None (bs "Signing failed!! Reason: %#08x") = Some [KInt] ∧
  vformat None (bs "Signing failed!! Reason: %#08x") [ArgInt 0x2001] = Ok (bs "Signing failed!! Reason: 0x002001") ∧
  defined (printf 1024 (bs "Signing failed!! Reason: %#08x") [ArgInt 0x2001]) = true.
Proof.
  split; [reflexivity|]. split; [vm_compute; reflexivity|].
  apply (printf_spec 1024 ltac:(lia) _ _ [KInt]); reflexivity.
Defined.
End Logging.
