(* ===== verification/Driver.v ===== *)
(** * The test driver of the ledger enclave (src/tlcc_enclave/test/test.c) and
    [print_state] (src/tlcc_enclave/enclave/ledger.cpp)

    The program that feeds the ledger enclave with the blocks of a channel and
    asks for tags. The theorem: its exit code does not depend on what the ledger
    made of the blocks. *)
From S2P Require Import Prelude Utils StdMap Sgx EccEnclave Fabric Ledger LedgerProofs TlccEnclave HostLib Logging.
Import Utils StdMap Sgx EccEnclave Fabric Ledger LedgerProofs TlccEnclave HostLib Logging.

Module Driver.

(** ** [print_state] *)

(** The result, and the messages for the host: with the default macros none. *)
Fixpoint print_entries (BUFSIZ : nat) (st : kvs_t) : res (list (option bytes)) :=
  match st with
  | [] => Ok []
  | (key, (_, v)) :: st' =>
      m ← LOG_DEBUG BUFSIZ (bs "Ledger: " ++ [x5c] ++ bs "-> Key: " ++ [x22] ++ bs "%s" ++ [x22] ++ bs " => version: (%d,%d)")
            [ArgStr (Some key); ArgInt (block_num v); ArgInt (tx_num v)];
      ms ← print_entries BUFSIZ st';
      Ok (m :: ms)
  end.
Definition print_state {O : OpenSSL} (BUFSIZ : nat) (s : ledger_state) : res (Z * list (option bytes)) :=
  m ← LOG_DEBUG BUFSIZ (bs "Ledger: ### Print state ###") [];
  ms ← print_entries BUFSIZ (state s);
  Ok (LEDGER_SUCCESS, m :: ms).

(** ** Data *)

(** A block file: whether [fseek] to its end works, what [ftell] says, whether
    [malloc] and [fseek] to its start work, and what [fread] reads. *)
Record file := MkFile {
  seek_end : bool;
  tell : option nat;
  malloced : bool;
  seek_set : bool;
  contents : bytes }.

(** The files, and the status of every call of the enclave. *)
Record environment := MkEnv {
  fopen : bytes → option file;
  exists_file : bool;
  create_status : Z;
  init_status : Z * Z;
  send_status : nat → Z;
  print_status : Z;
  query_status : nat → Z;
  destroy_status : Z }.

(** Code that may end the process with [exit]: the exit code, or a value. *)
Definition EM (A : Type) : Type := res (Z + A).
#[export] Instance em_ret : MRet EM := λ A a, Ok (inr a).
#[export] Instance em_bind : MBind EM := λ A B f m,
  match m with Ok (inr a) => f a | Ok (inl z) => Ok (inl z) | UB e => UB e | NoFuel => NoFuel end.
Definition lift_em {A} (r : res A) : EM A := a ← r; Ok (inr a).
Definition failNow {A} : EM A := Ok (inl (-1)%Z).

Section driver.
Context {C : Crypto} {O : OpenSSL} {F : FabricPb} {PL : Platform}.

(** [out] and the length: [NULL] and 0 when the end cannot be found. *)
Definition read_block (env : environment) (filename : bytes) : EM bytes :=
  match fopen env filename with
  | None => failNow
  | Some f =>
      if negb (seek_end f) then mret []
      else
        match tell f with
        | None => failNow
        | Some bufsize =>
            if negb (seek_set f) then failNow
            else if negb (malloced f) && bool_decide (0 < bufsize) then UB NullDeref
            else mret (take bufsize (contents f))
        end
  end.

Definition range_query (env : environment) (i : nat) (s : tlcc_state) : EM tlcc_state :=
  r ← lift_em (tlcc_get_multi_state_metadata (query_status env (2 + i)) (bs "ecc.") s);
  if bool_decide (r.1.1 ≠ 0%Z) then failNow else mret r.2.

Definition test_get_and_verify_cmac (env : environment) (s : tlcc_state) : EM tlcc_state :=
  r ← lift_em (tlcc_get_state_metadata (query_status env 0) (bs "this.does.not.exist") s);
  if bool_decide (r.1.1 ≠ 0%Z) then failNow
  else
    r ← lift_em (tlcc_get_state_metadata (query_status env 1) (bs "ecc.somePrefx.MyAuction.Johan") r.2);
    if bool_decide (r.1.1 ≠ 0%Z) then failNow
    else foldl (λ m i, s ← m; range_query env i s) (mret r.2) (seq 0 5).

(** The names of the blocks, by number. *)
Definition block_file (j : nat) : bytes := bs "test/test_blocks/mychannel-block" ++ [z2b (48 + Z.of_nat j)].

(** What the ledger answers to a block is not looked at. *)
Definition send_block (env : environment) (j : nat) (s : tlcc_state) : EM tlcc_state :=
  block ← read_block env (block_file (S j));
  r ← lift_em (tlcc_send_block (send_status env j) block s);
  mret r.2.

Definition main (env : environment) (s : tlcc_state) : EM (Z * tlcc_state) :=
  if bool_decide (tlcc_create_enclave (exists_file env) (create_status env) < 0)%Z then failNow
  else
    genesis ← read_block env (block_file 0);
    r ← lift_em (tlcc_init_with_genesis (init_status env).1 (init_status env).2 genesis s);
    s ← foldl (λ m j, s ← m; send_block env j s) (mret r.2) (seq 0 7);
    r ← lift_em (tlcc_print_state (print_status env) s);
    s ← test_get_and_verify_cmac env r.2;
    let _ := tlcc_destroy_enclave (destroy_status env) in
    mret (0%Z, s).

(** ** The exit code *)

(** An environment in which everything works. *)
Record works (env : environment) : Prop := {
  w_create : exists_file env = true ∧ create_status env = SGX_SUCCESS;
  w_init : init_status env = (SGX_SUCCESS, SGX_SUCCESS);
  w_files j : j < 8 → ∃ f n, fopen env (block_file j) = Some f ∧ seek_end f = true ∧ tell f = Some n ∧
    seek_set f = true ∧ malloced f = true;
  w_send j : send_status env j = SGX_SUCCESS;
  w_print : print_status env = SGX_SUCCESS;
  w_query j : query_status env j = SGX_SUCCESS }.

(** The bytes the driver reads from a file. *)
Definition block_bytes (env : environment) (j : nat) : bytes :=
  match fopen env (block_file j) with Some f => take (default 0 (tell f)) (contents f) | None => [] end.

Lemma read_block_ok env j : works env → j < 8 → read_block env (block_file j) = mret (block_bytes env j).
Proof.
  intros Hw Hj. destruct (w_files env Hw j Hj) as (f & n & Hf & H1 & H2 & H3 & H4).
  unfold read_block, block_bytes. by rewrite Hf, H1, H2, H3, H4.
Qed.

Lemma status_ok : bool_decide (SGX_SUCCESS ≠ SGX_SUCCESS) = false.
Proof. apply bool_decide_false. intros H. by apply H. Qed.

(** A block that does not decode changes nothing. *)
Lemma garbage_refused b s : decode_Block b = None → ∃ z, parse_block b s = Ok (z, s) ∧ z ≠ LEDGER_SUCCESS.
Proof. intros H. unfold parse_block, code, parse_block_body, decode_pb, mbind, lm_bind. rewrite H. by eexists. Qed.

Lemma send_garbage env j s : works env → j < 7 → decode_Block (block_bytes env (S j)) = None →
  send_block env j s = mret s.
Proof.
  intros Hw Hj Hd. unfold send_block. rewrite read_block_ok by (done || lia). cbn [mbind em_bind mret em_ret].
  destruct (garbage_refused _ (ledger s) Hd) as (z & Hp & _).
  rewrite (w_send env Hw j), (send_block_hides_refusal _ s z (ledger s) Hp). by destruct s.
Qed.

Lemma foldl_ok {A} (f : nat → A → EM A) l s : (∀ i, i ∈ l → f i s = mret s) →
  foldl (λ m i, s ← m; f i s) (mret s) l = mret s.
Proof.
  induction l as [|i l IH]; intros H; [done|]. cbn [foldl]. cbn [mbind em_bind mret em_ret]. rewrite (H i) by (by left).
  apply IH. intros j ?. apply H. by right.
Qed.

Lemma query_ok {query : LM (Z * bytes)} s r : query (ledger s) = Ok (inr r, ledger s) →
  tlcc_metadata SGX_SUCCESS query s = Ok (SGX_SUCCESS, Some r.2, s).
Proof. intros H. unfold tlcc_metadata. rewrite status_ok, H. by destruct s. Qed.

Lemma state_query_ok key s : lock (ledger s) = false → nul_free key →
  ∃ tag, tlcc_get_state_metadata SGX_SUCCESS key s = Ok (SGX_SUCCESS, Some tag, s).
Proof.
  intros Hl Hk. eexists. unfold tlcc_get_state_metadata. eapply query_ok.
  unfold ecall_get_state_metadata, mbind, lm_bind. rewrite state_hash_eq by done. reflexivity.
Qed.
Lemma range_query_ok env i s : works env → lock (ledger s) = false → range_query env i s = mret s.
Proof.
  intros Hw Hl. unfold range_query, tlcc_get_multi_state_metadata. rewrite (w_query env Hw).
  erewrite query_ok; [reflexivity|]. unfold ecall_get_multi_state_metadata, ledger_get_multi_state_hash, mbind, lm_bind, spin_lock, spin_unlock, gets.
  rewrite Hl. cbn [state set_lock]. by rewrite (lock_unlock _ Hl).
Qed.

Lemma init_garbage b s : decode_Block b = None → lock (ledger s) = false →
  ∃ z s', tlcc_init_with_genesis SGX_SUCCESS SGX_SUCCESS b s = Ok (z, s') ∧
    lock (ledger s') = false ∧ state (ledger s') = state (ledger s) ∧ sequence_number (ledger s') = sequence_number (ledger s).
Proof.
  intros Hd Hl. unfold tlcc_init_with_genesis, ecall, on_identity. rewrite status_ok.
  assert (∃ z id', ecall_init (identity s) = Ok (z, id')) as (z & id' & ->) by
    (unfold ecall_init; case_bool_decide; [|destruct (create_key_pair _) as [? [? ?]]]; by eexists _, _).
  cbn [mbind res_bind fst snd read_local orb]. case_bool_decide; [by eexists _, _|].
  unfold on_ledger, ecall_join_channel. cbn [ledger].
  destruct (garbage_refused b (init_ledger (ledger s)).2 Hd) as (z' & -> & Hz).
  cbn [mbind res_bind]. rewrite bool_decide_true by done. cbn [mbind res_bind fst snd read_local].
  rewrite bool_decide_true by done. eexists _, _. split; [reflexivity|]. cbn [ledger]. unfold init_ledger. by destruct (X509_STORE_new 0).
Qed.

(** The exit code of the test driver does not depend on the ledger. Where all
    files can be read and all calls of the enclave can be made, the driver ends
    with code 0 also if the ledger enclave refused every single block, the
    genesis block included, and still has the state and the sequence number it
    had before. *)
Theorem driver_passes_garbage env s : works env → lock (ledger s) = false →
  (∀ j, j < 8 → decode_Block (block_bytes env j) = None) →
  ∃ s', main env s = mret (0%Z, s') ∧
    state (ledger s') = state (ledger s) ∧ sequence_number (ledger s') = sequence_number (ledger s).
Proof.
  intros Hw Hl Hd. destruct (init_garbage (block_bytes env 0) s) as (z & s1 & Hi & Hl1 & Hst & Hsq); [apply Hd; lia|done|].
  exists s1. split; [|done]. unfold main. destruct (w_create env Hw) as [-> ->]. unfold tlcc_create_enclave. rewrite status_ok. cbn [negb].
  rewrite bool_decide_false by lia. rewrite read_block_ok by (done || lia). cbn [mbind em_bind mret em_ret].
  rewrite (w_init env Hw). cbn [fst snd]. rewrite Hi. cbn [lift_em mbind em_bind res_bind fst snd].
  rewrite (foldl_ok (send_block env) (seq 0 7) s1).
  2: { intros j [_ Hj]%elem_of_seq. apply send_garbage; [done|lia|apply Hd; lia]. }
  cbn [mbind em_bind mret em_ret]. unfold tlcc_print_state, ecall, on_ledger. rewrite (w_print env Hw), status_ok. cbn [mbind res_bind fst snd lift_em em_bind].
  assert (MkTlcc (identity s1) (ledger s1) = s1) as -> by (by destruct s1). unfold test_get_and_verify_cmac. rewrite !(w_query env Hw).
  destruct (state_query_ok (bs "this.does.not.exist") s1) as [t1 ->]; [done|by apply (bool_decide_unpack _)|].
  cbn [mbind res_bind fst snd lift_em em_bind]. change (bool_decide (SGX_SUCCESS ≠ 0%Z)) with false.
  destruct (state_query_ok (bs "ecc.somePrefx.MyAuction.Johan") s1) as [t2 ->]; [done|by apply (bool_decide_unpack _)|].
  cbn [mbind res_bind fst snd lift_em em_bind]. change (bool_decide (SGX_SUCCESS ≠ 0%Z)) with false.
  rewrite (foldl_ok (range_query env)); [done|]. intros i _. by apply range_query_ok.
Qed.

(** [print_state] prints nothing unless debugging is compiled in. *)
Lemma print_state_silent BUFSIZ s : ∃ ms, print_state BUFSIZ s = Ok (LEDGER_SUCCESS, ms) ∧ Forall (λ m, m = None) ms.
Proof.
  assert (∀ st, ∃ ms, print_entries BUFSIZ st = Ok ms ∧ Forall (λ m, m = None) ms) as H.
  { induction st as [|[k [v ver]] st (ms & Hm & Hf)]; [by exists []|]. exists (None :: ms). cbn [print_entries]. rewrite Hm. by auto. }
  destruct (H (state s)) as (ms & Hm & Hf). exists (None :: ms). unfold print_state. rewrite Hm. auto.
Qed.
End driver.

(** ** Example: eight files that are no blocks *)

#[local] Existing Instances Toy.toy_crypto ToyPlatform.toy_platform ToyFabric.toy_openssl ToyFabric.toy_fabric.

Definition garbage_files : environment :=
  MkEnv (λ _, Some (MkFile true (Some 7) true true (bs "garbage"))) true SGX_SUCCESS (SGX_SUCCESS, SGX_SUCCESS)
    (λ _, SGX_SUCCESS) SGX_SUCCESS (λ _, SGX_SUCCESS) SGX_SUCCESS.
Lemma garbage_works : works garbage_files.
Proof. split; try done. intros j _. by eexists _, _. Qed.

Lemma driver_passes_garbage_witness : ∃ s', main garbage_files fresh_tlcc = mret (0%Z, s') ∧
  sequence_number (ledger s') = u32 (-1).
Proof.
  destruct (driver_passes_garbage garbage_files fresh_tlcc garbage_works eq_refl) as (s' & Hm & _ & Hs).
  - intros j _. reflexivity.
  - exists s'. split; [exact Hm|exact Hs].
Defined.
End Driver.
