(* ===== verification/TlccChaincode.v ===== *)
(** * The ledger chaincode (src/tlcc/tlcc.go, src/tlcc/enclave/enclave_stub.go)

    The system chaincode in front of the ledger enclave: it starts the enclave
    with the genesis block, hands it every block of the channel, and answers
    queries for reports and tags. No result of the host library is looked at,
    except that the reader of blocks panics when [errno] is set after a call.
    The theorems: a query through the chaincode is the one [PeerGlue] has, and
    whatever the enclave refuses, it follows a prefix of the chain or faults. *)
From S2P Require Import Prelude Utils Base64 StdMap Sgx EccCrypto Shim EccEnclave Fabric Ledger LedgerProofs TlccEnclave HostLib.
From S2P Require Import Ias PeerGlue System Vscc Registry Setup.
Import Utils Base64 StdMap Sgx EccCrypto Shim EccEnclave Fabric Ledger LedgerProofs TlccEnclave HostLib Ias PeerGlue System.
Import Vscc Registry Setup.

Module TlccChaincode.

(** [strconv.ParseBool] and [strconv.FormatBool]. *)
Definition ParseBool (s : bytes) : option bool :=
  if bool_decide (s ∈ [bs "1"; bs "t"; bs "T"; bs "TRUE"; bs "true"; bs "True"]) then Some true
  else if bool_decide (s ∈ [bs "0"; bs "f"; bs "F"; bs "FALSE"; bs "false"; bs "False"]) then Some false
  else None.
Definition FormatBool (b : bool) : bytes := if b then bs "true" else bs "false".

(** What [iter.Next] gives: the bytes of a block ([None]: something that is not a
    block, on which the type assertion panics, or one that cannot be
    marshalled), and [errno] after it was sent. *)
Abbreviation item := (option bytes * Z)%type.

Section chaincode.
Context {C : Crypto} {O : OpenSSL} {F : FabricPb} {PL : Platform} {G : GoLib} {R : RegLib} {GS : GoSetup}.

(** ** enclave_stub.go *)

(** The result and the id of an enclave that was not created are not looked at:
    later calls fail, with the status of the argument. *)
Definition tlcc_Create (exists_file : bool) (status : Z) (t : tlcc_state) : bool * tlcc_state :=
  let ok := bool_decide (tlcc_create_enclave exists_file status = 0%Z) in
  (ok, if ok then MkTlcc (MkEnclave (MkShim ∅ ∅ 0 [] tt) (repeat x00 32) (repeat x00 64) (repeat x00 64)
                            (key_count (identity t)) 0) initial
       else t).

Definition InitWithGenesis (status1 status2 : Z) (blockBytes : bytes) (t : tlcc_state) : res tlcc_state :=
  r ← tlcc_init_with_genesis status1 status2 blockBytes t; Ok r.2.

(** The two-value form of a call through cgo: the result is dropped, and [err] is
    not [nil] when [errno] is set after the call. *)
Definition NextBlock (status errno : Z) (block : bytes) (t : tlcc_state) : res (go_res unit * tlcc_state) :=
  r ← tlcc_send_block status block t;
  Ok (if bool_decide (errno ≠ 0)%Z then Error else Ret tt, r.2).

(** ** tlcc.go *)

Definition getStateMetadata (args : list bytes) (t : tlcc_state) : go_res bytes * tlcc_state :=
  match args with
  | _ :: key :: nonce64 :: flag :: _ =>
      if negb (DecodeString nonce64).2 then (Error, t)
      else
        match ParseBool flag with
        | None => (Error, t)
        | Some isRangeQuery =>
            match GetStateMetadata key isRangeQuery t with
            | Some (cmac, t') => (Ret (b64_encode cmac), t')
            | None => (Panic, t)
            end
        end
  | _ => (Panic, t)
  end.

Definition initNewEnclave (l : launch) (status2 : Z) (genesis : bytes) (t : tlcc_state) : res (bool * tlcc_state) :=
  let '(ok, t1) := tlcc_Create (exists_file l) (create_status l) t in
  t2 ← InitWithGenesis (if ok then init_status l else SGX_ERROR_INVALID_ENCLAVE_ID) status2 genesis t1;
  Ok (ok, t2).

(** The goroutine that reads the blocks, on what the iterator has given so far:
    it waits for the next one, or panics. *)
Fixpoint readBlocks (status : Z) (items : list item) (t : tlcc_state) : res (go_res unit * tlcc_state) :=
  match items with
  | [] => Ok (Ret tt, t)
  | (None, _) :: _ => Ok (Panic, t)
  | (Some blockBytes, errno) :: items' =>
      r ← NextBlock status errno blockBytes t;
      match r.1 with Ret _ => readBlocks status items' r.2 | _ => Ok (Panic, r.2) end
  end.

(** The response, and what becomes of the goroutine. [GetLedger] may return
    [nil] and [GetBlocksIterator] an error. *)
Definition joinChannel (GetLedger GetBlocksIterator : bool) (l : launch) (status2 : Z) (items : list item) (t : tlcc_state)
  : res (go_res bytes * go_res unit * tlcc_state) :=
  if negb GetLedger then Ok (Error, Ret tt, t)
  else if negb GetBlocksIterator then Ok (Error, Ret tt, t)
  else
    match items with
    | (Some genesis, _) :: items' =>
        r ← initNewEnclave l status2 genesis t;
        let '(ok, t1) := r : bool * tlcc_state in
        r ← readBlocks (if ok then SGX_SUCCESS else SGX_ERROR_INVALID_ENCLAVE_ID) items' t1;
        Ok (Ret (bs "Channel joined"), r.1, r.2)
    | _ => Ok (Panic, Ret tt, t)
    end.

(** [Invoke], on the string arguments of the proposal (the first is the
    function; without any it is empty). [target_of] is the layout of a target
    info. *)
Definition tlcc_Invoke (target_of : bytes → sgx_target_info_t) (GetLedger GetBlocksIterator : bool) (l : launch)
  (status status2 : Z) (items : list item) (args : list bytes) (t : tlcc_state) : res (go_res bytes * go_res unit * tlcc_state) :=
  let function := default [] (head args) in
  if bool_decide (function = bs "GET_LOCAL_ATT_REPORT") then
    match args with
    | _ :: targetInfo :: _ => r ← getLocalAttestationReport status (target_of targetInfo) t; Ok (r, Ret tt, t)
    | _ => Ok (Panic, Ret tt, t)
    end
  else if bool_decide (function = bs "VERIFY_STATE") then
    let '(r, t') := getStateMetadata args t in Ok (r, Ret tt, t')
  else if bool_decide (function = bs "JOIN_CHANNEL") then joinChannel GetLedger GetBlocksIterator l status2 items t
  else Ok (Error, Ret tt, t).

(** A query of the ledger enclave leaves it as it is. *)
Lemma query_keeps key isRangeQuery t cmac t' : lock (ledger t) = false →
  GetStateMetadata key isRangeQuery t = Some (cmac, t') → t' = t.
Proof.
  intros Hl. unfold GetStateMetadata, tlcc_get_multi_state_metadata, tlcc_get_state_metadata, tlcc_metadata.
  rewrite (bool_decide_false (SGX_SUCCESS ≠ SGX_SUCCESS)) by (intros H; by apply H).
  destruct isRangeQuery.
  - unfold ecall_get_multi_state_metadata, ledger_get_multi_state_hash, mbind, lm_bind, spin_lock, spin_unlock, gets.
    rewrite Hl. cbn [state set_lock]. rewrite (lock_unlock _ Hl). intros H. injection H as _ <-. by destruct t.
  - unfold ecall_get_state_metadata, mbind, lm_bind. rewrite state_hash_eq by done. intros H. injection H as _ <-. by destruct t.
Qed.

(** Only joining a channel changes the ledger enclave: every other proposal to
    the ledger chaincode, whatever its function and arguments, leaves its state
    and its keys as they are. *)
Theorem tlcc_queries_read_only target_of gl gi l status status2 items args t r g t' : lock (ledger t) = false →
  default [] (head args) ≠ bs "JOIN_CHANNEL" →
  tlcc_Invoke target_of gl gi l status status2 items args t = Ok (r, g, t') → g = Ret tt ∧ t' = t.
Proof.
  intros Hl Hj. unfold tlcc_Invoke. case_bool_decide.
  { destruct args as [|a [|target args]]; intros H'; [by injection H' as _ <- <-..|].
    destruct (getLocalAttestationReport _ _ _); [|done..]. by injection H' as _ <- <-. }
  case_bool_decide; [|rewrite bool_decide_false by done; intros H'; by injection H' as _ <- <-].
  unfold getStateMetadata. destruct args as [|a [|key [|nonce [|flag args]]]]; intros H'; try by injection H' as _ <- <-.
  destruct (negb _); [by injection H' as _ <- <-|]. destruct (ParseBool flag) as [b|]; [|by injection H' as _ <- <-].
  destruct (GetStateMetadata key b t) as [[cmac t1]|] eqn:Eg; [|by injection H' as _ <- <-].
  injection H' as _ <- <-. split; [done|]. by eapply query_keeps.
Qed.
End chaincode.

(** ** The enclave follows the chain *)

Section chain.
Context {C : Crypto} {O : OpenSSL} {F : FabricPb} {PL : Platform}.
Implicit Types (t : tlcc_state) (l : ledger_state).

(** The ledger after blocks that were all accepted. *)
Inductive follows : list bytes → ledger_state → ledger_state → Prop :=
  | follows_nil l : follows [] l l
  | follows_cons b bs l l1 l2 : parse_block b l = Ok (LEDGER_SUCCESS, l1) → follows bs l1 l2 → follows (b :: bs) l l2.

(** The blocks of a channel have consecutive numbers, from [n]. *)
Definition numbered (n : Z) (blocks : list bytes) : Prop := ∀ i b block, blocks !! i = Some b →
  decode_Block b = Some block → number (header block) = (n + Z.of_nat i)%Z.

Lemma numbered_tail n b blocks : numbered n (b :: blocks) → numbered (n + 1) blocks.
Proof. intros H i x block Hi Hd. rewrite (H (Datatypes.S i) x block Hi Hd). lia. Qed.

(** A block with another number than the next one changes nothing. *)
Lemma wrong_number b l : (∀ block, decode_Block b = Some block → u32 (number (header block)) ≠ u32 (sequence_number l + 1)) →
  ∃ z, parse_block b l = Ok (z, l) ∧ z ≠ LEDGER_SUCCESS.
Proof.
  intros H. unfold parse_block, code, parse_block_body, decode_pb. destruct (decode_Block b) as [block|] eqn:E; [|by eexists].
  unfold mbind, lm_bind, mret, lm_ret, gets. rewrite (bool_decide_false (u32 (number (header block)) = _)) by (by apply H).
  by eexists.
Qed.

(** The blocks the goroutine sends, and what becomes of it. *)
Fixpoint taken (items : list item) : list bytes * go_res unit :=
  match items with
  | [] => ([], Ret tt)
  | (None, _) :: _ => ([], Panic)
  | (Some b, errno) :: items' =>
      if bool_decide (errno ≠ 0)%Z then ([b], Panic) else (b :: (taken items').1, (taken items').2)
  end.
Fixpoint sends (blocks : list bytes) (t : tlcc_state) : res tlcc_state :=
  match blocks with
  | [] => Ok t
  | b :: blocks' => r ← tlcc_send_block SGX_SUCCESS b t; sends blocks' r.2
  end.

Lemma readBlocks_taken items : ∀ t, readBlocks SGX_SUCCESS items t =
  (t' ← sends (taken items).1 t; Ok ((taken items).2, t')).
Proof.
  induction items as [|[[b|] errno] items IH]; intros t; [done| |done].
  cbn [readBlocks taken]. unfold NextBlock. case_bool_decide as He; cbn [fst snd sends];
    destruct (tlcc_send_block SGX_SUCCESS b t) as [r| |]; cbn [mbind res_bind fst snd]; try done.
Qed.

Lemma send_eq b t : (r ← tlcc_send_block SGX_SUCCESS b t; Ok r.2) =
  match parse_block b (ledger t) with Ok (_, l) => Ok (MkTlcc (identity t) l) | UB f => UB f | NoFuel => NoFuel end.
Proof.
  destruct (parse_block b (ledger t)) as [[z l]| |] eqn:E.
  - by rewrite (send_block_hides_refusal b t z l).
  - unfold tlcc_send_block, ecall, on_ledger, ecall_next_block. rewrite bool_decide_false by (intros H; by apply H). by rewrite E.
  - unfold tlcc_send_block, ecall, on_ledger, ecall_next_block. rewrite bool_decide_false by (intros H; by apply H). by rewrite E.
Qed.

Lemma sends_cons b blocks t : sends (b :: blocks) t =
  match parse_block b (ledger t) with Ok (_, l) => sends blocks (MkTlcc (identity t) l) | UB f => UB f | NoFuel => NoFuel end.
Proof.
  cbn [sends]. pose proof (send_eq b t) as E. destruct (tlcc_send_block SGX_SUCCESS b t) as [r| |];
    cbn [mbind res_bind] in *; destruct (parse_block b (ledger t)) as [[z l]| |]; congruence.
Qed.

(** After a refused block the enclave stays where it is. *)
Lemma frozen blocks : ∀ n t, numbered n blocks → (u32 (sequence_number (ledger t) + 1) < n)%Z →
  (n + Z.of_nat (length blocks) < 2 ^ 32)%Z → sends blocks t = Ok t.
Proof.
  induction blocks as [|b blocks IH]; intros n t Hn Hs Hl; [done|]. cbn [length] in *.
  destruct (wrong_number b (ledger t)) as (z & E & _).
  { intros block Hd. rewrite (Hn 0 b block eq_refl Hd).
    assert (0 <= u32 (sequence_number (ledger t) + 1))%Z by (apply Z.mod_pos_bound; lia).
    unfold u32 at 1. rewrite Z.mod_small; lia. }
  rewrite sends_cons, E. replace (MkTlcc (identity t) (ledger t)) with t by (by destruct t).
  apply (IH (n + 1)%Z); [by eapply numbered_tail|lia..].
Qed.

(** The first of the remaining blocks is refused. *)
Definition stopped (post : list bytes) l : Prop :=
  match post with [] => True | b :: _ => ∃ z l', parse_block b l = Ok (z, l') ∧ z ≠ LEDGER_SUCCESS end.

(** The enclave is where the accepted blocks took it. *)
Definition at_prefix (blocks : list bytes) l0 l : Prop := ∃ pre post l1, blocks = pre ++ post ∧ follows pre l0 l1 ∧
  state l = state l1 ∧ sequence_number l = sequence_number l1 ∧ stopped post l1.

Lemma at_prefix_cons b blocks l0 l1 l : parse_block b l0 = Ok (LEDGER_SUCCESS, l1) → at_prefix blocks l1 l → at_prefix (b :: blocks) l0 l.
Proof.
  intros Hb (pre & post & l2 & -> & Hf & H). exists (b :: pre), post, l2. split; [done|]. split; [|done]. by eapply follows_cons.
Qed.

(** One block, accepted or not, and the rest of the blocks after it. *)
Lemma feed_step b blocks n t : lock (ledger t) = false → numbered n (b :: blocks) → (0 <= n)%Z →
  (n + Z.of_nat (length (b :: blocks)) < 2 ^ 32)%Z → u32 (sequence_number (ledger t) + 1) = n →
  (∀ t', lock (ledger t') = false → u32 (sequence_number (ledger t') + 1) = (n + 1)%Z →
     match sends blocks t' with
     | Ok t2 => at_prefix blocks (ledger t') (ledger t2) | UB f => f ≠ Deadlock | NoFuel => False end) →
  ∀ id, match parse_block b (ledger t) with
  | Ok (_, l) => match sends blocks (MkTlcc id l) with
                 | Ok t2 => at_prefix (b :: blocks) (ledger t) (ledger t2) | UB f => f ≠ Deadlock | NoFuel => False end
  | UB f => f ≠ Deadlock
  | NoFuel => False
  end.
Proof.
  intros Hlk Hn H0 Hl Hs IH id. cbn [length] in Hl. pose proof (parse_block_cases b (ledger t) Hlk) as H.
  destruct (parse_block b (ledger t)) as [[z l']|f|] eqn:E; [|done..]. destruct H as (Hlk' & [(-> & Hacc)|(Hz & Hsq & Hst)]).
  - destruct Hacc as (Hsq & _). specialize (IH (MkTlcc id l')). cbn [ledger] in IH.
    specialize (IH Hlk'). rewrite Hsq, Hs in IH. unfold u32 in IH. rewrite Z.mod_small in IH by lia. specialize (IH eq_refl).
    destruct (sends blocks (MkTlcc id l')) as [t2|f|]; [|done..]. by apply (at_prefix_cons _ _ _ l').
  - rewrite (frozen blocks (n + 1)%Z); [|by eapply numbered_tail|cbn [ledger]; rewrite Hsq; lia|lia].
    exists [], (b :: blocks), (ledger t). split_and!; [done|constructor|done..|]. exists z, l'. split; [done|].
    by destruct Hz as [-> | ->].
Qed.

Lemma feed blocks : ∀ n t, lock (ledger t) = false → numbered n blocks → (0 <= n)%Z →
  (n + Z.of_nat (length blocks) < 2 ^ 32)%Z → u32 (sequence_number (ledger t) + 1) = n →
  match sends blocks t with
  | Ok t' => at_prefix blocks (ledger t) (ledger t') | UB f => f ≠ Deadlock | NoFuel => False end.
Proof.
  induction blocks as [|b blocks IH]; intros n t Hlk Hn H0 Hl Hs.
  - exists [], [], (ledger t). split_and!; [done|constructor|done..].
  - pose proof (feed_step b blocks n t Hlk Hn H0 Hl Hs) as H. rewrite sends_cons.
    cbn [length] in Hl. specialize (H (λ t' Hlk' Hs', IH (n + 1)%Z t' Hlk' (numbered_tail _ _ _ Hn) ltac:(lia) ltac:(lia) Hs') (identity t)).
    by destruct (parse_block b (ledger t)) as [[z l']|f|].
Qed.

Lemma InitWithGenesis_eq genesis t : ledger t = initial → open_context (key_count (identity t)) = SGX_SUCCESS →
  (create_key_pair (key_count (identity t))).1 = SGX_SUCCESS →
  ∃ id, InitWithGenesis SGX_SUCCESS SGX_SUCCESS genesis t =
    match parse_block genesis (init_ledger initial).2 with
    | Ok (_, l) => Ok (MkTlcc id l) | UB f => UB f | NoFuel => NoFuel end.
Proof.
  intros Hl Ho Hk. unfold InitWithGenesis, tlcc_init_with_genesis, ecall, on_identity, on_ledger, ecall_init, ecall_join_channel.
  rewrite !(bool_decide_false (SGX_SUCCESS ≠ SGX_SUCCESS)) by (intros H; by apply H). rewrite Ho.
  rewrite !(bool_decide_false (SGX_SUCCESS ≠ SGX_SUCCESS)) by (intros H; by apply H).
  destruct (create_key_pair _) as [st [sk pk]]. cbn [fst snd] in Hk. subst st. cbn [mbind res_bind fst snd read_local orb].
  rewrite !(bool_decide_false (SGX_SUCCESS ≠ SGX_SUCCESS)) by (intros H; by apply H). cbn [ledger identity]. rewrite Hl.
  eexists. destruct (parse_block genesis _) as [[z l]|f|]; [|done..]. cbn [mbind res_bind fst snd].
  case_bool_decide as Hz; cbn [mbind res_bind fst snd read_local orb]; by case_bool_decide.
Qed.

(** C19: the ledger enclave follows the chain or stops. Joining a channel on a
    working platform, when the blocks the reader takes have consecutive
    numbers: the enclave faults on a block (a certificate that fails, a missing
    measurement, a filter that is too long), which is never a deadlock; or the
    chaincode reports success and the ledger is that of a prefix of the blocks
    taken, all of which were accepted. After the first refused block nothing
    changes any more, and nobody learns it; only [errno] set after a block or
    something that is not a block makes the reader panic, with that block. *)
Theorem ledger_follows_prefix genesis e items t :
  let blocks := genesis :: (taken items).1 in
  numbered 0 blocks → (Z.of_nat (length blocks) < 2 ^ 32)%Z →
  open_context (key_count (identity t)) = SGX_SUCCESS → (create_key_pair (key_count (identity t))).1 = SGX_SUCCESS →
  match joinChannel true true (MkLaunch true SGX_SUCCESS SGX_SUCCESS) SGX_SUCCESS ((Some genesis, e) :: items) t with
  | Ok (r, g, t') => r = Ret (bs "Channel joined") ∧ g = (taken items).2 ∧
      at_prefix blocks (init_ledger initial).2 (ledger t')
  | UB f => f ≠ Deadlock
  | NoFuel => False
  end.
Proof.
  intros blocks Hn Hl Ho Hk. cbn [joinChannel negb]. unfold initNewEnclave, tlcc_Create.
  cbn [exists_file create_status init_status].
  rewrite (bool_decide_true (tlcc_create_enclave true SGX_SUCCESS = 0%Z)) by done.
  set (t1 := MkTlcc (MkEnclave (MkShim ∅ ∅ 0 [] tt) _ _ _ _ 0) initial).
  destruct (InitWithGenesis_eq genesis t1) as (id & ->); [done..|].
  assert (lock (init_ledger initial).2 = false ∧ u32 (sequence_number (init_ledger initial).2 + 1) = 0%Z) as [Hlk Hsq]
    by (unfold init_ledger; by destruct (X509_STORE_new 0)).
  pose proof (feed_step genesis (taken items).1 0 (MkTlcc id (init_ledger initial).2) Hlk Hn ltac:(lia) Hl Hsq) as H. cbn [ledger] in H.
  unfold blocks in Hl. cbn [length] in Hl.
  specialize (H (λ t' Hlk' Hs', feed (taken items).1 1 t' Hlk' (numbered_tail _ _ _ Hn) ltac:(lia) ltac:(lia) Hs') id).
  destruct (parse_block genesis _) as [[z l]|f|]; [|done..]. cbn [mbind res_bind]. rewrite readBlocks_taken.
  by destruct (sends (taken items).1 (MkTlcc id l)) as [t2|f|].
Qed.
End chain.

(** ** Tags through the chaincode *)

Section query.
Context {C : Crypto} {O : OpenSSL} {F : FabricPb} {R : RegLib} {RL : RegLaws R}.

(** [VerifyState] of stub.go with the arguments and the answer of the ledger
    chaincode as they travel. *)
Definition VerifyState_call (key nonce : bytes) (isRangeQuery : bool) (t : tlcc_state) : go_res bytes * tlcc_state :=
  let k := if isRangeQuery then bs "ecc" ++ key else bs "ecc" ++ x2e :: key in
  match getStateMetadata [bs "VERIFY_STATE"; k; b64_encode nonce; FormatBool isRangeQuery] t with
  | (Ret payload, t') =>
      let '(cmacBytes, ok) := DecodeString payload in (if (ok : bool) then Ret cmacBytes else Error, t')
  | r => r
  end.

(** It is the query of [PeerGlue], whatever the nonce; the nonce has no
    influence on the tag. *)
Theorem verify_state_through_chaincode key nonce isRangeQuery t :
  VerifyState_call key nonce isRangeQuery t =
  match VerifyState key isRangeQuery t with Some (cmac, t') => (Ret cmac, t') | None => (Panic, t) end.
Proof.
  unfold VerifyState_call, getStateMetadata, VerifyState. rewrite DecodeString_encode. cbn [negb snd].
  assert (ParseBool (FormatBool isRangeQuery) = Some isRangeQuery) as -> by (by destruct isRangeQuery).
  destruct (GetStateMetadata _ _ _) as [[cmac t']|]; [|done]. cbn [mbind option_bind].
  by rewrite DecodeString_encode, b64_roundtrip.
Qed.
End query.

(** ** A channel *)

#[local] Existing Instances ToyFabric.toy_openssl ToyFabric.toy_fabric Toy.toy_crypto ToyPlatform.toy_platform.

(** The third block does not decode; [errno] is set after it. *)
Definition sample_items : list item := [(Some (bs "block1"), 0%Z); (Some (bs "garbage"), 11%Z)].
Definition sample_chain : list bytes := [bs "genesis"; bs "block1"; bs "garbage"].
Lemma sample_numbered : numbered 0 sample_chain.
Proof. intros [|[|[|i]]] b block Hb Hd; cbn in Hb; simplify_eq; vm_compute in Hd; by simplify_eq. Qed.

Definition sample_start : tlcc_state := MkTlcc (loaded tt) initial.
Definition sample_end : tlcc_state := MkTlcc (initialised tt) at_block1.
Lemma sample_join : joinChannel true true (MkLaunch true SGX_SUCCESS SGX_SUCCESS) SGX_SUCCESS
    ((Some (bs "genesis"), 0%Z) :: sample_items) sample_start = Ok (Ret (bs "Channel joined"), Panic, sample_end).
Proof. reflexivity. Qed.

Lemma ledger_follows_prefix_witness :
  joinChannel true true (MkLaunch true SGX_SUCCESS SGX_SUCCESS) SGX_SUCCESS
    ((Some (bs "genesis"), 0%Z) :: sample_items) sample_start = Ok (Ret (bs "Channel joined"), Panic, sample_end) ∧
  at_prefix sample_chain (init_ledger initial).2 at_block1.
Proof.
  split; [apply sample_join|]. pose proof (ledger_follows_prefix (bs "genesis") 0 sample_items sample_start) as H.
  rewrite sample_join in H. apply H; [apply sample_numbered|reflexivity|reflexivity|reflexivity].
Defined.
End TlccChaincode.
