(* ===== verification/Plugins.v ===== *)
(** * The validation plugins of the peer (src/ecc/vscc/ecc_validation_plugin.go,
    src/ecc/vscc/ecc_validation_logic.go, src/ercc/vscc/ercc_validation_plugin.go,
    src/ercc/vscc/ercc_validation_logic.go)

    What the peer calls for every transaction that writes to the chaincode's or
    the registry's name space: Fabric's default validation, then the plugin's
    own check of every action in the envelope ([Vscc.checkEnclaveEndorsement]
    and [Registry.checkAttestation]). The theorems compose the two plugins on a
    channel: whatever is committed, every value of the chaincode was signed by
    an enclave that the attestation service vouched for; and they say which
    verdict a failure to read the peer's state becomes.

    Fabric's decoders and its default validation are the classes [Protos] and
    [DefaultVscc]. *)
From S2P Require Import Prelude Utils Base64 StdMap Sgx EccEnclave Fabric LedgerProofs TlccEnclave HostLib Ias System.
From S2P Require Import Shim AuctionJson Auction AuctionSpec Ledger PeerGlue Endorsement Vscc Registry Setup.
Import Utils Base64 StdMap Sgx EccEnclave Fabric LedgerProofs TlccEnclave HostLib Ias System.
Import Shim AuctionJson Auction AuctionSpec Ledger PeerGlue Endorsement Vscc Registry.

Module Plugins.

(** ** Data *)

(** The error types the code tells apart: Fabric's [validation] and [errors]
    packages, and any other. *)
Inductive go_error := ExecutionFailureError | VSCCExecutionFailureError | VSCCEndorsementPolicyError | OtherError.

(** What a validator returns: [nil], an error, or a panic. *)
Inductive verdict := Nil | Err (e : go_error) | Panics.

#[export] Instance go_error_eq_dec : EqDecision go_error.
Proof. solve_decision. Defined.
#[export] Instance verdict_eq_dec : EqDecision verdict.
Proof. solve_decision. Defined.

(** [peer.ChaincodeActionPayload]: the message [Action], of which the proposal
    response is read, may be [nil]. *)
Record ChaincodeActionPayload := MkCap {
  ChaincodeProposalPayload : bytes;
  Action : option bytes }.

(** [peer.ChaincodeInvocationSpec]: [ChaincodeSpec], [Input] (either may be
    [nil]) and [Args]. *)
Record ChaincodeInvocationSpec := MkCis { ChaincodeSpec : option (option (list bytes)) }.

(** [common.Block]: header and data may be [nil]. *)
Record Block := MkBlock { Header : option Z; Data : option (list bytes) }.

(** The functions of Fabric's [utils] and [proto.Unmarshal]; of a message with
    one field that is read, that field. *)
Class Protos := {
  Envelope : Type;
  GetEnvelopeFromBlock : bytes → option Envelope;
  GetPayload : Envelope → option bytes;
  GetTransaction : bytes → option (list bytes);
  GetChaincodeActionPayload : bytes → option ChaincodeActionPayload;
  GetProposalResponsePayload : bytes → option bytes;
  Unmarshal_ChaincodeAction : bytes → option protos_ChaincodeAction;
  GetChaincodeProposalPayload : bytes → option bytes;
  Unmarshal_ChaincodeInvocationSpec : bytes → option ChaincodeInvocationSpec }.

(** The peer as the plugins see it: its state, the fetchers that read it, the
    dependencies it passes to a plugin (which may be a fetcher), context data
    (which may be a serialized policy), and the default validation. *)
Class DefaultVscc := {
  peer : Type;
  StateFetcher : Type;
  FetchState : StateFetcher → peer → option fetched;
  Dependency : Type;
  as_StateFetcher : Dependency → option StateFetcher;
  DefaultValidation : Type;
  DefaultValidationFactory_New : DefaultValidation;
  default_Init : DefaultValidation → list Dependency → bool * DefaultValidation;
  ContextDatum : Type;
  as_SerializedPolicy : ContextDatum → option bytes;
  default_Validate : DefaultValidation → peer → Block → bytes → Z → Z → list ContextDatum → verdict }.

Section plugins.
Context {G : GoLib} {R : RegLib} {P : Protos}.

(** ** [Validate] of the two validators *)

Definition policyErr {A} (r : go_res A) : verdict :=
  match r with Ret _ => Nil | Error => Err VSCCEndorsementPolicyError | Panic => Panics end.

(** The actions of a transaction, one after the other. *)
Fixpoint for_actions (f : bytes → go_res unit) (acts : list bytes) : go_res unit :=
  match acts with
  | [] => Ret tt
  | act :: acts' => _ ← f act; for_actions f acts'
  end.

(** The endorsed action in an action of the transaction. *)
Definition endorsed_action (cap : ChaincodeActionPayload) : go_res protos_ChaincodeAction :=
  match Action cap with
  | None => Panic
  | Some ProposalResponsePayload =>
      Extension ← or_error (GetProposalResponsePayload ProposalResponsePayload);
      or_error (Unmarshal_ChaincodeAction Extension)
  end.

(** [cis.ChaincodeSpec.Input.Args]; a [nil] on the way is like no arguments,
    both end in a panic where the first one is read. *)
Definition cis_Args (cis : ChaincodeInvocationSpec) : list bytes :=
  match ChaincodeSpec cis with Some (Some args) => args | _ => [] end.

Definition envelope_actions (envelopeBytes : bytes) : go_res (list bytes) :=
  env ← or_error (GetEnvelopeFromBlock envelopeBytes);
  payl ← or_error (GetPayload env);
  or_error (GetTransaction payl).

Definition ecc_action (fetch : option fetched) (act : bytes) : go_res unit :=
  cap ← or_error (GetChaincodeActionPayload act);
  ccAction ← endorsed_action cap;
  Input ← or_error (GetChaincodeProposalPayload (ChaincodeProposalPayload cap));
  cis ← or_error (Unmarshal_ChaincodeInvocationSpec Input);
  checkEnclaveEndorsement fetch (cis_Args cis) ccAction.

Definition ecc_Validate (fetch : option fetched) (envelopeBytes policyBytes : bytes) : verdict :=
  policyErr (acts ← envelope_actions envelopeBytes; for_actions (ecc_action fetch) acts).

Definition ercc_action (fetch : option fetched) (act : bytes) : go_res unit :=
  cap ← or_error (GetChaincodeActionPayload act);
  ccAction ← endorsed_action cap;
  checkAttestation fetch ccAction.

Definition ercc_Validate (fetch : option fetched) (envelopeBytes policyBytes : bytes) : verdict :=
  policyErr (acts ← envelope_actions envelopeBytes; for_actions (ercc_action fetch) acts).

(** ** The plugins *)

Context {D : DefaultVscc}.

Definition convertErrorTypeOrPanic (r : verdict) : verdict :=
  match r with
  | Nil => Nil
  | Err VSCCExecutionFailureError => Err ExecutionFailureError
  | Err VSCCEndorsementPolicyError => Err VSCCEndorsementPolicyError
  | Err _ | Panics => Panics
  end.

(** A plugin: its two validators, [nil] before [Init]. *)
Record Validation := MkValidation {
  DefaultTxValidator : option DefaultValidation;
  TxValidator : option StateFetcher }.

Definition plugin_New : Validation := MkValidation None None.

(** The last dependency that is a state fetcher is used. When the default
    validation cannot be initialised the fields are set all the same. *)
Definition plugin_Init (v : Validation) (dependencies : list Dependency) : verdict * Validation :=
  let sf := fold_left (λ sf dep, match as_StateFetcher dep with Some f => Some f | None => sf end) dependencies None in
  match sf with
  | None => (Err OtherError, v)
  | Some sf =>
      let '(ok, d) := default_Init DefaultValidationFactory_New dependencies in
      (if ok : bool then Nil else Err OtherError, MkValidation (Some d) (Some sf))
  end.

(** [Validate] of a plugin, over the validator of its own. *)
Definition plugin_Validate (own : option fetched → bytes → bytes → verdict) (v : Validation) (w : peer)
  (block : option Block) (namespace : bytes) (txPosition actionPosition : Z) (contextData : list ContextDatum) : verdict :=
  match contextData with
  | [] => Panics
  | datum :: _ =>
      match as_SerializedPolicy datum with
      | None => Panics
      | Some serializedPolicy =>
          match block with
          | None | Some (MkBlock _ None) => Err OtherError
          | Some (MkBlock header (Some data) as b) =>
              if bool_decide (Z.of_nat (length data) <= txPosition)%Z then Err OtherError
              else
                match header with
                | None => Err OtherError
                | Some _ =>
                    match DefaultTxValidator v with
                    | None => Panics
                    | Some d =>
                        match default_Validate d w b namespace txPosition actionPosition contextData with
                        | Nil =>
                            match TxValidator v with
                            | None => Panics
                            | Some sf =>
                                if bool_decide (txPosition < 0)%Z then Panics
                                else convertErrorTypeOrPanic
                                       (own (FetchState sf w) (default [] (data !! Z.to_nat txPosition)) serializedPolicy)
                            end
                        | r => convertErrorTypeOrPanic r
                        end
                    end
                end
          end
      end
  end.

Definition ECCValidation_Validate := plugin_Validate ecc_Validate.
Definition ERCCValidation_Validate := plugin_Validate ercc_Validate.
End plugins.

(** ** What an accepted envelope means *)

Section sound.
Context {G : GoLib} {R : RegLib} {P : Protos}.

Lemma policyErr_Nil {A} (r : go_res A) : policyErr r = Nil ↔ ∃ a, r = Ret a.
Proof. destruct r; cbn; split; try done; [by eauto|by intros [? ?]..]. Qed.

Lemma for_actions_iff f acts : for_actions f acts = Ret tt ↔ ∀ act, act ∈ acts → f act = Ret tt.
Proof.
  induction acts as [|act acts IH]; cbn [for_actions]; [split; [by intros _ ? ?%not_elem_of_nil|done]|].
  destruct (f act) as [[]| |] eqn:E; cbn [mbind go_bind].
  - rewrite IH. split; [intros H a [->|Ha]%elem_of_cons; [done|by apply H]|]. intros H a Ha. apply H. by right.
  - split; [done|]. intros H. rewrite H in E; [done|by left].
  - split; [done|]. intros H. rewrite H in E; [done|by left].
Qed.

(** The read and write sets of an action and of an envelope. *)
Definition action_rwset (act : bytes) : go_res transaction :=
  cap ← or_error (GetChaincodeActionPayload act);
  ccAction ← endorsed_action cap;
  or_error (FromProtoBytes (default [] (act_results ccAction))).
Fixpoint actions_rwset (acts : list bytes) : go_res transaction :=
  match acts with
  | [] => Ret []
  | act :: acts' => tx ← action_rwset act; txs ← actions_rwset acts'; Ret (tx ++ txs)
  end.
Definition envelope_rwset (envelopeBytes : bytes) : go_res transaction :=
  acts ← envelope_actions envelopeBytes; actions_rwset acts.

Lemma actions_rwset_in acts tx ns : actions_rwset acts = Ret tx → ns ∈ tx →
  ∃ act tx1, act ∈ acts ∧ action_rwset act = Ret tx1 ∧ ns ∈ tx1.
Proof.
  revert tx. induction acts as [|act acts IH]; intros tx Htx Hin; cbn [actions_rwset] in Htx.
  { injection Htx as <-. by apply not_elem_of_nil in Hin. }
  go_inv Htx. go_inv Htx. injection Htx as <-. apply elem_of_app in Hin as [Hin|Hin].
  - exists act, a. split_and!; [by left|done..].
  - destruct (IH a0) as (act' & tx1 & H1 & H2); [done..|]. exists act', tx1. split; [by right|done].
Qed.

(** The registry's validator accepts an envelope if its check accepts the read
    and write sets. *)
Lemma ercc_Validate_sound fetch e policy tx : ercc_Validate fetch e policy = Nil → envelope_rwset e = Ret tx →
  ∀ ns, ns ∈ tx → check_ercc_ns fetch ns = Ret tt.
Proof.
  unfold ercc_Validate, envelope_rwset. intros [[] H]%policyErr_Nil Htx ns Hin. go_inv H.
  destruct (actions_rwset_in _ _ _ Htx Hin) as (act & tx1 & Ha & E1 & Hin1). rewrite for_actions_iff in H.
  pose proof (H act Ha) as Hact. unfold ercc_action in Hact. unfold action_rwset in E1.
  go_inv Hact. cbn [or_error mbind go_bind] in E1. go_inv Hact. cbn [mbind go_bind] in E1. unfold checkAttestation in Hact.
  go_inv Hact. cbn [or_error] in E1. injection E1 as ->. by eapply check_ercc_all_in.
Qed.

(** Without the state a registration is not accepted. *)
Lemma check_ercc_unread ns : NameSpace ns = bs "ercc" → check_ercc_ns None ns ≠ Ret tt.
Proof.
  unfold check_ercc_ns. intros Hn H. rewrite bool_decide_false in H by (intros Hne; by apply Hne).
  destruct (Writes ns) as [|[key value] [|]]; [done| |done]. go_inv H.
  destruct (pem_Decode IntelPubPEM) as [[block rest]|]; [|done]. do 2 go_inv H.
  case_match; [done|]. case_match; [done|]. go_inv H. by case_match.
Qed.

(** The signature of an enclave over a call and one name space of its read and
    write set. *)
Definition signs (pk_der signature args responseData : bytes) (ns : NsRwSet) : Prop :=
  ∃ rset rs pk, readset ns = Ret rset ∧
    UnmarshalECDSASignature signature = Ret rs ∧ ParsePKIXPublicKey pk_der = Some (Some pk) ∧
    ecdsa_Verify pk (Sum256 (Sum256 (args ++ responseData ++ concat rset ++ concat (writeset ns)))) rs.1 rs.2 = true.

Lemma Verify_sound args rd rset wset sg pk_der : Verify args rd rset wset sg pk_der = Ret true →
  ∃ rs pk, UnmarshalECDSASignature sg = Ret rs ∧ ParsePKIXPublicKey pk_der = Some (Some pk) ∧
    ecdsa_Verify pk (Sum256 (Sum256 (args ++ rd ++ concat rset ++ concat wset))) rs.1 rs.2 = true.
Proof.
  unfold Verify. intros H. go_inv H. go_inv H. destruct o as [pk|]; [|done]. injection H as H. eauto.
Qed.

Lemma check_ns_sound st Args payload ns : check_ns st Args payload ns = Ret tt → NameSpace ns = bs "ecc" →
  ∃ args rest text response, Args = args :: rest ∧ payload = Some text ∧ json_Unmarshal text = Some response ∧
    let pk_der := default [] (PublicKey response) in
    registered st pk_der ∧ signs pk_der (default [] (Signature response)) args (default [] (ResponseData response)) ns.
Proof.
  unfold check_ns. intros H Hn. rewrite bool_decide_false in H by (intros Hne; by apply Hne).
  destruct Args as [|args rest]; [done|]. destruct payload as [text|]; [|done]. go_inv H.
  destruct (GetState' st _ _) as [[report|]|] eqn:Eg; [|done..]. go_inv H. go_inv H. destruct a0; [|done].
  exists args, rest, text, r. split_and!; [done..|by exists report|]. exists a. destruct (Verify_sound _ _ _ _ _ _ Heqg0) as (rs & pk & ?).
  by exists rs, pk.
Qed.

Lemma check_all_in st Args payload tx ns : check_all st Args payload tx = Ret tt → ns ∈ tx →
  check_ns st Args payload ns = Ret tt.
Proof.
  induction tx as [|n tx IH]; [by intros _ ?%not_elem_of_nil|]. cbn [check_all]. intros H [->|Hin]%elem_of_cons.
  - by destruct (check_ns st Args payload n) as [[]| |].
  - apply IH; [|done]. by destruct (check_ns st Args payload n) as [[]| |].
Qed.

(** The chaincode's validator accepts an envelope only with the signature of a
    registered key over every name space of the chaincode in it. *)
Lemma ecc_Validate_sound fetch e policy tx : ecc_Validate fetch e policy = Nil → envelope_rwset e = Ret tx →
  ∀ ns, ns ∈ tx → NameSpace ns = bs "ecc" → ∃ st args pk_der signature responseData,
    fetch = Some st ∧ registered st pk_der ∧ signs pk_der signature args responseData ns.
Proof.
  unfold ecc_Validate, envelope_rwset. intros [[] H]%policyErr_Nil Htx ns Hin Hn. go_inv H.
  destruct (actions_rwset_in _ _ _ Htx Hin) as (act & tx1 & Ha & E1 & Hin1). rewrite for_actions_iff in H.
  pose proof (H act Ha) as Hact. unfold ecc_action in Hact. unfold action_rwset in E1.
  go_inv Hact. cbn [or_error mbind go_bind] in E1. go_inv Hact. cbn [mbind go_bind] in E1. go_inv Hact. go_inv Hact.
  unfold checkEnclaveEndorsement in Hact. destruct fetch as [st|]; [|done]. cbn [or_error mbind go_bind] in Hact. go_inv Hact. cbn [or_error] in E1. injection E1 as ->.
  pose proof (check_all_in _ _ _ _ _ Hact Hin1) as Hns.
  destruct (check_ns_sound _ _ _ _ Hns Hn) as (args & rest & text & response & _ & _ & _ & Hreg & Hsig).
  by exists st, args, (default [] (PublicKey response)), (default [] (Signature response)), (default [] (ResponseData response)).
Qed.
End sound.

(** ** A channel whose peers run both plugins *)

Section channel.
Context {G : GoLib} {R : RegLib} {P : Protos} {D : DefaultVscc}.
Implicit Types (v : Validation) (w : peer) (ch before : gmap (bytes * bytes) bytes).

Lemma convert_Nil r : convertErrorTypeOrPanic r = Nil ↔ r = Nil.
Proof. by destruct r as [|[]|]. Qed.

(** A plugin that accepts: the default validation accepted, and so did the
    plugin's validator. *)
Lemma plugin_Validate_Nil own v w h data name i pos ctx :
  plugin_Validate own v w (Some (MkBlock h (Some data))) name (Z.of_nat i) pos ctx = Nil →
  ∃ d sf policy e, DefaultTxValidator v = Some d ∧ TxValidator v = Some sf ∧ data !! i = Some e ∧
    default_Validate d w (MkBlock h (Some data)) name (Z.of_nat i) pos ctx = Nil ∧ own (FetchState sf w) e policy = Nil.
Proof.
  unfold plugin_Validate. destruct ctx as [|datum ctx]; [done|]. destruct (as_SerializedPolicy datum) as [policy|]; [|done].
  case_bool_decide as Hpos; [done|]. destruct h; [|done]. destruct (DefaultTxValidator v) as [d|]; [|done].
  destruct (default_Validate _ _ _ _ _ _ _) as [|e|] eqn:Ed; [|by destruct e|done].
  destruct (TxValidator v) as [sf|]; [|done]. rewrite bool_decide_false by lia. rewrite Nat2Z.id, convert_Nil.
  destruct (lookup_lt_is_Some_2 data i) as [e He]; [lia|]. rewrite He. intros H. by exists d, sf, policy, e.
Qed.

(** The peer's state holds the channel, and its fetchers read it. *)
Context (channel_of : peer → gmap (bytes * bytes) bytes).
Context (fetch_channel : ∀ sf w st, FetchState sf w = Some st → st = fetch_of (channel_of w)).
Context (ecc ercc : Validation).

(** The transactions of a block from a position on. Any of them may be left out
    by the peer; the instantiation of the chaincode is a transaction of Fabric's
    life cycle and writes what [Init] writes; any other one that writes to the
    chaincode's or to the registry's name space passed the plugin for it. *)
Inductive commit_txs (w : peer) (b : Block) : nat → channel → list bytes → channel → Prop :=
  | ct_nil i ch : commit_txs w b i ch [] ch
  | ct_skip i ch e data ch' : commit_txs w b (S i) ch data ch' → commit_txs w b i ch (e :: data) ch'
  | ct_deploy i ch e data ch' mr :
      commit_txs w b (S i) (apply_tx ch [MkNs (bs "ecc") [] [] [Setup.Init mr]]) data ch' →
      commit_txs w b i ch (e :: data) ch'
  | ct_apply i ch e data ch' tx :
      envelope_rwset e = Ret tx →
      (writes_to (bs "ecc") tx → ∃ pos ctx, ECCValidation_Validate ecc w (Some b) (bs "ecc") (Z.of_nat i) pos ctx = Nil) →
      (writes_to (bs "ercc") tx → ∃ pos ctx, ERCCValidation_Validate ercc w (Some b) (bs "ercc") (Z.of_nat i) pos ctx = Nil) →
      commit_txs w b (S i) (apply_tx ch tx) data ch' → commit_txs w b i ch (e :: data) ch'.

Inductive on_channel : channel → Prop :=
  | on_start ch : (∀ key, ch !! (bs "ecc", key) = None ∧ ch !! (bs "ercc", key) = None) → on_channel ch
  | on_block w h data ch' : on_channel (channel_of w) →
      commit_txs w (MkBlock h (Some data)) 0 (channel_of w) data ch' → on_channel ch'.

Lemma drop_next {A} (l : list A) i x r : drop i l = x :: r → l !! i = Some x ∧ drop (S i) l = r.
Proof.
  intros H. split; [|by rewrite <-Nat.add_1_r, <-drop_drop, H]. rewrite <-(Nat.add_0_r i), <-lookup_drop. by rewrite H.
Qed.

Lemma check_ercc_all_iff fetch tx : (∀ ns, ns ∈ tx → check_ercc_ns fetch ns = Ret tt) → check_ercc_all fetch tx = Ret tt.
Proof.
  induction tx as [|n tx IH]; intros H; [done|]. cbn [check_ercc_all]. rewrite (H n) by (by left).
  apply IH. intros ns ?. apply H. by right.
Qed.

(** The registry sees a block of [Registry.commits]. *)
Lemma commit_txs_registry w h full i ch data ch' : drop i full = data →
  commit_txs w (MkBlock h (Some full)) i ch data ch' → ∃ txs, commits (channel_of w) ch txs ch'.
Proof.
  intros Hd H. revert Hd. induction H as [i ch|i ch e data ch' H IH|i ch e data ch' mr H IH|i ch e data ch' tx Htx _ Hv H IH];
    intros Hd; [by exists []; constructor|apply drop_next in Hd as [Hi Hd]; destruct (IH Hd) as [txs Hc]..].
  - by exists txs.
  - eexists (_ :: txs). apply commits_apply; [|exact Hc]. intros (ns & Hin & Hn & _).
    apply list_elem_of_singleton in Hin as ->. discriminate.
  - exists (tx :: txs). apply commits_apply; [|exact Hc]. intros Hw.
    destruct (Hv Hw) as (pos & ctx & (d & sf & policy & e' & _ & _ & He & _ & Hown)%plugin_Validate_Nil).
    rewrite Hi in He. injection He as <-. pose proof (ercc_Validate_sound _ _ _ _ Hown Htx) as Hns.
    destruct (FetchState sf w) as [st|] eqn:Ef.
    + apply fetch_channel in Ef as ->. by apply check_ercc_all_iff.
    + destruct Hw as (ns & Hin & Hn & _). by destruct (check_ercc_unread ns Hn (Hns ns Hin)).
Qed.

Lemma on_channel_registry ch : on_channel ch → reachable ch.
Proof.
  induction 1 as [ch H|w h data ch' _ IH H]; [apply reachable_start; intros key; apply H|].
  destruct (commit_txs_registry w h data 0 _ data ch' (drop_0 data) H) as [txs Hc]. by eapply reachable_block.
Qed.

(** Where a value of the chaincode after a block comes from. *)
Lemma commit_txs_origin w h full i ch data ch' key value : drop i full = data →
  commit_txs w (MkBlock h (Some full)) i ch data ch' → ch' !! (bs "ecc", key) = Some value →
  ch !! (bs "ecc", key) = Some value ∨ (∃ mr, (key, value) = Setup.Init mr) ∨
  ∃ ns args pk_der signature responseData, NameSpace ns = bs "ecc" ∧ (key, value) ∈ Writes ns ∧
    registered (fetch_of (channel_of w)) pk_der ∧ signs pk_der signature args responseData ns.
Proof.
  intros Hd H Hv. revert Hd. induction H as [i ch|i ch e data ch' H IH|i ch e data ch' mr H IH|i ch e data ch' tx Htx He _ H IH];
    intros Hd; [by left|apply drop_next in Hd as [Hi Hd]; destruct (IH Hv Hd) as [H'|?]; [|by right]..].
  - by left.
  - apply apply_tx_lookup in H' as [|(ns & ->%list_elem_of_singleton & _ & Hw)]; [by left|].
    apply list_elem_of_singleton in Hw. eauto.
  - apply apply_tx_lookup in H' as [|(ns & Hin & Hn & Hw)]; [by left|]. right; right.
    destruct He as (pos & ctx & (d & sf & policy & e' & _ & _ & He & _ & Hown)%plugin_Validate_Nil).
    { exists ns. split_and!; [done..|]. intros E. rewrite E in Hw. by apply not_elem_of_nil in Hw. }
    rewrite Hi in He. injection He as <-.
    destruct (ecc_Validate_sound _ _ _ _ Hown Htx ns Hin Hn) as (st & args & pk_der & sg & rd & Ef & Hreg & Hsig).
    apply fetch_channel in Ef as ->. by exists ns, args, pk_der, sg, rd.
Qed.

(** C6: the two plugins together. On a channel whose blocks hold any transactions
    and whose peers apply a transaction that writes to the chaincode's or to the
    registry's name space only if the plugin for it accepts its envelope, every
    value of the chaincode was either written when the chaincode was
    instantiated, or is a write of a transaction whose arguments, response, read
    set and write set carry the signature of a key that was then registered, by
    an entry the registry's plugin checked: the attestation service signed a
    body whose quote has the measurement then on the channel and the hash of a
    key with the SHA-256 hash of this one. *)
Theorem chaincode_state_attested ch key value : on_channel ch → ch !! (bs "ecc", key) = Some value →
  (∃ mr, (key, value) = Setup.Init mr) ∨
  ∃ before ns args pk_der signature responseData entry checked mr,
    on_channel before ∧ NameSpace ns = bs "ecc" ∧ (key, value) ∈ Writes ns ∧
    signs pk_der signature args responseData ns ∧
    before !! (bs "ercc", b64_encode (Sum256 pk_der)) = Some entry ∧
    reachable checked ∧ checked !! (bs "ecc", bs "MRENCLAVE") = Some mr ∧
    attested mr (b64_encode (Sum256 pk_der)) entry.
Proof.
  induction 1 as [ch H|w h data ch' Hw IH H]; intros Hv; [by destruct (H key) as [H1 _]; rewrite H1 in Hv|].
  destruct (commit_txs_origin w h data 0 _ data ch' key value (drop_0 data) H Hv)
    as [Hold|[?|(ns & args & pk_der & sg & rd & Hn & Hin & Hreg & Hsig)]]; [by apply IH|by left|right].
  destruct (registered_attested _ _ (on_channel_registry _ Hw) Hreg) as (entry & checked & mr & He & Hc & Hm & Ha).
  by exists (channel_of w), ns, args, pk_der, sg, rd, entry, checked, mr.
Qed.
End channel.

(** ** Failures to read the peer's state *)

Section failures.
Context {G : GoLib} {R : RegLib} {P : Protos} {D : DefaultVscc}.

(** [Init]: a plugin that was initialised has both validators. *)
Lemma plugin_Init_ok v deps v' : plugin_Init v deps = (Nil, v') →
  ∃ d sf dep, DefaultTxValidator v' = Some d ∧ TxValidator v' = Some sf ∧ dep ∈ deps ∧ as_StateFetcher dep = Some sf.
Proof.
  unfold plugin_Init. destruct (fold_left _ deps None) as [sf|] eqn:E; [|done].
  destruct (default_Init _ _) as [[] d]; [|done]. intros H. injection H as <-.
  assert (∀ start, fold_left (λ o dep, match as_StateFetcher dep with Some f => Some f | None => o end) deps start = Some sf →
    start = Some sf ∨ ∃ dep, dep ∈ deps ∧ as_StateFetcher dep = Some sf) as Hf.
  { clear E. induction deps as [|dep deps IH]; intros start H; [by left|]. cbn [fold_left] in H.
    destruct (IH _ H) as [H'|(dep' & ? & ?)]; [|right; exists dep'; split; [by right|done]].
    destruct (as_StateFetcher dep) as [f|] eqn:Ed; [|by left]. right. exists dep. split; [by left|congruence]. }
  destruct (Hf None E) as [|(dep & ? & ?)]; [done|]. by exists d, sf, dep.
Qed.

(** The step of a plugin after the guards on its arguments. *)
Lemma plugin_Validate_step own v d sf w h data name i pos datum policy more e :
  as_SerializedPolicy datum = Some policy → DefaultTxValidator v = Some d → TxValidator v = Some sf → data !! i = Some e →
  let ctx := datum :: more in
  plugin_Validate own v w (Some (MkBlock (Some h) (Some data))) name (Z.of_nat i) pos ctx =
  convertErrorTypeOrPanic
    match default_Validate d w (MkBlock (Some h) (Some data)) name (Z.of_nat i) pos ctx with
    | Nil => own (FetchState sf w) e policy
    | Err e => Err e
    | Panics => Panics
    end.
Proof.
  intros Hp Hd Hs He ctx. subst ctx. unfold plugin_Validate. cbn beta iota. rewrite Hp, Hd, Hs.
  pose proof (lookup_lt_Some _ _ _ He). rewrite bool_decide_false by lia.
  destruct (default_Validate _ _ _ _ _ _ _); [|done..]. rewrite bool_decide_false by lia. by rewrite Nat2Z.id, He.
Qed.

(** C36: failures to compute a verdict are not reported as such. A validation
    plugin of Fabric answers with [ExecutionFailureError] when it could not
    decide, and the peer then stops instead of marking the transaction invalid.
    When Fabric's default validation answers so, an initialised plugin panics;
    when the default validation accepts but the state of the channel cannot be
    fetched, the chaincode's plugin rejects a transaction whose first action
    decodes as one that violates the endorsement policy. It answers with an
    execution failure if and only if the default validation returned the
    error [VSCCExecutionFailureError], never for a failure of its own check. *)
Theorem execution_failures_lost v deps v' w h data i pos datum policy more e : plugin_Init v deps = (Nil, v') →
  as_SerializedPolicy datum = Some policy → data !! i = Some e →
  let ctx := datum :: more in
  ∃ d sf, DefaultTxValidator v' = Some d ∧ TxValidator v' = Some sf ∧
  let verdict_of_default := default_Validate d w (MkBlock (Some h) (Some data)) (bs "ecc") (Z.of_nat i) pos ctx in
  let verdict := ECCValidation_Validate v' w (Some (MkBlock (Some h) (Some data))) (bs "ecc") (Z.of_nat i) pos ctx in
  (verdict_of_default = Err ExecutionFailureError → verdict = Panics) ∧
  (verdict = Err ExecutionFailureError ↔ verdict_of_default = Err VSCCExecutionFailureError) ∧
  (verdict_of_default = Nil → FetchState sf w = None →
   ∀ act cap ccAction Input cis acts, envelope_actions e = Ret (act :: acts) →
     GetChaincodeActionPayload act = Some cap → endorsed_action cap = Ret ccAction →
     GetChaincodeProposalPayload (ChaincodeProposalPayload cap) = Some Input →
     Unmarshal_ChaincodeInvocationSpec Input = Some cis →
     verdict = Err VSCCEndorsementPolicyError).
Proof.
  intros (d & sf & _ & Hd & Hs & _)%plugin_Init_ok Hp He ctx. exists d, sf. split; [done|]. split; [done|].
  intros vd verdict. assert (verdict = convertErrorTypeOrPanic
    match vd with Nil => ecc_Validate (FetchState sf w) e policy | Err e => Err e | Panics => Panics end) as -> by (by apply plugin_Validate_step). split_and!.
  - by intros ->.
  - destruct vd as [|[]|]; [|done..]. unfold ecc_Validate. by destruct (_ ≫= _).
  - intros -> Hf act cap cc input cis acts H1 H2 H3 H4 H5. unfold ecc_Validate. rewrite H1. cbn [mbind go_bind for_actions].
    unfold ecc_action. rewrite H2. cbn [or_error mbind go_bind]. rewrite H3. cbn [mbind go_bind].
    rewrite H4. cbn [or_error mbind go_bind]. rewrite H5. cbn [or_error mbind go_bind]. by rewrite Hf.
Qed.
End failures.

(** ** Honest transactions *)

Section honest.
Context {C : Crypto} {L : CryptoLaws C} {PL : Platform} {PLL : PlatformLaws PL} {O : OpenSSL} {F : FabricPb}.
Context {G : GoLib} {GL : GoLaws G C PL} {R : RegLib} {RL : RegLaws R} {GS : Setup.GoSetup} {GSL : Setup.SetupLaws GS PL}.
Context {S : Type} {SS : ShimStub S} {SIM : Simulator S} {SL : ShimLaws S SS SIM} {SH : SameHash C O} {SW : SameWire G F}.
Context {P : Protos} {D : DefaultVscc}.

(** An envelope with one action and the arguments of its proposal. *)
Record carries (e : bytes) (Args : list bytes) (action : protos_ChaincodeAction) : Prop := {
  carried : ∃ act cap Input cis, envelope_actions e = Ret [act] ∧ GetChaincodeActionPayload act = Some cap ∧
    endorsed_action cap = Ret action ∧ GetChaincodeProposalPayload (ChaincodeProposalPayload cap) = Some Input ∧
    Unmarshal_ChaincodeInvocationSpec Input = Some cis ∧ cis_Args cis = Args }.

(** An initialised plugin of a peer with a given channel accepts an envelope,
    wherever it is in a block, if the default validation does. *)
Definition accepted (Validate : Validation → peer → option Block → bytes → Z → Z → list ContextDatum → verdict)
  (ch : gmap (bytes * bytes) bytes) (e : bytes) : Prop :=
  ∀ v d sf w h data name i pos datum policy more, DefaultTxValidator v = Some d → TxValidator v = Some sf →
    FetchState sf w = Some (fetch_of ch) → as_SerializedPolicy datum = Some policy → data !! i = Some e →
    let block := MkBlock (Some h) (Some data) in
    default_Validate d w block name (Z.of_nat i) pos (datum :: more) = Nil →
    Validate v w (Some block) name (Z.of_nat i) pos (datum :: more) = Nil.

Lemma ecc_accepted (e : bytes) (Args : list bytes) (action : protos_ChaincodeAction) (ch : gmap (bytes * bytes) bytes) : carries e Args action →
  checkEnclaveEndorsement (Some (fetch_of ch)) Args action = Ret tt → accepted ECCValidation_Validate ch e.
Proof.
  intros [(act & cap & Input & cis & H1 & H2 & H3 & H4 & H5 & <-)] Hc v d sf w h data name i pos datum policy more Hd Hs Hf Hp He block Hv.
  etrans; [by eapply plugin_Validate_step|]. fold block. rewrite Hv, Hf. apply convert_Nil, policyErr_Nil. exists tt.
  rewrite H1. cbn [mbind go_bind for_actions]. unfold ecc_action. rewrite H2. cbn [or_error mbind go_bind]. rewrite H3.
  cbn [mbind go_bind]. rewrite H4. cbn [or_error mbind go_bind]. rewrite H5. cbn [or_error mbind go_bind]. by rewrite Hc.
Qed.
Lemma ercc_accepted (e : bytes) (Args : list bytes) (action : protos_ChaincodeAction) (tx : list NsRwSet) (ch : gmap (bytes * bytes) bytes) : carries e Args action →
  FromProtoBytes (default [] (act_results action)) = Some tx → check_ercc_all (Some (fetch_of ch)) tx = Ret tt →
  accepted ERCCValidation_Validate ch e.
Proof.
  intros [(act & cap & _ & _ & H1 & H2 & H3 & _)] Htx Hc v d sf w h data name i pos datum policy more Hd Hs Hf Hp He block Hv.
  etrans; [by eapply plugin_Validate_step|]. fold block. rewrite Hv, Hf. apply convert_Nil, policyErr_Nil. exists tt.
  rewrite H1. cbn [mbind go_bind for_actions]. unfold ercc_action. rewrite H2. cbn [or_error mbind go_bind]. rewrite H3.
  cbn [mbind go_bind]. unfold checkAttestation. rewrite Htx. cbn [or_error mbind go_bind]. by rewrite Hc.
Qed.

(** C13: from the setup of an enclave to committed auctions. On a channel where the
    chaincode is instantiated with the enclave's measurement, a setup that can
    go through, of an enclave whose key and whose ledger enclave's key have no
    coordinate with a leading zero byte (a shorter one does not bind,
    [bind_needs_full_coordinates]), binds the enclave to the ledger enclave and
    returns its permits; the envelope with its registration passes the
    registry's plugin if the default validation accepts it; and once the
    registration is on the channel, the answer to every create, submit and close
    call through the wrapper at a peer in step with the ledger enclave, in an
    envelope with the read and write set the call left in the simulator, passes
    the chaincode's plugin if the default validation accepts it. *)
Theorem setup_then_commit (ln : Setup.launch) (q : Setup.quoting) (dec : gmap bytes bytes)
  (st : Setup.StubImpl (S := S)) (pk tpk quote body : bytes) (header : bytes → bytes)
  (report treport : sgx_report_t) (GetState : bytes → option (option bytes)) (name ercc : bytes) (more : list bytes)
  (ch0 : gmap (bytes * bytes) bytes) :
  Setup.can_set_up (S := S) ln q dec st pk tpk quote body header report treport → Setup.full_keys pk tpk →
  let ch := apply_tx ch0 [MkNs (bs "ecc") [] [] [Setup.Init (b64_encode (mr_enclave report))]] in
  ∃ payload key value st', Setup.setup ln q SGX_SUCCESS dec GetState (name :: ercc :: more) st =
      Ok (Ret (payload, Some (key, value)), st') ∧
    tlcc_pk (Setup.es st') = tpk ∧ Setup.sem st' = Setup.sem st ∧
    let registration := [MkNs (bs "ercc") [] [] [(key, value)]] in
    (∀ e Args action, carries e Args action → FromProtoBytes (default [] (act_results action)) = Some registration →
       accepted ERCCValidation_Validate ch e) ∧
    ∀ c cur ctx stub l, call_ok c → call_peer c → ledger (tlcc (Shim.world (shim (Setup.es st)))) = l → lock l = false →
      in_sync stub l → tx_reads stub = [] → tx_writes stub = [] → committed_record l (call_auction c) cur →
      (∀ d, (ecdsa_sign d (enclave_sk (Setup.es st'))).1 = SGX_SUCCESS) →
      let args := args_text (call_args c) in
      ∃ response stub' es', invoke_cc [args; []] stub ctx (Setup.es st') = Ok (Ret response, Some stub', es') ∧
        ∀ e action results rw, carries e [args; []] action →
          act_results action = Some results → act_response_payload action = Some response →
          decode_TxReadWriteSet results = Some (MkTxRwset [MkNsRwset (Some (bs "ecc")) (Some rw)]) →
          decode_KVRWSet rw = Some (fabric_rwset stub') →
          accepted ECCValidation_Validate (apply_tx ch registration) e.
Proof.
  intros Hcan Hfull ch.
  destruct (Setup.setup_endorses ln q dec st pk tpk quote body header report treport GetState name ercc more ch0 Hcan Hfull)
    as (payload & key & value & st' & Hrun & Ht & Hs & Hchk & Hcalls).
  exists payload, key, value, st'. do 3 (split; [done|]). intros registration. split.
  - intros e Args action Hcar Htx. by eapply ercc_accepted.
  - intros c cur ctx stub l H1 H2 H3 H4 H5 H6 H7 H8 H9 args.
    destruct (Hcalls c cur ctx stub l H1 H2 H3 H4 H5 H6 H7 H8 H9) as (response & stub' & es' & Hi & Hacc).
    exists response, stub', es'. split; [exact Hi|]. intros e action results rw Hcar Hr Hp Htx Hkv.
    eapply ecc_accepted; [exact Hcar|]. by eapply Hacc.
Qed.
End honest.

(** ** A concrete peer

    Envelopes are the names of what is in them: the registration of
    [Registry.made_tx], or the auction call "create" with a given answer. The
    state fetchers are those that work and those that do not. *)
Module ToyPlugins.
Import ToyGo ToyReg.

Definition plug_lib : GoLib := {|
  asn1_Marshal := asn1_Marshal (GoLib := go_lib sample_pb);
  asn1_Unmarshal := asn1_Unmarshal (GoLib := go_lib sample_pb);
  ParsePKIXPublicKey := ParsePKIXPublicKey (GoLib := go_lib sample_pb);
  MarshalPKIXPublicKey := MarshalPKIXPublicKey (GoLib := go_lib sample_pb);
  IsOnCurve := IsOnCurve (GoLib := go_lib sample_pb);
  ecdsa_Verify := ecdsa_Verify (GoLib := go_lib sample_pb);
  Sum256 := Sum256 (GoLib := go_lib sample_pb);
  json_Unmarshal := json_Unmarshal (GoLib := go_lib sample_pb);
  FromProtoBytes b := if bool_decide (b = bs "register") then Some made_tx
                      else FromProtoBytes (GoLib := go_lib sample_pb) b |}.

Definition protos_of (payload : bytes) : Protos := {|
  Envelope := bytes;
  GetEnvelopeFromBlock b := Some b;
  GetPayload b := Some b;
  GetTransaction b := Some [b];
  GetChaincodeActionPayload b := Some (MkCap b (Some b));
  GetProposalResponsePayload b := Some b;
  Unmarshal_ChaincodeAction b := Some (MkAction (Some b) (Some payload) (Some (bs "ecc")));
  GetChaincodeProposalPayload b := Some b;
  Unmarshal_ChaincodeInvocationSpec _ := Some (MkCis (Some (Some [args_text (call_args (Create A)); []]))) |}.

#[export] Instance accepting : DefaultVscc := {|
  peer := gmap (bytes * bytes) bytes;
  StateFetcher := bool;
  FetchState works ch := if works then Some (fetch_of ch) else None;
  Dependency := bool;
  as_StateFetcher := Some;
  DefaultValidation := unit;
  DefaultValidationFactory_New := tt;
  default_Init d _ := (true, d);
  ContextDatum := bytes;
  as_SerializedPolicy := Some;
  default_Validate _ _ _ _ _ _ _ := Nil |}.

Definition working_plugin : Validation := MkValidation (Some tt) (Some true).
Definition broken_plugin : Validation := MkValidation (Some tt) (Some false).

(** The channel the peer holds. *)
Definition holds (ch : gmap (bytes * bytes) bytes) : channel := ch.
Lemma fetch_works (sf : bool) (w : peer) st : FetchState sf w = Some st → st = fetch_of (holds w).
Proof. by destruct sf; [intros [= <-]|]. Qed.

Lemma same_ercc f tx : check_ercc_all (G := plug_lib) f tx = check_ercc_all (G := go_lib sample_pb) f tx.
Proof. reflexivity. Qed.
Lemma same_ecc st args payload tx :
  check_all (G := plug_lib) st args payload tx = check_all (G := go_lib sample_pb) st args payload tx.
Proof. reflexivity. Qed.

Lemma register_accepted payload :
  ERCCValidation_Validate (G := plug_lib) (P := protos_of payload) working_plugin measured
    (Some (MkBlock (Some 1%Z) (Some [bs "register"]))) (bs "ercc") (Z.of_nat 0) 0 [[]] = Nil.
Proof.
  etrans; [by apply (plugin_Validate_step _ working_plugin tt true)|]. cbn [default_Validate accepting].
  apply convert_Nil, policyErr_Nil. exists tt. cbn [FetchState accepting].
  change (_ ≫= _) with (_ ← check_ercc_all (G := plug_lib) (Some (fetch_of measured)) made_tx; Ret tt).
  rewrite same_ercc. by rewrite (proj1 made_tx_accepted).
Qed.

Definition registered_channel : channel := apply_tx measured made_tx.
Definition create_ns : NsRwSet :=
  ns_of (bs "ecc") (er_fabric (call_er (Create A) None (rand_iv 0) (MkVersion 0 0))).

Lemma create_answered : ∃ payload,
  check_all (G := go_lib sample_pb) (fetch_of registered_channel) [args_text (call_args (Create A)); []] (Some payload) [create_ns] = Ret tt.
Proof.
  destruct (accepts_auction (G := go_lib sample_pb) (PL := go_platform) (S := sim)
    (Create A) None 7 (go_enclave at_genesis) (sim_of at_genesis) at_genesis 0)
    as (payload & sg & pk & pk_der & stub' & es' & Hsw & Hm & _ & _ & Hfab & Hacc);
    [by_evaluation|by_evaluation|reflexivity|reflexivity|reflexivity|apply sim_in_sync|reflexivity|reflexivity
    |reflexivity|reflexivity|reflexivity|reflexivity|].
  assert (pk = made_report.2) as ->.
  { apply (f_equal (λ r, match r with Ok k => k | _ => [] end)) in Hsw. rewrite <-Hsw. apply (bool_decide_unpack _). vm_compute. exact I. }
  assert (pk_der = made_der) as -> by (unfold made_der; by rewrite Hm).
  exists payload.
  apply (Hacc (fetch_of registered_channel) (MkAction (Some (bs "create")) (Some payload) (Some (bs "ecc"))) (bs "create") (bs "create"));
    [apply made_tx_accepted|reflexivity|reflexivity|reflexivity|].
  rewrite Hfab. reflexivity.
Qed.

Lemma create_accepted payload :
  check_all (G := go_lib sample_pb) (fetch_of registered_channel) [args_text (call_args (Create A)); []] (Some payload) [create_ns] = Ret tt →
  ECCValidation_Validate (G := plug_lib) (P := protos_of payload) working_plugin registered_channel
    (Some (MkBlock (Some 2%Z) (Some [bs "create"]))) (bs "ecc") (Z.of_nat 0) 0 [[]] = Nil.
Proof.
  intros H. etrans; [by apply (plugin_Validate_step _ working_plugin tt true)|]. cbn [default_Validate accepting].
  apply convert_Nil, policyErr_Nil. exists tt. cbn [FetchState accepting].
  change (_ ≫= _) with (_ ← check_all (G := plug_lib) (fetch_of registered_channel) [args_text (call_args (Create A)); []]
    (Some payload) [create_ns]; Ret tt).
  rewrite same_ecc. by rewrite H.
Qed.

(** The chaincode is instantiated, its enclave registered, an auction created. *)
Lemma create_on_channel payload :
  check_all (G := go_lib sample_pb) (fetch_of registered_channel) [args_text (call_args (Create A)); []] (Some payload) [create_ns] = Ret tt →
  on_channel (G := plug_lib) (P := protos_of payload) (D := accepting) holds working_plugin working_plugin
    (apply_tx registered_channel [create_ns]).
Proof.
  intros H. apply (on_block (D := accepting) _ _ _ registered_channel (Some 2%Z) [bs "create"]).
  - apply (on_block (D := accepting) _ _ _ measured (Some 1%Z) [bs "register"]).
    + apply (on_block (D := accepting) _ _ _ (∅ : gmap (bytes * bytes) bytes) (Some 0%Z) [bs "deploy"]); [by apply on_start|].
      apply ct_deploy with (mr := b64_encode (repeat x05 32)). constructor.
    + apply ct_apply with (tx := made_tx); [reflexivity| | |constructor].
      * intros (ns & Hin & Hn & _). apply list_elem_of_singleton in Hin as ->. discriminate.
      * intros _. exists 0%Z, [[]]. apply register_accepted.
  - apply ct_apply with (tx := [create_ns]); [reflexivity| | |constructor].
    + intros _. exists 0%Z, [[]]. by apply create_accepted.
    + intros (ns & Hin & Hn & _). apply list_elem_of_singleton in Hin as ->. discriminate.
Qed.
End ToyPlugins.

Import ToyGo ToyReg Setup.ToySetup ToyPlugins.

Lemma chaincode_state_attested_witness : ∃ payload ch key value pk_der signature args responseData ns,
  on_channel (G := plug_lib) (P := protos_of payload) (D := accepting) holds working_plugin working_plugin ch ∧
  ch !! (bs "ecc", key) = Some value ∧ (key, value) ∈ Writes ns ∧ signs (G := plug_lib) pk_der signature args responseData ns.
Proof.
  destruct create_answered as [payload H]. pose proof (create_on_channel payload H) as Hon.
  destruct (Writes create_ns) as [|[key value] ws] eqn:Ew; [apply (f_equal length) in Ew; discriminate Ew|].
  assert (apply_tx registered_channel [create_ns] !! (bs "ecc", key) = Some value) as Hv.
  { cbn [apply_tx fold_left]. unfold apply_ns. rewrite Ew. destruct ws; [|apply (f_equal length) in Ew; discriminate Ew].
    cbn [fold_left]. by rewrite lookup_insert_eq. }
  destruct (chaincode_state_attested (G := plug_lib) (P := protos_of payload) (D := accepting) holds fetch_works
    working_plugin working_plugin _ key value Hon Hv)
    as [[mr E]|(before & ns & args & pk_der & sg & rd & entry & checked & mr & _ & _ & Hin & Hsig & _)].
  - exfalso. apply (f_equal fst) in E. cbn [fst Setup.Init] in E. apply (f_equal (head (A := bytes * bytes))) in Ew.
    subst key. apply (f_equal (fmap fst)) in Ew. cbn in Ew. discriminate Ew.
  - by exists payload, (apply_tx registered_channel [create_ns]), key, value, pk_der, sg, args, rd, ns.
Defined.

(** A peer whose state cannot be read rejects the call it would accept
    otherwise. *)
Lemma execution_failures_lost_witness :
  plugin_Init plugin_New [false] = (Nil, broken_plugin) ∧
  ECCValidation_Validate (G := plug_lib) (P := protos_of []) broken_plugin (∅ : gmap (bytes * bytes) bytes)
    (Some (MkBlock (Some 2%Z) (Some [bs "create"]))) (bs "ecc") (Z.of_nat 0) 0 [[]] = Err VSCCEndorsementPolicyError.
Proof.
  split; [reflexivity|].
  destruct (execution_failures_lost (G := plug_lib) (P := protos_of []) (D := accepting) plugin_New [false] broken_plugin
    (∅ : gmap (bytes * bytes) bytes) 2%Z [bs "create"] 0 0 [] [] [] (bs "create")) as (d & sf & Hd & Hs & _ & _ & Hf);
    [reflexivity|reflexivity|reflexivity|]. injection Hs as <-.
  by eapply Hf.
Defined.

(** A setup and an auction call after it; the plugins are those of
    [ToyPlugins]. *)
Lemma setup_then_commit_witness :
  ∃ payload key value st', Setup.setup (G := go_lib sample_pb) (PL := go_platform) Setup.ToySetup.working Setup.ToySetup.quotes_all
      SGX_SUCCESS Setup.ToySetup.decorated (λ _, None) [bs "setup"; bs "ercc"] Setup.ToySetup.started =
      Ok (Ret (payload, Some (key, value)), st') ∧
    ∃ response stub' es', invoke_cc (G := go_lib sample_pb) (PL := go_platform) [args_text (call_args (Create A)); []]
      (sim_of at_genesis) 7 (Setup.es st') = Ok (Ret response, Some stub', es').
Proof.
  destruct (setup_then_commit (G := go_lib sample_pb) (PL := go_platform) (S := sim) (P := protos_of []) (D := accepting)
    Setup.ToySetup.working Setup.ToySetup.quotes_all Setup.ToySetup.decorated Setup.ToySetup.started
    Setup.ToySetup.new_pk (repeat x00 64) Setup.ToySetup.new_quote (answer_body Setup.ToySetup.new_quote)
    (answer_header (answer_body Setup.ToySetup.new_quote)) Setup.ToySetup.new_report Setup.ToySetup.ledger_report
    (λ _, None) (bs "setup") (bs "ercc") [] ∅ Setup.ToySetup.started_can Setup.ToySetup.started_keys)
    as (payload & key & value & st' & Hrun & _ & _ & _ & Hcalls).
  exists payload, key, value, st'. split; [exact Hrun|].
  destruct (Hcalls (Create A) None 7%Z (sim_of at_genesis) at_genesis) as (response & stub' & es' & Hi & _);
    [by_evaluation|by_evaluation|reflexivity|reflexivity|apply sim_in_sync|reflexivity|reflexivity|reflexivity|reflexivity|].
  by exists response, stub', es'.
Defined.
End Plugins.
